(* ===== verification/_CoqProject ===== *)
-Q . S2P
Prelude.v
Message.v
Murmur.v
NodeInfo.v
SlabEntry.v
SlabAllocator.v
ClockEvictor.v
KVStore.v
LocalStore.v
OrderedMap.v
RingStore.v
RingMigration.v
Codec.v
SwimMessage.v
MemberList.v
Disseminator.v
SwimProtocol.v
SwimLoops.v
FailureDetector.v
SwimTypes.v
Node.v
Stream.v
WaitGroup.v
Topology.v
ClientSockets.v
RefreshThread.v
CircuitBreaker.v
ConnectionPool.v
BufferPool.v
PeerClient.v
Coordinator.v
Server.v
PensieveClient.v
ClientLifecycle.v
Cluster.v
Args.v
Cli.v
Main.v
Benchmark.v
Json.v
BenchReport.v
Task.v
TaskHandle.v
IoUring.v
Socket.v
Forwarding.v
Distributed.v
ClusterClient.v
NodeProcess.v
