(* ===== verification/Prelude.v ===== *)
(** * Pensieve: a verified model of the distributed cache

    Pensieve is a distributed in-memory cache: nodes that gossip about each
    other with the SWIM protocol, place keys on a consistent-hash ring, store
    values in a slab-allocated memory with CLOCK eviction, and serve a binary
    protocol over TCP with coroutines on io_uring; a client library with its own
    ring, a command line and a benchmark talk to them.  The sources are under
    [src/src]; this library is a model of them in Gallina with theorems about it.

    ** The parts and the files that model them

    Foundations:
    - [Prelude]: machine integers ([u16], [u32], [u64] wrap explicitly), bytes,
      little-endian encoding, memory slices, hint databases.
    - [Stream]: the interface of a connection ([Stream], [StreamLaws]) with
      [read_exact] and [write_all] of [io/stream_utils.h]; [pipe] is an instance.
    - [Codec]: the combinators the gossip format is written with.

    Storage ([storage/]):
    - [SlabEntry]: the layout of an entry in a byte memory ([slab_entry.h]).
    - [SlabAllocator]: arena, size classes, pages, [allocate], [deallocate].
    - [ClockEvictor]: [track], [untrack], [evict_one].
    - [KVStore]: what a store promises, an abstract cache that may drop keys
      only to make room ([KVStore], [KVStoreLaws]).
    - [LocalStore]: shards, [get], [put] with its eviction loop, [del];
      an instance of the interface.

    Hashing and placement ([hash/], [membership/]):
    - [Murmur]: the three MurmurHash3 variants of [murmurhash3.cpp].
    - [NodeInfo]: node identities, states and their order, key and token hashes
      ([node_info.h], [hasher.h]).
    - [OrderedMap]: [lower_bound] and clockwise walks over an ordered map.
    - [RingStore], [RingMigration]: the ring and the ranges that move when it
      changes.

    Membership ([membership/]):
    - [SwimMessage]: the datagrams.
    - [MemberList], [Disseminator]: what a node knows, and what it passes on.
    - [SwimProtocol]: the handlers, the probing and the reaping, split at the
      suspension points of the coroutines; [swim_step] interleaves them.
    - [SwimLoops]: the coroutines themselves, [run], [stop], the three loops and
      the detached tasks with their program counters; [FailureDetector] and
      [SwimTypes]: what they do over time.
    - [Node]: [main.cpp] wiring the member list to the ring; [Main] its
      configuration; [NodeProcess]: [main] from its first constructor to its last
      destructor, with what the process takes from the system.

    Serving ([coordinator/], [protocol/]):
    - [Message]: requests and responses on the wire ([message.h]).
    - [WaitGroup]: the collapsing of concurrent reads of one key.
    - [PeerClient]: connections to other nodes.
    - [Coordinator]: the operations of [coordinator.cpp]; [Server]: its
      connections as a transition system over store, ring and wait group.
    - [Forwarding], [Distributed]: many nodes, forwarding to each other.

    I/O ([io/]):
    - [Task]: coroutines and symmetric transfer ([task.h]); [TaskHandle]: who
      owns a frame, through moves, [spawn] and destruction.
    - [IoUring]: queues, completions and the loop ([io_uring_context.cpp],
      [awaitable.h], the callbacks of [tcp_connection.cpp]).
    - [Socket]: ownership of descriptors ([tcp_connection.cpp],
      [udp_socket.cpp], [tcp_listener.cpp]); the rest of the listener, the
      context's constructor and destructor and the signal handler are in
      [NodeProcess].
    - [BufferPool]: registered buffers ([buffer_pool.cpp]).

    Client ([sdk/]):
    - [Topology], [CircuitBreaker], [ConnectionPool], [PensieveClient]: one file
      per class; [PensieveClient] uses its connections through the interface
      [Transport], of which the descriptors of the system are an instance.
    - [Cluster]: one client and one node together; [ClusterClient]: several
      clients and a cluster, over a network that fails; [ClientLifecycle]: a client
      from construction to destruction on the descriptors of the system.
    - [ClientSockets]: [tcp_connect], [send_all], [recv_all] and [fetch_topology]
      over the system calls; [RefreshThread]: the topology manager shared by
      client threads and the background refresh.
    - [Args], [Cli]: number and seed parsing, the command line.
    - [Benchmark], [BenchReport]: the workers, and the reports and [main] around
      them; [Json]: a reader for the file it writes.

    Pure C++ functions are Gallina functions of the same name; a method takes the
    object's state and returns the new one, [option] stands for an empty
    optional, a null pointer, a closed connection or an exception, as the comment
    at the definition says.  Where operations interleave (gossip, wait groups,
    connections, the event loop, descriptors, threads) a step relation has one
    rule per segment of code between two suspension points or two accesses to
    shared state, and the theorems hold for every reachable state.  [SwimLoops]
    and [RefreshThread] keep the program counters as data, with one function that
    resumes a coroutine or a thread from where it is.

    ** What the theorems show

    - Storage: [local_store_refines_cache] (the detailed store with its memory
      implements the abstract cache), [store_accounting], [put_then_get],
      [put_oversize], [allocate_sound], [evict_one_second_chance].
    - Ring: [get_node_for_key_nearest], [get_n_nodes_spec],
      [ring_minimal_disruption], [compute_migrations_exact].
    - Gossip: [swim_forward] and [member_updates_forward] (records only move
      forward), [gossip_converges] (the order of delivery does not matter),
      [refutation], [reap_exact], [enqueue_newest], [disseminator_rations],
      [swim_deserialize_serialize], [node_routes_to_members].
    - Failure detection: [swim_loops_refine] (the coroutines are runs of the
      interleaving model), [probe_suspects_silent] (a peer is suspected exactly
      when its pings went unanswered, and no pending entry leaks),
      [swim_well_typed] (the state keeps its widths and every datagram sent can be
      decoded), [stop_ends_loops].
    - Serving: [server_answers] (every connection gets, in order, exactly one
      justified answer per request), [wait_group_single_flight],
      [parse_request_spec], [parse_serialize_request].
    - Cluster: [forwarding_terminates] and [cluster_answers] (no circles, however
      much the nodes' views differ), [cluster_is_one_cache] (with one view, the
      cluster is one cache), [clients_share_one_cache] (so it is for clients that
      retry over connections that fail).
    - Client: [execute_session] (retries, breaker and statistics of one call),
      [fetch_topology_serves], [client_routes_like_node],
      [request_end_to_end], [allow_exact], [connection_pool_ownership],
      [cli_main_commands], [fetch_topology_leaks_nothing] and
      [client_leaks_nothing] (descriptors and address lists),
      [background_refresh_safe] and [stop_background_refresh_returns] (the shared
      topology under every interleaving), [refresh_alone],
      [bench_main_reports] and [benchmark_counts].
    - I/O: [task_runs_as_call], [tasks_own_frames], [io_exactly_once],
      [run_and_stop], [sockets_own_descriptors], [buffer_pool_exclusive],
      [buffer_pool_lifetime], [node_process_cleans_up] (what constructors that
      throw, and the end of [main], give back).
    - Hashing: [murmurhash3_x86_32_ref] (the code computes the reference
      definition) and [murmurhash3_x86_128_bounds] (where it reads out of
      bounds).

    Theorems that rest on what is not in the repository name it: [StdSort] is the
    law of [std::sort], [StreamLaws] that of a connection, [connect_law] that of
    the descriptors a kernel hands out, [SystemLaws] that of the socket calls and
    the resolver, [ClusterNet] that of the network between clients and nodes (a
    request is lost or executed by the time its sender is told how the call
    ended), [kernel_ok] that of the descriptors and mappings a node gets,
    [DoubleLaws] what the benchmark needs of floating point; [mmap],
    the clock, name resolution and random choices are arguments of the
    definitions.

    ** Bounds and fuel

    [read_exact] and [write_all] run with the number of bytes as fuel, since
    every successful call moves at least one.  [evict_one] has the bound of the
    code, two rounds over the entries: the first clears every access bit and the
    second finds a victim, as [evict_one_second_chance] shows.  The loop of [put] makes
    at most [kMaxEvictAttempts + 1] rounds by its own bound.  The ring walk takes
    as many steps as there are tokens.  [deliver] forwards over at most as many
    hops as there are nodes, which [cluster_answers] shows to be enough.
    [task_runs_as_call] gives the number of transfers a task needs.
    [probe_suspects_silent] holds until 2^32 pings have been sent, when the
    sequence number wraps.  [stop_ends_loops] and
    [stop_background_refresh_returns] bound the steps after a stop by the program
    counters, the latter by the 65535 nodes an answer can hold.  [parse_json] has
    twice the length of its input as fuel, and [render_reads] shows that it is
    enough.

    ** Not modelled

    Memory order and locks: an operation that holds a lock from start to end is
    one step; [WaitGroup::complete], which takes two, is two.  Time: a timeout may
    complete at any moment after it was armed.  The kernel, the C++ compiler's
    transformation of coroutines, [getaddrinfo] and [inet_pton], socket options,
    floating-point arithmetic, messages on standard error and what [main] prints,
    [std::hash] (a hash map is a finite map, its order of iteration that of
    [map_to_list]), and [common/types.h] and [common/result.h], which hold aliases,
    constants and a type that nothing uses.  What is left of the headers are class
    declarations whose members are modelled with their definitions. *)

From Stdlib Require Export Strings.Byte.
From stdpp Require Export sorting countable.
From stdpp Require Export base numbers list list_numbers gmap.
From Stdlib Require Strings.String.
Export String.StringSyntax.

Open Scope Z_scope.

(** ** Hint databases and tactics of the development *)

Create HintDb pensieve discriminated.
Create Rewrite HintDb pensieve.

(** Case analysis on the [match]/[if]/[decide] that blocks the goal or a
    hypothesis, with the equation kept and the contradictions discharged. *)
Ltac split_match :=
  repeat (case_match || case_decide || case_bool_decide); simplify_eq/=.

(** ** Machine integers *)

(** An unsigned integer of [w] bits is a [Z]; every C++ operation that can
    leave the range is followed by [wrap w]. *)
Definition wrap (w z : Z) : Z := z mod 2 ^ w.
Definition u8 (z : Z) : Z := wrap 8 z.
Definition u16 (z : Z) : Z := wrap 16 z.
Definition u32 (z : Z) : Z := wrap 32 z.
Definition u64 (z : Z) : Z := wrap 64 z.

Definition in_width (w z : Z) : Prop := 0 <= z < 2 ^ w.

#[export] Instance in_width_dec w z : Decision (in_width w z).
Proof. unfold in_width. apply _. Defined.

Declare Scope pensieve_scope.
Delimit Scope pensieve_scope with pensieve.
Notation "x ⊞ y" := (u32 (x + y)) (at level 50, left associativity) : pensieve_scope.
Notation "x ⊠ y" := (u32 (x * y)) (at level 40, left associativity) : pensieve_scope.
Notation "x ⊕ y" := (Z.lxor x y) (at level 45, left associativity) : pensieve_scope.

Lemma wrap_in_width w z : 0 <= w -> in_width w (wrap w z).
Proof. intros. apply Z.mod_pos_bound. lia. Qed.

Lemma wrap_small w z : in_width w z -> wrap w z = z.
Proof. apply Z.mod_small. Qed.

Lemma wrap_wrap w z : wrap w (wrap w z) = wrap w z.
Proof. apply Z.mod_mod_divide, Z.divide_refl. Qed.

Lemma wrap_mod_le w w' z : 0 <= w <= w' -> wrap w (wrap w' z) = wrap w z.
Proof.
  intros. unfold wrap. apply Z.mod_mod_divide.
  exists (2 ^ (w' - w)). rewrite <- Z.pow_add_r by lia. f_equal. lia.
Qed.

Lemma in_width_lxor w x y :
  0 <= w -> in_width w x -> in_width w y -> in_width w (Z.lxor x y).
Proof.
  intros Hw Hx Hy. unfold in_width in *. split; [apply Z.lxor_nonneg; lia|].
  destruct (decide (Z.lxor x y = 0)) as [->|]; [lia|].
  apply Z.log2_lt_pow2; [apply Z.le_neq; split; [apply Z.lxor_nonneg; lia|done]|].
  assert (0 < w) by (destruct (decide (w = 0)) as [->|]; [|lia];
    assert (x = 0) as -> by lia; assert (y = 0) as -> by lia; done).
  eapply Z.le_lt_trans; [apply Z.log2_lxor; lia|].
  apply Z.max_lub_lt.
  - destruct (decide (x = 0)) as [->|]; [done|apply Z.log2_lt_pow2; lia].
  - destruct (decide (y = 0)) as [->|]; [done|apply Z.log2_lt_pow2; lia].
Qed.

Lemma in_width_shiftr w x n : 0 <= n -> in_width w x -> in_width w (Z.shiftr x n).
Proof.
  intros Hn [Hx Hx']. rewrite Z.shiftr_div_pow2 by done. split.
  - apply Z.div_pos; lia.
  - eapply Z.le_lt_trans; [|done]. apply Z.div_le_upper_bound; nia.
Qed.

#[export] Hint Extern 1 (_ <= _) => lia : pensieve.
#[export] Hint Extern 1 (_ <= _ <= _) => lia : pensieve.
#[export] Hint Resolve wrap_in_width in_width_lxor in_width_shiftr : pensieve.

(** ** Bytes and byte strings *)

(** [uint8_t] and [char] are [Byte.byte]; a [std::string], a
    [std::vector<uint8_t>] and a [std::span<const uint8_t>] are [list byte]. *)
#[export] Instance byte_eq_dec : EqDecision byte := Byte.byte_eq_dec.

#[export] Program Instance byte_countable : Countable byte :=
  inj_countable Byte.to_N Byte.of_N _.
Next Obligation. intros b. apply Byte.of_to_N. Qed.

Abbreviation bytes := (list byte).

Definition byte_to_Z (b : byte) : Z := Z.of_N (Byte.to_N b).
(** [static_cast<uint8_t>(z)]. *)
Definition byte_of_Z (z : Z) : byte := default x00 (Byte.of_N (Z.to_N (u8 z))).

(** A string literal of the source as its bytes. *)
Definition lit (s : String.string) : bytes := String.list_byte_of_string s.
Arguments lit _%_string_scope.

Lemma byte_to_Z_range b : in_width 8 (byte_to_Z b).
Proof.
  unfold in_width, byte_to_Z. pose proof (Byte.to_N_bounded b). lia.
Qed.

Lemma byte_to_Z_of_Z z : byte_to_Z (byte_of_Z z) = u8 z.
Proof.
  unfold byte_of_Z, byte_to_Z. pose proof (wrap_in_width 8 z ltac:(lia)) as Hr.
  unfold u8, in_width in *. destruct (Byte.of_N _) as [b|] eqn:E; simpl.
  - apply Byte.to_of_N_iff in E. rewrite E. lia.
  - apply Byte.of_N_None_iff in E. lia.
Qed.

Lemma byte_of_to_Z b : byte_of_Z (byte_to_Z b) = b.
Proof.
  unfold byte_of_Z, byte_to_Z, u8. rewrite wrap_small by apply byte_to_Z_range.
  by rewrite N2Z.id, Byte.of_to_N.
Qed.

#[export] Instance byte_to_Z_inj : Inj (=) (=) byte_to_Z.
Proof. intros b1 b2 E. by rewrite <- (byte_of_to_Z b1), E, byte_of_to_Z. Qed.

Lemma byte_of_Z_u8 z : byte_of_Z (u8 z) = byte_of_Z z.
Proof. unfold byte_of_Z, u8. by rewrite wrap_wrap. Qed.

#[export] Hint Resolve byte_to_Z_range : pensieve.
#[export] Hint Rewrite byte_to_Z_of_Z byte_of_to_Z : pensieve.

(** ** Little-endian words, as [memcpy] of an integer lays them out *)

Definition le_encode (n : nat) (z : Z) : bytes :=
  byte_of_Z <$> Z_to_little_endian (Z.of_nat n) 8 z.
Definition le_decode (bs : bytes) : Z := little_endian_to_Z 8 (byte_to_Z <$> bs).

#[global] Arguments le_encode : simpl never.
#[global] Arguments le_decode : simpl never.

Lemma length_le_encode n z : length (le_encode n z) = n.
Proof.
  unfold le_encode. rewrite length_fmap.
  pose proof (length_Z_to_little_endian (Z.of_nat n) 8 z). lia.
Qed.

Lemma byte_to_of_Z_list (zs : list Z) :
  Forall (fun z => 0 <= z < 2 ^ 8) zs -> byte_to_Z <$> (byte_of_Z <$> zs) = zs.
Proof.
  induction 1 as [|z zs Hz _ IH]; csimpl; [done|].
  rewrite byte_to_Z_of_Z, IH. f_equal. by apply wrap_small.
Qed.

Lemma le_decode_encode n z : le_decode (le_encode n z) = wrap (8 * Z.of_nat n) z.
Proof.
  unfold le_decode, le_encode.
  rewrite byte_to_of_Z_list by (apply Z_to_little_endian_bound; lia).
  rewrite little_endian_to_Z_to_little_endian by lia.
  unfold wrap. by rewrite Z.mul_comm.
Qed.

Lemma byte_to_Z_list_bound (bs : bytes) :
  Forall (fun z => 0 <= z < 2 ^ 8) (byte_to_Z <$> bs).
Proof. apply Forall_fmap, Forall_true. intros b. apply byte_to_Z_range. Qed.

Lemma le_encode_decode n bs : length bs = n -> le_encode n (le_decode bs) = bs.
Proof.
  intros <-. unfold le_decode, le_encode.
  rewrite Z_to_little_endian_to_Z.
  - rewrite <- list_fmap_compose. etrans; [|apply list_fmap_id].
    apply list_fmap_ext. intros i b _. apply byte_of_to_Z.
  - by rewrite length_fmap.
  - lia.
  - apply byte_to_Z_list_bound.
Qed.

Lemma le_decode_bound bs : in_width (8 * Z.of_nat (length bs)) (le_decode bs).
Proof.
  unfold in_width, le_decode.
  pose proof (little_endian_to_Z_bound 8 (byte_to_Z <$> bs) ltac:(lia)
                (byte_to_Z_list_bound bs)) as H.
  rewrite length_fmap in H. by rewrite Z.mul_comm.
Qed.

#[export] Hint Rewrite length_le_encode : pensieve.

#[export] Hint Rewrite @length_app : pensieve.

Lemma le_decode_take_bound n bs : in_width (8 * Z.of_nat n) (le_decode (take n bs)).
Proof.
  pose proof (le_decode_bound (take n bs)) as [H1 H2]. split; [done|].
  eapply Z.lt_le_trans; [exact H2|]. apply Z.pow_le_mono_r; [lia|].
  rewrite length_take. lia.
Qed.

(** ** Loops whose body can fail *)

(** [for (x : l) s = f(s, x)], stopping at the first body that fails. *)
Fixpoint mfoldl {A S : Type} (f : S -> A -> option S) (s : S) (l : list A) : option S :=
  match l with
  | [] => Some s
  | x :: l => s' ← f s x; mfoldl f s' l
  end.

Lemma mfoldl_app {A S} (f : S -> A -> option S) s l1 l2 :
  mfoldl f s (l1 ++ l2) = s' ← mfoldl f s l1; mfoldl f s' l2.
Proof.
  revert s. induction l1 as [|x l1 IH]; intros s; simpl; [done|].
  destruct (f s x); simpl; [apply IH|done].
Qed.

(** A loop whose body succeeds on every state of an invariant returns a state
    of the invariant. *)
Lemma mfoldl_inv {A S} (P : S -> Prop) (f : S -> A -> option S) s l :
  P s -> (forall s x, x ∈ l -> P s -> exists s', f s x = Some s' /\ P s') ->
  exists s', mfoldl f s l = Some s' /\ P s'.
Proof.
  revert s. induction l as [|x l IH]; intros s Hs Hf; simpl; [by eauto|].
  destruct (Hf s x) as (s1 & E & Hs1); [set_solver|done|]. rewrite E. simpl.
  apply IH; [done|]. intros s2 y Hy. apply Hf. set_solver.
Qed.

(** ** Bits of a word *)

Lemma in_width_testbit_high w x i : in_width w x -> w <= i -> Z.testbit x i = false.
Proof.
  intros Hx Hi. rewrite <- (wrap_small w x Hx). unfold wrap.
  destruct (decide (0 <= w)); [by apply Z.mod_pow2_bits_high; lia|].
  unfold in_width in Hx. rewrite Z.pow_neg_r in Hx by lia. lia.
Qed.

Lemma in_width_of_bits w x :
  0 <= w -> 0 <= x -> (forall i, w <= i -> Z.testbit x i = false) -> in_width w x.
Proof.
  intros Hw Hx Hb. assert (x = wrap w x) as ->; [|by apply wrap_in_width].
  unfold wrap. apply Z.bits_inj'. intros i Hi. destruct (decide (i < w)).
  - by rewrite Z.mod_pow2_bits_low by lia.
  - rewrite Z.mod_pow2_bits_high by lia. apply Hb. lia.
Qed.

Lemma in_width_ext w x y :
  in_width w x -> in_width w y ->
  (forall i, 0 <= i < w -> Z.testbit x i = Z.testbit y i) -> x = y.
Proof.
  intros Hx Hy Hb. apply Z.bits_inj'. intros i Hi. destruct (decide (i < w)).
  - apply Hb. lia.
  - by rewrite !(in_width_testbit_high w) by (done || lia).
Qed.

Lemma in_width_lor w x y : 0 <= w -> in_width w x -> in_width w y -> in_width w (Z.lor x y).
Proof.
  intros Hw Hx Hy. apply in_width_of_bits; [done| |].
  - apply Z.lor_nonneg. unfold in_width in *. lia.
  - intros i Hi. rewrite Z.lor_spec. by rewrite !(in_width_testbit_high w).
Qed.

Lemma in_width_mono w w' x : 0 <= w <= w' -> in_width w x -> in_width w' x.
Proof.
  intros Hw [H1 H2]. split; [done|]. eapply Z.lt_le_trans; [done|].
  apply Z.pow_le_mono_r; lia.
Qed.

#[export] Hint Resolve in_width_lor : pensieve.

(** Disjoint bits: exclusive or is addition. *)
Lemma lxor_shiftl_add a b n :
  0 <= n -> in_width n a -> Z.lxor (Z.shiftl b n) a = Z.shiftl b n + a.
Proof.
  intros Hn Ha. symmetry. apply Z.add_nocarry_lxor. apply Z.bits_inj_0. intros i.
  destruct (decide (0 <= i)); [|by apply Z.testbit_neg_r; lia].
  rewrite Z.land_spec. destruct (decide (i < n)).
  - by rewrite Z.shiftl_spec_low by lia.
  - by rewrite (in_width_testbit_high n a), andb_false_r by (done || lia).
Qed.

(** Multiplication by a constant that has an inverse modulo [2^w] loses
    nothing. *)
Lemma wrap_mul_inverse w c d x :
  0 <= w -> wrap w (c * d) = 1 -> in_width w x -> wrap w (wrap w (x * c) * d) = x.
Proof.
  intros Hw Hcd Hx. rewrite <- (wrap_small w x Hx) at 2. unfold wrap in *.
  rewrite Zmult_mod_idemp_l, <- Z.mul_assoc, <- Zmult_mod_idemp_r, Hcd.
  by rewrite Z.mul_1_r.
Qed.

(** [x ^= x >> s], and the function that undoes it. *)
Definition xorshift (s x : Z) : Z := Z.lxor x (Z.shiftr x s).
Definition xorshift_inv (s y : Z) : Z :=
  Z.lxor (Z.lxor y (Z.shiftr y s)) (Z.shiftr y (2 * s)).

Lemma in_width_shiftr_zero w x n : in_width w x -> w <= n -> 0 <= n -> Z.shiftr x n = 0.
Proof.
  intros [H1 H2] Hw Hn. rewrite Z.shiftr_div_pow2 by done. apply Z.div_small.
  split; [done|]. eapply Z.lt_le_trans; [done|]. apply Z.pow_le_mono_r; lia.
Qed.

Lemma lxor_cancel a b c d :
  Z.lxor (Z.lxor (Z.lxor a b) (Z.lxor b c)) (Z.lxor c d) = Z.lxor a d.
Proof.
  apply Z.bits_inj'. intros i _. rewrite !Z.lxor_spec.
  by destruct (Z.testbit a i), (Z.testbit b i), (Z.testbit c i), (Z.testbit d i).
Qed.

Lemma lxor_cancel' a b c d :
  Z.lxor (Z.lxor (Z.lxor a b) c) (Z.lxor (Z.lxor b c) d) = Z.lxor a d.
Proof.
  apply Z.bits_inj'. intros i _. rewrite !Z.lxor_spec.
  by destruct (Z.testbit a i), (Z.testbit b i), (Z.testbit c i), (Z.testbit d i).
Qed.

Lemma xorshift_inv_l w s x :
  0 < s -> w <= 3 * s -> in_width w x -> xorshift_inv s (xorshift s x) = x.
Proof.
  intros Hs Hw Hx. unfold xorshift_inv, xorshift.
  rewrite !Z.shiftr_lxor, !Z.shiftr_shiftr by lia.
  replace (s + s) with (2 * s) by lia.
  rewrite lxor_cancel, (in_width_shiftr_zero w) by (done || lia). apply Z.lxor_0_r.
Qed.

Lemma xorshift_inv_r w s x :
  0 < s -> w <= 3 * s -> in_width w x -> xorshift s (xorshift_inv s x) = x.
Proof.
  intros Hs Hw Hx. unfold xorshift_inv, xorshift.
  rewrite !Z.shiftr_lxor, !Z.shiftr_shiftr by lia.
  replace (s + s) with (2 * s) by lia.
  rewrite lxor_cancel', (in_width_shiftr_zero w) by (done || lia). apply Z.lxor_0_r.
Qed.

Lemma in_width_xorshift w s x : 0 <= w -> 0 <= s -> in_width w x -> in_width w (xorshift s x).
Proof. unfold xorshift. auto with pensieve. Qed.

Lemma in_width_xorshift_inv w s x :
  0 <= w -> 0 <= s -> in_width w x -> in_width w (xorshift_inv s x).
Proof.
  intros. unfold xorshift_inv.
  repeat (apply in_width_lxor || apply in_width_shiftr); (done || lia).
Qed.

#[export] Hint Resolve in_width_xorshift in_width_xorshift_inv : pensieve.

Lemma le_decode_nil : le_decode [] = 0.
Proof. done. Qed.

Lemma le_decode_cons b bs :
  le_decode (b :: bs) = Z.lxor (Z.shiftl (le_decode bs) 8) (byte_to_Z b).
Proof.
  pose proof (byte_to_Z_range b) as Hb.
  rewrite lxor_shiftl_add by (done || lia). unfold le_decode. csimpl.
  rewrite Z.lor_comm, <- Z.lxor_lor, lxor_shiftl_add; [done|lia|done|].
  apply Z.bits_inj_0. intros i. destruct (decide (0 <= i)); [|by apply Z.testbit_neg_r; lia].
  rewrite Z.land_spec. destruct (decide (i < 8)).
  - by rewrite Z.shiftl_spec_low by lia.
  - by rewrite (in_width_testbit_high 8 (byte_to_Z b)), andb_false_r by (done || lia).
Qed.

#[global] Opaque le_encode le_decode.

Lemma wrap_mul_add_inj w c d e x y :
  0 <= w -> wrap w (c * d) = 1 -> in_width w x -> in_width w y ->
  wrap w (x * c + e) = wrap w (y * c + e) -> x = y.
Proof.
  intros Hw Hcd Hx Hy E.
  assert (wrap w (x * c) = wrap w (y * c)) as E'.
  { replace (x * c) with (x * c + e - e) by lia. replace (y * c) with (y * c + e - e) by lia.
    unfold wrap in *. by rewrite Zminus_mod, E, <- Zminus_mod. }
  rewrite <- (wrap_mul_inverse w c d x), <- (wrap_mul_inverse w c d y) by done.
  by rewrite E'.
Qed.

Lemma lxor_inj_r a x y : Z.lxor a x = Z.lxor a y -> x = y.
Proof.
  intros E. apply (f_equal (Z.lxor a)) in E.
  by rewrite <- !Z.lxor_assoc, Z.lxor_nilpotent, !Z.lxor_0_l in E.
Qed.

Lemma lxor_inj_l a x y : Z.lxor x a = Z.lxor y a -> x = y.
Proof. rewrite !(Z.lxor_comm _ a). apply lxor_inj_r. Qed.

Lemma le_decode_inj bs1 bs2 :
  length bs1 = length bs2 -> le_decode bs1 = le_decode bs2 -> bs1 = bs2.
Proof.
  intros Hl E. rewrite <- (le_encode_decode _ bs1 eq_refl), E, Hl. by apply le_encode_decode.
Qed.

Lemma mfoldl_some {A S} (f : S -> A -> option S) s l :
  (forall s x, x ∈ l -> exists s', f s x = Some s') -> exists s', mfoldl f s l = Some s'.
Proof.
  intros Hf. edestruct (mfoldl_inv (fun _ : S => True) f s l) as (s' & E & _); [done| |by eauto].
  intros s1 x Hx _. destruct (Hf s1 x Hx) as [s2 ->]. eauto.
Qed.

(** ** Finite sets *)

Lemma size_set_map_inj `{Countable A, Countable B} (f : A -> B) (X : gset A) :
  (forall x y, x ∈ X -> y ∈ X -> f x = f y -> x = y) -> size (set_map f X : gset B) = size X.
Proof.
  intros Hinj. unfold set_map. rewrite size_list_to_set.
  - by rewrite length_fmap.
  - apply NoDup_fmap_2_strong; [|apply NoDup_elements].
    intros x y Hx Hy. apply Hinj; by apply elem_of_elements.
Qed.
