(* ===== verification/Message.v ===== *)
(** * The client wire protocol ([src/src/protocol/message.h])

    The 8-byte request and response headers, the two serialisers and the two
    parsers.  A header struct is laid out without padding in little-endian
    order, so [memcpy] of it is the concatenation of its encoded fields. *)

From S2P Require Import Prelude.

(** An [enum class : uint8_t] read from the wire holds any byte: the named
    enumerators, or a value without a name. *)
Inductive Opcode :=
  | Get | Put | Del | ClusterInfo
  | Opcode_unnamed (b : byte).

Inductive Status :=
  | Ok | NotFound | Error
  | Status_unnamed (b : byte).

#[export] Instance Opcode_eq_dec : EqDecision Opcode.
Proof. solve_decision. Defined.
#[export] Instance Status_eq_dec : EqDecision Status.
Proof. solve_decision. Defined.

Definition Opcode_to_byte (op : Opcode) : byte :=
  match op with
  | Get => x01 | Put => x02 | Del => x03 | ClusterInfo => x04
  | Opcode_unnamed b => b
  end.

Definition Opcode_of_byte (b : byte) : Opcode :=
  match b with
  | x01 => Get | x02 => Put | x03 => Del | x04 => ClusterInfo
  | _ => Opcode_unnamed b
  end.

Definition Status_to_byte (st : Status) : byte :=
  match st with
  | Ok => x00 | NotFound => x01 | Error => x02
  | Status_unnamed b => b
  end.

Definition Status_of_byte (b : byte) : Status :=
  match b with
  | x00 => Ok | x01 => NotFound | x02 => Error
  | _ => Status_unnamed b
  end.

(** The representation is canonical: a named value is not spelled by its
    number. *)
Definition Opcode_wf (op : Opcode) : Prop := Opcode_of_byte (Opcode_to_byte op) = op.
Definition Status_wf (st : Status) : Prop := Status_of_byte (Status_to_byte st) = st.

Record RequestHeader := mkRequestHeader {
  rq_opcode : Opcode;
  rq_flags : byte;
  rq_key_len : Z;     (* uint16_t *)
  rq_value_len : Z    (* uint32_t *)
}.

Record ResponseHeader := mkResponseHeader {
  rs_status : Status;
  rs_flags : byte;
  rs_reserved : Z;    (* uint16_t *)
  rs_value_len : Z    (* uint32_t *)
}.

Definition sizeof_header : nat := 8.

(** [memcpy(dst, &hdr, sizeof(hdr))]. *)
Definition RequestHeader_bytes (h : RequestHeader) : bytes :=
  Opcode_to_byte (rq_opcode h) :: rq_flags h ::
  le_encode 2 (rq_key_len h) ++ le_encode 4 (rq_value_len h).

Definition ResponseHeader_bytes (h : ResponseHeader) : bytes :=
  Status_to_byte (rs_status h) :: rs_flags h ::
  le_encode 2 (rs_reserved h) ++ le_encode 4 (rs_value_len h).

(** [memcpy(&hdr, src, sizeof(hdr))]: the caller has checked that 8 bytes are
    there. *)
Definition RequestHeader_of_bytes (d : bytes) : RequestHeader :=
  mkRequestHeader (Opcode_of_byte (nth 0 d x00)) (nth 1 d x00)
    (le_decode (take 2 (drop 2 d))) (le_decode (take 4 (drop 4 d))).

Definition ResponseHeader_of_bytes (d : bytes) : ResponseHeader :=
  mkResponseHeader (Status_of_byte (nth 0 d x00)) (nth 1 d x00)
    (le_decode (take 2 (drop 2 d))) (le_decode (take 4 (drop 4 d))).

Record Request := mkRequest {
  req_opcode : Opcode;
  req_key : bytes;
  req_value : bytes
}.

Record Response := mkResponse {
  resp_status : Status;
  resp_value : bytes
}.

#[export] Instance Request_eq_dec : EqDecision Request.
Proof. solve_decision. Defined.
#[export] Instance Response_eq_dec : EqDecision Response.
Proof. solve_decision. Defined.

Definition request_header (req : Request) : RequestHeader :=
  mkRequestHeader (req_opcode req) x00
    (u16 (Z.of_nat (length (req_key req))))
    (u32 (Z.of_nat (length (req_value req)))).

Definition serialize_request (req : Request) : bytes :=
  RequestHeader_bytes (request_header req) ++ req_key req ++ req_value req.

Definition response_header (resp : Response) : ResponseHeader :=
  mkResponseHeader (resp_status resp) x00 0
    (u32 (Z.of_nat (length (resp_value resp)))).

Definition serialize_response (resp : Response) : bytes :=
  ResponseHeader_bytes (response_header resp) ++ resp_value resp.

Definition parse_request (data : bytes) : option Request :=
  if decide (length data < sizeof_header)%nat then None else
  let hdr := RequestHeader_of_bytes data in
  let payload_size := rq_key_len hdr + rq_value_len hdr in
  if decide (Z.of_nat (length data) < Z.of_nat sizeof_header + payload_size) then None else
  let payload := drop sizeof_header data in
  Some (mkRequest (rq_opcode hdr)
    (take (Z.to_nat (rq_key_len hdr)) payload)
    (take (Z.to_nat (rq_value_len hdr)) (drop (Z.to_nat (rq_key_len hdr)) payload))).

Definition parse_response (data : bytes) : option Response :=
  if decide (length data < sizeof_header)%nat then None else
  let hdr := ResponseHeader_of_bytes data in
  if decide (Z.of_nat (length data) < Z.of_nat sizeof_header + rs_value_len hdr) then None else
  let payload := drop sizeof_header data in
  Some (mkResponse (rs_status hdr) (take (Z.to_nat (rs_value_len hdr)) payload)).

(** ** Headers *)

Lemma Opcode_to_of_byte b : Opcode_to_byte (Opcode_of_byte b) = b.
Proof. by destruct b. Qed.

Lemma Status_to_of_byte b : Status_to_byte (Status_of_byte b) = b.
Proof. by destruct b. Qed.

Lemma Opcode_of_byte_wf b : Opcode_wf (Opcode_of_byte b).
Proof. unfold Opcode_wf. by rewrite Opcode_to_of_byte. Qed.

Lemma length_RequestHeader_bytes h : length (RequestHeader_bytes h) = sizeof_header.
Proof. unfold RequestHeader_bytes. simpl. by rewrite length_app, !length_le_encode. Qed.

Lemma length_ResponseHeader_bytes h : length (ResponseHeader_bytes h) = sizeof_header.
Proof. unfold ResponseHeader_bytes. simpl. by rewrite length_app, !length_le_encode. Qed.

Definition RequestHeader_wf (h : RequestHeader) : Prop :=
  Opcode_wf (rq_opcode h) /\ in_width 16 (rq_key_len h) /\ in_width 32 (rq_value_len h).

Definition ResponseHeader_wf (h : ResponseHeader) : Prop :=
  Status_wf (rs_status h) /\ in_width 16 (rs_reserved h) /\ in_width 32 (rs_value_len h).

(** The two length fields, read back from where the layout puts them. *)
Lemma header_fields b0 b1 z1 z2 rest :
  in_width 16 z1 -> in_width 32 z2 ->
  let d := (b0 :: b1 :: le_encode 2 z1 ++ le_encode 4 z2) ++ rest in
  le_decode (take 2 (drop 2 d)) = z1 /\ le_decode (take 4 (drop 4 d)) = z2.
Proof.
  intros H1 H2 d. subst d. simpl. rewrite <- app_assoc. split.
  - rewrite drop_0, take_app_length' by by rewrite length_le_encode.
    rewrite le_decode_encode. by apply wrap_small.
  - rewrite (drop_app_ge _ _ 2) by (rewrite length_le_encode; lia).
    rewrite length_le_encode, drop_0.
    rewrite take_app_length' by by rewrite length_le_encode.
    rewrite le_decode_encode. by apply wrap_small.
Qed.

Lemma RequestHeader_roundtrip h rest :
  RequestHeader_wf h -> RequestHeader_of_bytes (RequestHeader_bytes h ++ rest) = h.
Proof.
  destruct h as [op fl kl vl]. intros (Hop & Hk & Hv). simpl in *.
  pose proof (header_fields (Opcode_to_byte op) fl kl vl rest Hk Hv) as [E1 E2].
  unfold RequestHeader_of_bytes, RequestHeader_bytes. simpl in *.
  by rewrite E1, E2, Hop.
Qed.

Lemma ResponseHeader_roundtrip h rest :
  ResponseHeader_wf h -> ResponseHeader_of_bytes (ResponseHeader_bytes h ++ rest) = h.
Proof.
  destruct h as [st fl rs vl]. intros (Hst & Hr & Hv). simpl in *.
  pose proof (header_fields (Status_to_byte st) fl rs vl rest Hr Hv) as [E1 E2].
  unfold ResponseHeader_of_bytes, ResponseHeader_bytes. simpl in *.
  by rewrite E1, E2, Hst.
Qed.

(** Conversely the first 8 bytes are determined by the header read from them. *)
Lemma header_bytes_inv (d : bytes) :
  (sizeof_header <= length d)%nat ->
  exists b0 b1, nth 0 d x00 = b0 /\ nth 1 d x00 = b1 /\
  d = (b0 :: b1 :: le_encode 2 (le_decode (take 2 (drop 2 d))) ++
                   le_encode 4 (le_decode (take 4 (drop 4 d)))) ++ drop 8 d.
Proof.
  unfold sizeof_header. intros Hlen.
  do 8 (destruct d as [|? d]; [simpl in Hlen; lia|]).
  eexists _, _. split_and!; [done..|].
  rewrite !le_encode_decode by (simpl; lia). done.
Qed.

Lemma RequestHeader_of_bytes_inv d :
  (sizeof_header <= length d)%nat ->
  d = RequestHeader_bytes (RequestHeader_of_bytes d) ++ drop sizeof_header d.
Proof.
  intros H. destruct (header_bytes_inv d H) as (b0 & b1 & E0 & E1 & E).
  unfold RequestHeader_bytes, RequestHeader_of_bytes. simpl rq_opcode. simpl rq_flags.
  simpl rq_key_len. simpl rq_value_len.
  by rewrite E0, E1, Opcode_to_of_byte.
Qed.

Lemma ResponseHeader_of_bytes_inv d :
  (sizeof_header <= length d)%nat ->
  d = ResponseHeader_bytes (ResponseHeader_of_bytes d) ++ drop sizeof_header d.
Proof.
  intros H. destruct (header_bytes_inv d H) as (b0 & b1 & E0 & E1 & E).
  unfold ResponseHeader_bytes, ResponseHeader_of_bytes. simpl rs_status. simpl rs_flags.
  simpl rs_reserved. simpl rs_value_len.
  by rewrite E0, E1, Status_to_of_byte.
Qed.

(** Only the first 8 bytes matter. *)
Lemma RequestHeader_of_bytes_app raw rest :
  length raw = sizeof_header -> RequestHeader_of_bytes (raw ++ rest) = RequestHeader_of_bytes raw.
Proof. intros H. do 9 (destruct raw as [|? raw]; [try done|]). done. Qed.

Lemma ResponseHeader_of_bytes_app raw rest :
  length raw = sizeof_header -> ResponseHeader_of_bytes (raw ++ rest) = ResponseHeader_of_bytes raw.
Proof. intros H. do 9 (destruct raw as [|? raw]; [try done|]). done. Qed.

Lemma RequestHeader_of_bytes_wf d : RequestHeader_wf (RequestHeader_of_bytes d).
Proof.
  split_and!; [apply Opcode_of_byte_wf|apply (le_decode_take_bound 2)|apply (le_decode_take_bound 4)].
Qed.

(** ** Requests *)

Definition Request_wf (req : Request) : Prop :=
  Opcode_wf (req_opcode req) /\
  Z.of_nat (length (req_key req)) < 2 ^ 16 /\
  Z.of_nat (length (req_value req)) < 2 ^ 32.

Definition Response_wf (resp : Response) : Prop :=
  Status_wf (resp_status resp) /\ Z.of_nat (length (resp_value resp)) < 2 ^ 32.

Lemma request_header_wf req : Opcode_wf (req_opcode req) -> RequestHeader_wf (request_header req).
Proof. intros H. split_and!; [done|apply wrap_in_width; lia..]. Qed.

Lemma response_header_wf resp :
  Status_wf (resp_status resp) -> ResponseHeader_wf (response_header resp).
Proof. intros H. split_and!; [done|done|apply wrap_in_width; lia]. Qed.

(** What the parser makes of a well-formed header followed by a payload. *)
Lemma parse_request_frame h payload :
  RequestHeader_wf h ->
  parse_request (RequestHeader_bytes h ++ payload) =
    if decide (Z.of_nat (length payload) < rq_key_len h + rq_value_len h) then None else
    Some (mkRequest (rq_opcode h) (take (Z.to_nat (rq_key_len h)) payload)
      (take (Z.to_nat (rq_value_len h)) (drop (Z.to_nat (rq_key_len h)) payload))).
Proof.
  intros Hwf. unfold parse_request.
  rewrite length_app, length_RequestHeader_bytes.
  rewrite decide_False by lia. rewrite RequestHeader_roundtrip by done.
  rewrite drop_app_length' by by rewrite length_RequestHeader_bytes.
  repeat case_decide; (done || lia).
Qed.

Lemma parse_response_frame h payload :
  ResponseHeader_wf h ->
  parse_response (ResponseHeader_bytes h ++ payload) =
    if decide (Z.of_nat (length payload) < rs_value_len h) then None else
    Some (mkResponse (rs_status h) (take (Z.to_nat (rs_value_len h)) payload)).
Proof.
  intros Hwf. unfold parse_response.
  rewrite length_app, length_ResponseHeader_bytes.
  rewrite decide_False by lia. rewrite ResponseHeader_roundtrip by done.
  rewrite drop_app_length' by by rewrite length_ResponseHeader_bytes.
  repeat case_decide; (done || lia).
Qed.

Lemma length_serialize_request req :
  length (serialize_request req) =
    (sizeof_header + length (req_key req) + length (req_value req))%nat.
Proof.
  unfold serialize_request. rewrite !length_app, length_RequestHeader_bytes. lia.
Qed.

(** C24: parsing the bytes of a serialised request gives the request back,
    whatever follows it in the buffer, for every key that fits the 16-bit and
    value that fits the 32-bit length field. *)
Theorem parse_serialize_request req rest :
  Request_wf req -> parse_request (serialize_request req ++ rest) = Some req.
Proof.
  intros (Hop & Hk & Hv). unfold serialize_request. rewrite <- app_assoc.
  rewrite parse_request_frame by by apply request_header_wf.
  destruct req as [op k v]. simpl in *. unfold u16, u32.
  rewrite !wrap_small by (split; lia). rewrite !length_app, !Nat2Z.id.
  rewrite decide_False by lia. rewrite <- app_assoc.
  rewrite take_app_length, drop_app_length, take_app_length. done.
Qed.

Lemma parse_serialize_request_witness :
  Request_wf (mkRequest Put (lit "hello") (lit "world")) /\
  parse_request (serialize_request (mkRequest Put (lit "hello") (lit "world")) ++ [x2a]) =
    Some (mkRequest Put (lit "hello") (lit "world")).
Proof.
  assert (Request_wf (mkRequest Put (lit "hello") (lit "world"))) as H.
  { split_and!; vm_compute; done. }
  split; [exact H|]. exact (parse_serialize_request _ _ H).
Defined.

(** the parser accepts exactly the buffers that start with a complete
    frame: a header (with any flags byte) whose two length fields are the
    lengths of the key and the value that follow it. *)
Theorem parse_request_spec data req :
  parse_request data = Some req <->
  Request_wf req /\
  exists flags rest,
    data = RequestHeader_bytes
             (mkRequestHeader (req_opcode req) flags
                (Z.of_nat (length (req_key req))) (Z.of_nat (length (req_value req))))
           ++ req_key req ++ req_value req ++ rest.
Proof.
  split.
  - unfold parse_request. case_decide as Hlen; [done|].
    pose proof (RequestHeader_of_bytes_wf data) as (Hop & Hk & Hv).
    pose proof (RequestHeader_of_bytes_inv data ltac:(lia)) as Hdata.
    pose proof (length_drop data sizeof_header) as Hp. unfold sizeof_header in *.
    set (h := RequestHeader_of_bytes data) in *. set (p := drop 8 data) in *.
    clearbody h p. cbv zeta. case_decide as Hpay; [done|]. intros [= <-].
    assert (length (take (Z.to_nat (rq_key_len h)) p) = Z.to_nat (rq_key_len h)) as Ek.
    { unfold in_width in *. rewrite length_take. lia. }
    assert (length (take (Z.to_nat (rq_value_len h)) (drop (Z.to_nat (rq_key_len h)) p))
            = Z.to_nat (rq_value_len h)) as Ev.
    { unfold in_width in *. rewrite length_take, length_drop. lia. }
    cbn [req_opcode req_key req_value]. rewrite Ek, Ev. unfold in_width in *.
    split; [split_and!; cbn [req_opcode req_key req_value]; [done|lia..]|].
    exists (rq_flags h), (drop (Z.to_nat (rq_value_len h)) (drop (Z.to_nat (rq_key_len h)) p)).
    rewrite !take_drop, !Z2Nat.id by lia. by destruct h.
  - intros [(Hop & Hk & Hv) (flags & rest & ->)]. destruct req as [op k v]. cbn [req_opcode req_key req_value] in *.
    rewrite parse_request_frame by (split_and!; simpl; [done|split; lia..]). simpl.
    rewrite decide_False by (rewrite !length_app; lia).
    by rewrite !Nat2Z.id, take_app_length, drop_app_length, take_app_length.
Qed.

(** parsing the bytes of a serialised response gives the response back,
    whatever follows it. *)
Theorem parse_serialize_response resp rest :
  Response_wf resp -> parse_response (serialize_response resp ++ rest) = Some resp.
Proof.
  intros [Hst Hv]. unfold serialize_response. rewrite <- app_assoc.
  rewrite parse_response_frame by by apply response_header_wf.
  destruct resp as [st v]. simpl in *. unfold u32.
  rewrite !wrap_small by (split; lia). rewrite length_app, !Nat2Z.id.
  rewrite decide_False by lia. by rewrite take_app_length.
Qed.

Lemma parse_serialize_response_witness :
  Response_wf (mkResponse NotFound []) /\
  parse_response (serialize_response (mkResponse NotFound []) ++ [x07; x08]) =
    Some (mkResponse NotFound []).
Proof.
  assert (Response_wf (mkResponse NotFound [])) as H by done.
  split; [exact H|]. exact (parse_serialize_response _ _ H).
Defined.

(** A key longer than the 16-bit length field is not refused: the frame says
    [length key mod 2^16], and the reader takes the remaining key bytes for the
    value. *)
Lemma serialize_request_long_key op k v :
  Opcode_wf op -> 2 ^ 16 <= Z.of_nat (length k) < 2 ^ 17 -> Z.of_nat (length v) < 2 ^ 32 ->
  exists req, parse_request (serialize_request (mkRequest op k v)) = Some req /\
    Z.of_nat (length (req_key req)) = Z.of_nat (length k) - 2 ^ 16.
Proof.
  intros Hop Hk Hv. unfold serialize_request.
  rewrite parse_request_frame by by apply request_header_wf. simpl.
  assert (u16 (Z.of_nat (length k)) = Z.of_nat (length k) - 2 ^ 16) as ->.
  { unfold u16, wrap. symmetry. apply (Z.mod_unique _ _ 1); lia. }
  unfold u32. rewrite (wrap_small 32) by (split; lia).
  rewrite decide_False by (rewrite length_app; lia).
  eexists. split; [done|]. simpl. rewrite length_take, length_app. lia.
Qed.
