(* ===== verification/Murmur.v ===== *)
(** * MurmurHash3 and the hash functions of the ring
    ([src/src/hash/murmurhash3.cpp], [src/src/hash/hasher.h])

    The key is a buffer of bytes.  Every read of it goes through an offset, as
    in the code, and a read outside the buffer has no result, so that a hash
    that returns [Some] is also a proof that it stayed inside its argument. *)

From S2P Require Import Prelude.

Local Open Scope Z_scope.
Local Open Scope pensieve_scope.

(** ** Rotations and finalisers *)

Definition rotl32 (x r : Z) : Z := Z.lor (u32 (Z.shiftl x r)) (Z.shiftr x (32 - r)).
Definition rotl64 (x r : Z) : Z := Z.lor (u64 (Z.shiftl x r)) (Z.shiftr x (64 - r)).

Definition fmix32 (h : Z) : Z :=
  let h := h ⊕ Z.shiftr h 16 in
  let h := h ⊠ 0x85ebca6b in
  let h := h ⊕ Z.shiftr h 13 in
  let h := h ⊠ 0xc2b2ae35 in
  h ⊕ Z.shiftr h 16.

Definition fmix64 (k : Z) : Z :=
  let k := k ⊕ Z.shiftr k 33 in
  let k := u64 (k * 0xff51afd7ed558ccd) in
  let k := k ⊕ Z.shiftr k 33 in
  let k := u64 (k * 0xc4ceb9fe1a85ec53) in
  k ⊕ Z.shiftr k 33.

(** ** Reads of the key *)

(** [n] bytes at offset [off] as a little-endian word. *)
Definition read_word (data : bytes) (off n : nat) : option Z :=
  if decide (off + n <= length data)%nat then Some (le_decode (take n (drop off data)))
  else None.

(** [p] is the byte offset of the word pointer the code passes. *)
Definition getblock32 (data : bytes) (p i : nat) : option Z := read_word data (p + 4 * i) 4.
Definition getblock64 (data : bytes) (p i : nat) : option Z := read_word data (p + 8 * i) 8.

Definition byte_at (data : bytes) (i : nat) : option Z := byte_to_Z <$> data !! i.

Definition tail_word32 (data : bytes) (tail start count : nat) : option Z :=
  mfoldl (fun k i =>
            b ← byte_at data (tail + (start + i));
            Some (k ⊕ u32 (Z.shiftl b (Z.of_nat (i * 8)))))
         0 (seq 0 count).

Definition tail_word64 (data : bytes) (tail start count : nat) : option Z :=
  mfoldl (fun k i =>
            b ← byte_at data (tail + (start + i));
            Some (k ⊕ u64 (Z.shiftl b (Z.of_nat (i * 8)))))
         0 (seq 0 count).

(** ** [murmurhash3_x86_32] *)

Definition c1_32 : Z := 0xcc9e2d51.
Definition c2_32 : Z := 0x1b873593.

(** The mixing of one word, shared by the body and the tail. *)
Definition mix_k1 (k1 : Z) : Z := rotl32 (k1 ⊠ c1_32) 15 ⊠ c2_32.

Definition body32 (h1 k1 : Z) : Z :=
  let h1 := h1 ⊕ mix_k1 k1 in
  let h1 := rotl32 h1 13 in
  u32 (h1 * 5 + 0xe6546b64).

(** The three cases of the tail switch, each falling through to the next. *)
Definition tail32_case1 (data : bytes) (tail : nat) (h1 k1 : Z) : option Z :=
  b ← byte_at data (tail + 0); Some (h1 ⊕ mix_k1 (k1 ⊕ b)).
Definition tail32_case2 (data : bytes) (tail : nat) (h1 k1 : Z) : option Z :=
  b ← byte_at data (tail + 1); tail32_case1 data tail h1 (k1 ⊕ u32 (Z.shiftl b 8)).
Definition tail32_case3 (data : bytes) (tail : nat) (h1 k1 : Z) : option Z :=
  b ← byte_at data (tail + 2); tail32_case2 data tail h1 (k1 ⊕ u32 (Z.shiftl b 16)).

Definition tail32 (data : bytes) (tail : nat) (h1 : Z) : option Z :=
  match Z.land (Z.of_nat (length data)) 3 with
  | 3 => tail32_case3 data tail h1 0
  | 2 => tail32_case2 data tail h1 0
  | 1 => tail32_case1 data tail h1 0
  | _ => Some h1
  end.

Definition murmurhash3_x86_32 (key : bytes) (seed : Z) : option Z :=
  let len := length key in
  let nblocks := (len / 4)%nat in
  h1 ← mfoldl (fun h1 i => k1 ← getblock32 key 0 i; Some (body32 h1 k1)) seed (seq 0 nblocks);
  h1 ← tail32 key (nblocks * 4) h1;
  let h1 := h1 ⊕ u32 (Z.of_nat len) in
  Some (fmix32 h1).

(** ** [murmurhash3_x86_128] *)

Record state128 := mk128 { s1 : Z; s2 : Z; s3 : Z; s4 : Z }.

Definition x86_c1 : Z := 0x239b961b.
Definition x86_c2 : Z := 0xab0e9789.
Definition x86_c3 : Z := 0x38b34ae5.
Definition x86_c4 : Z := 0xa1e38b93.

Definition x86_mix (k ca r cb : Z) : Z := rotl32 (k ⊠ ca) r ⊠ cb.

(** [h ^= k; h = rotl32(h, r); h += g; h = h * 5 + c]. *)
Definition x86_step (h k r g c : Z) : Z :=
  let h := rotl32 (h ⊕ k) r ⊞ g in u32 (h * 5 + c).

Definition x86_128_body (h : state128) (k1 k2 k3 k4 : Z) : state128 :=
  let h1 := x86_step (s1 h) (x86_mix k1 x86_c1 15 x86_c2) 19 (s2 h) 0x561ccd1b in
  let h2 := x86_step (s2 h) (x86_mix k2 x86_c2 16 x86_c3) 17 (s3 h) 0x0bcaa747 in
  let h3 := x86_step (s3 h) (x86_mix k3 x86_c3 17 x86_c4) 15 (s4 h) 0x96cd1c35 in
  let h4 := x86_step (s4 h) (x86_mix k4 x86_c4 18 x86_c1) 13 h1 0x32ac3b17 in
  mk128 h1 h2 h3 h4.

Definition x86_128_tail (data : bytes) (tail rem : nat) (h : state128) : option state128 :=
  h4 ← (if decide (12 < rem)%nat then
          k4 ← tail_word32 data tail 12 (rem - 12);
          Some (s4 h ⊕ x86_mix k4 x86_c4 18 x86_c1)
        else Some (s4 h));
  h3 ← (if decide (8 < rem)%nat then
          k3 ← tail_word32 data tail 8 (Nat.min rem 12 - 8);
          Some (s3 h ⊕ x86_mix k3 x86_c3 17 x86_c4)
        else Some (s3 h));
  h2 ← (if decide (4 < rem)%nat then
          k2 ← tail_word32 data tail 4 (Nat.min rem 8 - 4);
          Some (s2 h ⊕ x86_mix k2 x86_c2 16 x86_c3)
        else Some (s2 h));
  h1 ← (if decide (0 < rem)%nat then
          k1 ← tail_word32 data tail 0 (Nat.min rem 4);
          Some (s1 h ⊕ x86_mix k1 x86_c1 15 x86_c2)
        else Some (s1 h));
  Some (mk128 h1 h2 h3 h4).

(** [h1 += h2; h1 += h3; h1 += h4; h2 += h1; h3 += h1; h4 += h1]. *)
Definition x86_128_sum (h : state128) : state128 :=
  let h1 := s1 h ⊞ s2 h ⊞ s3 h ⊞ s4 h in
  mk128 h1 (s2 h ⊞ h1) (s3 h ⊞ h1) (s4 h ⊞ h1).

Definition x86_128_finish (len : nat) (h : state128) : state128 :=
  let l := u32 (Z.of_nat len) in
  let h := mk128 (s1 h ⊕ l) (s2 h ⊕ l) (s3 h ⊕ l) (s4 h ⊕ l) in
  let h := x86_128_sum h in
  let h := mk128 (fmix32 (s1 h)) (fmix32 (s2 h)) (fmix32 (s3 h)) (fmix32 (s4 h)) in
  x86_128_sum h.

(** The block pointer is [data + nblocks * 16], and is indexed upwards. *)
Definition murmurhash3_x86_128 (key : bytes) (seed : Z) : option state128 :=
  let len := length key in
  let nblocks := (len / 16)%nat in
  let blocks := (nblocks * 16)%nat in
  h ← mfoldl (fun h i =>
                let base := (i * 4)%nat in
                k1 ← getblock32 key blocks (base + 0);
                k2 ← getblock32 key blocks (base + 1);
                k3 ← getblock32 key blocks (base + 2);
                k4 ← getblock32 key blocks (base + 3);
                Some (x86_128_body h k1 k2 k3 k4))
             (mk128 seed seed seed seed) (seq 0 nblocks);
  let tail := (nblocks * 16)%nat in
  let rem := Z.to_nat (Z.land (Z.of_nat len) 15) in
  h ← x86_128_tail key tail rem h;
  Some (x86_128_finish len h).

(** ** [murmurhash3_x64_128] *)

Definition x64_c1 : Z := 0x87c37b91114253d5.
Definition x64_c2 : Z := 0x4cf5ad432745937f.

Definition x64_mix (k ca r cb : Z) : Z := u64 (rotl64 (u64 (k * ca)) r * cb).

Definition x64_step (h k r g c : Z) : Z :=
  let h := u64 (rotl64 (h ⊕ k) r + g) in u64 (h * 5 + c).

Definition x64_body (h : Z * Z) (k1 k2 : Z) : Z * Z :=
  let '(h1, h2) := h in
  let h1 := x64_step h1 (x64_mix k1 x64_c1 31 x64_c2) 27 h2 0x52dce729 in
  let h2 := x64_step h2 (x64_mix k2 x64_c2 33 x64_c1) 31 h1 0x38495ab5 in
  (h1, h2).

Definition x64_tail (data : bytes) (tail rem : nat) (h : Z * Z) : option (Z * Z) :=
  let '(h1, h2) := h in
  h2 ← (if decide (8 < rem)%nat then
          k2 ← tail_word64 data tail 8 (rem - 8);
          Some (h2 ⊕ x64_mix k2 x64_c2 33 x64_c1)
        else Some h2);
  h1 ← (if decide (0 < rem)%nat then
          k1 ← tail_word64 data tail 0 (Nat.min rem 8);
          Some (h1 ⊕ x64_mix k1 x64_c1 31 x64_c2)
        else Some h1);
  Some (h1, h2).

Definition x64_finish (len : nat) (h : Z * Z) : Z * Z :=
  let '(h1, h2) := h in
  let l := u64 (Z.of_nat len) in
  let h1 := h1 ⊕ l in
  let h2 := h2 ⊕ l in
  let h1 := u64 (h1 + h2) in
  let h2 := u64 (h2 + h1) in
  let h1 := fmix64 h1 in
  let h2 := fmix64 h2 in
  let h1 := u64 (h1 + h2) in
  let h2 := u64 (h2 + h1) in
  (h1, h2).

Definition murmurhash3_x64_128 (key : bytes) (seed : Z) : option (Z * Z) :=
  let len := length key in
  let nblocks := (len / 16)%nat in
  h ← mfoldl (fun h i =>
                k1 ← getblock64 key 0 (i * 2);
                k2 ← getblock64 key 0 (i * 2 + 1);
                Some (x64_body h k1 k2))
             (seed, seed) (seq 0 nblocks);
  let tail := (nblocks * 16)%nat in
  let rem := Z.to_nat (Z.land (Z.of_nat len) 15) in
  h ← x64_tail key tail rem h;
  Some (x64_finish len h).

(** ** The published and the repository's test vectors *)

Example murmur_vector_empty : murmurhash3_x86_32 [] 0 = Some 0.
Proof. vm_compute. done. Qed.
Example murmur_vector_seed1 : murmurhash3_x86_32 [] 1 = Some 0x514e28b7.
Proof. vm_compute. done. Qed.
Example murmur_vector_hello : murmurhash3_x86_32 (lit "hello") 0 = Some 0x248bfa47.
Proof. vm_compute. done. Qed.
Example murmur_vector_hello42 : murmurhash3_x86_32 (lit "hello") 42 = Some 0xe2dbd2e1.
Proof. vm_compute. done. Qed.
Example murmur_vector_blocks : murmurhash3_x86_32 (lit "hello world!!") 0 = Some 0xe2cada3f.
Proof. vm_compute. done. Qed.

(** ** Rotations *)

Lemma in_width_rotl w x r :
  0 <= r <= w -> in_width w x ->
  in_width w (Z.lor (wrap w (Z.shiftl x r)) (Z.shiftr x (w - r))).
Proof. intros. apply in_width_lor; [lia|apply wrap_in_width; lia|apply in_width_shiftr; [lia|done]]. Qed.

Lemma testbit_rotl w x r i :
  0 <= r <= w -> in_width w x -> 0 <= i < w ->
  Z.testbit (Z.lor (wrap w (Z.shiftl x r)) (Z.shiftr x (w - r))) i =
    if decide (r <= i) then Z.testbit x (i - r) else Z.testbit x (i + (w - r)).
Proof.
  intros Hr Hx Hi. unfold wrap.
  rewrite Z.lor_spec, Z.mod_pow2_bits_low, Z.shiftl_spec, Z.shiftr_spec by lia.
  case_decide.
  - by rewrite (in_width_testbit_high w x (i + _)), orb_false_r by (done || lia).
  - by rewrite Z.testbit_neg_r by lia.
Qed.

Lemma rotl_inj w x y r :
  0 <= r <= w -> in_width w x -> in_width w y ->
  Z.lor (wrap w (Z.shiftl x r)) (Z.shiftr x (w - r)) =
  Z.lor (wrap w (Z.shiftl y r)) (Z.shiftr y (w - r)) -> x = y.
Proof.
  intros Hr Hx Hy E. apply (in_width_ext w); [done..|]. intros j Hj.
  destruct (decide (j + r < w)).
  - apply (f_equal (fun z => Z.testbit z (j + r))) in E.
    rewrite !testbit_rotl, !decide_True in E by (done || lia).
    by replace (j + r - r) with j in E by lia.
  - apply (f_equal (fun z => Z.testbit z (j + r - w))) in E.
    rewrite !testbit_rotl, !decide_False in E by (done || lia).
    by replace (j + r - w + (w - r)) with j in E by lia.
Qed.

Lemma in_width_rotl32 x r : 0 <= r <= 32 -> in_width 32 x -> in_width 32 (rotl32 x r).
Proof. apply in_width_rotl. Qed.
Lemma in_width_u32 x : in_width 32 (u32 x).
Proof. by apply wrap_in_width. Qed.
Lemma rotl32_inj x y r :
  0 <= r <= 32 -> in_width 32 x -> in_width 32 y -> rotl32 x r = rotl32 y r -> x = y.
Proof. apply rotl_inj. Qed.

#[local] Hint Resolve in_width_rotl32 in_width_u32 : pensieve.

(** ** The finalisers are bijections *)

Definition fmix32_inv (h : Z) : Z :=
  let h := xorshift_inv 16 h in
  let h := h ⊠ 0x7ed1b41d in
  let h := xorshift_inv 13 h in
  let h := h ⊠ 0xa5cb9243 in
  xorshift_inv 16 h.

Definition fmix64_inv (k : Z) : Z :=
  let k := xorshift_inv 33 k in
  let k := u64 (k * 0x9cb4b2f8129337db) in
  let k := xorshift_inv 33 k in
  let k := u64 (k * 0x4f74430c22a54005) in
  xorshift_inv 33 k.

Lemma fmix32_eq h :
  fmix32 h = xorshift 16 (wrap 32 (xorshift 13 (wrap 32 (xorshift 16 h * 0x85ebca6b)) * 0xc2b2ae35)).
Proof. done. Qed.

Lemma fmix64_eq k :
  fmix64 k = xorshift 33 (wrap 64 (xorshift 33 (wrap 64 (xorshift 33 k * 0xff51afd7ed558ccd))
                                   * 0xc4ceb9fe1a85ec53)).
Proof. done. Qed.

Lemma fmix32_inv_eq h :
  fmix32_inv h = xorshift_inv 16 (wrap 32 (xorshift_inv 13 (wrap 32 (xorshift_inv 16 h
                   * 0x7ed1b41d)) * 0xa5cb9243)).
Proof. done. Qed.

Lemma fmix64_inv_eq k :
  fmix64_inv k = xorshift_inv 33 (wrap 64 (xorshift_inv 33 (wrap 64 (xorshift_inv 33 k
                   * 0x9cb4b2f8129337db)) * 0x4f74430c22a54005)).
Proof. done. Qed.

Lemma fmix32_width h : in_width 32 (fmix32 h).
Proof. rewrite fmix32_eq. apply in_width_xorshift; [lia..|by apply wrap_in_width]. Qed.

(** Two rounds of shift-and-multiply, closed by a shift, are undone by the
    inverse shifts and the inverse multipliers. *)
Lemma mix_rounds_bijective w s t c1 d1 c2 d2 x :
  0 <= w -> 0 < s -> 0 < t -> w <= 3 * s -> w <= 3 * t ->
  wrap w (c1 * d1) = 1 -> wrap w (c2 * d2) = 1 -> in_width w x ->
  xorshift_inv s (wrap w (xorshift_inv t (wrap w (xorshift_inv s
    (xorshift s (wrap w (xorshift t (wrap w (xorshift s x * c1)) * c2))) * d2)) * d1)) = x /\
  xorshift s (wrap w (xorshift t (wrap w (xorshift s
    (xorshift_inv s (wrap w (xorshift_inv t (wrap w (xorshift_inv s x * d2)) * d1))) * c1)) * c2))
  = x.
Proof.
  intros Hw Hs Ht Hws Hwt E1 E2 Hx. split.
  - rewrite (xorshift_inv_l w s) by (auto with lia; apply wrap_in_width; lia).
    rewrite (wrap_mul_inverse w c2 d2) by (auto; apply in_width_xorshift; auto with lia; apply wrap_in_width; lia).
    rewrite (xorshift_inv_l w t) by (auto with lia; apply wrap_in_width; lia).
    rewrite (wrap_mul_inverse w c1 d1) by (auto; apply in_width_xorshift; auto with lia).
    apply (xorshift_inv_l w); auto.
  - rewrite Z.mul_comm in E1, E2.
    rewrite (xorshift_inv_r w s) by (auto with lia; apply wrap_in_width; lia).
    rewrite (wrap_mul_inverse w d1 c1) by (auto; apply in_width_xorshift_inv; auto with lia; apply wrap_in_width; lia).
    rewrite (xorshift_inv_r w t) by (auto with lia; apply wrap_in_width; lia).
    rewrite (wrap_mul_inverse w d2 c2) by (auto; apply in_width_xorshift_inv; auto with lia).
    apply (xorshift_inv_r w); auto.
Qed.

Lemma fmix32_invertible h :
  in_width 32 h -> fmix32_inv (fmix32 h) = h /\ fmix32 (fmix32_inv h) = h.
Proof.
  intros H. rewrite !fmix32_inv_eq, !fmix32_eq.
  apply mix_rounds_bijective; (done || lia || (vm_compute; reflexivity)).
Qed.

Lemma fmix64_invertible h :
  in_width 64 h -> fmix64_inv (fmix64 h) = h /\ fmix64 (fmix64_inv h) = h.
Proof.
  intros H. rewrite !fmix64_inv_eq, !fmix64_eq.
  apply mix_rounds_bijective; (done || lia || (vm_compute; reflexivity)).
Qed.

(** both finalisers are bijections of the words of their width (with an
    explicit inverse), so they never merge two hash states. *)
Theorem fmix_bijective h :
  (in_width 32 h -> fmix32_inv (fmix32 h) = h /\ fmix32 (fmix32_inv h) = h) /\
  (in_width 64 h -> fmix64_inv (fmix64 h) = h /\ fmix64 (fmix64_inv h) = h).
Proof. split; [apply fmix32_invertible|apply fmix64_invertible]. Qed.

Lemma fmix_bijective_witness :
  in_width 32 42 /\ fmix32_inv (fmix32 42) = 42 /\ fmix32 42 = 0x087fcd5c /\
  in_width 64 42 /\ fmix64_inv (fmix64 42) = 42.
Proof.
  assert (in_width 32 42) as H by done. assert (in_width 64 42) as H' by done.
  destruct (fmix_bijective 42) as [F32 F64].
  split; [exact H|]. split; [exact (proj1 (F32 H))|]. split; [vm_compute; reflexivity|].
  split; [exact H'|exact (proj1 (F64 H'))].
Defined.

Lemma fmix32_inj x y : in_width 32 x -> in_width 32 y -> fmix32 x = fmix32 y -> x = y.
Proof.
  intros Hx Hy E.
  rewrite <- (proj1 (fmix32_invertible x Hx)), <- (proj1 (fmix32_invertible y Hy)).
  by rewrite E.
Qed.

(** ** The 32-bit hash, block by block *)

(** The reference definition: consume the key four bytes at a time, and mix the
    up to three remaining bytes as one little-endian word. *)
Fixpoint absorb32 (h : Z) (key : bytes) : Z :=
  match key with
  | b0 :: b1 :: b2 :: b3 :: rest => absorb32 (body32 h (le_decode [b0; b1; b2; b3])) rest
  | [] => h
  | tail => h ⊕ mix_k1 (le_decode tail)
  end.

Definition murmur32_ref (key : bytes) (seed : Z) : Z :=
  fmix32 (absorb32 seed key ⊕ u32 (Z.of_nat (length key))).

Lemma body32_width h k : in_width 32 (body32 h k).
Proof. apply in_width_u32. Qed.
Lemma mix_k1_width k : in_width 32 (mix_k1 k).
Proof. apply in_width_u32. Qed.
#[local] Hint Resolve body32_width mix_k1_width : pensieve.

Lemma getblock32_app (pre key : bytes) i b0 b1 b2 b3 :
  length pre = (4 * i)%nat ->
  getblock32 (pre ++ b0 :: b1 :: b2 :: b3 :: key) 0 i = Some (le_decode [b0; b1; b2; b3]).
Proof.
  intros Hi. unfold getblock32, read_word.
  rewrite decide_True by (rewrite length_app; simpl; lia).
  rewrite Nat.add_0_l, <- Hi, drop_app_length. done.
Qed.

Lemma land_3_mod n i : Z.land (Z.of_nat (4 * i + n)) 3 = Z.of_nat (n mod 4).
Proof.
  change 3 with (Z.ones 2). rewrite Z.land_ones by lia. change (2 ^ 2) with 4.
  rewrite Nat2Z.inj_mod, Nat2Z.inj_add, Nat2Z.inj_mul. simpl Z.of_nat.
  by rewrite Z.mul_comm, Z.add_comm, Z_mod_plus_full.
Qed.

Lemma byte_at_app (pre rest : bytes) j : byte_at (pre ++ rest) (length pre + j) = byte_at rest j.
Proof.
  unfold byte_at. rewrite (lookup_app_r pre rest) by lia.
  by replace (length pre + j - length pre)%nat with j by lia.
Qed.

Lemma u32_shiftl_byte b n : 0 <= n <= 24 -> u32 (Z.shiftl (byte_to_Z b) n) = Z.shiftl (byte_to_Z b) n.
Proof.
  intros Hn. apply wrap_small. pose proof (byte_to_Z_range b) as [H1 H2].
  rewrite Z.shiftl_mul_pow2 by lia. split; [nia|].
  apply Z.lt_le_trans with (2 ^ 8 * 2 ^ n); [nia|].
  rewrite <- Z.pow_add_r by lia. apply Z.pow_le_mono_r; lia.
Qed.

(** The switch with its fall-throughs computes the little-endian word of the
    remaining bytes. *)
Lemma tail32_spec (pre rest : bytes) i h :
  length pre = (4 * i)%nat -> (length rest < 4)%nat ->
  tail32 (pre ++ rest) (i * 4) h = Some (absorb32 h rest).
Proof.
  intros Hi Hr. replace (i * 4)%nat with (length pre) by lia.
  unfold tail32. rewrite length_app.
  replace (length pre + length rest)%nat with (4 * i + length rest)%nat by lia.
  rewrite land_3_mod, Nat.mod_small by done. clear Hi.
  destruct rest as [|b0 [|b1 [|b2 [|]]]]; simpl in *; [done| | | |lia];
    unfold tail32_case3, tail32_case2, tail32_case1; rewrite !byte_at_app; simpl;
    rewrite !le_decode_cons, le_decode_nil, ?u32_shiftl_byte by lia;
    rewrite ?Z.shiftl_0_l, ?Z.lxor_0_l, ?Z.shiftl_lxor, ?Z.shiftl_shiftl by lia; done.
Qed.

Lemma murmur32_loop n (pre rest : bytes) i h :
  (length rest <= n)%nat -> length pre = (4 * i)%nat ->
  (h1 ← mfoldl (fun h1 i => k1 ← getblock32 (pre ++ rest) 0 i; Some (body32 h1 k1)) h
          (seq i (length rest / 4));
   tail32 (pre ++ rest) ((i + length rest / 4) * 4) h1)
  = Some (absorb32 h rest).
Proof.
  revert pre rest i h. induction n as [|n IH]; intros pre rest i h Hn Hi.
  { destruct rest; [|simpl in Hn; lia]. cbn [length Nat.div Nat.divmod fst seq mfoldl mbind option_bind].
    rewrite Nat.add_0_r. apply tail32_spec; simpl; lia. }
  destruct (decide (length rest < 4)%nat) as [Hr|Hr].
  { rewrite Nat.div_small by done. simpl. rewrite Nat.add_0_r. by apply tail32_spec. }
  destruct rest as [|b0 [|b1 [|b2 [|b3 rest]]]]; simpl length in Hr; [lia..|].
  replace (length (b0 :: b1 :: b2 :: b3 :: rest) / 4)%nat with (S (length rest / 4)).
  2: { simpl length. replace (S (S (S (S (length rest))))) with (length rest + 1 * 4)%nat by lia.
       rewrite Nat.div_add by lia. lia. }
  cbn [seq mfoldl]. rewrite getblock32_app by done.
  specialize (IH (pre ++ [b0; b1; b2; b3]) rest (S i) (body32 h (le_decode [b0; b1; b2; b3]))).
  rewrite <- app_assoc in IH. simpl app in IH.
  replace (i + S (length rest / 4))%nat with (S i + length rest / 4)%nat by lia.
  apply IH; [simpl in Hn; lia|rewrite length_app; simpl; lia].
Qed.

Lemma murmur32_total key seed : murmurhash3_x86_32 key seed = Some (murmur32_ref key seed).
Proof.
  pose proof (murmur32_loop (length key) [] key 0 seed ltac:(lia) eq_refl) as H.
  simpl in H. unfold murmurhash3_x86_32, murmur32_ref.
  destruct (mfoldl _ _ _) as [h|]; simpl in *; [|done]. by rewrite H.
Qed.

(** C38: the 32-bit hash never reads outside the key, always returns, and
    equals the block-by-block reference definition: the offset arithmetic of
    the body and the fall-through switch of the tail lose and repeat no byte. *)
Theorem murmurhash3_x86_32_ref key seed :
  murmurhash3_x86_32 key seed = Some (murmur32_ref key seed).
Proof. apply murmur32_total. Qed.

(** ** Collisions *)

Lemma mix_k1_inj x y : in_width 32 x -> in_width 32 y -> mix_k1 x = mix_k1 y -> x = y.
Proof.
  intros Hx Hy E. unfold mix_k1 in E.
  assert (rotl32 (x ⊠ c1_32) 15 = rotl32 (y ⊠ c1_32) 15) as E'.
  { apply (wrap_mul_add_inj 32 c2_32 0x56ed309b 0); [done|vm_compute; done|..].
    1, 2: auto using in_width_rotl32, in_width_u32 with lia.
    by rewrite !Z.add_0_r. }
  apply rotl32_inj in E'; [|lia|apply in_width_u32..].
  apply (wrap_mul_add_inj 32 c1_32 0xdee13bb1 0); [done|vm_compute; done|done|done|].
  by rewrite !Z.add_0_r.
Qed.

Lemma body32_inj h h' k k' :
  in_width 32 h -> in_width 32 h' -> in_width 32 k -> in_width 32 k' ->
  body32 h k = body32 h' k' -> (h = h' <-> k = k').
Proof.
  intros Hh Hh' Hk Hk' E. unfold body32 in E.
  assert (h ⊕ mix_k1 k = h' ⊕ mix_k1 k') as E'.
  { apply rotl32_inj with (r := 13); [lia|auto with pensieve lia..|].
    apply (wrap_mul_add_inj 32 5 0xcccccccd 0xe6546b64); [done|vm_compute; done|..|done];
      apply in_width_rotl32; auto with pensieve lia. }
  split; intros <-.
  - apply lxor_inj_r in E'. by apply mix_k1_inj.
  - by apply lxor_inj_l in E'.
Qed.

(** Induction on a key four bytes at a time. *)
Lemma block_ind (P : bytes -> Prop) :
  (forall t, (length t < 4)%nat -> P t) ->
  (forall b0 b1 b2 b3 rest, P rest -> P (b0 :: b1 :: b2 :: b3 :: rest)) ->
  forall key, P key.
Proof.
  intros Ht Hb key. remember (length key) as n eqn:Hn. revert key Hn.
  induction n as [n IH] using lt_wf_ind. intros key ->.
  destruct (decide (length key < 4)%nat); [auto|].
  destruct key as [|? [|? [|? [|? rest]]]]; simpl in *; try lia.
  apply Hb. eapply IH; [|done]. lia.
Qed.

Lemma absorb32_width key h : in_width 32 h -> in_width 32 (absorb32 h key).
Proof.
  revert h. induction key as [t Ht|b0 b1 b2 b3 rest IH] using block_ind; intros h Hh.
  - destruct t as [|? [|? [|? [|]]]]; simpl in *; auto with pensieve; lia.
  - apply IH, body32_width.
Qed.

Lemma le_decode_width n bs : length bs = n -> in_width (8 * Z.of_nat n) (le_decode bs).
Proof. intros <-. apply le_decode_bound. Qed.

Lemma absorb32_inj key h h' :
  in_width 32 h -> in_width 32 h' -> absorb32 h key = absorb32 h' key -> h = h'.
Proof.
  revert h h'. induction key as [t Ht|b0 b1 b2 b3 rest IH] using block_ind; intros h h' Hh Hh' E.
  - destruct t as [|? [|? [|? [|]]]]; simpl in *; [done|by apply lxor_inj_l in E..|lia].
  - simpl in E. apply IH in E; [|apply body32_width..].
    apply body32_inj in E; [by apply E|first [assumption|by apply (le_decode_width 4)]..].
Qed.

Lemma absorb32_app pre rest h :
  (length pre mod 4 = 0)%nat -> absorb32 h (pre ++ rest) = absorb32 (absorb32 h pre) rest.
Proof.
  revert h. induction pre as [t Ht|b0 b1 b2 b3 pre IH] using block_ind; intros h Hl.
  - rewrite Nat.mod_small in Hl by done. by destruct t.
  - simpl. apply IH. simpl length in Hl.
    replace (S (S (S (S (length pre))))) with (length pre + 1 * 4)%nat in Hl by lia.
    by rewrite Nat.Div0.mod_add in Hl.
Qed.

(** two keys of the same length that differ in one aligned block of four
    bytes never collide under the 32-bit hash, for any seed; nor do two seeds
    for one key. *)
Theorem murmurhash3_x86_32_no_block_collision pre b b' post seed seed' :
  (length pre mod 4 = 0)%nat -> length b = 4%nat -> length b' = 4%nat ->
  in_width 32 seed -> in_width 32 seed' ->
  murmurhash3_x86_32 (pre ++ b ++ post) seed = murmurhash3_x86_32 (pre ++ b' ++ post) seed' ->
  (b = b' <-> seed = seed').
Proof.
  intros Hp Hb Hb' Hs Hs' E. rewrite !murmur32_total in E. injection E as E.
  unfold murmur32_ref in E. rewrite !length_app, Hb, Hb' in E.
  apply fmix32_inj, lxor_inj_l in E;
    [|apply in_width_lxor; [lia|by apply absorb32_width|apply in_width_u32]..].
  rewrite !(absorb32_app pre) in E by done.
  destruct b as [|b0 [|b1 [|b2 [|b3 []]]]]; try done.
  destruct b' as [|b0' [|b1' [|b2' [|b3' []]]]]; try done.
  simpl in E. apply absorb32_inj in E; [|apply body32_width..].
  apply body32_inj in E; [|first [by apply absorb32_width|by apply (le_decode_width 4)]..].
  split; intros Heq.
  - apply (absorb32_inj pre); [done|done|]. apply E. by rewrite Heq.
  - apply le_decode_inj; [done|]. apply E. by rewrite Heq.
Qed.

Lemma murmurhash3_x86_32_no_block_collision_witness :
  murmurhash3_x86_32 (lit "key:" ++ lit "0001" ++ lit ":a") 7 <>
  murmurhash3_x86_32 (lit "key:" ++ lit "0002" ++ lit ":a") 7.
Proof.
  assert (in_width 32 7) as Hw by done. intros E.
  pose proof (proj2 (murmurhash3_x86_32_no_block_collision
    (lit "key:") (lit "0001") (lit "0002") (lit ":a") 7 7
    eq_refl eq_refl eq_refl Hw Hw E) eq_refl) as H.
  clear E. discriminate H.
Defined.

(** ** Bounds of the 128-bit hashes *)

Lemma read_word_some data off n :
  (off + n <= length data)%nat -> exists z, read_word data off n = Some z.
Proof. intros. unfold read_word. rewrite decide_True by done. eauto. Qed.

Lemma tail_word64_some data tail start count :
  (tail + start + count <= length data)%nat -> exists k, tail_word64 data tail start count = Some k.
Proof.
  intros H. apply mfoldl_some. intros k i Hi. apply elem_of_seq in Hi. unfold byte_at.
  destruct (lookup_lt_is_Some_2 data (tail + (start + i))) as [b ->]; [lia|]. simpl. eauto.
Qed.

Lemma tail_word32_some data tail start count :
  (tail + start + count <= length data)%nat -> exists k, tail_word32 data tail start count = Some k.
Proof.
  intros H. apply mfoldl_some. intros k i Hi. apply elem_of_seq in Hi. unfold byte_at.
  destruct (lookup_lt_is_Some_2 data (tail + (start + i))) as [b ->]; [lia|]. simpl. eauto.
Qed.

Lemma rem_16 (key : bytes) :
  length key = (length key / 16 * 16 + Z.to_nat (Z.land (Z.of_nat (length key)) 15))%nat /\
  (Z.to_nat (Z.land (Z.of_nat (length key)) 15) < 16)%nat.
Proof.
  change 15 with (Z.ones 4). rewrite Z.land_ones by lia. change (2 ^ 4) with 16.
  change 16 with (Z.of_nat 16). rewrite <- Nat2Z.inj_mod, Nat2Z.id.
  pose proof (Nat.div_mod_eq (length key) 16).
  pose proof (Nat.mod_upper_bound (length key) 16). lia.
Qed.

Lemma x64_tail_some key tail rem h :
  (tail + rem <= length key)%nat -> exists h', x64_tail key tail rem h = Some h'.
Proof.
  intros Hl. destruct h as [h1 h2]. unfold x64_tail.
  repeat case_decide;
    repeat match goal with
    | |- context [tail_word64 ?d ?t ?s ?c] =>
        destruct (tail_word64_some d t s c) as [? ->]; [lia|]
    end; simpl; eauto.
Qed.

Lemma x86_128_tail_some key tail rem h :
  (tail + rem <= length key)%nat -> exists h', x86_128_tail key tail rem h = Some h'.
Proof.
  intros Hl. unfold x86_128_tail.
  repeat case_decide;
    repeat match goal with
    | |- context [tail_word32 ?d ?t ?s ?c] =>
        destruct (tail_word32_some d t s c) as [? ->]; [lia|]
    end; simpl; eauto.
Qed.

(** the 64-bit variant of the 128-bit hash reads only bytes of the key and
    always returns. *)
Theorem murmurhash3_x64_128_in_bounds key seed :
  exists h, murmurhash3_x64_128 key seed = Some h.
Proof.
  destruct (rem_16 key) as [Hl Hr]. unfold murmurhash3_x64_128.
  match goal with |- context [mfoldl ?f ?s ?l] => destruct (mfoldl_some f s l) as [h ->] end.
  - intros h i Hi. apply elem_of_seq in Hi. unfold getblock64.
    destruct (read_word_some key (0 + 8 * (i * 2)) 8) as [k1 ->]; [lia|].
    destruct (read_word_some key (0 + 8 * (i * 2 + 1)) 8) as [k2 ->]; [lia|]. simpl. eauto.
  - cbn [mbind option_bind].
    destruct (x64_tail_some key (length key / 16 * 16)
                (Z.to_nat (Z.land (Z.of_nat (length key)) 15)) h) as [h' ->]; [lia|].
    simpl. eauto.
Qed.

(** C39: the 32-bit variant of the 128-bit hash is only defined on keys shorter
    than one block: its block pointer starts at the end of the blocks and is
    indexed upwards, so the first iteration already reads past the key. *)
Theorem murmurhash3_x86_128_bounds key seed :
  (16 <= length key)%nat <-> murmurhash3_x86_128 key seed = None.
Proof.
  destruct (rem_16 key) as [Hl Hr]. unfold murmurhash3_x86_128. split.
  - intros H16. destruct (length key / 16)%nat as [|n] eqn:En; [lia|].
    cbn [seq mfoldl]. unfold getblock32.
    assert (read_word key (S n * 16 + 4 * (0 * 4 + 3)) 4 = None) as ->.
    { unfold read_word. rewrite decide_False by lia. done. }
    by repeat match goal with |- context [read_word ?d ?o ?n] => destruct (read_word d o n) end.
  - intros E. destruct (decide (16 <= length key)%nat); [done|].
    rewrite Nat.div_small in E, Hl by lia.
    destruct (x86_128_tail_some key 0 (Z.to_nat (Z.land (Z.of_nat (length key)) 15))
                (mk128 seed seed seed seed)) as [h Eh]; [lia|].
    cbn [seq mfoldl mbind option_bind Nat.mul] in E. rewrite Eh in E. done.
Qed.
