(* ===== verification/NodeInfo.v ===== *)
(** * Node identities and the ring tokens
    ([src/src/membership/node_info.h], [src/src/hash/hasher.h])

    Node names, node states, what a node knows of another one, and the hash of
    a key and of a virtual node. *)

From S2P Require Import Prelude Murmur.
From stdpp Require pretty.

Local Open Scope Z_scope.

Inductive NodeState := NodeState_Alive | NodeState_Suspect | NodeState_Dead | NodeState_Left.

#[export] Instance NodeState_eq_dec : EqDecision NodeState.
Proof. solve_decision. Defined.

(** [static_cast<uint8_t>(state)]. *)
Definition NodeState_rank (s : NodeState) : Z :=
  match s with
  | NodeState_Alive => 0 | NodeState_Suspect => 1
  | NodeState_Dead => 2 | NodeState_Left => 3
  end.

#[export] Instance NodeState_rank_inj : Inj (=) (=) NodeState_rank.
Proof. by intros [] []. Qed.

Record NodeId := mkNodeId {
  host : bytes;
  gossip_port : Z   (* uint16_t *)
}.

#[export] Instance NodeId_eq_dec : EqDecision NodeId.
Proof. solve_decision. Defined.

#[export] Program Instance NodeId_countable : Countable NodeId :=
  inj_countable' (fun n => (host n, gossip_port n)) (fun p => mkNodeId p.1 p.2) _.
Next Obligation. by intros []. Qed.

Record NodeInfo := mkNodeInfo {
  id : NodeId;
  data_port : Z;            (* uint16_t *)
  state : NodeState;
  incarnation : Z;          (* uint64_t *)
  last_state_change : Z     (* steady_clock ticks *)
}.

#[export] Instance NodeInfo_eq_dec : EqDecision NodeInfo.
Proof. solve_decision. Defined.

Definition state_supersedes (proposed current : NodeState) : bool :=
  bool_decide (NodeState_rank proposed > NodeState_rank current).

(** ** Keys and tokens *)

Definition kDefaultHashSeed : Z := 0x5EED.

(** [uint32_t out = 0; murmurhash3_x86_32(data, size, seed, &out)]. *)
Definition hash32 (data : bytes) : Z := default 0 (murmurhash3_x86_32 data kDefaultHashSeed).

Definition hash_key (key : bytes) : Z := hash32 key.

(** ["{}"] of an unsigned integer. *)
Definition format_uint (z : Z) : bytes := lit (pretty.pretty_N (Z.to_N z)).

(** [std::format("{}:{}#{}", host, gossip_port, vnode_index)]. *)
Definition canonical_token (node : NodeId) (vnode_index : Z) : bytes :=
  host node ++ lit ":" ++ format_uint (gossip_port node) ++ lit "#" ++ format_uint vnode_index.

Definition hash_node_token (node : NodeId) (vnode_index : Z) : Z :=
  hash32 (canonical_token node vnode_index).

Example canonical_token_example :
  canonical_token (mkNodeId (lit "10.0.0.1") 5000) 17 = lit "10.0.0.1:5000#17".
Proof. vm_compute. done. Qed.

Lemma hash32_ref data : hash32 data = murmur32_ref data kDefaultHashSeed.
Proof. unfold hash32. by rewrite murmur32_total. Qed.

Lemma hash32_width data : in_width 32 (hash32 data).
Proof. rewrite hash32_ref. apply fmix32_width. Qed.

Lemma hash_key_width key : in_width 32 (hash_key key).
Proof. apply hash32_width. Qed.
Lemma hash_node_token_width node i : in_width 32 (hash_node_token node i).
Proof. apply hash32_width. Qed.

#[export] Hint Resolve hash_key_width hash_node_token_width : pensieve.

(** ** Decimal text *)

Definition is_digit (b : byte) : Prop := 48 <= byte_to_Z b <= 57.

Lemma lit_inj : Inj (=) (=) lit.
Proof.
  intros s t E. unfold lit in E.
  rewrite <- (String.string_of_list_byte_of_string s), E.
  apply String.string_of_list_byte_of_string.
Qed.

Lemma lit_cons a s : lit (String.String a s) = Ascii.byte_of_ascii a :: lit s.
Proof. done. Qed.

Lemma pretty_N_char_digit n : is_digit (Ascii.byte_of_ascii (pretty.pretty_N_char n)).
Proof. unfold is_digit, pretty.pretty_N_char. by repeat case_match. Qed.

Lemma pretty_N_go_digits n s :
  Forall is_digit (lit s) -> Forall is_digit (lit (pretty.pretty_N_go n s)).
Proof.
  revert s. induction (N.lt_wf_0 n) as [n _ IH]; intros s Hs.
  destruct (decide (n = 0)%N) as [->|]; [by rewrite pretty.pretty_N_go_0|].
  rewrite pretty.pretty_N_go_step by lia. apply IH; [apply N.div_lt; lia|].
  rewrite lit_cons. constructor; [apply pretty_N_char_digit|done].
Qed.

Lemma format_uint_digits z : Forall is_digit (format_uint z).
Proof.
  unfold format_uint, pretty.pretty_N. case_decide; [by repeat constructor|].
  by apply pretty_N_go_digits.
Qed.

Lemma format_uint_inj x y : 0 <= x -> 0 <= y -> format_uint x = format_uint y -> x = y.
Proof. intros Hx Hy E. apply lit_inj, pretty.pretty_N_inj in E. lia. Qed.

(** Splitting at the last separator is unambiguous when the suffix is digits. *)
Lemma app_sep_digits_inj c (a a' d d' : bytes) :
  ~ is_digit c -> Forall is_digit d -> Forall is_digit d' ->
  a ++ [c] ++ d = a' ++ [c] ++ d' -> a = a' /\ d = d'.
Proof.
  intros Hc. revert a' d'. induction a as [|x a IH]; intros [|x' a'] d' Hd Hd' E; simplify_eq/=.
  - done.
  - apply Forall_app in Hd as [_ Hd]. apply Forall_inv in Hd. done.
  - apply Forall_app in Hd' as [_ Hd']. apply Forall_inv in Hd'. done.
  - match goal with H : a ++ _ = _ |- _ => apply IH in H as [-> ->]; done end.
Qed.

(** distinct virtual nodes have distinct names under the hash: the text
    [host:port#index] determines the node and the index, whatever bytes the
    host name holds. *)
Theorem canonical_token_inj n n' i i' :
  0 <= gossip_port n -> 0 <= gossip_port n' -> 0 <= i -> 0 <= i' ->
  canonical_token n i = canonical_token n' i' -> n = n' /\ i = i'.
Proof.
  intros Hp Hp' Hi Hi' E. unfold canonical_token in E.
  assert (forall h p d : bytes, h ++ lit ":" ++ p ++ lit "#" ++ d = (h ++ [x3a] ++ p) ++ [x23] ++ d)
    as Happ by (intros; by rewrite <- !app_assoc).
  rewrite !Happ in E.
  apply app_sep_digits_inj in E as [E Ed]; [|by vm_compute; intros [[]]|apply format_uint_digits..].
  apply app_sep_digits_inj in E as [Eh Ep]; [|by vm_compute; intros [_ []]|apply format_uint_digits..].
  apply format_uint_inj in Ed, Ep; [|done..]. destruct n, n'. by simplify_eq/=.
Qed.

Lemma canonical_token_inj_witness :
  canonical_token (mkNodeId (lit "a:1") 2) 3 <> canonical_token (mkNodeId (lit "a") 12) 3.
Proof.
  intros E.
  pose proof (canonical_token_inj (mkNodeId (lit "a:1") 2) (mkNodeId (lit "a") 12) 3 3
    ltac:(simpl; lia) ltac:(simpl; lia) ltac:(lia) ltac:(lia) E) as [H _].
  discriminate H.
Defined.
