(* ===== verification/SlabEntry.v ===== *)
(** * Memory and the entry layout ([src/src/storage/slab_entry.h])

    The arena is byte-addressed memory, zero-filled by [mmap]; a pointer is an
    address.  A [SlabEntry] is the 16-byte header followed by the key and the
    value, and its accessors read those bytes. *)

From S2P Require Import Prelude.

Local Open Scope Z_scope.

(** ** Memory *)

Abbreviation memory := (gmap Z byte).

Definition load (m : memory) (a : Z) : byte := default x00 (m !! a).

(** [n] bytes from address [a]. *)
Definition mem_read (m : memory) (a : Z) (n : nat) : bytes :=
  (fun i : nat => load m (a + Z.of_nat i)) <$> seq 0 n.

(** [memcpy(a, bs, size)]. *)
Fixpoint mem_write (m : memory) (a : Z) (bs : bytes) : memory :=
  match bs with
  | [] => m
  | b :: bs => mem_write (<[a := b]> m) (a + 1) bs
  end.

(** ** The entry *)

Definition sizeof_SlabEntry : Z := 16.

Definition key_size (m : memory) (p : Z) : Z := le_decode (mem_read m p 4).
Definition value_size (m : memory) (p : Z) : Z := le_decode (mem_read m (p + 4) 4).
Definition access_bit (m : memory) (p : Z) : byte := load m (p + 8).

Definition entry_key (m : memory) (p : Z) : bytes :=
  mem_read m (p + sizeof_SlabEntry) (Z.to_nat (key_size m p)).
Definition entry_value (m : memory) (p : Z) : bytes :=
  mem_read m (p + sizeof_SlabEntry + key_size m p) (Z.to_nat (value_size m p)).

(** [entry->access_bit = b]. *)
Definition set_access_bit (m : memory) (p : Z) (b : byte) : memory := mem_write m (p + 8) [b].

Definition required_size (key_len val_len : Z) : Z := u64 (sizeof_SlabEntry + key_len + val_len).

Definition init_at (m : memory) (ptr : Z) (key value : bytes) : memory :=
  let m := mem_write m ptr (le_encode 4 (u32 (Z.of_nat (length key)))) in
  let m := mem_write m (ptr + 4) (le_encode 4 (u32 (Z.of_nat (length value)))) in
  let m := mem_write m (ptr + 8) [x00] in
  let m := mem_write m (ptr + 9) (replicate 7 x00) in
  let dst := ptr + sizeof_SlabEntry in
  let m := mem_write m dst key in
  mem_write m (dst + Z.of_nat (length key)) value.

(** ** Reads and writes *)

Lemma load_write m a bs x :
  load (mem_write m a bs) x =
    if decide (a <= x < a + Z.of_nat (length bs)) then nth (Z.to_nat (x - a)) bs x00 else load m x.
Proof.
  revert m a. induction bs as [|b bs IH]; intros m a; simpl mem_write.
  { rewrite decide_False by (simpl; lia). done. }
  rewrite IH. simpl length. repeat case_decide; try lia.
  - replace (Z.to_nat (x - a)) with (S (Z.to_nat (x - (a + 1)))) by lia. done.
  - assert (x = a) as -> by lia. rewrite Z.sub_diag. unfold load. by rewrite lookup_insert_eq.
  - unfold load. by rewrite lookup_insert_ne by lia.
Qed.

Lemma load_write_ne m a bs x :
  x < a \/ a + Z.of_nat (length bs) <= x -> load (mem_write m a bs) x = load m x.
Proof. intros. rewrite load_write, decide_False by lia. done. Qed.

Lemma length_mem_read m a n : length (mem_read m a n) = n.
Proof. unfold mem_read. by rewrite length_fmap, length_seq. Qed.

Lemma lookup_mem_read m a n i :
  (i < n)%nat -> mem_read m a n !! i = Some (load m (a + Z.of_nat i)).
Proof. intros. unfold mem_read. rewrite list_lookup_fmap, lookup_seq_lt by done. done. Qed.

Lemma mem_read_ext m m' a n :
  (forall x, a <= x < a + Z.of_nat n -> load m x = load m' x) -> mem_read m a n = mem_read m' a n.
Proof.
  intros H. apply list_fmap_ext. intros i x [-> Hi]%lookup_seq. apply H. lia.
Qed.

Lemma mem_read_write m a bs n : length bs = n -> mem_read (mem_write m a bs) a n = bs.
Proof.
  intros <-. apply list_eq_same_length with (length bs); [done|apply length_mem_read|].
  intros i x y Hi Hx Hy. rewrite lookup_mem_read in Hx by done. injection Hx as <-.
  rewrite load_write, decide_True by lia.
  replace (Z.to_nat (a + Z.of_nat i - a)) with i by lia. by apply nth_lookup_Some with (d := x00) in Hy.
Qed.

Lemma mem_read_write_ne m a bs a' n :
  a' + Z.of_nat n <= a \/ a + Z.of_nat (length bs) <= a' ->
  mem_read (mem_write m a bs) a' n = mem_read m a' n.
Proof. intros. apply mem_read_ext. intros x Hx. apply load_write_ne. lia. Qed.

(** ** What an address range holds *)

(** Address [p] holds an initialised entry with this key, value and access
    bit. *)
Record entry_at (m : memory) (p : Z) (k v : bytes) (bit : byte) : Prop := mk_entry_at {
  ea_key_size : key_size m p = Z.of_nat (length k);
  ea_value_size : value_size m p = Z.of_nat (length v);
  ea_bit : access_bit m p = bit;
  ea_key : entry_key m p = k;
  ea_value : entry_value m p = v
}.

(** The number of bytes an entry occupies. *)
Definition entry_extent (k v : bytes) : Z := 16 + Z.of_nat (length k) + Z.of_nat (length v).

Lemma entry_at_frame m m' p k v bit :
  (forall a, p <= a < p + entry_extent k v -> load m' a = load m a) ->
  entry_at m p k v bit -> entry_at m' p k v bit.
Proof.
  unfold entry_extent. intros Hag [Hks Hvs Hb Hk Hv].
  assert (key_size m' p = key_size m p) as Eks
    by (unfold key_size; f_equal; apply mem_read_ext; intros; apply Hag; lia).
  assert (value_size m' p = value_size m p) as Evs
    by (unfold value_size; f_equal; apply mem_read_ext; intros; apply Hag; lia).
  split; [congruence|congruence|..].
  - rewrite <- Hb. apply Hag. lia.
  - rewrite <- Hk. unfold entry_key. rewrite Eks. apply mem_read_ext.
    unfold sizeof_SlabEntry. intros. apply Hag. lia.
  - rewrite <- Hv. unfold entry_value. rewrite Eks, Evs. apply mem_read_ext.
    unfold sizeof_SlabEntry. intros. apply Hag. lia.
Qed.

Lemma set_access_bit_frame m p b a : a <> p + 8 -> load (set_access_bit m p b) a = load m a.
Proof. intros. apply load_write_ne. simpl. lia. Qed.

Lemma set_access_bit_entry m p k v bit b :
  entry_at m p k v bit -> entry_at (set_access_bit m p b) p k v b.
Proof.
  intros [Hks Hvs Hb Hk Hv].
  assert (key_size (set_access_bit m p b) p = key_size m p) as Eks
    by (unfold key_size, set_access_bit; f_equal; apply mem_read_write_ne; simpl; lia).
  assert (value_size (set_access_bit m p b) p = value_size m p) as Evs
    by (unfold value_size, set_access_bit; f_equal; apply mem_read_write_ne; simpl; lia).
  split; [congruence|congruence|..].
  - unfold access_bit, set_access_bit. rewrite load_write, decide_True by (simpl; lia).
    by rewrite Z.sub_diag.
  - rewrite <- Hk. unfold entry_key. rewrite Eks. apply mem_read_write_ne.
    unfold sizeof_SlabEntry. simpl. lia.
  - rewrite <- Hv. unfold entry_value. rewrite Eks, Evs. apply mem_read_write_ne.
    unfold sizeof_SlabEntry. simpl. lia.
Qed.

Lemma init_at_frame m p k v a :
  a < p \/ p + entry_extent k v <= a -> load (init_at m p k v) a = load m a.
Proof.
  unfold entry_extent, init_at, sizeof_SlabEntry. intros.
  repeat (rewrite load_write_ne
    by (rewrite ?length_le_encode, ?length_replicate; simpl; lia)). done.
Qed.

(** A freshly initialised entry reads back as the key and value it was given,
    with a clear access bit, whatever the memory held. *)
Lemma init_at_entry m p k v :
  Z.of_nat (length k) < 2 ^ 32 -> Z.of_nat (length v) < 2 ^ 32 ->
  entry_at (init_at m p k v) p k v x00.
Proof.
  intros Hk Hv. unfold init_at, sizeof_SlabEntry.
  assert (forall m, key_size (mem_write (mem_write m (p + 16) k) (p + 16 + Z.of_nat (length k)) v) p
                    = key_size m p) as Eks.
  { intros m'. unfold key_size. by rewrite !mem_read_write_ne by lia. }
  assert (forall m, value_size (mem_write (mem_write m (p + 16) k) (p + 16 + Z.of_nat (length k)) v) p
                    = value_size m p) as Evs.
  { intros m'. unfold value_size. by rewrite !mem_read_write_ne by lia. }
  set (h := mem_write (mem_write (mem_write (mem_write m _ _) _ _) _ _) _ _).
  assert (key_size h p = Z.of_nat (length k)) as Ek.
  { subst h. unfold key_size. rewrite !mem_read_write_ne by (rewrite ?length_le_encode; simpl; lia).
    rewrite mem_read_write by apply length_le_encode. rewrite le_decode_encode. unfold u32.
    rewrite wrap_wrap. apply wrap_small. split; lia. }
  assert (value_size h p = Z.of_nat (length v)) as Ev.
  { subst h. unfold value_size. rewrite !mem_read_write_ne by (rewrite ?length_le_encode; simpl; lia).
    rewrite mem_read_write by apply length_le_encode. rewrite le_decode_encode. unfold u32.
    rewrite wrap_wrap. apply wrap_small. split; lia. }
  split.
  - by rewrite Eks.
  - by rewrite Evs.
  - unfold access_bit. subst h. rewrite !load_write_ne by (rewrite ?length_replicate; simpl; lia).
    rewrite load_write, decide_True by (simpl; lia). by rewrite Z.sub_diag.
  - unfold entry_key, sizeof_SlabEntry. rewrite Eks, Ek, Nat2Z.id.
    rewrite mem_read_write_ne by lia. by apply mem_read_write.
  - unfold entry_value, sizeof_SlabEntry. rewrite Eks, Evs, Ek, Ev, Nat2Z.id. by apply mem_read_write.
Qed.

#[export] Hint Resolve init_at_entry set_access_bit_entry : pensieve.
