(* ===== verification/SlabAllocator.v ===== *)
(** * The arena and the slab allocator ([src/src/storage/slab_allocator.{h,cpp}])

    The arena is cut into 1 MB pages; each page is handed to one of fifteen
    power-of-two size classes and split into slots, and every class keeps a
    LIFO free list.  The allocator never writes to the arena: its state is
    addresses only. *)

From S2P Require Import Prelude.

Local Open Scope Z_scope.

Definition kPageSize : Z := Z.shiftl 1 20.
Definition kMinSlotSize : Z := 64.
Definition kMaxSlotSize : Z := Z.shiftl 1 20.
Definition kNumClasses : nat := 15.

(** ** The arena *)

Record Arena := mkArena {
  base_ : Z;
  capacity_ : Z;
  hugepage_ : bool
}.

Inductive exn := invalid_argument | runtime_error.

(** [mmap capacity hugetlb] is the address of the mapping, or [None] for
    [MAP_FAILED]. *)
Definition Arena_new (mmap : Z -> bool -> option Z) (capacity : Z) : exn + Arena :=
  if decide (capacity = 0) then inl invalid_argument else
  match mmap capacity true with
  | Some base => inr (mkArena base capacity true)
  | None =>
      match mmap capacity false with
      | Some base => inr (mkArena base capacity false)
      | None => inl runtime_error
      end
  end.

(** ** Size classes *)

(** [std::bit_ceil]: the least power of two that is at least [x]. *)
Definition bit_ceil (x : Z) : Z := if decide (x <= 1) then 1 else 2 ^ Z.log2_up x.

Fixpoint trailing_zeros (p : positive) : nat :=
  match p with
  | xO p => S (trailing_zeros p)
  | _ => 0
  end.

(** [std::countr_zero] of a [size_t]. *)
Definition countr_zero (x : Z) : nat :=
  match x with
  | Zpos p => trailing_zeros p
  | _ => 64
  end.

Definition class_for_size (size : Z) : nat :=
  if decide (size <= kMinSlotSize) then 0 else
  if decide (size > kMaxSlotSize) then kNumClasses else
  let power_of_2 := bit_ceil size in
  (countr_zero power_of_2 - countr_zero kMinSlotSize)%nat.

Definition slot_size_for_class (cls : nat) : Z := Z.shiftl kMinSlotSize (Z.of_nat cls).

(** ** The allocator *)

Record SizeClass := mkSizeClass {
  slot_size : Z;
  free_slots : list Z
}.

Record SlabAllocator := mkSlabAllocator {
  arena_ : Arena;
  classes_ : list SizeClass;
  next_page_ : Z
}.

Definition SlabAllocator_new (arena : Arena) : SlabAllocator :=
  mkSlabAllocator arena
    ((fun i => mkSizeClass (Z.shiftl kMinSlotSize (Z.of_nat i)) []) <$> seq 0 kNumClasses) 0.

Definition pages_total (a : SlabAllocator) : Z := capacity_ (arena_ a) / kPageSize.
Definition pages_used (a : SlabAllocator) : Z := next_page_ a.

Definition size_class (a : SlabAllocator) (cls : nat) : SizeClass :=
  default (mkSizeClass 0 []) (classes_ a !! cls).

Definition set_free_slots (a : SlabAllocator) (cls : nat) (fs : list Z) : SlabAllocator :=
  mkSlabAllocator (arena_ a)
    (alter (fun sc => mkSizeClass (slot_size sc) fs) cls (classes_ a)) (next_page_ a).

Definition assign_page (a : SlabAllocator) (cls : nat) : SlabAllocator :=
  if decide (next_page_ a >= pages_total a) then a else
  let page_base := base_ (arena_ a) + next_page_ a * kPageSize in
  let a := mkSlabAllocator (arena_ a) (classes_ a) (next_page_ a + 1) in
  let ss := slot_size (size_class a cls) in
  let slots_per_page := kPageSize / ss in
  set_free_slots a cls
    (free_slots (size_class a cls) ++ ((fun i => page_base + i * ss) <$> seqZ 0 slots_per_page)).

Definition allocate (a : SlabAllocator) (size : Z) : option Z * SlabAllocator :=
  let cls := class_for_size size in
  if decide (kNumClasses <= cls)%nat then (None, a) else
  let a := match free_slots (size_class a cls) with
           | [] => assign_page a cls
           | _ => a
           end in
  match last (free_slots (size_class a cls)) with
  | None => (None, a)
  | Some slot => (Some slot, set_free_slots a cls (removelast (free_slots (size_class a cls))))
  end.

Definition deallocate (a : SlabAllocator) (ptr : option Z) (size : Z) : SlabAllocator :=
  let cls := class_for_size size in
  match ptr with
  | None => a
  | Some p =>
      if decide (kNumClasses <= cls)%nat then a
      else set_free_slots a cls (free_slots (size_class a cls) ++ [p])
  end.

(** ** Size classes: the least one that fits *)

Lemma slot_size_for_class_pow c : slot_size_for_class c = 2 ^ (6 + Z.of_nat c).
Proof.
  unfold slot_size_for_class, kMinSlotSize. rewrite Z.shiftl_mul_pow2 by lia.
  change 64 with (2 ^ 6). rewrite <- Z.pow_add_r by lia. done.
Qed.

Lemma countr_zero_pow2 n : 0 <= n -> countr_zero (2 ^ n) = Z.to_nat n.
Proof.
  intros Hn. pattern n. apply natlike_ind; [done| |done]. clear n Hn. intros n Hn IH.
  rewrite Z.pow_succ_r by done. rewrite Z2Nat.inj_succ by done.
  assert (0 < 2 ^ n) as Hp by lia. revert IH Hp.
  generalize (2 ^ n). intros [|p|] IH Hp; [lia| |lia]. change (S (trailing_zeros p) = S (Z.to_nat n)).
  simpl in IH. by rewrite IH.
Qed.

Lemma class_for_size_log size :
  kMinSlotSize < size <= kMaxSlotSize ->
  6 < Z.log2_up size <= 20 /\ class_for_size size = Z.to_nat (Z.log2_up size - 6).
Proof.
  unfold kMinSlotSize, kMaxSlotSize. change (Z.shiftl 1 20) with (2 ^ 20). intros H.
  assert (6 < Z.log2_up size) by (apply Z.log2_up_lt_pow2; lia).
  assert (Z.log2_up size <= 20) by (apply Z.log2_up_le_pow2; lia).
  split; [lia|]. unfold class_for_size, kMinSlotSize, kMaxSlotSize.
  change (Z.shiftl 1 20) with (2 ^ 20). rewrite !decide_False by lia.
  unfold bit_ceil. rewrite decide_False by lia.
  rewrite countr_zero_pow2 by lia. change (countr_zero 64) with 6%nat. lia.
Qed.

Lemma class_for_size_spec size :
  (size <= kMaxSlotSize ->
     (class_for_size size < kNumClasses)%nat /\
     size <= slot_size_for_class (class_for_size size) /\
     forall c, size <= slot_size_for_class c -> (class_for_size size <= c)%nat) /\
  (kMaxSlotSize < size -> class_for_size size = kNumClasses).
Proof.
  split; intros Hs.
  - destruct (decide (size <= kMinSlotSize)) as [Hmin|Hmin].
    { assert (class_for_size size = 0%nat) as -> by (unfold class_for_size; by rewrite decide_True).
      split; [unfold kNumClasses; lia|]. split; [done|lia]. }
    destruct (class_for_size_log size) as [Hl ->]; [lia|].
    unfold kMinSlotSize, kMaxSlotSize, kNumClasses in *.
    assert (0 < size) by lia.
    split; [lia|]. split.
    + rewrite slot_size_for_class_pow, Z2Nat.id by lia.
      replace (6 + (Z.log2_up size - 6)) with (Z.log2_up size) by lia.
      apply Z.log2_up_le_pow2; lia.
    + intros c Hc. rewrite slot_size_for_class_pow in Hc.
      apply Z.log2_up_le_pow2 in Hc; lia.
  - unfold class_for_size. unfold kMinSlotSize, kMaxSlotSize, kNumClasses in *.
    change (Z.shiftl 1 20) with (2 ^ 20) in *. rewrite decide_False, decide_True by lia. done.
Qed.

(** the size class of a request is the smallest whose slots hold it, and
    the sentinel [kNumClasses] is returned exactly above 1 MB. *)
Theorem class_for_size_least size :
  (size <= kMaxSlotSize ->
     (class_for_size size < kNumClasses)%nat /\
     size <= slot_size_for_class (class_for_size size) /\
     forall c, size <= slot_size_for_class c -> (class_for_size size <= c)%nat) /\
  (kMaxSlotSize < size -> class_for_size size = kNumClasses).
Proof. apply class_for_size_spec. Qed.

Lemma class_for_size_least_witness :
  100 <= kMaxSlotSize /\ class_for_size 100 = 1%nat /\ 100 <= slot_size_for_class 1 /\
  kMaxSlotSize < 1048577 /\ class_for_size 1048577 = kNumClasses.
Proof.
  assert (100 <= kMaxSlotSize) as H by (vm_compute; discriminate).
  assert (kMaxSlotSize < 1048577) as H' by (vm_compute; reflexivity).
  split; [exact H|]. split; [reflexivity|].
  split; [exact (proj1 (proj2 (proj1 (class_for_size_least 100) H)))|].
  split; [exact H'|exact (proj2 (class_for_size_least 1048577) H')].
Defined.

(** ** Slots *)

(** [p] is the address of a slot of class [c], when page [j] of the arena was
    given to class [pages !! j]. *)
Definition slot_at (base : Z) (pages : list nat) (p : Z) (c : nat) : Prop :=
  exists (j : nat) (k : Z),
    pages !! j = Some c /\ 0 <= k < kPageSize / slot_size_for_class c /\
    p = base + Z.of_nat j * kPageSize + k * slot_size_for_class c.

Lemma slot_size_pos c : 0 < slot_size_for_class c.
Proof. rewrite slot_size_for_class_pow. lia. Qed.

Lemma page_of_slots c :
  (c < kNumClasses)%nat ->
  1 <= kPageSize / slot_size_for_class c /\
  kPageSize / slot_size_for_class c * slot_size_for_class c = kPageSize.
Proof.
  unfold kNumClasses. intros Hc. change kPageSize with (2 ^ 20).
  rewrite slot_size_for_class_pow.
  assert (2 ^ 20 = 2 ^ (14 - Z.of_nat c) * 2 ^ (6 + Z.of_nat c)) as E.
  { rewrite <- Z.pow_add_r by lia. f_equal. lia. }
  rewrite E, Z.div_mul by lia. lia.
Qed.

Lemma slot_inside c k :
  (c < kNumClasses)%nat -> 0 <= k < kPageSize / slot_size_for_class c ->
  0 <= k * slot_size_for_class c /\
  k * slot_size_for_class c + slot_size_for_class c <= kPageSize.
Proof.
  intros Hc Hk. destruct (page_of_slots c Hc) as [_ E]. pose proof (slot_size_pos c). nia.
Qed.

Section Slots.
Context (base : Z) (pages : list nat) (Hpages : Forall (fun c => c < kNumClasses)%nat pages).

Lemma page_class j c : pages !! j = Some c -> (c < kNumClasses)%nat.
Proof. intros Hj. by eapply Forall_lookup_1 in Hpages. Qed.

Lemma slot_bounds p c :
  slot_at base pages p c ->
  base <= p /\ p + slot_size_for_class c <= base + Z.of_nat (length pages) * kPageSize.
Proof.
  intros (j & k & Hj & Hk & ->). apply slot_inside in Hk; [|by eapply page_class].
  apply lookup_lt_Some in Hj. change kPageSize with 1048576 in *. lia.
Qed.

(** Two slots are the same slot or do not overlap. *)
Lemma slots_disjoint p c p' c' :
  slot_at base pages p c -> slot_at base pages p' c' ->
  (p = p' /\ c = c') \/ p + slot_size_for_class c <= p' \/ p' + slot_size_for_class c' <= p.
Proof.
  intros (j & k & Hj & Hk & ->) (j' & k' & Hj' & Hk' & ->).
  pose proof (slot_inside _ _ (page_class _ _ Hj) Hk).
  pose proof (slot_inside _ _ (page_class _ _ Hj') Hk').
  pose proof (slot_size_pos c). change kPageSize with 1048576 in *.
  destruct (decide (j = j')) as [<-|]; [|lia]. simplify_eq.
  destruct (decide (k = k')) as [<-|]; [by left|]. right.
  assert (k + 1 <= k' \/ k' + 1 <= k) as [] by lia; [left|right]; nia.
Qed.

Lemma slot_class_unique p c c' : slot_at base pages p c -> slot_at base pages p c' -> c = c'.
Proof.
  intros H H'. pose proof (slot_size_pos c). pose proof (slot_size_pos c').
  destruct (slots_disjoint _ _ _ _ H H') as [[_ ?]|]; [done|lia].
Qed.

Lemma slot_at_snoc p c c' :
  slot_at base (pages ++ [c']) p c <->
  slot_at base pages p c \/
  (c = c' /\ exists k, 0 <= k < kPageSize / slot_size_for_class c /\
     p = base + Z.of_nat (length pages) * kPageSize + k * slot_size_for_class c).
Proof.
  unfold slot_at. setoid_rewrite lookup_snoc_Some. split.
  - intros (j & k & [[? ?]|[-> ->]] & ? & ->); naive_solver.
  - intros [(j & k & Hj & ? & ->)|(-> & k & ? & ->)]; [|naive_solver].
    exists j, k. split; [|done]. left. split; [by eapply lookup_lt_Some|done].
Qed.
End Slots.

(** ** The allocator invariant *)

(** [pages] records which class each assigned page went to, [live] the slots
    handed out and not yet returned.  Every slot of an assigned page is on the
    free list of its class or live, never both and never twice. *)
Record alloc_inv (a : SlabAllocator) (pages : list nat) (live : gmap Z nat) : Prop := {
  ai_length : length (classes_ a) = kNumClasses;
  ai_sizes c sc : classes_ a !! c = Some sc -> slot_size sc = slot_size_for_class c;
  ai_pages : Forall (fun c => c < kNumClasses)%nat pages;
  ai_next : next_page_ a = Z.of_nat (length pages);
  ai_total : next_page_ a <= pages_total a;
  ai_free c p : p ∈ free_slots (size_class a c) -> slot_at (base_ (arena_ a)) pages p c;
  ai_live p c : live !! p = Some c -> slot_at (base_ (arena_ a)) pages p c;
  ai_nodup c : NoDup (free_slots (size_class a c));
  ai_disjoint c p : p ∈ free_slots (size_class a c) -> live !! p = None;
  ai_conserved p c :
    slot_at (base_ (arena_ a)) pages p c ->
    p ∈ free_slots (size_class a c) \/ live !! p = Some c
}.

Lemma size_class_set_free a c fs c' :
  (c < length (classes_ a))%nat ->
  size_class (set_free_slots a c fs) c' =
    if decide (c = c') then mkSizeClass (slot_size (size_class a c)) fs else size_class a c'.
Proof.
  intros Hc. unfold size_class, set_free_slots. simpl. case_decide as E.
  - subst c'. rewrite list_lookup_alter_eq.
    destruct (lookup_lt_is_Some_2 _ _ Hc) as [sc ->]. done.
  - by rewrite list_lookup_alter_ne.
Qed.

Lemma free_set_free a c fs c' :
  (c < length (classes_ a))%nat ->
  free_slots (size_class (set_free_slots a c fs) c') =
    if decide (c = c') then fs else free_slots (size_class a c').
Proof. intros Hc. rewrite size_class_set_free by done. by case_decide. Qed.

Lemma set_free_sizes a c fs :
  (forall c sc, classes_ a !! c = Some sc -> slot_size sc = slot_size_for_class c) ->
  forall c' sc, classes_ (set_free_slots a c fs) !! c' = Some sc ->
  slot_size sc = slot_size_for_class c'.
Proof.
  intros H c' sc. simpl. rewrite list_lookup_alter.
  case_decide; [subst; destruct (classes_ a !! _) as [sc'|] eqn:E|]; simpl; intros; simplify_eq/=; eauto.
Qed.

Lemma size_class_new arena c : free_slots (size_class (SlabAllocator_new arena) c) = [].
Proof.
  unfold size_class, SlabAllocator_new. cbn [classes_]. rewrite list_lookup_fmap.
  by destruct (seq 0 kNumClasses !! c).
Qed.

Lemma alloc_inv_new arena : 0 <= capacity_ arena -> alloc_inv (SlabAllocator_new arena) [] ∅.
Proof.
  intros Hcap. split; try done.
  - intros c sc. unfold SlabAllocator_new. cbn [classes_]. rewrite list_lookup_fmap.
    intros (i & [-> _]%lookup_seq & ->)%fmap_Some. done.
  - apply Z.div_pos; [done|]. by compute.
  - intros c p. rewrite size_class_new. set_solver.
  - intros c. rewrite size_class_new. constructor.
  - intros p c (j & k & Hj & _). by rewrite lookup_nil in Hj.
Qed.

Section Preservation.
Context (a : SlabAllocator) (pages : list nat) (live : gmap Z nat).
Context (Hinv : alloc_inv a pages live).

Lemma class_in_range c : (c < kNumClasses)%nat -> (c < length (classes_ a))%nat.
Proof. by rewrite (ai_length _ _ _ Hinv). Qed.

Lemma free_slot_class c p : p ∈ free_slots (size_class a c) -> (c < kNumClasses)%nat.
Proof.
  intros (j & k & Hj & _)%(ai_free _ _ _ Hinv).
  by eapply page_class; [apply (ai_pages _ _ _ Hinv)|].
Qed.

Lemma alloc_inv_pop c fs p :
  free_slots (size_class a c) = fs ++ [p] ->
  alloc_inv (set_free_slots a c fs) pages (<[p := c]> live).
Proof.
  intros Hfs. assert (p ∈ free_slots (size_class a c)) as Hp by (rewrite Hfs; set_solver).
  pose proof (class_in_range c (free_slot_class c p Hp)) as Hc.
  pose proof (ai_nodup _ _ _ Hinv c) as Hnd. rewrite Hfs in Hnd. apply NoDup_app in Hnd as (Hnd & Hnp & _).
  assert (forall q, q ∈ fs -> q ∈ free_slots (size_class a c)) as Hsub by (rewrite Hfs; set_solver).
  destruct Hinv as [Hlen Hsz Hpg Hnx Htot Hfree Hlive Hndp Hdis Hcons].
  split; simpl; rewrite ?length_alter; try done.
  - by apply set_free_sizes.
  - intros c' q. rewrite free_set_free by done. case_decide as E; [subst; auto|auto].
  - intros q c' Hq. apply lookup_insert_Some in Hq as [[-> ->]|[_ Hq]]; auto.
  - intros c'. rewrite free_set_free by done. case_decide; auto.
  - intros c' q. rewrite free_set_free by done. intros Hq. apply lookup_insert_None. case_decide as E.
    + subst. split; [eauto|]. intros ->. set_solver.
    + split; [eauto|]. intros ->. apply E. eapply slot_class_unique; eauto.
  - intros q c' Hq. rewrite free_set_free by done.
    destruct (Hcons _ _ Hq) as [Hq'|Hq'].
    + case_decide as E; [|by auto]. subst. rewrite Hfs, elem_of_app, list_elem_of_singleton in Hq'.
      destruct Hq' as [?| ->]; [by left|]. right. by rewrite lookup_insert_eq.
    + right. rewrite lookup_insert_ne; [done|]. intros ->. rewrite (Hdis _ _ Hp) in Hq'. done.
Qed.

Lemma alloc_inv_push c p :
  live !! p = Some c ->
  alloc_inv (set_free_slots a c (free_slots (size_class a c) ++ [p])) pages (delete p live).
Proof.
  intros Hp. assert (c < kNumClasses)%nat as Hck.
  { destruct (ai_live _ _ _ Hinv _ _ Hp) as (j & k & Hj & _).
    by eapply page_class; [apply (ai_pages _ _ _ Hinv)|]. }
  pose proof (class_in_range c Hck) as Hc.
  assert (p ∉ free_slots (size_class a c)) as Hnp.
  { intros Hin. rewrite (ai_disjoint _ _ _ Hinv _ _ Hin) in Hp. done. }
  destruct Hinv as [Hlen Hsz Hpg Hnx Htot Hfree Hlive Hndp Hdis Hcons].
  split; simpl; rewrite ?length_alter; try done.
  - by apply set_free_sizes.
  - intros c' q. rewrite free_set_free by done. case_decide as E; [subst|auto].
    rewrite elem_of_app, list_elem_of_singleton. intros [?| ->]; auto.
  - intros q c' Hq. apply lookup_delete_Some in Hq as [_ Hq]. auto.
  - intros c'. rewrite free_set_free by done. case_decide; [|auto].
    apply NoDup_app. split; [auto|]. split; [|apply NoDup_singleton]. set_solver.
  - intros c' q. rewrite free_set_free by done. intros Hq. apply lookup_delete_None.
    case_decide as E.
    + subst. rewrite elem_of_app, list_elem_of_singleton in Hq. destruct Hq as [?| ->]; eauto.
    + eauto.
  - intros q c' Hq. rewrite free_set_free by done.
    destruct (decide (p = q)) as [<-|Hne].
    + left. assert (c = c') as -> by (eapply slot_class_unique; eauto).
      rewrite decide_True by done. set_solver.
    + destruct (Hcons _ _ Hq) as [Hq'|Hq'].
      * left. case_decide; [subst; set_solver|done].
      * right. by rewrite lookup_delete_ne.
Qed.
End Preservation.

(** The addresses [assign_page] appends: the slots of the next page. *)
Definition page_slots (base : Z) (page : Z) (ss : Z) : list Z :=
  (fun i => base + page * kPageSize + i * ss) <$> seqZ 0 (kPageSize / ss).

Lemma elem_of_page_slots base page ss p :
  p ∈ page_slots base page ss <->
  exists k, 0 <= k < kPageSize / ss /\ p = base + page * kPageSize + k * ss.
Proof.
  unfold page_slots. rewrite list_elem_of_fmap. setoid_rewrite elem_of_seqZ.
  split; intros (k & ? & ?); exists k; (split; [lia|]; done) || (split; [done|lia]).
Qed.

Lemma NoDup_page_slots base page ss : 0 < ss -> NoDup (page_slots base page ss).
Proof.
  intros Hss. apply NoDup_fmap_2; [|apply NoDup_seqZ]. intros i j E. nia.
Qed.

Section Operations.
Context (a : SlabAllocator) (pages : list nat) (live : gmap Z nat).
Context (Hinv : alloc_inv a pages live).

Lemma slot_size_class c :
  (c < kNumClasses)%nat -> slot_size (size_class a c) = slot_size_for_class c.
Proof.
  intros Hc. unfold size_class. pose proof (class_in_range _ _ _ Hinv c Hc) as Hl.
  destruct (lookup_lt_is_Some_2 _ _ Hl) as [sc Hsc]. rewrite Hsc. simpl.
  by apply (ai_sizes _ _ _ Hinv).
Qed.

Lemma assign_page_eq c :
  (c < kNumClasses)%nat -> next_page_ a < pages_total a ->
  assign_page a c =
    set_free_slots (mkSlabAllocator (arena_ a) (classes_ a) (next_page_ a + 1)) c
      (free_slots (size_class a c) ++
       page_slots (base_ (arena_ a)) (next_page_ a) (slot_size_for_class c)).
Proof.
  intros Hc Hn. unfold assign_page. rewrite decide_False by lia.
  rewrite <- (slot_size_class c Hc). done.
Qed.

Lemma alloc_inv_assign c :
  (c < kNumClasses)%nat -> next_page_ a < pages_total a ->
  alloc_inv (assign_page a c) (pages ++ [c]) live.
Proof.
  intros Hck Hn. rewrite assign_page_eq by done.
  pose proof (class_in_range _ _ _ Hinv c Hck) as Hc.
  assert (forall q c', slot_at (base_ (arena_ a)) pages q c' ->
            q ∉ page_slots (base_ (arena_ a)) (next_page_ a) (slot_size_for_class c)) as Hfresh.
  { intros q c' Hq (k & Hk & ->)%elem_of_page_slots.
    apply slot_bounds in Hq; [|apply (ai_pages _ _ _ Hinv)].
    apply slot_inside in Hk; [|done]. pose proof (slot_size_pos c').
    rewrite (ai_next _ _ _ Hinv) in Hq. lia. }
  destruct Hinv as [Hlen Hsz Hpg Hnx Htot Hfree Hlive Hndp Hdis Hcons].
  set (a1 := mkSlabAllocator (arena_ a) (classes_ a) (next_page_ a + 1)).
  assert (forall c', size_class a1 c' = size_class a c') as Ea1 by done.
  split; simpl; rewrite ?length_alter; try done.
  - apply (set_free_sizes a1). done.
  - apply Forall_app. split; [done|by apply Forall_singleton].
  - rewrite Hnx, length_app. simpl. lia.
  - unfold pages_total in *. simpl. lia.
  - intros c' q. rewrite free_set_free, ?Ea1 by done. rewrite slot_at_snoc.
    case_decide as E; [subst|by auto]. rewrite elem_of_app, elem_of_page_slots.
    intros [Hq|(k & Hk & ->)]; [left; by apply Hfree|].
    right. split; [done|]. exists k. rewrite Hnx. done.
  - intros q c' Hq. apply slot_at_snoc. auto.
  - intros c'. rewrite free_set_free, ?Ea1 by done. case_decide as E; [subst|by auto].
    apply NoDup_app. split; [done|]. split; [|apply NoDup_page_slots, slot_size_pos].
    intros q Hq. eapply Hfresh. by apply Hfree.
  - intros c' q. rewrite free_set_free, ?Ea1 by done. case_decide as E; [subst|by eauto].
    rewrite elem_of_app. intros [Hq|Hq]; [by eauto|].
    destruct (live !! q) as [cl|] eqn:El; [|done].
    by destruct (Hfresh q cl (Hlive _ _ El)).
  - intros q c' Hq. rewrite free_set_free, ?Ea1 by done.
    apply slot_at_snoc in Hq as [Hq|(-> & k & Hk & ->)].
    + destruct (Hcons _ _ Hq); [|by right]. left. case_decide; [subst; set_solver|done].
    + left. rewrite decide_True by done. apply elem_of_app. right.
      apply elem_of_page_slots. exists k. rewrite Hnx. done.
Qed.

Lemma assign_page_full c : pages_total a <= next_page_ a -> assign_page a c = a.
Proof. intros H. unfold assign_page. by rewrite decide_True by lia. Qed.

Lemma free_assign_page c :
  (c < kNumClasses)%nat -> next_page_ a < pages_total a ->
  free_slots (size_class (assign_page a c) c) <> [].
Proof.
  intros Hc Hn. rewrite assign_page_eq by done.
  rewrite free_set_free, decide_True by (done || by apply (class_in_range _ _ _ Hinv)).
  intros [_ E]%app_eq_nil. destruct (page_of_slots c Hc) as [Hp _].
  assert (base_ (arena_ a) + next_page_ a * kPageSize + 0 * slot_size_for_class c ∈
            page_slots (base_ (arena_ a)) (next_page_ a) (slot_size_for_class c)) as Hin.
  { apply elem_of_page_slots. exists 0. lia. }
  rewrite E in Hin. set_solver.
Qed.
End Operations.

Lemma last_removelast {A} (l : list A) x : last l = Some x -> l = removelast l ++ [x].
Proof. intros [l' ->]%last_Some. by rewrite removelast_last. Qed.

(** What one call of [allocate] does, on every branch. *)
Lemma allocate_cases a pages live size :
  alloc_inv a pages live ->
  let c := class_for_size size in
  match allocate a size with
  | (Some p, a') =>
      (c < kNumClasses)%nat /\ live !! p = None /\ arena_ a' = arena_ a /\
      exists pages', alloc_inv a' pages' (<[p := c]> live)
  | (None, a') =>
      a' = a /\ ((kNumClasses <= c)%nat \/
        free_slots (size_class a c) = [] /\ next_page_ a = pages_total a)
  end.
Proof.
  intros Hinv c. unfold allocate. fold c. case_decide as Hc; [by auto|].
  set (a1 := match free_slots (size_class a c) with [] => _ | _ => _ end).
  assert (arena_ a1 = arena_ a /\ (exists pages1, alloc_inv a1 pages1 live) /\
          (free_slots (size_class a1 c) = [] ->
             a1 = a /\ free_slots (size_class a c) = [] /\ next_page_ a = pages_total a))
    as (Ea & [pages1 Hinv1] & Hempty).
  { subst a1. destruct (free_slots (size_class a c)) eqn:Ef.
    2: { split; [done|]. split; [by eauto|]. by rewrite Ef. }
    destruct (decide (next_page_ a < pages_total a)) as [Hn|Hn].
    - split; [by rewrite (assign_page_eq _ _ _ Hinv) by lia|].
      split; [eexists; apply (alloc_inv_assign _ _ _ Hinv); lia|].
      intros E. by destruct (free_assign_page _ _ _ Hinv c ltac:(lia) Hn).
    - pose proof (ai_total _ _ _ Hinv). rewrite assign_page_full by lia.
      split; [done|]. split; [by eauto|]. intros _. split; [done|]. split; [done|lia]. }
  destruct (last (free_slots (size_class a1 c))) as [p|] eqn:El.
  - apply last_removelast in El. split; [lia|]. split; [|split; [done|]].
    + apply (ai_disjoint _ _ _ Hinv1 c). rewrite El. set_solver.
    + exists pages1. by apply alloc_inv_pop.
  - apply last_None in El. destruct (Hempty El) as (-> & ? & ?). auto.
Qed.

Lemma slot_aligned base pages p c :
  slot_at base pages p c -> (p - base) mod kMinSlotSize = 0.
Proof.
  intros (j & k & _ & _ & ->). rewrite slot_size_for_class_pow, Z.pow_add_r by lia.
  change kPageSize with (16384 * 64). unfold kMinSlotSize. change (2 ^ 6) with 64.
  replace (base + Z.of_nat j * (16384 * 64) + k * (64 * 2 ^ Z.of_nat c) - base)
    with ((Z.of_nat j * 16384 + k * 2 ^ Z.of_nat c) * 64) by lia.
  apply Z_mod_mult.
Qed.

Lemma alloc_inv_arena a pages live p c :
  alloc_inv a pages live -> live !! p = Some c ->
  base_ (arena_ a) <= p /\
  p + slot_size_for_class c <= base_ (arena_ a) + capacity_ (arena_ a).
Proof.
  intros Hinv Hp%(ai_live _ _ _ Hinv). apply slot_bounds in Hp; [|apply (ai_pages _ _ _ Hinv)].
  pose proof (ai_total _ _ _ Hinv) as Ht. rewrite (ai_next _ _ _ Hinv) in Ht.
  unfold pages_total in Ht.
  assert (capacity_ (arena_ a) / kPageSize * kPageSize <= capacity_ (arena_ a)).
  { rewrite Z.mul_comm. apply Z.mul_div_le. by compute. }
  change kPageSize with 1048576 in *. lia.
Qed.

Lemma live_disjoint a pages live p c q c' :
  alloc_inv a pages live -> live !! p = Some c -> live !! q = Some c' -> p <> q ->
  p + slot_size_for_class c <= q \/ q + slot_size_for_class c' <= p.
Proof.
  intros Hinv Hp%(ai_live _ _ _ Hinv) Hq%(ai_live _ _ _ Hinv) Hne.
  destruct (slots_disjoint _ _ (ai_pages _ _ _ Hinv) _ _ _ _ Hp Hq) as [[? _]|]; done.
Qed.

Lemma class_fits size :
  (class_for_size size < kNumClasses)%nat -> size <= slot_size_for_class (class_for_size size).
Proof.
  intros H. destruct (class_for_size_spec size) as [H1 H2].
  destruct (decide (size <= kMaxSlotSize)); [by apply H1|]. rewrite H2 in H by lia. lia.
Qed.

Lemma class_overflow size : (kNumClasses <= class_for_size size)%nat <-> kMaxSlotSize < size.
Proof.
  destruct (class_for_size_spec size) as [H1 H2]. split.
  - intros H. destruct (decide (size <= kMaxSlotSize)) as [Hs|]; [|lia]. destruct (H1 Hs). lia.
  - intros H. by rewrite H2.
Qed.

(** C17: a slot returned by [allocate] was not in use, holds the requested
    size, lies inside the arena at a 64-byte boundary of it, overlaps no slot
    in use, and the allocator invariant holds with it in use. *)
Theorem allocate_sound a pages live size p a' :
  alloc_inv a pages live -> allocate a size = (Some p, a') ->
  let ss := slot_size_for_class (class_for_size size) in
  let base := base_ (arena_ a) in
  live !! p = None /\ size <= ss /\
  base <= p /\ p + ss <= base + capacity_ (arena_ a) /\ (p - base) mod 64 = 0 /\
  (forall q c, live !! q = Some c -> p + ss <= q \/ q + slot_size_for_class c <= p) /\
  exists pages', alloc_inv a' pages' (<[p := class_for_size size]> live).
Proof.
  intros Hinv E. pose proof (allocate_cases a pages live size Hinv) as H. simpl in H.
  rewrite E in H. destruct H as (Hc & Hp & Ea & pages' & Hinv'). simpl.
  assert (<[p := class_for_size size]> live !! p = Some (class_for_size size)) as Hl
    by apply lookup_insert_eq.
  split; [done|]. split; [by apply class_fits|].
  destruct (alloc_inv_arena _ _ _ _ _ Hinv' Hl) as [H1 H2]. rewrite Ea in H1, H2.
  split; [done|]. split; [done|].
  split; [rewrite <- Ea; by eapply slot_aligned, (ai_live _ _ _ Hinv')|].
  split; [|by eauto]. intros q c Hq.
  assert (p <> q) as Hne by (intros ->; congruence).
  eapply live_disjoint; [done|done| |done]. by rewrite lookup_insert_ne.
Qed.

Definition demo_allocator : SlabAllocator := SlabAllocator_new (mkArena 4096 (2 * kPageSize) false).

Lemma allocate_sound_witness :
  exists a', allocate demo_allocator kMaxSlotSize = (Some 4096, a') /\
    exists pages', alloc_inv a' pages' {[4096 := 14%nat]}.
Proof.
  assert (alloc_inv demo_allocator [] ∅) as Hinv by (apply alloc_inv_new; vm_compute; discriminate).
  exists (allocate demo_allocator kMaxSlotSize).2.
  assert (allocate demo_allocator kMaxSlotSize =
            (Some 4096, (allocate demo_allocator kMaxSlotSize).2)) as E by reflexivity.
  split; [exact E|].
  exact (proj2 (proj2 (proj2 (proj2 (proj2 (proj2
    (allocate_sound demo_allocator [] ∅ kMaxSlotSize 4096 _ Hinv E))))))).
Defined.

(** [allocate] fails only above 1 MB, or when the class has no free slot
    and every page of the arena has been assigned; a failed call changes
    nothing. *)
Theorem allocate_fails_iff a pages live size :
  alloc_inv a pages live ->
  ((allocate a size).1 = None <->
     kMaxSlotSize < size \/
     (free_slots (size_class a (class_for_size size)) = [] /\ pages_used a = pages_total a)) /\
  ((allocate a size).1 = None -> (allocate a size).2 = a).
Proof.
  intros Hinv. pose proof (allocate_cases a pages live size Hinv) as H. simpl in H.
  destruct (allocate a size) as [[p|] a'] eqn:E; simpl.
  - split; [split; [done|]|done]. destruct H as (Hc & _). intros [Hs|[Hf Hn]].
    { apply class_overflow in Hs. lia. }
    unfold allocate in E. rewrite decide_False in E by lia. unfold pages_used in Hn.
    rewrite Hf, assign_page_full, Hf in E by lia. done.
  - destruct H as [-> H]. split; [|done]. split; [intros _|done].
    rewrite <- class_overflow. done.
Qed.

Lemma allocate_fails_iff_witness :
  (allocate demo_allocator (kMaxSlotSize + 1)).1 = None /\
  (allocate demo_allocator (kMaxSlotSize + 1)).2 = demo_allocator.
Proof.
  assert (alloc_inv demo_allocator [] ∅) as Hinv by (apply alloc_inv_new; vm_compute; discriminate).
  destruct (allocate_fails_iff demo_allocator [] ∅ (kMaxSlotSize + 1) Hinv) as [H1 H2].
  assert ((allocate demo_allocator (kMaxSlotSize + 1)).1 = None) as E
    by (apply H1; left; vm_compute; reflexivity).
  split; [exact E|exact (H2 E)].
Defined.

Lemma set_free_slots_twice a c fs fs' :
  set_free_slots (set_free_slots a c fs) c fs' = set_free_slots a c fs'.
Proof.
  unfold set_free_slots. simpl. f_equal. by rewrite list_alter_alter_eq.
Qed.

Lemma set_free_slots_same a c : set_free_slots a c (free_slots (size_class a c)) = a.
Proof.
  destruct a as [ar cs n]. unfold set_free_slots, size_class. simpl. f_equal.
  apply list_eq. intros i. rewrite list_lookup_alter. case_decide; [subst|done].
  by destruct (cs !! _) as [[]|].
Qed.

Lemma deallocate_inv a pages live p size :
  alloc_inv a pages live -> live !! p = Some (class_for_size size) ->
  alloc_inv (deallocate a (Some p) size) pages (delete p live).
Proof.
  intros Hinv Hp. unfold deallocate. rewrite decide_False; [by apply alloc_inv_push|].
  destruct (ai_live _ _ _ Hinv _ _ Hp) as (j & k & Hj & _).
  assert (class_for_size size < kNumClasses)%nat; [|lia].
  by eapply page_class; [apply (ai_pages _ _ _ Hinv)|].
Qed.

(** returning a slot with the size it was allocated for keeps the
    invariant, and the next allocation of that class hands the same slot out
    again and restores the allocator state exactly: nothing is lost. *)
Theorem deallocate_allocate a pages live p size :
  alloc_inv a pages live -> live !! p = Some (class_for_size size) ->
  alloc_inv (deallocate a (Some p) size) pages (delete p live) /\
  allocate (deallocate a (Some p) size) size = (Some p, a).
Proof.
  intros Hinv Hp. split; [by apply deallocate_inv|].
  assert (class_for_size size < kNumClasses)%nat as Hck.
  { destruct (ai_live _ _ _ Hinv _ _ Hp) as (j & k & Hj & _).
    by eapply page_class; [apply (ai_pages _ _ _ Hinv)|]. }
  pose proof (class_in_range _ _ _ Hinv _ Hck) as Hc.
  unfold deallocate, allocate. rewrite !decide_False by lia. cbv zeta.
  set (c := class_for_size size) in *.
  assert (free_slots (size_class (set_free_slots a c (free_slots (size_class a c) ++ [p])) c)
          = free_slots (size_class a c) ++ [p]) as E.
  { rewrite free_set_free by done. by rewrite decide_True. }
  rewrite E. destruct (free_slots (size_class a c) ++ [p]) as [|x l] eqn:El.
  { by apply app_eq_nil in El as [_ ?]. }
  rewrite <- El in *. rewrite E, last_snoc, removelast_last, set_free_slots_twice.
  by rewrite set_free_slots_same.
Qed.

Lemma deallocate_allocate_witness :
  let a1 := (allocate demo_allocator kMaxSlotSize).2 in
  exists pages, alloc_inv a1 pages {[4096 := 14%nat]} /\
  allocate (deallocate a1 (Some 4096) kMaxSlotSize) kMaxSlotSize = (Some 4096, a1).
Proof.
  assert (alloc_inv demo_allocator [] ∅) as Hinv by (apply alloc_inv_new; vm_compute; discriminate).
  pose proof (allocate_cases demo_allocator [] ∅ kMaxSlotSize Hinv) as H.
  change (allocate demo_allocator kMaxSlotSize) with
    (Some 4096, (allocate demo_allocator kMaxSlotSize).2) in H.
  destruct H as (_ & _ & _ & pages & Hinv1).
  intros a1. exists pages. split; [exact Hinv1|].
  exact (proj2 (deallocate_allocate a1 pages _ 4096 kMaxSlotSize Hinv1 eq_refl)).
Defined.

(** ** When there is room *)

Definition can_allocate (a : SlabAllocator) (size : Z) : Prop :=
  free_slots (size_class a (class_for_size size)) <> [] \/ pages_used a < pages_total a.

Lemma can_allocate_some a pages live size :
  alloc_inv a pages live -> size <= kMaxSlotSize -> can_allocate a size ->
  is_Some (allocate a size).1.
Proof.
  intros Hinv Hs Hroom. pose proof (allocate_cases a pages live size Hinv) as H. simpl in H.
  destruct (allocate a size) as [[p|] a']; [by eexists|]. exfalso.
  destruct H as [_ [H|[Hf Hn]]].
  - apply class_overflow in H. lia.
  - unfold can_allocate, pages_used in Hroom. destruct Hroom; [done|lia].
Qed.

Lemma can_allocate_deallocate a pages live p sz size :
  alloc_inv a pages live -> live !! p = Some (class_for_size sz) ->
  can_allocate a size \/ class_for_size sz = class_for_size size ->
  can_allocate (deallocate a (Some p) sz) size.
Proof.
  intros Hinv Hp H. destruct (ai_live _ _ _ Hinv _ _ Hp) as (j & k & Hj & _).
  assert (class_for_size sz < kNumClasses)%nat as Hc
    by (by eapply page_class; [apply (ai_pages _ _ _ Hinv)|]).
  unfold deallocate. rewrite decide_False by lia. unfold can_allocate.
  rewrite free_set_free by (by apply (class_in_range _ _ _ Hinv)).
  change (pages_used (set_free_slots a _ _)) with (pages_used a).
  change (pages_total (set_free_slots a _ _)) with (pages_total a).
  case_decide as E.
  - left. intros [_ ?]%app_eq_nil. done.
  - destruct H as [H|H]; [exact H|done].
Qed.
