(* ===== verification/ClockEvictor.v ===== *)
(** * The clock evictor ([src/src/storage/clock_evictor.{h,cpp}])

    A ring of entry pointers with a position index and a hand.  The access bits
    live in the entries, so eviction works on the memory. *)

From S2P Require Import Prelude SlabEntry.

Local Open Scope Z_scope.

Record ClockEvictor := mkClockEvictor {
  ring_ : list Z;
  index_ : gmap Z nat;
  hand_ : nat
}.

Definition ClockEvictor_new : ClockEvictor := mkClockEvictor [] ∅ 0.

Definition tracked (e : ClockEvictor) : nat := length (ring_ e).

Definition pop_back {A} (l : list A) : list A := take (length l - 1) l.

(** Defined for a valid index; the code is undefined outside. *)
Definition swap_remove (e : ClockEvictor) (idx : nat) : ClockEvictor :=
  match ring_ e !! idx, last (ring_ e) with
  | Some removed, Some back =>
      let index := delete removed (index_ e) in
      if decide (idx <> length (ring_ e) - 1)%nat then
        mkClockEvictor (pop_back (<[idx := back]> (ring_ e))) (<[back := idx]> index) (hand_ e)
      else mkClockEvictor (pop_back (ring_ e)) index (hand_ e)
  | _, _ => e
  end.

Definition set_hand (e : ClockEvictor) (h : nat) : ClockEvictor :=
  mkClockEvictor (ring_ e) (index_ e) h.

Definition track (e : ClockEvictor) (entry : Z) : ClockEvictor :=
  mkClockEvictor (ring_ e ++ [entry]) (<[entry := length (ring_ e)]> (index_ e)) (hand_ e).

Definition untrack (e : ClockEvictor) (entry : Z) : ClockEvictor :=
  match index_ e !! entry with
  | None => e
  | Some idx =>
      let e := swap_remove e idx in
      if decide (ring_ e = []) then set_hand e 0
      else if decide (length (ring_ e) <= hand_ e)%nat then set_hand e 0
      else e
  end.

(** The body of the [for] loop of [evict_one], [fuel] iterations left. *)
Fixpoint evict_loop (fuel : nat) (m : memory) (e : ClockEvictor)
  : option Z * memory * ClockEvictor :=
  match fuel with
  | O => (None, m, e)
  | S fuel =>
      let e := if decide (length (ring_ e) <= hand_ e)%nat then set_hand e 0 else e in
      match ring_ e !! hand_ e with
      | None => (None, m, e)
      | Some entry =>
          if decide (access_bit m entry = x00) then
            let e := swap_remove e (hand_ e) in
            let e := if decide (length (ring_ e) <= hand_ e /\ ring_ e <> [])%nat
                     then set_hand e 0 else e in
            (Some entry, m, e)
          else
            let m := set_access_bit m entry x00 in
            evict_loop fuel m (set_hand e ((hand_ e + 1) mod length (ring_ e)))
      end
  end.

Definition evict_one (m : memory) (e : ClockEvictor) : option Z * memory * ClockEvictor :=
  if decide (ring_ e = []) then (None, m, e)
  else evict_loop (length (ring_ e) * 2) m e.

(** ** Well-formedness: the index inverts the ring, the hand is inside *)

Record clock_wf (e : ClockEvictor) : Prop := {
  cw_index i p : ring_ e !! i = Some p <-> index_ e !! p = Some i;
  cw_hand : hand_ e = 0%nat \/ (hand_ e < length (ring_ e))%nat
}.

Lemma clock_wf_new : clock_wf ClockEvictor_new.
Proof. split; [intros i p; simpl; by rewrite lookup_empty|by left]. Qed.

Lemma clock_NoDup e : clock_wf e -> NoDup (ring_ e).
Proof.
  intros [Hix _]. apply NoDup_alt. intros i j p Hi%Hix Hj%Hix. by simplify_eq.
Qed.

Lemma clock_index_elem e p : clock_wf e -> p ∈ ring_ e <-> is_Some (index_ e !! p).
Proof.
  intros [Hix _]. rewrite list_elem_of_lookup. setoid_rewrite Hix. done.
Qed.

Lemma lookup_pop_back {A} (l : list A) i x :
  pop_back l !! i = Some x <-> l !! i = Some x /\ (i <> length l - 1)%nat.
Proof.
  unfold pop_back. rewrite lookup_take_Some. split.
  - intros [H ?]. split; [done|]. lia.
  - intros [H ?]. split; [done|]. apply lookup_lt_Some in H. lia.
Qed.

Lemma length_pop_back {A} (l : list A) : length (pop_back l) = (length l - 1)%nat.
Proof. unfold pop_back. rewrite length_take. lia. Qed.

Lemma pop_back_snoc {A} (l : list A) x : pop_back (l ++ [x]) = l.
Proof. unfold pop_back. rewrite length_app, Nat.add_sub, take_app_length. done. Qed.

Lemma length_swap_remove e idx :
  (idx < length (ring_ e))%nat -> length (ring_ (swap_remove e idx)) = (length (ring_ e) - 1)%nat.
Proof.
  intros H. unfold swap_remove. destruct (lookup_lt_is_Some_2 _ _ H) as [p ->].
  destruct (last (ring_ e)) eqn:El.
  - case_decide; simpl; rewrite length_pop_back, ?length_insert; done.
  - apply last_None in El. rewrite El in H. simpl in H. lia.
Qed.

Lemma hand_swap_remove e idx : hand_ (swap_remove e idx) = hand_ e.
Proof. unfold swap_remove. by repeat case_match. Qed.

Lemma swap_remove_perm e idx p :
  ring_ e !! idx = Some p -> p :: ring_ (swap_remove e idx) ≡ₚ ring_ e.
Proof.
  intros Hp. unfold swap_remove. rewrite Hp.
  destruct (ring_ e) as [|x l _] eqn:El using rev_ind; [done|]. rewrite last_snoc.
  rewrite length_app, Nat.add_sub. simpl.
  case_decide as Hi; simpl.
  - apply lookup_snoc_Some in Hp as [[Hlt Hp]|[? _]]; [|done].
    rewrite insert_app_l, pop_back_snoc by done.
    rewrite insert_take_drop by done. rewrite <- (take_drop_middle l idx p) at 3 by done.
    rewrite <- app_assoc. simpl. rewrite <- !Permutation_middle. constructor.
    by rewrite app_nil_r.
  - assert (idx = length l) as -> by lia. apply lookup_snoc_Some in Hp as [[? _]|[_ <-]]; [lia|].
    rewrite pop_back_snoc. by rewrite Permutation_app_comm.
Qed.

Lemma swap_remove_wf_index e idx p :
  (forall i p, ring_ e !! i = Some p <-> index_ e !! p = Some i) -> ring_ e !! idx = Some p ->
  forall i q, ring_ (swap_remove e idx) !! i = Some q <-> index_ (swap_remove e idx) !! q = Some i.
Proof.
  intros Hix Hp i q. unfold swap_remove. rewrite Hp.
  destruct (last (ring_ e)) as [back|] eqn:El.
  2: { apply last_None in El. by rewrite El in Hp. }
  rewrite last_lookup in El.
  assert (ring_ e !! (length (ring_ e) - 1)%nat = Some back) as Eb.
  { by replace (length (ring_ e) - 1)%nat with (pred (length (ring_ e))) by lia. }
  pose proof (lookup_lt_Some _ _ _ Hp) as Hlt.
  case_decide as Hi; cbn [ring_ index_]; rewrite lookup_pop_back, ?length_insert.
  - destruct (decide (q = back)) as [->|Hq].
    + rewrite lookup_insert_eq. split.
      * intros [[[-> ?]|[Hne Hx]]%list_lookup_insert_Some Hl]; [done|].
        apply Hix in Hx, Eb. simplify_eq.
      * intros [= <-]. rewrite list_lookup_insert_eq by done. split; [done|lia].
    + rewrite lookup_insert_ne, lookup_delete_Some, <- Hix by done.
      rewrite list_lookup_insert_Some. split.
      * intros [[(-> & ? & _)|[Hne Hx]] Hl]; [done|]. split; [|done].
        intros ->. apply Hix in Hx, Hp. simplify_eq.
      * intros [Hne Hx]. assert (i <> idx) by (intros ->; simplify_eq).
        split; [by right|]. intros ->. simplify_eq.
  - rewrite lookup_delete_Some, <- Hix. assert (idx = length (ring_ e) - 1)%nat as -> by lia.
    split.
    + intros [Hx Hl]. split; [|done]. intros ->. apply Hix in Hx, Hp. simplify_eq.
    + intros [Hne Hx]. split; [done|]. intros ->. simplify_eq.
Qed.

Lemma track_wf e p : clock_wf e -> p ∉ ring_ e -> clock_wf (track e p).
Proof.
  intros Hwf Hp. pose proof Hwf as [Hix Hh]. split; simpl.
  - intros i q. rewrite lookup_snoc_Some, lookup_insert_Some, <- Hix. split.
    + intros [[Hlt Hq]|[-> ->]]; [|by left]. right. split; [|done].
      intros ->. apply Hp, list_elem_of_lookup. eauto.
    + intros [[-> <-]|[Hne Hq]]; [by right|]. left. split; [by eapply lookup_lt_Some|done].
  - rewrite length_app. simpl. lia.
Qed.

Lemma untrack_spec e p :
  clock_wf e -> p ∈ ring_ e -> clock_wf (untrack e p) /\ p :: ring_ (untrack e p) ≡ₚ ring_ e.
Proof.
  intros Hwf Hp. apply (clock_index_elem e p Hwf) in Hp as [idx Hi].
  unfold untrack. rewrite Hi. destruct Hwf as [Hix Hh]. apply Hix in Hi.
  pose proof (swap_remove_wf_index e idx p Hix Hi) as Hix'.
  pose proof (swap_remove_perm e idx p Hi) as Hperm.
  pose proof (hand_swap_remove e idx) as Eh.
  destruct (decide (ring_ (swap_remove e idx) = [])) as [E|E].
  { split; [split; simpl; [done|by left]|done]. }
  case_decide; (split; [split; simpl; [done|]|done]); [by left|right; lia].
Qed.

Lemma untrack_absent e p : clock_wf e -> p ∉ ring_ e -> untrack e p = e.
Proof.
  intros Hwf Hp. unfold untrack. rewrite (clock_index_elem e p Hwf) in Hp.
  by apply eq_None_not_Some in Hp as ->.
Qed.

(** ** Second chance *)

(** The order in which the hand meets the entries. *)
Definition clock_order (e : ClockEvictor) : list Z := drop (hand_ e) (ring_ e) ++ take (hand_ e) (ring_ e).

(** Clear the access bits of some entries. *)
Definition clear_bits (m : memory) (ps : list Z) : memory :=
  foldl (fun m p => set_access_bit m p x00) m ps.

Lemma access_bit_set m p q b :
  access_bit (set_access_bit m p b) q = if decide (p = q) then b else access_bit m q.
Proof.
  unfold access_bit, set_access_bit. rewrite load_write. simpl length. repeat case_decide; try lia.
  - subst. by rewrite Z.sub_diag.
  - done.
Qed.

Lemma access_bit_clear m ps q :
  access_bit (clear_bits m ps) q = if decide (q ∈ ps) then x00 else access_bit m q.
Proof.
  revert m. induction ps as [|p ps IH]; intros m; simpl.
  { done. }
  rewrite IH, access_bit_set. repeat case_decide; set_solver.
Qed.

Lemma clock_order_perm e : clock_order e ≡ₚ ring_ e.
Proof. unfold clock_order. by rewrite Permutation_app_comm, take_drop. Qed.

Lemma clock_order_cons e p l :
  clock_order e = p :: l -> (hand_ e < length (ring_ e))%nat ->
  ring_ e !! hand_ e = Some p /\
  clock_order (set_hand e ((hand_ e + 1) mod length (ring_ e))) = l ++ [p].
Proof.
  intros E Hh. destruct (lookup_lt_is_Some_2 _ _ Hh) as [q Hq].
  unfold clock_order in *. rewrite (drop_S _ q) in E by done. injection E as -> <-.
  split; [done|]. simpl.
  destruct (decide (hand_ e + 1 = length (ring_ e))%nat) as [El|El].
  - rewrite El, Nat.Div0.mod_same. rewrite drop_0, take_0, app_nil_r.
    rewrite (drop_ge _ (S (hand_ e))) by lia. simpl.
    rewrite <- (take_S_r _ _ _ Hq), take_ge by lia. done.
  - rewrite Nat.mod_small by lia. rewrite Nat.add_1_r, (take_S_r _ _ _ Hq).
    by rewrite app_assoc.
Qed.

(** The part of the ring state the hand never changes. *)
Lemma evict_loop_skip fuel m e skipped p rest :
  clock_wf e -> (hand_ e < length (ring_ e))%nat ->
  clock_order e = skipped ++ p :: rest ->
  Forall (fun q => access_bit m q <> x00) skipped -> access_bit m p = x00 ->
  (length skipped < fuel)%nat ->
  exists e', evict_loop fuel m e = (Some p, clear_bits m skipped, e') /\
    clock_wf e' /\ p :: ring_ e' ≡ₚ ring_ e.
Proof.
  revert fuel m e rest. induction skipped as [|q skipped IH];
    intros [|fuel] m e rest Hwf Hh Ho Hs Hp Hf; simpl in Hf; try lia; simpl evict_loop.
  - rewrite (decide_False (P := (length (ring_ e) <= hand_ e)%nat)) by lia.
    destruct (clock_order_cons _ _ _ Ho Hh) as [Hr _]. rewrite Hr, decide_True by done.
    destruct Hwf as [Hix _].
    pose proof (swap_remove_wf_index e _ p Hix Hr) as Hix'.
    pose proof (swap_remove_perm e _ p Hr) as Hperm.
    pose proof (length_swap_remove e (hand_ e) Hh) as Hl.
    rewrite hand_swap_remove.
    eexists. split; [done|]. case_decide as Hd; (split; [split; simpl; [done|]|done]).
    + by left.
    + rewrite hand_swap_remove. destruct (decide (length (ring_ (swap_remove e (hand_ e))) <= hand_ e)%nat).
      * left. assert (ring_ (swap_remove e (hand_ e)) = []) as En.
        { destruct (ring_ (swap_remove e (hand_ e))); [done|]. exfalso. apply Hd. done. }
        rewrite En in Hl. simpl in Hl. lia.
      * right. lia.
  - rewrite (decide_False (P := (length (ring_ e) <= hand_ e)%nat)) by lia.
    simpl in Ho. destruct (clock_order_cons _ _ _ Ho Hh) as [Hr Ho'].
    apply Forall_cons in Hs as [Hq Hs]. rewrite Hr, decide_False by done.
    assert (NoDup (q :: skipped ++ p :: rest)) as Hnd.
    { rewrite <- Ho, clock_order_perm. by apply clock_NoDup. }
    apply NoDup_cons in Hnd as [Hnq _].
    rewrite <- app_assoc in Ho'. simpl in Ho'.
    edestruct (IH fuel (set_access_bit m q x00)
                 (set_hand e ((hand_ e + 1) mod length (ring_ e)))) as (e' & E & Hwf' & Hperm).
    + destruct Hwf as [Hix _]. split; simpl; [done|]. right. apply Nat.mod_upper_bound. lia.
    + simpl. apply Nat.mod_upper_bound. lia.
    + exact Ho'.
    + rewrite Forall_forall in Hs |- *. intros x Hx.
      rewrite access_bit_set, decide_False by set_solver. by apply Hs.
    + rewrite access_bit_set, decide_False; [done|set_solver].
    + lia.
    + exists e'. rewrite E. done.
Qed.

(** The reference policy on the order in which the hand meets the entries: the
    victim is the first entry whose access bit is clear, and the entries before
    it lose their bit; when every bit is set, all are cleared and the first
    entry goes. *)
Fixpoint first_clear (m : memory) (order : list Z) : option (Z * list Z) :=
  match order with
  | [] => None
  | p :: order =>
      if decide (access_bit m p = x00) then Some (p, [])
      else '(v, skipped) ← first_clear m order; Some (v, p :: skipped)
  end.

Definition second_chance (m : memory) (order : list Z) : option (Z * list Z) :=
  match first_clear m order with
  | Some r => Some r
  | None => match order with [] => None | p :: _ => Some (p, order) end
  end.

Lemma first_clear_Some m order p skipped :
  first_clear m order = Some (p, skipped) ->
  exists rest, order = skipped ++ p :: rest /\
    Forall (fun q => access_bit m q <> x00) skipped /\ access_bit m p = x00.
Proof.
  revert skipped. induction order as [|q order IH]; intros skipped E; simpl in E; [done|].
  case_decide as Hq.
  - simplify_eq. exists order. split; [done|]. by split; [constructor|].
  - destruct (first_clear m order) as [[v sk]|]; simplify_eq/=.
    destruct (IH sk eq_refl) as (rest & -> & Hs & Hp).
    exists rest. split; [done|]. split; [by constructor|done].
Qed.

Lemma first_clear_None m order :
  first_clear m order = None -> Forall (fun q => access_bit m q <> x00) order.
Proof.
  induction order as [|q order IH]; intros E; simpl in E; [constructor|].
  case_decide; [done|]. destruct (first_clear m order) as [[]|]; [done|].
  constructor; auto.
Qed.

(** The policy touches tracked entries only. *)
Lemma second_chance_cleared m order p cleared q :
  second_chance m order = Some (p, cleared) -> q ∈ cleared -> q ∈ order.
Proof.
  unfold second_chance. destruct (first_clear m order) as [[p' c']|] eqn:E.
  - intros [= -> ->]. apply first_clear_Some in E as (rest & -> & _). set_solver.
  - destruct order; [done|]. by intros [= -> <-].
Qed.

Lemma evict_one_spec m e :
  clock_wf e ->
  match second_chance m (clock_order e) with
  | None => ring_ e = [] /\ evict_one m e = (None, m, e)
  | Some (p, cleared) =>
      exists e', evict_one m e = (Some p, clear_bits m cleared, e') /\
        clock_wf e' /\ p :: ring_ e' ≡ₚ ring_ e
  end.
Proof.
  intros Hwf. pose proof (clock_order_perm e) as Hperm.
  unfold second_chance, evict_one.
  destruct (decide (ring_ e = [])) as [Hr|Hr].
  { rewrite Hr in Hperm. apply Permutation_nil_r in Hperm as ->. done. }
  assert (hand_ e < length (ring_ e))%nat as Hh.
  { destruct (cw_hand _ Hwf) as [->|]; [|done]. destruct (ring_ e); [done|simpl; lia]. }
  pose proof (Permutation_length Hperm) as Hlen.
  destruct (first_clear m (clock_order e)) as [[p skipped]|] eqn:Ef.
  - apply first_clear_Some in Ef as (rest & Eo & Hs & Hp).
    eapply evict_loop_skip; [done..|]. rewrite Eo, length_app in Hlen. simpl in Hlen. lia.
  - apply first_clear_None in Ef. destruct (clock_order e) as [|q tl] eqn:Eo.
    { by apply Permutation_nil_l in Hperm. }
    simpl in Hlen. replace (length (ring_ e) * 2)%nat with (S (length tl + length (ring_ e)))%nat by lia.
    simpl evict_loop. rewrite (decide_False (P := (length (ring_ e) <= hand_ e)%nat)) by lia.
    destruct (clock_order_cons _ _ _ Eo Hh) as [Hq Eo'].
    apply Forall_cons in Ef as [Hbq Htl]. rewrite Hq, decide_False by done.
    assert (NoDup (q :: tl)) as [Hnq _]%NoDup_cons by (rewrite Hperm; by apply clock_NoDup).
    change (clear_bits m (q :: tl)) with (clear_bits (set_access_bit m q x00) tl).
    eapply (evict_loop_skip _ _ (set_hand e _)); [|simpl|exact Eo'| | |lia].
    + destruct Hwf as [Hix _]. split; simpl; [done|]. right. apply Nat.mod_upper_bound. lia.
    + apply Nat.mod_upper_bound. lia.
    + rewrite Forall_forall in Htl |- *. intros x Hx.
      rewrite access_bit_set, decide_False by set_solver. by apply Htl.
    + rewrite access_bit_set. by rewrite decide_True.
Qed.

(** C20: eviction implements the second-chance policy: from a well-formed ring
    it returns the victim of the reference policy, clears exactly the access
    bits the hand passed, removes exactly the victim and keeps the ring and its
    index consistent.  In particular it never falls out of its loop: it returns
    no victim only when nothing is tracked. *)
Theorem evict_one_second_chance m e :
  clock_wf e ->
  match second_chance m (clock_order e) with
  | None => ring_ e = [] /\ evict_one m e = (None, m, e)
  | Some (p, cleared) =>
      exists e', evict_one m e = (Some p, clear_bits m cleared, e') /\
        clock_wf e' /\ p :: ring_ e' ≡ₚ ring_ e
  end.
Proof. apply evict_one_spec. Qed.

Definition demo_clock : ClockEvictor := track (track (track ClockEvictor_new 0) 64) 128.

Lemma demo_clock_wf : clock_wf demo_clock.
Proof.
  repeat apply track_wf; [apply clock_wf_new|simpl; set_solver|simpl; set_solver|simpl].
  intros H. repeat (apply elem_of_cons in H as [H|H]; [lia|]). set_solver.
Qed.

Lemma evict_one_second_chance_witness :
  exists e', evict_one (set_access_bit ∅ 0 x01) demo_clock =
    (Some 64, clear_bits (set_access_bit ∅ 0 x01) [0], e') /\ clock_wf e' /\ ring_ e' = [0; 128].
Proof.
  pose proof (evict_one_second_chance (set_access_bit ∅ 0 x01) demo_clock demo_clock_wf) as H.
  destruct H as (e' & E & Hwf & _). exists e'. split; [exact E|]. split; [exact Hwf|].
  assert (e' = (evict_one (set_access_bit ∅ 0 x01) demo_clock).2) as -> by (rewrite E; done).
  vm_compute. done.
Defined.

(** [untrack] removes exactly the given entry, keeps the index the inverse
    of the ring and the hand inside it, and undoes [track]. *)
Theorem untrack_correct e p :
  clock_wf e ->
  (p ∈ ring_ e -> clock_wf (untrack e p) /\ p :: ring_ (untrack e p) ≡ₚ ring_ e) /\
  (p ∉ ring_ e -> untrack e p = e /\ clock_wf (track e p) /\ untrack (track e p) p = e).
Proof.
  intros Hwf. split; [by apply untrack_spec|]. intros Hp.
  split; [by apply untrack_absent|]. split; [by apply track_wf|].
  unfold untrack, track. simpl. rewrite lookup_insert_eq. unfold swap_remove. simpl.
  rewrite lookup_app_r, Nat.sub_diag by lia. simpl. rewrite last_snoc.
  rewrite (decide_False (P := length (ring_ e) <> _)) by (rewrite length_app; simpl; lia). simpl.
  rewrite pop_back_snoc, delete_insert_id.
  2: { apply eq_None_not_Some. by rewrite <- (clock_index_elem e p Hwf). }
  pose proof (cw_hand _ Hwf). destruct e as [r ix h]. unfold set_hand. simpl in *.
  case_decide; [subst r; simpl in *; f_equal; lia|].
  case_decide; [|done]. f_equal. lia.
Qed.

Lemma untrack_correct_witness :
  128 ∈ ring_ demo_clock /\ clock_wf (untrack demo_clock 0) /\ ring_ (untrack demo_clock 0) = [128; 64] /\
  192 ∉ ring_ demo_clock /\ untrack (track demo_clock 192) 192 = demo_clock.
Proof.
  destruct (untrack_correct demo_clock 0 demo_clock_wf) as [H0 _].
  destruct (untrack_correct demo_clock 192 demo_clock_wf) as [_ H1].
  assert (0 ∈ ring_ demo_clock) as Hin by (simpl; set_solver).
  assert (192 ∉ ring_ demo_clock) as Hni.
  { simpl. intros H. repeat (apply elem_of_cons in H as [H|H]; [lia|]). set_solver. }
  split; [simpl; set_solver|]. split; [exact (proj1 (H0 Hin))|]. split; [vm_compute; done|].
  split; [exact Hni|exact (proj2 (proj2 (H1 Hni)))].
Defined.
