(* ===== verification/KVStore.v ===== *)
(** * What a key-value store promises

    The contract between the storage engine and its clients (the coordinator
    calls [get], [put] and [del] of [LocalStore]): the store behaves as a map
    that may forget keys, but only while it is making room for a [put], and
    never answers with anything but the value last written. *)

From S2P Require Import Prelude.

Local Open Scope Z_scope.

Inductive kv_op := OGet (k : bytes) | OPut (k v : bytes) | ODel (k : bytes).
Inductive kv_result := RValue (v : option bytes) | RBool (b : bool).

(** Sizes that a [size_t] of a process can hold. *)
Definition op_fits (op : kv_op) : Prop :=
  match op with
  | OPut k v => 16 + Z.of_nat (length k) + Z.of_nat (length v) < 2 ^ 64
  | _ => True
  end.

(** One call against the abstract map: a [put] may drop other keys, and a
    failed one has dropped the old value of its own key as well. *)
Inductive cache_step (M : gmap bytes bytes) : kv_op -> kv_result -> gmap bytes bytes -> Prop :=
  | cache_get k : cache_step M (OGet k) (RValue (M !! k)) M
  | cache_put k v dropped :
      k ∉ dropped -> Forall (fun k' => is_Some (M !! k')) dropped ->
      cache_step M (OPut k v) (RBool true) (<[k := v]> (foldr delete M dropped))
  | cache_put_full k v dropped :
      k ∉ dropped -> Forall (fun k' => is_Some (M !! k')) dropped ->
      cache_step M (OPut k v) (RBool false) (foldr delete (delete k M) dropped)
  | cache_del k :
      cache_step M (ODel k) (RBool (bool_decide (is_Some (M !! k)))) (delete k M).

Class KVStore (St : Type) := {
  kv_get : St -> bytes -> option bytes * St;
  kv_put : St -> bytes -> bytes -> bool * St;
  kv_del : St -> bytes -> bool * St;
  kv_contents : St -> gmap bytes bytes;
  kv_inv : St -> Prop
}.

Definition kv_exec `{KVStore St} (s : St) (op : kv_op) : kv_result * St :=
  match op with
  | OGet k => let '(r, s) := kv_get s k in (RValue r, s)
  | OPut k v => let '(r, s) := kv_put s k v in (RBool r, s)
  | ODel k => let '(r, s) := kv_del s k in (RBool r, s)
  end.

Class KVStoreLaws (St : Type) `{KVStore St} : Prop :=
  kv_step_law (s : St) (op : kv_op) :
    op_fits op -> kv_inv s ->
    kv_inv (kv_exec s op).2 /\
    cache_step (kv_contents s) op (kv_exec s op).1 (kv_contents (kv_exec s op).2).

(** A history: the calls with their answers. *)
Fixpoint kv_run `{KVStore St} (s : St) (ops : list kv_op) : list (kv_op * kv_result) * St :=
  match ops with
  | [] => ([], s)
  | op :: ops =>
      let '(r, s) := kv_exec s op in
      let '(h, s) := kv_run s ops in
      ((op, r) :: h, s)
  end.

(** The value the history last wrote to [k], starting from [o]. *)
Definition last_write_step (k : bytes) (o : option bytes) (c : kv_op * kv_result) : option bytes :=
  match c with
  | (OPut k' v, RBool true) => if decide (k' = k) then Some v else o
  | (OPut k' _, _) | (ODel k', _) => if decide (k' = k) then None else o
  | (OGet _, _) => o
  end.

Definition last_write (k : bytes) (o : option bytes) (h : list (kv_op * kv_result)) : option bytes :=
  foldl (last_write_step k) o h.

Lemma foldr_delete_sub (M : gmap bytes bytes) ks k v :
  foldr delete M ks !! k = Some v -> M !! k = Some v.
Proof.
  revert M. induction ks as [|k' ks IH]; intros M; simpl; [done|].
  intros [_ H]%lookup_delete_Some. by apply IH.
Qed.

Lemma foldr_delete_comm (M : gmap bytes bytes) ks k :
  foldr delete (delete k M) ks = delete k (foldr delete M ks).
Proof. induction ks as [|k' ks IH]; simpl; [done|]. by rewrite IH, delete_delete. Qed.

(** A step never leaves a value that was not there or just written. *)
Lemma cache_step_last M op r M' k v :
  cache_step M op r M' -> M' !! k = Some v -> last_write_step k (M !! k) (op, r) = Some v.
Proof.
  intros H Hv. inversion H; subst; simpl; try done.
  - apply lookup_insert_Some in Hv as [[-> ->]|[Hne Hv]]; [by rewrite decide_True|].
    rewrite decide_False by done. by apply foldr_delete_sub in Hv.
  - apply foldr_delete_sub in Hv. apply lookup_delete_Some in Hv as [Hne Hv]. by rewrite decide_False.
  - apply lookup_delete_Some in Hv as [Hne Hv]. by rewrite decide_False.
Qed.

Section Histories.
Context {St : Type} `{KVStoreLaws St}.

Lemma kv_run_inv (s : St) ops :
  Forall op_fits ops -> kv_inv s -> kv_inv (kv_run s ops).2.
Proof.
  revert s. induction ops as [|op ops IH]; intros s Hf Hinv; simpl; [done|].
  apply Forall_cons in Hf as [Hop Hf]. destruct (kv_step_law s op Hop Hinv) as [Hinv' _].
  destruct (kv_exec s op) as [r s1]. specialize (IH s1 Hf Hinv').
  by destruct (kv_run s1 ops).
Qed.

(** What a history leaves in the store is what it last wrote. *)
Lemma kv_run_contents (s : St) ops k v o :
  Forall op_fits ops -> kv_inv s ->
  (forall v, kv_contents s !! k = Some v -> o = Some v) ->
  kv_contents (kv_run s ops).2 !! k = Some v ->
  last_write k o (kv_run s ops).1 = Some v.
Proof.
  revert s o. induction ops as [|op ops IH]; intros s o Hf Hinv Ho Hv; simpl in *; [by apply Ho|].
  apply Forall_cons in Hf as [Hop Hf]. destruct (kv_step_law s op Hop Hinv) as [Hinv' Hstep].
  destruct (kv_exec s op) as [r s1]. specialize (IH s1 (last_write_step k o (op, r)) Hf Hinv').
  destruct (kv_run s1 ops) as [h s2]. simpl in *. apply IH; [|done].
  intros v' Hv'. pose proof (cache_step_last _ _ _ _ _ _ Hstep Hv') as Hl.
  destruct (kv_contents s !! k) as [w|] eqn:Ew; [by rewrite (Ho w)|].
  destruct op, r as [|[]]; simpl in *; repeat case_decide; done.
Qed.
End Histories.
