(* ===== verification/LocalStore.v ===== *)
(** * The local store ([src/src/storage/local_store.{h,cpp}])

    A key hashes to one of a fixed number of shards; a shard maps keys to entry
    addresses and tracks them in a clock ring, and all shards share one slab
    allocator and the arena memory.  A call runs under its shard's lock and the
    allocator takes its own lock per call, so the model runs each call to its
    end on the whole state. *)

From S2P Require Import Prelude KVStore NodeInfo SlabEntry SlabAllocator ClockEvictor.

Local Open Scope Z_scope.

Record Shard := mkShard {
  map : gmap bytes Z;
  evictor : ClockEvictor
}.

(** [heap] is the content of the arena. *)
Record LocalStore := mkLocalStore {
  allocator_ : SlabAllocator;
  shards_ : list Shard;
  heap : memory
}.

Definition kMaxEvictAttempts : nat := 8.

Definition LocalStore_new (arena : Arena) (num_shards : nat) : LocalStore :=
  mkLocalStore (SlabAllocator_new arena)
    (replicate num_shards (mkShard ∅ ClockEvictor_new)) ∅.

Definition shard_for (s : LocalStore) (key : bytes) : nat :=
  Z.to_nat (hash_key key mod Z.of_nat (length (shards_ s))).

(** [shards_[i]] and the state with shard [i], the allocator or the memory
    replaced. *)
Definition shard (s : LocalStore) (i : nat) : Shard :=
  default (mkShard ∅ ClockEvictor_new) (shards_ s !! i).
Definition set_shard (s : LocalStore) (i : nat) (sh : Shard) : LocalStore :=
  mkLocalStore (allocator_ s) (<[i := sh]> (shards_ s)) (heap s).
Definition set_allocator (s : LocalStore) (a : SlabAllocator) : LocalStore :=
  mkLocalStore a (shards_ s) (heap s).
Definition set_heap (s : LocalStore) (m : memory) : LocalStore :=
  mkLocalStore (allocator_ s) (shards_ s) m.

(** [unordered_map::emplace] keeps a value already there. *)
Definition emplace (m : gmap bytes Z) (k : bytes) (p : Z) : gmap bytes Z :=
  match m !! k with
  | Some _ => m
  | None => <[k := p]> m
  end.

Definition get (s : LocalStore) (key : bytes) : option bytes * LocalStore :=
  match map (shard s (shard_for s key)) !! key with
  | None => (None, s)
  | Some entry =>
      let s := set_heap s (set_access_bit (heap s) entry x01) in
      (Some (entry_value (heap s) entry), s)
  end.

(** [required_size(entry->key_size, entry->value_size)]. *)
Definition entry_size (m : memory) (entry : Z) : Z :=
  required_size (key_size m entry) (value_size m entry).

(** The shared tail of [del] and of [put] on an existing key: untrack, return
    the slot, erase. *)
Definition drop_entry (s : LocalStore) (i : nat) (key : bytes) (entry : Z) : LocalStore :=
  let sh := shard s i in
  let s' := set_allocator s (deallocate (allocator_ s) (Some entry) (entry_size (heap s) entry)) in
  set_shard s' i (mkShard (delete key (map sh)) (untrack (evictor sh) entry)).

(** After a failed allocation: evict a victim of shard [i], if there is one. *)
Definition evict_step (s : LocalStore) (i : nat) : bool * LocalStore :=
  let sh := shard s i in
  match evict_one (heap s) (evictor sh) with
  | (None, m, e) => (false, set_shard (set_heap s m) i (mkShard (map sh) e))
  | (Some victim, m, e) =>
      let s := set_heap s m in
      let victim_size := entry_size m victim in
      let sh := mkShard (delete (entry_key m victim) (map sh)) e in
      let s := set_shard s i sh in
      (true, set_allocator s (deallocate (allocator_ s) (Some victim) victim_size))
  end.

(** The allocation loop of [put], [fuel] attempts left. *)
Fixpoint put_loop (fuel : nat) (s : LocalStore) (i : nat) (alloc_size : Z)
  : option Z * LocalStore :=
  match fuel with
  | O => (None, s)
  | S fuel =>
      let '(ptr, a) := allocate (allocator_ s) alloc_size in
      let s := set_allocator s a in
      match ptr with
      | Some p => (Some p, s)
      | None =>
          match evict_step s i with
          | (false, s) => (None, s)
          | (true, s) => put_loop fuel s i alloc_size
          end
      end
  end.

(** The first half of [put]: an existing entry of the key goes. *)
Definition release_old (s : LocalStore) (i : nat) (key : bytes) : LocalStore :=
  match map (shard s i) !! key with
  | Some old => drop_entry s i key old
  | None => s
  end.

Definition put (s : LocalStore) (key value : bytes) : bool * LocalStore :=
  let alloc_size := required_size (Z.of_nat (length key)) (Z.of_nat (length value)) in
  let i := shard_for s key in
  let s := release_old s i key in
  match put_loop (S kMaxEvictAttempts) s i alloc_size with
  | (None, s) => (false, s)
  | (Some p, s) =>
      let s := set_heap s (init_at (heap s) p key value) in
      let sh := shard s i in
      (true, set_shard s i (mkShard (emplace (map sh) key p) (track (evictor sh) p)))
  end.

Definition del (s : LocalStore) (key : bytes) : bool * LocalStore :=
  let i := shard_for s key in
  match map (shard s i) !! key with
  | None => (false, s)
  | Some entry => (true, drop_entry s i key entry)
  end.

Definition store_size (s : LocalStore) : nat := foldl (fun n sh => n + size (map sh))%nat 0%nat (shards_ s).

Definition memory_used (s : LocalStore) : Z := pages_used (allocator_ s) * kPageSize.

(** ** What the store holds *)

Definition contents (s : LocalStore) : gmap bytes bytes :=
  foldr (fun sh acc => (entry_value (heap s) <$> map sh) ∪ acc) ∅ (shards_ s).

(** ** The invariant

    [live] is what the allocator has handed out and not got back: exactly one
    slot per key, of the class of the entry in it. *)

Record store_inv (s : LocalStore) (live : gmap Z nat) : Prop := {
  si_shards : shards_ s <> [];
  si_alloc : exists pages, alloc_inv (allocator_ s) pages live;
  si_clock i sh : shards_ s !! i = Some sh -> clock_wf (evictor sh);
  si_ring i sh p : shards_ s !! i = Some sh ->
    p ∈ ring_ (evictor sh) <-> exists k, map sh !! k = Some p;
  si_shard i sh k p : shards_ s !! i = Some sh -> map sh !! k = Some p -> shard_for s k = i;
  si_entry i sh k p : shards_ s !! i = Some sh -> map sh !! k = Some p ->
    exists v bit, entry_at (heap s) p k v bit /\ entry_extent k v <= kMaxSlotSize /\
      live !! p = Some (class_for_size (entry_extent k v));
  si_live p c : live !! p = Some c ->
    exists i sh k, shards_ s !! i = Some sh /\ map sh !! k = Some p
}.

Lemma shard_for_lt s key : shards_ s <> [] -> (shard_for s key < length (shards_ s))%nat.
Proof.
  intros H. unfold shard_for. destruct (shards_ s) as [|x l]; [done|]. simpl length.
  pose proof (Z.mod_pos_bound (hash_key key) (Z.of_nat (S (length l)))). lia.
Qed.

Lemma shard_for_set s i sh key : shard_for (set_shard s i sh) key = shard_for s key.
Proof. unfold shard_for. simpl. by rewrite length_insert. Qed.

Lemma shard_lookup s i : (i < length (shards_ s))%nat -> shards_ s !! i = Some (shard s i).
Proof. intros H. unfold shard. by destruct (lookup_lt_is_Some_2 _ _ H) as [sh ->]. Qed.

Lemma lookup_set_shard s i sh j :
  (i < length (shards_ s))%nat ->
  shards_ (set_shard s i sh) !! j = if decide (i = j) then Some sh else shards_ s !! j.
Proof. intros Hi. simpl. rewrite list_lookup_insert. repeat case_decide; naive_solver lia. Qed.

Lemma contents_foldr (f : Z -> bytes) (shs : list Shard) (i : nat) k :
  (forall j sh, shs !! j = Some sh -> is_Some (map sh !! k) -> j = i) ->
  foldr (fun sh acc => (f <$> map sh) ∪ acc) ∅ shs !! k =
    sh ← shs !! i; f <$> map sh !! k.
Proof.
  revert i. induction shs as [|sh shs IH]; intros i H; simpl.
  { by rewrite lookup_empty. }
  destruct (map sh !! k) as [p|] eqn:Ep.
  - assert (0%nat = i) as <- by (apply (H 0%nat sh); [done|by rewrite Ep]).
    rewrite lookup_union, lookup_fmap, Ep. simpl. rewrite Ep. simpl. by rewrite union_Some_l.
  - rewrite lookup_union_r by (by rewrite lookup_fmap, Ep).
    destruct i as [|i]; simpl.
    + rewrite Ep. rewrite (IH (length shs)).
      * by rewrite lookup_ge_None_2.
      * intros j sh' Hj Hk. by specialize (H (S j) sh' Hj Hk).
    + apply IH. intros j sh' Hj Hk. specialize (H (S j) sh' Hj Hk). lia.
Qed.

(** The map reads as the key's shard does. *)
Lemma contents_lookup s live k :
  store_inv s live ->
  contents s !! k = entry_value (heap s) <$> map (shard s (shard_for s k)) !! k.
Proof.
  intros Hinv. unfold contents. rewrite (contents_foldr _ _ (shard_for s k)).
  - by rewrite shard_lookup by (apply shard_for_lt, (si_shards _ _ Hinv)).
  - intros j sh Hj [p Hp]. symmetry. by eapply (si_shard _ _ Hinv).
Qed.

(** Entries of the store: distinct ones have distinct, disjoint slots. *)
Definition stored (s : LocalStore) (k : bytes) (p : Z) : Prop :=
  exists i sh, shards_ s !! i = Some sh /\ map sh !! k = Some p.

Section Invariant.
Context (s : LocalStore) (live : gmap Z nat) (Hinv : store_inv s live).

Lemma stored_entry k p :
  stored s k p ->
  exists v bit, entry_at (heap s) p k v bit /\ entry_extent k v <= kMaxSlotSize /\
    live !! p = Some (class_for_size (entry_extent k v)).
Proof. intros (i & sh & Hi & Hk). by eapply (si_entry _ _ Hinv). Qed.

Lemma stored_shard k p : stored s k p <-> map (shard s (shard_for s k)) !! k = Some p.
Proof.
  pose proof (shard_lookup s _ (shard_for_lt s k (si_shards _ _ Hinv))) as Hs. split.
  - intros (i & sh & Hi & Hk). pose proof (si_shard _ _ Hinv _ _ _ _ Hi Hk). naive_solver.
  - intros Hk. eexists _, _. eauto.
Qed.

Lemma stored_key_inj k k' p : stored s k p -> stored s k' p -> k = k'.
Proof.
  intros (v & b & He & _)%stored_entry (v' & b' & He' & _)%stored_entry.
  rewrite <- (ea_key _ _ _ _ _ He). by apply ea_key in He'.
Qed.

Lemma stored_slot k v p :
  live !! p = Some (class_for_size (entry_extent k v)) -> entry_extent k v <= kMaxSlotSize ->
  entry_extent k v <= slot_size_for_class (class_for_size (entry_extent k v)).
Proof. intros _ H. by apply class_for_size_spec. Qed.

(** A write that leaves every stored entry in place, access bits aside, keeps
    the invariant and what the store holds. *)
Lemma inv_heap m' :
  (forall k p v bit, stored s k p -> entry_at (heap s) p k v bit ->
     exists bit', entry_at m' p k v bit') ->
  store_inv (set_heap s m') live /\ contents (set_heap s m') = contents s.
Proof.
  intros Hm. assert (store_inv (set_heap s m') live) as Hinv'.
  { pose proof Hinv as []. split; try done. simpl. intros i sh k p Hi Hk.
    assert (stored s k p) as Hst by (eexists _, _; eauto).
    destruct (stored_entry k p Hst) as (v & bit & He & Hx).
    destruct (Hm _ _ _ _ Hst He) as [bit' He']. eauto. }
  split; [done|]. apply map_eq. intros k.
  rewrite (contents_lookup _ _ _ Hinv), (contents_lookup _ _ _ Hinv').
  change (shard (set_heap s m') (shard_for (set_heap s m') k)) with (shard s (shard_for s k)).
  destruct (map (shard s (shard_for s k)) !! k) as [p|] eqn:Ep; [simpl|done].
  apply stored_shard in Ep. destruct (stored_entry k p Ep) as (v & bit & He & _).
  destruct (Hm _ _ _ _ Ep He) as [bit' He']. f_equal.
  rewrite (ea_value _ _ _ _ _ He). by apply ea_value in He'.
Qed.

Lemma stored_disjoint k p v q c :
  stored s k p -> live !! p = Some (class_for_size (entry_extent k v)) ->
  entry_extent k v <= kMaxSlotSize -> live !! q = Some c -> p <> q ->
  p + entry_extent k v <= q \/ q + slot_size_for_class c <= p.
Proof.
  intros Hst Hp Hx Hq Hne. destruct (si_alloc _ _ Hinv) as [pages Ha].
  pose proof (live_disjoint _ _ _ _ _ _ _ Ha Hp Hq Hne). pose proof (stored_slot _ _ _ Hp Hx). lia.
Qed.

Lemma inv_touch k q b :
  stored s k q ->
  store_inv (set_heap s (set_access_bit (heap s) q b)) live /\
  contents (set_heap s (set_access_bit (heap s) q b)) = contents s.
Proof.
  intros Hq. destruct (stored_entry k q Hq) as (vq & bq & Heq & Hxq & Hlq).
  apply inv_heap. intros k' p v bit Hst He.
  destruct (decide (p = q)) as [->|Hne]; [eauto using set_access_bit_entry|].
  exists bit. eapply entry_at_frame, He. intros a Ha. apply set_access_bit_frame.
  destruct (stored_entry k' p Hst) as (v' & b' & He' & Hx & Hl).
  assert (v' = v) as -> by (apply ea_value in He, He'; congruence).
  pose proof (stored_disjoint _ _ _ _ _ Hst Hl Hx Hlq Hne).
  pose proof (stored_slot _ _ _ Hlq Hxq). unfold entry_extent in *. lia.
Qed.
End Invariant.

Lemma inv_clear_bits s live ps :
  store_inv s live -> (forall p, p ∈ ps -> exists k, stored s k p) ->
  store_inv (set_heap s (clear_bits (heap s) ps)) live /\
  contents (set_heap s (clear_bits (heap s) ps)) = contents s.
Proof.
  revert s. induction ps as [|p ps IH]; intros s Hinv Hps; simpl.
  { by destruct s. }
  destruct (Hps p) as [k Hk]; [set_solver|].
  destruct (inv_touch s live Hinv k p x00 Hk) as [Hinv' <-].
  apply (IH (set_heap s (set_access_bit (heap s) p x00)) Hinv').
  intros q Hq. apply Hps. set_solver.
Qed.

(** ** Removing and adding one entry *)

Lemma shard_set s i sh j :
  (i < length (shards_ s))%nat -> shard (set_shard s i sh) j = if decide (i = j) then sh else shard s j.
Proof. intros Hi. unfold shard. rewrite lookup_set_shard by done. by case_decide. Qed.

Lemma entry_size_extent m p k v bit :
  entry_at m p k v bit -> entry_extent k v <= kMaxSlotSize -> entry_size m p = entry_extent k v.
Proof.
  intros He Hx. unfold entry_size, required_size, sizeof_SlabEntry.
  rewrite (ea_key_size _ _ _ _ _ He), (ea_value_size _ _ _ _ _ He).
  apply wrap_small. unfold entry_extent, in_width in *. change kMaxSlotSize with (2 ^ 20) in Hx. lia.
Qed.

Definition without (s : LocalStore) (k : bytes) (p : Z) (e : ClockEvictor) : LocalStore :=
  let i := shard_for s k in
  set_shard (set_allocator s (deallocate (allocator_ s) (Some p) (entry_size (heap s) p))) i
    (mkShard (delete k (map (shard s i))) e).

Section Remove.
Context (s : LocalStore) (live : gmap Z nat) (k : bytes) (p : Z) (e : ClockEvictor).
Context (Hinv : store_inv s live) (Hk : map (shard s (shard_for s k)) !! k = Some p).
Context (Hwf : clock_wf e) (Hperm : p :: ring_ e ≡ₚ ring_ (evictor (shard s (shard_for s k)))).

Lemma without_lookup j sh :
  shards_ (without s k p e) !! j = Some sh ->
  (shard_for s k = j /\ sh = mkShard (delete k (map (shard s j))) e) \/
  (shard_for s k <> j /\ shards_ s !! j = Some sh).
Proof.
  unfold without. rewrite lookup_set_shard by apply (shard_for_lt s), (si_shards _ _ Hinv).
  case_decide as Hj; [|by auto]. intros [= <-]. left. by rewrite Hj.
Qed.

Lemma without_stored k' q : stored (without s k p e) k' q <-> stored s k' q /\ k' <> k.
Proof.
  pose proof (shard_lookup s _ (shard_for_lt s k (si_shards _ _ Hinv))) as Hs. split.
  - intros (j & sh & [[<- ->]|[Hj Hsh]]%without_lookup & Hk'); simpl in Hk'.
    + apply lookup_delete_Some in Hk' as [? Hk']. split; [|done]. eexists _, _. eauto.
    + split; [by eexists _, _|]. intros ->. by destruct Hj, (si_shard _ _ Hinv j sh k q).
  - intros [(j & sh & Hj & Hk') Hne]. unfold stored, without.
    setoid_rewrite lookup_set_shard; [|by apply (shard_for_lt s), (si_shards _ _ Hinv)].
    destruct (decide (shard_for s k = j)) as [<-|Hj'].
    + eexists _, _. rewrite decide_True by done. split; [done|]. simpl.
      rewrite lookup_delete_ne by done. naive_solver.
    + exists j, sh. by rewrite decide_False by done.
Qed.

Lemma without_inv : store_inv (without s k p e) (delete p live).
Proof.
  assert (stored s k p) as Hst by (by apply (stored_shard _ _ Hinv)).
  destruct (stored_entry _ _ Hinv k p Hst) as (v & bit & He & Hx & Hl).
  pose proof (clock_NoDup _ (si_clock _ _ Hinv _ _
    (shard_lookup s _ (shard_for_lt s k (si_shards _ _ Hinv))))) as Hnd.
  rewrite <- Hperm, NoDup_cons in Hnd. destruct Hnd as [Hnp _].
  assert (forall k' q, stored (without s k p e) k' q -> q <> p) as Hqp.
  { intros k' q [Hq Hne]%without_stored ->. by destruct Hne, (stored_key_inj _ _ Hinv k' k p). }
  split.
  - unfold without. simpl. intros E%(f_equal length). rewrite length_insert in E.
    destruct (shards_ s) eqn:Es; [by apply (si_shards _ _ Hinv)|done].
  - destruct (si_alloc _ _ Hinv) as [pages Ha]. exists pages. simpl.
    erewrite entry_size_extent by done. by apply deallocate_inv.
  - intros j sh [[_ ->]|[_ Hj]]%without_lookup; [done|]. by eapply (si_clock _ _ Hinv).
  - intros j sh q Hsh. destruct (without_lookup _ _ Hsh) as [[<- ->]|[Hne Hj]];
      [|by eapply (si_ring _ _ Hinv)]. simpl.
    pose proof (si_ring _ _ Hinv _ _ q (shard_lookup s _ (shard_for_lt s k (si_shards _ _ Hinv)))) as Hr.
    rewrite <- Hperm, elem_of_cons in Hr. split.
    + intros Hq. destruct Hr as [[k' Hk'] _]; [by right|]. exists k'.
      rewrite lookup_delete_ne; [done|]. intros <-. naive_solver.
    + intros [k' Hk']. destruct Hr as [_ Hr]. apply lookup_delete_Some in Hk' as Hk''.
      destruct Hr as [->|]; [naive_solver| |done].
      destruct (Hqp k' p); [|done]. by eexists _, _.
  - intros j sh k' q Hsh Hk'. unfold without. rewrite shard_for_set.
    change (shard_for (set_allocator s _) k') with (shard_for s k').
    destruct (without_lookup _ _ Hsh) as [[<- ->]|[Hne Hj]]; [|by eapply (si_shard _ _ Hinv)].
    simpl in Hk'. apply lookup_delete_Some in Hk' as [_ Hk'].
    eapply (si_shard _ _ Hinv); [|done]. by apply shard_lookup, shard_for_lt, (si_shards _ _ Hinv).
  - intros j sh k' q Hsh Hk'. assert (stored (without s k p e) k' q) as Hq by (by eexists _, _).
    rewrite lookup_delete_ne by (by apply not_eq_sym, (Hqp k')).
    apply without_stored in Hq as [Hq _]. by apply (stored_entry _ _ Hinv).
  - intros q c [Hne Hq]%lookup_delete_Some. destruct (si_live _ _ Hinv _ _ Hq) as (j & sh & k' & Hsh & Hk').
    assert (stored (without s k p e) k' q) as (?&?&?&?); [|by eauto].
    apply without_stored. split; [by eexists _, _|]. intros ->. apply Hne.
    assert (stored s k q) as Hkq by (by eexists _, _).
    apply (stored_shard _ _ Hinv) in Hkq. congruence.
Qed.

Lemma without_contents : contents (without s k p e) = delete k (contents s).
Proof.
  pose proof without_inv as Hinv'. apply map_eq. intros k'. rewrite (contents_lookup _ _ _ Hinv').
  destruct (decide (k' = k)) as [->|Hne].
  - rewrite lookup_delete_eq. apply fmap_None.
    apply eq_None_not_Some. intros [q Hq].
    apply (stored_shard _ _ Hinv'), without_stored in Hq as [_ ?]. done.
  - rewrite lookup_delete_ne, (contents_lookup _ _ _ Hinv) by done.
    change (heap (without s k p e)) with (heap s). f_equal.
    apply option_eq. intros q. rewrite <- (stored_shard _ _ Hinv'), <- (stored_shard _ _ Hinv).
    rewrite without_stored. naive_solver.
Qed.
End Remove.

Definition with_entry (s : LocalStore) (a : SlabAllocator) (k v : bytes) (p : Z) : LocalStore :=
  let i := shard_for s k in
  let sh := shard s i in
  set_shard (set_heap (set_allocator s a) (init_at (heap s) p k v)) i
    (mkShard (emplace (map sh) k p) (track (evictor sh) p)).

Section Insert.
Context (s : LocalStore) (live : gmap Z nat) (a : SlabAllocator) (pages : list nat).
Context (k v : bytes) (p : Z).
Context (Hinv : store_inv s live) (Hk : map (shard s (shard_for s k)) !! k = None).
Context (Hx : entry_extent k v <= kMaxSlotSize) (Hp : live !! p = None).
Context (Ha : alloc_inv a pages (<[p := class_for_size (entry_extent k v)]> live)).

Lemma insert_frame : 
  store_inv (set_heap s (init_at (heap s) p k v)) live /\
  contents (set_heap s (init_at (heap s) p k v)) = contents s.
Proof.
  apply inv_heap; [done|]. intros k' q v' bit Hst He. exists bit.
  eapply entry_at_frame, He. intros x Hr. apply init_at_frame.
  destruct (stored_entry _ _ Hinv k' q Hst) as (v2 & b2 & He2 & Hx2 & Hl2).
  assert (v2 = v') as -> by (apply ea_value in He, He2; congruence).
  assert (p <> q) as Hne by (intros ->; congruence).
  assert (q + slot_size_for_class (class_for_size (entry_extent k' v')) <= p \/
          p + slot_size_for_class (class_for_size (entry_extent k v)) <= q) as Hd.
  { eapply live_disjoint; [exact Ha| | |done].
    - by rewrite lookup_insert_ne.
    - by rewrite lookup_insert_eq. }
  destruct (class_for_size_spec (entry_extent k v)) as [H1 _]. destruct (H1 Hx) as (_ & H2 & _).
  destruct (class_for_size_spec (entry_extent k' v')) as [H3 _]. destruct (H3 Hx2) as (_ & H4 & _). lia.
Qed.

Lemma with_lookup j sh :
  shards_ (with_entry s a k v p) !! j = Some sh ->
  (shard_for s k = j /\ sh = mkShard (<[k := p]> (map (shard s j))) (track (evictor (shard s j)) p)) \/
  (shard_for s k <> j /\ shards_ s !! j = Some sh).
Proof.
  unfold with_entry. rewrite lookup_set_shard by apply (shard_for_lt s), (si_shards _ _ Hinv).
  unfold emplace. rewrite Hk.
  case_decide as Hj; [|by auto]. intros [= <-]. left. by rewrite Hj.
Qed.

Lemma with_stored k' q :
  stored (with_entry s a k v p) k' q <-> (k' = k /\ q = p) \/ stored s k' q.
Proof.
  pose proof (shard_lookup s _ (shard_for_lt s k (si_shards _ _ Hinv))) as Hs. split.
  - intros (j & sh & [[<- ->]|[Hj Hsh]]%with_lookup & Hk'); simpl in Hk'.
    + apply lookup_insert_Some in Hk' as [[-> ->]|[? Hk']]; [by left|]. right. eexists _, _. eauto.
    + right. by eexists _, _.
  - intros H. unfold stored, with_entry.
    setoid_rewrite lookup_set_shard; [|by apply (shard_for_lt s), (si_shards _ _ Hinv)].
    unfold emplace. rewrite Hk. destruct H as [[-> ->]|(j & sh & Hj & Hk')].
    + eexists _, _. rewrite decide_True by done. split; [done|]. simpl. apply lookup_insert_eq.
    + destruct (decide (shard_for s k = j)) as [<-|Hj'].
      * eexists _, _. rewrite decide_True by done. split; [done|]. simpl.
        rewrite lookup_insert_ne by naive_solver. naive_solver.
      * exists j, sh. by rewrite decide_False by done.
Qed.

Lemma with_fresh j sh : shards_ s !! j = Some sh -> p ∉ ring_ (evictor sh).
Proof.
  intros Hj [k' Hk']%(si_ring _ _ Hinv _ _ _ Hj).
  destruct (si_entry _ _ Hinv _ _ _ _ Hj Hk') as (? & ? & _ & _ & ?). congruence.
Qed.

Lemma with_inv :
  store_inv (with_entry s a k v p) (<[p := class_for_size (entry_extent k v)]> live).
Proof.
  destruct insert_frame as [Hinv' _].
  pose proof (shard_lookup s _ (shard_for_lt s k (si_shards _ _ Hinv))) as Hs.
  assert (forall k', shard_for (with_entry s a k v p) k' = shard_for s k') as Hsf.
  { intros k'. unfold with_entry. by rewrite shard_for_set. }
  split.
  - unfold with_entry. simpl. intros E%(f_equal length). rewrite length_insert in E.
    destruct (shards_ s) eqn:Es; [by apply (si_shards _ _ Hinv)|done].
  - eauto.
  - intros j sh [[<- ->]|[_ Hj]]%with_lookup; [|by eapply (si_clock _ _ Hinv)]. simpl.
    apply track_wf; [by eapply (si_clock _ _ Hinv)|by eapply with_fresh].
  - intros j sh q [[<- ->]|[_ Hj]]%with_lookup; [|by eapply (si_ring _ _ Hinv)]. simpl.
    rewrite elem_of_app, list_elem_of_singleton, (si_ring _ _ Hinv _ _ _ Hs). split.
    + intros [[k' Hk']| ->]; [|exists k; apply lookup_insert_eq].
      exists k'. rewrite lookup_insert_ne; [done|]. intros <-. congruence.
    + intros [k' [[_ <-]|[_ Hk']]%lookup_insert_Some]; [by right|left; eauto].
  - intros j sh k' q Hsh Hk'. rewrite Hsf.
    destruct (with_lookup _ _ Hsh) as [[<- ->]|[_ Hj]]; [|by eapply (si_shard _ _ Hinv)].
    simpl in Hk'. apply lookup_insert_Some in Hk' as [[-> _]|[_ Hk']]; [done|]. by eapply (si_shard _ _ Hinv).
  - intros j sh k' q Hsh Hk'.
    assert (stored (with_entry s a k v p) k' q) as [[-> ->]|Hq]%with_stored by (by eexists _, _).
    + exists v, x00. rewrite lookup_insert_eq. split; [|done].
      apply init_at_entry; unfold entry_extent in Hx; change kMaxSlotSize with (2 ^ 20) in Hx; lia.
    + destruct (stored_entry _ _ Hinv' k' q Hq) as (v' & b' & He & Hx' & Hl).
      exists v', b'. split; [exact He|]. split; [done|]. rewrite lookup_insert_ne; [done|]. intros <-. congruence.
  - intros q c [[<- _]|[_ Hq]]%lookup_insert_Some.
    + assert (stored (with_entry s a k v p) k p) as (?&?&?&?); [|by eauto]. apply with_stored. by left.
    + destruct (si_live _ _ Hinv _ _ Hq) as (j & sh & k' & Hsh & Hk').
      assert (stored (with_entry s a k v p) k' q) as (?&?&?&?); [|by eauto].
      apply with_stored. right. by eexists _, _.
Qed.

Lemma with_contents : contents (with_entry s a k v p) = <[k := v]> (contents s).
Proof.
  destruct insert_frame as [Hinv' <-]. pose proof with_inv as Hinv2.
  apply map_eq. intros k'. rewrite (contents_lookup _ _ _ Hinv2).
  change (heap (with_entry s a k v p)) with (init_at (heap s) p k v).
  destruct (decide (k' = k)) as [->|Hne].
  - rewrite lookup_insert_eq.
    assert (map (shard (with_entry s a k v p) (shard_for (with_entry s a k v p) k)) !! k = Some p) as ->.
    { apply (stored_shard _ _ Hinv2), with_stored. by left. }
    simpl. f_equal. eapply ea_value, init_at_entry;
      unfold entry_extent in Hx; change kMaxSlotSize with (2 ^ 20) in Hx; lia.
  - rewrite lookup_insert_ne, (contents_lookup _ _ _ Hinv') by done. simpl. f_equal.
    apply option_eq. intros q. rewrite <- (stored_shard _ _ Hinv2), <- (stored_shard _ _ Hinv').
    rewrite with_stored. unfold stored. simpl. naive_solver.
Qed.
End Insert.

(** ** The operations *)

Lemma get_spec s live k :
  store_inv s live ->
  (get s k).1 = contents s !! k /\
  store_inv (get s k).2 live /\ contents (get s k).2 = contents s.
Proof.
  intros Hinv. rewrite (contents_lookup _ _ _ Hinv). unfold get.
  destruct (map (shard s (shard_for s k)) !! k) as [p|] eqn:Ep; [simpl|done].
  apply (stored_shard _ _ Hinv) in Ep. split; [|by eapply inv_touch].
  destruct (stored_entry _ _ Hinv _ _ Ep) as (v & bit & He & _).
  by rewrite (ea_value _ _ _ _ _ He), (ea_value _ _ _ _ _ (set_access_bit_entry _ _ _ _ _ x01 He)).
Qed.

Lemma drop_entry_spec s live k p :
  store_inv s live -> map (shard s (shard_for s k)) !! k = Some p ->
  let s' := drop_entry s (shard_for s k) k p in
  store_inv s' (delete p live) /\ contents s' = delete k (contents s) /\
  length (shards_ s') = length (shards_ s).
Proof.
  intros Hinv Hk s'.
  pose proof (shard_lookup s _ (shard_for_lt s k (si_shards _ _ Hinv))) as Hs.
  destruct (untrack_spec (evictor (shard s (shard_for s k))) p) as [Hwf Hperm].
  { by eapply (si_clock _ _ Hinv). }
  { apply (si_ring _ _ Hinv _ _ _ Hs). eauto. }
  split; [by apply without_inv|]. split; [by eapply without_contents|apply length_insert].
Qed.

Lemma del_spec s live k :
  store_inv s live ->
  (del s k).1 = bool_decide (is_Some (contents s !! k)) /\
  contents (del s k).2 = delete k (contents s) /\ exists live', store_inv (del s k).2 live'.
Proof.
  intros Hinv. rewrite (contents_lookup _ _ _ Hinv). unfold del.
  destruct (map (shard s (shard_for s k)) !! k) as [p|] eqn:Ep; simpl.
  - destruct (drop_entry_spec _ _ _ _ Hinv Ep) as (? & ? & _). eauto.
  - split; [done|]. split; [|by eauto]. rewrite delete_id; [done|].
    by rewrite (contents_lookup _ _ _ Hinv), Ep.
Qed.

Lemma set_shard_same s i : set_shard s i (shard s i) = s.
Proof.
  destruct s as [a shs m]. unfold set_shard, shard. simpl. f_equal.
  destruct (shs !! i) as [sh|] eqn:E; [by apply list_insert_id|].
  apply list_insert_ge. by apply lookup_ge_None.
Qed.

(** One eviction drops exactly one key of the shard, the one the second-chance
    policy names, and frees its slot. *)
Lemma evict_step_spec s live i :
  store_inv s live -> (i < length (shards_ s))%nat ->
  match evict_step s i with
  | (false, s') => s' = s /\ map (shard s i) = ∅
  | (true, s') =>
      exists k v p, shard_for s k = i /\ contents s !! k = Some v /\
        allocator_ s' = deallocate (allocator_ s) (Some p) (entry_extent k v) /\
        live !! p = Some (class_for_size (entry_extent k v)) /\
        store_inv s' (delete p live) /\ contents s' = delete k (contents s) /\
        length (shards_ s') = length (shards_ s)
  end.
Proof.
  intros Hinv Hi. pose proof (shard_lookup s i Hi) as Hs. unfold evict_step.
  pose proof (evict_one_spec (heap s) (evictor (shard s i)) (si_clock _ _ Hinv _ _ Hs)) as Hev.
  destruct (second_chance (heap s) (clock_order (evictor (shard s i)))) as [[p cleared]|] eqn:Esc.
  - destruct Hev as (e' & -> & Hwf & Hperm).
    assert (p ∈ ring_ (evictor (shard s i))) as [k Hk]%(si_ring _ _ Hinv _ _ _ Hs)
      by (rewrite <- Hperm; set_solver).
    destruct (inv_clear_bits s live cleared Hinv) as [Hinv1 Ec].
    { intros q Hq. assert (q ∈ ring_ (evictor (shard s i))) as [k' Hk']%(si_ring _ _ Hinv _ _ _ Hs).
      { rewrite <- clock_order_perm. eapply second_chance_cleared; eauto. }
      exists k'. by eexists _, _. }
    set (s1 := set_heap s (clear_bits (heap s) cleared)) in *.
    pose proof (si_shard _ _ Hinv _ _ _ _ Hs Hk) as <-.
    destruct (stored_entry _ _ Hinv1 k p) as (v & bit & He & Hx & Hl); [by eexists _, _|].
    change (clear_bits (heap s) cleared) with (heap s1).
    rewrite (ea_key _ _ _ _ _ He).
    exists k, v, p. split; [done|]. split.
    { rewrite <- Ec, (contents_lookup _ _ _ Hinv1).
      change (shard s1 (shard_for s1 k)) with (shard s (shard_for s k)). rewrite Hk. simpl.
      f_equal. exact (ea_value _ _ _ _ _ He). }
    split; [cbn [allocator_ set_allocator]; by erewrite entry_size_extent|]. split; [done|].
    rewrite <- Ec. split; [by apply (without_inv s1 live k p e')|].
    split; [by apply (without_contents s1 live k p e')|apply length_insert].
  - destruct Hev as [Hr ->]. split.
    + assert (mkShard (map (shard s i)) (evictor (shard s i)) = shard s i) as -> by (by destruct (shard s i)).
      assert (set_heap s (heap s) = s) as -> by (by destruct s). apply set_shard_same.
    + apply map_empty. intros k. apply eq_None_not_Some. intros [p Hp].
      assert (p ∈ ring_ (evictor (shard s i))) as Hin by (apply (si_ring _ _ Hinv _ _ _ Hs); eauto).
      rewrite Hr in Hin. set_solver.
Qed.

(** What the allocation loop leaves: the state [s1] after the evictions, and a
    free slot taken from it if the loop succeeds. *)
Record put_loop_result (fuel : nat) (s : LocalStore) (i : nat) (size : Z)
    (evicted : list bytes) (s1 : LocalStore) (live1 : gmap Z nat) : Prop := {
  pl_inv : store_inv s1 live1;
  pl_shards : length (shards_ s1) = length (shards_ s);
  pl_contents : contents s1 = foldr delete (contents s) evicted;
  pl_evicted : Forall (fun k => shard_for s k = i /\ is_Some (contents s !! k)) evicted;
  pl_nodup : NoDup evicted;
  pl_room : is_Some (allocate (allocator_ s) size).1 -> evicted = [];
  pl_loop :
    match put_loop fuel s i size with
    | (None, s') => s' = s1 /\ (length evicted <= fuel)%nat /\
        (length evicted = fuel \/ map (shard s1 i) = ∅)
    | (Some p, s') =>
        (length evicted < fuel)%nat /\ live1 !! p = None /\ (class_for_size size < kNumClasses)%nat /\
        exists a pages, s' = set_allocator s1 a /\ alloc_inv a pages (<[p := class_for_size size]> live1)
    end
}.

Lemma shard_for_length s s' k : length (shards_ s) = length (shards_ s') -> shard_for s k = shard_for s' k.
Proof. unfold shard_for. by intros ->. Qed.

Lemma put_loop_S fuel s i size :
  put_loop (S fuel) s i size =
    let '(ptr, a) := allocate (allocator_ s) size in
    match ptr with
    | Some p => (Some p, set_allocator s a)
    | None =>
        match evict_step (set_allocator s a) i with
        | (false, s) => (None, s)
        | (true, s) => put_loop fuel s i size
        end
    end.
Proof. done. Qed.

Lemma put_loop_spec fuel s live i size :
  store_inv s live -> (i < length (shards_ s))%nat -> (0 < fuel)%nat ->
  exists evicted s1 live1, put_loop_result fuel s i size evicted s1 live1.
Proof.
  revert s live. induction fuel as [|fuel IH]; intros s live Hinv Hi Hfuel; [lia|].
  destruct (si_alloc _ _ Hinv) as [pages Ha].
  pose proof (allocate_cases _ _ _ size Ha) as Hal. simpl in Hal.
  destruct (allocate (allocator_ s) size) as [[p|] a'] eqn:Ea.
  { exists [], s, live. split; [done..|constructor|done|]. simpl. rewrite Ea.
    destruct Hal as (Hc & Hp & _ & pages' & Ha'). split; [lia|]. by eauto 10. }
  destruct Hal as [-> _].
  assert (set_allocator s (allocator_ s) = s) as Eid by (by destruct s).
  pose proof (evict_step_spec s live i Hinv Hi) as Hev.
  destruct (evict_step s i) as [[] s'] eqn:Es.
  - destruct Hev as (k & v & p & Hk & Hv & _ & _ & Hinv' & Ec & El).
    destruct fuel as [|fuel].
    { exists [k], s', (delete p live). split; [done|done|by rewrite Ec| |apply NoDup_singleton|by rewrite Ea; intros []|].
      - constructor; [|done]. rewrite Hv. eauto.
      - simpl. rewrite Ea, Eid, Es. auto. }
    destruct (IH s' _ Hinv') as (evicted & s1 & live1 & [H1 H2 H3 H4 H5 _ H6]); [lia|lia|].
    exists (evicted ++ [k]), s1, live1. split; [done|congruence| | | |by rewrite Ea; intros []|].
    + by rewrite H3, Ec, foldr_app.
    + apply Forall_app. split; [|constructor; [rewrite Hv; eauto|done]].
      eapply Forall_impl; [exact H4|]. simpl. intros k' [<- Hk']. rewrite Ec in Hk'.
      apply lookup_delete_is_Some in Hk' as [_ Hk']. split; [by apply shard_for_length|done].
    + apply NoDup_app. split; [done|]. split; [|apply NoDup_singleton].
      intros k' Hk' ->%list_elem_of_singleton. rewrite Forall_forall in H4.
      destruct (H4 _ Hk') as [_ [x Hx]]. by rewrite Ec, lookup_delete_eq in Hx.
    + rewrite put_loop_S, Ea, Eid, Es.
      rewrite length_app. simpl length. destruct (put_loop (S fuel) s' i size) as [[q|] s2].
      * destruct H6 as [Hlen H6]. split; [lia|done].
      * destruct H6 as (-> & Hlen & [E|E]); auto with lia.
  - destruct Hev as [-> Hm]. exists [], s, live.
    split; [done..|constructor|by rewrite Ea; intros []|]. simpl. rewrite Ea, Eid, Es.
    split; [done|]. split; [lia|by right].
Qed.

Lemma release_old_spec s live k :
  store_inv s live ->
  let s0 := release_old s (shard_for s k) k in
  (exists live0, store_inv s0 live0) /\ contents s0 = delete k (contents s) /\
  length (shards_ s0) = length (shards_ s).
Proof.
  intros Hinv s0. subst s0. unfold release_old.
  destruct (map (shard s (shard_for s k)) !! k) as [old|] eqn:Eo.
  - destruct (drop_entry_spec _ _ _ _ Hinv Eo). eauto.
  - split; [by eauto|]. split; [|done]. rewrite delete_id; [done|].
    by rewrite (contents_lookup _ _ _ Hinv), Eo.
Qed.

Lemma required_size_extent k v :
  op_fits (OPut k v) ->
  required_size (Z.of_nat (length k)) (Z.of_nat (length v)) = entry_extent k v.
Proof.
  intros Hfit. unfold required_size, sizeof_SlabEntry. apply wrap_small.
  unfold entry_extent, in_width. unfold op_fits in Hfit. lia.
Qed.

(** [put], on both results: the keys it evicted are other keys of the same
    shard, at most eight before a success and nine before a failure, and none
    when a slot is to be had at once. *)
Record put_result (s : LocalStore) (k v : bytes) (evicted : list bytes) (live' : gmap Z nat) : Prop := {
  pr_inv : store_inv (put s k v).2 live';
  pr_key : k ∉ evicted;
  pr_nodup : NoDup evicted;
  pr_shard : Forall (fun k' => shard_for s k' = shard_for s k /\ is_Some (contents s !! k')) evicted;
  pr_room : is_Some (allocate (allocator_ (release_old s (shard_for s k) k)) (entry_extent k v)).1 ->
    (put s k v).1 = true /\ evicted = [];
  pr_put :
    match put s k v with
    | (true, s') =>
        entry_extent k v <= kMaxSlotSize /\ (length evicted <= kMaxEvictAttempts)%nat /\
        contents s' = <[k := v]> (foldr delete (contents s) evicted)
    | (false, s') =>
        (length evicted <= S kMaxEvictAttempts)%nat /\
        contents s' = foldr delete (delete k (contents s)) evicted /\
        (length evicted = S kMaxEvictAttempts \/
         forall k', shard_for s k' = shard_for s k -> contents s' !! k' = None)
    end
}.

Lemma put_eq s k v :
  op_fits (OPut k v) ->
  put s k v =
    match put_loop (S kMaxEvictAttempts) (release_old s (shard_for s k) k)
            (shard_for s k) (entry_extent k v) with
    | (None, s') => (false, s')
    | (Some p, s') =>
        (true, set_shard (set_heap s' (init_at (heap s') p k v)) (shard_for s k)
                 (mkShard (emplace (map (shard s' (shard_for s k))) k p)
                          (track (evictor (shard s' (shard_for s k))) p)))
    end.
Proof. intros Hfit. unfold put. by rewrite required_size_extent. Qed.

Lemma put_spec s live k v :
  store_inv s live -> op_fits (OPut k v) -> exists evicted live', put_result s k v evicted live'.
Proof.
  intros Hinv Hfit. pose proof (shard_for_lt s k (si_shards _ _ Hinv)) as Hlt.
  destruct (release_old_spec _ _ k Hinv) as ((live0 & Hinv0) & Ec0 & El0).
  set (s0 := release_old s (shard_for s k) k) in *.
  destruct (put_loop_spec (S kMaxEvictAttempts) s0 live0 (shard_for s k) (entry_extent k v) Hinv0)
    as (evicted & s1 & live1 & [H1 H2 H3 H4 Hnd Hroom H6]); [lia|lia|].
  assert (k ∉ evicted) as Hke.
  { intros Hin. rewrite Forall_forall in H4. destruct (H4 k Hin) as [_ [x Hx]].
    by rewrite Ec0, lookup_delete_eq in Hx. }
  assert (Forall (fun k' => shard_for s k' = shard_for s k /\ is_Some (contents s !! k')) evicted) as Hev.
  { eapply Forall_impl; [exact H4|]. simpl. intros k' [<- Hk']. split; [by apply shard_for_length|].
    rewrite Ec0 in Hk'. by apply lookup_delete_is_Some in Hk' as [_ Hk']. }
  assert (contents s1 = delete k (foldr delete (contents s) evicted)) as Ec1
    by (by rewrite H3, Ec0, foldr_delete_comm).
  pose proof (put_eq s k v Hfit) as Eput. fold s0 in Eput.
  exists evicted. destruct (put_loop _ s0 _ _) as [[p|] s'] eqn:Epl.
  - destruct H6 as (Hn & Hp & Hc & a & pages & -> & Ha).
    assert (entry_extent k v <= kMaxSlotSize) as Hx by (apply Z.nlt_ge; rewrite <- class_overflow; lia).
    assert (map (shard s1 (shard_for s1 k)) !! k = None) as Hk1.
    { apply fmap_None with (f := entry_value (heap s1)). rewrite <- (contents_lookup _ _ _ H1), Ec1.
      apply lookup_delete_eq. }
    assert (put s k v = (true, with_entry s1 a k v p)) as Eput'.
    { rewrite Eput. unfold with_entry. by rewrite (shard_for_length s1 s) by congruence. }
    clear Eput. exists (<[p := class_for_size (entry_extent k v)]> live1). split; rewrite ?Eput'; try done.
    + by eapply (with_inv s1 live1 a pages k v p).
    + auto.
    + split; [done|]. split; [lia|].
      etransitivity; [by eapply (with_contents s1 live1 a pages k v p)|]. by rewrite Ec1, insert_delete_eq.
  - destruct H6 as (-> & Hn & Hend). exists live1. split; rewrite ?Eput; try done.
    + intros Ha. specialize (Hroom Ha). exfalso. subst evicted. destruct Hend as [|Hend]; [done|].
      rewrite put_loop_S in Epl. by destruct (allocate _ _) as [[q|] a]; [|destruct Ha].
    + split; [done|]. split; [by rewrite H3, Ec0|]. destruct Hend as [|Hend]; [by left|right].
      intros k' Hk'. rewrite (contents_lookup _ _ _ H1), (shard_for_length s1 s) by congruence.
      by rewrite Hk', Hend, lookup_empty.
Qed.

(** ** The store is a cache *)

#[export] Instance LocalStore_KVStore : KVStore LocalStore := {
  kv_get := get;
  kv_put := put;
  kv_del := del;
  kv_contents := contents;
  kv_inv s := exists live, store_inv s live
}.

Lemma local_store_step s live op :
  store_inv s live -> op_fits op ->
  (exists live', store_inv (kv_exec s op).2 live') /\
  cache_step (contents s) op (kv_exec s op).1 (contents (kv_exec s op).2).
Proof.
  intros Hinv Hfit. destruct op as [k|k v|k]; simpl.
  - destruct (get_spec s live k Hinv) as (H1 & H2 & H3). destruct (get s k) as [r s']. simpl in *.
    split; [by eauto|]. rewrite H1, H3. constructor.
  - destruct (put_spec s live k v Hinv Hfit) as (evicted & live' & [H1 H2 _ H4 _ H5]).
    destruct (put s k v) as [[] s'] eqn:E; simpl in *; (split; [by eauto|]).
    + destruct H5 as (_ & _ & ->). apply cache_put; [done|]. by eapply Forall_impl; [done|]; intros ? [].
    + destruct H5 as (_ & -> & _). apply cache_put_full; [done|]. by eapply Forall_impl; [done|]; intros ? [].
  - destruct (del_spec s live k Hinv) as (H1 & H2 & H3). destruct (del s k) as [r s']. simpl in *.
    split; [done|]. rewrite H1, H2. constructor.
Qed.

#[export] Instance LocalStore_laws : KVStoreLaws LocalStore.
Proof. intros s op Hfit [live Hinv]. by eapply local_store_step. Qed.

Lemma store_inv_new arena n :
  0 <= capacity_ arena -> (0 < n)%nat -> store_inv (LocalStore_new arena n) ∅.
Proof.
  intros Hcap Hn. split; simpl.
  - by destruct n; [lia|].
  - exists []. by apply alloc_inv_new.
  - intros i sh [-> _]%lookup_replicate. apply clock_wf_new.
  - intros i sh p [-> _]%lookup_replicate. simpl. split; [set_solver|].
    intros [k Hk]. by rewrite lookup_empty in Hk.
  - intros i sh k p [-> _]%lookup_replicate. simpl. by rewrite lookup_empty.
  - intros i sh k p [-> _]%lookup_replicate. simpl. by rewrite lookup_empty.
  - intros p c. by rewrite lookup_empty.
Qed.

Lemma contents_new arena n : contents (LocalStore_new arena n) = ∅.
Proof.
  unfold contents. simpl. induction n as [|n IH]; simpl; [done|]. rewrite IH.
  by rewrite fmap_empty, map_empty_union.
Qed.

(** C1: every call refines the cache contract: it keeps the invariant that
    ties the shard maps, the clock rings, the bytes in the arena and the
    allocator together, and acts on what the store holds as one step of the
    abstract map that may drop keys only to make room for a [put]. *)
Theorem local_store_refines_cache s live op :
  store_inv s live -> op_fits op ->
  (exists live', store_inv (kv_exec s op).2 live') /\
  cache_step (contents s) op (kv_exec s op).1 (contents (kv_exec s op).2).
Proof. apply local_store_step. Qed.

Definition demo_store : LocalStore := LocalStore_new (mkArena 4096 (2 * kPageSize) false) 16.

Lemma demo_store_inv : store_inv demo_store ∅.
Proof. apply store_inv_new; [vm_compute; discriminate|lia]. Qed.

Lemma local_store_refines_cache_witness :
  exists live', store_inv (put demo_store (lit "key") (lit "value")).2 live' /\
    cache_step ∅ (OPut (lit "key") (lit "value"))
      (RBool (put demo_store (lit "key") (lit "value")).1)
      (contents (put demo_store (lit "key") (lit "value")).2).
Proof.
  assert (op_fits (OPut (lit "key") (lit "value"))) as Hfit by (vm_compute; reflexivity).
  destruct (local_store_refines_cache demo_store ∅ (OPut (lit "key") (lit "value")) demo_store_inv Hfit)
    as [[live' H1] H2].
  exists live'. cbn [kv_exec kv_put LocalStore_KVStore] in H1, H2.
  destruct (put demo_store (lit "key") (lit "value")) as [b s']. split; [exact H1|].
  rewrite <- (contents_new (mkArena 4096 (2 * kPageSize) false) 16). exact H2.
Defined.

(** over any history of calls on a new store, a [get] that answers with a
    value answers with the one the history last wrote to that key: no stale
    value survives an overwrite, a delete, an eviction or a failed [put], and
    no slot is ever reused under a live entry. *)
Theorem local_store_no_stale_read arena n ops k v :
  0 <= capacity_ arena -> (0 < n)%nat -> Forall op_fits ops ->
  let '(history, s) := kv_run (LocalStore_new arena n) ops in
  (get s k).1 = Some v -> last_write k None history = Some v.
Proof.
  intros Hcap Hn Hops.
  assert (kv_inv (LocalStore_new arena n)) as Hinv0 by (exists ∅; by apply store_inv_new).
  pose proof (kv_run_inv _ ops Hops Hinv0) as [live Hinv].
  pose proof (kv_run_contents _ ops k v None Hops Hinv0) as Hlast.
  destruct (kv_run (LocalStore_new arena n) ops) as [history s]. simpl in *.
  destruct (get_spec s live k Hinv) as [-> _]. apply Hlast.
  intros w. by rewrite contents_new, lookup_empty.
Qed.

Definition demo_ops : list kv_op :=
  [OPut (lit "a") (lit "1"); OPut (lit "b") (lit "2"); OPut (lit "a") (lit "3"); ODel (lit "b")].

Lemma local_store_no_stale_read_witness :
  last_write (lit "a") None (kv_run demo_store demo_ops).1 = Some (lit "3") /\
  (get (kv_run demo_store demo_ops).2 (lit "a")).1 = Some (lit "3").
Proof.
  assert (Forall op_fits demo_ops) as Hops by (repeat constructor).
  pose proof (local_store_no_stale_read (mkArena 4096 (2 * kPageSize) false) 16 demo_ops
    (lit "a") (lit "3") ltac:(vm_compute; discriminate) ltac:(lia) Hops) as H.
  fold demo_store in H.
  assert ((get (kv_run demo_store demo_ops).2 (lit "a")).1 = Some (lit "3")) as Hg
    by (vm_compute; reflexivity).
  split; [|exact Hg].
  destruct (kv_run demo_store demo_ops) as [history s]. exact (H Hg).
Defined.

(** a [put] that succeeds is read back; it touches keys of its own shard
    only, has evicted at most eight of them, and every other key still reads as
    before. *)
Theorem put_then_get s live k v s' :
  store_inv s live -> op_fits (OPut k v) -> put s k v = (true, s') ->
  (get s' k).1 = Some v /\
  exists evicted, NoDup evicted /\ (length evicted <= kMaxEvictAttempts)%nat /\
    Forall (fun k' => shard_for s k' = shard_for s k) evicted /\
    forall k', k' <> k -> (get s' k').1 = if decide (k' ∈ evicted) then None else (get s k').1.
Proof.
  intros Hinv Hfit E. destruct (put_spec s live k v Hinv Hfit) as (evicted & live' & [H1 H2 H3 H4 _ H5]).
  rewrite E in H1, H5. destruct H5 as (_ & Hlen & Ec). simpl in H1.
  assert (forall k', (get s' k').1 = contents s' !! k') as Hg by (intros; by eapply get_spec).
  split; [by rewrite Hg, Ec, lookup_insert_eq|].
  exists evicted. split; [done|]. split; [done|].
  split; [by eapply Forall_impl; [exact H4|]; intros ? []|].
  intros k' Hne. rewrite Hg, Ec, lookup_insert_ne by done.
  destruct (get_spec s live k' Hinv) as [-> _]. case_decide as Hk'.
  - by apply lookup_foldr_delete.
  - by apply lookup_foldr_delete_not_elem_of.
Qed.

Lemma put_then_get_witness :
  exists s', put demo_store (lit "key") (lit "value") = (true, s') /\ (get s' (lit "key")).1 = Some (lit "value").
Proof.
  assert (op_fits (OPut (lit "key") (lit "value"))) as Hfit by (vm_compute; reflexivity).
  exists (put demo_store (lit "key") (lit "value")).2.
  assert ((put demo_store (lit "key") (lit "value")).1 = true) as E by (vm_compute; reflexivity).
  assert (put demo_store (lit "key") (lit "value") = (true, (put demo_store (lit "key") (lit "value")).2)) as E2
    by (destruct (put demo_store (lit "key") (lit "value")); simpl in *; congruence).
  split; [exact E2|].
  exact (proj1 (put_then_get demo_store ∅ (lit "key") (lit "value") _ demo_store_inv Hfit E2)).
Defined.

(** a [put] of at most 1 MB succeeds and evicts nothing when its size class
    has a free slot, when a page of the arena is unassigned, or when it
    overwrites a value of the same class: overwriting in place never fails. *)
Theorem put_no_eviction s live k v :
  store_inv s live -> entry_extent k v <= kMaxSlotSize ->
  can_allocate (allocator_ s) (entry_extent k v) \/
  (exists w, contents s !! k = Some w /\
     class_for_size (entry_extent k w) = class_for_size (entry_extent k v)) ->
  (put s k v).1 = true /\ contents (put s k v).2 = <[k := v]> (contents s).
Proof.
  intros Hinv Hx Hroom.
  assert (op_fits (OPut k v)) as Hfit.
  { unfold op_fits. unfold entry_extent in Hx. change kMaxSlotSize with (2 ^ 20) in Hx. lia. }
  destruct (put_spec s live k v Hinv Hfit) as (evicted & live' & [_ _ _ _ Hr H5]).
  destruct Hr as [E ->]; 
    [|destruct (put s k v) as [[] s']; simpl in *; [by destruct H5 as (_ & _ & ->)|done]].
  destruct (release_old_spec _ _ k Hinv) as ((live0 & Hinv0) & _).
  destruct (si_alloc _ _ Hinv0) as [pages0 Ha0]. eapply can_allocate_some; [done|done|].
  unfold release_old in *. destruct (map (shard s (shard_for s k)) !! k) as [old|] eqn:Eo.
  - apply (stored_shard _ _ Hinv) in Eo as Hst.
    destruct (stored_entry _ _ Hinv k old Hst) as (w & bit & He & Hxw & Hl).
    destruct (si_alloc _ _ Hinv) as [pages Ha]. simpl. erewrite entry_size_extent by done.
    eapply can_allocate_deallocate; [done|done|]. destruct Hroom as [?|(w' & Hw & Ec)]; [by left|right].
    rewrite (contents_lookup _ _ _ Hinv), Eo in Hw. simpl in Hw.
    rewrite (ea_value _ _ _ _ _ He) in Hw. by simplify_eq.
  - destruct Hroom as [?|(w' & Hw & _)]; [done|].
    by rewrite (contents_lookup _ _ _ Hinv), Eo in Hw.
Qed.

Lemma put_no_eviction_witness :
  can_allocate (allocator_ demo_store) (entry_extent (lit "key") (lit "value")) /\
  contents (put demo_store (lit "key") (lit "value")).2 = {[lit "key" := lit "value"]}.
Proof.
  assert (can_allocate (allocator_ demo_store) (entry_extent (lit "key") (lit "value"))) as Hc
    by (right; vm_compute; reflexivity).
  split; [exact Hc|].
  destruct (put_no_eviction demo_store ∅ (lit "key") (lit "value") demo_store_inv
    ltac:(vm_compute; discriminate) (or_introl Hc)) as [_ ->].
  unfold demo_store. rewrite contents_new. reflexivity.
Defined.

(** a [put] of more than 1 MB can never succeed, yet it first drops the
    old value of its key and then evicts: afterwards nine other keys of the
    shard are gone, or the shard is empty. *)
Theorem put_oversize s live k v :
  store_inv s live -> op_fits (OPut k v) -> kMaxSlotSize < entry_extent k v ->
  (put s k v).1 = false /\ contents (put s k v).2 !! k = None /\
  exists evicted, NoDup evicted /\ k ∉ evicted /\
    Forall (fun k' => shard_for s k' = shard_for s k /\ is_Some (contents s !! k')) evicted /\
    contents (put s k v).2 = foldr delete (delete k (contents s)) evicted /\
    (length evicted = 9%nat \/
     forall k', shard_for s k' = shard_for s k -> contents (put s k v).2 !! k' = None).
Proof.
  intros Hinv Hfit Hx. destruct (put_spec s live k v Hinv Hfit) as (evicted & live' & [_ H2 H3 H4 _ H5]).
  destruct (put s k v) as [[] s']; simpl in *; [lia|]. destruct H5 as (_ & Ec & Hend).
  split; [done|]. split; [|by exists evicted].
  rewrite Ec, foldr_delete_comm. apply lookup_delete_eq.
Qed.

(** A store whose only shard holds two entries. *)
Definition demo_small : LocalStore :=
  (kv_run (LocalStore_new (mkArena 4096 kPageSize false) 1)
     [OPut (lit "a") (lit "1"); OPut (lit "b") (lit "2")]).2.

Lemma demo_small_inv : exists live, store_inv demo_small live.
Proof.
  change (kv_inv demo_small). apply kv_run_inv; [repeat constructor|].
  exists ∅. apply store_inv_new; [vm_compute; discriminate|lia].
Qed.

Lemma put_oversize_witness :
  (get demo_small (lit "a")).1 = Some (lit "1") /\
  contents (put demo_small (lit "b") (replicate (N.to_nat 1048576) x00)).2 !! lit "b" = None.
Proof.
  split; [vm_compute; reflexivity|].
  destruct demo_small_inv as [live Hinv].
  assert (Z.of_nat (length (replicate (N.to_nat 1048576) x00)) = 1048576) as El
    by (rewrite length_replicate; lia).
  assert (Z.of_nat (length (lit "b")) = 1) as Ek by (vm_compute; reflexivity).
  assert (op_fits (OPut (lit "b") (replicate (N.to_nat 1048576) x00))) as Hf
    by (unfold op_fits; rewrite El, Ek; reflexivity).
  assert (kMaxSlotSize < entry_extent (lit "b") (replicate (N.to_nat 1048576) x00)) as Hx
    by (unfold entry_extent; rewrite El, Ek; reflexivity).
  exact (proj1 (proj2 (put_oversize demo_small live _ _ Hinv Hf Hx))).
Defined.

(** ** Counting *)

Lemma contents_size_foldr (f : Z -> bytes) (shs : list Shard) :
  (forall i j sh sh' k, shs !! i = Some sh -> shs !! j = Some sh' ->
     is_Some (map sh !! k) -> is_Some (map sh' !! k) -> i = j) ->
  size (foldr (fun sh acc => (f <$> map sh) ∪ acc) ∅ shs) =
    sum_list_with (fun sh => size (map sh)) shs.
Proof.
  induction shs as [|sh shs IH]; intros H; simpl; [apply map_size_empty|].
  rewrite map_size_disj_union, map_size_fmap, IH; [done| |].
  - intros i j sh1 sh2 k H1 H2 Hk1 Hk2. by specialize (H (S i) (S j) sh1 sh2 k H1 H2 Hk1 Hk2); simplify_eq.
  - apply map_disjoint_spec. intros k x y [p [_ Hp]]%lookup_fmap_Some Hy.
    assert (exists j sh', shs !! j = Some sh' /\ is_Some (map sh' !! k)) as (j & sh' & Hj & Hk).
    { clear - Hy. revert Hy. induction shs as [|sh' shs IH]; simpl; [by rewrite lookup_empty|].
      intros [Hl|Hr]%lookup_union_Some_raw.
      - exists 0%nat, sh'. split; [done|]. rewrite lookup_fmap in Hl. by destruct (map sh' !! k).
      - destruct (IH (proj2 Hr)) as (j & sh'' & ? & ?). by exists (S j), sh''. }
    discriminate (H 0%nat (S j) sh sh' k eq_refl Hj (ex_intro _ p Hp) Hk).
Qed.

Lemma store_size_sum s : store_size s = sum_list_with (fun sh => size (map sh)) (shards_ s).
Proof.
  unfold store_size.
  assert (forall shs n, foldl (fun n sh => n + size (map sh))%nat n shs =
                        (n + sum_list_with (fun sh => size (map sh)) shs)%nat) as E.
  { induction shs as [|sh shs IH]; intros n; simpl; [lia|]. rewrite IH. lia. }
  apply E.
Qed.

(** The pointers of the stored entries, each with its size class. *)
Lemma live_size s live :
  store_inv s live -> size live = size (contents s).
Proof.
  intros Hinv.
  assert (forall k, contents s !! k = None <-> forall p, ~ stored s k p) as Hdom.
  { intros k. rewrite (contents_lookup _ _ _ Hinv), fmap_None, eq_None_not_Some.
    setoid_rewrite (stored_shard _ _ Hinv). unfold is_Some. naive_solver. }
  set (key_of := fun p => entry_key (heap s) p).
  assert (forall p k, stored s k p -> key_of p = k) as Hkey.
  { intros p k (v & bit & He & _)%(stored_entry _ _ Hinv). apply (ea_key _ _ _ _ _ He). }
  assert (dom (contents s) = set_map key_of (dom live)) as E.
  { apply set_eq. intros k. rewrite elem_of_map, elem_of_dom. split.
    - intros Hk. destruct (contents s !! k) as [v|] eqn:Ek; [|by destruct Hk].
      rewrite (contents_lookup _ _ _ Hinv) in Ek. apply fmap_Some in Ek as (p & Hp & _).
      apply (stored_shard _ _ Hinv) in Hp. exists p. split; [symmetry; by apply Hkey|].
      destruct (stored_entry _ _ Hinv _ _ Hp) as (w & b & _ & _ & Hl). apply elem_of_dom. eauto.
    - intros (p & -> & [c Hc]%elem_of_dom). destruct (si_live _ _ Hinv _ _ Hc) as (i & sh & k & Hi & Hk).
      assert (stored s k p) as Hst by (by eexists _, _). rewrite (Hkey _ _ Hst).
      apply not_eq_None_Some. rewrite Hdom. naive_solver. }
  rewrite <- (size_dom (contents s)), E, size_set_map_inj, size_dom; [done|].
  intros p q [cp Hp]%elem_of_dom [cq Hq]%elem_of_dom Epq.
  destruct (si_live _ _ Hinv _ _ Hp) as (i & sh & k & Hi & Hk).
  destruct (si_live _ _ Hinv _ _ Hq) as (i' & sh' & k' & Hi' & Hk').
  assert (stored s k p) as Hs1 by (by exists i, sh). assert (stored s k' q) as Hs2 by (by exists i', sh').
  rewrite (Hkey _ _ Hs1), (Hkey _ _ Hs2) in Epq. subst k'.
  apply (stored_shard _ _ Hinv) in Hs1, Hs2. congruence.
Qed.

(** [size] is the number of keys the store holds and equals the number of
    slots the allocator has in use: whatever history led here, no slot leaks.
    [memory_used] never exceeds the arena. *)
Theorem store_accounting s live :
  store_inv s live ->
  store_size s = size (contents s) /\ store_size s = size live /\
  0 <= memory_used s <= capacity_ (arena_ (allocator_ s)).
Proof.
  intros Hinv.
  assert (store_size s = size (contents s)) as Es.
  { rewrite store_size_sum. symmetry. apply contents_size_foldr.
    intros i j sh sh' k Hi Hj [p Hp] [q Hq].
    by rewrite <- (si_shard _ _ Hinv _ _ _ _ Hi Hp), <- (si_shard _ _ Hinv _ _ _ _ Hj Hq). }
  split; [done|]. split; [by rewrite Es, (live_size _ _ Hinv)|].
  destruct (si_alloc _ _ Hinv) as [pages Ha]. unfold memory_used, pages_used.
  pose proof (ai_total _ _ _ Ha) as Ht. rewrite (ai_next _ _ _ Ha) in *. unfold pages_total in Ht.
  pose proof (Z.mul_div_le (capacity_ (arena_ (allocator_ s))) kPageSize ltac:(by compute)).
  change kPageSize with 1048576 in *. lia.
Qed.

Lemma store_accounting_witness :
  store_size demo_small = 2%nat /\
  exists live, store_size demo_small = size live /\ store_inv demo_small live.
Proof.
  split; [vm_compute; reflexivity|]. destruct demo_small_inv as [live Hinv].
  exists live. split; [exact (proj1 (proj2 (store_accounting demo_small live Hinv)))|exact Hinv].
Defined.
