(* ===== verification/OrderedMap.v ===== *)
(** * The token map and the clockwise walk

    [std::map<uint32_t, V>] as the ring code uses it: tokens in increasing
    order, [lower_bound], and iteration that wraps from [end()] to [begin()].
    The server's ring ([ring_store.cpp]), the migration planner
    ([ring_migration.cpp]) and the client's ring ([topology_manager.cpp]) run
    the same code over it.  The reference notion is the clockwise distance on
    the circle of 2^32 positions. *)

From S2P Require Import Prelude.

Local Open Scope Z_scope.

Section Walk.
Context {V : Type} `{EqDecision V}.

(** The keys in iteration order. *)
Definition sorted_keys {A} (r : gmap Z A) : list Z := merge_sort Z.le (elements (dom r)).

(** The index of the first key that is not less than [h], [length ks] for
    [end()]. *)
Definition lower_bound (ks : list Z) (h : Z) : nat :=
  match list_find (fun t => h <= t) ks with
  | Some (i, _) => i
  | None => length ks
  end.

(** [it = lower_bound(h); if (it == end()) it = begin()]. *)
Definition seek (ks : list Z) (h : Z) : nat :=
  let it := lower_bound ks h in
  if decide (it = length ks) then 0%nat else it.

(** [++it; if (it == end()) it = begin()]. *)
Definition next (ks : list Z) (it : nat) : nat :=
  if decide (S it = length ks) then 0%nat else S it.

(** [it->second]. *)
Definition value_at (r : gmap Z V) (ks : list Z) (it : nat) : option V := t ← ks !! it; r !! t.

(** The owner of a position, [None] on an empty ring. *)
Definition owner (r : gmap Z V) (h : Z) : option V :=
  let ks := sorted_keys r in value_at r ks (seek ks h).

(** The do-while walk that collects distinct values until it has [n] of them
    or is back at [start]; [fuel] bounds the iterations. *)
Fixpoint walk (fuel : nat) (r : gmap Z V) (ks : list Z) (start it n : nat)
    (seen result : list V) : list V :=
  match fuel with
  | O => result
  | S fuel =>
      match value_at r ks it with
      | None => result
      | Some v =>
          let continue seen result :=
            let it := next ks it in
            if decide (it = start) then result else walk fuel r ks start it n seen result in
          if decide (v ∈ seen) then continue seen result
          else
            let result := result ++ [v] in
            if decide (length result = n) then result
            else continue (v :: seen) result
      end
  end.

Definition collect (r : gmap Z V) (h : Z) (n : nat) : list V :=
  let ks := sorted_keys r in
  walk (length ks) r ks (seek ks h) (seek ks h) n [] [].

(** ** The clockwise distance *)

Definition dist (h t : Z) : Z := (t - h) mod 2 ^ 32.

(** [t] is the first of [P] at or clockwise after [h]. *)
Definition nearest (P : Z -> Prop) (h t : Z) : Prop :=
  P t /\ forall t', P t' -> dist h t <= dist h t'.

Lemma dist_eq h t :
  in_width 32 h -> in_width 32 t ->
  dist h t = if decide (h <= t) then t - h else t - h + 2 ^ 32.
Proof.
  unfold in_width, dist. intros Hh Ht. case_decide.
  - apply Z.mod_small. lia.
  - rewrite <- (Z_mod_plus_full _ 1). apply Z.mod_small. lia.
Qed.

Lemma dist_inj h t t' :
  in_width 32 h -> in_width 32 t -> in_width 32 t' -> dist h t = dist h t' -> t = t'.
Proof.
  intros Hh Ht Ht'. rewrite !dist_eq by done. unfold in_width in *. repeat case_decide; lia.
Qed.

(** The part of the circle up to [c] and the part from it add up. *)
Lemma dist_split h c t :
  in_width 32 h -> in_width 32 c -> in_width 32 t ->
  dist h c <= dist h t -> dist h t = dist h c + dist c t.
Proof.
  intros Hh Hc Ht. rewrite !dist_eq by done. unfold in_width in *. repeat case_decide; lia.
Qed.

Lemma nearest_unique (P : Z -> Prop) h t t' :
  (forall t, P t -> in_width 32 t) -> in_width 32 h ->
  nearest P h t -> nearest P h t' -> t = t'.
Proof.
  intros Hw Hh [Ht H1] [Ht' H2]. apply (dist_inj h); [done|by apply Hw..|].
  pose proof (H1 t' Ht'). pose proof (H2 t Ht). lia.
Qed.

(** The first of [P] after [h] is the first of [P] after any earlier stop. *)
Lemma nearest_through (P Q : Z -> Prop) h c t :
  (forall t, P t -> in_width 32 t) -> (forall t, Q t -> P t) -> in_width 32 h ->
  nearest P h c -> nearest Q h t <-> nearest Q c t.
Proof.
  intros Hw HQ Hh [Hc Hmin]. split.
  - intros [Ht Hm]. split; [done|]. intros t' Ht'. specialize (Hm t' Ht').
    rewrite (dist_split h c t), (dist_split h c t') in Hm; auto. lia.
  - intros [Ht Hm]. split; [done|]. intros t' Ht'. specialize (Hm t' Ht').
    rewrite (dist_split h c t), (dist_split h c t'); auto. lia.
Qed.

(** ** The seek finds the nearest key *)

Lemma sorted_keys_sorted {A} (r : gmap Z A) : StronglySorted Z.lt (sorted_keys r).
Proof.
  assert (StronglySorted Z.le (sorted_keys r)) as Hs.
  { apply (StronglySorted_merge_sort Z.le). }
  assert (NoDup (sorted_keys r)) as Hn.
  { unfold sorted_keys. rewrite merge_sort_Permutation. apply NoDup_elements. }
  induction Hs as [|t l Hs IH Hall]; [constructor|].
  apply NoDup_cons in Hn as [Hn1 Hn2]. constructor; [by apply IH|].
  rewrite Forall_forall in Hall |- *. intros x Hx. specialize (Hall x Hx).
  assert (t <> x) by (by intros ->). lia.
Qed.

Lemma elem_of_sorted_keys {A} (r : gmap Z A) t : t ∈ sorted_keys r <-> is_Some (r !! t).
Proof. unfold sorted_keys. by rewrite merge_sort_Permutation, elem_of_elements, elem_of_dom. Qed.

Lemma sorted_keys_nil {A} (r : gmap Z A) : sorted_keys r = [] <-> r = ∅.
Proof.
  split; [|by intros ->]. intros E. apply map_empty. intros t.
  apply eq_None_not_Some. rewrite <- elem_of_sorted_keys, E. set_solver.
Qed.

Lemma strongly_sorted_lookup (ks : list Z) i j a b :
  StronglySorted Z.lt ks -> ks !! i = Some a -> ks !! j = Some b -> (i < j)%nat -> a < b.
Proof.
  intros Hs. revert i j. induction Hs as [|t l Hs IH Hall]; intros i j Hi Hj Hij; [done|].
  destruct j as [|j]; [lia|]. simpl in Hj. destruct i as [|i]; simpl in Hi.
  - simplify_eq. rewrite Forall_forall in Hall. apply Hall. by eapply list_elem_of_lookup_2.
  - by apply (IH i j); [..|lia].
Qed.

Lemma seek_nearest ks h :
  StronglySorted Z.lt ks -> Forall (in_width 32) ks -> in_width 32 h -> ks <> [] ->
  exists t, ks !! seek ks h = Some t /\ nearest (fun t => t ∈ ks) h t.
Proof.
  intros Hs Hw Hh Hne. rewrite Forall_forall in Hw. unfold seek, lower_bound.
  destruct (list_find (fun t => h <= t) ks) as [[i t]|] eqn:E.
  - apply list_find_Some in E as (Hi & Ht & Hb). pose proof (lookup_lt_Some _ _ _ Hi).
    rewrite decide_False by lia. exists t. split; [done|].
    assert (t ∈ ks) as Hin by (by eapply list_elem_of_lookup_2).
    split; [done|]. intros t' Ht'. pose proof (Hw _ Ht'). pose proof (Hw _ Hin).
    rewrite !dist_eq by done. unfold in_width in *. rewrite decide_True by done.
    case_decide; [|lia].
    apply list_elem_of_lookup in Ht' as [j Hj]. destruct (decide (j < i)%nat) as [Hlt|].
    + by destruct (Hb j t' Hj Hlt).
    + destruct (decide (i = j)) as [->|]; [naive_solver lia|].
      pose proof (strongly_sorted_lookup ks i j t t' Hs Hi Hj). lia.
  - apply list_find_None in E. rewrite Forall_forall in E. rewrite decide_True by done.
    destruct ks as [|t ks]; [done|]. exists t. split; [done|]. split; [set_solver|].
    intros t' Ht'. pose proof (E _ Ht') as Hlt. pose proof (Hw _ Ht').
    assert (in_width 32 t) by (apply Hw; set_solver).
    assert (~ h <= t) by (apply E; set_solver).
    rewrite !dist_eq by done. rewrite !decide_False by done.
    apply elem_of_cons in Ht' as [->|Ht']; [lia|].
    apply StronglySorted_inv in Hs as [_ Hall]. rewrite Forall_forall in Hall.
    specialize (Hall _ Ht'). lia.
Qed.

(** ** The owner *)

Definition ring_wf {A} (r : gmap Z A) : Prop := forall t, is_Some (r !! t) -> in_width 32 t.

Lemma ring_wf_keys {A} (r : gmap Z A) : ring_wf r -> Forall (in_width 32) (sorted_keys r).
Proof. intros H. apply Forall_forall. intros t Ht%elem_of_sorted_keys. by apply H. Qed.

Lemma owner_nearest (r : gmap Z V) h v :
  ring_wf r -> in_width 32 h ->
  owner r h = Some v <-> exists t, r !! t = Some v /\ nearest (fun t => is_Some (r !! t)) h t.
Proof.
  intros Hwf Hh. destruct (decide (sorted_keys r = [])) as [E|E].
  { unfold owner, value_at. rewrite E. apply sorted_keys_nil in E as ->. simpl.
    split; [done|]. intros (t & Ht & _). by rewrite lookup_empty in Ht. }
  destruct (seek_nearest (sorted_keys r) h (sorted_keys_sorted r) (ring_wf_keys r Hwf) Hh E)
    as (t & Ht & [Hin Hmin]).
  assert (nearest (fun t => is_Some (r !! t)) h t) as Hn.
  { split; [by apply elem_of_sorted_keys|]. intros t' Ht'. apply Hmin. by apply elem_of_sorted_keys. }
  unfold owner, value_at. rewrite Ht. simpl. split; [by eauto|].
  intros (t' & Ht' & Hn'). by rewrite (nearest_unique _ h t t' Hwf Hh Hn Hn').
Qed.

Lemma owner_some (r : gmap Z V) h :
  ring_wf r -> in_width 32 h -> r <> ∅ ->
  exists t v, owner r h = Some v /\ r !! t = Some v /\ nearest (fun t => is_Some (r !! t)) h t.
Proof.
  intros Hwf Hh Hne.
  destruct (seek_nearest (sorted_keys r) h (sorted_keys_sorted r) (ring_wf_keys r Hwf) Hh)
    as (t & Ht & [Hin Hmin]); [by rewrite sorted_keys_nil|].
  apply elem_of_sorted_keys in Hin as [v Hv]. exists t, v.
  unfold owner, value_at. rewrite Ht. split; [done|]. split; [done|].
  split; [by eauto|]. intros t' Ht'. apply Hmin. by apply elem_of_sorted_keys.
Qed.

(** ** The walk

    The reference: the values of all tokens clockwise from [h], the first
    occurrence of each, at most [n] of them. *)

Fixpoint distinct_from (seen l : list V) : list V :=
  match l with
  | [] => []
  | v :: l => if decide (v ∈ seen) then distinct_from seen l else v :: distinct_from (v :: seen) l
  end.

Definition clockwise (r : gmap Z V) (h : Z) : list V :=
  let ks := sorted_keys r in
  omap (fun t => r !! t) (drop (seek ks h) ks ++ take (seek ks h) ks).

(** At most [n] in all when [len] are there already; [n = 0] never stops the
    walk. *)
Definition limit (n len : nat) (l : list V) : list V :=
  if decide (n = 0%nat) then l else take (n - len) l.

Lemma next_pos (ks : list Z) start d :
  (start < length ks)%nat -> (d < length ks)%nat ->
  let pos d := if decide (start + d < length ks)%nat then (start + d)%nat else (start + d - length ks)%nat in
  next ks (pos d) = (if decide (S d = length ks) then start else pos (S d)) /\
  (drop start ks ++ take start ks) !! d = ks !! pos d.
Proof.
  intros Hs Hd pos. split.
  - unfold next, pos. repeat case_decide; lia.
  - unfold pos. case_decide.
    + rewrite lookup_app_l by (rewrite length_drop; lia). by rewrite lookup_drop.
    + rewrite lookup_app_r by (rewrite length_drop; lia). rewrite length_drop.
      rewrite lookup_take_lt by lia. f_equal. lia.
Qed.

Lemma walk_spec (r : gmap Z V) start n fuel d seen result :
  let ks := sorted_keys r in
  let ring := drop start ks ++ take start ks in
  let pos d := if decide (start + d < length ks)%nat then (start + d)%nat else (start + d - length ks)%nat in
  (start < length ks)%nat -> (fuel + d = length ks)%nat -> (0 < fuel)%nat ->
  n = 0%nat \/ (length result < n)%nat ->
  walk fuel r ks start (pos d) n seen result =
    result ++ limit n (length result) (distinct_from seen (omap (fun t => r !! t) (drop d ring))).
Proof.
  intros ks ring pos Hs. revert d seen result.
  induction fuel as [|fuel IH]; intros d seen result Hd Hf Hn; [lia|].
  destruct (next_pos ks start d Hs) as [Hnext Hpos]; [lia|]. 
  change (next ks (pos d) = if decide (S d = length ks) then start else pos (S d)) in Hnext.
  change (ring !! d = ks !! pos d) in Hpos.
  destruct (lookup_lt_is_Some_2 ring d) as [t Ht].
  { subst ring. rewrite length_app, length_drop, length_take. lia. }
  rewrite (drop_S ring t d Ht). rewrite Ht in Hpos.
  assert (t ∈ ks) as [v Hv]%elem_of_sorted_keys by (by eapply list_elem_of_lookup_2).
  simpl walk. unfold value_at. rewrite <- Hpos. simpl. rewrite Hv. simpl.
  assert (forall seen' result', n = 0%nat \/ (length result' < n)%nat ->
    (if decide (next ks (pos d) = start) then result'
     else walk fuel r ks start (next ks (pos d)) n seen' result') =
    result' ++ limit n (length result') (distinct_from seen' (omap (fun t => r !! t) (drop (S d) ring)))) as Hc.
  { intros seen' result' Hn'. rewrite Hnext. destruct (decide (S d = length ks)) as [E|E].
    - rewrite decide_True by done. rewrite drop_ge.
      + unfold limit. simpl. rewrite take_nil. case_decide; by rewrite app_nil_r.
      + subst ring. rewrite length_app, length_drop, length_take. lia.
    - rewrite decide_False; [|unfold pos; case_decide; lia]. apply IH; [lia|lia|done]. }
  destruct (decide (v ∈ seen)) as [Hin|Hin]; [by apply Hc|].
  destruct (decide (length (result ++ [v]) = n)) as [E|E]; rewrite length_app in E; simpl in E.
  - unfold limit. rewrite decide_False by lia. replace (n - length result)%nat with 1%nat by lia. done.
  - rewrite Hc by (rewrite length_app; simpl; lia). rewrite <- app_assoc. f_equal. simpl.
    unfold limit. rewrite length_app. simpl. destruct (decide (n = 0%nat)); [done|].
    replace (n - length result)%nat with (S (n - (length result + 1))) by lia. done.
Qed.

Lemma seek_lt (ks : list Z) h : ks <> [] -> (seek ks h < length ks)%nat.
Proof.
  intros Hne. unfold seek, lower_bound. destruct (list_find _ ks) as [[i t]|] eqn:E.
  - apply list_find_Some in E as (Hi & _). apply lookup_lt_Some in Hi. case_decide; lia.
  - rewrite decide_True by done. destruct ks; [done|simpl; lia].
Qed.

Lemma collect_spec (r : gmap Z V) h n :
  collect r h n = limit n 0 (distinct_from [] (clockwise r h)).
Proof.
  unfold collect, clockwise. destruct (decide (sorted_keys r = [])) as [->|Hne].
  { unfold limit. simpl. rewrite take_nil. by case_decide. }
  pose proof (seek_lt _ h Hne) as Hlt.
  pose proof (walk_spec r (seek (sorted_keys r) h) n (length (sorted_keys r)) 0 [] []) as Hw.
  cbv beta zeta in Hw. rewrite decide_True, !Nat.add_0_r in Hw by lia.
  rewrite Hw; [|done|lia|lia|simpl; lia]. done.
Qed.

Lemma owner_token (r : gmap Z V) h v : owner r h = Some v -> exists t, r !! t = Some v.
Proof. unfold owner, value_at. intros (t & _ & Ht)%bind_Some. eauto. Qed.

Lemma owner_is_some (r : gmap Z V) h : r <> ∅ -> is_Some (owner r h).
Proof.
  intros Hne. unfold owner, value_at. rewrite <- sorted_keys_nil in Hne.
  destruct (lookup_lt_is_Some_2 _ _ (seek_lt _ h Hne)) as [t Ht]. rewrite Ht. simpl.
  apply elem_of_sorted_keys. by eapply list_elem_of_lookup_2.
Qed.

Lemma elem_of_distinct seen l v : v ∈ distinct_from seen l <-> v ∈ l /\ v ∉ seen.
Proof.
  revert seen. induction l as [|w l IH]; intros seen; simpl; [set_solver|].
  case_decide; rewrite ?elem_of_cons, IH; destruct (decide (v = w)); set_solver.
Qed.

Lemma NoDup_distinct seen l : NoDup (distinct_from seen l).
Proof.
  revert seen. induction l as [|w l IH]; intros seen; simpl; [constructor|].
  case_decide; [done|]. constructor; [|done]. rewrite elem_of_distinct. set_solver.
Qed.

Lemma elem_of_clockwise (r : gmap Z V) h v : v ∈ clockwise r h <-> exists t, r !! t = Some v.
Proof.
  unfold clockwise. rewrite list_elem_of_omap. split; [naive_solver|].
  intros [t Ht]. exists t. split; [|done].
  assert (t ∈ sorted_keys r) as Hin by (apply elem_of_sorted_keys; eauto).
  rewrite <- (take_drop (seek (sorted_keys r) h) (sorted_keys r)) in Hin at 1.
  apply elem_of_app in Hin. apply elem_of_app. tauto.
Qed.

Lemma clockwise_head (r : gmap Z V) h : head (clockwise r h) = owner r h.
Proof.
  unfold clockwise, owner, value_at. set (ks := sorted_keys r).
  destruct (decide (ks = [])) as [->|Hne]; [done|].
  destruct (lookup_lt_is_Some_2 ks (seek ks h) (seek_lt ks h Hne)) as [t Ht].
  rewrite Ht, (drop_S ks t _ Ht). simpl.
  assert (t ∈ sorted_keys r) as [v Hv]%elem_of_sorted_keys by (by eapply list_elem_of_lookup_2).
  by rewrite Hv.
Qed.

(** Everything a caller of the walk relies on. *)
Lemma collect_nodes (r : gmap Z V) h n :
  NoDup (collect r h n) /\
  (forall v, v ∈ collect r h n -> exists t, r !! t = Some v) /\
  head (collect r h n) = owner r h /\
  (n <> 0%nat -> (length (collect r h n) <= n)%nat) /\
  ((length (collect r h n) < n)%nat \/ n = 0%nat -> forall t v, r !! t = Some v -> v ∈ collect r h n).
Proof.
  rewrite collect_spec. unfold limit.
  assert (head (distinct_from [] (clockwise r h)) = owner r h) as Hh.
  { rewrite <- clockwise_head. by destruct (clockwise r h). }
  assert (forall v, v ∈ distinct_from [] (clockwise r h) <-> exists t, r !! t = Some v) as Hd.
  { intros v. rewrite elem_of_distinct, elem_of_clockwise. set_solver. }
  pose proof (NoDup_distinct [] (clockwise r h)) as Hn. rewrite Nat.sub_0_r.
  case_decide as E; [subst; split_and!; try done; [naive_solver|intros; apply Hd; eauto]|].
  split; [by eapply sublist_NoDup, sublist_take|]. split.
  { intros v Hv. apply Hd. 
    rewrite <- (take_drop n (distinct_from _ _)). apply elem_of_app. by left. }
  split; [destruct n; [done|]; by rewrite <- Hh; destruct (distinct_from _ _)|].
  split; [intros _; rewrite length_take; lia|].
  intros Hlen t v Hv. rewrite length_take in Hlen. rewrite take_ge by lia. apply Hd. eauto.
Qed.
End Walk.

(** ** Renaming the values

    The walk only compares values, so an injective renaming commutes with it. *)

Section Rename.
Context {V W : Type} `{EqDecision V, EqDecision W} (f : V -> W).

Lemma sorted_keys_fmap (r : gmap Z V) : sorted_keys (f <$> r) = sorted_keys r.
Proof. unfold sorted_keys. by rewrite dom_fmap_L. Qed.

Lemma owner_fmap (r : gmap Z V) h : owner (f <$> r) h = f <$> owner r h.
Proof.
  unfold owner, value_at. rewrite sorted_keys_fmap. destruct (_ !! seek _ _) as [t|]; simpl; [|done].
  by rewrite lookup_fmap.
Qed.

Lemma clockwise_fmap (r : gmap Z V) h : clockwise (f <$> r) h = f <$> clockwise r h.
Proof.
  unfold clockwise. rewrite sorted_keys_fmap. induction (_ ++ _) as [|t ts IH]; [done|].
  cbn [omap list_omap]. rewrite lookup_fmap. destruct (r !! t); cbn [fmap option_fmap option_map]; [|exact IH].
  rewrite fmap_cons. f_equal. exact IH.
Qed.

Lemma distinct_from_fmap seen l :
  (forall v w, v ∈ seen ++ l -> w ∈ seen ++ l -> f v = f w -> v = w) ->
  distinct_from (f <$> seen) (f <$> l) = f <$> distinct_from seen l.
Proof.
  revert seen. induction l as [|v l IH]; intros seen Hinj; [done|].
  rewrite fmap_cons. cbn [distinct_from].
  assert (f v ∈ f <$> seen <-> v ∈ seen) as Hin.
  { rewrite list_elem_of_fmap. split; [|by eauto]. intros (w & E & Hw).
    rewrite (Hinj v w) by (done || set_solver). done. }
  destruct (decide (v ∈ seen)) as [H|H].
  - rewrite decide_True by tauto. apply IH. intros a b Ha Hb. apply Hinj; set_solver.
  - rewrite decide_False by tauto. rewrite fmap_cons. f_equal. apply (IH (v :: seen)).
    intros a b Ha Hb. apply Hinj; set_solver.
Qed.

Lemma collect_fmap (r : gmap Z V) h n :
  (forall t t' v w, r !! t = Some v -> r !! t' = Some w -> f v = f w -> v = w) ->
  collect (f <$> r) h n = f <$> collect r h n.
Proof.
  intros Hinj. rewrite !collect_spec, clockwise_fmap.
  change (@nil W) with (f <$> []). rewrite (distinct_from_fmap [] (clockwise r h)).
  - unfold limit. case_decide; [done|]. by rewrite fmap_take.
  - intros v w [t Hv]%elem_of_clockwise [t' Hw]%elem_of_clockwise. by eapply Hinj.
Qed.
End Rename.
