(* ===== verification/RingStore.v ===== *)
(** * The consistent-hash ring ([src/src/membership/ring_store.{h,cpp}])

    The state is the published snapshot: writers clone the map, change the
    clone and swap it in under the write lock, so a reader keeps the version it
    took. *)

From S2P Require Import Prelude NodeInfo OrderedMap.

Local Open Scope Z_scope.

Abbreviation Ring := (gmap Z NodeId).

Definition kDefaultVnodes : Z := 128.

Definition RingStore_new : Ring := ∅.

(** [add_node(node, tokens)]. *)
Definition add_node_tokens (r : Ring) (node : NodeId) (tokens : list Z) : Ring :=
  foldl (fun new_ring token => <[token := node]> new_ring) r tokens.

(** The tokens [hash_node_token(node, 0 .. num_vnodes - 1)]. *)
Definition vnode_tokens (node : NodeId) (num_vnodes : Z) : list Z :=
  (fun i => hash_node_token node i) <$> seqZ 0 num_vnodes.

(** [add_node(node, num_vnodes)]. *)
Definition add_node (r : Ring) (node : NodeId) (num_vnodes : Z) : Ring :=
  add_node_tokens r node (vnode_tokens node num_vnodes).

Definition remove_node (r : Ring) (node : NodeId) : Ring :=
  filter (fun pair => pair.2 <> node) r.

Definition get_node_for_key (r : Ring) (hash : Z) : option NodeId :=
  if decide (r = ∅) then None else owner r hash.

Definition get_n_nodes_for_key (r : Ring) (hash : Z) (n : nat) : list NodeId :=
  if decide (r = ∅) then [] else collect r hash n.

Definition ring_size (r : Ring) : nat := size r.

(** ** Lookups *)

Lemma get_node_owner r h : get_node_for_key r h = owner r h.
Proof. unfold get_node_for_key. case_decide; [by subst|done]. Qed.

Lemma get_n_nodes_collect r h n : get_n_nodes_for_key r h n = collect r h n.
Proof. unfold get_n_nodes_for_key. case_decide; [by subst|done]. Qed.

Lemma lookup_add_node_tokens r node tokens t :
  add_node_tokens r node tokens !! t = if decide (t ∈ tokens) then Some node else r !! t.
Proof.
  unfold add_node_tokens. revert r. induction tokens as [|x tokens IH]; intros r; simpl; [done|].
  rewrite IH. destruct (decide (x = t)) as [->|Hne].
  - rewrite lookup_insert_eq. repeat case_decide; set_solver.
  - rewrite lookup_insert_ne by done. repeat case_decide; set_solver.
Qed.

Lemma lookup_remove_node r node t v :
  remove_node r node !! t = Some v <-> r !! t = Some v /\ v <> node.
Proof. unfold remove_node. by rewrite map_lookup_filter_Some. Qed.

Lemma vnode_tokens_width node n : Forall (in_width 32) (vnode_tokens node n).
Proof.
  apply Forall_forall. intros t (i & -> & _)%list_elem_of_fmap. apply hash_node_token_width.
Qed.

(** Tokens stay 32-bit values under both updates. *)
Lemma ring_add_node_wf r node tokens :
  ring_wf r -> Forall (in_width 32) tokens -> ring_wf (add_node_tokens r node tokens).
Proof.
  intros Hwf Ht t. rewrite lookup_add_node_tokens. case_decide; [|apply Hwf].
  intros _. by eapply Forall_forall in Ht.
Qed.

Lemma remove_node_wf r node : ring_wf r -> ring_wf (remove_node r node).
Proof. intros Hwf t [v [Hv _]%lookup_remove_node]. apply Hwf. by rewrite Hv. Qed.

(** C18: a key belongs to the node whose token is the first at or clockwise
    after the key's hash on the circle of 2^32 positions. *)
Theorem get_node_for_key_nearest r h node :
  ring_wf r -> in_width 32 h ->
  get_node_for_key r h = Some node <->
  exists t, r !! t = Some node /\ forall t', is_Some (r !! t') -> dist h t <= dist h t'.
Proof.
  intros Hwf Hh. rewrite get_node_owner, owner_nearest by done. unfold nearest.
  split; intros (t & Ht & Hn); exists t; naive_solver.
Qed.

Definition node_a : NodeId := mkNodeId (lit "a") 7946.
Definition node_b : NodeId := mkNodeId (lit "b") 7946.
Definition demo_ring : Ring :=
  add_node_tokens (add_node_tokens RingStore_new node_a [10; 30]) node_b [20].

Lemma demo_ring_wf : ring_wf demo_ring.
Proof.
  repeat apply ring_add_node_wf; [by intros t []|..];
    repeat (constructor; [split; [discriminate|reflexivity]|]); constructor.
Qed.

Lemma get_node_for_key_nearest_witness :
  get_node_for_key demo_ring 31 = Some node_a /\
  exists t, demo_ring !! t = Some node_a /\ forall t', is_Some (demo_ring !! t') -> dist 31 t <= dist 31 t'.
Proof.
  assert (get_node_for_key demo_ring 31 = Some node_a) as E by (vm_compute; reflexivity).
  split; [exact E|].
  exact (proj1 (get_node_for_key_nearest demo_ring 31 node_a demo_ring_wf
    ltac:(split; [discriminate|reflexivity])) E).
Defined.

(** ** Updates move as few keys as possible *)

Lemma owner_add r node tokens h :
  ring_wf r -> Forall (in_width 32) tokens -> in_width 32 h ->
  owner (add_node_tokens r node tokens) h = Some node \/
  owner (add_node_tokens r node tokens) h = owner r h.
Proof.
  intros Hwf Ht Hh. pose proof (ring_add_node_wf r node tokens Hwf Ht) as Hwf'.
  destruct (decide (add_node_tokens r node tokens = ∅)) as [E|E].
  { right. rewrite E. replace r with (∅ : Ring); [done|]. symmetry. apply map_empty. intros t.
    pose proof (lookup_add_node_tokens r node tokens t) as Hl. rewrite E, lookup_empty in Hl.
    by case_decide. }
  destruct (owner_some _ h Hwf' Hh E) as (t & v & -> & Hv & [_ Hmin]).
  rewrite lookup_add_node_tokens in Hv. case_decide; [left; congruence|right].
  symmetry. apply owner_nearest; [done|done|]. exists t. split; [done|]. split; [by rewrite Hv|].
  intros t' Ht'. apply Hmin. rewrite lookup_add_node_tokens. case_decide; [done|done].
Qed.

Lemma owner_remove r node h :
  ring_wf r -> in_width 32 h ->
  owner (remove_node r node) h <> Some node /\
  (owner r h <> Some node -> owner (remove_node r node) h = owner r h).
Proof.
  intros Hwf Hh. pose proof (remove_node_wf r node Hwf) as Hwf'. split.
  - intros (t & [_ ?]%lookup_remove_node & _)%owner_nearest; done.
  - intros Hne. destruct (decide (r = ∅)) as [->|Hr]; [done|].
    destruct (owner_some r h Hwf Hh Hr) as (t & v & E & Hv & [_ Hmin]). rewrite E in *.
    apply owner_nearest; [done|done|]. exists t.
    assert (remove_node r node !! t = Some v) as Ht by (apply lookup_remove_node; split; congruence).
    split; [done|]. split; [by rewrite Ht|].
    intros t' [v' [Hv' _]%lookup_remove_node]. apply Hmin. by rewrite Hv'.
Qed.

(** C21: consistent hashing: adding a node moves keys only to that node,
    removing one moves only the keys it owned and leaves it none, and removing
    a node just added, none of whose tokens was taken, restores the ring. *)
Theorem ring_minimal_disruption r node num_vnodes h :
  ring_wf r -> in_width 32 h ->
  (get_node_for_key (add_node r node num_vnodes) h <> get_node_for_key r h ->
     get_node_for_key (add_node r node num_vnodes) h = Some node) /\
  (get_node_for_key (remove_node r node) h <> get_node_for_key r h ->
     get_node_for_key r h = Some node) /\
  get_node_for_key (remove_node r node) h <> Some node /\
  ((forall t, r !! t <> Some node) -> (forall t, t ∈ vnode_tokens node num_vnodes -> r !! t = None) ->
     remove_node (add_node r node num_vnodes) node = r).
Proof.
  intros Hwf Hh. rewrite !get_node_owner. unfold add_node. split_and!.
  - destruct (owner_add r node (vnode_tokens node num_vnodes) h Hwf (vnode_tokens_width _ _) Hh); naive_solver.
  - intros Hne. destruct (decide (owner r h = Some node)) as [|Ho]; [done|].
    by destruct Hne; apply (owner_remove r node h Hwf Hh).
  - by apply owner_remove.
  - intros Hn Hfree. apply map_eq. intros t. apply option_eq. intros v.
    rewrite lookup_remove_node, lookup_add_node_tokens. case_decide as Ht.
    + rewrite (Hfree t Ht). naive_solver.
    + specialize (Hn t). naive_solver.
Qed.

Lemma ring_minimal_disruption_witness :
  get_node_for_key (add_node demo_ring (mkNodeId (lit "c") 7946) 1) 31 = Some (mkNodeId (lit "c") 7946) /\
  get_node_for_key (remove_node demo_ring node_b) 15 <> Some node_b.
Proof.
  assert (in_width 32 31) as H1 by (split; [discriminate|reflexivity]).
  assert (in_width 32 15) as H2 by (split; [discriminate|reflexivity]).
  destruct (ring_minimal_disruption demo_ring (mkNodeId (lit "c") 7946) 1 31 demo_ring_wf H1) as [Ha _].
  destruct (ring_minimal_disruption demo_ring node_b 1 15 demo_ring_wf H2) as (_ & _ & Hb & _).
  split; [|exact Hb]. refine (Ha _). vm_compute. discriminate.
Defined.

(** C22: the replica list of a position is the first [n] distinct nodes met
    clockwise from it: no node twice, the owner first, at most [n], and fewer
    than [n] only when the ring has fewer nodes.  Asked for [n = 0] nodes the
    walk never reaches its stop test and returns every node of the ring. *)
Theorem get_n_nodes_spec r h n :
  get_n_nodes_for_key r h n =
    (if decide (n = 0%nat) then distinct_from [] (clockwise r h)
     else take n (distinct_from [] (clockwise r h))) /\
  NoDup (get_n_nodes_for_key r h n) /\
  head (get_n_nodes_for_key r h n) = get_node_for_key r h /\
  (forall node, node ∈ get_n_nodes_for_key r h n -> exists t, r !! t = Some node) /\
  (n <> 0%nat -> (length (get_n_nodes_for_key r h n) <= n)%nat) /\
  ((length (get_n_nodes_for_key r h n) < n)%nat \/ n = 0%nat ->
     forall t node, r !! t = Some node -> node ∈ get_n_nodes_for_key r h n).
Proof.
  rewrite !get_n_nodes_collect, get_node_owner.
  destruct (collect_nodes r h n) as (H1 & H2 & H3 & H4 & H5).
  split; [|by auto]. rewrite collect_spec. unfold limit. by rewrite Nat.sub_0_r.
Qed.

Example get_zero_nodes : get_n_nodes_for_key demo_ring 15 0 = [node_b; node_a].
Proof. vm_compute. done. Qed.
