(* ===== verification/RingMigration.v ===== *)
(** * Migration planning ([src/src/membership/ring_migration.{h,cpp}])

    Which hash ranges change owner between two versions of the ring. *)

From S2P Require Import Prelude NodeInfo OrderedMap RingStore.

Local Open Scope Z_scope.

Record RangeMigration := mkRangeMigration {
  range_start : Z;   (* exclusive *)
  range_end : Z;     (* inclusive *)
  from_node : NodeId;
  to_node : NodeId
}.

(** Defined on a ring with at least one token. *)
Definition owner_at (ring : Ring) (hash : Z) : option NodeId := owner ring hash.

(** The [std::set] of both rings' tokens, in order. *)
Definition boundaries (old_ring new_ring : Ring) : list Z :=
  merge_sort Z.le (elements (dom old_ring ∪ dom new_ring)).

(** The body of the loop at index [i] of the sorted boundaries. *)
Definition migration_at (old_ring new_ring : Ring) (sorted : list Z) (i : nat) : option RangeMigration :=
  curr ← sorted !! i;
  prev ← (if decide (i = 0%nat) then last sorted else sorted !! (i - 1)%nat);
  old_owner ← owner_at old_ring curr;
  new_owner ← owner_at new_ring curr;
  if decide (old_owner <> new_owner) then Some (mkRangeMigration prev curr old_owner new_owner) else None.

Definition compute_migrations (old_ring new_ring : Ring) : list RangeMigration :=
  if decide (old_ring = ∅ \/ new_ring = ∅) then [] else
  let sorted := boundaries old_ring new_ring in
  omap (migration_at old_ring new_ring sorted) (seq 0 (length sorted)).

(** A position in the range [(start, end]], which wraps when [end <= start]. *)
Definition covers (start stop h : Z) : Prop :=
  if decide (start < stop) then start < h <= stop else start < h \/ h <= stop.

(** ** Ranges between consecutive boundaries *)

Lemma boundaries_keys old new : boundaries old new = sorted_keys (old ∪ new).
Proof. unfold boundaries, sorted_keys. by rewrite dom_union_L. Qed.

Lemma union_wf (old new : Ring) : ring_wf old -> ring_wf new -> ring_wf (old ∪ new).
Proof. intros H1 H2 t [v [|[_ ?]]%lookup_union_Some_raw]; [apply H1|apply H2]; by eexists. Qed.

Lemma lookup_between (ks : list Z) i curr prev t :
  StronglySorted Z.lt ks -> ks !! i = Some curr -> t ∈ ks ->
  (if decide (i = 0%nat) then last ks else ks !! (i - 1)%nat) = Some prev ->
  if decide (i = 0%nat) then curr <= t <= prev else prev < curr /\ (t <= prev \/ curr <= t).
Proof.
  intros Hs Hi [j Hj]%list_elem_of_lookup Hp. case_decide as E.
  - subst i. rewrite last_lookup in Hp. pose proof (lookup_lt_Some _ _ _ Hj) as Hlt. split.
    + destruct j as [|j]; [naive_solver lia|].
      pose proof (strongly_sorted_lookup ks 0 (S j) curr t Hs Hi Hj). lia.
    + destruct (decide (j = pred (length ks))) as [->|]; [naive_solver lia|].
      pose proof (strongly_sorted_lookup ks j (pred (length ks)) t prev Hs Hj Hp). lia.
  - split; [apply (strongly_sorted_lookup ks (i - 1) i); auto with lia|].
    destruct (decide (j < i)%nat).
    + left. destruct (decide (j = i - 1)%nat) as [->|]; [naive_solver lia|].
      pose proof (strongly_sorted_lookup ks j (i - 1) t prev Hs Hj Hp). lia.
    + right. destruct (decide (j = i)) as [->|]; [naive_solver lia|].
      pose proof (strongly_sorted_lookup ks i j curr t Hs Hi Hj). lia.
Qed.

Lemma covers_nearest (ks : list Z) i curr prev h :
  StronglySorted Z.lt ks -> Forall (in_width 32) ks -> in_width 32 h ->
  ks !! i = Some curr -> (if decide (i = 0%nat) then last ks else ks !! (i - 1)%nat) = Some prev ->
  covers prev curr h <-> nearest (fun t => t ∈ ks) h curr.
Proof.
  intros Hs Hw Hh Hi Hp. rewrite Forall_forall in Hw.
  assert (curr ∈ ks) as Hc by (by eapply list_elem_of_lookup_2).
  assert (prev ∈ ks) as Hpk.
  { case_decide; [by apply last_Some_elem_of in Hp|by eapply list_elem_of_lookup_2]. }
  pose proof (fun t Ht => lookup_between ks i curr prev t Hs Hi Ht Hp) as Hb.
  assert (forall t, t ∈ ks -> dist h t = if decide (h <= t) then t - h else t - h + 2 ^ 32) as Hd.
  { intros t Ht. apply dist_eq; auto. }
  unfold covers, nearest. split.
  - intros Hcov. split; [done|]. intros t Ht. rewrite !Hd by done.
    pose proof (Hb t Ht). pose proof (Hb curr Hc). pose proof (Hw t Ht).
    pose proof (Hw _ Hc). pose proof (Hw _ Hpk). unfold in_width in *. repeat case_decide; lia.
  - intros [_ Hmin]. specialize (Hmin prev Hpk). rewrite !Hd in Hmin by done.
    specialize (Hb curr Hc). pose proof (Hw _ Hc). pose proof (Hw _ Hpk).
    unfold in_width in *. repeat case_decide; lia.
Qed.

Section Plan.
Context (old new : Ring) (Hold : ring_wf old) (Hnew : ring_wf new).
Context (Hne_old : old <> ∅) (Hne_new : new <> ∅).

Lemma boundaries_wf : Forall (in_width 32) (boundaries old new).
Proof. rewrite boundaries_keys. by apply ring_wf_keys, union_wf. Qed.

(** The owner of a position is the owner of the next boundary. *)
Lemma owner_boundary h c :
  in_width 32 h -> nearest (fun t => t ∈ boundaries old new) h c ->
  owner old h = owner old c /\ owner new h = owner new c.
Proof.
  clear Hne_old Hne_new. intros Hh Hc. pose proof boundaries_wf as Hw. rewrite Forall_forall in Hw.
  assert (forall t, t ∈ boundaries old new <-> is_Some (old !! t) \/ is_Some (new !! t)) as Hin.
  { intros t. rewrite boundaries_keys, elem_of_sorted_keys, lookup_union.
    destruct (old !! t), (new !! t); simpl; unfold is_Some; naive_solver. }
  assert (in_width 32 c) as Hcw by apply Hw, Hc.
  split; apply option_eq; intros v; rewrite !owner_nearest by done.
  - apply exist_proper. intros t. apply and_iff_compat_l.
    eapply nearest_through; [exact Hw| |done|done]. intros t' Ht'. apply Hin. by left.
  - apply exist_proper. intros t. apply and_iff_compat_l.
    eapply nearest_through; [exact Hw| |done|done]. intros t' Ht'. apply Hin. by right.
Qed.

Lemma elem_of_migrations m :
  m ∈ compute_migrations old new <->
  exists i, migration_at old new (boundaries old new) i = Some m.
Proof.
  unfold compute_migrations. rewrite decide_False by naive_solver.
  rewrite list_elem_of_omap. split; [naive_solver|]. intros [i Hi]. exists i. split; [|done].
  apply elem_of_seq. split; [lia|]. unfold migration_at in Hi.
  destruct (boundaries old new !! i) eqn:E; [|done]. by apply lookup_lt_Some in E.
Qed.

Lemma migration_at_covers i m h :
  in_width 32 h -> migration_at old new (boundaries old new) i = Some m ->
  boundaries old new !! i = Some (range_end m) /\
  owner old (range_end m) = Some (from_node m) /\ owner new (range_end m) = Some (to_node m) /\
  from_node m <> to_node m /\
  (covers (range_start m) (range_end m) h <->
     nearest (fun t => t ∈ boundaries old new) h (range_end m)).
Proof.
  clear Hne_old Hne_new. intros Hh Hm. unfold migration_at in Hm.
  destruct (boundaries old new !! i) as [curr|] eqn:Ec; simpl in Hm; [|done].
  destruct (if decide (i = 0%nat) then _ else _) as [prev|] eqn:Ep; simpl in Hm; [|done].
  destruct (owner_at old curr) as [o|] eqn:Eo; simpl in Hm; [|done].
  destruct (owner_at new curr) as [n|] eqn:En; simpl in Hm; [|done].
  case_decide; simplify_eq. simpl. split_and!; try done.
  eapply covers_nearest; [|apply boundaries_wf|done|done|done].
  rewrite boundaries_keys. apply sorted_keys_sorted.
Qed.

(** The boundary that closes the range of [h]. *)
Lemma boundary_of h :
  in_width 32 h ->
  exists i c, boundaries old new !! i = Some c /\ nearest (fun t => t ∈ boundaries old new) h c.
Proof.
  clear Hne_new. intros Hh. pose proof boundaries_wf as Hw. rewrite boundaries_keys in *.
  destruct (seek_nearest (sorted_keys (old ∪ new)) h) as (c & Hc & Hn); [apply sorted_keys_sorted|done..| |by eauto].
  rewrite sorted_keys_nil. intros E. apply Hne_old, map_eq. intros t.
  assert ((old ∪ new) !! t = None) as Ht by (rewrite E; apply lookup_empty).
  rewrite lookup_empty. by apply lookup_union_None in Ht as [? _].
Qed.

Lemma migration_found h c i :
  in_width 32 h -> boundaries old new !! i = Some c -> nearest (fun t => t ∈ boundaries old new) h c ->
  owner old h <> owner new h ->
  exists m, migration_at old new (boundaries old new) i = Some m.
Proof.
  intros Hh Hi Hn Hne. destruct (owner_boundary h c Hh Hn) as [E1 E2]. rewrite E1, E2 in Hne.
  pose proof boundaries_wf as Hw. rewrite Forall_forall in Hw.
  assert (in_width 32 c) as Hcw by apply Hw, Hn.
  destruct (owner_some old c Hold Hcw Hne_old) as (_ & o & Eo & _).
  destruct (owner_some new c Hnew Hcw Hne_new) as (_ & n & En & _).
  unfold migration_at, owner_at. rewrite Hi. simpl.
  assert (is_Some (if decide (i = 0%nat) then last (boundaries old new) else boundaries old new !! (i - 1)%nat))
    as [prev ->].
  { case_decide.
    - apply last_is_Some. intros E. by rewrite E in Hi.
    - apply lookup_lt_is_Some. apply lookup_lt_Some in Hi. lia. }
  simpl. rewrite Eo, En. simpl. rewrite decide_True by congruence. eauto.
Qed.
End Plan.

(** C23: the migration plan between two non-empty rings is exact: a position is
    covered by an entry of the plan precisely when its owner changes, the entry
    names the old and the new owner, and no two entries cover one position. *)
Theorem compute_migrations_exact old new h :
  ring_wf old -> ring_wf new -> old <> ∅ -> new <> ∅ -> in_width 32 h ->
  (forall m, m ∈ compute_migrations old new -> covers (range_start m) (range_end m) h ->
     get_node_for_key old h = Some (from_node m) /\
     get_node_for_key new h = Some (to_node m) /\ from_node m <> to_node m) /\
  (get_node_for_key old h <> get_node_for_key new h ->
     exists m, m ∈ compute_migrations old new /\ covers (range_start m) (range_end m) h) /\
  (forall m m', m ∈ compute_migrations old new -> m' ∈ compute_migrations old new ->
     covers (range_start m) (range_end m) h -> covers (range_start m') (range_end m') h -> m = m').
Proof.
  intros Hold Hnew Ho Hn Hh. rewrite !get_node_owner.
  setoid_rewrite (elem_of_migrations old new Ho Hn).
  pose proof (boundaries_wf old new Hold Hnew) as Hw. rewrite Forall_forall in Hw. split_and!.
  - intros m [i Hm] Hc. destruct (migration_at_covers old new Hold Hnew i m h Hh Hm) as (Hi & E1 & E2 & Hne & Hcov).
    apply Hcov in Hc. destruct (owner_boundary old new Hold Hnew h _ Hh Hc) as [-> ->]. done.
  - intros Hne. destruct (boundary_of old new Hold Hnew Ho h Hh) as (i & c & Hi & Hc).
    destruct (migration_found old new Hold Hnew Ho Hn h c i Hh Hi Hc Hne) as [m Hm].
    exists m. split; [by eauto|].
    destruct (migration_at_covers old new Hold Hnew i m h Hh Hm) as (Hi' & _ & _ & _ & Hcov).
    apply Hcov. by simplify_eq.
  - intros m m' [i Hm] [j Hm'] Hc Hc'.
    destruct (migration_at_covers old new Hold Hnew i m h Hh Hm) as (Hi & _ & _ & _ & Hcov).
    destruct (migration_at_covers old new Hold Hnew j m' h Hh Hm') as (Hj & _ & _ & _ & Hcov').
    assert (range_end m = range_end m') as E.
    { eapply nearest_unique; [exact Hw|exact Hh|by apply Hcov|by apply Hcov']. }
    assert (i = j) as ->; [|congruence].
    eapply (NoDup_lookup (boundaries old new)); [|exact Hi|by rewrite E].
    unfold boundaries. rewrite merge_sort_Permutation. apply NoDup_elements.
Qed.

Lemma compute_migrations_exact_witness :
  compute_migrations demo_ring (remove_node demo_ring node_b) = [mkRangeMigration 10 20 node_b node_a] /\
  get_node_for_key (remove_node demo_ring node_b) 15 = Some node_a.
Proof.
  assert (compute_migrations demo_ring (remove_node demo_ring node_b) =
            [mkRangeMigration 10 20 node_b node_a]) as E by (vm_compute; reflexivity).
  split; [exact E|].
  destruct (compute_migrations_exact demo_ring (remove_node demo_ring node_b) 15 demo_ring_wf
    (remove_node_wf _ _ demo_ring_wf) ltac:(vm_compute; discriminate) ltac:(vm_compute; discriminate)
    ltac:(split; [discriminate|reflexivity])) as (H & _).
  assert (mkRangeMigration 10 20 node_b node_a ∈ compute_migrations demo_ring (remove_node demo_ring node_b)) as Hin
    by (rewrite E; apply list_elem_of_singleton; reflexivity).
  exact (proj1 (proj2 (H _ Hin ltac:(vm_compute; split; [reflexivity|discriminate])))).
Defined.

(** Neighbouring ranges that move between the same two nodes are separate
    entries. *)
Example migrations_not_merged :
  let old := add_node_tokens ∅ node_a [10; 20; 30] in
  let new := add_node_tokens ∅ node_b [10; 20; 30] in
  compute_migrations old new =
    [mkRangeMigration 30 10 node_a node_b; mkRangeMigration 10 20 node_a node_b;
     mkRangeMigration 20 30 node_a node_b].
Proof. vm_compute. done. Qed.
