(* ===== verification/Codec.v ===== *)
(** * Readers and writers of wire formats

    A reader takes the buffer and an offset and returns the value with the
    offset after it.  [Codec rd wr wf] says that [rd] reads exactly what [wr]
    writes for the values of [wf]; the message formats are built from it field
    by field. *)

From S2P Require Import Prelude.

Local Open Scope Z_scope.

(** [data[i]], only evaluated inside the buffer. *)
Definition data_at (data : bytes) (i : nat) : Z := byte_to_Z (default x00 (data !! i)).

(** The bytes [bs] stand at offset [off]. *)
Definition holds (data : bytes) (off : nat) (bs : bytes) : Prop :=
  exists pre post, data = pre ++ bs ++ post /\ length pre = off.

Definition reader (A : Type) := bytes -> nat -> option (A * nat).

Class Codec {A : Type} (rd : reader A) (wr : A -> bytes) (wf : A -> Prop) : Prop :=
  codec_iff data off a off' :
    (off <= length data)%nat ->
    rd data off = Some (a, off') <->
    wf a /\ holds data off (wr a) /\ off' = (off + length (wr a))%nat.

Lemma holds_app data off b1 b2 :
  holds data off (b1 ++ b2) <-> holds data off b1 /\ holds data (off + length b1) b2.
Proof.
  split.
  - intros (pre & post & -> & <-). split.
    + exists pre, (b2 ++ post). by rewrite <- app_assoc.
    + exists (pre ++ b1), post. rewrite length_app. by rewrite <- !app_assoc.
  - intros [(pre & post & E1 & <-) (pre2 & post2 & E2 & El)]. exists pre, post2. split; [|done].
    rewrite E1 in E2. assert (pre2 = pre ++ b1) as ->.
    { rewrite app_assoc in E2. apply app_inj_1 in E2 as [-> _]; [done|]. rewrite length_app. lia. }
    rewrite <- !app_assoc in E2. do 2 apply app_inv_head in E2. rewrite E1, E2. by rewrite <- app_assoc.
Qed.

Lemma holds_length data off bs : holds data off bs -> (off + length bs <= length data)%nat.
Proof. intros (pre & post & -> & <-). rewrite !length_app. lia. Qed.

Lemma holds_nil data off : (off <= length data)%nat -> holds data off [].
Proof.
  intros H. exists (take off data), (drop off data). simpl. rewrite take_drop, length_take. split; [done|lia].
Qed.

Lemma holds_cons data off b bs :
  holds data off (b :: bs) <-> data !! off = Some b /\ holds data (S off) bs.
Proof.
  change (b :: bs) with ([b] ++ bs). rewrite holds_app. simpl. rewrite Nat.add_1_r.
  apply and_iff_compat_r. split.
  - intros (pre & post & -> & <-). by apply list_lookup_middle.
  - intros H. exists (take off data), (drop (S off) data). simpl.
    rewrite take_drop_middle by done. apply lookup_lt_Some in H. rewrite length_take. split; [done|lia].
Qed.

(** [n] bytes of the buffer from [off]. *)
Definition slice (data : bytes) (off n : nat) : bytes := take n (drop off data).

Lemma holds_slice data off n bs :
  (off + n <= length data)%nat -> length bs = n -> holds data off bs <-> slice data off n = bs.
Proof.
  intros Hn Hl. unfold slice. split.
  - intros (pre & post & -> & <-). rewrite drop_app_length. rewrite <- Hl. apply take_app_length.
  - intros E. exists (take off data), (drop n (drop off data)).
    rewrite <- E at 1. rewrite take_drop, take_drop, length_take. split; [done|lia].
Qed.

(** ** Big-endian words *)

Fixpoint be_encode (n : nat) (z : Z) : bytes :=
  match n with
  | O => []
  | S n => be_encode n (z / 256) ++ [byte_of_Z z]
  end.

Definition be_decode (bs : bytes) : Z := foldl (fun acc b => acc * 256 + byte_to_Z b) 0 bs.

Lemma length_be_encode n z : length (be_encode n z) = n.
Proof. revert z. induction n as [|n IH]; intros z; simpl; [done|]. rewrite length_app, IH. simpl. lia. Qed.

Lemma be_decode_snoc bs b : be_decode (bs ++ [b]) = be_decode bs * 256 + byte_to_Z b.
Proof. unfold be_decode. by rewrite foldl_app. Qed.

Lemma be_decode_encode n z : in_width (8 * Z.of_nat n) z -> be_decode (be_encode n z) = z.
Proof.
  revert z. induction n as [|n IH]; intros z Hz; simpl.
  { unfold in_width in Hz. change (2 ^ (8 * Z.of_nat 0)) with 1 in Hz. unfold be_decode. simpl. lia. }
  rewrite be_decode_snoc, byte_to_Z_of_Z, IH.
  - unfold u8, wrap. change (2 ^ 8) with 256. pose proof (Z.div_mod z 256). lia.
  - unfold in_width in *. rewrite Nat2Z.inj_succ, Z.mul_succ_r, Z.pow_add_r in Hz by lia.
    change (2 ^ 8) with 256 in Hz. split; [apply Z.div_pos; lia|]. apply Z.div_lt_upper_bound; lia.
Qed.

Lemma be_encode_decode bs : be_encode (length bs) (be_decode bs) = bs.
Proof.
  induction bs as [|b bs IH] using rev_ind; [done|].
  rewrite length_app. simpl. rewrite Nat.add_1_r. simpl. rewrite be_decode_snoc.
  pose proof (byte_to_Z_range b) as Hb. unfold in_width in Hb. change (2 ^ 8) with 256 in Hb.
  replace ((be_decode bs * 256 + byte_to_Z b) / 256) with (be_decode bs)
    by (rewrite Z.div_add_l, Z.div_small by lia; lia). rewrite IH. f_equal.
  f_equal. rewrite <- (byte_of_to_Z b) at 2. rewrite <- byte_of_Z_u8. f_equal.
  unfold u8, wrap. change (2 ^ 8) with 256. rewrite Z.add_comm, Z_mod_plus_full. by apply Z.mod_small.
Qed.

Lemma be_decode_bound bs : in_width (8 * Z.of_nat (length bs)) (be_decode bs).
Proof.
  induction bs as [|b bs IH] using rev_ind; [done|].
  rewrite be_decode_snoc, length_app. simpl length. unfold in_width in *.
  rewrite Nat2Z.inj_add, Z.mul_add_distr_l, Z.pow_add_r by lia. change (2 ^ (8 * Z.of_nat 1)) with 256.
  pose proof (byte_to_Z_range b) as Hb. unfold in_width in Hb. change (2 ^ 8) with 256 in Hb. lia.
Qed.

(** [(x << 8) | b]. *)
Lemma lor_shiftl_byte x b : in_width 8 b -> Z.lor (Z.shiftl x 8) b = x * 256 + b.
Proof.
  intros Hb. change 256 with (2 ^ 8). rewrite <- Z.shiftl_mul_pow2 by lia.
  assert (Z.land (Z.shiftl x 8) b = 0) as E.
  { apply Z.bits_inj'. intros i Hi. rewrite Z.land_spec, Z.bits_0.
    destruct (decide (i < 8)); [by rewrite Z.shiftl_spec_low by lia|].
    rewrite (in_width_testbit_high 8 b) by (done || lia). apply andb_false_r. }
  rewrite Z.add_nocarry_lxor by done. by rewrite Z.lxor_lor.
Qed.

(** ** Codecs *)

(** A fixed number of big-endian bytes. *)
Lemma be_codec (n : nat) (rd : reader Z) (wr : Z -> bytes) :
  (forall data off, rd data off =
     if decide (length data < off + n)%nat then None
     else Some (be_decode (slice data off n), (off + n)%nat)) ->
  (forall z, in_width (8 * Z.of_nat n) z -> wr z = be_encode n z) ->
  Codec rd wr (in_width (8 * Z.of_nat n)).
Proof.
  intros Hrd Hwr data off a off' Hoff. rewrite Hrd. case_decide as Hlen.
  - split; [done|]. intros (Ha & Hh%holds_length & _). rewrite Hwr, length_be_encode in Hh by done. lia.
  - assert (length (slice data off n) = n) as Hl by (unfold slice; rewrite length_take, length_drop; lia).
    split.
    + intros [= <- <-]. pose proof (be_decode_bound (slice data off n)) as Hb. rewrite Hl in Hb.
      rewrite Hwr by done. split; [done|]. rewrite length_be_encode. split; [|done].
      apply holds_slice with n; [lia|by rewrite length_be_encode|].
      rewrite <- Hl at 2. by rewrite be_encode_decode.
    + intros (Ha & Hh & ->). rewrite Hwr in * by done. rewrite length_be_encode.
      apply holds_slice with (n := n) in Hh; [|lia|apply length_be_encode].
      by rewrite Hh, be_decode_encode.
Qed.

(** Most significant byte first. *)
Lemma be_encode_shiftr n z :
  be_encode (S n) z = byte_of_Z (Z.shiftr z (8 * Z.of_nat n)) :: be_encode n z.
Proof.
  revert z. induction n as [|n IH]; intros z.
  { change (8 * Z.of_nat 0) with 0. by rewrite Z.shiftr_0_r. }
  change (be_encode (S (S n)) z) with (be_encode (S n) (z / 256) ++ [byte_of_Z z]).
  rewrite IH. simpl app. f_equal. f_equal.
  change 256 with (2 ^ 8). rewrite <- Z.shiftr_div_pow2, Z.shiftr_shiftr by lia. f_equal. lia.
Qed.

Lemma slice_S data off n :
  (off < length data)%nat -> byte_to_Z <$> slice data off (S n) = data_at data off :: (byte_to_Z <$> slice data (S off) n).
Proof.
  intros H. unfold slice, data_at. destruct (lookup_lt_is_Some_2 _ _ H) as [b Hb].
  by rewrite (drop_S _ _ _ Hb), Hb.
Qed.

Lemma be_decode_fmap bs : be_decode bs = foldl (fun acc z => acc * 256 + z) 0 (byte_to_Z <$> bs).
Proof. unfold be_decode. generalize 0. induction bs as [|b bs IH]; intros acc; simpl; [done|]. apply IH. Qed.

Lemma data_at_width data i : in_width 8 (data_at data i).
Proof. apply byte_to_Z_range. Qed.
