(* ===== verification/SwimMessage.v ===== *)
(** * SWIM messages ([src/src/membership/swim_message.{h,cpp}])

    The gossip datagrams: big-endian fields, variable-length node names, and a
    list of piggybacked membership updates. *)

From S2P Require Import Prelude Codec NodeInfo.

Local Open Scope Z_scope.

Inductive SwimMessageType := Ping | Ack | PingReq.

Inductive UpdateType := Join | Alive | Suspect | Dead | Leave.

#[export] Instance SwimMessageType_eq_dec : EqDecision SwimMessageType.
Proof. solve_decision. Defined.
#[export] Instance UpdateType_eq_dec : EqDecision UpdateType.
Proof. solve_decision. Defined.

Definition SwimMessageType_val (t : SwimMessageType) : Z :=
  match t with Ping => 1 | Ack => 2 | PingReq => 3 end.
Definition UpdateType_val (t : UpdateType) : Z :=
  match t with Join => 0 | Alive => 1 | Suspect => 2 | Dead => 3 | Leave => 4 end.

Record MembershipUpdate := mkUpdate {
  upd_type : UpdateType;
  upd_node : NodeId;
  upd_incarnation : Z;   (* uint64_t *)
  upd_data_port : Z      (* uint16_t *)
}.

Record SwimMessage := mkSwimMessage {
  msg_type : SwimMessageType;
  seq_num : Z;           (* uint32_t *)
  sender : NodeId;
  target : option NodeId;
  updates : list MembershipUpdate
}.

#[export] Instance MembershipUpdate_eq_dec : EqDecision MembershipUpdate.
Proof. solve_decision. Defined.
#[export] Instance SwimMessage_eq_dec : EqDecision SwimMessage.
Proof. solve_decision. Defined.

(** ** Fields *)

Definition write_u8 (v : Z) : bytes := [byte_of_Z v].
Definition write_u16 (v : Z) : bytes := [byte_of_Z (Z.shiftr v 8); byte_of_Z v].
Definition write_u32 (v : Z) : bytes :=
  [byte_of_Z (Z.shiftr v 24); byte_of_Z (Z.shiftr v 16); byte_of_Z (Z.shiftr v 8); byte_of_Z v].
Definition write_u64 (v : Z) : bytes :=
  (fun i => byte_of_Z (Z.shiftr v i)) <$> [56; 48; 40; 32; 24; 16; 8; 0].

Definition read_u8 : reader Z := fun data off =>
  if decide (length data <= off)%nat then None else Some (data_at data off, S off).

Definition read_u16 : reader Z := fun data off =>
  if decide (length data < off + 2)%nat then None else
  Some (u16 (Z.lor (Z.shiftl (data_at data off) 8) (data_at data (off + 1))), (off + 2)%nat).

Definition read_u32 : reader Z := fun data off =>
  if decide (length data < off + 4)%nat then None else
  Some (Z.lor (Z.lor (Z.lor (u32 (Z.shiftl (data_at data off) 24))
                            (u32 (Z.shiftl (data_at data (off + 1)) 16)))
                     (u32 (Z.shiftl (data_at data (off + 2)) 8)))
              (data_at data (off + 3)), (off + 4)%nat).

Definition read_u64 : reader Z := fun data off =>
  if decide (length data < off + 8)%nat then None else
  Some (foldl (fun out i => Z.lor (u64 (Z.shiftl out 8)) (data_at data (off + i))) 0 (seq 0 8),
        (off + 8)%nat).

Definition serialize_node_id (id : NodeId) : bytes :=
  write_u16 (u16 (Z.of_nat (length (host id)))) ++ host id ++ write_u16 (gossip_port id).

Definition deserialize_node_id : reader NodeId := fun data off =>
  '(host_len, off) ← read_u16 data off;
  let n := Z.to_nat host_len in
  if decide (length data < off + n)%nat then None else
  let host := slice data off n in
  let off := (off + n)%nat in
  '(port, off) ← read_u16 data off;
  Some (mkNodeId host port, off).

Definition serialize_update (u : MembershipUpdate) : bytes :=
  write_u8 (UpdateType_val (upd_type u)) ++ serialize_node_id (upd_node u) ++
  write_u64 (upd_incarnation u) ++ write_u16 (upd_data_port u).

(** [static_cast<MembershipUpdate::Type>(v)], after the range check. *)
Definition UpdateType_of_val (v : Z) : option UpdateType :=
  if decide (v > UpdateType_val Leave) then None else
  Some (match v with 0 => Join | 1 => Alive | 2 => Suspect | 3 => Dead | _ => Leave end).

Definition deserialize_update : reader MembershipUpdate := fun data off =>
  '(type_val, off) ← read_u8 data off;
  ty ← UpdateType_of_val type_val;
  '(node, off) ← deserialize_node_id data off;
  '(inc, off) ← read_u64 data off;
  '(dp, off) ← read_u16 data off;
  Some (mkUpdate ty node inc dp, off).

(** [count] updates in a row. *)
Fixpoint deserialize_updates (count : nat) : reader (list MembershipUpdate) := fun data off =>
  match count with
  | O => Some ([], off)
  | S count =>
      '(u, off) ← deserialize_update data off;
      '(us, off) ← deserialize_updates count data off;
      Some (u :: us, off)
  end.

(** ** Messages *)

Definition serialize (m : SwimMessage) : bytes :=
  write_u8 (SwimMessageType_val (msg_type m)) ++
  write_u32 (seq_num m) ++
  serialize_node_id (sender m) ++
  match msg_type m, target m with
  | PingReq, Some t => serialize_node_id t
  | _, _ => []
  end ++
  write_u16 (u16 (Z.of_nat (length (updates m)))) ++
  mjoin (serialize_update <$> updates m).

(** [static_cast<SwimMessageType>(v)], after the range check. *)
Definition SwimMessageType_of_val (v : Z) : option SwimMessageType :=
  if decide (v < 1 \/ v > 3) then None else
  Some (match v with 1 => Ping | 2 => Ack | _ => PingReq end).

Definition deserialize (data : bytes) : option SwimMessage :=
  '(type_val, off) ← read_u8 data 0%nat;
  ty ← SwimMessageType_of_val type_val;
  '(seq, off) ← read_u32 data off;
  '(snd, off) ← deserialize_node_id data off;
  '(tgt, off) ← match ty with
                | PingReq => '(t, off) ← deserialize_node_id data off; Some (Some t, off)
                | _ => Some (None, off)
                end;
  '(update_count, off) ← read_u16 data off;
  '(us, _) ← deserialize_updates (Z.to_nat update_count) data off;
  Some (mkSwimMessage ty seq snd tgt us).

(** ** Field codecs *)

#[export] Instance u8_codec : Codec read_u8 write_u8 (in_width 8).
Proof.
  apply (be_codec 1); [|done]. intros data off. unfold read_u8.
  repeat case_decide; try lia; [done|]. rewrite be_decode_fmap, slice_S by lia. by rewrite Nat.add_1_r.
Qed.

#[export] Instance u16_codec : Codec read_u16 write_u16 (in_width 16).
Proof.
  apply (be_codec 2).
  - intros data off. unfold read_u16. case_decide; [done|].
    rewrite be_decode_fmap, !slice_S by lia. unfold slice. simpl. rewrite Nat.add_1_r.
    pose proof (data_at_width data off). pose proof (data_at_width data (S off)).
    rewrite lor_shiftl_byte by done. do 2 f_equal. apply wrap_small.
    unfold in_width in *. change (2 ^ 8) with 256 in *. change (2 ^ 16) with 65536. lia.
  - intros z _. by rewrite !be_encode_shiftr, Z.shiftr_0_r.
Qed.

Lemma u32_shiftl_small x n k : in_width k x -> 0 <= n -> 0 <= k -> k + n <= 32 -> u32 (Z.shiftl x n) = Z.shiftl x n.
Proof.
  intros Hx Hn Hk Hkn. apply wrap_small. rewrite Z.shiftl_mul_pow2 by done.
  apply in_width_mono with (k + n); [lia|]. unfold in_width in *. rewrite Z.pow_add_r by lia. nia.
Qed.

#[export] Instance u32_codec : Codec read_u32 write_u32 (in_width 32).
Proof.
  apply (be_codec 4).
  - intros data off. unfold read_u32. case_decide; [done|].
    rewrite be_decode_fmap, !slice_S by lia. unfold slice. simpl.
    rewrite !(Nat.add_comm off). simpl.
    set (a := data_at data off). set (b := data_at data (S off)).
    set (c := data_at data (S (S off))). set (d := data_at data (S (S (S off)))).
    assert (in_width 8 a /\ in_width 8 b /\ in_width 8 c /\ in_width 8 d) as (Ha & Hb & Hc & Hd)
      by (split_and!; apply data_at_width).
    rewrite !(u32_shiftl_small _ _ 8) by (done || lia).
    change 24 with (8 + 16). change 16 with (8 + 8).
    rewrite <- !Z.shiftl_shiftl by lia. rewrite <- !Z.shiftl_lor, !lor_shiftl_byte by done. done.
  - intros z _. by rewrite !be_encode_shiftr, Z.shiftr_0_r.
Qed.

Lemma read_u64_loop data off n :
  (n <= 8)%nat -> (off + n <= length data)%nat ->
  foldl (fun out i => Z.lor (u64 (Z.shiftl out 8)) (data_at data (off + i))) 0 (seq 0 n) =
    be_decode (slice data off n).
Proof.
  induction n as [|n IH]; intros Hn Hlen; [done|].
  rewrite seq_S, foldl_app, IH by lia. simpl.
  destruct (lookup_lt_is_Some_2 data (off + n)) as [b Hb]; [lia|].
  assert (slice data off (S n) = slice data off n ++ [b]) as ->.
  { unfold slice. rewrite (take_S_r _ _ b); [done|]. by rewrite lookup_drop. }
  rewrite be_decode_snoc. unfold data_at. rewrite Hb. simpl.
  assert (length (slice data off n) = n) as Hl by (unfold slice; rewrite length_take, length_drop; lia).
  pose proof (be_decode_bound (slice data off n)) as Hw. rewrite Hl in Hw.
  rewrite <- lor_shiftl_byte by apply byte_to_Z_range. f_equal. apply wrap_small.
  apply in_width_mono with (8 * Z.of_nat n + 8); [lia|].
  rewrite Z.shiftl_mul_pow2 by lia. unfold in_width in *. rewrite Z.pow_add_r by lia. nia.
Qed.

#[export] Instance u64_codec : Codec read_u64 write_u64 (in_width 64).
Proof.
  apply (be_codec 8).
  - intros data off. unfold read_u64. case_decide; [done|]. by rewrite read_u64_loop by lia.
  - intros z _. rewrite !be_encode_shiftr. by rewrite Z.shiftr_0_r.
Qed.

(** ** Composite codecs *)

Definition NodeId_wf (id : NodeId) : Prop :=
  Z.of_nat (length (host id)) < 2 ^ 16 /\ in_width 16 (gossip_port id).

Definition Update_wf (u : MembershipUpdate) : Prop :=
  NodeId_wf (upd_node u) /\ in_width 64 (upd_incarnation u) /\ in_width 16 (upd_data_port u).

Definition SwimMessage_wf (m : SwimMessage) : Prop :=
  in_width 32 (seq_num m) /\ NodeId_wf (sender m) /\
  match msg_type m, target m with
  | PingReq, Some t => NodeId_wf t
  | PingReq, None => False
  | _, t => t = None
  end /\
  Z.of_nat (length (updates m)) < 2 ^ 16 /\ Forall Update_wf (updates m).

Lemma codec_bind {A B} {rd : reader A} {wr wf} `{!Codec rd wr wf} (k : A -> nat -> option B) data off b :
  (off <= length data)%nat ->
  ('(a, off) ← rd data off; k a off) = Some b <->
  exists a, wf a /\ holds data off (wr a) /\ k a (off + length (wr a))%nat = Some b.
Proof.
  intros Hoff. split.
  - destruct (rd data off) as [[a off']|] eqn:E; simpl; [|done]. intros Hk.
    apply codec_iff in E as (Ha & Hh & ->); [|done]. eauto.
  - intros (a & Ha & Hh & Hk). assert (rd data off = Some (a, (off + length (wr a))%nat)) as ->; [|done].
    by apply codec_iff.
Qed.

#[export] Instance node_id_codec : Codec deserialize_node_id serialize_node_id NodeId_wf.
Proof.
  intros data off id off' Hoff. unfold deserialize_node_id. rewrite (codec_bind (rd := read_u16)) by done.
  split.
  - intros (hl & Hhl & Hh & E). apply holds_length in Hh as Hlen. case_decide as Hn; [done|].
    apply (codec_bind (rd := read_u16)) in E as (port & Hp & Hhp & [= <- <-]); [|lia].
    change (length (write_u16 hl)) with 2%nat in *.
    assert (length (slice data (off + 2) (Z.to_nat hl)) = Z.to_nat hl) as El
      by (unfold slice; rewrite length_take, length_drop; lia).
    unfold serialize_node_id, NodeId_wf. cbn [host gossip_port]. rewrite El, Z2Nat.id by apply Hhl.
    unfold u16 at 1 2. rewrite wrap_small by done. split; [split; [apply Hhl|done]|].
    rewrite !holds_app, El, !length_app, El. split; [|simpl; lia]. split; [done|]. split; [|done].
    by apply holds_slice with (Z.to_nat hl); [simpl; lia|..].
  - intros ([Hhost Hport] & Hh & ->). unfold serialize_node_id in *.
    rewrite !holds_app in Hh. destruct Hh as (Hh1 & Hh2 & Hh3).
    assert (in_width 16 (Z.of_nat (length (host id)))) as Hw by (unfold in_width; lia).
    unfold u16 in *. rewrite wrap_small in * by done.
    exists (Z.of_nat (length (host id))). split; [done|]. split; [done|]. rewrite Nat2Z.id.
    apply holds_length in Hh2 as Hl2. rewrite decide_False by lia.
    apply (codec_bind (rd := read_u16)); [lia|]. exists (gossip_port id). split; [done|]. split; [done|].
    apply holds_slice with (n := length (host id)) in Hh2 as ->; [|lia|done].
    destruct id. simpl. rewrite length_app. simpl. do 2 f_equal. lia.
Qed.

Lemma UpdateType_of_val_iff v ty :
  in_width 8 v -> UpdateType_of_val v = Some ty <-> v = UpdateType_val ty.
Proof.
  intros Hv. unfold UpdateType_of_val, in_width in *. simpl. case_decide.
  - split; [done|]. destruct ty; simpl; lia.
  - assert (v = 0 \/ v = 1 \/ v = 2 \/ v = 3 \/ v = 4) as Hc by lia.
    destruct Hc as [->|[->|[->|[->| ->]]]]; destruct ty; simpl; split; intros; simplify_eq; try done; lia.
Qed.

#[export] Instance update_codec : Codec deserialize_update serialize_update Update_wf.
Proof.
  intros data off u off' Hoff. unfold deserialize_update. rewrite (codec_bind (rd := read_u8)) by done.
  unfold serialize_update, Update_wf. rewrite !holds_app. split.
  - intros (tv & Htv & H1 & E). apply holds_length in H1 as L1.
    destruct (UpdateType_of_val tv) as [ty|] eqn:Et; cbn [mbind option_bind] in E; [|done].
    apply UpdateType_of_val_iff in Et as ->; [|done].
    apply (codec_bind (rd := deserialize_node_id)) in E as (node & Hn & H2 & E); [|lia].
    apply holds_length in H2 as L2.
    apply (codec_bind (rd := read_u64)) in E as (inc & Hi & H3 & E); [|lia].
    apply holds_length in H3 as L3.
    apply (codec_bind (rd := read_u16)) in E as (dp & Hd & H4 & [= <- <-]); [|lia].
    cbn [upd_type upd_node upd_incarnation upd_data_port]. split_and!; try done.
    unfold serialize_node_id. rewrite !length_app. simpl. lia.
  - intros ((Hn & Hi & Hd) & (H1 & H2 & H3 & H4) & ->).
    apply holds_length in H1 as L1. apply holds_length in H2 as L2. apply holds_length in H3 as L3.
    exists (UpdateType_val (upd_type u)).
    assert (in_width 8 (UpdateType_val (upd_type u))) as Hw by (by destruct u as [[] ? ? ?]).
    split; [done|]. split; [done|].
    assert (UpdateType_of_val (UpdateType_val (upd_type u)) = Some (upd_type u)) as ->
      by (by apply UpdateType_of_val_iff). cbn [mbind option_bind].
    apply (codec_bind (rd := deserialize_node_id)); [lia|]. eexists. split; [done|]. split; [done|].
    apply (codec_bind (rd := read_u64)); [lia|]. eexists. split; [done|]. split; [done|].
    apply (codec_bind (rd := read_u16)); [lia|]. eexists. split; [done|]. split; [done|].
    rewrite !length_app. destruct u; simpl. do 2 f_equal. lia.
Qed.

Lemma serialize_updates_cons u us :
  mjoin (serialize_update <$> u :: us) = serialize_update u ++ mjoin (serialize_update <$> us).
Proof. done. Qed.

#[export] Instance updates_codec n :
  Codec (deserialize_updates n) (fun us => mjoin (serialize_update <$> us))
    (fun us => Forall Update_wf us /\ length us = n).
Proof.
  induction n as [|n IH]; intros data off us off' Hoff; simpl deserialize_updates.
  - split.
    + intros [= <- <-]. split_and!; [constructor|done|by apply holds_nil|simpl; lia].
    + intros ([_ Hl%nil_length_inv] & _ & ->). subst us. simpl. by rewrite Nat.add_0_r.
  - rewrite (codec_bind (rd := deserialize_update)) by done. split.
    + intros (u & Hu & H1 & E). apply holds_length in H1 as L1.
      apply (codec_bind (Codec0 := IH)) in E as (us' & [Hus Hl] & H2 & E); [|lia].
      apply (inj Some), pair_equal_spec in E as [<- <-].
      split; [split; [by constructor|by rewrite <- Hl]|].
      rewrite serialize_updates_cons, holds_app, length_app. split; [done|lia].
    + intros ([Hus Hl] & Hh & ->). destruct us as [|u us]; [done|]. rewrite serialize_updates_cons in *.
      apply Forall_cons in Hus as [Hu Hus]. apply holds_app in Hh as [H1 H2].
      apply holds_length in H1 as L1. exists u. split; [done|]. split; [done|].
      apply (codec_bind (Codec0 := IH)); [lia|]. exists us.
      split; [split; [done|simpl in Hl; lia]|]. split; [done|].
      rewrite length_app. do 2 f_equal. lia.
Qed.

Lemma SwimMessageType_of_val_iff v ty :
  SwimMessageType_of_val v = Some ty <-> v = SwimMessageType_val ty.
Proof.
  unfold SwimMessageType_of_val. case_decide.
  - split; [done|]. destruct ty; simpl; lia.
  - assert (v = 1 \/ v = 2 \/ v = 3) as Hc by lia.
    destruct Hc as [->|[->| ->]]; destruct ty; simpl; split; intros; simplify_eq; try done; lia.
Qed.

Lemma holds_0 data bs : holds data 0 bs <-> exists rest, data = bs ++ rest.
Proof.
  split.
  - intros (pre & post & -> & ->%nil_length_inv). by exists post.
  - intros [rest ->]. by exists [], rest.
Qed.

(** The optional target: present exactly in a [PingReq]. *)
Definition read_target (ty : SwimMessageType) : reader (option NodeId) := fun data off =>
  match ty with
  | PingReq => '(t, off) ← deserialize_node_id data off; Some (Some t, off)
  | _ => Some (None, off)
  end.

Definition write_target (ty : SwimMessageType) (t : option NodeId) : bytes :=
  match ty, t with
  | PingReq, Some t => serialize_node_id t
  | _, _ => []
  end.

Definition target_wf (ty : SwimMessageType) (t : option NodeId) : Prop :=
  match ty, t with
  | PingReq, Some t => NodeId_wf t
  | PingReq, None => False
  | _, t => t = None
  end.

#[export] Instance target_codec ty : Codec (read_target ty) (write_target ty) (target_wf ty).
Proof.
  intros data off t off' Hoff. unfold read_target, write_target, target_wf.
  destruct ty; [| |rewrite (codec_bind (rd := deserialize_node_id)) by done; split].
  1, 2: split; [intros [= <- <-]; split_and!; [done|by apply holds_nil|simpl; lia]
               |intros (-> & _ & ->); simpl; by rewrite Nat.add_0_r].
  - intros (id & Hid & Hh & E). apply (inj Some), pair_equal_spec in E as [<- <-]. done.
  - intros (Ht & Hh & ->). destruct t as [id|]; [|done]. by exists id.
Qed.

Lemma codec_count us : 
  Z.of_nat (length us) < 2 ^ 16 -> u16 (Z.of_nat (length us)) = Z.of_nat (length (us : list MembershipUpdate)).
Proof. intros H. apply wrap_small. unfold in_width. lia. Qed.

Lemma deserialize_iff data m :
  deserialize data = Some m <-> SwimMessage_wf m /\ holds data 0 (serialize m).
Proof.
  assert (forall m, serialize m =
    write_u8 (SwimMessageType_val (msg_type m)) ++ write_u32 (seq_num m) ++ serialize_node_id (sender m) ++
    write_target (msg_type m) (target m) ++ write_u16 (u16 (Z.of_nat (length (updates m)))) ++
    mjoin (serialize_update <$> updates m)) as Es by (by intros [[] ? ? [] ?]).
  assert (forall m, SwimMessage_wf m <-> in_width 32 (seq_num m) /\ NodeId_wf (sender m) /\
    target_wf (msg_type m) (target m) /\ Z.of_nat (length (updates m)) < 2 ^ 16 /\
    Forall Update_wf (updates m)) as Ew by (by intros [[] ? ? [] ?]).
  rewrite Es, Ew, !holds_app. unfold deserialize.
  rewrite (codec_bind (rd := read_u8)) by lia. split.
  - intros (tv & Htv & H1 & E). apply holds_length in H1 as L1.
    destruct (SwimMessageType_of_val tv) as [ty|] eqn:Et; cbn [mbind option_bind] in E; [|done].
    apply SwimMessageType_of_val_iff in Et as ->.
    apply (codec_bind (rd := read_u32)) in E as (sq & Hsq & H2 & E); [|lia]. apply holds_length in H2 as L2.
    apply (codec_bind (rd := deserialize_node_id)) in E as (sn & Hsn & H3 & E); [|lia]. apply holds_length in H3 as L3.
    apply (codec_bind (rd := read_target ty)) in E as (tg & Htg & H4 & E); [|lia]. apply holds_length in H4 as L4.
    apply (codec_bind (rd := read_u16)) in E as (n & Hn & H5 & E); [|lia]. apply holds_length in H5 as L5.
    apply (codec_bind (rd := deserialize_updates (Z.to_nat n))) in E as (us & [Hus Hl] & H6 & E); [|lia].
    apply (inj Some) in E as <-. cbn [msg_type seq_num sender target updates].
    assert (Z.of_nat (length us) = n) as Eus by (rewrite Hl, Z2Nat.id; [done|apply Hn]).
    rewrite codec_count, Eus by (rewrite Eus; apply Hn). pose proof (proj2 Hn). done.
  - intros ((Hsq & Hsn & Htg & Hn & Hus) & H1 & H2 & H3 & H4 & H5 & H6).
    apply holds_length in H1 as L1. apply holds_length in H2 as L2. apply holds_length in H3 as L3.
    apply holds_length in H4 as L4. apply holds_length in H5 as L5.
    exists (SwimMessageType_val (msg_type m)).
    split; [by destruct (msg_type m)|]. split; [done|].
    assert (SwimMessageType_of_val (SwimMessageType_val (msg_type m)) = Some (msg_type m)) as ->
      by (by apply SwimMessageType_of_val_iff). cbn [mbind option_bind].
    rewrite codec_count in * by done.
    apply (codec_bind (rd := read_u32)); [lia|]. eexists. split; [done|]. split; [done|].
    apply (codec_bind (rd := deserialize_node_id)); [lia|]. eexists. split; [done|]. split; [done|].
    apply (codec_bind (rd := read_target (msg_type m))); [lia|]. eexists. split; [done|]. split; [done|].
    apply (codec_bind (rd := read_u16)); [lia|]. eexists (Z.of_nat _).
    split; [by unfold in_width; split; [lia|]|]. split; [done|].
    apply (codec_bind (rd := deserialize_updates _)); [lia|]. exists (updates m).
    split; [by rewrite Nat2Z.id|]. split; [done|]. by destruct m.
Qed.

(** C25: the gossip decoder accepts exactly the encodings of well-formed
    messages, followed by anything, and returns the message encoded: decoding
    inverts encoding, and no two messages share an encoding.  Well-formed: host
    names and update lists below 65536, a target exactly in a [PingReq], every
    integer in its width. *)
Theorem swim_deserialize_serialize data m :
  deserialize data = Some m <-> SwimMessage_wf m /\ exists rest, data = serialize m ++ rest.
Proof. by rewrite deserialize_iff, holds_0. Qed.

Example ping_req_roundtrip :
  let m := mkSwimMessage PingReq 7 (mkNodeId (lit "10.0.0.1") 7946) (Some (mkNodeId (lit "10.0.0.2") 7946))
    [mkUpdate Suspect (mkNodeId (lit "10.0.0.3") 7946) 258 0] in
  deserialize (serialize m) = Some m.
Proof. vm_compute. done. Qed.
