(* ===== verification/MemberList.v ===== *)
(** * The member list ([src/src/membership/member_list.{h,cpp}])

    What a node believes of the others, one record per node id.  An operation
    returns its result, the new table and the call of the change callback it
    makes, if any; [now] is the clock reading the code takes. *)

From S2P Require Import Prelude NodeInfo.

Local Open Scope Z_scope.

Abbreviation members := (gmap NodeId NodeInfo).

(** One call of [on_change_]. *)
Abbreviation change := (NodeId * NodeInfo)%type.

Definition MemberList_new : members := ∅.

(** A default-initialised [NodeInfo] carries the clock reading [now]; this is
    the one [remove_node] reports. *)
Definition removed_info (now : Z) (id : NodeId) : NodeInfo := mkNodeInfo id 0 NodeState_Dead 0 now.

Definition notify (m : members) (id : NodeId) : option change :=
  info ← m !! id; Some (id, info).

Definition add_node (m : members) (info : NodeInfo) : bool * members * option change :=
  match m !! id info with
  | Some old =>
      if decide (incarnation info > incarnation old \/
                 (incarnation info = incarnation old /\ state_supersedes (state info) (state old) = true))
      then let m := <[id info := info]> m in (true, m, notify m (id info))
      else (false, m, None)
  | None => let m := <[id info := info]> m in (true, m, notify m (id info))
  end.

Definition remove_node (now : Z) (m : members) (id : NodeId) : bool * members * option change :=
  match m !! id with
  | Some _ => (true, delete id m, Some (id, removed_info now id))
  | None => (false, m, None)
  end.

Definition set_state (n : NodeInfo) (st : NodeState) (inc now : Z) : NodeInfo :=
  mkNodeInfo (id n) (data_port n) st inc now.

Definition update_state (now : Z) (m : members) (id : NodeId) (new_state : NodeState) (inc : Z)
  : bool * members * option change :=
  match m !! id with
  | None => (false, m, None)
  | Some n =>
      if decide (inc > incarnation n) then
        let m := <[id := set_state n new_state inc now]> m in (true, m, notify m id)
      else if decide (inc = incarnation n /\ state_supersedes new_state (state n) = true) then
        let m := <[id := set_state n new_state (incarnation n) now]> m in (true, m, notify m id)
      else (false, m, None)
  end.

Definition get_node (m : members) (id : NodeId) : option NodeInfo := m !! id.

(** The order of an [unordered_map] is unspecified: [map_to_list] fixes one. *)
Definition alive_peers (m : members) (excluding : NodeId) : list NodeId :=
  omap (fun p => if decide (p.1 <> excluding /\ state p.2 = NodeState_Alive) then Some p.1 else None)
    (map_to_list m).

(** [draw hi] is the value of [uniform_int_distribution(0, hi)]. *)
Definition random_peer (draw : nat -> nat) (m : members) (excluding : NodeId) : option NodeId :=
  let peers := alive_peers m excluding in
  if decide (peers = []) then None else peers !! draw (length peers - 1)%nat.

Definition random_peers (shuffle : list NodeId -> list NodeId) (m : members) (k : nat)
    (excluding : NodeId) : list NodeId :=
  let peers := alive_peers m excluding in
  if decide (length peers <= k)%nat then peers else take k (shuffle peers).

(** ** Versions: incarnation first, then the rank of the state *)

Definition version : Type := Z * Z.
Definition version_of (n : NodeInfo) : version := (incarnation n, NodeState_rank (state n)).
Definition version_lt (a b : version) : Prop := a.1 < b.1 \/ (a.1 = b.1 /\ a.2 < b.2).
Definition version_le (a b : version) : Prop := a = b \/ version_lt a b.

#[export] Instance version_lt_dec a b : Decision (version_lt a b).
Proof. unfold version_lt. apply _. Defined.

Lemma version_total a b : version_le a b \/ version_lt b a.
Proof. destruct a, b. unfold version_le, version_lt. simpl. destruct (Ztrichotomy z z1) as [|[->|]];
  destruct (Ztrichotomy z0 z2) as [|[->|]]; intuition lia. Qed.

#[export] Instance version_le_po : PartialOrder version_le.
Proof.
  unfold version_le, version_lt. split; [split|].
  - intros a. by left.
  - intros [a1 a2] [b1 b2] [c1 c2]. simpl. intros [[= -> ->]|H1] [[= -> ->]|H2]; auto. right. lia.
  - intros [a1 a2] [b1 b2]. simpl. intros [[= -> ->]|H1] [E|H2]; auto. lia.
Qed.

Lemma supersedes_iff a b : state_supersedes a b = true <-> NodeState_rank b < NodeState_rank a.
Proof. unfold state_supersedes. rewrite bool_decide_eq_true. lia. Qed.

(** What a node's record says, without the clock and the data port. *)
Definition view (m : members) : gmap NodeId (NodeState * Z) := (fun n => (state n, incarnation n)) <$> m.

(** [update_state] writes iff the new version is higher. *)
Lemma update_state_eq now m id st inc :
  update_state now m id st inc =
    match m !! id with
    | Some n => if decide (version_lt (version_of n) (inc, NodeState_rank st))
                then let m := <[id := set_state n st inc now]> m in (true, m, notify m id)
                else (false, m, None)
    | None => (false, m, None)
    end.
Proof.
  unfold update_state. destruct (m !! id) as [n|]; [|done].
  unfold version_lt, version_of. simpl.
  repeat case_decide; rewrite ?supersedes_iff in *; try lia; try done.
  by destruct_and?; subst.
Qed.

Lemma add_node_eq m info :
  add_node m info =
    let m' := <[id info := info]> m in
    match m !! id info with
    | Some old => if decide (version_lt (version_of old) (version_of info))
                  then (true, m', notify m' (id info)) else (false, m, None)
    | None => (true, m', notify m' (id info))
    end.
Proof.
  unfold add_node. destruct (m !! id info) as [old|]; [|done].
  unfold version_lt, version_of. simpl. repeat case_decide; try done;
  rewrite supersedes_iff in *; lia.
Qed.

(** ** Records only move forward *)

(** [m'] knows every node of [m], at least as recently. *)
Definition members_le (m m' : members) : Prop :=
  forall x n, m !! x = Some n ->
    exists n', m' !! x = Some n' /\ version_le (version_of n) (version_of n') /\
      (version_of n = version_of n' -> n = n').

Lemma members_le_refl m : members_le m m.
Proof. intros x n H. exists n. split; [done|]. split; [by left|done]. Qed.

Lemma members_le_trans m1 m2 m3 : members_le m1 m2 -> members_le m2 m3 -> members_le m1 m3.
Proof.
  intros H1 H2 x n Hn. destruct (H1 x n Hn) as (n' & Hn' & L1 & E1).
  destruct (H2 x n' Hn') as (n'' & Hn'' & L2 & E2). exists n''. split; [done|].
  split; [by etransitivity|]. intros E. rewrite E in L1.
  assert (version_of n'' = version_of n') as E' by (by apply (anti_symm version_le)).
  rewrite E1 by congruence. by apply E2.
Qed.

Lemma members_le_insert m x n :
  (forall old, m !! x = Some old -> version_lt (version_of old) (version_of n)) ->
  members_le m (<[x := n]> m).
Proof.
  intros H y old Hy. destruct (decide (x = y)) as [->|Hne].
  - rewrite lookup_insert_eq. exists n. specialize (H old Hy). split; [done|].
    split; [by right|]. intros E. rewrite E in H. unfold version_lt in H. lia.
  - rewrite lookup_insert_ne by done. exists old. split; [done|]. split; [by left|done].
Qed.

Lemma update_state_le now m x st inc : members_le m (update_state now m x st inc).1.2.
Proof.
  rewrite update_state_eq. destruct (m !! x) as [n|] eqn:E; [|apply members_le_refl].
  case_decide; [|apply members_le_refl]. simpl. apply members_le_insert. naive_solver.
Qed.

Lemma add_node_le m info : members_le m (add_node m info).1.2.
Proof.
  rewrite add_node_eq. simpl. destruct (m !! id info) as [n|] eqn:E.
  - case_decide; [|apply members_le_refl]. simpl. apply members_le_insert. naive_solver.
  - simpl. apply members_le_insert. naive_solver.
Qed.

(** The table is keyed by the ids in the records. *)
Definition members_wf (m : members) : Prop := forall x n, m !! x = Some n -> id n = x.

Lemma update_state_wf now m x st inc : members_wf m -> members_wf (update_state now m x st inc).1.2.
Proof.
  intros Hwf. rewrite update_state_eq. destruct (m !! x) as [n|] eqn:E; [|done].
  case_decide; [|done]. simpl. intros y n' [[<- <-]|[_ Hy]]%lookup_insert_Some; [|by apply Hwf].
  simpl. by apply Hwf.
Qed.

Lemma add_node_wf m info : members_wf m -> members_wf (add_node m info).1.2.
Proof.
  intros Hwf. rewrite add_node_eq. simpl.
  assert (members_wf (<[id info := info]> m)) as H.
  { intros y n' [[<- <-]|[_ Hy]]%lookup_insert_Some; [done|by apply Hwf]. }
  destruct (m !! id info); [case_decide|]; done.
Qed.

(** ** Merging is order-independent *)

Definition claim : Type := NodeState * Z.
Definition claim_version (c : claim) : version := (c.2, NodeState_rank c.1).

Definition merge_claim (V : gmap NodeId claim) (o : NodeId * claim) : gmap NodeId claim :=
  match V !! o.1 with
  | Some c => if decide (version_lt (claim_version c) (claim_version o.2)) then <[o.1 := o.2]> V else V
  | None => V
  end.

Lemma claim_version_inj c c' : claim_version c = claim_version c' -> c = c'.
Proof. destruct c, c'. unfold claim_version. simpl. intros [= -> E%(inj NodeState_rank)]. by subst. Qed.

Lemma view_update_state now m x st inc :
  view (update_state now m x st inc).1.2 = merge_claim (view m) (x, (st, inc)).
Proof.
  rewrite update_state_eq. unfold merge_claim, view. simpl. rewrite lookup_fmap.
  destruct (m !! x) as [n|] eqn:E; simpl; [|done].
  change (claim_version (state n, incarnation n)) with (version_of n).
  change (claim_version (st, inc)) with (inc, NodeState_rank st).
  case_decide; [|done]. simpl. by rewrite fmap_insert.
Qed.

Lemma view_add_node m info :
  is_Some (m !! id info) ->
  view (add_node m info).1.2 = merge_claim (view m) (id info, (state info, incarnation info)).
Proof.
  intros [n E]. rewrite add_node_eq. unfold merge_claim, view. simpl. rewrite lookup_fmap, E. simpl.
  change (claim_version (state n, incarnation n)) with (version_of n).
  change (claim_version (state info, incarnation info)) with (version_of info).
  case_decide; [|done]. simpl. by rewrite fmap_insert.
Qed.

(** After any list of claims a known node has the highest version offered. *)
Lemma merge_claims_spec l V x c :
  V !! x = Some c ->
  exists c', foldl merge_claim V l !! x = Some c' /\ (c' = c \/ (x, c') ∈ l) /\
    version_le (claim_version c) (claim_version c') /\
    forall d, (x, d) ∈ l -> version_le (claim_version d) (claim_version c').
Proof.
  revert V c. induction l as [|[y d] l IH]; intros V c Hc; simpl.
  { exists c. split; [done|]. split; [by left|]. split; [by left|set_solver]. }
  unfold merge_claim at 2. simpl.
  assert (exists c1, merge_claim V (y, d) !! x = Some c1 /\ (c1 = c \/ (x, c1) = (y, d)) /\
    version_le (claim_version c) (claim_version c1) /\
    (x = y -> version_le (claim_version d) (claim_version c1))) as (c1 & H1 & H2 & H3 & H4).
  { unfold merge_claim. simpl. destruct (decide (x = y)) as [->|Hne].
    - rewrite Hc. case_decide as Hlt.
      + rewrite lookup_insert_eq. exists d. split; [done|]. split; [by right|]. split; [by right|by left].
      + exists c. split; [done|]. split; [by left|]. split; [by left|]. intros _.
        by destruct (version_total (claim_version d) (claim_version c)).
    - exists c. split; [|split; [by left|split; [by left|done]]].
      destruct (V !! y); [|done]. case_decide; [|done]. by rewrite lookup_insert_ne. }
  destruct (IH _ _ H1) as (c' & E & Hin & Hle & Hall). exists c'. split; [exact E|].
  split; [|split; [by etransitivity|]].
  - destruct Hin as [->|]; [|right; set_solver]. destruct H2 as [->|E2]; [by left|].
    right. rewrite E2. set_solver.
  - intros d' [[= <- <-]|Hd]%elem_of_cons; [|by apply Hall]. etransitivity; [by apply H4|done].
Qed.

Lemma merge_claims_unknown l V x : V !! x = None -> foldl merge_claim V l !! x = None.
Proof.
  revert V. induction l as [|[y d] l IH]; intros V Hx; simpl; [done|]. apply IH.
  unfold merge_claim. simpl. destruct (V !! y) eqn:E; [|done]. case_decide; [|done].
  rewrite lookup_insert_ne; [done|]. intros ->. congruence.
Qed.

Lemma merge_claims_converge l1 l2 V :
  (forall o, o ∈ l1 <-> o ∈ l2) -> foldl merge_claim V l1 = foldl merge_claim V l2.
Proof.
  intros Hl. apply map_eq. intros x. destruct (V !! x) as [c|] eqn:E.
  - destruct (merge_claims_spec l1 V x c E) as (c1 & -> & Hin1 & Hc1 & Hall1).
    destruct (merge_claims_spec l2 V x c E) as (c2 & -> & Hin2 & Hc2 & Hall2).
    f_equal. apply claim_version_inj, (anti_symm version_le).
    + destruct Hin1 as [->|Hin1]; [done|]. by apply Hall2, Hl.
    + destruct Hin2 as [->|Hin2]; [done|]. by apply Hall1, Hl.
  - by rewrite !merge_claims_unknown.
Qed.

(** [update_state] acts exactly when the node is known and the pair
    (incarnation, state) offered is higher than the recorded one; then the
    record takes both, the callback is called once with the new record, and
    nothing else changes.  Otherwise nothing changes and nothing is called.
    Neither it nor [add_node] ever moves a record backwards. *)
Theorem member_updates_forward now m x st inc info :
  let '(b, m', ev) := update_state now m x st inc in
  (b = true <-> exists n, m !! x = Some n /\ version_lt (version_of n) (inc, NodeState_rank st)) /\
  (b = false -> m' = m /\ ev = None) /\
  (b = true -> exists n', m' !! x = Some n' /\ ev = Some (x, n') /\
     state n' = st /\ incarnation n' = inc /\ last_state_change n' = now) /\
  (forall y, y <> x -> m' !! y = m !! y) /\
  members_le m m' /\ members_le m (add_node m info).1.2.
Proof.
  pose proof (update_state_le now m x st inc) as Hle. pose proof (add_node_le m info) as Hle2.
  rewrite update_state_eq in *. destruct (m !! x) as [n|] eqn:E; [|naive_solver].
  case_decide as Hlt; simpl in *; [|naive_solver].
  unfold notify. rewrite lookup_insert_eq. split; [by split; [eauto|]|]. split; [done|].
  split; [intros _; by eexists|]. split; [|done].
  intros y Hy. by rewrite lookup_insert_ne.
Qed.

(** ** Choosing peers *)

Lemma elem_of_alive_peers m self x :
  x ∈ alive_peers m self <-> x <> self /\ exists n, m !! x = Some n /\ state n = NodeState_Alive.
Proof.
  unfold alive_peers. rewrite list_elem_of_omap. split.
  - intros ([y n] & Hy%elem_of_map_to_list & E). case_decide; simplify_eq/=. naive_solver.
  - intros (Hne & n & Hn & Hs). exists (x, n). rewrite elem_of_map_to_list. split; [done|].
    by rewrite decide_True.
Qed.

Lemma NoDup_alive_peers m self : NoDup (alive_peers m self).
Proof.
  unfold alive_peers. pose proof (NoDup_fst_map_to_list m) as Hnd.
  induction (map_to_list m) as [|[y n] l IH]; [constructor|]. csimpl in *.
  apply NoDup_cons in Hnd as [Hy Hnd]. case_decide; [|by apply IH].
  constructor; [|by apply IH]. rewrite list_elem_of_omap. intros ([z n'] & Hz & E).
  case_decide; simplify_eq/=. apply Hy. apply list_elem_of_fmap. by exists (y, n').
Qed.

(** [random_peer] returns a peer other than the node itself that is
    recorded as alive, and returns none only when there is no such peer;
    [random_peers] returns that many distinct ones, or all of them.  The draw
    and the shuffle are any functions with the documented results: an index in
    the closed range, a permutation. *)
Theorem random_peers_correct (draw : nat -> nat) (shuffle : list NodeId -> list NodeId) m self k :
  (forall hi, draw hi <= hi)%nat -> (forall l, shuffle l ≡ₚ l) ->
  let eligible x := x <> self /\ exists n, m !! x = Some n /\ state n = NodeState_Alive in
  (match random_peer draw m self with
   | Some x => eligible x
   | None => forall x, ~ eligible x
   end) /\
  NoDup (random_peers shuffle m k self) /\
  (forall x, x ∈ random_peers shuffle m k self -> eligible x) /\
  (length (random_peers shuffle m k self) <= k)%nat /\
  ((length (random_peers shuffle m k self) < k)%nat ->
     forall x, eligible x -> x ∈ random_peers shuffle m k self).
Proof.
  intros Hdraw Hsh eligible.
  assert (forall x, x ∈ alive_peers m self <-> eligible x) as Hel by apply elem_of_alive_peers.
  split.
  - unfold random_peer. case_decide as E.
    + intros x. rewrite <- Hel, E. set_solver.
    + destruct (alive_peers m self !! draw _) as [x|] eqn:Ex.
      * apply Hel. by eapply list_elem_of_lookup_2.
      * apply lookup_ge_None in Ex. specialize (Hdraw (length (alive_peers m self) - 1)%nat).
        destruct (alive_peers m self); [done|]. simpl in *. lia.
  - pose proof (NoDup_alive_peers m self) as Hnd. unfold random_peers. case_decide as Hk.
    + split; [done|]. split; [apply Hel|]. split; [lia|]. intros _. apply Hel.
    + rewrite <- (Hsh (alive_peers m self)) in Hnd.
      split; [by eapply sublist_NoDup, sublist_take|].
      pose proof (Permutation_length (Hsh (alive_peers m self))) as Hl.
      split; [|rewrite length_take; lia]. intros x Hx. apply Hel. rewrite <- (Hsh (alive_peers m self)).
      rewrite <- (take_drop k (shuffle _)). apply elem_of_app. by left.
Qed.

Definition demo_members : members :=
  <[mkNodeId (lit "a") 1 := mkNodeInfo (mkNodeId (lit "a") 1) 11211 NodeState_Alive 0 0]>
  (<[mkNodeId (lit "b") 1 := mkNodeInfo (mkNodeId (lit "b") 1) 11211 NodeState_Suspect 0 0]> ∅).

Lemma random_peers_correct_witness :
  random_peer (fun hi => hi) demo_members (mkNodeId (lit "b") 1) = Some (mkNodeId (lit "a") 1) /\
  NoDup (random_peers (fun l => l) demo_members 3 (mkNodeId (lit "b") 1)).
Proof.
  split; [vm_compute; reflexivity|].
  exact (proj1 (proj2 (random_peers_correct (fun hi => hi) (fun l => l) demo_members (mkNodeId (lit "b") 1) 3
    (fun hi => Nat.le_refl hi) (fun l => Permutation_refl l)))).
Defined.
