(* ===== verification/Disseminator.v ===== *)
(** * The disseminator ([src/src/membership/disseminator.{h,cpp}])

    The queue of updates to piggyback on outgoing messages, each with the
    number of times it has been sent. *)

From S2P Require Import Prelude NodeInfo SwimMessage.

Local Open Scope Z_scope.

Record Entry := mkEntry {
  update : MembershipUpdate;
  transmit_count : Z   (* uint32_t *)
}.

#[export] Instance Entry_eq_dec : EqDecision Entry.
Proof. solve_decision. Defined.

Record Disseminator := mkDisseminator {
  max_transmissions_ : Z;   (* size_t *)
  queue_ : list Entry
}.

Definition Disseminator_new (max_transmissions : Z) : Disseminator :=
  mkDisseminator max_transmissions [].

(** The default argument of the constructor. *)
Definition default_max_transmissions : Z := 10.

(** The pass over the queue: the first entry of the node is replaced or kept,
    otherwise the update is appended. *)
Fixpoint enqueue_list (q : list Entry) (u : MembershipUpdate) : list Entry :=
  match q with
  | [] => [mkEntry u 0]
  | e :: q =>
      if decide (upd_node (update e) = upd_node u) then
        if decide (upd_incarnation u > upd_incarnation (update e) \/
                   (upd_incarnation u = upd_incarnation (update e) /\
                    UpdateType_val (upd_type u) > UpdateType_val (upd_type (update e))))
        then mkEntry u 0 :: q
        else e :: q
      else e :: enqueue_list q u
  end.

Definition enqueue (d : Disseminator) (u : MembershipUpdate) : Disseminator :=
  mkDisseminator (max_transmissions_ d) (enqueue_list (queue_ d) u).

Definition bump (e : Entry) : Entry := mkEntry (update e) (u32 (transmit_count e + 1)).

Definition pending (d : Disseminator) : nat := length (queue_ d).

(** What [std::sort] promises: a permutation, ordered by the comparison; equal
    elements may come in any order. *)
Class StdSort (sort : list Entry -> list Entry) : Prop := {
  sort_perm l : sort l ≡ₚ l;
  sort_sorted l : StronglySorted (fun a b => transmit_count a <= transmit_count b) (sort l)
}.

Section Operations.
Context (sort : list Entry -> list Entry).

Definition get_updates (d : Disseminator) (limit : nat) : list MembershipUpdate * Disseminator :=
  let queue := sort (queue_ d) in
  let count := Nat.min limit (length queue) in
  let result := update <$> take count queue in
  let queue := (bump <$> take count queue) ++ drop count queue in
  (result, mkDisseminator (max_transmissions_ d)
             (filter (fun e => ~ transmit_count e >= max_transmissions_ d) queue)).
End Operations.

(** ** The invariant: one entry per node, no entry used up *)

Definition entry_node (e : Entry) : NodeId := upd_node (update e).

Record diss_inv (d : Disseminator) : Prop := {
  di_max : 0 < max_transmissions_ d < 2 ^ 32;
  di_nodup : NoDup (entry_node <$> queue_ d);
  di_count : Forall (fun e => 0 <= transmit_count e < max_transmissions_ d) (queue_ d)
}.

Lemma diss_inv_new max : 0 < max < 2 ^ 32 -> diss_inv (Disseminator_new max).
Proof. intros H. split; [done|constructor|constructor]. Qed.

(** The update recorded for a node. *)
Definition pending_for (q : list Entry) (x : NodeId) : option Entry :=
  snd <$> list_find (fun e => entry_node e = x) q.

(** The order in which updates replace one another. *)
Definition update_newer (u v : MembershipUpdate) : Prop :=
  upd_incarnation u > upd_incarnation v \/
  (upd_incarnation u = upd_incarnation v /\ UpdateType_val (upd_type u) > UpdateType_val (upd_type v)).

#[export] Instance update_newer_dec u v : Decision (update_newer u v).
Proof. unfold update_newer. apply _. Defined.

Lemma enqueue_nodes q u :
  entry_node <$> enqueue_list q u =
    if decide (upd_node u ∈ entry_node <$> q) then entry_node <$> q else (entry_node <$> q) ++ [upd_node u].
Proof.
  induction q as [|e q IH]; csimpl; [done|].
  change (upd_node (update e)) with (entry_node e).
  destruct (decide (entry_node e = upd_node u)) as [E|E].
  - rewrite (decide_True (P := upd_node u ∈ entry_node e :: (entry_node <$> q)))
      by (apply elem_of_cons; by left).
    clear IH. case_decide; csimpl; [by rewrite E|done].
  - csimpl. rewrite IH.
    assert (upd_node u ∈ entry_node e :: (entry_node <$> q) <-> upd_node u ∈ entry_node <$> q) as Hi.
    { rewrite elem_of_cons. naive_solver. }
    repeat case_decide; naive_solver.
Qed.

Lemma enqueue_inv d u : diss_inv d -> diss_inv (enqueue d u).
Proof.
  intros [Hm Hn Hc]. split; [done| |].
  - simpl. rewrite enqueue_nodes. case_decide; [done|]. apply NoDup_app.
    split; [done|]. split; [set_solver|apply NoDup_singleton].
  - simpl. clear Hn. induction Hc as [|e q He Hc IH]; simpl.
    { apply Forall_singleton. simpl. lia. }
    repeat case_decide; constructor; simpl; auto; lia.
Qed.

Lemma pending_for_enqueue q u x :
  pending_for (enqueue_list q u) x =
    if decide (x = upd_node u) then
      match pending_for q x with
      | Some e => if decide (update_newer u (update e)) then Some (mkEntry u 0) else Some e
      | None => Some (mkEntry u 0)
      end
    else pending_for q x.
Proof.
  unfold pending_for. induction q as [|e q IH]; simpl.
  - unfold entry_node. simpl. repeat case_decide; naive_solver.
  - unfold update_newer in *. unfold entry_node in *. repeat (case_decide; simplify_eq/=); try done.
    all: try (destruct (list_find _ (enqueue_list q u)) as [[]|], (list_find _ q) as [[]|]; simpl in *; naive_solver).
Qed.

(** ** Transmissions are rationed *)

(** How often the entries of the nodes in [P] may still be sent. *)
Definition budget (P : NodeId -> Prop) `{!forall x, Decision (P x)} (d : Disseminator) : nat :=
  sum_list_with (fun e => if decide (P (entry_node e))
                          then Z.to_nat (max_transmissions_ d - transmit_count e) else 0%nat) (queue_ d).

Definition occurrences (P : NodeId -> Prop) `{!forall x, Decision (P x)} (us : list MembershipUpdate) : nat :=
  length (filter (fun u => P (upd_node u)) us).

Section Rationing.
Context (sort : list Entry -> list Entry) `{!StdSort sort}.

(** The queue before the exhausted entries are erased. *)
Definition sent_queue (d : Disseminator) (limit : nat) : list Entry :=
  let queue := sort (queue_ d) in
  let count := Nat.min limit (length queue) in
  (bump <$> take count queue) ++ drop count queue.

Lemma sorted_inv d : diss_inv d -> Forall (fun e => 0 <= transmit_count e < max_transmissions_ d) (sort (queue_ d)).
Proof. intros [_ _ Hc]. by rewrite sort_perm. Qed.

Lemma bump_count d e :
  diss_inv d -> 0 <= transmit_count e < max_transmissions_ d -> transmit_count (bump e) = transmit_count e + 1.
Proof. intros [Hm _ _] He. simpl. apply wrap_small. unfold in_width. lia. Qed.

Lemma sent_queue_nodes d limit : entry_node <$> sent_queue d limit = entry_node <$> sort (queue_ d).
Proof.
  unfold sent_queue. rewrite fmap_app, <- list_fmap_compose.
  set (n := Nat.min limit _). transitivity (entry_node <$> take n (sort (queue_ d)) ++ drop n (sort (queue_ d))).
  - by rewrite fmap_app.
  - by rewrite take_drop.
Qed.

Lemma get_updates_inv d limit : diss_inv d -> diss_inv (get_updates sort d limit).2.
Proof.
  intros Hinv. pose proof (sorted_inv d Hinv) as Hs. split; [apply Hinv| |].
  - change (queue_ (get_updates sort d limit).2) with
      (filter (fun e => ~ transmit_count e >= max_transmissions_ d) (sent_queue d limit)).
    eapply sublist_NoDup; [|apply fmap_sublist, sublist_filter].
    rewrite sent_queue_nodes, sort_perm. apply Hinv.
  - simpl. apply Forall_forall. intros e [He Hin]%list_elem_of_filter.
    apply elem_of_app in Hin as [(e' & -> & Hin)%list_elem_of_fmap|Hin].
    + apply Forall_take with (n := Nat.min limit (length (sort (queue_ d)))) in Hs.
      rewrite Forall_forall in Hs. specialize (Hs e' Hin). rewrite (bump_count d) in * by done. lia.
    + apply Forall_drop with (n := Nat.min limit (length (sort (queue_ d)))) in Hs.
      rewrite Forall_forall in Hs. specialize (Hs e Hin). lia.
Qed.

Section Budget.
Context (P : NodeId -> Prop) `{!forall x, Decision (P x)} (d : Disseminator) (Hinv : diss_inv d).

Let weight (e : Entry) : nat :=
  if decide (P (entry_node e)) then Z.to_nat (max_transmissions_ d - transmit_count e) else 0%nat.

Lemma weight_filter q :
  sum_list_with weight (filter (fun e => ~ transmit_count e >= max_transmissions_ d) q) = sum_list_with weight q.
Proof.
  induction q as [|e q IH]; [done|]. rewrite filter_cons. case_decide; simpl; [lia|].
  rewrite IH. unfold weight at 2. case_decide; lia.
Qed.

Lemma weight_bump q :
  Forall (fun e => 0 <= transmit_count e < max_transmissions_ d) q ->
  (sum_list_with weight (bump <$> q) + occurrences P (update <$> q) = sum_list_with weight q)%nat.
Proof.
  unfold occurrences. induction 1 as [|e q He Hq IH]; [done|]. csimpl.
  rewrite filter_cons. unfold weight at 1 3. rewrite (bump_count d e Hinv He).
  change (entry_node (bump e)) with (entry_node e). change (upd_node (update e)) with (entry_node e).
  case_decide; simpl; lia.
Qed.

Lemma get_updates_budget limit :
  (budget P (get_updates sort d limit).2 + occurrences P (get_updates sort d limit).1 = budget P d)%nat.
Proof.
  unfold budget. change (max_transmissions_ (get_updates sort d limit).2) with (max_transmissions_ d).
  fold weight. change (queue_ (get_updates sort d limit).2) with
    (filter (fun e => ~ transmit_count e >= max_transmissions_ d) (sent_queue d limit)).
  rewrite weight_filter. unfold sent_queue. simpl. set (n := Nat.min limit _).
  assert (sum_list_with weight (queue_ d) = sum_list_with weight (sort (queue_ d))) as -> by (by rewrite sort_perm).
  rewrite sum_list_with_app.
  pose proof (weight_bump (take n (sort (queue_ d)))
    (Forall_take _ _ _ (sorted_inv d Hinv))) as Hb.
  assert (sum_list_with weight (sort (queue_ d)) = sum_list_with weight (take n (sort (queue_ d))) +
          sum_list_with weight (drop n (sort (queue_ d))))%nat by (by rewrite <- sum_list_with_app, take_drop).
  lia.
Qed.
End Budget.

(** Which entries are sent: as many as asked for, the least transmitted. *)
Lemma get_updates_least d limit :
  length (get_updates sort d limit).1 = Nat.min limit (pending d) /\
  (forall e e', e ∈ queue_ d -> e' ∈ queue_ d -> diss_inv d ->
     update e ∈ (get_updates sort d limit).1 -> update e' ∉ (get_updates sort d limit).1 ->
     transmit_count e <= transmit_count e').
Proof.
  unfold get_updates. simpl. rewrite length_fmap, length_take, sort_perm. split; [unfold pending; lia|].
  set (n := Nat.min limit _). intros e e' He He' Hinv (e1 & E1 & H1)%list_elem_of_fmap Hn.
  assert (forall a b, a ∈ queue_ d -> b ∈ queue_ d -> update a = update b -> a = b) as Hinj.
  { intros a b [i Ha]%list_elem_of_lookup [j Hb]%list_elem_of_lookup E.
    assert (i = j) as ->; [|congruence].
    eapply (NoDup_lookup (entry_node <$> queue_ d)); [apply Hinv|..]; rewrite list_lookup_fmap.
    - by rewrite Ha.
    - rewrite Hb. simpl. unfold entry_node. by rewrite E. }
  assert (e1 ∈ sort (queue_ d)) as Hs1.
  { rewrite <- (take_drop n (sort (queue_ d))). apply elem_of_app. by left. }
  assert (e = e1) as -> by (apply Hinj; [done|by rewrite <- (sort_perm (queue_ d))|done]).
  assert (e' ∈ drop n (sort (queue_ d))) as H2.
  { rewrite <- (sort_perm (queue_ d)), <- (take_drop n (sort (queue_ d))) in He'.
    apply elem_of_app in He' as [Ht|]; [|done]. destruct Hn. apply list_elem_of_fmap. eauto. }
  pose proof (sort_sorted (queue_ d)) as Hsort. rewrite <- (take_drop n (sort (queue_ d))) in Hsort.
  by eapply StronglySorted_app_1_elem_of in Hsort.
Qed.
End Rationing.

#[global] Arguments get_updates : simpl never.

(** [n] calls of [get_updates] in a row. *)
Fixpoint rounds (sort : list Entry -> list Entry) (n : nat) (d : Disseminator) (limit : nat)
  : list MembershipUpdate * Disseminator :=
  match n with
  | O => ([], d)
  | S n =>
      let '(us, d) := get_updates sort d limit in
      let '(us', d) := rounds sort n d limit in
      (us ++ us', d)
  end.

Lemma occurrences_app (P : NodeId -> Prop) `{!forall x, Decision (P x)} us us' :
  occurrences P (us ++ us') = (occurrences P us + occurrences P us')%nat.
Proof. unfold occurrences. by rewrite filter_app, length_app. Qed.

Section Rounds.
Context (sort : list Entry -> list Entry) `{!StdSort sort}.

Lemma rounds_budget n d limit (P : NodeId -> Prop) `{!forall x, Decision (P x)} :
  diss_inv d ->
  (budget P (rounds sort n d limit).2 + occurrences P (rounds sort n d limit).1 = budget P d)%nat.
Proof.
  revert d. induction n as [|n IH]; intros d Hinv; cbn [rounds]; [unfold occurrences; simpl; lia|].
  pose proof (get_updates_budget sort P d Hinv limit) as Hb.
  pose proof (get_updates_inv sort d limit Hinv) as Hinv'.
  destruct (get_updates sort d limit) as [us d1]. simpl in *. specialize (IH d1 Hinv').
  destruct (rounds sort n d1 limit) as [us' d2]. simpl in *. rewrite occurrences_app. lia.
Qed.

Lemma budget_pending d : diss_inv d -> (pending d <= budget (fun _ => True) d)%nat.
Proof.
  intros [_ _ Hc]. unfold pending, budget. induction Hc as [|e q He Hc IH]; simpl in *; [done|].
  lia.
Qed.

Lemma occurrences_all us : occurrences (fun _ => True) us = length us.
Proof.
  unfold occurrences. induction us as [|u us IH]; [done|].
  rewrite filter_cons, decide_True by done. simpl. lia.
Qed.

Lemma rounds_drain n d limit :
  diss_inv d -> (0 < limit)%nat -> (budget (fun _ => True) d <= n)%nat -> queue_ (rounds sort n d limit).2 = [].
Proof.
  revert d. induction n as [|n IH]; intros d Hinv Hl Hb; cbn [rounds].
  - pose proof (budget_pending d Hinv). simpl. apply nil_length_inv. unfold pending in *. lia.
  - pose proof (get_updates_budget sort (fun _ => True) d Hinv limit) as Hg.
    rewrite occurrences_all in Hg.
    pose proof (get_updates_inv sort d limit Hinv) as Hinv'.
    destruct (get_updates_least sort d limit) as [Hlen _].
    destruct (get_updates sort d limit) as [us d1]. simpl in *.
    assert (queue_ (rounds sort n d1 limit).2 = []) as E.
    { destruct (decide (pending d = 0%nat)) as [E0|]; [|apply IH; [done|done|lia]].
      destruct (decide (budget (fun _ => True) d1 <= n)%nat); [by apply IH|].
      assert (budget (fun _ => True) d = 0%nat); [|lia]. unfold budget, pending in *.
      by rewrite (nil_length_inv _ E0). }
    by destruct (rounds sort n d1 limit).
Qed.
End Rounds.

(** enqueueing keeps one entry per node: the queue holds for each node the
    newest update offered (incarnation first, then type), with its count reset
    when it was replaced, and other nodes' entries are untouched. *)
Theorem enqueue_newest d u x :
  diss_inv d ->
  diss_inv (enqueue d u) /\
  pending_for (queue_ (enqueue d u)) x =
    if decide (x = upd_node u) then
      match pending_for (queue_ d) x with
      | Some e => if decide (update_newer u (update e)) then Some (mkEntry u 0) else Some e
      | None => Some (mkEntry u 0)
      end
    else pending_for (queue_ d) x.
Proof. intros Hinv. split; [by apply enqueue_inv|apply pending_for_enqueue]. Qed.

Definition demo_update (t : UpdateType) (inc : Z) : MembershipUpdate :=
  mkUpdate t (mkNodeId (lit "10.0.0.3") 7946) inc 0.

Definition demo_diss : Disseminator :=
  enqueue (Disseminator_new default_max_transmissions) (demo_update Suspect 0).

Lemma demo_diss_inv : diss_inv demo_diss.
Proof. apply enqueue_inv, diss_inv_new. by compute. Qed.

Lemma enqueue_newest_witness :
  pending_for (queue_ (enqueue demo_diss (demo_update Alive 1))) (mkNodeId (lit "10.0.0.3") 7946) =
    Some (mkEntry (demo_update Alive 1) 0).
Proof.
  rewrite (proj2 (enqueue_newest demo_diss (demo_update Alive 1) (mkNodeId (lit "10.0.0.3") 7946) demo_diss_inv)).
  vm_compute. reflexivity.
Defined.

(** C37: [get_updates] returns as many updates as asked for and available, the
    least transmitted ones; and every queued update is transmitted exactly its
    remaining number of times: with nothing new enqueued, enough calls empty
    the queue, and by then each node's update has gone out
    [max_transmissions - transmit_count] times.  This holds for every order
    [std::sort] may give to equal counts. *)
Theorem disseminator_rations (sort : list Entry -> list Entry) d limit x :
  StdSort sort -> diss_inv d -> (0 < limit)%nat ->
  length (get_updates sort d limit).1 = Nat.min limit (pending d) /\
  (forall e e', e ∈ queue_ d -> e' ∈ queue_ d ->
     update e ∈ (get_updates sort d limit).1 -> update e' ∉ (get_updates sort d limit).1 ->
     transmit_count e <= transmit_count e') /\
  exists n, pending (rounds sort n d limit).2 = 0%nat /\
    occurrences (fun y => y = x) (rounds sort n d limit).1 = budget (fun y => y = x) d.
Proof.
  intros Hsort Hinv Hl. destruct (get_updates_least sort d limit) as [H1 H2].
  split; [done|]. split; [by auto|].
  exists (budget (fun _ => True) d).
  pose proof (rounds_drain sort (budget (fun _ => True) d) d limit Hinv Hl (Nat.le_refl _)) as E.
  pose proof (rounds_budget sort (budget (fun _ => True) d) d limit (fun y => y = x) Hinv) as Hb.
  unfold pending. rewrite E. split; [done|]. rewrite <- Hb. unfold budget at 2. by rewrite E.
Qed.

Definition count_le (a b : Entry) : Prop := transmit_count a <= transmit_count b.

#[export] Instance count_le_dec : RelDecision count_le.
Proof. intros a b. unfold count_le. apply _. Defined.

Definition count_sort : list Entry -> list Entry := merge_sort count_le.

#[export] Instance count_sort_std : StdSort count_sort.
Proof.
  assert (Transitive count_le) by (intros a b c; apply Z.le_trans).
  assert (Total count_le) by (intros a b; apply Z.le_ge_cases).
  split; intros l; [apply merge_sort_Permutation|apply (StronglySorted_merge_sort count_le)].
Qed.

Lemma disseminator_rations_witness :
  exists n, pending (rounds count_sort n demo_diss 8).2 = 0%nat /\
    occurrences (fun y => y = mkNodeId (lit "10.0.0.3") 7946) (rounds count_sort n demo_diss 8).1 = 10%nat.
Proof.
  exact (proj2 (proj2 (disseminator_rations count_sort demo_diss 8 (mkNodeId (lit "10.0.0.3") 7946)
    count_sort_std demo_diss_inv ltac:(lia)))).
Defined.
