(* ===== verification/SwimProtocol.v ===== *)
(** * The SWIM protocol ([src/src/membership/swim_protocol.{h,cpp}])

    One node's failure detector and gossip.  The coroutines run on one event
    loop, so the code between two suspension points is one atomic step; each
    such piece is a definition here, and [swim_step] interleaves them in any
    order.  The change callback and what it captures ([env_]) are a parameter,
    as are [std::sort] in the disseminator and the choice of random peers. *)

From stdpp Require Import relations.
From S2P Require Import Prelude NodeInfo SwimMessage MemberList Disseminator.

Local Open Scope Z_scope.

Record Config := mkConfig {
  suspect_timeout : Z;        (* milliseconds *)
  indirect_ping_peers : nat;
  max_piggyback_updates : nat;
  self_data_port : Z          (* uint16_t *)
}.

(** The default member initialisers. *)
Definition default_config : Config := mkConfig 5000 3 8 0.

Record Swim (R : Type) := mkSwim {
  members_ : members;
  disseminator_ : Disseminator;
  env_ : R;
  incarnation_ : Z;           (* uint64_t *)
  seq_counter_ : Z;           (* uint32_t *)
  pending_acks_ : gmap Z bool
}.
Arguments mkSwim {R}.
Arguments members_ {R}.
Arguments disseminator_ {R}.
Arguments env_ {R}.
Arguments incarnation_ {R}.
Arguments seq_counter_ {R}.
Arguments pending_acks_ {R}.

(** A datagram handed to the socket. *)
Record send := mkSend { sent : SwimMessage; dest : NodeId }.

(** The state an update type asks for. *)
Definition new_state (t : UpdateType) : NodeState :=
  match t with
  | Join | Alive => NodeState_Alive
  | Suspect => NodeState_Suspect
  | Dead => NodeState_Dead
  | Leave => NodeState_Left
  end.

Section Protocol.
Context {R : Type} (on_change : R -> NodeId -> NodeInfo -> R).
Context (sort : list Entry -> list Entry).
Context (self_ : NodeId) (config_ : Config).

Implicit Types s : Swim R.

(** A call into the member list, with the callback it triggers. *)
Definition call_members s (r : bool * members * option change) : bool * Swim R :=
  let '(b, m, ev) := r in
  let env := match ev with Some (id, info) => on_change (env_ s) id info | None => env_ s end in
  (b, mkSwim m (disseminator_ s) env (incarnation_ s) (seq_counter_ s) (pending_acks_ s)).

Definition set_disseminator s (d : Disseminator) : Swim R :=
  mkSwim (members_ s) d (env_ s) (incarnation_ s) (seq_counter_ s) (pending_acks_ s).

Definition set_pending s (p : gmap Z bool) : Swim R :=
  mkSwim (members_ s) (disseminator_ s) (env_ s) (incarnation_ s) (seq_counter_ s) p.

Definition enqueue_update s (u : MembershipUpdate) : Swim R :=
  set_disseminator s (enqueue (disseminator_ s) u).

(** [seq_counter_++]. *)
Definition next_seq s : Z * Swim R :=
  (seq_counter_ s,
   mkSwim (members_ s) (disseminator_ s) (env_ s) (incarnation_ s)
     (u32 (seq_counter_ s + 1)) (pending_acks_ s)).

Definition take_updates s : list MembershipUpdate * Swim R :=
  let '(us, d) := get_updates sort (disseminator_ s) (max_piggyback_updates config_) in
  (us, set_disseminator s d).

(** ** Gossip *)

(** The body of the loop of [apply_updates]. *)
Definition apply_update (now : Z) s (u : MembershipUpdate) : Swim R :=
  if decide (upd_node u = self_) then
    if decide (upd_type u = Suspect \/ upd_type u = Dead) then
      let inc := u64 (incarnation_ s + 1) in
      let s := mkSwim (members_ s) (disseminator_ s) (env_ s) inc (seq_counter_ s) (pending_acks_ s) in
      let s := enqueue_update s (mkUpdate Alive self_ inc (self_data_port config_)) in
      (call_members s (update_state now (members_ s) self_ NodeState_Alive inc)).2
    else s
  else if decide (upd_type u = Join \/ upd_type u = Alive) then
    let info := mkNodeInfo (upd_node u) (upd_data_port u) NodeState_Alive (upd_incarnation u) now in
    (call_members s (add_node (members_ s) info)).2
  else
    (call_members s (update_state now (members_ s) (upd_node u) (new_state (upd_type u)) (upd_incarnation u))).2.

Definition apply_updates (now : Z) s (us : list MembershipUpdate) : Swim R := foldl (apply_update now) s us.

(** The data port a message announces for its own sender, 0 if none. *)
Definition announced_port (m : SwimMessage) : Z :=
  match list_find (fun u => upd_node u = sender m /\ upd_data_port u <> 0) (updates m) with
  | Some (_, u) => upd_data_port u
  | None => 0
  end.

(** The first part of [handle_message]: an unknown sender joins. *)
Definition learn_sender (now : Z) s (m : SwimMessage) : Swim R :=
  if decide (sender m <> self_ /\ get_node (members_ s) (sender m) = None) then
    let dp := announced_port m in
    let info := mkNodeInfo (sender m) dp NodeState_Alive 0 now in
    let s := (call_members s (add_node (members_ s) info)).2 in
    enqueue_update s (mkUpdate Join (sender m) 0 dp)
  else s.

Definition on_ping s (m : SwimMessage) : Swim R * list send :=
  let '(us, s) := take_updates s in
  (s, [mkSend (mkSwimMessage Ack (seq_num m) self_ None us) (sender m)]).

Definition on_ack (now : Z) s (m : SwimMessage) : Swim R :=
  let s := match pending_acks_ s !! seq_num m with
           | Some _ => set_pending s (<[seq_num m := true]> (pending_acks_ s))
           | None => s
           end in
  match get_node (members_ s) (sender m) with
  | Some node =>
      if decide (state node = NodeState_Suspect \/ state node = NodeState_Dead) then
        (call_members s (update_state now (members_ s) (sender m) NodeState_Alive (incarnation node))).2
      else s
  | None => s
  end.

(** [relay_ping] up to its first suspension: the sequence number it waits for
    comes with the state. *)
Definition relay_start s (tgt : NodeId) : Z * Swim R * list send :=
  let '(local_seq, s) := next_seq s in
  let s := set_pending s (<[local_seq := false]> (pending_acks_ s)) in
  (local_seq, s, [mkSend (mkSwimMessage Ping local_seq self_ None []) tgt]).

(** [pending_acks_[seq]], which inserts [false] when there is none, and
    [erase(seq)]. *)
Definition take_ack s (seq : Z) : bool * Swim R :=
  (default false (pending_acks_ s !! seq), set_pending s (delete seq (pending_acks_ s))).

(** [relay_ping] after its timeout: it forwards the ack, if there was one. *)
Definition relay_timeout s (requester : NodeId) (orig_seq local_seq : Z) : bool * Swim R * list send :=
  let acked := default false (pending_acks_ s !! local_seq) in
  let s := set_pending s (<[local_seq := acked]> (pending_acks_ s)) in
  (acked, s, if acked : bool then [mkSend (mkSwimMessage Ack orig_seq self_ None []) requester] else []).

(** The end of [relay_ping]. *)
Definition erase_ack s (seq : Z) : Swim R := set_pending s (delete seq (pending_acks_ s)).

(** The coroutines that [spawn] detaches, at their suspension points: sending
    the ack of a ping, and [relay_ping] sending its ping, waiting for the timeout
    and forwarding the ack. *)
Inductive detached :=
  | AckSending
  | RelaySending (requester : NodeId) (orig_seq local_seq : Z)
  | RelayWaiting (requester : NodeId) (orig_seq local_seq : Z)
  | RelayAcking (local_seq : Z)
  | Finished.

Definition on_ping_req s (m : SwimMessage) : Swim R * list send * list detached :=
  match target m with
  | None => (s, [], [])
  | Some tgt =>
      let '(local_seq, s, out) := relay_start s tgt in
      (s, out, [RelaySending (sender m) (seq_num m) local_seq])
  end.

(** The third component is what the handler has spawned. *)
Definition handle_message (now : Z) s (m : SwimMessage) : Swim R * list send * list detached :=
  let s := learn_sender now s m in
  let s := apply_updates now s (updates m) in
  match msg_type m with
  | Ping => let '(s, out) := on_ping s m in (s, out, [AckSending])
  | Ack => (on_ack now s m, [], [])
  | PingReq => on_ping_req s m
  end.

(** The body of [recv_loop] on a datagram. *)
Definition receive (now : Z) s (data : bytes) : Swim R * list send * list detached :=
  match deserialize data with
  | Some m => handle_message now s m
  | None => (s, [], [])
  end.

(** ** Probing *)

(** [direct_ping] up to its timeout. *)
Definition direct_ping_start s (tgt : NodeId) : Z * Swim R * list send :=
  let '(seq, s) := next_seq s in
  let s := set_pending s (<[seq := false]> (pending_acks_ s)) in
  let '(us, s) := take_updates s in
  (seq, s, [mkSend (mkSwimMessage Ping seq self_ None us) tgt]).

(** One iteration of the loop of [indirect_ping] over the relays. *)
Definition indirect_ping_send s (tgt : NodeId) (seq : Z) (relay : NodeId) : Swim R * list send :=
  let '(us, s) := take_updates s in
  (s, [mkSend (mkSwimMessage PingReq seq self_ (Some tgt) us) relay]).

(** [indirect_ping] before the loop: the relays and the sequence number, or
    nothing to ask. *)
Definition indirect_ping_start (shuffle : list NodeId -> list NodeId) s : option (list NodeId * Z * Swim R) :=
  let intermediaries := random_peers shuffle (members_ s) (indirect_ping_peers config_) self_ in
  if decide (intermediaries = []) then None else
  let '(seq, s) := next_seq s in
  Some (intermediaries, seq, set_pending s (<[seq := false]> (pending_acks_ s))).

(** The end of an iteration of [probe_loop] when neither ping was answered. *)
Definition suspect_target (now : Z) s (tgt : NodeId) : Swim R :=
  match get_node (members_ s) tgt with
  | None => s
  | Some node =>
      let '(changed, s) :=
        call_members s (update_state now (members_ s) tgt NodeState_Suspect (incarnation node)) in
      if changed : bool then enqueue_update s (mkUpdate Suspect tgt (incarnation node) 0) else s
  end.

(** ** The reaper *)

(** [duration_cast<milliseconds>(now - since)] on a nanosecond clock. *)
Definition elapsed_ms (now since : Z) : Z := Z.quot (now - since) 1000000.

(** The body of the loop over [all_nodes()]; [now] is read once per pass,
    [clock] by [update_state]. *)
Definition reap_node (now clock : Z) s (p : NodeId * NodeInfo) : Swim R :=
  let '(id, node) := p in
  if decide (id = self_) then s else
  if decide (state node <> NodeState_Suspect) then s else
  if decide (elapsed_ms now (last_state_change node) >= suspect_timeout config_) then
    let '(changed, s) :=
      call_members s (update_state clock (members_ s) id NodeState_Dead (incarnation node)) in
    if changed : bool then enqueue_update s (mkUpdate Dead id (incarnation node) 0) else s
  else s.

(** [update_state] on the node at hand is the only change to the table during
    the pass, so iterating the table as it was reads the same records. *)
Definition reap (now clock : Z) s : Swim R := foldl (reap_node now clock) s (map_to_list (members_ s)).

(** ** Interleavings

    Any piece of any coroutine may run next.  The only thing kept of the
    program counters is that a probe never targets the node itself. *)
Inductive swim_step : Swim R -> list send -> Swim R -> Prop :=
  | step_receive now data s s' out ws :
      receive now s data = (s', out, ws) -> swim_step s out s'
  | step_direct_ping tgt seq s s' out :
      direct_ping_start s tgt = (seq, s', out) -> swim_step s out s'
  | step_indirect_ping shuffle relays seq s s' :
      indirect_ping_start shuffle s = Some (relays, seq, s') -> swim_step s [] s'
  | step_indirect_send tgt seq relay s s' out :
      indirect_ping_send s tgt seq relay = (s', out) -> swim_step s out s'
  | step_ping_timeout seq s : swim_step s [] (take_ack s seq).2
  | step_suspect now tgt s : tgt <> self_ -> swim_step s [] (suspect_target now s tgt)
  | step_relay_timeout requester orig_seq local_seq acked s s' out :
      relay_timeout s requester orig_seq local_seq = (acked, s', out) -> swim_step s out s'
  | step_erase seq s : swim_step s [] (erase_ack s seq)
  | step_reap now clock s : swim_step s [] (reap now clock s).

(** ** What a step can do to the membership

    Every step is a sequence of calls into the member list, each with its
    callback; calls on the node's own record only ever say [Alive]. *)
Definition run_call (mr : members * R) (r : bool * members * option change) : members * R :=
  (r.1.2, match r.2 with Some (id, info) => on_change mr.2 id info | None => mr.2 end).

Inductive member_call : members * R -> members * R -> Prop :=
  | mc_update now x st inc mr :
      (x = self_ -> st = NodeState_Alive) ->
      member_call mr (run_call mr (update_state now mr.1 x st inc))
  | mc_add info mr :
      id info <> self_ -> state info = NodeState_Alive ->
      member_call mr (run_call mr (add_node mr.1 info)).

Definition membership s : members * R := (members_ s, env_ s).

Lemma membership_call s r : membership (call_members s r).2 = run_call (membership s) r.
Proof. destruct r as [[b m] ev]. done. Qed.

Lemma apply_update_calls now s u : rtc member_call (membership s) (membership (apply_update now s u)).
Proof.
  unfold apply_update. repeat case_decide; try done; apply rtc_once; rewrite membership_call.
  - by apply (mc_update now self_ NodeState_Alive (u64 (incarnation_ s + 1)) (membership s)).
  - by apply (mc_add (mkNodeInfo _ _ _ _ _) (membership s)).
  - by apply (mc_update now _ _ _ (membership s)).
Qed.

Lemma apply_updates_calls now s us : rtc member_call (membership s) (membership (apply_updates now s us)).
Proof.
  unfold apply_updates. revert s. induction us as [|u us IH]; intros s; simpl; [done|].
  etransitivity; [apply apply_update_calls|apply IH].
Qed.

Lemma learn_sender_calls now s m : rtc member_call (membership s) (membership (learn_sender now s m)).
Proof.
  unfold learn_sender. case_decide as E; [|done]. destruct E. apply rtc_once.
  change (membership (enqueue_update ?x ?y)) with (membership x).
  rewrite membership_call. by apply (mc_add (mkNodeInfo _ _ _ _ _) (membership s)).
Qed.

Lemma on_ack_calls now s m : rtc member_call (membership s) (membership (on_ack now s m)).
Proof.
  unfold on_ack. set (s1 := match pending_acks_ s !! _ with Some _ => _ | None => _ end).
  assert (membership s1 = membership s) as <- by (subst s1; by case_match).
  destruct (get_node _ _); [|done]. case_decide; [|done]. apply rtc_once. rewrite membership_call.
  by apply (mc_update now _ _ _ (membership s1)).
Qed.

Lemma handle_message_calls now s m : rtc member_call (membership s) (membership (handle_message now s m).1.1).
Proof.
  unfold handle_message. etransitivity; [apply learn_sender_calls|].
  etransitivity; [apply apply_updates_calls|].
  set (s1 := apply_updates now _ _). destruct (msg_type m).
  - unfold on_ping, take_updates. destruct (get_updates _ _ _). apply rtc_refl.
  - apply on_ack_calls.
  - unfold on_ping_req. destruct (target m); apply rtc_refl.
Qed.

Lemma suspect_target_calls now s tgt :
  tgt <> self_ -> rtc member_call (membership s) (membership (suspect_target now s tgt)).
Proof.
  intros Hne. unfold suspect_target. destruct (get_node _ _) as [n|]; [|done].
  pose proof (membership_call s (update_state now (members_ s) tgt NodeState_Suspect (incarnation n))) as E.
  destruct (call_members s _) as [b s']. simpl in E.
  assert (rtc member_call (membership s) (membership s')); [|by destruct b].
  rewrite E. apply rtc_once. by apply (mc_update now _ _ _ (membership s)).
Qed.

Lemma reap_node_calls now clock s p : rtc member_call (membership s) (membership (reap_node now clock s p)).
Proof.
  destruct p as [x n]. unfold reap_node. repeat case_decide; try done.
  pose proof (membership_call s (update_state clock (members_ s) x NodeState_Dead (incarnation n))) as E.
  destruct (call_members s _) as [b s']. simpl in E.
  assert (rtc member_call (membership s) (membership s')); [|by destruct b].
  rewrite E. apply rtc_once. by apply (mc_update clock _ _ _ (membership s)).
Qed.

Lemma swim_step_calls s out s' : swim_step s out s' -> rtc member_call (membership s) (membership s').
Proof.
  destruct 1 as [now data s s' out ws E|tgt seq s s' out E|sh rl seq s s' E|tgt seq rl s s' out E| | |
                 rq os ls acked s s' out E| |now clock s].
  - unfold receive in E. destruct (deserialize data) as [m|]; [|by simplify_eq].
    pose proof (handle_message_calls now s m) as H. by rewrite E in H.
  - unfold direct_ping_start, take_updates in E. simpl in E. simplify_eq. apply rtc_refl.
  - unfold indirect_ping_start in E. case_decide; simplify_eq/=. apply rtc_refl.
  - unfold indirect_ping_send, take_updates in E. destruct (get_updates _ _ _). simplify_eq. apply rtc_refl.
  - apply rtc_refl.
  - by apply suspect_target_calls.
  - unfold relay_timeout in E. simplify_eq/=. apply rtc_refl.
  - apply rtc_refl.
  - unfold reap. generalize (map_to_list (members_ s)). intros l. revert s.
    induction l as [|p l IH]; intros s; simpl; [done|]. etransitivity; [apply reap_node_calls|apply IH].
Qed.

(** ** Invariants of every interleaving *)

Lemma member_call_le mr mr' : member_call mr mr' -> members_le mr.1 mr'.1.
Proof. destruct 1; [apply update_state_le|apply add_node_le]. Qed.

Lemma member_calls_le mr mr' : rtc member_call mr mr' -> members_le mr.1 mr'.1.
Proof.
  induction 1 as [|x y z H _ IH]; [apply members_le_refl|].
  eapply members_le_trans; [by apply member_call_le|done].
Qed.

(** The node's own record says alive. *)
Definition self_alive (m : members) : Prop :=
  exists n, m !! self_ = Some n /\ state n = NodeState_Alive.

Lemma member_call_self mr mr' : member_call mr mr' -> self_alive mr.1 -> self_alive mr'.1.
Proof.
  intros Hc (n & Hn & Hs). destruct Hc as [now x st inc mr Hx|info mr Hne Hst]; simpl.
  - rewrite update_state_eq. destruct (mr.1 !! x) as [o|] eqn:Eo; [|by exists n].
    case_decide; [|by exists n]. simpl. destruct (decide (x = self_)) as [->|].
    + eexists. rewrite lookup_insert_eq. split; [done|]. simpl. by apply Hx.
    + exists n. by rewrite lookup_insert_ne.
  - rewrite add_node_eq. simpl.
    assert (self_alive (<[id info := info]> mr.1)) by (exists n; by rewrite lookup_insert_ne).
    destruct (mr.1 !! id info); [case_decide|]; [done|by exists n|done].
Qed.

Lemma member_calls_self mr mr' : rtc member_call mr mr' -> self_alive mr.1 -> self_alive mr'.1.
Proof. induction 1 as [|x y z H _ IH]; [done|]. intros Hs. by apply IH, (member_call_self x). Qed.
End Protocol.

#[global] Arguments reap_node : simpl never.

Section Facts.
Context {R : Type} (on_change : R -> NodeId -> NodeInfo -> R) (sort : list Entry -> list Entry).
Context (self_ : NodeId) (config_ : Config).
Implicit Types s : Swim R.

(** A gossiped update of a known node other than this one merges its claim. *)
Definition update_claim (u : MembershipUpdate) : NodeId * claim :=
  (upd_node u, (new_state (upd_type u), upd_incarnation u)).

Lemma view_apply_update now s u :
  upd_node u <> self_ -> is_Some (members_ s !! upd_node u) ->
  view (members_ (apply_update on_change self_ config_ now s u)) =
    merge_claim (view (members_ s)) (update_claim u).
Proof.
  intros Hne Hk. unfold apply_update, update_claim. rewrite decide_False by done. case_decide as Ht.
  - pose proof (view_add_node (members_ s)
      (mkNodeInfo (upd_node u) (upd_data_port u) NodeState_Alive (upd_incarnation u) now) Hk) as E.
    destruct (add_node _ _) as [[b m] ev]. simpl in *. rewrite E.
    by destruct Ht as [-> | ->].
  - pose proof (view_update_state now (members_ s) (upd_node u) (new_state (upd_type u)) (upd_incarnation u)) as E.
    by destruct (update_state _ _ _ _ _) as [[b m] ev].
Qed.

Lemma view_apply_updates now s us :
  Forall (fun u => upd_node u <> self_ /\ is_Some (members_ s !! upd_node u)) us ->
  view (members_ (apply_updates on_change self_ config_ now s us)) =
    foldl merge_claim (view (members_ s)) (update_claim <$> us).
Proof.
  unfold apply_updates. revert s. induction us as [|u us IH]; intros s Hf; csimpl; [done|].
  apply Forall_cons in Hf as [[Hne Hk] Hf]. rewrite IH; [by rewrite view_apply_update|].
  eapply Forall_impl; [exact Hf|]. simpl. intros u' [Hne' [n Hn]]. split; [done|].
  pose proof (member_calls_le on_change self_ _ _ (apply_update_calls on_change self_ config_ now s u)) as Hle.
  destruct (Hle _ _ Hn) as (n' & Hn' & _). by exists n'.
Qed.

(** ** The reaper, functionally *)

Definition reaped (now clock : Z) (x : NodeId) (n : NodeInfo) : NodeInfo :=
  if decide (x <> self_ /\ state n = NodeState_Suspect /\
             elapsed_ms now (last_state_change n) >= suspect_timeout config_)
  then set_state n NodeState_Dead (incarnation n) clock else n.

Lemma reap_node_members now clock s x n :
  members_ s !! x = Some n ->
  members_ (reap_node on_change self_ config_ now clock s (x, n)) = <[x := reaped now clock x n]> (members_ s).
Proof.
  intros Hx. unfold reap_node, reaped.
  destruct (decide (x = self_)) as [E1|E1]; [rewrite decide_False by naive_solver; by rewrite insert_id|].
  destruct (decide (state n <> NodeState_Suspect)) as [E2|E2];
    [rewrite decide_False by naive_solver; by rewrite insert_id|].
  assert (state n = NodeState_Suspect) as E2' by (by destruct (decide (state n = NodeState_Suspect))).
  case_decide as E3; [|rewrite decide_False by naive_solver; by rewrite insert_id].
  rewrite decide_True by done. rewrite update_state_eq, Hx.
  rewrite decide_True by (unfold version_lt, version_of; rewrite E2'; simpl; lia). done.
Qed.

Lemma reap_list now clock s l :
  NoDup (l.*1) -> (forall x n, (x, n) ∈ l -> members_ s !! x = Some n) ->
  forall x, members_ (foldl (reap_node on_change self_ config_ now clock) s l) !! x =
    if decide (x ∈ l.*1) then reaped now clock x <$> members_ s !! x else members_ s !! x.
Proof.
  revert s. induction l as [|[y n] l IH]; intros s Hnd Hl x; csimpl; [done|].
  csimpl in Hnd. apply NoDup_cons in Hnd as [Hy Hnd].
  assert (members_ s !! y = Some n) as Hyn by (apply Hl; left).
  pose proof (reap_node_members now clock s y n Hyn) as Em.
  rewrite IH; [|done|].
  - rewrite Em. destruct (decide (x = y)) as [->|Hne].
    + rewrite lookup_insert_eq, Hyn, decide_False by done. rewrite decide_True by set_solver. done.
    + rewrite lookup_insert_ne by done. repeat case_decide; set_solver.
  - intros z n' Hz. rewrite Em, lookup_insert_ne; [apply Hl; by right|].
    intros <-. apply Hy. apply list_elem_of_fmap. by exists (y, n').
Qed.

Lemma reap_members now clock s x :
  members_ (reap on_change self_ config_ now clock s) !! x = reaped now clock x <$> members_ s !! x.
Proof.
  unfold reap. rewrite reap_list.
  - case_decide as Hx; [done|]. destruct (members_ s !! x) as [n|] eqn:E; [|done].
    destruct Hx. apply list_elem_of_fmap. exists (x, n). by rewrite elem_of_map_to_list.
  - apply NoDup_fst_map_to_list.
  - intros y n. by rewrite elem_of_map_to_list.
Qed.
End Facts.

(** ** Properties *)

(** A run: any number of steps in any order. *)
Definition swim_steps {R} (on_change : R -> NodeId -> NodeInfo -> R) (sort : list Entry -> list Entry)
    (self_ : NodeId) (config_ : Config) : Swim R -> Swim R -> Prop :=
  rtc (fun s s' => exists out, swim_step on_change sort self_ config_ s out s').

Lemma swim_steps_calls {R} (on_change : R -> NodeId -> NodeInfo -> R) sort self_ config_ s s' :
  swim_steps on_change sort self_ config_ s s' ->
  rtc (member_call on_change self_) (membership s) (membership s').
Proof.
  induction 1 as [|x y z [out H] _ IH]; [done|].
  etransitivity; [by eapply swim_step_calls|done].
Qed.

(** in every interleaving of the protocol's coroutines, whatever datagrams
    arrive, no record ever moves to a lower (incarnation, state) and no node is
    forgotten, and a node that records itself as alive does so for ever. *)
Theorem swim_forward {R} (on_change : R -> NodeId -> NodeInfo -> R) sort self_ config_ s s' :
  swim_steps on_change sort self_ config_ s s' ->
  members_le (members_ s) (members_ s') /\
  (self_alive self_ (members_ s) -> self_alive self_ (members_ s')).
Proof.
  intros H%swim_steps_calls. split.
  - by apply (member_calls_le on_change self_ _ _ H).
  - by apply (member_calls_self on_change self_ _ _ H).
Qed.

Definition id_a : NodeId := mkNodeId (lit "10.0.0.1") 7946.
Definition id_b : NodeId := mkNodeId (lit "10.0.0.2") 7946.
Definition id_c : NodeId := mkNodeId (lit "10.0.0.3") 7946.

Definition no_callback (r : unit) (id : NodeId) (info : NodeInfo) : unit := r.

(** A node [a] that knows [b] and [c]. *)
Definition demo_swim : Swim unit :=
  mkSwim (<[id_a := mkNodeInfo id_a 11211 NodeState_Alive 0 0]>
         (<[id_b := mkNodeInfo id_b 11211 NodeState_Alive 0 0]>
         (<[id_c := mkNodeInfo id_c 11211 NodeState_Suspect 0 0]> ∅)))
    (Disseminator_new default_max_transmissions) tt 0 0 ∅.

Lemma swim_forward_witness :
  self_alive id_a (members_ (suspect_target no_callback 1 demo_swim id_b)) /\
  state <$> members_ (suspect_target no_callback 1 demo_swim id_b) !! id_b = Some NodeState_Suspect.
Proof.
  split; [|vm_compute; reflexivity].
  refine (proj2 (swim_forward no_callback count_sort id_a default_config demo_swim
    (suspect_target no_callback 1 demo_swim id_b) _) _).
  - apply rtc_once. exists []. apply step_suspect. vm_compute. discriminate.
  - exists (mkNodeInfo id_a 11211 NodeState_Alive 0 0). split; vm_compute; reflexivity.
Defined.

(** C10: gossip converges: two nodes that agree on the states and incarnations
    of their members, and receive the same updates about known third nodes, in
    any order, any number of times and at any time, agree again. *)
Theorem gossip_converges {R1 R2} (cb1 : R1 -> NodeId -> NodeInfo -> R1) (cb2 : R2 -> NodeId -> NodeInfo -> R2)
    self1 self2 cfg1 cfg2 now1 now2 s1 s2 us1 us2 :
  view (members_ s1) = view (members_ s2) ->
  (forall u, u ∈ us1 <-> u ∈ us2) ->
  (forall u, u ∈ us1 -> upd_node u <> self1 /\ upd_node u <> self2 /\ is_Some (members_ s1 !! upd_node u)) ->
  view (members_ (apply_updates cb1 self1 cfg1 now1 s1 us1)) =
  view (members_ (apply_updates cb2 self2 cfg2 now2 s2 us2)).
Proof.
  intros Hv Hus Hk. rewrite !view_apply_updates.
  - rewrite Hv. apply merge_claims_converge. intros o. rewrite !list_elem_of_fmap. naive_solver.
  - apply Forall_forall. intros u Hu%Hus. destruct (Hk u Hu) as (_ & Hne & Hs). split; [done|].
    apply (f_equal (lookup (upd_node u))) in Hv. unfold view in Hv. rewrite !lookup_fmap in Hv.
    destruct Hs as [n Hn]. rewrite Hn in Hv. by destruct (members_ s2 !! upd_node u).
  - apply Forall_forall. intros u Hu. destruct (Hk u Hu) as (? & _ & ?). done.
Qed.

Lemma gossip_converges_witness :
  let u1 := mkUpdate Dead id_c 0 0 in let u2 := mkUpdate Alive id_c 1 11211 in
  view (members_ (apply_updates no_callback id_a default_config 5 demo_swim [u1; u2])) =
  view (members_ (apply_updates no_callback id_b default_config 9 demo_swim [u2; u1; u1])).
Proof.
  intros u1 u2.
  apply (gossip_converges no_callback no_callback id_a id_b default_config default_config 5 9
    demo_swim demo_swim [u1; u2] [u2; u1; u1]).
  - reflexivity.
  - intros u. split; intros H; repeat (apply elem_of_cons in H as [->|H]; [repeat constructor|]);
      by apply elem_of_nil in H.
  - intros u H. repeat (apply elem_of_cons in H as [->|H];
      [split_and!; [discriminate|discriminate|eexists; vm_compute; reflexivity]|]).
    by apply elem_of_nil in H.
Defined.

(** an [Ack] marks the pending ping it answers and nothing else: the
    attempt to revive a suspected or dead sender at its own incarnation never
    has an effect, since [Alive] supersedes no state. *)
Theorem on_ack_revives_nobody {R} (on_change : R -> NodeId -> NodeInfo -> R) now s m :
  on_ack on_change now s m =
    set_pending s (if decide (is_Some (pending_acks_ s !! seq_num m))
                   then <[seq_num m := true]> (pending_acks_ s) else pending_acks_ s).
Proof.
  unfold on_ack.
  assert (match pending_acks_ s !! seq_num m with
          | Some _ => set_pending s (<[seq_num m := true]> (pending_acks_ s)) | None => s end =
    set_pending s (if decide (is_Some (pending_acks_ s !! seq_num m))
                   then <[seq_num m := true]> (pending_acks_ s) else pending_acks_ s)) as ->.
  { destruct (pending_acks_ s !! seq_num m) eqn:E.
    - by rewrite decide_True by eauto.
    - rewrite decide_False by (by intros []). by destruct s. }
  set (s1 := set_pending _ _). unfold get_node. destruct (members_ s1 !! sender m) as [n|] eqn:En; [|done].
  case_decide; [|done]. rewrite update_state_eq, En.
  rewrite decide_False; [by destruct s1|].
  unfold version_lt, version_of. simpl. pose proof (NodeState_rank_inj). destruct (state n); simpl; lia.
Qed.

(** refutation.  A node told that it is suspected or dead raises its
    incarnation by one and announces it; a peer accepts the announcement, and
    records the node as alive, exactly when its record has a lower incarnation.
    The counter ignores the incarnation in the accusation, so a node whose
    peers remember a higher one, as after a restart, is not heard. *)
Theorem refutation {R} (on_change : R -> NodeId -> NodeInfo -> R) a b cfg_a cfg_b now sa sb u n :
  a <> b -> upd_node u = a -> upd_type u = Suspect \/ upd_type u = Dead ->
  members_ sb !! a = Some n ->
  let sa' := apply_update on_change a cfg_a now sa u in
  let refuting := mkUpdate Alive a (incarnation_ sa') (self_data_port cfg_a) in
  let sb' := apply_update on_change b cfg_b now sb refuting in
  incarnation_ sa' = u64 (incarnation_ sa + 1) /\
  queue_ (disseminator_ sa') = enqueue_list (queue_ (disseminator_ sa)) refuting /\
  (incarnation n < incarnation_ sa' ->
     exists n', members_ sb' !! a = Some n' /\ state n' = NodeState_Alive /\ incarnation n' = incarnation_ sa') /\
  (incarnation_ sa' <= incarnation n -> members_ sb' = members_ sb).
Proof.
  intros Hne Hu Ht Hn. cbv zeta.
  assert (incarnation_ (apply_update on_change a cfg_a now sa u) = u64 (incarnation_ sa + 1) /\
    queue_ (disseminator_ (apply_update on_change a cfg_a now sa u)) =
      enqueue_list (queue_ (disseminator_ sa))
        (mkUpdate Alive a (u64 (incarnation_ sa + 1)) (self_data_port cfg_a))) as [E1 E2].
  { unfold apply_update. rewrite !decide_True by done. by destruct (update_state _ _ _ _ _) as [[]]. }
  rewrite E1, E2. split; [done|]. split; [done|]. unfold apply_update. simpl.
  rewrite decide_False by done. rewrite add_node_eq. simpl. rewrite Hn. unfold version_lt, version_of. simpl. split; intros Hi.
  - rewrite decide_True by lia. simpl. rewrite lookup_insert_eq. eauto.
  - rewrite decide_False; [done|]. destruct (state n); simpl; lia.
Qed.

Lemma refutation_witness :
  incarnation_ (apply_update no_callback id_c default_config 1 demo_swim (mkUpdate Suspect id_c 0 0)) = 1 /\
  exists n', members_ (apply_update no_callback id_a default_config 1 demo_swim (mkUpdate Alive id_c 1 0)) !! id_c =
    Some n' /\ state n' = NodeState_Alive.
Proof.
  assert (id_c <> id_a) as Hne by (vm_compute; discriminate).
  assert (members_ demo_swim !! id_c = Some (mkNodeInfo id_c 11211 NodeState_Suspect 0 0)) as Hn
    by (vm_compute; reflexivity).
  destruct (refutation no_callback id_c id_a default_config default_config 1 demo_swim demo_swim
    (mkUpdate Suspect id_c 0 0) _ Hne eq_refl (or_introl eq_refl) Hn) as (H1 & _ & H2 & _).
  split; [exact H1|]. destruct (H2 ltac:(vm_compute; reflexivity)) as (n' & Hn' & Hs & _).
  exists n'. split; [exact Hn'|exact Hs].
Defined.

(** the reaper declares dead exactly the other nodes that have been under
    suspicion for the timeout, at the incarnation they were suspected at; every
    other record stays as it is. *)
Theorem reap_exact {R} (on_change : R -> NodeId -> NodeInfo -> R) self_ config_ now clock s x :
  members_ (reap on_change self_ config_ now clock s) !! x =
    (fun n => if decide (x <> self_ /\ state n = NodeState_Suspect /\
                         (now - last_state_change n) ÷ 1000000 >= suspect_timeout config_)
              then mkNodeInfo (id n) (data_port n) NodeState_Dead (incarnation n) clock
              else n) <$> members_ s !! x.
Proof. apply reap_members. Qed.
