(* ===== verification/SwimLoops.v ===== *)
(** * The coroutines of the SWIM protocol ([run], [stop], [probe_loop],
    [recv_loop], [suspicion_reaper], [relay_ping] and [spawn] of
    [src/src/membership/swim_protocol.cpp])

    [SwimProtocol] has the code between the suspension points and lets any piece
    run at any time.  Here the coroutines have their program counters: which
    piece runs next is decided by where a coroutine was suspended, and the event
    loop only decides which one resumes. *)

From stdpp Require Import relations.
From S2P Require Import Prelude NodeInfo SwimMessage MemberList Disseminator SwimProtocol.

Local Open Scope Z_scope.

#[export] Instance detached_eq_dec : EqDecision detached.
Proof. solve_decision. Defined.

(** The suspension points of [probe_loop], with those of [direct_ping] and
    [indirect_ping] that it awaits. *)
Inductive probe_pc :=
  | ProbeSleeping
  | DirectSending (tgt : NodeId) (seq : Z)
  | DirectWaiting (tgt : NodeId) (seq : Z)
  | IndirectSending (tgt : NodeId) (seq : Z) (rest : list NodeId)
  | IndirectWaiting (tgt : NodeId) (seq : Z)
  | ProbeEnded.

(** [recv_loop] and [suspicion_reaper] have one suspension point each. *)
Inductive loop_pc := LoopWaiting | LoopEnded.

Record loops (R : Type) := mkLoops {
  swim : Swim R;
  running_ : bool;
  probe_task_ : probe_pc;
  recv_task_ : loop_pc;
  reaper_task_ : loop_pc;
  detached_tasks_ : list detached
}.
#[global] Arguments mkLoops {R}.
#[global] Arguments swim {R}.
#[global] Arguments running_ {R}.
#[global] Arguments probe_task_ {R}.
#[global] Arguments recv_task_ {R}.
#[global] Arguments reaper_task_ {R}.
#[global] Arguments detached_tasks_ {R}.

Section Loops.
Context {R : Type} (on_change : R -> NodeId -> NodeInfo -> R).
Context (sort : list Entry -> list Entry).
Context (self_ : NodeId) (config_ : Config).
Implicit Types (s : Swim R) (l : loops R).

(** [run]: the three tasks are created and started. *)
Definition run s : loops R := mkLoops s true ProbeSleeping LoopWaiting LoopWaiting [].

Definition stop l : loops R :=
  mkLoops (swim l) false (probe_task_ l) (recv_task_ l) (reaper_task_ l) (detached_tasks_ l).

(** [spawn]: the task has started; those that are done are dropped. *)
Definition spawn (ts : list detached) (t : detached) : list detached := filter (fun t => t <> Finished) (ts ++ [t]).

(** The test at the head of [probe_loop]. *)
Definition probe_head (running : bool) : probe_pc := if running then ProbeSleeping else ProbeEnded.
Definition loop_head (running : bool) : loop_pc := if running then LoopWaiting else LoopEnded.

(** The verdict of an iteration of [probe_loop]. *)
Definition probe_failed (now : Z) s (tgt : NodeId) (running : bool) : Swim R * probe_pc * list send :=
  (suspect_target on_change now s tgt, probe_head running, []).

(** The next relay, or the timeout. *)
Definition ask_relays s (tgt : NodeId) (seq : Z) (relays : list NodeId) : Swim R * probe_pc * list send :=
  match relays with
  | [] => (s, IndirectWaiting tgt seq, [])
  | relay :: rest =>
      let '(s, out) := indirect_ping_send sort self_ config_ s tgt seq relay in
      (s, IndirectSending tgt seq rest, out)
  end.

(** [probe_loop] from where it was suspended to where it suspends again. *)
Definition probe_resume (now : Z) (draw : nat -> nat) (shuffle : list NodeId -> list NodeId)
    s (running : bool) (pc : probe_pc) : Swim R * probe_pc * list send :=
  match pc with
  | ProbeSleeping =>
      if negb running then (s, ProbeEnded, []) else
      match random_peer draw (members_ s) self_ with
      | None => (s, probe_head running, [])
      | Some tgt =>
          let '(seq, s, out) := direct_ping_start sort self_ config_ s tgt in
          (s, DirectSending tgt seq, out)
      end
  | DirectSending tgt seq => (s, DirectWaiting tgt seq, [])
  | DirectWaiting tgt seq =>
      let '(alive, s) := take_ack s seq in
      if alive : bool then (s, probe_head running, []) else
      match indirect_ping_start self_ config_ shuffle s with
      | None => probe_failed now s tgt running
      | Some (intermediaries, seq, s) => ask_relays s tgt seq intermediaries
      end
  | IndirectSending tgt seq rest => ask_relays s tgt seq rest
  | IndirectWaiting tgt seq =>
      let '(alive, s) := take_ack s seq in
      if alive : bool then (s, probe_head running, []) else probe_failed now s tgt running
  | ProbeEnded => (s, ProbeEnded, [])
  end.

(** A detached task from suspension to suspension. *)
Definition detached_resume s (t : detached) : Swim R * detached * list send :=
  match t with
  | AckSending => (s, Finished, [])
  | RelaySending requester orig_seq local_seq => (s, RelayWaiting requester orig_seq local_seq, [])
  | RelayWaiting requester orig_seq local_seq =>
      let '(acked, s, out) := relay_timeout self_ s requester orig_seq local_seq in
      if acked : bool then (s, RelayAcking local_seq, out) else (erase_ack s local_seq, Finished, out)
  | RelayAcking local_seq => (erase_ack s local_seq, Finished, [])
  | Finished => (s, Finished, [])
  end.

(** What the event loop can do: complete the operation a coroutine waits for, or
    deliver a [stop].  [None] for a datagram is a read that returned no bytes. *)
Inductive event :=
  | ProbeResumed (now : Z) (draw : nat -> nat) (shuffle : list NodeId -> list NodeId)
  | Received (now : Z) (datagram : option bytes)
  | ReaperResumed (now clock : Z)
  | DetachedResumed (i : nat)
  | Stopped.

Definition recv_resume (now : Z) l (datagram : option bytes) : loops R * list send :=
  match recv_task_ l with
  | LoopEnded => (l, [])
  | LoopWaiting =>
      let '(s, out, spawned) :=
        match datagram with
        | Some data => receive on_change sort self_ config_ now (swim l) data
        | None => (swim l, [], [])
        end in
      (mkLoops s (running_ l) (probe_task_ l) (loop_head (running_ l)) (reaper_task_ l)
         (foldl spawn (detached_tasks_ l) spawned), out)
  end.

Definition reaper_resume (now clock : Z) l : loops R :=
  match reaper_task_ l with
  | LoopEnded => l
  | LoopWaiting =>
      if negb (running_ l) then
        mkLoops (swim l) (running_ l) (probe_task_ l) (recv_task_ l) LoopEnded (detached_tasks_ l)
      else
        mkLoops (reap on_change self_ config_ now clock (swim l)) (running_ l) (probe_task_ l) (recv_task_ l)
          (loop_head (running_ l)) (detached_tasks_ l)
  end.

Definition loops_next (e : event) l : loops R * list send :=
  match e with
  | ProbeResumed now draw shuffle =>
      let '(s, pc, out) := probe_resume now draw shuffle (swim l) (running_ l) (probe_task_ l) in
      (mkLoops s (running_ l) pc (recv_task_ l) (reaper_task_ l) (detached_tasks_ l), out)
  | Received now datagram => recv_resume now l datagram
  | ReaperResumed now clock => (reaper_resume now clock l, [])
  | DetachedResumed i =>
      match detached_tasks_ l !! i with
      | None => (l, [])
      | Some t =>
          let '(s, t, out) := detached_resume (swim l) t in
          (mkLoops s (running_ l) (probe_task_ l) (recv_task_ l) (reaper_task_ l) (<[i := t]> (detached_tasks_ l)), out)
      end
  | Stopped => (stop l, [])
  end.

(** The documented results of [uniform_int_distribution] and [std::shuffle]. *)
Definition event_ok (e : event) : Prop :=
  match e with
  | ProbeResumed _ draw shuffle => (forall hi, (draw hi <= hi)%nat) /\ forall xs, shuffle xs ≡ₚ xs
  | _ => True
  end.
End Loops.

(** ** Acknowledgements *)

(** A message that acknowledges the ping [seq]. *)
Definition acks (seq : Z) (m : SwimMessage) : Prop := msg_type m = Ack /\ seq_num m = seq.

Definition acked (seq : Z) (ms : list SwimMessage) : Prop := Exists (acks seq) ms.

(** The pings a coroutine has under way. *)
Definition probe_seqs (pc : probe_pc) : list Z :=
  match pc with
  | DirectSending _ seq | DirectWaiting _ seq | IndirectSending _ seq _ | IndirectWaiting _ seq => [seq]
  | ProbeSleeping | ProbeEnded => []
  end.

Definition detached_seqs (t : detached) : list Z :=
  match t with
  | RelaySending _ _ seq | RelayWaiting _ _ seq | RelayAcking seq => [seq]
  | AckSending | Finished => []
  end.

Definition outstanding {R} (l : loops R) : list Z :=
  probe_seqs (probe_task_ l) ++ (detached_tasks_ l ≫= detached_seqs).

(** What was heard since each ping went out, and how many went out. *)
Record ghost := mkGhost { heard : gmap Z (list SwimMessage); issued : Z }.

Definition heard_next (ms : list SwimMessage) (pending : gmap Z bool) (h : gmap Z (list SwimMessage))
    : gmap Z (list SwimMessage) :=
  map_imap (fun seq _ => Some (match h !! seq with Some old => old ++ ms | None => [] end)) pending.

Lemma lookup_heard_next ms pending h seq b :
  pending !! seq = Some b ->
  heard_next ms pending h !! seq = Some (match h !! seq with Some old => old ++ ms | None => [] end).
Proof. intros Hp. unfold heard_next. by rewrite map_lookup_imap, Hp. Qed.

(** The table of pending acks, next to the pings under way and what was heard. *)
Record ack_inv (pending : gmap Z bool) (counter : Z) (out : list Z) (g : ghost) : Prop := {
  ai_counter : counter = issued g;
  ai_width : 0 <= counter < 2 ^ 32;
  ai_nodup : NoDup out;
  ai_dom seq : is_Some (pending !! seq) <-> seq ∈ out;
  ai_old seq : seq ∈ out -> 0 <= seq < counter;
  ai_only seq : is_Some (heard g !! seq) -> is_Some (pending !! seq);
  ai_heard seq b : pending !! seq = Some b -> exists h, heard g !! seq = Some h /\ (b = true <-> acked seq h)
}.

(** One event: the entries that stay have what the messages of the event added,
    and at most one ping is new. *)
Lemma ack_inv_next pending counter out g pending' counter' out' issued' ms :
  ack_inv pending counter out g ->
  counter' = issued' -> counter <= counter' < 2 ^ 32 ->
  NoDup out' -> (forall seq, is_Some (pending' !! seq) <-> seq ∈ out') ->
  (forall seq, seq ∈ out' -> seq ∈ out \/ (seq = counter /\ counter < counter')) ->
  (forall seq b', pending' !! seq = Some b' ->
     match pending !! seq with
     | Some b => b' = true <-> b = true \/ acked seq ms
     | None => b' = false
     end) ->
  ack_inv pending' counter' out' (mkGhost (heard_next ms pending' (heard g)) issued').
Proof.
  intros [Hc Hw Hn Hd Ho Hon Hh] Hc' Hw' Hn' Hd' Ho' Hp'. split; cbn [heard issued]; try done.
  - lia.
  - intros seq [Hs|[-> ?]]%Ho'; [pose proof (Ho _ Hs)|]; lia.
  - intros seq. unfold heard_next. rewrite map_lookup_imap. destruct (pending' !! seq); [by eexists|by intros []].
  - intros seq b' Hb'. rewrite (lookup_heard_next _ _ _ _ _ Hb'). eexists. split; [done|].
    specialize (Hp' _ _ Hb'). destruct (pending !! seq) as [b|] eqn:Eb.
    + destruct (Hh _ _ Eb) as (h & -> & Hb). rewrite Hp', Hb. unfold acked. by rewrite Exists_app.
    + destruct (heard g !! seq) eqn:Eh; [|rewrite Hp'; split; [done|by intros ?%Exists_nil]].
      assert (is_Some (pending !! seq)) as [? ?] by (apply Hon; by rewrite Eh). congruence.
Qed.

(** ** What a piece of code does to the table *)

Section AckTable.
Context {R : Type} (on_change : R -> NodeId -> NodeInfo -> R).
Context (sort : list Entry -> list Entry).
Context (self_ : NodeId) (config_ : Config).
Implicit Types (s : Swim R) (l : loops R).

Definition ack_table s : gmap Z bool * Z := (pending_acks_ s, seq_counter_ s).

Lemma ack_table_call s r : ack_table (call_members on_change s r).2 = ack_table s.
Proof. by destruct r as [[b m] ev]. Qed.

Lemma ack_table_updates s us s' : take_updates sort config_ s = (us, s') -> ack_table s' = ack_table s.
Proof. unfold take_updates. destruct (get_updates _ _ _). by intros [= _ <-]. Qed.

Lemma ack_table_gossip now s us : ack_table (apply_updates on_change self_ config_ now s us) = ack_table s.
Proof.
  unfold apply_updates. revert s. induction us as [|u us IH]; intros s; [done|]. cbn [foldl]. rewrite IH.
  unfold apply_update. repeat case_decide; rewrite ?ack_table_call; done.
Qed.

Lemma ack_table_learn now s m : ack_table (learn_sender on_change self_ now s m) = ack_table s.
Proof. unfold learn_sender. case_decide; [|done]. apply (ack_table_call s). Qed.

Lemma ack_table_suspect now s tgt : ack_table (suspect_target on_change now s tgt) = ack_table s.
Proof.
  unfold suspect_target. destruct (get_node _ _) as [n|]; [|done].
  pose proof (ack_table_call s (update_state now (members_ s) tgt NodeState_Suspect (incarnation n))) as E.
  destruct (call_members _ _ _) as [[] s']; exact E.
Qed.

Lemma ack_table_reap now clock s : ack_table (reap on_change self_ config_ now clock s) = ack_table s.
Proof.
  unfold reap. generalize (map_to_list (members_ s)). intros ps. revert s.
  induction ps as [|[x n] ps IH]; intros s; [done|]. cbn [foldl]. rewrite IH. unfold reap_node.
  repeat case_decide; try done.
  pose proof (ack_table_call s (update_state clock (members_ s) x NodeState_Dead (incarnation n))) as E.
  destruct (call_members _ _ _) as [[] s']; exact E.
Qed.

Lemma ack_table_on_ack now s m :
  ack_table (on_ack on_change now s m) =
    (if decide (is_Some (pending_acks_ s !! seq_num m)) then <[seq_num m := true]> (pending_acks_ s)
     else pending_acks_ s, seq_counter_ s).
Proof.
  unfold on_ack. set (s1 := match pending_acks_ s !! _ with Some _ => _ | None => _ end).
  assert (ack_table s1 = (if decide (is_Some (pending_acks_ s !! seq_num m))
    then <[seq_num m := true]> (pending_acks_ s) else pending_acks_ s, seq_counter_ s)) as <-.
  { subst s1. destruct (pending_acks_ s !! seq_num m); [by rewrite decide_True by eauto|].
    rewrite decide_False; [done|]. by intros []. }
  destruct (get_node _ _) as [n|]; [|done]. case_decide; [apply ack_table_call|done].
Qed.
End AckTable.

(** The changes a piece of code can make: pings that end, pings that start, and
    the messages handled. *)
Inductive table_change (p : gmap Z bool) (c : Z) : list Z -> list Z -> list SwimMessage -> gmap Z bool * Z -> Prop :=
  | tc_same ms : (forall seq, ~ acked seq ms) -> table_change p c [] [] ms (p, c)
  | tc_mark m :
      msg_type m = Ack ->
      table_change p c [] [] [m] (if decide (is_Some (p !! seq_num m)) then <[seq_num m := true]> p else p, c)
  | tc_close seq : table_change p c [seq] [] [] (delete seq p, c)
  | tc_open ms : (forall seq, ~ acked seq ms) -> table_change p c [] [c] ms (<[c := false]> p, u32 (c + 1))
  | tc_close_open seq : table_change p c [seq] [c] [] (<[c := false]> (delete seq p), u32 (c + 1)).

Lemma no_acked_nil seq : ~ acked seq [].
Proof. by intros ?%Exists_nil. Qed.
#[export] Hint Resolve no_acked_nil : pensieve.

Lemma acked_one seq m : acked seq [m] <-> acks seq m.
Proof. split; [|by constructor]. inversion 1 as [|? ? H']; [done|]. by destruct (no_acked_nil seq). Qed.

Definition issued_next (c c' : Z) (g : ghost) : Z := if decide (c' = c) then issued g else issued g + 1.

Lemma mark_lookup (p : gmap Z bool) seq x :
  (if decide (is_Some (p !! seq)) then <[seq := true]> p else p) !! x =
    if decide (x = seq) then (fun _ => true) <$> p !! x else p !! x.
Proof.
  case_decide as Hs; case_decide as Hx; subst; rewrite ?lookup_insert_eq, ?lookup_insert_ne by done; try done.
  - by destruct (p !! seq); [|destruct Hs].
  - destruct (p !! seq); [|done]. destruct Hs. eauto.
Qed.

Section Change.
Context (p : gmap Z bool) (c : Z) (out : list Z) (g : ghost) (Hinv : ack_inv p c out g).

Lemma fresh_counter : p !! c = None /\ c ∉ out.
Proof.
  assert (c ∉ out) as Hc by (intros Hin; pose proof (ai_old _ _ _ _ Hinv _ Hin); lia).
  split; [|done]. apply eq_None_not_Some. by rewrite (ai_dom _ _ _ _ Hinv).
Qed.

Lemma change_same out' ms :
  out' ≡ₚ out -> (forall seq, ~ acked seq ms) -> ack_inv p c out' (mkGhost (heard_next ms p (heard g)) (issued g)).
Proof.
  intros Eo Hms. pose proof Hinv as [Hc Hw Hn Hd _ _ _].
  apply (ack_inv_next p c out g); [done|done|lia|by rewrite Eo|intros; by rewrite Eo|intros; left; by rewrite <- Eo|].
  intros seq b' ->. specialize (Hms seq). tauto.
Qed.

Lemma change_mark out' m :
  out' ≡ₚ out -> msg_type m = Ack ->
  let p' := if decide (is_Some (p !! seq_num m)) then <[seq_num m := true]> p else p in
  ack_inv p' c out' (mkGhost (heard_next [m] p' (heard g)) (issued g)).
Proof.
  intros Eo Hm p'. pose proof Hinv as [Hc Hw Hn Hd _ _ _].
  assert (forall x, p' !! x = if decide (x = seq_num m) then (fun _ => true) <$> p !! x else p !! x) as Hp'
    by (intros; apply mark_lookup).
  apply (ack_inv_next p c out g); [done|done|lia|by rewrite Eo|..].
  - intros seq. rewrite Hp', Eo, <- Hd. case_decide; [by rewrite fmap_is_Some|done].
  - intros seq Hs. left. by rewrite <- Eo.
  - intros seq b'. rewrite Hp'. case_decide as Hs.
    + destruct (p !! seq); [|done]. intros [= <-]. rewrite acked_one. unfold acks. naive_solver.
    + intros ->. rewrite acked_one. unfold acks. naive_solver.
Qed.

Lemma change_close seq out' :
  out ≡ₚ seq :: out' -> ack_inv (delete seq p) c out' (mkGhost (heard_next [] (delete seq p) (heard g)) (issued g)).
Proof.
  intros Eo. pose proof Hinv as [Hc Hw Hn Hd _ _ _]. rewrite Eo in Hn. apply NoDup_cons in Hn as [Hseq Hn].
  apply (ack_inv_next p c out g); [done|done|lia|done|..].
  - intros x. destruct (decide (x = seq)) as [->|Hne].
    + rewrite lookup_delete_eq. split; [by intros []|done].
    + rewrite lookup_delete_ne by done. rewrite Hd, Eo, elem_of_cons. naive_solver.
  - intros x Hx. left. rewrite Eo. by right.
  - intros x b' [_ ->]%lookup_delete_Some. pose proof (no_acked_nil x). tauto.
Qed.

Lemma change_open out' ms :
  out' ≡ₚ c :: out -> (forall seq, ~ acked seq ms) -> issued g + 1 < 2 ^ 32 ->
  ack_inv (<[c := false]> p) (u32 (c + 1)) out'
    (mkGhost (heard_next ms (<[c := false]> p) (heard g)) (issued g + 1)).
Proof.
  intros Eo Hms Hlt. pose proof Hinv as [Hc Hw Hn Hd _ _ _]. destruct fresh_counter as [Hpc Hco].
  assert (u32 (c + 1) = c + 1) as -> by (apply wrap_small; unfold in_width; lia).
  apply (ack_inv_next p c out g); [done|lia|lia|rewrite Eo; by apply NoDup_cons|..].
  - intros x. rewrite Eo, elem_of_cons, <- Hd. destruct (decide (x = c)) as [->|Hne].
    + rewrite lookup_insert_eq. split; [by left|by eauto].
    + rewrite lookup_insert_ne by done. naive_solver.
  - intros x. rewrite Eo, elem_of_cons. intros [->|?]; [right; lia|by left].
  - intros x b' [[<- <-]|[Hne ->]]%lookup_insert_Some; [by rewrite Hpc|]. specialize (Hms x). tauto.
Qed.
End Change.

Lemma change_close_open p c out g seq rest out' :
  ack_inv p c out g -> out ≡ₚ seq :: rest -> out' ≡ₚ c :: rest -> issued g + 1 < 2 ^ 32 ->
  ack_inv (<[c := false]> (delete seq p)) (u32 (c + 1)) out'
    (mkGhost (heard_next [] (<[c := false]> (delete seq p)) (heard g)) (issued g + 1)).
Proof.
  intros Hinv Eo Eo' Hlt. pose proof (change_close p c out g Hinv seq rest Eo) as H1.
  pose proof (change_open _ _ _ _ H1 out' [] Eo' no_acked_nil Hlt) as H2. cbn [heard issued] in H2.
  replace (heard_next [] (<[c := false]> (delete seq p)) (heard g)) with
    (heard_next [] (<[c := false]> (delete seq p)) (heard_next [] (delete seq p) (heard g))); [done|].
  destruct (fresh_counter p c out g Hinv) as [Hpc _].
  assert (heard g !! c = None) as Hgc.
  { apply eq_None_not_Some. intros Hs%(ai_only _ _ _ _ Hinv). rewrite Hpc in Hs. by destruct Hs. }
  apply map_eq. intros x. unfold heard_next. rewrite !map_lookup_imap.
  destruct (decide (x = c)) as [->|Hne].
  - rewrite lookup_insert_eq, Hgc. cbn [mbind option_bind]. destruct (decide (c = seq)) as [->|];
      [by rewrite lookup_delete_eq|by rewrite lookup_delete_ne, Hpc by done].
  - rewrite lookup_insert_ne by done. destruct (delete seq p !! x) as [b|] eqn:Eb; [|done]. cbn [mbind option_bind].
    destruct (heard g !! x); [by rewrite !app_nil_r|done].
Qed.

(** Every change keeps the table in step. *)
Lemma table_change_inv p c out g closed opened ms t' rest out' :
  ack_inv p c out g -> table_change p c closed opened ms t' ->
  out ≡ₚ closed ++ rest -> out' ≡ₚ opened ++ rest -> issued_next c t'.2 g < 2 ^ 32 ->
  ack_inv t'.1 t'.2 out' (mkGhost (heard_next ms t'.1 (heard g)) (issued_next c t'.2 g)).
Proof.
  intros Hinv Hch Eo Eo' Hlt.
  assert (u32 (c + 1) <> c) as Hne.
  { pose proof (ai_width _ _ _ _ Hinv). unfold u32, wrap.
    destruct (decide (c = 2 ^ 32 - 1)) as [->|]; [by vm_compute|]. rewrite Z.mod_small by lia. lia. }
  assert (issued_next c c g = issued g) as E1 by (unfold issued_next; by rewrite decide_True).
  assert (issued_next c (u32 (c + 1)) g = issued g + 1) as E2 by (unfold issued_next; by rewrite decide_False).
  destruct Hch as [ms Hms|m Hm|seq|ms Hms|seq]; cbn [fst snd app] in *; rewrite ?E1, ?E2 in *.
  - apply (change_same _ _ _ _ Hinv); [by rewrite Eo', Eo|done].
  - apply (change_mark _ _ _ _ Hinv); [by rewrite Eo', Eo|done].
  - apply (change_close _ _ _ _ Hinv). by rewrite Eo, Eo'.
  - apply (change_open _ _ _ _ Hinv); [by rewrite Eo', Eo|done|done].
  - by apply (change_close_open p c out g seq rest).
Qed.

Lemma tc_none p c : table_change p c [] [] [] (p, c).
Proof. apply tc_same, no_acked_nil. Qed.

Lemma tc_opened p c : table_change p c [] [c] [] (<[c := false]> p, u32 (c + 1)).
Proof. apply tc_open, no_acked_nil. Qed.

(** ** The events *)

Section Events.
Context {R : Type} (on_change : R -> NodeId -> NodeInfo -> R).
Context (sort : list Entry -> list Entry).
Context (self_ : NodeId) (config_ : Config).
Implicit Types (s : Swim R) (l : loops R).

(** The messages an event handles. *)
Definition handled (e : event) l : list SwimMessage :=
  match e, recv_task_ l with
  | Received _ (Some data), LoopWaiting => option_list (deserialize data)
  | _, _ => []
  end.

Lemma handle_message_table now s m s' out ts :
  handle_message on_change sort self_ config_ now s m = (s', out, ts) ->
  exists opened, table_change (pending_acks_ s) (seq_counter_ s) [] opened [m] (ack_table s') /\
    ts ≫= detached_seqs = opened.
Proof.
  unfold handle_message. set (s1 := apply_updates _ _ _ _ _ _).
  assert (ack_table s1 = ack_table s) as E1 by (subst s1; by rewrite ack_table_gossip, ack_table_learn).
  assert (msg_type m <> Ack -> forall seq, ~ acked seq [m]) as Hna by (intros Hm seq [? _]%acked_one; done).
  injection E1 as Ep Ec. destruct (msg_type m) eqn:Em.
  - unfold on_ping. destruct (take_updates sort config_ s1) as [us s2] eqn:Eu. intros [= <- <- <-].
    exists []. split; [|done]. rewrite (ack_table_updates _ _ _ _ _ Eu). unfold ack_table. rewrite Ep, Ec.
    apply tc_same. by apply Hna.
  - intros [= <- <- <-]. exists []. split; [|done]. rewrite ack_table_on_ack, Ep, Ec. by apply tc_mark.
  - unfold on_ping_req. destruct (target m) as [tgt|].
    + intros [= <- <- <-]. exists [seq_counter_ s]. unfold ack_table. cbn. rewrite Ep, Ec. split; [|done].
      apply tc_open. by apply Hna.
    + intros [= <- <- <-]. exists []. split; [|done]. unfold ack_table. rewrite Ep, Ec. apply tc_same. by apply Hna.
Qed.

Lemma spawn_seqs ts t : spawn ts t ≫= detached_seqs = (ts ≫= detached_seqs) ++ detached_seqs t.
Proof.
  unfold spawn. assert (forall ts, filter (fun t => t <> Finished) ts ≫= detached_seqs = ts ≫= detached_seqs) as ->.
  { intros l. induction l as [|x l IH]; [done|]. rewrite filter_cons. case_decide as Hx; cbn; [by f_equal|].
    destruct (decide (x = Finished)) as [->|]; [done|by destruct Hx]. }
  rewrite bind_app. cbn. by rewrite app_nil_r.
Qed.

Lemma spawns_seqs ts new : foldl spawn ts new ≫= detached_seqs = (ts ≫= detached_seqs) ++ (new ≫= detached_seqs).
Proof.
  revert ts. induction new as [|t new IH]; intros ts; cbn [foldl]; [by rewrite app_nil_r|].
  rewrite IH, spawn_seqs, <- app_assoc. done.
Qed.

Lemma ask_relays_table s tgt seq relays s' pc out :
  ask_relays sort self_ config_ s tgt seq relays = (s', pc, out) -> ack_table s' = ack_table s /\ probe_seqs pc = [seq].
Proof.
  unfold ask_relays. destruct relays as [|relay rest]; [by intros [= <- <- <-]|].
  unfold indirect_ping_send. destruct (take_updates sort config_ s) as [us s1] eqn:Eu. intros [= <- <- <-].
  by rewrite (ack_table_updates _ _ _ _ _ Eu).
Qed.

Lemma probe_head_seqs running : probe_seqs (probe_head running) = [].
Proof. by destruct running. Qed.

(** A resumption of the probe ends a ping, starts one, or both. *)
Lemma probe_resume_table now draw shuffle s running pc s' pc' out :
  probe_resume on_change sort self_ config_ now draw shuffle s running pc = (s', pc', out) ->
  exists closed opened kept, table_change (pending_acks_ s) (seq_counter_ s) closed opened [] (ack_table s') /\
    probe_seqs pc = closed ++ kept /\ probe_seqs pc' = opened ++ kept.
Proof.
  intros E. destruct pc as [|tgt seq|tgt seq|tgt seq rest|tgt seq|]; cbn [probe_resume] in E.
  - destruct running; cbn [negb] in E; [|simplify_eq; exists [], [], []; split; [apply tc_none|done]].
    destruct (random_peer _ _ _) as [tgt|]; [|simplify_eq; exists [], [], []; split; [apply tc_none|done]].
    unfold direct_ping_start in E. cbn in E. set (s1 := set_pending _ _) in E.
    destruct (take_updates sort config_ s1) as [us s2] eqn:Eu. simplify_eq.
    exists [], [seq_counter_ s], []. rewrite (ack_table_updates _ _ _ _ _ Eu). split; [apply tc_opened|done].
  - simplify_eq. exists [], [], [seq]. split; [apply tc_none|done].
  - unfold take_ack in E. cbn in E. set (s1 := set_pending _ _) in E.
    assert (table_change (pending_acks_ s) (seq_counter_ s) [seq] [] [] (ack_table s1)) as H1 by apply tc_close.
    destruct (default _ _); [simplify_eq; exists [seq], [], []; by rewrite probe_head_seqs|].
    unfold indirect_ping_start in E. case_decide.
    + unfold probe_failed in E. simplify_eq. exists [seq], [], []. by rewrite probe_head_seqs, ack_table_suspect.
    + cbn in E. destruct (ask_relays_table _ _ _ _ _ _ _ E) as [E1 E2].
      exists [seq], [seq_counter_ s], []. rewrite E1, E2. split; [apply tc_close_open|done].
  - destruct (ask_relays_table _ _ _ _ _ _ _ E) as [E1 E2]. exists [], [], [seq]. rewrite E1, E2.
    split; [apply tc_none|done].
  - unfold take_ack in E. cbn in E. set (s1 := set_pending _ _) in E.
    assert (table_change (pending_acks_ s) (seq_counter_ s) [seq] [] [] (ack_table s1)) as H1 by apply tc_close.
    destruct (default _ _); [|unfold probe_failed in E]; simplify_eq; exists [seq], [], [];
      by rewrite probe_head_seqs, ?ack_table_suspect.
  - simplify_eq. exists [], [], []. split; [apply tc_none|done].
Qed.

Lemma detached_resume_table s t s' t' out :
  (forall seq, seq ∈ detached_seqs t -> is_Some (pending_acks_ s !! seq)) ->
  detached_resume self_ s t = (s', t', out) ->
  exists closed kept, table_change (pending_acks_ s) (seq_counter_ s) closed [] [] (ack_table s') /\
    detached_seqs t = closed ++ kept /\ detached_seqs t' = kept.
Proof.
  intros Hin E. destruct t as [|rq os seq|rq os seq|seq|]; cbn [detached_resume] in E.
  1, 5: simplify_eq; exists [], []; (split; [apply tc_none|done]).
  - simplify_eq. exists [], [seq]. split; [apply tc_none|done].
  - unfold relay_timeout in E. cbn in E. destruct (Hin seq) as [b Hb]; [by left|]. rewrite Hb in E. cbn in E.
    destruct b; simplify_eq.
    + exists [], [seq]. unfold ack_table. cbn. rewrite insert_id by done. split; [apply tc_none|done].
    + exists [seq], []. unfold ack_table. cbn. rewrite delete_insert_eq. split; [apply tc_close|done].
  - simplify_eq. exists [seq], []. split; [apply tc_close|done].
Qed.

(** Every event is such a change. *)
Lemma loops_next_table e l l' out :
  (forall seq, seq ∈ outstanding l -> is_Some (pending_acks_ (swim l) !! seq)) ->
  loops_next on_change sort self_ config_ e l = (l', out) ->
  exists closed opened rest,
    table_change (pending_acks_ (swim l)) (seq_counter_ (swim l)) closed opened (handled e l) (ack_table (swim l')) /\
    outstanding l ≡ₚ closed ++ rest /\ outstanding l' ≡ₚ opened ++ rest.
Proof.
  intros Hin E.
  destruct e as [now draw shuffle|now datagram|now clock|i|]; cbn [loops_next] in E.
  - destruct (probe_resume _ _ _ _ _ _ _ _ _ _) as [[s' pc'] out'] eqn:Ep. apply pair_equal_spec in E as [<- <-]. unfold outstanding in *; cbn [swim probe_task_ detached_tasks_].
    destruct (probe_resume_table _ _ _ _ _ _ _ _ _ Ep) as (cl & op & k & H & E1 & E2).
    exists cl, op, (k ++ (detached_tasks_ l ≫= detached_seqs)). rewrite E1, E2, <- !app_assoc. done.
  - unfold recv_resume in E. cbn [handled]. destruct (recv_task_ l).
    2:{ apply pair_equal_spec in E as [<- <-]. exists [], [], (outstanding l). split; [by destruct datagram; apply tc_none|done]. }
    destruct datagram as [data|]; [|apply pair_equal_spec in E as [<- <-]; exists [], [], (outstanding l); split; [apply tc_none|done]].
    unfold receive in E. destruct (deserialize data) as [m|];
      [|apply pair_equal_spec in E as [<- <-]; exists [], [], (outstanding l); split; [apply tc_none|done]].
    destruct (handle_message _ _ _ _ _ _ _) as [[s' out'] ts] eqn:Eh. apply pair_equal_spec in E as [<- <-]. unfold outstanding in *; cbn [swim probe_task_ detached_tasks_ option_list].
    destruct (handle_message_table _ _ _ _ _ _ Eh) as (op & H & <-).
    exists [], (ts ≫= detached_seqs), (outstanding l). split; [done|]. split; [done|]. rewrite spawns_seqs. unfold outstanding.
    rewrite app_assoc. apply Permutation_app_comm.
  - apply pair_equal_spec in E as [<- <-]. exists [], [], (outstanding l).
    assert (ack_table (swim (reaper_resume on_change self_ config_ now clock l)) = ack_table (swim l) /\
      outstanding (reaper_resume on_change self_ config_ now clock l) = outstanding l) as [-> ->]; [|by split; [apply tc_none|]].
    unfold reaper_resume. destruct (reaper_task_ l); [|done]. destruct (running_ l); [|done]. split; [apply ack_table_reap|done].
  - destruct (detached_tasks_ l !! i) as [t|] eqn:Et; [|apply pair_equal_spec in E as [<- <-]; exists [], [], (outstanding l); split; [apply tc_none|done]].
    destruct (detached_resume self_ (swim l) t) as [[s' t'] out'] eqn:Ed. apply pair_equal_spec in E as [<- <-]. unfold outstanding in *; cbn [swim probe_task_ detached_tasks_].
    pose proof (take_drop_middle _ _ _ Et) as Em.
    destruct (detached_resume_table _ _ _ _ _ ltac:(intros seq Hs; apply Hin; rewrite <- Em, bind_app; set_solver) Ed)
      as (cl & k & H & E1 & E2).
    exists cl, [], (k ++ probe_seqs (probe_task_ l) ++
      (take i (detached_tasks_ l) ≫= detached_seqs) ++ (drop (S i) (detached_tasks_ l) ≫= detached_seqs)).
    split; [done|]. rewrite insert_take_drop by (by eapply lookup_lt_Some). rewrite <- Em at 1.
    rewrite !bind_app. cbn [mbind list_bind]. rewrite E1, E2. cbn [app]. split; solve_Permutation.
  - apply pair_equal_spec in E as [<- <-]. exists [], [], (outstanding l). split; [apply tc_none|done].
Qed.
End Events.

(** ** Runs *)

Section Runs.
Context {R : Type} (on_change : R -> NodeId -> NodeInfo -> R).
Context (sort : list Entry -> list Entry).
Context (self_ : NodeId) (config_ : Config).
Implicit Types (s : Swim R) (l : loops R).

Definition ghost_next (ms : list SwimMessage) s s' (g : ghost) : ghost :=
  mkGhost (heard_next ms (pending_acks_ s') (heard g)) (issued_next (seq_counter_ s) (seq_counter_ s') g).

Inductive loops_step : loops R * ghost -> list send -> loops R * ghost -> Prop :=
  | ls_event e l l' g out :
      event_ok e -> loops_next on_change sort self_ config_ e l = (l', out) ->
      loops_step (l, g) out (l', ghost_next (handled e l) (swim l) (swim l') g).

Definition loops_steps : loops R * ghost -> loops R * ghost -> Prop := rtc (fun a b => exists out, loops_step a out b).

(** A node that has pinged nobody. *)
Definition fresh_swim s : Prop := pending_acks_ s = ∅ /\ seq_counter_ s = 0.

Definition loops_start s : loops R * ghost := (run s, mkGhost ∅ 0).

(** The node a probe is about. *)
Definition probe_target (pc : probe_pc) : option NodeId :=
  match pc with
  | DirectSending tgt _ | DirectWaiting tgt _ | IndirectSending tgt _ _ | IndirectWaiting tgt _ => Some tgt
  | ProbeSleeping | ProbeEnded => None
  end.

Record loops_inv (a : loops R * ghost) : Prop := {
  li_target : probe_target (probe_task_ a.1) <> Some self_;
  li_acks : issued a.2 < 2 ^ 32 ->
    ack_inv (pending_acks_ (swim a.1)) (seq_counter_ (swim a.1)) (outstanding a.1) a.2
}.

Lemma random_peer_other draw m x : random_peer draw m self_ = Some x -> x <> self_.
Proof.
  unfold random_peer. case_decide; [done|]. intros Hx%list_elem_of_lookup_2. by apply elem_of_alive_peers in Hx as [? _].
Qed.

Lemma ask_relays_target s tgt seq relays s' pc out :
  ask_relays sort self_ config_ s tgt seq relays = (s', pc, out) -> probe_target pc = Some tgt.
Proof.
  unfold ask_relays. destruct relays; [by intros [= <- <- <-]|].
  destruct (indirect_ping_send _ _ _ _ _ _ _). by intros [= <- <- <-].
Qed.

Lemma probe_resume_target now draw shuffle s running pc s' pc' out :
  probe_resume on_change sort self_ config_ now draw shuffle s running pc = (s', pc', out) ->
  probe_target pc <> Some self_ -> probe_target pc' <> Some self_.
Proof.
  intros E Ht. assert (probe_target (probe_head running) <> Some self_) as Hhead by (by destruct running).
  destruct pc as [|tgt seq|tgt seq|tgt seq rest|tgt seq|]; cbn [probe_resume] in E.
  - destruct running; cbn [negb] in E; [|by simplify_eq]. destruct (random_peer _ _ _) as [tgt|] eqn:Er; [|by simplify_eq].
    destruct (direct_ping_start _ _ _ _ _) as [[seq s1] out1]. simplify_eq. cbn. intros [= ->].
    by apply random_peer_other in Er.
  - by simplify_eq.
  - destruct (take_ack s seq) as [[] s1]; [by simplify_eq|].
    destruct (indirect_ping_start _ _ _ _) as [[[rl sq] s2]|]; [|unfold probe_failed in E; by simplify_eq].
    by rewrite (ask_relays_target _ _ _ _ _ _ _ E).
  - by rewrite (ask_relays_target _ _ _ _ _ _ _ E).
  - destruct (take_ack s seq) as [[] s1]; [|unfold probe_failed in E]; by simplify_eq.
  - by simplify_eq.
Qed.

Lemma loops_next_target e l l' out :
  loops_next on_change sort self_ config_ e l = (l', out) ->
  probe_target (probe_task_ l) <> Some self_ -> probe_target (probe_task_ l') <> Some self_.
Proof.
  intros E Ht. destruct e as [now draw shuffle|now datagram|now clock|i|]; cbn [loops_next] in E.
  - destruct (probe_resume _ _ _ _ _ _ _ _ _ _) as [[s' pc'] out'] eqn:Ep. apply pair_equal_spec in E as [<- _].
    by apply (probe_resume_target _ _ _ _ _ _ _ _ _ Ep).
  - unfold recv_resume in E. destruct (recv_task_ l); [|by apply pair_equal_spec in E as [<- _]].
    destruct datagram; [destruct (receive _ _ _ _ _ _ _) as [[]]|]; by apply pair_equal_spec in E as [<- _].
  - apply pair_equal_spec in E as [<- _]. unfold reaper_resume. destruct (reaper_task_ l), (running_ l); done.
  - destruct (detached_tasks_ l !! i); [|by apply pair_equal_spec in E as [<- _]].
    destruct (detached_resume _ _ _) as [[]]. by apply pair_equal_spec in E as [<- _].
  - by apply pair_equal_spec in E as [<- _].
Qed.

Lemma loops_step_inv a out b : loops_step a out b -> loops_inv a -> loops_inv b.
Proof.
  destruct 1 as [e l l' g out _ E]. intros [Ht Ha]. cbn [fst snd] in *. split; cbn [fst snd].
  - by apply (loops_next_target _ _ _ _ E).
  - intros Hlt. assert (issued g < 2 ^ 32) as Hg.
    { cbn [issued ghost_next] in Hlt. unfold issued_next in Hlt. case_decide; lia. }
    pose proof (Ha Hg) as Hinv.
    destruct (loops_next_table on_change sort self_ config_ e l l' out) as (cl & op & rest & Hch & E1 & E2);
      [intros seq; apply Hinv|done|].
    exact (table_change_inv _ _ _ _ _ _ _ _ _ _ Hinv Hch E1 E2 Hlt).
Qed.

Lemma loops_start_inv s : fresh_swim s -> loops_inv (loops_start s).
Proof.
  intros [Hp Hc]. split; [done|]. intros _. cbn. rewrite Hp, Hc.
  split; cbn [heard issued].
  - done.
  - lia.
  - apply NoDup_nil_2.
  - intros seq. rewrite lookup_empty. split; [by intros []|by intros ?%elem_of_nil].
  - by intros seq ?%elem_of_nil.
  - intros seq. rewrite lookup_empty. by intros [].
  - intros seq b. by rewrite lookup_empty.
Qed.

Lemma loops_steps_inv s a : fresh_swim s -> loops_steps (loops_start s) a -> loops_inv a.
Proof.
  intros Hs Hr. pose proof (loops_start_inv s Hs) as H0. clear Hs.
  induction Hr as [|x y z [out H] _ IH]; [done|]. by apply IH, (loops_step_inv _ _ _ H).
Qed.

(** ** The loops only do what the protocol's pieces do *)

Inductive swim_trace : Swim R -> list send -> Swim R -> Prop :=
  | st_nil s : swim_trace s [] s
  | st_cons s out s1 out' s' :
      swim_step on_change sort self_ config_ s out s1 -> swim_trace s1 out' s' -> swim_trace s (out ++ out') s'.

Lemma swim_trace_one s out s' : swim_step on_change sort self_ config_ s out s' -> swim_trace s out s'.
Proof. intros H. rewrite <- (app_nil_r out). eapply st_cons; [exact H|apply st_nil]. Qed.

Lemma swim_trace_silent s s1 out s' :
  swim_step on_change sort self_ config_ s [] s1 -> swim_trace s1 out s' -> swim_trace s out s'.
Proof. intros H1 H2. change out with ([] ++ out). by eapply st_cons. Qed.

Lemma swim_trace_steps s out s' : swim_trace s out s' -> swim_steps on_change sort self_ config_ s s'.
Proof. induction 1; [apply rtc_refl|]. eapply rtc_l; eauto. Qed.

Lemma ask_relays_trace s tgt seq relays s' pc out :
  ask_relays sort self_ config_ s tgt seq relays = (s', pc, out) -> swim_trace s out s'.
Proof.
  unfold ask_relays. destruct relays as [|relay rest]; [intros [= <- <- <-]; apply st_nil|].
  destruct (indirect_ping_send _ _ _ _ _ _ _) as [s1 out1] eqn:E. intros [= <- <- <-].
  by eapply swim_trace_one, step_indirect_send.
Qed.

Lemma probe_resume_trace now draw shuffle s running pc s' pc' out :
  probe_target pc <> Some self_ ->
  probe_resume on_change sort self_ config_ now draw shuffle s running pc = (s', pc', out) -> swim_trace s out s'.
Proof.
  intros Ht E. destruct pc as [|tgt seq|tgt seq|tgt seq rest|tgt seq|]; cbn [probe_resume] in E.
  - destruct running; cbn [negb] in E; [|simplify_eq; apply st_nil].
    destruct (random_peer _ _ _) as [tgt|]; [|simplify_eq; apply st_nil].
    destruct (direct_ping_start _ _ _ _ _) as [[seq s1] out1] eqn:Ed. simplify_eq.
    by eapply swim_trace_one, step_direct_ping.
  - simplify_eq. apply st_nil.
  - apply swim_trace_silent with (take_ack s seq).2; [constructor|]. destruct (take_ack s seq) as [[] s1]; cbn [snd];
      [simplify_eq; apply st_nil|].
    destruct (indirect_ping_start _ _ _ _) as [[[rl sq] s2]|] eqn:Ei.
    + eapply swim_trace_silent; [by eapply step_indirect_ping|]. by eapply ask_relays_trace.
    + unfold probe_failed in E. simplify_eq. apply swim_trace_one, step_suspect. cbn in Ht. congruence.
  - by eapply ask_relays_trace.
  - apply swim_trace_silent with (take_ack s seq).2; [constructor|]. destruct (take_ack s seq) as [[] s1]; cbn [snd];
      [simplify_eq; apply st_nil|].
    unfold probe_failed in E. simplify_eq. apply swim_trace_one, step_suspect. cbn in Ht. congruence.
  - simplify_eq. apply st_nil.
Qed.

Lemma detached_resume_trace s t s' t' out : detached_resume self_ s t = (s', t', out) -> swim_trace s out s'.
Proof.
  destruct t as [|rq os seq|rq os seq|seq|]; cbn [detached_resume]; try (intros [= <- <- <-]; apply st_nil).
  - destruct (relay_timeout _ _ _ _ _) as [[acked s1] out1] eqn:E. assert (swim_step on_change sort self_ config_ s out1 s1)
      as H by (by eapply step_relay_timeout).
    destruct acked; intros [= <- <- <-]; [by apply swim_trace_one|]. rewrite <- (app_nil_r out1).
    eapply st_cons; [exact H|]. apply swim_trace_one, step_erase.
  - intros [= <- <- <-]. apply swim_trace_one, step_erase.
Qed.

Lemma loops_next_trace e l l' out :
  probe_target (probe_task_ l) <> Some self_ ->
  loops_next on_change sort self_ config_ e l = (l', out) -> swim_trace (swim l) out (swim l').
Proof.
  intros Ht E. destruct e as [now draw shuffle|now datagram|now clock|i|]; cbn [loops_next] in E.
  - destruct (probe_resume _ _ _ _ _ _ _ _ _ _) as [[s' pc'] out'] eqn:Ep. apply pair_equal_spec in E as [<- <-].
    by eapply probe_resume_trace.
  - unfold recv_resume in E. destruct (recv_task_ l); [|apply pair_equal_spec in E as [<- <-]; apply st_nil].
    destruct datagram as [data|]; [|apply pair_equal_spec in E as [<- <-]; apply st_nil].
    destruct (receive _ _ _ _ _ _ _) as [[s' out'] ts] eqn:Er. apply pair_equal_spec in E as [<- <-].
    by eapply swim_trace_one, step_receive.
  - apply pair_equal_spec in E as [<- <-]. unfold reaper_resume.
    destruct (reaper_task_ l); [|apply st_nil]. destruct (running_ l); [|apply st_nil]. apply swim_trace_one, step_reap.
  - destruct (detached_tasks_ l !! i) as [t|]; [|apply pair_equal_spec in E as [<- <-]; apply st_nil].
    destruct (detached_resume _ _ _) as [[s' t'] out'] eqn:Ed. apply pair_equal_spec in E as [<- <-].
    by eapply detached_resume_trace.
  - apply pair_equal_spec in E as [<- <-]. apply st_nil.
Qed.

Lemma loops_steps_swim s a : fresh_swim s -> loops_steps (loops_start s) a -> swim_steps on_change sort self_ config_ s (swim a.1).
Proof.
  intros Hs Hr. change s with (swim (loops_start s).1). pose proof (loops_start_inv s Hs) as H0. clear Hs.
  induction Hr as [|x y z [out H] _ IH]; [apply rtc_refl|].
  etransitivity; [|apply IH, (loops_step_inv _ _ _ H H0)]. destruct H as [e l l' g out _ E].
  eapply swim_trace_steps, loops_next_trace; [apply H0|exact E].
Qed.
End Runs.

(** ** A run *)

(** The events in turn. *)
Definition drive {R} on_change sort self_ config_ (es : list event) (a : loops R * ghost) : loops R * ghost :=
  foldl (fun '(l, g) e =>
    let l' := (loops_next on_change sort self_ config_ e l).1 in (l', ghost_next (handled e l) (swim l) (swim l') g)) a es.

Lemma drive_steps {R} on_change sort self_ config_ es (a : loops R * ghost) :
  Forall event_ok es -> loops_steps on_change sort self_ config_ a (drive on_change sort self_ config_ es a).
Proof.
  intros Hes. revert a. induction Hes as [|e es He _ IH]; intros [l g]; [apply rtc_refl|].
  eapply rtc_l; [|apply IH]. exists (loops_next on_change sort self_ config_ e l).2. apply ls_event; [done|].
  by destruct (loops_next _ _ _ _ _ _).
Qed.

(** A timeout or a completed send of the probe; nobody answers. *)
Definition demo_timeout (now : Z) : event := ProbeResumed now (fun _ => 0%nat) (fun xs => xs).

Definition demo_waiting : loops unit * ghost :=
  drive no_callback count_sort id_a default_config (demo_timeout <$> [1; 2; 3; 4]) (loops_start demo_swim).

Lemma demo_waiting_steps :
  loops_steps no_callback count_sort id_a default_config (loops_start demo_swim) (demo_waiting.1, demo_waiting.2).
Proof.
  rewrite <- surjective_pairing. apply drive_steps. repeat constructor; cbn; first [lia|done].
Qed.
