(* ===== verification/FailureDetector.v ===== *)
(** * The failure detector (the loops of
    [src/src/membership/swim_protocol.cpp] on a run)

    What the coroutines of a node do over time: they refine the interleaving
    model of the protocol, a peer is suspected exactly when its pings went
    unanswered, and after [stop] they come to an end. *)

From stdpp Require Import relations.
From S2P Require Import Prelude NodeInfo SwimMessage MemberList Disseminator SwimProtocol SwimLoops.

Local Open Scope Z_scope.

Section Detector.
Context {R : Type} (on_change : R -> NodeId -> NodeInfo -> R).
Context (sort : list Entry -> list Entry).
Context (self_ : NodeId) (config_ : Config).
Implicit Types (s : Swim R) (l : loops R).


(** ** The verdict of a probe *)

(** What [suspect_target] writes. *)
Lemma suspect_target_members now s tgt :
  members_ (suspect_target on_change now s tgt) =
    match members_ s !! tgt with
    | Some n => if decide (state n = NodeState_Alive)
                then <[tgt := set_state n NodeState_Suspect (incarnation n) now]> (members_ s) else members_ s
    | None => members_ s
    end.
Proof.
  unfold suspect_target, get_node. destruct (members_ s !! tgt) as [n|] eqn:En; [|done].
  rewrite update_state_eq, En. unfold version_lt, version_of. cbn [fst snd].
  destruct (decide (state n = NodeState_Alive)) as [Ha|Ha].
  - rewrite decide_True by (rewrite Ha; cbn; lia). done.
  - rewrite decide_False; [done|]. destruct (state n); cbn; try lia; done.
Qed.

Lemma take_updates_members s us s' : take_updates sort config_ s = (us, s') -> members_ s' = members_ s.
Proof. unfold take_updates. destruct (get_updates _ _ _). by intros [= _ <-]. Qed.

Lemma ask_relays_members s tgt seq relays s' pc out :
  ask_relays sort self_ config_ s tgt seq relays = (s', pc, out) ->
  members_ s' = members_ s /\ probe_target pc = Some tgt /\ probe_seqs pc = [seq].
Proof.
  unfold ask_relays. destruct relays as [|relay rest]; [by intros [= <- <- <-]|].
  unfold indirect_ping_send. destruct (take_updates sort config_ s) as [us s1] eqn:Eu. intros [= <- <- <-].
  by rewrite (take_updates_members _ _ _ Eu).
Qed.

Definition suspected (now : Z) (m m' : members) (tgt : NodeId) : Prop :=
  exists n, m !! tgt = Some n /\ state n = NodeState_Alive /\
    m' = <[tgt := set_state n NodeState_Suspect (incarnation n) now]> m.

(** The decision after a timeout, on whether the ping was acknowledged. *)
Lemma probe_verdict now draw shuffle s running tgt seq (b : bool) s' pc' out :
  pending_acks_ s !! seq = Some b ->
  (probe_resume on_change sort self_ config_ now draw shuffle s running (IndirectWaiting tgt seq) = (s', pc', out) ->
     pc' = probe_head running /\
     if b then members_ s' = members_ s else members_ s' = members_ (suspect_target on_change now s tgt)) /\
  (probe_resume on_change sort self_ config_ now draw shuffle s running (DirectWaiting tgt seq) = (s', pc', out) ->
     if b then pc' = probe_head running /\ members_ s' = members_ s
     else (probe_target pc' = Some tgt /\ members_ s' = members_ s) \/
          (random_peers shuffle (members_ s) (indirect_ping_peers config_) self_ = [] /\
           pc' = probe_head running /\ members_ s' = members_ (suspect_target on_change now s tgt))).
Proof.
  intros Hb. cbn [probe_resume take_ack]. rewrite Hb. cbn [default from_option id].
  unfold probe_failed, set_pending. split.
  - destruct b; intros [= <- <- <-]; split; [done|done|done|]. by rewrite !suspect_target_members.
  - destruct b; [by intros [= <- <- <-]|]. unfold indirect_ping_start. cbn [members_]. case_decide as Ei.
    + intros [= <- <- <-]. right. split; [done|]. split; [done|]. by rewrite !suspect_target_members.
    + cbn. intros (E1 & E2 & _)%ask_relays_members. left. done.
Qed.

(** A resumption that writes to the table does so at a timeout. *)
Lemma probe_members now draw shuffle s running pc s' pc' out :
  probe_resume on_change sort self_ config_ now draw shuffle s running pc = (s', pc', out) ->
  members_ s' = members_ s \/ exists tgt seq, pc = DirectWaiting tgt seq \/ pc = IndirectWaiting tgt seq.
Proof.
  intros E. destruct pc as [|tgt seq|tgt seq|tgt seq rest|tgt seq|]; [|left|by right; eauto|left|by right; eauto|left].
  - left. cbn [probe_resume] in E. destruct running; cbn [negb] in E; [|by simplify_eq].
    destruct (random_peer _ _ _) as [tgt|]; [|by simplify_eq].
    unfold direct_ping_start in E. cbn in E. destruct (take_updates _ _ _) as [us s2] eqn:Eu. simplify_eq.
    by rewrite (take_updates_members _ _ _ Eu).
  - cbn in E. by simplify_eq.
  - cbn [probe_resume] in E. by apply ask_relays_members in E as [? _].
  - cbn in E. by simplify_eq.
Qed.

Lemma suspect_changes now s m' tgt :
  m' = members_ (suspect_target on_change now s tgt) -> m' <> members_ s -> suspected now (members_ s) m' tgt.
Proof.
  rewrite suspect_target_members. intros ->. destruct (members_ s !! tgt) as [n|] eqn:En; [|done].
  case_decide; [|done]. intros _. by exists n.
Qed.

(** C12: The failure detector is accurate and complete.  Whatever arrives and
    however the coroutines interleave, as long as the 32-bit sequence number has
    not wrapped: there is exactly one entry of [pending_acks_] for every ping
    under way, so none leaks and no two pings are confused; the probe changes a
    record only to suspect its target, which was recorded as alive, and only when
    no acknowledgement of the ping was handled between sending it and its timeout;
    an acknowledged ping leaves all records alone; and when nobody has answered
    for a live target by the end of the indirect ping, it is suspected. *)
Theorem probe_suspects_silent s l g now draw shuffle l' out :
  fresh_swim s -> loops_steps on_change sort self_ config_ (loops_start s) (l, g) -> issued g < 2 ^ 32 ->
  loops_next on_change sort self_ config_ (ProbeResumed now draw shuffle) l = (l', out) ->
  let m := members_ (swim l) in let m' := members_ (swim l') in
  NoDup (outstanding l) /\ (forall seq, is_Some (pending_acks_ (swim l) !! seq) <-> seq ∈ outstanding l) /\
  (m' <> m -> exists tgt seq h, probe_target (probe_task_ l) = Some tgt /\ probe_seqs (probe_task_ l) = [seq] /\
     heard g !! seq = Some h /\ ~ acked seq h /\ suspected now m m' tgt) /\
  (forall tgt seq, probe_task_ l = DirectWaiting tgt seq \/ probe_task_ l = IndirectWaiting tgt seq ->
     exists h, heard g !! seq = Some h /\
       (acked seq h -> m' = m /\ probe_task_ l' = probe_head (running_ l))) /\
  (forall tgt seq h n, probe_task_ l = IndirectWaiting tgt seq -> heard g !! seq = Some h -> ~ acked seq h ->
     m !! tgt = Some n -> state n = NodeState_Alive -> suspected now m m' tgt).
Proof.
  intros Hs Hr Hlt E m m'. destruct (loops_steps_inv _ _ _ _ _ _ Hs Hr) as [_ Hinv]. specialize (Hinv Hlt). cbn [fst snd] in Hinv.
  cbn [loops_next] in E. destruct (probe_resume _ _ _ _ _ _ _ _ _ _) as [[s' pc'] out'] eqn:Ep.
  apply pair_equal_spec in E as [<- <-]. cbn [swim probe_task_] in *.
  assert (forall tgt seq, probe_task_ l = DirectWaiting tgt seq \/ probe_task_ l = IndirectWaiting tgt seq ->
    exists b h, pending_acks_ (swim l) !! seq = Some b /\ heard g !! seq = Some h /\ (b = true <-> acked seq h)) as Hw.
  { intros tgt seq Hpc. assert (is_Some (pending_acks_ (swim l) !! seq)) as [b Hb].
    { apply (ai_dom _ _ _ _ Hinv). unfold outstanding. destruct Hpc as [-> | ->]; by left. }
    destruct (ai_heard _ _ _ _ Hinv _ _ Hb) as (h & Hh & Hbh). eauto. }
  split; [apply Hinv|]. split; [apply Hinv|]. split; [|split].
  - intros Hch. destruct (probe_members _ _ _ _ _ _ _ _ _ Ep) as [?|(tgt & seq & Hpc)]; [done|].
    destruct (Hw _ _ Hpc) as (b & h & Hb & Hh & Hbh).
    destruct (probe_verdict now draw shuffle _ (running_ l) tgt seq b s' pc' out' Hb) as [Hi Hd].
    exists tgt, seq, h. destruct Hpc as [Epc|Epc]; rewrite Epc in *; [specialize (Hd Ep)|specialize (Hi Ep)].
    + destruct b; [by destruct Hd|]. destruct Hd as [[_ ?]|(_ & _ & Hm)]; [done|].
      split_and!; [done..|by rewrite <- Hbh|by apply suspect_changes].
    + destruct Hi as [_ Hm]. destruct b; [done|]. split_and!; [done..|by rewrite <- Hbh|by apply suspect_changes].
  - intros tgt seq Hpc. destruct (Hw _ _ Hpc) as (b & h & Hb & Hh & Hbh). exists h. split; [done|]. intros ->%Hbh.
    destruct (probe_verdict now draw shuffle _ (running_ l) tgt seq true s' pc' out' Hb) as [Hi Hd].
    destruct Hpc as [Epc|Epc]; rewrite Epc in Ep; [destruct (Hd Ep)|destruct (Hi Ep)]; done.
  - intros tgt seq h n Epc Hh Hna Hn Ha. destruct (Hw tgt seq (or_intror Epc)) as (b & h' & Hb & Hh' & Hbh). simplify_eq.
    destruct (probe_verdict now draw shuffle _ (running_ l) tgt seq b s' pc' out' Hb) as [Hi _].
    rewrite Epc in Ep. destruct (Hi Ep) as [_ Hm]. destruct b; [tauto|]. exists n. split_and!; [done..|].
    unfold m'. rewrite Hm, suspect_target_members. unfold m in Hn. by rewrite Hn, decide_True.
Qed.

(** ** Stopping *)

(** How often a coroutine can still resume once [running_] is false. *)
Definition probe_left (pc : probe_pc) : nat :=
  match pc with
  | ProbeSleeping => 1
  | DirectSending _ _ => 3 + indirect_ping_peers config_
  | DirectWaiting _ _ => 2 + indirect_ping_peers config_
  | IndirectSending _ _ rest => 2 + length rest
  | IndirectWaiting _ _ => 1
  | ProbeEnded => 0
  end.

Definition detached_left (t : detached) : nat :=
  match t with
  | RelaySending _ _ _ => 3
  | RelayWaiting _ _ _ => 2
  | AckSending | RelayAcking _ => 1
  | Finished => 0
  end.

(** A datagram still to come can start one relay. *)
Definition loops_left l : nat :=
  probe_left (probe_task_ l) + match recv_task_ l with LoopWaiting => 4 | LoopEnded => 0 end +
  match reaper_task_ l with LoopWaiting => 1 | LoopEnded => 0 end + sum_list (detached_left <$> detached_tasks_ l).

(** The coroutine the event resumes is suspended. *)
Definition enabled (e : event) l : Prop :=
  match e with
  | ProbeResumed _ _ _ => probe_task_ l <> ProbeEnded
  | Received _ _ => recv_task_ l = LoopWaiting
  | ReaperResumed _ _ => reaper_task_ l = LoopWaiting
  | DetachedResumed i => exists t, detached_tasks_ l !! i = Some t /\ t <> Finished
  | Stopped => False
  end.

Inductive loops_run : loops R -> list event -> loops R -> Prop :=
  | lr_nil l : loops_run l [] l
  | lr_cons l e es l1 out l' :
      enabled e l -> loops_next on_change sort self_ config_ e l = (l1, out) ->
      loops_run l1 es l' -> loops_run l (e :: es) l'.

Lemma ask_relays_left s tgt seq relays s' pc out :
  ask_relays sort self_ config_ s tgt seq relays = (s', pc, out) -> probe_left pc = S (length relays).
Proof.
  unfold ask_relays. destruct relays; [by intros [= <- <- <-]|].
  destruct (indirect_ping_send _ _ _ _ _ _ _). by intros [= <- <- <-].
Qed.

Lemma probe_left_decreases now draw shuffle s pc s' pc' out :
  pc <> ProbeEnded ->
  probe_resume on_change sort self_ config_ now draw shuffle s false pc = (s', pc', out) ->
  (probe_left pc' < probe_left pc)%nat.
Proof.
  intros Hne E. destruct pc as [|tgt seq|tgt seq|tgt seq rest|tgt seq|]; cbn [probe_resume] in E; cbn [probe_left]; [..|done].
  - injection E as <- <- <-. cbn. lia.
  - injection E as <- <- <-. cbn. lia.
  - destruct (take_ack s seq) as [[] s1]; [simplify_eq; cbn; lia|]. unfold indirect_ping_start in E.
    case_decide; [unfold probe_failed in E; simplify_eq; cbn; lia|]. cbn in E. rewrite (ask_relays_left _ _ _ _ _ _ _ E).
    assert (length (random_peers shuffle (members_ s1) (indirect_ping_peers config_) self_) <= indirect_ping_peers config_)%nat;
      [|lia]. unfold random_peers. case_decide; [done|]. rewrite length_take. lia.
  - rewrite (ask_relays_left _ _ _ _ _ _ _ E). lia.
  - destruct (take_ack s seq) as [[] s1]; [|unfold probe_failed in E]; simplify_eq; cbn; lia.
Qed.

Lemma detached_left_decreases s t s' t' out :
  t <> Finished -> detached_resume self_ s t = (s', t', out) -> (detached_left t' < detached_left t)%nat.
Proof.
  intros Hne. destruct t; cbn [detached_resume]; try (intros [= <- <- <-]; cbn; lia); [|done].
  destruct (relay_timeout _ _ _ _ _) as [[[] s1] out1]; intros [= <- <- <-]; cbn; lia.
Qed.

Lemma sum_left_app ts ts' :
  sum_list (detached_left <$> ts ++ ts') = (sum_list (detached_left <$> ts) + sum_list (detached_left <$> ts'))%nat.
Proof. rewrite fmap_app. apply sum_list_with_app with (f := fun n => n). Qed.

Lemma spawns_left ts new :
  sum_list (detached_left <$> foldl spawn ts new) =
    (sum_list (detached_left <$> ts) + sum_list (detached_left <$> new))%nat.
Proof.
  assert (forall ts, sum_list (detached_left <$> filter (fun t => t <> Finished) ts) = sum_list (detached_left <$> ts)) as Hf.
  { intros l. induction l as [|x l IH]; [done|]. rewrite filter_cons. case_decide as Hx.
    - rewrite !fmap_cons. cbn. by rewrite IH.
    - destruct (decide (x = Finished)) as [->|]; [done|by destruct Hx]. }
  revert ts. induction new as [|t new IH]; intros ts; cbn [foldl]; [cbn; lia|].
  rewrite IH. unfold spawn. rewrite Hf, sum_left_app. cbn. lia.
Qed.

Lemma handle_message_left now s m s' out ts :
  handle_message on_change sort self_ config_ now s m = (s', out, ts) -> (sum_list (detached_left <$> ts) <= 3)%nat.
Proof.
  unfold handle_message. destruct (msg_type m).
  - destruct (on_ping _ _ _ _ _). intros [= <- <- <-]. cbn. lia.
  - intros [= <- <- <-]. cbn. lia.
  - unfold on_ping_req. destruct (target m); intros [= <- <- <-]; cbn; lia.
Qed.

Lemma loops_left_decreases e l l' out :
  running_ l = false -> enabled e l -> loops_next on_change sort self_ config_ e l = (l', out) ->
  running_ l' = false /\ (loops_left l' < loops_left l)%nat.
Proof.
  intros Hrun Hen E. unfold loops_left.
  destruct e as [now draw shuffle|now datagram|now clock|i|]; cbn [loops_next enabled] in *; [..|done].
  - rewrite Hrun in E. destruct (probe_resume _ _ _ _ _ _ _ _ _ _) as [[s' pc'] out'] eqn:Ep.
    apply pair_equal_spec in E as [<- _]. cbn. split; [done|].
    pose proof (probe_left_decreases _ _ _ _ _ _ _ _ Hen Ep). lia.
  - unfold recv_resume in E. rewrite Hen, Hrun in *.
    assert (exists s1 out1 ts, match datagram with
      | Some data => receive on_change sort self_ config_ now (swim l) data | None => (swim l, [], []) end = (s1, out1, ts) /\
      (sum_list (detached_left <$> ts) <= 3)%nat) as (s1 & out1 & ts & E1 & Hts).
    { destruct datagram as [data|]; [|eexists _, _, _; split; [done|cbn; lia]].
      unfold receive. destruct (deserialize data) as [msg|]; [|eexists _, _, _; split; [done|cbn; lia]].
      destruct (handle_message _ _ _ _ _ _ _) as [[s1 out1] ts] eqn:Eh. exists s1, out1, ts. split; [done|].
      by eapply handle_message_left. }
    rewrite E1 in E. apply pair_equal_spec in E as [<- _]. cbn. split; [done|]. rewrite spawns_left. lia.
  - apply pair_equal_spec in E as [<- _]. unfold reaper_resume. rewrite Hen, Hrun. cbn. split; [done|lia].
  - destruct Hen as (t & Ht & Hne). rewrite Ht in E.
    destruct (detached_resume _ _ _) as [[s' t'] out'] eqn:Ed. apply pair_equal_spec in E as [<- _]. cbn. split; [done|].
    pose proof (detached_left_decreases _ _ _ _ _ Hne Ed).
    rewrite insert_take_drop by (by eapply lookup_lt_Some). rewrite <- (take_drop_middle _ _ _ Ht) at 3.
    rewrite !sum_left_app, !fmap_cons. cbn. lia.
Qed.

(** C35: The protocol stops.  Once [stop] has been called, the coroutines resume a
    bounded number of times, however their operations complete: the probe finishes
    the ping it is in and starts no other, the receiver handles one more datagram,
    and the relays run to their end; when nothing is left to resume, every loop
    has ended. *)
Theorem stop_ends_loops l es l' :
  loops_run (stop l) es l' ->
  (length es + loops_left l' <= loops_left l)%nat /\
  (loops_left l' = 0%nat -> probe_task_ l' = ProbeEnded /\ recv_task_ l' = LoopEnded /\ reaper_task_ l' = LoopEnded /\
     Forall (eq Finished) (detached_tasks_ l')).
Proof.
  intros Hrun. split.
  - change (loops_left l) with (loops_left (stop l)). assert (running_ (stop l) = false) as Hs by done.
    induction Hrun as [l0|l0 e es l1 out l2 Hen E _ IH]; [cbn; lia|].
    destruct (loops_left_decreases _ _ _ _ Hs Hen E) as [Hs' Hlt]. specialize (IH Hs'). cbn [length]. lia.
  - unfold loops_left. intros H0. destruct (probe_task_ l'); cbn [probe_left] in H0; try lia.
    destruct (recv_task_ l'); [lia|]. destruct (reaper_task_ l'); [lia|]. split_and!; [done..|].
    induction (detached_tasks_ l') as [|t ts IH]; [constructor|]. rewrite fmap_cons in H0. cbn in H0.
    constructor; [|apply IH; cbn; lia]. destruct t; cbn in H0; (lia || done).
Qed.
End Detector.

(** ** On a run *)


Lemma probe_suspects_silent_witness :
  suspected 5 (members_ (swim demo_waiting.1))
    (members_ (swim (loops_next no_callback count_sort id_a default_config (demo_timeout 5) demo_waiting.1).1)) id_b.
Proof.
  destruct (probe_suspects_silent no_callback count_sort id_a default_config demo_swim demo_waiting.1 demo_waiting.2
    5 (fun _ => 0%nat) (fun xs => xs) _ _ (conj eq_refl eq_refl) demo_waiting_steps ltac:(vm_compute; reflexivity)
    (surjective_pairing _)) as (_ & _ & _ & _ & H).
  apply (H id_b 1 [] (mkNodeInfo id_b 11211 NodeState_Alive 0 0)); [vm_compute; reflexivity..|by intros ?%Exists_nil| |];
    vm_compute; reflexivity.
Defined.

Lemma stop_ends_loops_witness :
  (length [demo_timeout 5] + loops_left default_config
     (loops_next no_callback count_sort id_a default_config (demo_timeout 5) (stop demo_waiting.1)).1 <=
   loops_left default_config demo_waiting.1)%nat.
Proof.
  refine (proj1 (stop_ends_loops no_callback count_sort id_a default_config demo_waiting.1 [demo_timeout 5] _ _)).
  eapply lr_cons; [|apply surjective_pairing|apply lr_nil]. vm_compute. discriminate.
Defined.
