(* ===== verification/SwimTypes.v ===== *)
(** * The types of the SWIM state ([src/src/membership/swim_protocol.cpp])

    The fields of the protocol's state have machine widths, and names travel with
    a 16-bit length: every value the protocol stores stays within its type, so
    every datagram it sends is one that its peers can decode. *)

From stdpp Require Import relations.
From S2P Require Import Prelude Codec NodeInfo SwimMessage MemberList Disseminator SwimProtocol SwimLoops.

Local Open Scope Z_scope.

(** ** Datagrams *)

(** The port and the address in network order. *)
Record sockaddr_in := mkSockaddr { sin_port : bytes; sin_addr : bytes }.

(** [inet_pton] leaves the address at zero when the name is not a numeric one. *)
Definition resolve (inet_pton : bytes -> option bytes) (id : NodeId) : sockaddr_in :=
  mkSockaddr (be_encode 2 (gossip_port id)) (default (replicate 4 x00) (inet_pton (host id))).

(** What [send_message] hands to the socket. *)
Definition send_message (inet_pton : bytes -> option bytes) (msg : SwimMessage) (dest : NodeId) : bytes * sockaddr_in :=
  (serialize msg, resolve inet_pton dest).

(** ** The invariant *)

(** [NodeInfo], under the id it is stored for. *)
Definition member_typed (x : NodeId) (n : NodeInfo) : Prop :=
  NodeId_wf x /\ id n = x /\ in_width 64 (incarnation n) /\ in_width 16 (data_port n).

Definition queue_typed (q : list Entry) : Prop := Forall (fun e => Update_wf (update e)) q.

Record swim_typed {R} (s : Swim R) : Prop := {
  st_members : map_Forall member_typed (members_ s);
  st_queue : queue_typed (queue_ (disseminator_ s));
  st_incarnation : in_width 64 (incarnation_ s);
  st_counter : in_width 32 (seq_counter_ s)
}.

Definition probe_typed (pc : probe_pc) : Prop :=
  match pc with
  | DirectSending tgt seq | DirectWaiting tgt seq | IndirectWaiting tgt seq => NodeId_wf tgt /\ in_width 32 seq
  | IndirectSending tgt seq rest => NodeId_wf tgt /\ in_width 32 seq /\ Forall NodeId_wf rest
  | ProbeSleeping | ProbeEnded => True
  end.

Definition detached_typed (t : detached) : Prop :=
  match t with
  | RelaySending requester orig_seq _ | RelayWaiting requester orig_seq _ => NodeId_wf requester /\ in_width 32 orig_seq
  | AckSending | RelayAcking _ | Finished => True
  end.

Record loops_typed {R} (l : loops R) : Prop := {
  lt_swim : swim_typed (swim l);
  lt_probe : probe_typed (probe_task_ l);
  lt_detached : Forall detached_typed (detached_tasks_ l)
}.

Definition send_typed (d : send) : Prop := SwimMessage_wf (sent d) /\ NodeId_wf (dest d).

Lemma send_typed_intro ty seq snd tgt us d :
  in_width 32 seq -> NodeId_wf snd -> target_wf ty tgt -> Z.of_nat (length us) < 2 ^ 16 -> Forall Update_wf us ->
  NodeId_wf d -> send_typed (mkSend (mkSwimMessage ty seq snd tgt us) d).
Proof. intros. by split; [split_and!|]. Qed.

(** ** Tables and queues *)

Lemma add_node_typed m info :
  map_Forall member_typed m -> member_typed (id info) info -> map_Forall member_typed (add_node m info).1.2.
Proof.
  intros Hm Hi. rewrite add_node_eq. cbn zeta. destruct (m !! id info); [case_decide|]; cbn; try done;
    by apply map_Forall_insert_2.
Qed.

Lemma update_state_typed now m x st inc :
  map_Forall member_typed m -> in_width 64 inc -> map_Forall member_typed (update_state now m x st inc).1.2.
Proof.
  intros Hm Hinc. rewrite update_state_eq. destruct (m !! x) as [n|] eqn:En; [|done]. case_decide; [|done]. cbn.
  destruct (Hm _ _ En) as (? & ? & ? & ?). by apply map_Forall_insert_2.
Qed.

Lemma enqueue_typed q u : queue_typed q -> Update_wf u -> queue_typed (enqueue_list q u).
Proof.
  intros Hq Hu. induction Hq as [|e q He Hq IH]; cbn; [by apply Forall_singleton|].
  repeat case_decide; by constructor.
Qed.

Lemma alive_peers_typed m x : map_Forall member_typed m -> Forall NodeId_wf (alive_peers m x).
Proof.
  intros Hm. apply Forall_forall. intros y Hy. apply elem_of_alive_peers in Hy as (_ & n & Hn & _). by apply (Hm _ _ Hn).
Qed.

Section Types.
Context {R : Type} (on_change : R -> NodeId -> NodeInfo -> R).
Context (sort : list Entry -> list Entry) `{!StdSort sort}.
Context (self_ : NodeId) (config_ : Config).
Context (self_wf : NodeId_wf self_) (port_wf : in_width 16 (self_data_port config_)).
Context (piggyback_wf : Z.of_nat (max_piggyback_updates config_) < 2 ^ 16).
Implicit Types (s : Swim R) (l : loops R).

(** ** The pieces of the protocol *)

Lemma call_members_typed s r :
  swim_typed s -> map_Forall member_typed r.1.2 -> swim_typed (call_members on_change s r).2.
Proof. intros [] Hr. destruct r as [[b m] ev]. by split. Qed.

Lemma enqueue_update_typed s u : swim_typed s -> Update_wf u -> swim_typed (enqueue_update s u).
Proof. intros [] Hu. split; [done| |done..]. by apply enqueue_typed. Qed.

Lemma set_pending_typed s p : swim_typed s -> swim_typed (set_pending s p).
Proof. by intros []. Qed.

Lemma next_seq_typed s : swim_typed s -> in_width 32 (next_seq s).1 /\ swim_typed (next_seq s).2.
Proof. intros []. split; [done|]. split; [done..|]. by apply wrap_in_width. Qed.

(** What is piggybacked comes from the queue. *)
Lemma take_updates_typed s us s' :
  swim_typed s -> take_updates sort config_ s = (us, s') ->
  swim_typed s' /\ Z.of_nat (length us) < 2 ^ 16 /\ Forall Update_wf us.
Proof.
  intros [Hm Hq Hi Hc] [= <- <-]. set (n := Nat.min _ _).
  assert (queue_typed (sort (queue_ (disseminator_ s)))) as Hs by (unfold queue_typed; by rewrite sort_perm).
  assert (queue_typed (take n (sort (queue_ (disseminator_ s))))) as Ht by (by apply Forall_take).
  split_and!.
  - split; [done| |done..]. apply Forall_forall. intros e [_ He]%list_elem_of_filter. revert e He. apply Forall_forall, Forall_app.
    split; [by apply Forall_fmap|by apply Forall_drop].
  - rewrite length_fmap, length_take. lia.
  - by apply Forall_fmap.
Qed.

Lemma apply_update_typed now s u : swim_typed s -> Update_wf u -> swim_typed (apply_update on_change self_ config_ now s u).
Proof.
  intros Hs (Hn & Hi & Hp). unfold apply_update. repeat case_decide; [|done| |].
  - assert (in_width 64 (u64 (incarnation_ s + 1))) as Hinc by (by apply wrap_in_width).
    apply call_members_typed; [apply enqueue_update_typed; [by destruct Hs|done]|].
    apply update_state_typed; [apply Hs|done].
  - apply call_members_typed; [done|]. apply add_node_typed; [apply Hs|done].
  - apply call_members_typed; [done|]. apply update_state_typed; [apply Hs|done].
Qed.

Lemma apply_updates_typed now s us :
  swim_typed s -> Forall Update_wf us -> swim_typed (apply_updates on_change self_ config_ now s us).
Proof.
  intros Hs Hus. unfold apply_updates. revert s Hs. induction Hus as [|u us Hu _ IH]; intros s Hs; [done|].
  by apply IH, apply_update_typed.
Qed.

Lemma learn_sender_typed now s m : swim_typed s -> SwimMessage_wf m -> swim_typed (learn_sender on_change self_ now s m).
Proof.
  intros Hs (_ & Hsnd & _ & _ & Hus). unfold learn_sender. case_decide; [|done].
  assert (in_width 16 (announced_port m)) as Hp.
  { unfold announced_port. destruct (list_find _ _) as [[i u]|] eqn:Ef; [|done].
    apply list_find_Some in Ef as (Hu & _). by apply (Forall_lookup_1 _ _ _ _ Hus Hu). }
  apply enqueue_update_typed; [|done]. apply call_members_typed; [done|]. apply add_node_typed; [apply Hs|done].
Qed.

Lemma on_ack_typed now s m : swim_typed s -> swim_typed (on_ack on_change now s m).
Proof.
  intros Hs. unfold on_ack. set (s1 := match pending_acks_ s !! _ with Some _ => _ | None => _ end).
  assert (swim_typed s1) as Hs1 by (subst s1; case_match; [by apply set_pending_typed|done]).
  destruct (get_node _ _) as [n|] eqn:En; [|done]. case_decide; [|done]. apply call_members_typed; [done|].
  apply update_state_typed; [apply Hs1|]. by apply (st_members _ Hs1 _ _ En).
Qed.

Lemma handle_message_typed now s m s' out ts :
  swim_typed s -> SwimMessage_wf m -> handle_message on_change sort self_ config_ now s m = (s', out, ts) ->
  swim_typed s' /\ Forall send_typed out /\ Forall detached_typed ts.
Proof.
  intros Hs Hm. unfold handle_message.
  assert (swim_typed (apply_updates on_change self_ config_ now (learn_sender on_change self_ now s m) (updates m))) as H1.
  { apply apply_updates_typed; [by apply learn_sender_typed|apply Hm]. }
  revert H1. generalize (apply_updates on_change self_ config_ now (learn_sender on_change self_ now s m) (updates m)).
  intros s1 H1. destruct Hm as (Hseq & Hsnd & Htgt & _ & _). destruct (msg_type m).
  - unfold on_ping. destruct (take_updates _ _ _) as [us s2] eqn:Eu. intros [= <- <- <-].
    destruct (take_updates_typed _ _ _ H1 Eu) as (? & ? & ?). split; [done|].
    split; apply Forall_singleton; [by apply send_typed_intro|done].
  - intros [= <- <- <-]. split; [by apply on_ack_typed|]. split; constructor.
  - unfold on_ping_req. destruct (target m) as [tgt|]; [|done]. unfold relay_start.
    destruct (next_seq_typed _ H1) as [? ?]. intros [= <- <- <-]. split; [by apply set_pending_typed|].
    split; apply Forall_singleton; [by apply send_typed_intro|done].
Qed.

Lemma suspect_target_typed now s tgt : swim_typed s -> swim_typed (suspect_target on_change now s tgt).
Proof.
  intros Hs. unfold suspect_target. destruct (get_node _ _) as [n|] eqn:En; [|done].
  destruct (st_members _ Hs _ _ En) as (Hx & _ & Hn & _).
  pose proof (call_members_typed s _ Hs (update_state_typed now _ tgt NodeState_Suspect _ (st_members _ Hs) Hn)) as H1.
  destruct (call_members _ _ _) as [[] s1]; [|done]. by apply enqueue_update_typed.
Qed.

Lemma reap_typed now clock s : swim_typed s -> swim_typed (reap on_change self_ config_ now clock s).
Proof.
  intros Hs. unfold reap.
  assert (Forall (fun p => member_typed p.1 p.2) (map_to_list (members_ s))) as Hl
    by (apply Forall_forall; intros [x n] Hx%elem_of_map_to_list; by apply (st_members _ Hs)).
  revert Hl. generalize (map_to_list (members_ s)). intros ps Hl. revert s Hs.
  induction Hl as [|[x n] ps (Hx & _ & Hn & _) _ IH]; intros s Hs; [done|]. cbn [foldl]. apply IH.
  unfold reap_node. repeat case_decide; try done.
  pose proof (call_members_typed s _ Hs (update_state_typed clock _ x NodeState_Dead _ (st_members _ Hs) Hn)) as Hc.
  cbn [snd] in *. destruct (call_members _ _ _) as [[] s1]; [|done]. by apply enqueue_update_typed.
Qed.

(** ** The coroutines *)

Lemma ask_relays_typed s tgt seq relays s' pc out :
  swim_typed s -> NodeId_wf tgt -> in_width 32 seq -> Forall NodeId_wf relays ->
  ask_relays sort self_ config_ s tgt seq relays = (s', pc, out) ->
  swim_typed s' /\ probe_typed pc /\ Forall send_typed out.
Proof.
  intros Hs Ht Hq Hr. unfold ask_relays. destruct Hr as [|relay rest Hy Hr]; [by intros [= <- <- <-]|].
  unfold indirect_ping_send. destruct (take_updates _ _ _) as [us s1] eqn:Eu. intros [= <- <- <-].
  destruct (take_updates_typed _ _ _ Hs Eu) as (? & ? & ?). split; [done|]. split; [done|].
  apply Forall_singleton. by apply send_typed_intro.
Qed.

Lemma probe_failed_typed now s tgt running s' pc out :
  swim_typed s -> probe_failed on_change now s tgt running = (s', pc, out) ->
  swim_typed s' /\ probe_typed pc /\ Forall send_typed out.
Proof.
  intros Hs [= <- <- <-]. split; [by apply suspect_target_typed|]. split; [by destruct running|constructor].
Qed.

Lemma probe_resume_typed now draw shuffle s running pc s' pc' out :
  (forall xs, shuffle xs ≡ₚ xs) -> swim_typed s -> probe_typed pc ->
  probe_resume on_change sort self_ config_ now draw shuffle s running pc = (s', pc', out) ->
  swim_typed s' /\ probe_typed pc' /\ Forall send_typed out.
Proof.
  intros Hsh Hs Hpc E. assert (probe_typed (probe_head running)) as Hhead by (by destruct running).
  destruct pc as [|tgt seq|tgt seq|tgt seq rest|tgt seq|]; cbn [probe_resume] in E.
  - destruct running; cbn [negb] in E; [|by injection E as <- <- <-].
    destruct (random_peer _ _ _) as [tgt|] eqn:Er; [|by injection E as <- <- <-].
    assert (NodeId_wf tgt) as Ht.
    { unfold random_peer in Er. case_decide; [done|]. exact (Forall_lookup_1 _ _ _ _ (alive_peers_typed _ _ (st_members _ Hs)) Er). }
    unfold direct_ping_start in E. destruct (next_seq_typed _ Hs) as [Hq Hs1]. cbn in E.
    destruct (take_updates _ _ _) as [us s2] eqn:Eu. injection E as <- <- <-.
    destruct (take_updates_typed _ _ _ (set_pending_typed _ _ Hs1) Eu) as (? & ? & ?). split; [done|]. split; [done|].
    apply Forall_singleton. by apply send_typed_intro.
  - by injection E as <- <- <-.
  - destruct Hpc as [Ht _]. destruct (take_ack s seq) as [alive s1] eqn:Ea.
    assert (swim_typed s1) as Hs1 by (injection Ea as _ <-; by apply set_pending_typed).
    destruct alive; [by injection E as <- <- <-|]. unfold indirect_ping_start in E.
    case_decide; [by eapply probe_failed_typed|]. destruct (next_seq_typed _ Hs1) as [Hq Hs2]. cbn in E.
    eapply ask_relays_typed; [| | | |exact E]; [by apply (set_pending_typed _ _ Hs2)|done|done|].
    pose proof (alive_peers_typed _ self_ (st_members _ Hs1)) as Hp.
    unfold random_peers. case_decide; [done|]. apply Forall_take. by rewrite Hsh.
  - destruct Hpc as (Ht & Hq & Hr). by eapply ask_relays_typed.
  - destruct (take_ack s seq) as [alive s1] eqn:Ea.
    assert (swim_typed s1) as Hs1 by (injection Ea as _ <-; by apply set_pending_typed).
    destruct alive; [by injection E as <- <- <-|]. by eapply probe_failed_typed.
  - by injection E as <- <- <-.
Qed.

Lemma detached_resume_typed s t s' t' out :
  swim_typed s -> detached_typed t -> detached_resume self_ s t = (s', t', out) ->
  swim_typed s' /\ detached_typed t' /\ Forall send_typed out.
Proof.
  intros Hs Ht E. destruct t as [|rq os seq|rq os seq|seq|]; cbn [detached_resume] in E;
    try (injection E as <- <- <-; split; [by try apply set_pending_typed|done]).
  unfold relay_timeout in E. cbn in E. destruct (default _ _); injection E as <- <- <-;
    (split; [by repeat apply set_pending_typed|]); (split; [done|]); [|constructor].
  apply Forall_singleton. destruct Ht. by apply send_typed_intro.
Qed.

Lemma spawns_typed ts new : Forall detached_typed ts -> Forall detached_typed new -> Forall detached_typed (foldl spawn ts new).
Proof.
  intros Hts Hnew. revert ts Hts. induction Hnew as [|t new Ht _ IH]; intros ts Hts; [done|]. apply IH.
  apply Forall_forall. intros x [_ Hx]%list_elem_of_filter. revert x Hx. apply Forall_forall, Forall_app.
  by split; [|apply Forall_singleton].
Qed.

Lemma receive_typed now s data s' out ts :
  swim_typed s -> receive on_change sort self_ config_ now s data = (s', out, ts) ->
  swim_typed s' /\ Forall send_typed out /\ Forall detached_typed ts.
Proof.
  intros Hs. unfold receive. destruct (deserialize data) as [m|] eqn:Ed; [|by intros [= <- <- <-]].
  apply handle_message_typed; [done|]. by apply deserialize_iff in Ed as [? _].
Qed.

Lemma loops_next_typed e l l' out :
  event_ok e -> loops_typed l -> loops_next on_change sort self_ config_ e l = (l', out) ->
  loops_typed l' /\ Forall send_typed out.
Proof.
  intros Hok [Hs Hp Hd] E. destruct e as [now draw shuffle|now datagram|now clock|i|]; cbn [loops_next event_ok] in *.
  - destruct (probe_resume _ _ _ _ _ _ _ _ _ _) as [[s' pc'] out'] eqn:Ep. apply pair_equal_spec in E as [<- <-].
    destruct (probe_resume_typed _ _ _ _ _ _ _ _ _ (proj2 Hok) Hs Hp Ep) as (? & ? & ?). by split.
  - unfold recv_resume in E. destruct (recv_task_ l); [|by apply pair_equal_spec in E as [<- <-]].
    destruct datagram as [data|]; [|by apply pair_equal_spec in E as [<- <-]].
    destruct (receive _ _ _ _ _ _ _) as [[s' out'] ts] eqn:Er. apply pair_equal_spec in E as [<- <-].
    destruct (receive_typed _ _ _ _ _ _ Hs Er) as (? & ? & ?). split; [|done]. split; [done..|]. by apply spawns_typed.
  - apply pair_equal_spec in E as [<- <-]. split; [|constructor]. unfold reaper_resume.
    destruct (reaper_task_ l); [|done]. destruct (running_ l); [|done]. split; [|done..]. by apply reap_typed.
  - destruct (detached_tasks_ l !! i) as [t|] eqn:Et; [|by apply pair_equal_spec in E as [<- <-]].
    destruct (detached_resume _ _ _) as [[s' t'] out'] eqn:Ed. apply pair_equal_spec in E as [<- <-].
    destruct (detached_resume_typed _ _ _ _ _ Hs (Forall_lookup_1 _ _ _ _ Hd Et) Ed) as (? & ? & ?).
    split; [|done]. split; [done..|]. by apply Forall_insert.
  - apply pair_equal_spec in E as [<- <-]. by split.
Qed.

Lemma loops_steps_typed a b :
  loops_steps on_change sort self_ config_ a b -> loops_typed a.1 -> loops_typed b.1.
Proof.
  induction 1 as [|a b c (out & Hstep) _ IH]; [done|]. intros Ha. apply IH.
  destruct Hstep as [e l l' g out Hok E]. by apply (loops_next_typed _ _ _ _ Hok Ha E).
Qed.

(** C13: The state keeps its types, and what is sent can be decoded.  From a
    well-typed start, whatever bytes arrive and however the coroutines interleave,
    incarnations stay within 64 bits, sequence numbers within 32, ports within 16
    and host names below 65536 bytes, in the member table, the gossip queue and
    the frames of the coroutines; and every datagram the node sends decodes to the
    message it meant, and goes to the gossip port of the node it is for. *)
Theorem swim_well_typed inet_pton s l g :
  swim_typed s -> loops_steps on_change sort self_ config_ (loops_start s) (l, g) ->
  loops_typed l /\
  (forall out a, loops_step on_change sort self_ config_ (l, g) out a ->
     Forall (fun d => let '(datagram, addr) := send_message inet_pton (sent d) (dest d) in
                      deserialize datagram = Some (sent d) /\ be_decode (sin_port addr) = gossip_port (dest d)) out).
Proof.
  intros Hs Hr. assert (loops_typed l) as Hl by (by apply (loops_steps_typed _ _ Hr); split).
  split; [done|]. intros out a Hstep. inversion Hstep as [e l0 l' g0 out0 Hok E]; subst.
  destruct (loops_next_typed _ _ _ _ Hok Hl E) as [_ Hout]. eapply Forall_impl; [exact Hout|].
  intros d [Hm [_ Hd]]. cbn [send_message resolve sin_port]. split; [|by apply (be_decode_encode 2)]. apply deserialize_iff. split; [done|]. apply holds_0. exists []. by rewrite app_nil_r.
Qed.
End Types.

Lemma swim_well_typed_witness :
  loops_typed demo_waiting.1 /\
  Forall (fun d => let '(datagram, addr) := send_message (fun _ => None) (sent d) (dest d) in
                   deserialize datagram = Some (sent d) /\ be_decode (sin_port addr) = gossip_port (dest d))
    (loops_next no_callback count_sort id_a default_config (Received 5 (Some (serialize (mkSwimMessage Ping 7 id_c None []))))
       demo_waiting.1).2.
Proof.
  assert (NodeId_wf id_a /\ NodeId_wf id_b /\ NodeId_wf id_c) as (Ha & Hb & Hc) by (split_and!; by vm_compute).
  assert (swim_typed demo_swim) as Hs.
  { split; [|constructor|by vm_compute..].
    repeat apply map_Forall_insert_2; [..|apply map_Forall_empty]; split_and!; first [done|by vm_compute]. }
  destruct (swim_well_typed no_callback count_sort id_a default_config Ha ltac:(by vm_compute) ltac:(by vm_compute)
    (fun _ => None) demo_swim demo_waiting.1 demo_waiting.2 Hs demo_waiting_steps) as [Hl Hout].
  split; [exact Hl|]. eapply Hout. eapply ls_event; [|apply surjective_pairing]. exact I.
Defined.
