(* ===== verification/Node.v ===== *)
(** * A node: membership, gossip and the ring together ([src/src/main.cpp])

    [main] wires the member list to the ring with a change callback, records
    the node itself and the seed, announces itself and starts the protocol. *)

From stdpp Require Import relations.
From S2P Require Import Prelude NodeInfo OrderedMap.
From S2P Require RingStore.
From S2P Require Import SwimMessage MemberList Disseminator SwimProtocol.

Local Open Scope Z_scope.

(** The callback: add on [Alive], remove on [Dead] and [Left]. *)
Definition sync_ring (ring : gmap Z NodeId) (id : NodeId) (info : NodeInfo) : gmap Z NodeId :=
  if decide (state info = NodeState_Alive) then RingStore.add_node ring id RingStore.kDefaultVnodes
  else if decide (state info = NodeState_Dead \/ state info = NodeState_Left) then RingStore.remove_node ring id
  else ring.

Abbreviation NodeSt := (Swim (gmap Z NodeId)).

(** The part of [main] before the event loop. *)
Definition boot (now : Z) (self : NodeId) (data_port : Z) (seed : option (NodeId * Z)) : NodeSt :=
  let s := mkSwim MemberList_new (Disseminator_new default_max_transmissions) RingStore.RingStore_new 0 0 ∅ in
  let self_info := mkNodeInfo self data_port NodeState_Alive 0 now in
  let s := (call_members sync_ring s (add_node (members_ s) self_info)).2 in
  let s := match seed with
           | Some (seed_id, seed_data_port) =>
               let seed_info := mkNodeInfo seed_id seed_data_port NodeState_Alive 0 now in
               (call_members sync_ring s (add_node (members_ s) seed_info)).2
           | None => s
           end in
  enqueue_update s (mkUpdate Join self 0 data_port).

(** The protocol configuration of [main]. *)
Definition node_config (data_port : Z) : Config := mkConfig 5000 3 8 data_port.

(** ** The ring follows the member list *)

Definition tokens (x : NodeId) : list Z := RingStore.vnode_tokens x RingStore.kDefaultVnodes.

(** Every token belongs to a member that is alive or suspected, and is one of
    its own. *)
Definition ring_sound (mr : members * gmap Z NodeId) : Prop :=
  forall t x, mr.2 !! t = Some x -> t ∈ tokens x /\
    exists n, mr.1 !! x = Some n /\ (state n = NodeState_Alive \/ state n = NodeState_Suspect).

(** Every member that is alive holds all its tokens. *)
Definition ring_complete (mr : members * gmap Z NodeId) : Prop :=
  forall x n t, mr.1 !! x = Some n -> state n = NodeState_Alive -> t ∈ tokens x -> mr.2 !! t = Some x.

(** No two members hash to a common token. *)
Definition collision_free (m : members) : Prop :=
  forall x y t, is_Some (m !! x) -> is_Some (m !! y) -> t ∈ tokens x -> t ∈ tokens y -> x = y.

Lemma sync_sound m r x n : ring_sound (m, r) -> ring_sound (<[x := n]> m, sync_ring r x n).
Proof.
  intros H t y. simpl. unfold sync_ring. destruct (decide (y = x)) as [->|Hne].
  - rewrite lookup_insert_eq. repeat case_decide.
    + unfold RingStore.add_node. rewrite RingStore.lookup_add_node_tokens.
      case_decide; [by eauto 6|]. intros [? _]%H. by eauto 6.
    + intros [_ ?]%RingStore.lookup_remove_node. done.
    + intros [Ht _]%H. split; [done|]. exists n. split; [done|]. destruct (state n); naive_solver.
  - rewrite lookup_insert_ne by done. repeat case_decide.
    + unfold RingStore.add_node. rewrite RingStore.lookup_add_node_tokens. case_decide; [congruence|apply H].
    + intros [Ht _]%RingStore.lookup_remove_node. by apply H in Ht.
    + apply H.
Qed.

Lemma sync_complete m r x n :
  collision_free (<[x := n]> m) -> ring_complete (m, r) -> ring_complete (<[x := n]> m, sync_ring r x n).
Proof.
  intros Hcf H y n' t Hy Hs Ht. simpl in *. unfold sync_ring. destruct (decide (y = x)) as [->|Hne].
  - rewrite lookup_insert_eq in Hy. simplify_eq. rewrite decide_True by done.
    unfold RingStore.add_node. rewrite RingStore.lookup_add_node_tokens. by rewrite decide_True.
  - rewrite lookup_insert_ne in Hy by done. pose proof (H y n' t Hy Hs Ht) as Hr. simpl in Hr.
    repeat case_decide.
    + unfold RingStore.add_node. rewrite RingStore.lookup_add_node_tokens. rewrite decide_False; [done|].
      intros Htx. apply Hne. eapply Hcf; [| |exact Ht|exact Htx].
      * rewrite lookup_insert_ne, Hy by done. eauto.
      * rewrite lookup_insert_eq. eauto.
    + apply RingStore.lookup_remove_node. done.
    + done.
Qed.

Section Calls.
Context (self : NodeId).

Lemma add_call_cases mr info :
  run_call sync_ring mr (add_node mr.1 info) = mr \/
  exists x n, run_call sync_ring mr (add_node mr.1 info) = (<[x := n]> mr.1, sync_ring mr.2 x n).
Proof.
  destruct mr as [m r]. unfold run_call. rewrite add_node_eq. simpl.
  destruct (m !! id info); [case_decide|]; [|by left|]; right; simpl;
    unfold notify; rewrite lookup_insert_eq; by eexists _, _.
Qed.

(** A call either changes nothing or writes one record and calls the callback
    with it. *)
Lemma member_call_cases mr mr' :
  member_call sync_ring self mr mr' ->
  mr' = mr \/ exists x n, mr' = (<[x := n]> mr.1, sync_ring mr.2 x n).
Proof.
  destruct 1 as [now x st inc [m r] Hx|info [m r] Hne Hst]; unfold run_call; simpl.
  - rewrite update_state_eq. destruct (m !! x); [|by left]. case_decide; [|by left]. right. simpl.
    unfold notify. rewrite lookup_insert_eq. by eexists _, _.
  - apply (add_call_cases (m, r)).
Qed.

Lemma calls_sound mr mr' : rtc (member_call sync_ring self) mr mr' -> ring_sound mr -> ring_sound mr'.
Proof.
  induction 1 as [|a b c H _ IH]; [done|]. intros Hs. apply IH.
  destruct (member_call_cases _ _ H) as [->|(x & n & ->)]; [done|].
  destruct a. by apply sync_sound.
Qed.

Lemma collision_free_le m m' : members_le m m' -> collision_free m' -> collision_free m.
Proof.
  intros Hle Hcf x y t [n Hx] [n' Hy]. destruct (Hle _ _ Hx) as (? & Hx' & _).
  destruct (Hle _ _ Hy) as (? & Hy' & _). apply Hcf; by eexists.
Qed.

Lemma calls_complete mr mr' :
  rtc (member_call sync_ring self) mr mr' -> collision_free mr'.1 -> ring_complete mr -> ring_complete mr'.
Proof.
  induction 1 as [|a b c H Hrest IH]; [done|]. intros Hcf Hc. apply IH; [done|].
  pose proof (collision_free_le _ _ (member_calls_le sync_ring self _ _ Hrest) Hcf) as Hcfb.
  destruct (member_call_cases _ _ H) as [->|(x & n & ->)]; [done|].
  destruct a. by apply sync_complete.
Qed.
End Calls.

(** ** From the start *)

(** The two calls of [boot]. *)
Definition boot_calls (now : Z) (self : NodeId) (data_port : Z) (seed : option (NodeId * Z)) : list NodeInfo :=
  mkNodeInfo self data_port NodeState_Alive 0 now ::
  match seed with
  | Some (x, p) => [mkNodeInfo x p NodeState_Alive 0 now]
  | None => []
  end.

Lemma boot_membership now self data_port seed :
  membership (boot now self data_port seed) =
    foldl (fun mr info => run_call sync_ring mr (add_node mr.1 info)) (∅, ∅)
      (boot_calls now self data_port seed).
Proof.
  unfold boot, boot_calls. cbv zeta. change (membership (enqueue_update ?s ?u)) with (membership s).
  destruct seed as [[x p]|]; rewrite !membership_call; [|done].
  cbn [foldl]. by f_equal.
Qed.

Lemma add_node_alive m info x :
  state info = NodeState_Alive ->
  (exists n, m !! x = Some n /\ state n = NodeState_Alive) \/ (m !! x = None /\ id info = x) ->
  exists n, (add_node m info).1.2 !! x = Some n /\ state n = NodeState_Alive.
Proof.
  intros Hs Hx. rewrite add_node_eq. simpl. destruct (decide (id info = x)) as [<-|Hne].
  - destruct Hx as [(n & Hn & Ha)|[Hn _]]; rewrite Hn.
    + case_decide; simpl; [exists info; by rewrite lookup_insert_eq|by exists n].
    + exists info. simpl. by rewrite lookup_insert_eq.
  - destruct Hx as [(n & Hn & Ha)|[_ ?]]; [|done]. exists n.
    destruct (m !! id info); [case_decide|]; simpl; rewrite ?lookup_insert_ne by done; done.
Qed.

Lemma boot_self now self data_port seed : self_alive self (members_ (boot now self data_port seed)).
Proof.
  change (members_ (boot now self data_port seed)) with (membership (boot now self data_port seed)).1.
  rewrite boot_membership.
  assert (self_alive self (add_node ∅ (mkNodeInfo self data_port NodeState_Alive 0 now)).1.2) as H
    by (apply add_node_alive; [done|by right]).
  destruct seed as [[x p]|]; [|exact H]. apply add_node_alive; [done|by left].
Qed.

Lemma boot_sound now self data_port seed : ring_sound (membership (boot now self data_port seed)).
Proof.
  rewrite boot_membership. generalize (boot_calls now self data_port seed). intros l.
  assert (ring_sound (∅, ∅)) as H by (intros t x; simpl; by rewrite lookup_empty). revert H.
  generalize (∅ : members, ∅ : gmap Z NodeId). induction l as [|info l IH]; intros mr H; simpl; [done|].
  apply IH. destruct (add_call_cases mr info) as [->|(x & n & ->)]; [done|]. destruct mr. by apply sync_sound.
Qed.

Lemma boot_calls_le l mr :
  members_le mr.1 (foldl (fun mr info => run_call sync_ring mr (add_node mr.1 info)) mr l).1.
Proof.
  revert mr. induction l as [|i l IH]; intros mr; simpl; [apply members_le_refl|].
  eapply members_le_trans; [apply (add_node_le mr.1 i)|apply (IH (run_call sync_ring mr (add_node mr.1 i)))].
Qed.

Lemma boot_complete now self data_port seed :
  collision_free (members_ (boot now self data_port seed)) ->
  ring_complete (membership (boot now self data_port seed)).
Proof.
  change (members_ (boot now self data_port seed)) with (membership (boot now self data_port seed)).1.
  rewrite boot_membership. generalize (boot_calls now self data_port seed). intros l.
  assert (ring_complete (∅, ∅)) as H by (intros x n t; simpl; by rewrite lookup_empty). revert H.
  generalize (∅ : members, ∅ : gmap Z NodeId). induction l as [|info l IH]; intros mr H Hcf; simpl; [done|].
  apply IH; [|done].
  pose proof (boot_calls_le l (run_call sync_ring mr (add_node mr.1 info))) as Hle.
  pose proof (collision_free_le _ _ Hle Hcf) as Hcf1.
  destruct (add_call_cases mr info) as [E|(x & n & E)]; rewrite E in *; [done|].
  destruct mr. by apply sync_complete.
Qed.

(** The ring of a running node is sound, and complete as long as no two members
    share a token. *)
Lemma node_ring sort now self data_port seed s :
  swim_steps sync_ring sort self (node_config data_port) (boot now self data_port seed) s ->
  ring_sound (membership s) /\ (collision_free (members_ s) -> ring_complete (membership s)).
Proof.
  intros Hsteps%swim_steps_calls. split; [apply (calls_sound self _ _ Hsteps), boot_sound|].
  intros Hcf. apply (calls_complete self _ _ Hsteps Hcf), boot_complete.
  by eapply collision_free_le; [apply (member_calls_le sync_ring self _ _ Hsteps)|].
Qed.

(** C9: whatever datagrams arrive and however the coroutines interleave, the
    ring of a running node routes every key to a member it believes alive or
    suspected, never to a dead or departed one.  As long as no two of the
    members it knows hash to a common token, every alive member also holds all
    its tokens, so every key has an owner. *)
Theorem node_routes_to_members sort now self data_port seed s :
  swim_steps sync_ring sort self (node_config data_port) (boot now self data_port seed) s ->
  (forall h x, RingStore.get_node_for_key (env_ s) h = Some x ->
     exists n, members_ s !! x = Some n /\ (state n = NodeState_Alive \/ state n = NodeState_Suspect)) /\
  (collision_free (members_ s) ->
     (forall x n t, members_ s !! x = Some n -> state n = NodeState_Alive -> t ∈ tokens x ->
        env_ s !! t = Some x) /\
     forall h, is_Some (RingStore.get_node_for_key (env_ s) h)).
Proof.
  intros Hsteps. destruct (node_ring _ _ _ _ _ _ Hsteps) as [Hsound Hcomplete].
  apply swim_steps_calls in Hsteps. split.
  - intros h x. rewrite RingStore.get_node_owner. intros [t Ht]%owner_token. by apply Hsound in Ht as [_ ?].
  - intros Hcf. pose proof (Hcomplete Hcf) as Hc.
    split; [exact Hc|]. intros h. rewrite RingStore.get_node_owner. apply owner_is_some. intros E.
    destruct (member_calls_self sync_ring self _ _ Hsteps (boot_self now self data_port seed)) as (n & Hn & Hs).
    assert (hash_node_token self 0 ∈ tokens self) as Ht.
    { apply list_elem_of_fmap. exists 0. split; [done|]. apply elem_of_seqZ. by compute. }
    pose proof (Hc _ _ _ Hn Hs Ht) as Hl. simpl in Hl. by rewrite E, lookup_empty in Hl.
Qed.

Definition disjointb (la lb : list Z) : bool := forallb (fun t => negb (bool_decide (t ∈ lb))) la.

Lemma collision_free_pair (a b : NodeId) (na nb : NodeInfo) :
  disjointb (tokens a) (tokens b) = true ->
  collision_free (<[b := nb]> (<[a := na]> ∅)).
Proof.
  intros Hd. unfold disjointb in Hd. rewrite forallb_forall in Hd.
  assert (forall t, t ∈ tokens a -> t ∈ tokens b -> False) as Hdisj.
  { intros t Ha%list_elem_of_In%Hd Hb. apply negb_true_iff, bool_decide_eq_false in Ha. done. }
  assert (forall z, is_Some ((<[b := nb]> (<[a := na]> ∅) : members) !! z) -> z = a \/ z = b) as Hz.
  { intros z [n Hn].
    apply lookup_insert_Some in Hn as [[<- _]|[_ [[<- _]|[_ Hn]]%lookup_insert_Some]]; [by right|by left|].
    by rewrite lookup_empty in Hn. }
  intros x y t Hx%Hz Hy%Hz H1 H2.
  destruct Hx as [-> | ->], Hy as [-> | ->]; [done| | |done]; exfalso; by eapply Hdisj.
Qed.

Definition demo_node : NodeSt := boot 0 id_a 11211 (Some (id_b, 11211)).

Lemma boot_members_seed now self data_port x p :
  x <> self ->
  members_ (boot now self data_port (Some (x, p))) =
    <[x := mkNodeInfo x p NodeState_Alive 0 now]>
      (<[self := mkNodeInfo self data_port NodeState_Alive 0 now]> ∅).
Proof.
  intros Hne. change (members_ (boot now self data_port (Some (x, p)))) with
    (membership (boot now self data_port (Some (x, p)))).1.
  rewrite boot_membership. unfold boot_calls. cbn [foldl run_call fst].
  rewrite (add_node_eq ∅). cbn [id]. rewrite lookup_empty. cbn [fst snd].
  rewrite add_node_eq. cbn [id]. rewrite lookup_insert_ne, lookup_empty by done. done.
Qed.

Lemma demo_node_collision_free : collision_free (members_ demo_node).
Proof.
  unfold demo_node. rewrite boot_members_seed by (vm_compute; discriminate).
  apply collision_free_pair. vm_compute. reflexivity.
Qed.

Lemma node_routes_to_members_witness :
  collision_free (members_ demo_node) /\ forall h, is_Some (RingStore.get_node_for_key (env_ demo_node) h).
Proof.
  split; [exact demo_node_collision_free|].
  exact (proj2 (proj2 (node_routes_to_members count_sort 0 id_a 11211 (Some (id_b, 11211)) demo_node
    (rtc_refl _ _)) demo_node_collision_free)).
Defined.
