(* ===== verification/Stream.v ===== *)
(** * Byte streams ([src/src/io/stream_utils.h] and the blocking loops of
    [src/src/sdk/connection_pool.cpp], [src/src/sdk/topology_manager.cpp])

    A TCP connection delivers and accepts bytes in pieces of the kernel's
    choosing.  [Stream] is that interface: what one read or write call may do.
    The loops above it must not depend on the piece sizes. *)

From S2P Require Import Prelude.

Local Open Scope Z_scope.

(** [recv c n]: one read of at most [n] bytes, [None] for a result [<= 0];
    [send c bs]: one write of [bs], the number of bytes taken. *)
Class Stream (C : Type) := {
  recv : C -> nat -> option (bytes * C);
  send : C -> bytes -> option (nat * C)
}.

(** Documented behaviour of the calls, with what the peer has sent and not yet
    been read ([inbox]) and what has been written so far ([outbox]): a
    successful call moves at least one byte and at most what was asked for, in
    order, and touches the other direction not at all. *)
Class StreamLaws (C : Type) `{Stream C} := {
  inbox : C -> bytes;
  outbox : C -> bytes;
  recv_law c n bs c' :
    recv c n = Some (bs, c') -> (0 < n)%nat ->
    (0 < length bs <= n)%nat /\ inbox c = bs ++ inbox c' /\ outbox c' = outbox c;
  send_law c bs n c' :
    send c bs = Some (n, c') -> bs <> [] ->
    (0 < n <= length bs)%nat /\ outbox c' = outbox c ++ take n bs /\ inbox c' = inbox c
}.

Section Loops.
Context {C : Type} `{Stream C}.

(** The loop of [read_exact] and [recv_all]: [acc] is what is already in the
    buffer.  Every iteration reads a byte, so [remaining] iterations are
    enough; the branch without fuel is not reached (below). *)
Fixpoint read_loop (fuel : nat) (c : C) (remaining : nat) (acc : bytes) : option (bytes * C) :=
  if decide (remaining = 0%nat) then Some (acc, c) else
  match fuel with
  | O => None
  | S fuel =>
      '(bs, c) ← recv c remaining;
      read_loop fuel c (remaining - length bs) (acc ++ bs)
  end.

Definition read_exact (c : C) (len : nat) : option (bytes * C) := read_loop len c len [].

(** The loop of [write_all] and [send_all]. *)
Fixpoint write_loop (fuel : nat) (c : C) (bs : bytes) : option C :=
  if decide (bs = []) then Some c else
  match fuel with
  | O => None
  | S fuel =>
      '(n, c) ← send c bs;
      write_loop fuel c (drop n bs)
  end.

Definition write_all (c : C) (bs : bytes) : option C := write_loop (length bs) c bs.
End Loops.

Section Correct.
Context {C : Type} `{StreamLaws C}.

Lemma read_loop_sound fuel c remaining acc bs c' :
  read_loop fuel c remaining acc = Some (bs, c') ->
  exists got, bs = acc ++ got /\ length got = remaining /\ inbox c = got ++ inbox c' /\ outbox c' = outbox c.
Proof.
  revert c remaining acc. induction fuel as [|fuel IH]; intros c remaining acc E; simpl in E; case_decide as Hr.
  1, 3: simplify_eq; exists []; by rewrite app_nil_r.
  - done.
  - destruct (recv c remaining) as [[bs1 c1]|] eqn:Er; simpl in E; [|done].
    destruct (recv_law _ _ _ _ Er) as (Hl & Hi & Ho); [lia|].
    destruct (IH _ _ _ E) as (got & -> & Hg & Hi' & Ho'). exists (bs1 ++ got).
    split; [by rewrite app_assoc|]. rewrite length_app. split; [lia|].
    rewrite Hi, Hi', app_assoc. split; [done|congruence].
Qed.

Lemma read_exact_sound c len bs c' :
  read_exact c len = Some (bs, c') ->
  length bs = len /\ inbox c = bs ++ inbox c' /\ outbox c' = outbox c.
Proof. intros (got & -> & Hl & Hi & Ho)%read_loop_sound. done. Qed.

Lemma write_loop_sound fuel c bs c' :
  write_loop fuel c bs = Some c' -> outbox c' = outbox c ++ bs /\ inbox c' = inbox c.
Proof.
  revert c bs. induction fuel as [|fuel IH]; intros c bs E; simpl in E; case_decide as Hb.
  1, 3: simplify_eq; by rewrite app_nil_r.
  - done.
  - destruct (send c bs) as [[n c1]|] eqn:Es; simpl in E; [|done].
    destruct (send_law _ _ _ _ Es Hb) as (Hn & Ho & Hi). destruct (IH _ _ E) as [-> ->].
    rewrite Ho, <- app_assoc, take_drop. done.
Qed.

Lemma write_all_sound c bs c' :
  write_all c bs = Some c' -> outbox c' = outbox c ++ bs /\ inbox c' = inbox c.
Proof. apply write_loop_sound. Qed.

(** When the kernel never fails while bytes are available, a read of that many
    succeeds, however the bytes arrive: the fuel is enough. *)
Lemma read_exact_complete c len :
  (forall c n, inbox c <> [] -> (0 < n)%nat -> is_Some (recv c n)) ->
  (len <= length (inbox c))%nat -> is_Some (read_exact c len).
Proof.
  intros Hlive. unfold read_exact. generalize (@nil byte).
  assert (forall fuel c remaining acc, (remaining <= fuel)%nat -> (remaining <= length (inbox c))%nat ->
    is_Some (read_loop fuel c remaining acc)) as Hg; [|intros acc Hlen; by apply Hg].
  clear c len. induction fuel as [|fuel IH]; intros c remaining acc Hf Hlen; simpl; case_decide as Hr; try by eexists.
  - lia.
  - destruct (Hlive c remaining) as [[bs c1] Er]; [|lia|].
    { intros E. rewrite E in Hlen. simpl in Hlen. lia. }
    rewrite Er. simpl. destruct (recv_law _ _ _ _ Er) as (Hl & Hi & _); [lia|].
    apply IH; [lia|]. rewrite Hi, length_app in Hlen. lia.
Qed.

Lemma write_all_complete c bs :
  (forall c bs, bs <> [] -> is_Some (send c bs)) -> is_Some (write_all c bs).
Proof.
  intros Hlive. unfold write_all.
  assert (forall fuel c bs, (length bs <= fuel)%nat -> is_Some (write_loop fuel c bs)) as Hg; [|by apply Hg].
  clear c bs. induction fuel as [|fuel IH]; intros c bs Hf; simpl; case_decide as Hb; try by eexists.
  - destruct bs; [done|simpl in Hf; lia].
  - destruct (Hlive c bs Hb) as [[n c1] Es]. rewrite Es. simpl.
    destruct (send_law _ _ _ _ Es Hb) as (Hn & _). apply IH. rewrite length_drop. lia.
Qed.

(** Reading a frame that is there. *)
Lemma read_exact_prefix c bs rest :
  (forall c n, inbox c <> [] -> (0 < n)%nat -> is_Some (recv c n)) ->
  inbox c = bs ++ rest ->
  exists c', read_exact c (length bs) = Some (bs, c') /\ inbox c' = rest /\ outbox c' = outbox c.
Proof.
  intros Hlive Hi. destruct (read_exact_complete c (length bs) Hlive) as [[bs' c'] E].
  { rewrite Hi, length_app. lia. }
  destruct (read_exact_sound _ _ _ _ E) as (Hl & Hi' & Ho). exists c'.
  rewrite Hi in Hi'. apply app_inj_1 in Hi' as [<- <-]; [done|congruence].
Qed.

Lemma write_all_ok c bs :
  (forall c bs, bs <> [] -> is_Some (send c bs)) ->
  exists c', write_all c bs = Some c' /\ outbox c' = outbox c ++ bs /\ inbox c' = inbox c.
Proof.
  intros Hlive. destruct (write_all_complete c bs Hlive) as [c' E]. exists c'.
  split; [done|]. by apply write_all_sound.
Qed.
End Correct.

(** ** A concrete connection

    Bytes arrive in pieces of at most [piece] bytes. *)
Record pipe := mkPipe { piece : nat; unread : bytes; written : bytes }.

#[export] Instance pipe_stream : Stream pipe := {
  recv c n :=
    let k := Nat.min (S (piece c)) n in
    if decide (unread c = [] \/ k = 0%nat) then None
    else Some (take k (unread c), mkPipe (piece c) (drop k (unread c)) (written c));
  send c bs :=
    let k := Nat.min (S (piece c)) (length bs) in
    if decide (k = 0%nat) then None else Some (k, mkPipe (piece c) (unread c) (written c ++ take k bs))
}.

#[export] Program Instance pipe_laws : StreamLaws pipe := {
  inbox := unread;
  outbox := written
}.
Next Obligation.
  intros c n bs c' E Hn. cbn [recv pipe_stream] in E. case_decide as Hd; [done|].
  apply (inj Some), pair_equal_spec in E as [<- <-]. cbn [unread written].
  rewrite length_take, take_drop. split; [|done].
  destruct (unread c); [by destruct Hd; left|]. rewrite length_cons. lia.
Qed.
Next Obligation.
  intros c bs n c' E Hb. cbn [send pipe_stream] in E. case_decide as Hd; [done|].
  apply (inj Some), pair_equal_spec in E as [<- <-]. split; [|done].
  destruct bs; [done|]. rewrite length_cons in *. lia.
Qed.

Lemma pipe_recv_live (c : pipe) n : inbox c <> [] -> (0 < n)%nat -> is_Some (recv c n).
Proof.
  intros Hi Hn. cbn [recv pipe_stream]. rewrite decide_False; [by eexists|]. intros [?|E]; [done|lia].
Qed.

Lemma pipe_send_live (c : pipe) bs : bs <> [] -> is_Some (send c bs).
Proof.
  intros Hb. cbn [send pipe_stream]. rewrite decide_False; [by eexists|].
  destruct bs; [done|]. rewrite length_cons. lia.
Qed.
