(* ===== verification/WaitGroup.v ===== *)
(** * Request collapsing ([src/src/coordinator/wait_group.{h,cpp}])

    Concurrent fetches of one key share a [PendingFetch]; the first caller
    fetches, the others wait on it.  A [FetchHandle] is a shared pointer: the
    fetches are a heap, and a handle stays valid after the map forgot it. *)

From stdpp Require Import relations.
From S2P Require Import Prelude.

Local Open Scope Z_scope.

(** A suspended coroutine and a shared fetch are names. *)
Abbreviation coroutine := nat.
Abbreviation handle := nat.

Record PendingFetch := mkFetch {
  waiters : list coroutine;
  result : option bytes;
  completed : bool
}.

Record WaitGroup := mkWaitGroup {
  pending_ : gmap bytes handle;
  fetches : gmap handle PendingFetch
}.

Definition WaitGroup_new : WaitGroup := mkWaitGroup ∅ ∅.

Definition new_fetch : PendingFetch := mkFetch [] None false.

(** [emplace] with a fresh fetch: is the caller the initiator, and the handle. *)
Definition try_join (w : WaitGroup) (key : bytes) : bool * handle * WaitGroup :=
  match pending_ w !! key with
  | Some h => (false, h, w)
  | None =>
      let h := fresh (dom (fetches w)) in
      (true, h, mkWaitGroup (<[key := h]> (pending_ w)) (<[h := new_fetch]> (fetches w)))
  end.

Definition fetch (w : WaitGroup) (h : handle) : PendingFetch := default new_fetch (fetches w !! h).

Definition await_ready (w : WaitGroup) (h : handle) : bool := completed (fetch w h).

(** [true]: the coroutine is queued and stays suspended. *)
Definition await_suspend (w : WaitGroup) (h : handle) (c : coroutine) : bool * WaitGroup :=
  let f := fetch w h in
  if completed f then (false, w)
  else (true, mkWaitGroup (pending_ w)
                (<[h := mkFetch (waiters f ++ [c]) (result f) (completed f)]> (fetches w))).

Definition await_resume (w : WaitGroup) (h : handle) : option bytes := result (fetch w h).

(** The first critical section of [complete]: take the fetch out of the map. *)
Definition complete_take (w : WaitGroup) (key : bytes) : option handle * WaitGroup :=
  match pending_ w !! key with
  | None => (None, w)
  | Some h => (Some h, mkWaitGroup (delete key (pending_ w)) (fetches w))
  end.

(** The second one: publish the value; the coroutines to resume. *)
Definition complete_publish (w : WaitGroup) (h : handle) (value : option bytes) : list coroutine * WaitGroup :=
  (waiters (fetch w h), mkWaitGroup (pending_ w) (<[h := mkFetch [] value true]> (fetches w))).

Definition complete (w : WaitGroup) (key : bytes) (value : option bytes) : list coroutine * WaitGroup :=
  match complete_take w key with
  | (None, w) => ([], w)
  | (Some h, w) => complete_publish w h value
  end.

Definition pending_count (w : WaitGroup) : nat := size (pending_ w).

(** ** Callers

    A caller joins; the initiator fetches and completes, in two critical
    sections; the others wait.  Any caller may take the next step. *)

Inductive caller :=
  | Fetching (key : bytes) (h : handle)
  | Publishing (key : bytes) (h : handle) (value : option bytes)
  | Joined (key : bytes) (h : handle)
  | Suspended (key : bytes) (h : handle)
  | Finished (key : bytes) (h : handle) (value : option bytes).

Record group := mkGroup { wg : WaitGroup; callers : gmap coroutine caller }.

(** The resumed coroutines read the result. *)
Definition resume_all (cs : list coroutine) (key : bytes) (h : handle) (value : option bytes)
    (m : gmap coroutine caller) : gmap coroutine caller :=
  foldr (fun c m => <[c := Finished key h value]> m) m cs.

Inductive group_step : group -> group -> Prop :=
  | gs_join c key first h w w' m :
      m !! c = None -> try_join w key = (first, h, w') ->
      group_step (mkGroup w m) (mkGroup w' (<[c := if first : bool then Fetching key h else Joined key h]> m))
  | gs_ready c key h w m :
      m !! c = Some (Joined key h) -> await_ready w h = true ->
      group_step (mkGroup w m) (mkGroup w (<[c := Finished key h (await_resume w h)]> m))
  | gs_suspend c key h b w w' m :
      m !! c = Some (Joined key h) -> await_suspend w h c = (b, w') ->
      group_step (mkGroup w m)
        (mkGroup w' (<[c := if b : bool then Suspended key h else Finished key h (await_resume w' h)]> m))
  | gs_take c key h value h' w w' m :
      m !! c = Some (Fetching key h) -> complete_take w key = (Some h', w') ->
      group_step (mkGroup w m) (mkGroup w' (<[c := Publishing key h' value]> m))
  | gs_publish c key h value cs w w' m :
      m !! c = Some (Publishing key h value) -> complete_publish w h value = (cs, w') ->
      group_step (mkGroup w m)
        (mkGroup w' (resume_all cs key h value (<[c := Finished key h value]> m))).

Definition group_new : group := mkGroup WaitGroup_new ∅.

(** ** The invariant *)

Definition caller_key (x : caller) : bytes :=
  match x with Fetching k _ | Publishing k _ _ | Joined k _ | Suspended k _ | Finished k _ _ => k end.
Definition caller_handle (x : caller) : handle :=
  match x with Fetching _ h | Publishing _ h _ | Joined _ h | Suspended _ h | Finished _ h _ => h end.

(** The caller that will publish the fetch. *)
Definition owns (x : caller) : bool :=
  match x with Fetching _ _ | Publishing _ _ _ => true | _ => false end.

Record group_inv (g : group) : Prop := {
  gi_fetching key h : pending_ (wg g) !! key = Some h <-> exists c, callers g !! c = Some (Fetching key h);
  gi_key c c' x x' :
    callers g !! c = Some x -> callers g !! c' = Some x' -> caller_handle x = caller_handle x' ->
    caller_key x = caller_key x';
  gi_owner c c' x x' :
    callers g !! c = Some x -> callers g !! c' = Some x' -> caller_handle x = caller_handle x' ->
    owns x = true -> owns x' = true -> c = c';
  gi_known c x : callers g !! c = Some x -> is_Some (fetches (wg g) !! caller_handle x);
  gi_open h f : fetches (wg g) !! h = Some f ->
    completed f = false <-> exists c x, callers g !! c = Some x /\ owns x = true /\ caller_handle x = h;
  gi_waiter h f c : fetches (wg g) !! h = Some f ->
    c ∈ waiters f <-> exists key, callers g !! c = Some (Suspended key h);
  gi_closed h f : fetches (wg g) !! h = Some f -> completed f = true -> waiters f = [];
  gi_finished c key h value :
    callers g !! c = Some (Finished key h value) ->
    exists f, fetches (wg g) !! h = Some f /\ completed f = true /\ result f = value
}.

Lemma group_inv_new : group_inv group_new.
Proof.
  split; simpl; try (intros; by simplify_map_eq).
  intros key h. rewrite lookup_empty. split; [done|]. intros [c Hc]. by rewrite lookup_empty in Hc.
Qed.

Lemma fresh_handle w h : fetches w !! fresh (dom (fetches w)) = Some h -> False.
Proof. intros H. apply (is_fresh (dom (fetches w))), elem_of_dom. by exists h. Qed.

Section Steps.
Context (w : WaitGroup) (m : gmap coroutine caller) (Hinv : group_inv (mkGroup w m)).

(** Joining a fetch that is already pending. *)
Lemma join_existing c key h :
  m !! c = None -> pending_ w !! key = Some h ->
  group_inv (mkGroup w (<[c := Joined key h]> m)).
Proof.
  intros Hc Hp. destruct (proj1 (gi_fetching _ Hinv key h) Hp) as [ci Hi].
  destruct Hinv as [Hf Hk Ho Hn Hop Hw Hcl Hfi]; simpl in *. split; simpl.
  - intros key' h'. rewrite Hf. split; intros [c' Hc']; exists c'.
    + rewrite lookup_insert_ne; [done|]. intros ->. congruence.
    + apply lookup_insert_Some in Hc'. naive_solver.
  - intros c1 c2 x x' [[-> <-]|[Hn1 H1]]%lookup_insert_Some [[-> <-]|[Hn2 H2]]%lookup_insert_Some E; simpl in *.
    + done.
    + by apply (Hk ci c2 (Fetching key h) x').
    + by apply (Hk c1 ci x (Fetching key h)).
    + by apply (Hk c1 c2).
  - intros c1 c2 x x' [[-> <-]|[Hn1 H1]]%lookup_insert_Some [[-> <-]|[Hn2 H2]]%lookup_insert_Some; try done. eauto.
  - intros c1 x [[-> <-]|[Hn1 H1]]%lookup_insert_Some; [|eauto]. apply (Hn ci _ Hi).
  - intros h' f Hh'. rewrite (Hop _ _ Hh'). split; intros (c1 & x & H1 & H2 & H3); exists c1, x.
    + rewrite lookup_insert_ne; [done|]. intros ->. congruence.
    + apply lookup_insert_Some in H1 as [[-> <-]|[_ H1]]; done.
  - intros h' f c1 Hh'. rewrite (Hw _ _ c1 Hh'). split; intros [k' H1]; exists k'.
    + rewrite lookup_insert_ne; [done|]. intros ->. congruence.
    + apply lookup_insert_Some in H1 as [[-> [=]]|[_ H1]]. done.
  - done.
  - intros c1 k' h' v [[-> [=]]|[_ H1]]%lookup_insert_Some. by eapply Hfi.
Qed.

(** Joining first: a fresh fetch. *)
Lemma join_first c key :
  let h := fresh (dom (fetches w)) in
  m !! c = None -> pending_ w !! key = None ->
  group_inv (mkGroup (mkWaitGroup (<[key := h]> (pending_ w)) (<[h := new_fetch]> (fetches w)))
               (<[c := Fetching key h]> m)).
Proof.
  intros h Hc Hp. pose proof (fresh_handle w) as Hfresh. fold h in Hfresh.
  destruct Hinv as [Hf Hk Ho Hn Hop Hw Hcl Hfi]; simpl in *.
  assert (forall c x, m !! c = Some x -> caller_handle x <> h) as Hnh.
  { intros c1 x H1 E. destruct (Hn _ _ H1) as [f Hff]. rewrite E in Hff. by apply Hfresh in Hff. }
  split; simpl.
  - intros key' h'. rewrite lookup_insert_Some, Hf. split.
    + intros [[<- <-]|[Hne [c' Hc']]]; [exists c; apply lookup_insert_eq|].
      exists c'. rewrite lookup_insert_ne; [done|]. intros ->. congruence.
    + intros [c' [[-> [= <- <-]]|[Hne Hc']]%lookup_insert_Some]; [by left|].
      right. split; [|eauto]. intros <-. assert (pending_ w !! key = Some h') by (apply Hf; eauto). congruence.
  - intros c1 c2 x x' [[-> <-]|[Hn1 H1]]%lookup_insert_Some [[-> <-]|[Hn2 H2]]%lookup_insert_Some E; simpl in *.
    + done.
    + by destruct (Hnh _ _ H2).
    + by destruct (Hnh _ _ H1).
    + by apply (Hk c1 c2).
  - intros c1 c2 x x' [[-> <-]|[Hn1 H1]]%lookup_insert_Some [[-> <-]|[Hn2 H2]]%lookup_insert_Some E; simpl in *.
    + done.
    + by destruct (Hnh _ _ H2).
    + by destruct (Hnh _ _ H1).
    + eauto.
  - intros c1 x [[-> <-]|[Hn1 H1]]%lookup_insert_Some; simpl; [rewrite lookup_insert_eq; eauto|].
    rewrite lookup_insert_ne; [eauto|]. intros E. by destruct (Hnh _ _ H1).
  - intros h' f [[<- <-]|[Hne Hh']]%lookup_insert_Some.
    + split; [|done]. intros _. exists c, (Fetching key h). by rewrite lookup_insert_eq.
    + rewrite (Hop _ _ Hh'). split; intros (c1 & x & H1 & H2 & H3); exists c1, x.
      * rewrite lookup_insert_ne; [done|]. intros ->. congruence.
      * apply lookup_insert_Some in H1 as [[-> <-]|[_ H1]]; done.
  - intros h' f c1 [[<- <-]|[Hne Hh']]%lookup_insert_Some.
    + split; [by intros ?%elem_of_nil|].
      intros [k' [[-> [=]]|[_ H1]]%lookup_insert_Some]. by destruct (Hnh _ _ H1).
    + rewrite (Hw _ _ c1 Hh'). split; intros [k' H1]; exists k'.
      * rewrite lookup_insert_ne; [done|]. intros ->. congruence.
      * apply lookup_insert_Some in H1 as [[-> [=]]|[_ H1]]. done.
  - intros h' f [[<- <-]|[Hne Hh']]%lookup_insert_Some; [done|eauto].
  - intros c1 k' h' v [[-> [=]]|[_ H1]]%lookup_insert_Some.
    rewrite lookup_insert_ne; [eauto|]. intros E. by destruct (Hnh _ _ H1).
Qed.

(** A caller that moves on without changing its key and handle. *)
Lemma recolor c x y :
  m !! c = Some x -> caller_key y = caller_key x -> caller_handle y = caller_handle x ->
  (owns y = true -> owns x = true) ->
  (forall c1 c2 z z', <[c := y]> m !! c1 = Some z -> <[c := y]> m !! c2 = Some z' ->
     caller_handle z = caller_handle z' -> caller_key z = caller_key z') /\
  (forall c1 c2 z z', <[c := y]> m !! c1 = Some z -> <[c := y]> m !! c2 = Some z' ->
     caller_handle z = caller_handle z' -> owns z = true -> owns z' = true -> c1 = c2) /\
  (forall c1 z, <[c := y]> m !! c1 = Some z -> is_Some (fetches w !! caller_handle z)).
Proof.
  intros Hx Ekey Eh Eo. destruct Hinv as [_ Hk Ho Hn _ _ _ _]; simpl in *. split_and!.
  - intros c1 c2 z z' [[-> <-]|[_ H1]]%lookup_insert_Some [[-> <-]|[_ H2]]%lookup_insert_Some; [done| | |by eauto].
    + rewrite Ekey, Eh. by eauto.
    + rewrite Ekey, Eh. by eauto.
  - intros c1 c2 z z' [[-> <-]|[_ H1]]%lookup_insert_Some [[-> <-]|[_ H2]]%lookup_insert_Some; [done| | |by eauto].
    + rewrite Eh. intros. by eapply Ho; eauto.
    + rewrite Eh. intros. by eapply Ho; eauto.
  - intros c1 z [[-> <-]|[_ H1]]%lookup_insert_Some; [rewrite Eh|]; eauto.
Qed.

(** A waiter that finds the fetch completed. *)
Lemma finish_waiter c key h f :
  m !! c = Some (Joined key h) -> fetches w !! h = Some f -> completed f = true ->
  group_inv (mkGroup w (<[c := Finished key h (result f)]> m)).
Proof.
  intros Hc Hf Hcomp. destruct (recolor c _ (Finished key h (result f)) Hc) as (R1 & R2 & R3); try done.
  destruct Hinv as [Hfe Hk Ho Hn Hop Hw Hcl Hfi]; simpl in *. split; simpl; try done.
  - intros key' h'. rewrite Hfe. split; intros [c' Hc']; exists c'.
    + rewrite lookup_insert_ne; [done|]. intros ->. congruence.
    + by apply lookup_insert_Some in Hc' as [[_ [=]]|[_ ?]].
  - intros h' f' Hh'. rewrite (Hop _ _ Hh'). split; intros (c1 & x & H1 & H2 & H3); exists c1, x.
    + rewrite lookup_insert_ne; [done|]. intros ->. by simplify_eq.
    + by apply lookup_insert_Some in H1 as [[-> <-]|[_ H1]].
  - intros h' f' c1 Hh'. rewrite (Hw _ _ c1 Hh'). split; intros [k' H1]; exists k'.
    + rewrite lookup_insert_ne; [done|]. intros ->. congruence.
    + by apply lookup_insert_Some in H1 as [[-> [=]]|[_ H1]].
  - intros c1 k' h' v [[-> [= <- <- <-]]|[_ H1]]%lookup_insert_Some; eauto.
Qed.

(** A waiter that queues itself. *)
Lemma suspend_waiter c key h f :
  m !! c = Some (Joined key h) -> fetches w !! h = Some f -> completed f = false ->
  group_inv (mkGroup (mkWaitGroup (pending_ w)
                        (<[h := mkFetch (waiters f ++ [c]) (result f) (completed f)]> (fetches w)))
               (<[c := Suspended key h]> m)).
Proof.
  intros Hc Hf Hcomp. destruct (recolor c _ (Suspended key h) Hc) as (R1 & R2 & R3); try done.
  destruct Hinv as [Hfe Hk Ho Hn Hop Hw Hcl Hfi]; simpl in *. split; simpl; try done.
  - intros key' h'. rewrite Hfe. split; intros [c' Hc']; exists c'.
    + rewrite lookup_insert_ne; [done|]. intros ->. congruence.
    + by apply lookup_insert_Some in Hc' as [[_ [=]]|[_ ?]].
  - intros c1 z Hz. destruct (decide (h = caller_handle z)) as [<-|];
      [rewrite lookup_insert_eq; eauto|rewrite lookup_insert_ne by done; by apply R3 with c1].
  - intros h' f' Hh'.
    assert (exists f0, fetches w !! h' = Some f0 /\ completed f' = completed f0) as (f0 & Hh0 & ->).
    { apply lookup_insert_Some in Hh' as [[<- <-]|[_ ?]]; eauto. }
    rewrite (Hop _ _ Hh0). split; intros (c1 & x & H1 & H2 & H3); exists c1, x.
    + rewrite lookup_insert_ne; [done|]. intros ->. by simplify_eq.
    + by apply lookup_insert_Some in H1 as [[-> <-]|[_ H1]].
  - intros h' f' c1 [[<- <-]|[Hne Hh']]%lookup_insert_Some; simpl.
    + rewrite elem_of_app, list_elem_of_singleton, (Hw _ _ c1 Hf). split.
      * intros [[k' H1]| ->]; [|exists key; apply lookup_insert_eq].
        exists k'. rewrite lookup_insert_ne; [done|]. intros ->. congruence.
      * intros [k' [[-> _]|[_ H1]]%lookup_insert_Some]; eauto.
    + rewrite (Hw _ _ c1 Hh'). split; intros [k' H1]; exists k'.
      * rewrite lookup_insert_ne; [done|]. intros ->. congruence.
      * by apply lookup_insert_Some in H1 as [[-> [= -> ->]]|[_ H1]].
  - intros h' f' [[<- <-]|[Hne Hh']]%lookup_insert_Some; [by rewrite Hcomp|eauto].
  - intros c1 k' h' v [[-> [=]]|[_ H1]]%lookup_insert_Some.
    destruct (Hfi _ _ _ _ H1) as (f' & Hf' & Hc' & Hr').
    rewrite lookup_insert_ne; [by eauto|]. intros ->. congruence.
Qed.

(** The initiator takes its fetch out of the map: the one it got on joining. *)
Lemma take_fetch c key h value :
  m !! c = Some (Fetching key h) ->
  complete_take w key = (Some h, mkWaitGroup (delete key (pending_ w)) (fetches w)) /\
  group_inv (mkGroup (mkWaitGroup (delete key (pending_ w)) (fetches w)) (<[c := Publishing key h value]> m)).
Proof.
  intros Hc. assert (pending_ w !! key = Some h) as Hp by (apply (gi_fetching _ Hinv); eauto).
  split; [unfold complete_take; by rewrite Hp|].
  destruct (recolor c _ (Publishing key h value) Hc) as (R1 & R2 & R3); try done.
  destruct Hinv as [Hfe Hk Ho Hn Hop Hw Hcl Hfi]; simpl in *. split; simpl; try done.
  - intros key' h'. rewrite lookup_delete_Some, Hfe. split.
    + intros [Hne [c' Hc']]. exists c'. rewrite lookup_insert_ne; [done|]. intros ->. by simplify_eq.
    + intros [c' [[_ [=]]|[Hne Hc']]%lookup_insert_Some]. split; [|by eauto].
      intros <-. assert (pending_ w !! key = Some h') by (apply Hfe; eauto). simplify_eq.
      destruct Hne. eapply (Ho c c'); [exact Hc|exact Hc'|done..].
  - intros h' f' Hh'. rewrite (Hop _ _ Hh'). split; intros (c1 & x & H1 & H2 & H3).
    + destruct (decide (c = c1)) as [<-|Hne].
      * exists c, (Publishing key h value). rewrite lookup_insert_eq. by simplify_eq.
      * exists c1, x. by rewrite lookup_insert_ne.
    + apply lookup_insert_Some in H1 as [[-> <-]|[_ H1]]; [|by eauto]. by exists c1, (Fetching key h).
  - intros h' f' c1 Hh'. rewrite (Hw _ _ c1 Hh'). split; intros [k' H1]; exists k'.
    + rewrite lookup_insert_ne; [done|]. intros ->. congruence.
    + by apply lookup_insert_Some in H1 as [[-> [=]]|[_ H1]].
  - intros c1 k' h' v [[-> [=]]|[_ H1]]%lookup_insert_Some. eauto.
Qed.

Section Publish.
Context (c : coroutine) (key : bytes) (h : handle) (value : option bytes).
Context (Hc : m !! c = Some (Publishing key h value)).
Let m' := resume_all (waiters (fetch w h)) key h value (<[c := Finished key h value]> m).

Lemma lookup_resume_all cs m0 x :
  resume_all cs key h value m0 !! x = if decide (x ∈ cs) then Some (Finished key h value) else m0 !! x.
Proof.
  unfold resume_all. induction cs as [|c1 cs IH]; simpl; [done|].
  destruct (decide (c1 = x)) as [->|Hne].
  - rewrite lookup_insert_eq, decide_True by set_solver. done.
  - rewrite lookup_insert_ne, IH by done. repeat case_decide; set_solver.
Qed.

Lemma publish_fetch : exists f, fetches w !! h = Some f /\ fetch w h = f /\ completed f = false.
Proof.
  destruct (gi_known _ Hinv c _ Hc) as [f Hf]. simpl in Hf. exists f. split; [done|].
  split; [unfold fetch; by rewrite Hf|]. apply (gi_open _ Hinv h f Hf). by exists c, (Publishing key h value).
Qed.

(** Publishing finishes the initiator and the waiters of the fetch, and nobody
    else. *)
Lemma elem_of_published x :
  x ∈ c :: waiters (fetch w h) <-> x = c \/ exists k, m !! x = Some (Suspended k h).
Proof.
  destruct publish_fetch as (f & Hf & Ef & _). rewrite Ef, elem_of_cons.
  by rewrite (gi_waiter _ Hinv h f x Hf).
Qed.

Lemma publish_lookup x :
  m' !! x = if decide (x ∈ c :: waiters (fetch w h)) then Some (Finished key h value) else m !! x.
Proof.
  subst m'. rewrite lookup_resume_all. destruct (decide (x ∈ waiters (fetch w h))).
  - rewrite decide_True by set_solver. done.
  - destruct (decide (x = c)) as [->|Hne].
    + rewrite lookup_insert_eq, decide_True by set_solver. done.
    + rewrite lookup_insert_ne, decide_False by set_solver. done.
Qed.

Lemma publish_origin x z :
  m' !! x = Some z ->
  (m !! x = Some z /\ x <> c /\ (forall k, z <> Suspended k h)) \/
  (z = Finished key h value /\ exists z0, m !! x = Some z0 /\ caller_key z0 = key /\ caller_handle z0 = h).
Proof.
  rewrite publish_lookup. case_decide as Hd; rewrite elem_of_published in Hd.
  - intros [= <-]. right. split; [done|]. destruct Hd as [->|[k Hk]]; [by eauto|].
    exists (Suspended k h). split; [done|]. split; [|done].
    apply (gi_key _ Hinv x c (Suspended k h) (Publishing key h value)); done.
  - intros Hz. left. split; [done|]. split; [by intros ->; apply Hd; left|].
    intros k ->. apply Hd. right. by exists k.
Qed.

Lemma publish_inv :
  group_inv (mkGroup (mkWaitGroup (pending_ w) (<[h := mkFetch [] value true]> (fetches w))) m').
Proof.
  destruct publish_fetch as (f & Hf & _ & Hopen). pose proof publish_origin as Horig.
  pose proof publish_lookup as Hlook. pose proof elem_of_published as Hel. clearbody m'.
  destruct Hinv as [Hfe Hk Ho Hn Hop Hw Hcl Hfi]; simpl in *.
  assert (forall x z, m' !! x = Some z ->
    exists z0, m !! x = Some z0 /\ caller_key z = caller_key z0 /\ caller_handle z = caller_handle z0) as Hback.
  { intros x z [[H1 _]|[-> (z0 & H1 & <- & <-)]]%Horig; eauto. }
  assert (forall x z, m' !! x = Some z -> owns z = true -> m !! x = Some z /\ x <> c) as Howns.
  { intros x z [(H1 & H2 & _)|[-> _]]%Horig Hown; done. }
  split; simpl.
  - intros key' h'. rewrite Hfe. split; intros [c' Hc']; exists c'.
    + rewrite Hlook, decide_False; [done|]. rewrite Hel. intros [->|[k E]]; congruence.
    + by apply Howns in Hc' as [? _].
  - intros c1 c2 x x' (z1 & H1 & -> & ->)%Hback (z2 & H2 & -> & ->)%Hback. by eauto.
  - intros c1 c2 x x' H1 H2 E O1 O2. apply Howns in H1 as [H1 _]; [|done].
    apply Howns in H2 as [H2 _]; [|done]. by eauto.
  - intros c1 x (z & H1 & _ & ->)%Hback. destruct (decide (h = caller_handle z)) as [<-|];
      [rewrite lookup_insert_eq; eauto|rewrite lookup_insert_ne by done; eauto].
  - intros h' f' [[<- <-]|[Hne Hh']]%lookup_insert_Some; simpl.
    + split; [done|]. intros (c1 & x & H1 & H2 & H3). apply Howns in H1 as [H1 Hcc]; [|done].
      destruct Hcc. by eapply (Ho c1 c x (Publishing key h value)).
    + rewrite (Hop _ _ Hh'). split; intros (c1 & x & H1 & H2 & H3); exists c1, x.
      * rewrite Hlook, decide_False; [done|]. rewrite Hel. intros [->|[k E]]; simplify_eq/=; done.
      * by apply Howns in H1 as [? _].
  - intros h' f' c1 [[<- <-]|[Hne Hh']]%lookup_insert_Some; simpl.
    + split; [by intros ?%elem_of_nil|]. intros [k Hk']. apply Horig in Hk' as [(_ & _ & Hs)|[[=] _]].
      by destruct (Hs k).
    + rewrite (Hw _ _ c1 Hh'). split; intros [k H1]; exists k.
      * rewrite Hlook, decide_False; [done|]. rewrite Hel. intros [->|[k' E]]; by simplify_eq.
      * by apply Horig in H1 as [[? _]|[[=] _]].
  - intros h' f' [[<- <-]|[Hne Hh']]%lookup_insert_Some; [done|eauto].
  - intros c1 k' h' v [(H1 & _ & _)|[[= -> -> ->] _]]%Horig; [|rewrite lookup_insert_eq; eauto].
    destruct (Hfi _ _ _ _ H1) as (f' & Hf' & Hc' & Hr').
    rewrite lookup_insert_ne; [by eauto|]. intros ->. congruence.
Qed.
End Publish.
End Steps.

Lemma group_step_inv g g' : group_step g g' -> group_inv g -> group_inv g'.
Proof.
  destruct 1 as [c key first h w w' m Hc E|c key h w m Hc E|c key h b w w' m Hc E|c key h v h' w w' m Hc E|
                 c key h v cs w w' m Hc E]; intros Hinv.
  - unfold try_join in E. destruct (pending_ w !! key) as [h0|] eqn:Ep; simplify_eq.
    + by apply join_existing.
    + by apply join_first.
  - destruct (gi_known _ Hinv c _ Hc) as [f Hf]. simpl in Hf. unfold await_ready, await_resume, fetch in *.
    rewrite Hf in *. simpl in *. by apply finish_waiter.
  - destruct (gi_known _ Hinv c _ Hc) as [f Hf]. simpl in Hf. unfold await_suspend, await_resume, fetch in *.
    rewrite Hf in *. simpl in *. destruct (completed f) eqn:Ecomp; simplify_eq.
    + rewrite Hf. simpl. by apply finish_waiter.
    + rewrite <- Ecomp. by apply suspend_waiter.
  - destruct (take_fetch w m Hinv c key h v Hc) as [E' Hinv']. rewrite E' in E. by simplify_eq.
  - unfold complete_publish in E. simplify_eq. by apply publish_inv.
Qed.

Lemma group_reachable_inv g : rtc group_step group_new g -> group_inv g.
Proof.
  intros H. assert (forall g0, group_inv g0 -> rtc group_step g0 g -> group_inv g) as Hgen.
  { intros g0 H0 Hr. induction Hr; [done|]. eauto using group_step_inv. }
  exact (Hgen _ group_inv_new H).
Qed.

(** The steps of the owner of a fetch are enabled. *)
Lemma fetching_can_take g c key h value :
  group_inv g -> callers g !! c = Some (Fetching key h) ->
  exists w', group_step g (mkGroup w' (<[c := Publishing key h value]> (callers g))).
Proof.
  destruct g as [w m]. intros Hinv Hc. simpl in *.
  destruct (take_fetch w m Hinv c key h value Hc) as [E _]. eexists. by eapply gs_take.
Qed.

Lemma publishing_resumes g c key h value x :
  group_inv g -> callers g !! c = Some (Publishing key h value) ->
  x = c \/ (exists k, callers g !! x = Some (Suspended k h)) ->
  exists g', group_step g g' /\ callers g' !! x = Some (Finished key h value).
Proof.
  destruct g as [w m]. intros Hinv Hc Hx. simpl in *. eexists. split; [by eapply gs_publish|]. simpl.
  rewrite (publish_lookup w m Hinv c key h value Hc), decide_True; [done|].
  by apply (elem_of_published w m Hinv c key h value Hc).
Qed.

Lemma suspended_owner g x key h :
  group_inv g -> callers g !! x = Some (Suspended key h) ->
  exists c, callers g !! c = Some (Fetching key h) \/ exists v, callers g !! c = Some (Publishing key h v).
Proof.
  intros Hinv Hx. destruct (gi_known _ Hinv x _ Hx) as [f Hf]. simpl in Hf.
  assert (completed f = false) as Hopen.
  { destruct (completed f) eqn:E; [|done]. pose proof (gi_closed _ Hinv h f Hf E) as Hw.
    assert (x ∈ waiters f) as Hin by (apply (gi_waiter _ Hinv h f x Hf); by exists key).
    rewrite Hw in Hin. by apply elem_of_nil in Hin. }
  apply (gi_open _ Hinv h f Hf) in Hopen as (c & o & Hc & Ho & Hh).
  pose proof (gi_key _ Hinv c x o (Suspended key h) Hc Hx Hh) as Hk.
  exists c. destruct o; simplify_eq/=; eauto.
Qed.

Lemma suspended_finishes g x key h :
  group_inv g -> callers g !! x = Some (Suspended key h) ->
  exists value g', rtc group_step g g' /\ callers g' !! x = Some (Finished key h value).
Proof.
  intros Hinv Hx. destruct (suspended_owner g x key h Hinv Hx) as (c & [Hc|[v Hc]]).
  - destruct (fetching_can_take g c key h None Hinv Hc) as [w1 H1].
    pose proof (group_step_inv _ _ H1 Hinv) as Hinv1.
    destruct (publishing_resumes _ c key h None x Hinv1) as (g2 & H2 & H3).
    + simpl. by rewrite lookup_insert_eq.
    + right. exists key. simpl. rewrite lookup_insert_ne; [done|]. intros ->. congruence.
    + exists None, g2. split; [|done]. by eapply rtc_l, rtc_once.
  - destruct (publishing_resumes g c key h v x Hinv Hc) as (g2 & H2 & H3); [by eauto|].
    exists v, g2. split; [by apply rtc_once|done].
Qed.

(** C6: Request collapsing is single-flight and loses no wakeup.  In every state
    that concurrent callers can reach, in any interleaving of the critical
    sections of [try_join], [WaitAwaitable] and [complete]: at most one caller is
    fetching a key; a suspended caller always has the initiator of its fetch
    still at work, and the initiator's publication resumes it with the published
    value (so from every such state the caller can be finished, nobody being
    parked on a completed fetch); and the callers of one fetch all end with the
    same value for the same key. *)
Theorem wait_group_single_flight g :
  rtc group_step group_new g ->
  (forall c c' key h h', callers g !! c = Some (Fetching key h) -> callers g !! c' = Some (Fetching key h') ->
     c = c' /\ h = h') /\
  (forall x key h, callers g !! x = Some (Suspended key h) ->
     (exists c, callers g !! c = Some (Fetching key h) \/ exists v, callers g !! c = Some (Publishing key h v)) /\
     (forall c v, callers g !! c = Some (Publishing key h v) ->
        exists g', group_step g g' /\ callers g' !! x = Some (Finished key h v)) /\
     (exists v g', rtc group_step g g' /\ callers g' !! x = Some (Finished key h v))) /\
  (forall c c' key key' h v v', callers g !! c = Some (Finished key h v) ->
     callers g !! c' = Some (Finished key' h v') -> key = key' /\ v = v').
Proof.
  intros Hinv%group_reachable_inv. split; [|split].
  - intros c c' key h h' Hc Hc'.
    assert (pending_ (wg g) !! key = Some h) as E by (apply (gi_fetching _ Hinv); eauto).
    assert (pending_ (wg g) !! key = Some h') as E' by (apply (gi_fetching _ Hinv); eauto).
    assert (h = h') as <- by congruence. split; [|done]. by apply (gi_owner _ Hinv c c' _ _ Hc Hc').
  - intros x key h Hx. split; [by eapply suspended_owner|]. split; [|by apply suspended_finishes].
    intros c v Hc. eapply publishing_resumes; eauto.
  - intros c c' key key' h v v' Hc Hc'. split; [exact (gi_key _ Hinv c c' _ _ Hc Hc' eq_refl)|].
    destruct (gi_finished _ Hinv _ _ _ _ Hc) as (f & Hf & _ & <-).
    destruct (gi_finished _ Hinv _ _ _ _ Hc') as (f' & Hf' & _ & <-). congruence.
Qed.

(** Caller 1 fetches, caller 2 joins and suspends. *)
Definition example_group : group :=
  let '(_, h, w) := try_join WaitGroup_new ["k"%byte] in
  let '(_, _, w) := try_join w ["k"%byte] in
  let '(_, w) := await_suspend w h 2%nat in
  mkGroup w (<[2%nat := Suspended ["k"%byte] h]> (<[2%nat := Joined ["k"%byte] h]>
    (<[1%nat := Fetching ["k"%byte] h]> ∅))).

Lemma wait_group_single_flight_witness :
  exists x key h, callers example_group !! x = Some (Suspended key h) /\
    exists v g', rtc group_step example_group g' /\ callers g' !! x = Some (Finished key h v).
Proof.
  destruct (wait_group_single_flight example_group) as (_ & H & _).
  - eapply rtc_l; [apply (gs_join 1%nat ["k"%byte]); reflexivity|].
    eapply rtc_l; [apply (gs_join 2%nat ["k"%byte]); reflexivity|].
    eapply rtc_l; [eapply (gs_suspend 2%nat ["k"%byte]); reflexivity|]. apply rtc_refl.
  - eexists 2%nat, _, _. split; [vm_compute; reflexivity|].
    eapply (H 2%nat). vm_compute. reflexivity.
Defined.
