(* ===== verification/Topology.v ===== *)
(** * The client's view of the cluster ([src/src/sdk/topology_manager.{h,cpp}])

    A client asks any node for the cluster topology, rebuilds a ring of its own
    from the answer and routes by it. *)

From S2P Require Import Prelude Message NodeInfo OrderedMap Codec Stream.
From S2P Require RingStore.

Local Open Scope Z_scope.

Record NodeEndpoint := mkEndpoint {
  ep_host : bytes;
  ep_gossip_port : Z;    (* uint16_t *)
  ep_data_port : Z       (* uint16_t *)
}.

#[export] Instance NodeEndpoint_eq_dec : EqDecision NodeEndpoint.
Proof. solve_decision. Defined.

Definition ep_node (ep : NodeEndpoint) : NodeId := mkNodeId (ep_host ep) (ep_gossip_port ep).

(** ** The ClusterInfo payload *)

(** [memcpy(&x, payload + p, 2)], the bounds checked by the caller. *)
Definition memcpy_u16 (payload : bytes) (p : nat) : Z := le_decode (slice payload p 2).

(** The loop over the nodes. *)
Fixpoint parse_nodes (num_nodes : nat) (payload : bytes) (p : nat) : option (list NodeEndpoint) :=
  match num_nodes with
  | O => Some []
  | S num_nodes =>
      if decide (length payload < p + 2)%nat then None else
      let host_len := Z.to_nat (memcpy_u16 payload p) in
      let p := (p + 2)%nat in
      if decide (length payload < p + host_len + 2 * 2)%nat then None else
      let node_host := slice payload p host_len in
      let p := (p + host_len)%nat in
      let gossip_port := memcpy_u16 payload p in
      let p := (p + 2)%nat in
      let data_port := memcpy_u16 payload p in
      let p := (p + 2)%nat in
      rest ← parse_nodes num_nodes payload p;
      Some (mkEndpoint node_host gossip_port data_port :: rest)
  end.

Definition parse_topology (payload : bytes) : option (list NodeEndpoint) :=
  if decide (length payload < 2)%nat then None
  else parse_nodes (Z.to_nat (memcpy_u16 payload 0)) payload 2.

Section Fetch.
Context {C : Type} `{Stream C}.
(** [tcp_connect]: name resolution and the TCP handshake are the system's. *)
Context (connect : bytes -> Z -> option C).

Definition fetch_topology (host : bytes) (port : Z) : option (list NodeEndpoint) :=
  fd ← connect host port;
  let hdr := mkRequestHeader ClusterInfo x00 0 0 in
  fd ← write_all fd (RequestHeader_bytes hdr);
  '(raw, fd) ← read_exact fd sizeof_header;
  let resp_hdr := ResponseHeader_of_bytes raw in
  if decide (rs_status resp_hdr <> Ok) then None else
  '(payload, fd) ← (if decide (0 < rs_value_len resp_hdr)
                     then read_exact fd (Z.to_nat (rs_value_len resp_hdr))
                     else Some ([], fd));
  parse_topology payload.
End Fetch.

(** ** The ring *)

Record TopologyManager := mkTopology {
  nodes_ : list NodeEndpoint;
  ring_ : gmap Z nat
}.

Definition TopologyManager_new : TopologyManager := mkTopology [] ∅.

Definition kVnodesPerNode : Z := 128.

(** The tokens of the node at index [i]. *)
Definition add_index (ring : gmap Z nat) (i : nat) (ep : NodeEndpoint) : gmap Z nat :=
  foldl (fun ring v => <[hash_node_token (ep_node ep) v := i]> ring) ring (seqZ 0 kVnodesPerNode).

Definition rebuild_ring (nodes : list NodeEndpoint) : gmap Z nat :=
  foldl (fun ring p => add_index ring p.1 p.2) ∅ (imap pair nodes).

(** [nodes_ = nodes; rebuild_ring()]. *)
Definition set_nodes (nodes : list NodeEndpoint) : TopologyManager := mkTopology nodes (rebuild_ring nodes).

Definition find_owner (t : TopologyManager) (key : bytes) : option NodeEndpoint :=
  let hash := hash_key key in
  if decide (ring_ t = ∅) then None else
  idx ← owner (ring_ t) hash;
  nodes_ t !! idx.

Definition find_successors (t : TopologyManager) (key : bytes) (n : nat) : list NodeEndpoint :=
  let hash := hash_key key in
  if decide (ring_ t = ∅) then [] else
  omap (fun idx => nodes_ t !! idx) (collect (ring_ t) hash n).

Definition all_endpoints (t : TopologyManager) : list NodeEndpoint := nodes_ t.
Definition node_count (t : TopologyManager) : nat := length (nodes_ t).

Section Manager.
(** One call of [fetch_topology]: the answer and the world after it. *)
Context {W : Type} (fetch : W -> bytes -> Z -> option (list NodeEndpoint) * W).

Definition bootstrap (w : W) (t : TopologyManager) (seed_host : bytes) (seed_port : Z)
    : bool * TopologyManager * W :=
  let '(r, w) := fetch w seed_host seed_port in
  match r with
  | None => (false, t, w)
  | Some nodes => if decide (nodes = []) then (false, t, w) else (true, set_nodes nodes, w)
  end.

(** The loop of [refresh] over the endpoints known at its start. *)
Fixpoint refresh_loop (w : W) (t : TopologyManager) (current : list NodeEndpoint)
    : bool * TopologyManager * W :=
  match current with
  | [] => (false, t, w)
  | ep :: current =>
      let '(r, w) := fetch w (ep_host ep) (ep_data_port ep) in
      match r with
      | Some fresh => if decide (fresh = []) then refresh_loop w t current else (true, set_nodes fresh, w)
      | None => refresh_loop w t current
      end
  end.

Definition refresh (w : W) (t : TopologyManager) : bool * TopologyManager * W :=
  refresh_loop w t (nodes_ t).
End Manager.

(** ** Parsing what a node serves *)

(** One node of the payload, as [serve_cluster_info] writes it. *)
Definition endpoint_bytes (ep : NodeEndpoint) : bytes :=
  le_encode 2 (Z.of_nat (length (ep_host ep))) ++ ep_host ep ++
  le_encode 2 (ep_gossip_port ep) ++ le_encode 2 (ep_data_port ep).

Definition endpoint_wf (ep : NodeEndpoint) : Prop :=
  in_width 16 (Z.of_nat (length (ep_host ep))) /\ in_width 16 (ep_gossip_port ep) /\ in_width 16 (ep_data_port ep).

Lemma memcpy_u16_spec payload p z :
  in_width 16 z -> holds payload p (le_encode 2 z) -> memcpy_u16 payload p = z.
Proof.
  intros Hz Hh. pose proof (holds_length _ _ _ Hh) as Hl. rewrite length_le_encode in Hl.
  apply holds_slice with (n := 2%nat) in Hh; [|lia|by rewrite length_le_encode].
  unfold memcpy_u16. rewrite Hh, le_decode_encode. by apply wrap_small.
Qed.

Lemma parse_nodes_bytes nodes payload p :
  Forall endpoint_wf nodes -> holds payload p (concat (endpoint_bytes <$> nodes)) ->
  parse_nodes (length nodes) payload p = Some nodes.
Proof.
  revert p. induction nodes as [|ep nodes IH]; intros p Hwf Hh; simpl; [done|].
  apply Forall_cons in Hwf as [(Hhost & Hg & Hd) Hwf].
  rewrite fmap_cons in Hh. cbn [concat] in Hh. unfold endpoint_bytes in Hh at 1.
  rewrite !holds_app in Hh. destruct Hh as [(H1 & H2 & H3 & H4) Hrest].
  rewrite !length_app, !length_le_encode in *.
  pose proof (holds_length _ _ _ H4) as Hl. rewrite length_le_encode in Hl.
  rewrite decide_False by lia.
  rewrite (memcpy_u16_spec payload p _ Hhost H1), Nat2Z.id. rewrite decide_False by lia.
  rewrite (memcpy_u16_spec payload _ _ Hg H3), (memcpy_u16_spec payload _ _ Hd H4).
  apply holds_slice with (n := length (ep_host ep)) in H2; [|lia|done]. rewrite H2.
  rewrite IH; [by destruct ep|done|].
  replace (p + 2 + length (ep_host ep) + 2 + 2)%nat with (p + (2 + (length (ep_host ep) + (2 + 2))))%nat by lia.
  done.
Qed.

Lemma parse_topology_bytes nodes :
  Forall endpoint_wf nodes -> in_width 16 (Z.of_nat (length nodes)) ->
  parse_topology (le_encode 2 (Z.of_nat (length nodes)) ++ concat (endpoint_bytes <$> nodes)) = Some nodes.
Proof.
  intros Hwf Hn. unfold parse_topology. rewrite length_app, length_le_encode, decide_False by lia.
  rewrite (memcpy_u16_spec _ 0 (Z.of_nat (length nodes)) Hn).
  - rewrite Nat2Z.id. apply parse_nodes_bytes; [done|].
    exists (le_encode 2 (Z.of_nat (length nodes))), []. rewrite app_nil_r, length_le_encode. done.
  - by exists [], (concat (endpoint_bytes <$> nodes)).
Qed.

(** ** The rebuilt ring *)

Definition ep_tokens (ep : NodeEndpoint) : list Z := RingStore.vnode_tokens (ep_node ep) kVnodesPerNode.

Lemma lookup_add_index ring i ep t :
  add_index ring i ep !! t = if decide (t ∈ ep_tokens ep) then Some i else ring !! t.
Proof.
  unfold add_index, ep_tokens, RingStore.vnode_tokens. generalize (seqZ 0 kVnodesPerNode). intros vs. revert ring.
  induction vs as [|v vs IH]; intros ring; [done|]. cbn [foldl]. rewrite IH, fmap_cons.
  destruct (decide (hash_node_token (ep_node ep) v = t)) as [<-|Hne].
  - rewrite lookup_insert_eq. repeat case_decide; set_solver.
  - rewrite lookup_insert_ne by done. repeat case_decide; set_solver.
Qed.

Lemma rebuild_ring_snoc nodes ep : rebuild_ring (nodes ++ [ep]) = add_index (rebuild_ring nodes) (length nodes) ep.
Proof. unfold rebuild_ring. rewrite imap_app, foldl_app. simpl. by rewrite Nat.add_0_r. Qed.

(** No two endpoints share a token. *)
Definition tokens_disjoint (nodes : list NodeEndpoint) : Prop :=
  forall i j ep ep' t, nodes !! i = Some ep -> nodes !! j = Some ep' ->
    t ∈ ep_tokens ep -> t ∈ ep_tokens ep' -> i = j.

Lemma rebuild_ring_index nodes t i :
  rebuild_ring nodes !! t = Some i -> exists ep, nodes !! i = Some ep /\ t ∈ ep_tokens ep.
Proof.
  induction nodes as [|ep nodes IH] using rev_ind; [done|].
  rewrite rebuild_ring_snoc, lookup_add_index. case_decide as Ht.
  - intros [= <-]. exists ep. by rewrite list_lookup_middle.
  - intros (ep' & Hi & Ht')%IH. exists ep'. split; [by apply lookup_app_l_Some|done].
Qed.

Lemma rebuild_ring_token nodes t i ep :
  tokens_disjoint nodes -> nodes !! i = Some ep -> t ∈ ep_tokens ep -> rebuild_ring nodes !! t = Some i.
Proof.
  induction nodes as [|ep0 nodes IH] using rev_ind; intros Hd Hi Ht; [done|].
  rewrite rebuild_ring_snoc, lookup_add_index. case_decide as Ht0.
  - f_equal. apply (Hd (length nodes) i ep0 ep t); [by rewrite list_lookup_middle|done..].
  - apply lookup_snoc_Some in Hi as [[Hi Hn]|[-> <-]]; [|done]. apply IH; [|done..].
    intros j k e e' t' Hj Hk. apply Hd; by apply lookup_app_l_Some.
Qed.

(** When the ring [R] of a node holds exactly the tokens of the listed
    endpoints, the client's index ring is that ring with names for indices. *)

Section Agreement.
Context (nodes : list NodeEndpoint) (R : RingStore.Ring).
Context (Hdisj : tokens_disjoint nodes).
Context (HR : forall t x, R !! t = Some x <-> exists ep, ep ∈ nodes /\ ep_node ep = x /\ t ∈ ep_tokens ep).

Definition name_at (i : nat) : NodeId := default (mkNodeId [] 0) (ep_node <$> nodes !! i).

Lemma rebuild_ring_names : name_at <$> rebuild_ring nodes = R.
Proof.
  apply map_eq. intros t. rewrite lookup_fmap. apply option_eq. intros x. rewrite HR, fmap_Some. split.
  - intros (i & (ep & Hi & Ht)%rebuild_ring_index & ->). exists ep. unfold name_at. rewrite Hi.
    split; [by eapply list_elem_of_lookup_2|done].
  - intros (ep & [i Hi]%list_elem_of_lookup & <- & Ht). exists i.
    split; [by eapply rebuild_ring_token|]. unfold name_at. by rewrite Hi.
Qed.

Lemma name_at_inj i j ep ep' :
  nodes !! i = Some ep -> nodes !! j = Some ep' -> ep_node ep = ep_node ep' -> i = j.
Proof.
  intros Hi Hj E. apply (Hdisj i j ep ep' (hash_node_token (ep_node ep) 0)); [done..| |unfold ep_tokens; rewrite <- E];
    apply list_elem_of_fmap; exists 0; (split; [done|]); apply elem_of_seqZ; by compute.
Qed.

Lemma find_owner_agrees key :
  ep_node <$> find_owner (set_nodes nodes) key = RingStore.get_node_for_key R (hash_key key).
Proof.
  rewrite RingStore.get_node_owner, <- rebuild_ring_names, owner_fmap.
  unfold find_owner. cbn [ring_ nodes_ set_nodes]. cbv zeta. case_decide as E; [by rewrite E|].
  destruct (owner (rebuild_ring nodes) (hash_key key)) as [i|] eqn:Eo; simpl; [|done].
  apply owner_token in Eo as (t & (ep & Hi & _)%rebuild_ring_index). unfold name_at. by rewrite Hi.
Qed.

Lemma find_successors_agrees key n :
  ep_node <$> find_successors (set_nodes nodes) key n = RingStore.get_n_nodes_for_key R (hash_key key) n.
Proof.
  rewrite RingStore.get_n_nodes_collect, <- rebuild_ring_names, collect_fmap.
  - unfold find_successors. cbn [ring_ nodes_ set_nodes]. cbv zeta. case_decide as E; [by rewrite E|].
    pose proof (proj1 (proj2 (collect_nodes (rebuild_ring nodes) (hash_key key) n))) as Hin.
    induction (collect (rebuild_ring nodes) (hash_key key) n) as [|i l IH]; [done|].
    destruct (Hin i) as (t & (ep & Hi & _)%rebuild_ring_index); [by left|].
    simpl. rewrite Hi. rewrite !fmap_cons. f_equal; [unfold name_at; by rewrite Hi|].
    apply IH. intros v Hv. apply Hin. by right.
  - intros t t' i j (ep & Hi & _)%rebuild_ring_index (ep' & Hj & _)%rebuild_ring_index.
    unfold name_at. rewrite Hi, Hj. simpl. by apply name_at_inj.
Qed.
End Agreement.

(** ** The manager's invariant

    The ring indexes the node list. *)

Definition topology_inv (t : TopologyManager) : Prop := ring_ t = rebuild_ring (nodes_ t).

Lemma TopologyManager_new_inv : topology_inv TopologyManager_new.
Proof. done. Qed.

Lemma set_nodes_inv nodes : topology_inv (set_nodes nodes).
Proof. done. Qed.

Lemma bootstrap_inv {W} fetch (w : W) t h p : topology_inv t -> topology_inv (bootstrap fetch w t h p).1.2.
Proof. intros Ht. unfold bootstrap. destruct (fetch w h p) as [[nodes|] w']; [case_decide|]; done. Qed.

Lemma refresh_inv {W} fetch (w : W) t : topology_inv t -> topology_inv (refresh fetch w t).1.2.
Proof.
  intros Ht. unfold refresh. generalize (nodes_ t). intros l. revert w.
  induction l as [|ep l IH]; intros w; simpl; [done|].
  destruct (fetch w (ep_host ep) (ep_data_port ep)) as [[fresh|] w']; [case_decide|]; done || apply IH.
Qed.

(** The owner comes first, and there are at most [n]. *)
Lemma find_successors_head t key n : topology_inv t -> head (find_successors t key n) = find_owner t key.
Proof.
  intros Ht. unfold find_successors, find_owner. cbv zeta. case_decide as E; [done|].
  destruct (collect_nodes (ring_ t) (hash_key key) n) as (_ & Hin & Hh & _). rewrite <- Hh.
  destruct (collect (ring_ t) (hash_key key) n) as [|i l]; simpl; [done|].
  destruct (Hin i) as [tok Htok]; [by left|]. rewrite Ht in Htok.
  apply rebuild_ring_index in Htok as (ep & Hi & _). by rewrite Hi.
Qed.

Lemma length_omap_le {A B} (f : A -> option B) l : (length (omap f l) <= length l)%nat.
Proof. induction l as [|x l IH]; [done|]. cbn. destruct (f x); cbn; lia. Qed.

Lemma find_successors_length t key n : n <> 0%nat -> (length (find_successors t key n) <= n)%nat.
Proof.
  intros Hn. unfold find_successors. cbv zeta. case_decide; [simpl; lia|].
  etrans; [apply length_omap_le|]. by apply (collect_nodes (ring_ t) (hash_key key) n).
Qed.
