(* ===== verification/ClientSockets.v ===== *)
(** * The client's blocking sockets ([src/src/sdk/topology_manager.cpp]:
    [tcp_connect], [send_all], [recv_all], [fetch_topology]; the first three are
    repeated in [src/src/sdk/connection_pool.cpp])

    [Topology] takes a connection as given.  Here the client opens and closes it:
    a descriptor of the system, an address list of the resolver, and the calls
    that use them, with every early return. *)

From S2P Require Import Prelude Message NodeInfo Stream Topology.

Local Open Scope Z_scope.

(** ** The system *)

(** The calls the client makes, in a world [W].  A result below zero is a failed
    call, as is one of zero for [send] and [recv] on a stream. *)
Class System (W : Type) := {
  addrinfo : Type;
  getaddrinfo : W -> bytes -> bytes -> option addrinfo * W;
  freeaddrinfo : W -> addrinfo -> W;
  socket : W -> addrinfo -> Z * W;
  setsockopt : W -> Z -> W;
  connect : W -> Z -> addrinfo -> Z * W;
  close : W -> Z -> W;
  sys_send : W -> Z -> bytes -> Z * W;
  sys_recv : W -> Z -> nat -> Z * bytes * W
}.

(** Documented behaviour: [open_fds] is the descriptor table, [lists] counts the
    address lists that have not been freed.  A socket is a new descriptor, only
    [socket] and [close] change the table, and [recv] delivers as many bytes as it
    says, no more than asked for. *)
Class SystemLaws (W : Type) `{System W} := {
  open_fds : W -> gset Z;
  lists : W -> Z;
  getaddrinfo_law w host port : let '(r, w') := getaddrinfo w host port in
    open_fds w' = open_fds w /\ lists w' = lists w + match r with Some _ => 1 | None => 0 end;
  freeaddrinfo_law w a : open_fds (freeaddrinfo w a) = open_fds w /\ lists (freeaddrinfo w a) = lists w - 1;
  socket_law w a : let '(fd, w') := socket w a in
    lists w' = lists w /\
    if decide (fd < 0) then open_fds w' = open_fds w else fd ∉ open_fds w /\ open_fds w' = {[fd]} ∪ open_fds w;
  setsockopt_law w fd : open_fds (setsockopt w fd) = open_fds w /\ lists (setsockopt w fd) = lists w;
  connect_law w fd a : open_fds (connect w fd a).2 = open_fds w /\ lists (connect w fd a).2 = lists w;
  close_law w fd : open_fds (close w fd) = open_fds w ∖ {[fd]} /\ lists (close w fd) = lists w;
  send_keeps w fd bs : open_fds (sys_send w fd bs).2 = open_fds w /\ lists (sys_send w fd bs).2 = lists w;
  recv_keeps w fd n : open_fds (sys_recv w fd n).2 = open_fds w /\ lists (sys_recv w fd n).2 = lists w;
  recv_bytes w fd n : let '(r, bs, _) := sys_recv w fd n in 0 < r -> r = Z.of_nat (length bs) /\ (length bs <= n)%nat
}.

Section Calls.
Context {W : Type} `{System W}.

Definition tcp_connect (w : W) (host : bytes) (port : Z) : Z * W :=
  let '(r, w) := getaddrinfo w host (format_uint port) in
  match r with
  | None => (-1, w)
  | Some result =>
      let '(fd, w) := socket w result in
      if decide (fd < 0) then (-1, freeaddrinfo w result) else
      let w := setsockopt w fd in
      let '(rc, w) := connect w fd result in
      if decide (rc < 0) then
        let w := close w fd in
        (-1, freeaddrinfo w result)
      else (fd, freeaddrinfo w result)
  end.

(** The loops of [send_all] and [recv_all]; an iteration moves a byte, so as many
    iterations as there are bytes are enough. *)
Fixpoint send_loop (fuel : nat) (w : W) (fd : Z) (p : bytes) : bool * W :=
  if decide (p = []) then (true, w) else
  match fuel with
  | O => (false, w)
  | S fuel =>
      let '(n, w) := sys_send w fd p in
      if decide (n <= 0) then (false, w) else send_loop fuel w fd (drop (Z.to_nat n) p)
  end.

Definition send_all (w : W) (fd : Z) (buf : bytes) : bool * W := send_loop (length buf) w fd buf.

Fixpoint recv_loop (fuel : nat) (w : W) (fd : Z) (len : nat) (buf : bytes) : option bytes * W :=
  if decide (len = 0%nat) then (Some buf, w) else
  match fuel with
  | O => (None, w)
  | S fuel =>
      let '(n, bs, w) := sys_recv w fd len in
      if decide (n <= 0) then (None, w) else recv_loop fuel w fd (len - length bs) (buf ++ bs)
  end.

Definition recv_all (w : W) (fd : Z) (len : nat) : option bytes * W := recv_loop len w fd len [].

Definition fetch_topology (w : W) (host : bytes) (port : Z) : option (list NodeEndpoint) * W :=
  let '(fd, w) := tcp_connect w host port in
  if decide (fd < 0) then (None, w) else
  let hdr := mkRequestHeader ClusterInfo x00 0 0 in
  let '(ok, w) := send_all w fd (RequestHeader_bytes hdr) in
  if negb ok then (None, close w fd) else
  let '(raw, w) := recv_all w fd sizeof_header in
  match raw with
  | None => (None, close w fd)
  | Some raw =>
      let resp_hdr := ResponseHeader_of_bytes raw in
      if decide (rs_status resp_hdr <> Ok) then (None, close w fd) else
      let '(payload, w) :=
        if decide (0 < rs_value_len resp_hdr) then recv_all w fd (Z.to_nat (rs_value_len resp_hdr)) else (Some [], w) in
      match payload with
      | None => (None, close w fd)
      | Some payload =>
          let w := close w fd in
          (parse_topology payload, w)
      end
  end.
End Calls.

(** ** Against the stream interface *)

(** A descriptor in its world is a connection. *)
#[export] Instance descriptor_stream {W} `{System W} : Stream (W * Z) := {
  recv := fun '(w, fd) n => let '(r, bs, w) := sys_recv w fd n in if decide (r <= 0) then None else Some (bs, (w, fd));
  send := fun '(w, fd) bs => let '(r, w) := sys_send w fd bs in if decide (r <= 0) then None else Some (Z.to_nat r, (w, fd))
}.

Section Streams.
Context {W : Type} `{System W}.

Lemma recv_loop_stream fuel w fd len buf :
  match read_loop fuel (w, fd) len buf with
  | Some (bs, (w', fd')) => recv_loop fuel w fd len buf = (Some bs, w') /\ fd' = fd
  | None => (recv_loop fuel w fd len buf).1 = None
  end.
Proof.
  revert w len buf. induction fuel as [|fuel IH]; intros w len buf; cbn [read_loop recv_loop]; case_decide; try done.
  cbn [recv descriptor_stream]. destruct (sys_recv w fd len) as [[n bs] w1]. case_decide; [done|]. apply IH.
Qed.

Lemma send_loop_stream fuel w fd p :
  match write_loop fuel (w, fd) p with
  | Some (w', fd') => send_loop fuel w fd p = (true, w') /\ fd' = fd
  | None => (send_loop fuel w fd p).1 = false
  end.
Proof.
  revert w p. induction fuel as [|fuel IH]; intros w p; cbn [write_loop send_loop]; case_decide; try done.
  cbn [send descriptor_stream]. destruct (sys_send w fd p) as [n w1]. case_decide; [done|]. apply IH.
Qed.

(** [tcp_connect] as [Topology] takes it. *)
Definition connect_stream (w : W) (host : bytes) (port : Z) : option (W * Z) :=
  let '(fd, w) := tcp_connect w host port in if decide (fd < 0) then None else Some (w, fd).

Lemma fetch_topology_stream w host port :
  (fetch_topology w host port).1 = Topology.fetch_topology (connect_stream w) host port.
Proof.
  unfold fetch_topology, Topology.fetch_topology, connect_stream.
  destruct (tcp_connect w host port) as [fd w1]. case_decide; [done|]. cbn [mbind option_bind]. cbv zeta.
  pose proof (send_loop_stream (length (RequestHeader_bytes (mkRequestHeader ClusterInfo x00 0 0))) w1 fd
    (RequestHeader_bytes (mkRequestHeader ClusterInfo x00 0 0))) as Hs.
  unfold send_all, write_all. destruct (write_loop _ _ _) as [[w2 fd2]|].
  2:{ destruct (send_loop _ _ _ _) as [ok w2]. cbn in Hs. by subst. }
  destruct Hs as [-> ->]. cbn [negb mbind option_bind]. unfold recv_all, read_exact.
  pose proof (recv_loop_stream sizeof_header w2 fd sizeof_header []) as Hr.
  destruct (read_loop _ _ _ _) as [[raw [w3 fd3]]|].
  2:{ destruct (recv_loop _ _ _ _ _) as [raw w3]. cbn in Hr. by subst. }
  destruct Hr as [-> ->]. cbn [mbind option_bind]. case_decide; [done|]. case_decide; [|done].
  pose proof (recv_loop_stream (Z.to_nat (rs_value_len (ResponseHeader_of_bytes raw))) w3 fd
    (Z.to_nat (rs_value_len (ResponseHeader_of_bytes raw))) []) as Hp.
  destruct (read_loop _ _ _ _) as [[payload [w4 fd4]]|].
  - by destruct Hp as [-> ->].
  - destruct (recv_loop _ _ _ _ _) as [payload w4]. cbn in Hp. by subst.
Qed.
End Streams.

(** ** Resources *)

Section Resources.
Context {W : Type} `{SystemLaws W}.

(** Nothing opened or closed, nothing allocated or freed. *)
Definition same_resources (w w' : W) : Prop := open_fds w' = open_fds w /\ lists w' = lists w.

#[local] Instance same_resources_preorder : PreOrder same_resources.
Proof. split; [done|]. intros w1 w2 w3 [H1 H2] [H3 H4]. split; congruence. Qed.

Lemma send_loop_keeps fuel w fd p : same_resources w (send_loop fuel w fd p).2.
Proof.
  revert w p. induction fuel as [|fuel IH]; intros w p; cbn [send_loop]; case_decide; try done.
  pose proof (send_keeps w fd p) as Hk. destruct (sys_send w fd p) as [n w1]. case_decide; [done|].
  etrans; [exact Hk|apply IH].
Qed.

Lemma recv_loop_keeps fuel w fd len buf : same_resources w (recv_loop fuel w fd len buf).2.
Proof.
  revert w len buf. induction fuel as [|fuel IH]; intros w len buf; cbn [recv_loop]; case_decide; try done.
  pose proof (recv_keeps w fd len) as Hk. destruct (sys_recv w fd len) as [[n bs] w1]. case_decide; [done|].
  etrans; [exact Hk|apply IH].
Qed.

(** A connection is a new descriptor; a failed attempt leaves nothing behind. *)
Lemma tcp_connect_owns w host port :
  let '(fd, w') := tcp_connect w host port in
  lists w' = lists w /\
  if decide (fd < 0) then open_fds w' = open_fds w else fd ∉ open_fds w /\ open_fds w' = {[fd]} ∪ open_fds w.
Proof.
  unfold tcp_connect. pose proof (getaddrinfo_law w host (format_uint port)) as Hg.
  destruct (getaddrinfo _ _ _) as [[a|] w1]; destruct Hg as [Hg1 Hg2].
  2:{ rewrite decide_True by lia. split; [lia|done]. }
  pose proof (socket_law w1 a) as Hs. destruct (socket w1 a) as [fd w2]. destruct Hs as [Hs1 Hs2].
  destruct (decide (fd < 0)).
  { rewrite decide_True by lia. destruct (freeaddrinfo_law w2 a) as [Hf1 Hf2]. split; [lia|congruence]. }
  destruct Hs2 as [Hnin Hs2]. destruct (setsockopt_law w2 fd) as [Ho1 Ho2].
  destruct (connect_law (setsockopt w2 fd) fd a) as [Hc1 Hc2].
  destruct (connect (setsockopt w2 fd) fd a) as [rc w3]. cbn [snd] in *. case_decide.
  - rewrite decide_True by lia. destruct (close_law w3 fd) as [Hd1 Hd2]. destruct (freeaddrinfo_law (close w3 fd) a) as [Hf1 Hf2].
    split; [lia|]. rewrite Hf1, Hd1, Hc1, Ho1, Hs2. rewrite <- Hg1. set_solver.
  - rewrite decide_False by done. destruct (freeaddrinfo_law w3 a) as [Hf1 Hf2]. split; [lia|].
    rewrite Hf1, Hc1, Ho1, Hs2, <- Hg1. done.
Qed.

(** Closing what was opened. *)
Lemma close_opened w0 w fd :
  fd ∉ open_fds w0 -> lists w = lists w0 -> open_fds w = {[fd]} ∪ open_fds w0 -> same_resources w0 (close w fd).
Proof.
  intros Hn Hl Ho. destruct (close_law w fd) as [Hc1 Hc2]. split; [|congruence]. rewrite Hc1, Ho. set_solver.
Qed.

(** With the laws, the loops never run out of fuel. *)
Lemma recv_loop_fuel fuel w fd len buf : (len <= fuel)%nat -> recv_loop fuel w fd len buf = recv_loop len w fd len buf.
Proof.
  assert (forall f1 f2 w len buf, (len <= f1)%nat -> (len <= f2)%nat ->
    recv_loop f1 w fd len buf = recv_loop f2 w fd len buf) as Hg; [|intros; by apply Hg].
  clear w len buf fuel. induction f1 as [|f1 IH]; intros [|f2] w len buf H1 H2; cbn [recv_loop]; case_decide; try (done || lia).
  pose proof (recv_bytes w fd len) as Hb. destruct (sys_recv w fd len) as [[n bs] w1]. case_decide; [done|].
  destruct Hb as [? ?]; [lia|]. apply IH; lia.
Qed.

Lemma send_loop_fuel fuel w fd p : (length p <= fuel)%nat -> send_loop fuel w fd p = send_all w fd p.
Proof.
  assert (forall f1 f2 w p, (length p <= f1)%nat -> (length p <= f2)%nat ->
    send_loop f1 w fd p = send_loop f2 w fd p) as Hg; [|intros; by apply Hg].
  clear w p fuel. induction f1 as [|f1 IH]; intros [|f2] w [|b p] H1 H2; cbn [length] in *; try (done || lia).
  cbn [send_loop]. rewrite decide_False by done. destruct (sys_send w fd (b :: p)) as [n w1]. case_decide; [done|].
  apply IH; rewrite length_drop; cbn [length]; lia.
Qed.

Lemma fetch_topology_keeps w host port : same_resources w (fetch_topology w host port).2.
Proof.
  unfold fetch_topology.
  pose proof (tcp_connect_owns w host port) as Hc. destruct (tcp_connect w host port) as [fd w1].
  destruct Hc as [Hl Hc]. destruct (decide (fd < 0)); [done|]. destruct Hc as [Hn Ho].
  assert (forall w', same_resources w1 w' -> same_resources w (close w' fd)) as Hclose
    by (intros w' [H1 H2]; apply close_opened; congruence).
  cbv zeta. unfold send_all.
  pose proof (send_loop_keeps (length (RequestHeader_bytes (mkRequestHeader ClusterInfo x00 0 0))) w1 fd
    (RequestHeader_bytes (mkRequestHeader ClusterInfo x00 0 0))) as Hs.
  destruct (send_loop _ _ _ _) as [[] w2]; cbn [negb snd] in *; [|by apply Hclose].
  unfold recv_all. pose proof (recv_loop_keeps sizeof_header w2 fd sizeof_header []) as Hr.
  destruct (recv_loop _ _ _ _ _) as [[raw|] w3]; cbn [snd] in *; [|apply Hclose; by etrans].
  case_decide; [apply Hclose; by etrans|]. case_decide; [|apply Hclose; by etrans].
  pose proof (recv_loop_keeps (Z.to_nat (rs_value_len (ResponseHeader_of_bytes raw))) w3 fd
    (Z.to_nat (rs_value_len (ResponseHeader_of_bytes raw))) []) as Hp.
  destruct (recv_loop _ _ _ _ _) as [[payload|] w4]; cbn [snd] in *; apply Hclose; by repeat (etrans; [eassumption|]).
Qed.

(** Fetching the topology leaks nothing.  On every path through
    [fetch_topology], with a resolver, a socket, a connection, a send or a read
    that fails, or a server that answers with an error or nonsense, each
    descriptor it opens is closed and each address list freed, exactly once, and
    no descriptor of anyone else is touched; and what it returns is what the
    stream protocol gives on the connection that was made. *)
Theorem fetch_topology_leaks_nothing w host port :
  open_fds (fetch_topology w host port).2 = open_fds w /\
  lists (fetch_topology w host port).2 = lists w /\
  (fetch_topology w host port).1 = Topology.fetch_topology (connect_stream w) host port.
Proof.
  rewrite fetch_topology_stream. destruct (fetch_topology_keeps w host port). by split_and!.
Qed.
End Resources.

(** ** A system *)

(** A server that answers one payload, delivered in pieces of five bytes. *)
Record demo_world := mkDemo { demo_fds : gset Z; demo_lists : Z; demo_inbox : bytes }.

#[export] Instance demo_system : System demo_world := {
  addrinfo := unit;
  getaddrinfo := fun w _ _ => (Some tt, mkDemo (demo_fds w) (demo_lists w + 1) (demo_inbox w));
  freeaddrinfo := fun w _ => mkDemo (demo_fds w) (demo_lists w - 1) (demo_inbox w);
  socket := fun w _ =>
    if decide (7 ∈ demo_fds w) then (-1, w) else (7, mkDemo ({[7]} ∪ demo_fds w) (demo_lists w) (demo_inbox w));
  setsockopt := fun w _ => w;
  connect := fun w _ _ => (0, w);
  close := fun w fd => mkDemo (demo_fds w ∖ {[fd]}) (demo_lists w) (demo_inbox w);
  sys_send := fun w _ bs => (Z.of_nat (length bs), w);
  sys_recv := fun w _ n =>
    let bs := take (Nat.min n 5) (demo_inbox w) in
    (Z.of_nat (length bs), bs, mkDemo (demo_fds w) (demo_lists w) (drop (Nat.min n 5) (demo_inbox w)))
}.

#[export] Program Instance demo_system_laws : SystemLaws demo_world := {
  open_fds := demo_fds;
  lists := demo_lists
}.
Next Obligation. done. Qed.
Next Obligation. done. Qed.
Next Obligation. intros w a. cbn. case_decide; cbn; [done|]. split; [done|]. by split. Qed.
Next Obligation. done. Qed.
Next Obligation. done. Qed.
Next Obligation. done. Qed.
Next Obligation. done. Qed.
Next Obligation. done. Qed.
Next Obligation. intros w fd n. cbn. intros _. split; [done|]. rewrite length_take. lia. Qed.

Definition demo_online : demo_world :=
  mkDemo {[3]} 0 (ResponseHeader_bytes (mkResponseHeader Ok x00 0 16) ++
    le_encode 2 1 ++ endpoint_bytes (mkEndpoint (lit "10.0.0.1") 7946 11211)).

Lemma fetch_topology_leaks_nothing_witness :
  (fetch_topology demo_online (lit "node-1") 11211).1 = Some [mkEndpoint (lit "10.0.0.1") 7946 11211] /\
  open_fds (fetch_topology demo_online (lit "node-1") 11211).2 = {[3]}.
Proof.
  split; [vm_compute; reflexivity|].
  exact (proj1 (fetch_topology_leaks_nothing demo_online (lit "node-1") 11211)).
Defined.
