(* ===== verification/RefreshThread.v ===== *)
(** * The background refresh ([src/src/sdk/topology_manager.cpp]:
    [start_background_refresh], [stop_background_refresh], [refresh_loop] and
    [refresh], [bootstrap] as other threads run them)

    [Topology] has [bootstrap] and [refresh] as functions.  Here they run in
    threads: every piece between two accesses to the lock or to [running_] is a
    step, client threads and the background thread interleave, and what a
    fetch answers is up to the network. *)

From stdpp Require Import relations.
From S2P Require Import Prelude Codec Stream Topology.

Local Open Scope Z_scope.

(** Where a call of [bootstrap] or [refresh] is: before the fetch from the seed,
    before copying the nodes under the lock, before the next fetch, before storing
    the answer under the lock. *)
Inductive refresh_pc :=
  | Seeding (seed_host : bytes) (seed_port : Z)
  | Copying
  | Fetching (current : list NodeEndpoint)
  | Storing (fresh : list NodeEndpoint)
  | Returned (ok : bool).

(** [fetch_topology(...) && !fresh.empty()]. *)
Definition usable (answer : option (list NodeEndpoint)) : option (list NodeEndpoint) :=
  fresh ← answer; if decide (fresh = []) then None else Some fresh.

Definition refresh_resume (answer : option (list NodeEndpoint)) (t : TopologyManager) (pc : refresh_pc)
    : TopologyManager * refresh_pc :=
  match pc with
  | Seeding _ _ => (t, match usable answer with Some nodes => Storing nodes | None => Returned false end)
  | Copying => (t, Fetching (nodes_ t))
  | Fetching [] => (t, Returned false)
  | Fetching (_ :: current) => (t, match usable answer with Some fresh => Storing fresh | None => Fetching current end)
  | Storing fresh => (set_nodes fresh, Returned true)
  | Returned ok => (t, Returned ok)
  end.

(** [refresh_loop]: before the test of the outer loop, before that of the inner
    one, in [sleep_for], before the test of [running_], and in [refresh]. *)
Inductive thread_pc :=
  | Head
  | Counting (i : Z)
  | Sleeping (i : Z)
  | Checking
  | Refreshing (r : refresh_pc)
  | Ended.

#[export] Instance refresh_pc_eq_dec : EqDecision refresh_pc.
Proof. solve_decision. Defined.
#[export] Instance thread_pc_eq_dec : EqDecision thread_pc.
Proof. solve_decision. Defined.

Definition thread_resume (interval : Z) (running : bool) (answer : option (list NodeEndpoint))
    (t : TopologyManager) (pc : thread_pc) : TopologyManager * thread_pc :=
  match pc with
  | Head => (t, if running then Counting 0 else Ended)
  | Counting i => (t, if decide (i < interval /\ running = true) then Sleeping i else Checking)
  | Sleeping i => (t, Counting (i + 1))
  | Checking => (t, if running then Refreshing Copying else Head)
  | Refreshing r =>
      let '(t, r) := refresh_resume answer t r in
      (t, match r with Returned _ => Head | _ => Refreshing r end)
  | Ended => (t, Ended)
  end.

(** The shared object and the threads.  [refresh_thread_] is [Some] while the
    [std::thread] is joinable; [joining]: a thread is inside
    [stop_background_refresh], at [join]. *)
Record manager := mkManager {
  topology : TopologyManager;
  running_ : bool;
  refresh_thread_ : option (Z * thread_pc);
  joining : bool;
  callers : list refresh_pc
}.

Definition manager_new : manager := mkManager TopologyManager_new false None false [].

(** [None]: assigning to a joinable [std::thread] calls [std::terminate]. *)
Definition start_background_refresh (interval : Z) (m : manager) : option manager :=
  if decide (interval <= 0) then Some m else
  if running_ m then Some m else
  match refresh_thread_ m with
  | Some _ => None
  | None => Some (mkManager (topology m) true (Some (interval, Head)) (joining m) (callers m))
  end.

(** [stop_background_refresh], and the destructor, up to the call of [join]. *)
Definition stop_background_refresh (m : manager) : manager :=
  mkManager (topology m) false (refresh_thread_ m) (bool_decide (is_Some (refresh_thread_ m))) (callers m).
Definition TopologyManager_destroy (m : manager) : manager := stop_background_refresh m.

Inductive event :=
  | Called (r : refresh_pc)
  | CallerRan (i : nat) (answer : option (list NodeEndpoint))
  | ThreadRan (answer : option (list NodeEndpoint))
  | Started (interval : Z)
  | StopCalled
  | Joined.

(** [join] returns when the thread has ended; while a thread waits there, it makes
    no other call.  [None]: not possible, or [std::terminate]. *)
Definition manager_next (e : event) (m : manager) : option manager :=
  match e with
  | Called r => Some (mkManager (topology m) (running_ m) (refresh_thread_ m) (joining m) (callers m ++ [r]))
  | CallerRan i answer =>
      r ← callers m !! i;
      let '(t, r) := refresh_resume answer (topology m) r in
      Some (mkManager t (running_ m) (refresh_thread_ m) (joining m) (<[i := r]> (callers m)))
  | ThreadRan answer =>
      '(interval, pc) ← refresh_thread_ m;
      if decide (pc = Ended) then None else
      let '(t, pc) := thread_resume interval (running_ m) answer (topology m) pc in
      Some (mkManager t (running_ m) (Some (interval, pc)) (joining m) (callers m))
  | Started interval => if joining m then None else start_background_refresh interval m
  | StopCalled => if joining m then None else Some (stop_background_refresh m)
  | Joined =>
      match refresh_thread_ m with
      | Some (_, Ended) =>
          if joining m then Some (mkManager (topology m) (running_ m) None false (callers m)) else None
      | _ => None
      end
  end.

Fixpoint manager_run (es : list event) (m : manager) : option manager :=
  match es with
  | [] => Some m
  | e :: es => m' ← manager_next e m; manager_run es m'
  end.

(** An answer is what [fetch_topology] makes of some payload, or a failure. *)
Definition answer_ok (answer : option (list NodeEndpoint)) : Prop :=
  answer = None \/ exists payload, answer = parse_topology payload.

Definition event_ok (e : event) : Prop :=
  match e with
  | Called r => r = Copying \/ exists host port, r = Seeding host port
  | CallerRan _ answer | ThreadRan answer => answer_ok answer
  | Started _ | StopCalled | Joined => True
  end.

Definition answered (es : list event) : list (list NodeEndpoint) :=
  omap (fun e => match e with CallerRan _ answer | ThreadRan answer => usable answer | _ => None end) es.

(** ** A call on its own is the function *)

Section Alone.
Context {W : Type} (fetch : W -> bytes -> Z -> option (list NodeEndpoint) * W).

(** One step, with the fetch it makes. *)
Definition refresh_step (a : W * TopologyManager * refresh_pc) : W * TopologyManager * refresh_pc :=
  let '(w, t, pc) := a in
  let '(answer, w) :=
    match pc with
    | Seeding host port => fetch w host port
    | Fetching (ep :: _) => fetch w (ep_host ep) (ep_data_port ep)
    | _ => (None, w)
    end in
  let '(t, pc) := refresh_resume answer t pc in (w, t, pc).

Lemma fetching_alone current w t :
  let '(ok, t', w') := refresh_loop fetch w t current in
  exists n, (n <= length current + 2)%nat /\ Nat.iter n refresh_step (w, t, Fetching current) = (w', t', Returned ok).
Proof.
  revert w. induction current as [|ep current IH]; intros w; cbn [refresh_loop]; [exists 1%nat; split; [cbn; lia|done]|].
  destruct (fetch w (ep_host ep) (ep_data_port ep)) as [answer w1] eqn:Ef.
  assert (refresh_step (w, t, Fetching (ep :: current)) =
    (w1, t, match usable answer with Some fresh => Storing fresh | None => Fetching current end)) as E1
    by (cbn; by rewrite Ef).
  assert (usable answer = match answer with Some fresh => if decide (fresh = []) then None else Some fresh | None => None end)
    as Eu by (by destruct answer).
  rewrite Eu in E1. specialize (IH w1). destruct answer as [fresh|]; [case_decide|].
  2:{ exists 2%nat. split; [cbn; lia|]. rewrite Nat.iter_succ_r, E1. done. }
  all: destruct (refresh_loop fetch w1 t current) as [[ok t'] w']; destruct IH as (n & Hn & IH); exists (S n);
    (split; [cbn; lia|]); by rewrite Nat.iter_succ_r, E1.
Qed.

(** Refreshing in steps is refreshing.  Without interference, the steps of a
    call of [refresh] or [bootstrap] end after at most one step per known node and
    three more, with the result, the topology and the network that the functions
    give. *)
Theorem refresh_alone w t host port :
  (let '(ok, t', w') := refresh fetch w t in
   exists n, (n <= length (nodes_ t) + 3)%nat /\ Nat.iter n refresh_step (w, t, Copying) = (w', t', Returned ok)) /\
  (let '(ok, t', w') := bootstrap fetch w t host port in
   exists n, (n <= 2)%nat /\ Nat.iter n refresh_step (w, t, Seeding host port) = (w', t', Returned ok)).
Proof.
  split.
  - pose proof (fetching_alone (nodes_ t) w t) as H. unfold refresh.
    destruct (refresh_loop fetch w t (nodes_ t)) as [[ok t'] w']. destruct H as (n & Hn & H).
    exists (S n). split; [lia|]. by rewrite Nat.iter_succ_r.
  - unfold bootstrap. destruct (fetch w host port) as [[nodes|] w1] eqn:Ef; [case_decide as Hn|].
    + exists 1%nat. split; [lia|]. cbn. rewrite Ef. cbn. by rewrite decide_True.
    + exists 2%nat. split; [lia|]. cbn. rewrite Ef. cbn. by rewrite decide_False.
    + exists 1%nat. split; [lia|]. cbn. by rewrite Ef.
Qed.
End Alone.

(** ** The invariant *)

(** The node count of a payload is a [uint16_t]. *)
Lemma parse_nodes_length n payload p nodes : parse_nodes n payload p = Some nodes -> length nodes = n.
Proof.
  revert p nodes. induction n as [|n IH]; intros p nodes E; cbn [parse_nodes] in E; [by simplify_eq|].
  repeat (case_decide; [done|]). apply bind_Some in E as (rest & E & [= <-]). cbn. by rewrite (IH _ _ E).
Qed.

Lemma parse_topology_length payload nodes : parse_topology payload = Some nodes -> Z.of_nat (length nodes) < 2 ^ 16.
Proof.
  unfold parse_topology. case_decide; [done|]. intros E%parse_nodes_length. rewrite E. unfold memcpy_u16, slice.
  pose proof (le_decode_take_bound 2 (drop 0 payload)) as Hb. unfold in_width in Hb.
  change (2 ^ (8 * Z.of_nat 2)) with 65536 in Hb. lia.
Qed.

(** What a call holds was answered to some fetch. *)
Definition refresh_ok (A : list (list NodeEndpoint)) (r : refresh_pc) : Prop :=
  match r with
  | Storing fresh => fresh ∈ A
  | Fetching current => Z.of_nat (length current) < 2 ^ 16
  | Seeding _ _ | Copying | Returned _ => True
  end.

Definition thread_ok A (pc : thread_pc) : Prop := match pc with Refreshing r => refresh_ok A r | _ => True end.

Record manager_inv (A : list (list NodeEndpoint)) (m : manager) : Prop := {
  mi_answers : Forall (fun nodes => nodes <> [] /\ Z.of_nat (length nodes) < 2 ^ 16) A;
  mi_topology : topology m = TopologyManager_new \/ exists nodes, nodes ∈ A /\ topology m = set_nodes nodes;
  mi_callers : Forall (refresh_ok A) (callers m);
  mi_thread interval pc : refresh_thread_ m = Some (interval, pc) -> thread_ok A pc /\ (pc = Ended -> running_ m = false);
  mi_join : if running_ m then is_Some (refresh_thread_ m) /\ joining m = false
            else joining m = bool_decide (is_Some (refresh_thread_ m))
}.

Lemma refresh_ok_mono A A' r : A ⊆ A' -> refresh_ok A r -> refresh_ok A' r.
Proof. destruct r; cbn; set_solver. Qed.

Lemma thread_ok_mono A A' pc : A ⊆ A' -> thread_ok A pc -> thread_ok A' pc.
Proof. destruct pc; cbn; [done..| |done]. apply refresh_ok_mono. Qed.

Lemma usable_Some answer fresh : usable answer = Some fresh <-> answer = Some fresh /\ fresh <> [].
Proof.
  unfold usable. destruct answer as [l|]; cbn; [|split; [done|by intros [? _]]]. case_decide; split; naive_solver.
Qed.

Lemma answered_ok es :
  Forall event_ok es -> Forall (fun nodes => nodes <> [] /\ Z.of_nat (length nodes) < 2 ^ 16) (answered es).
Proof.
  intros Hes. apply Forall_forall. intros nodes (e & He & E)%list_elem_of_omap.
  pose proof (proj1 (Forall_forall _ _) Hes _ He) as Hok.
  assert (exists answer, answer_ok answer /\ usable answer = Some nodes) as (answer & Ha & Eu) by (destruct e; by eauto).
  apply usable_Some in Eu as [-> Hne]. destruct Ha as [?|[payload Ep]]; [done|].
  split; [done|]. by apply (parse_topology_length payload).
Qed.

Lemma topology_length A m : manager_inv A m -> Z.of_nat (length (nodes_ (topology m))) < 2 ^ 16.
Proof.
  intros Hm. destruct (mi_topology _ _ Hm) as [->|(nodes & Hin & ->)]; [cbn; lia|].
  by apply (proj1 (Forall_forall _ _) (mi_answers _ _ Hm)).
Qed.

(** One step of a call, with the answer it got. *)
Lemma refresh_resume_ok A answer t r t' r' :
  Z.of_nat (length (nodes_ t)) < 2 ^ 16 -> refresh_ok A r -> refresh_resume answer t r = (t', r') ->
  refresh_ok (A ++ option_list (usable answer)) r' /\ (t' = t \/ exists nodes, nodes ∈ A /\ t' = set_nodes nodes).
Proof.
  intros Ht Hr E. destruct r as [h p| |[|ep current]|fresh|ok]; cbn in E, Hr; simplify_eq; try (split; [done|by left]).
  - split; [|by left]. destruct (usable answer); cbn; set_solver.
  - split; [|by left]. destruct (usable answer); cbn; [set_solver|lia].
  - split; [done|]. right. eauto.
Qed.

Lemma thread_resume_ok A interval running answer t pc t' pc' :
  Z.of_nat (length (nodes_ t)) < 2 ^ 16 -> thread_ok A pc -> pc <> Ended ->
  thread_resume interval running answer t pc = (t', pc') ->
  thread_ok (A ++ option_list (usable answer)) pc' /\ (t' = t \/ exists nodes, nodes ∈ A /\ t' = set_nodes nodes) /\
  (pc' = Ended -> running = false).
Proof.
  intros Ht Hpc Hne E. destruct pc as [|i|i| |r|]; cbn in E; try done.
  5:{ destruct (refresh_resume answer t r) as [t1 r1] eqn:Er. simplify_eq.
      destruct (refresh_resume_ok A answer t r _ _ Ht Hpc Er) as [H1 H2]. by destruct r1. }
  all: simplify_eq; (split; [|split; [by left|]]); repeat case_match; done.
Qed.

Lemma manager_inv_new : manager_inv [] manager_new.
Proof. split; [constructor|by left|constructor|done|done]. Qed.

Lemma topology_next (A A' : list (list NodeEndpoint)) t t' :
  A ⊆ A' -> t = TopologyManager_new \/ (exists nodes, nodes ∈ A /\ t = set_nodes nodes) ->
  t' = t \/ (exists nodes, nodes ∈ A /\ t' = set_nodes nodes) ->
  t' = TopologyManager_new \/ exists nodes, nodes ∈ A' /\ t' = set_nodes nodes.
Proof. intros HA Ht [->|Ht']; [destruct Ht as [?|Ht]; [by left|]|]; right; set_solver. Qed.

Lemma manager_next_inv A e m m' :
  event_ok e -> manager_inv A m -> manager_next e m = Some m' -> manager_inv (A ++ answered [e]) m'.
Proof.
  intros Hok Hm E.
  assert (Forall (fun nodes => nodes <> [] /\ Z.of_nat (length nodes) < 2 ^ 16) (A ++ answered [e])) as HA
    by (apply Forall_app; split; [apply Hm|apply answered_ok; by constructor]).
  pose proof (topology_length _ _ Hm) as Hlen. destruct Hm as [_ Ht Hc Hth Hj].
  destruct e as [r|i answer|answer|interval| |]; cbn [manager_next] in E; cbn [answered omap list_omap] in *.
  - injection E as <-. rewrite app_nil_r in *. split; [done..| |done|done]. cbn. apply Forall_app. split; [done|].
    apply Forall_singleton. by destruct Hok as [->|(h & p & ->)].
  - apply bind_Some in E as (r & Hi & E). destruct (refresh_resume answer (topology m) r) as [t' r'] eqn:Er. injection E as <-.
    destruct (refresh_resume_ok A answer _ _ _ _ Hlen (Forall_lookup_1 _ _ _ _ Hc Hi) Er) as [Hr Ht'].
    change (match usable answer with Some y => [y] | None => [] end) with (option_list (usable answer)) in *.
    split; cbn; [done|eapply topology_next; [|done..]; set_solver| | |done].
    + apply Forall_insert; [|done]. eapply Forall_impl; [exact Hc|]. intros x. apply refresh_ok_mono. set_solver.
    + intros iv pc Hpc. destruct (Hth _ _ Hpc). split; [|done]. eapply thread_ok_mono; [|done]. set_solver.
  - apply bind_Some in E as ([iv pc] & Hpc & E). case_decide as Hne; [done|].
    destruct (thread_resume iv (running_ m) answer (topology m) pc) as [t' pc'] eqn:Er. injection E as <-.
    destruct (thread_resume_ok A _ _ answer _ _ _ _ Hlen (proj1 (Hth _ _ Hpc)) Hne Er) as (Hr & Ht' & Hend).
    change (match usable answer with Some y => [y] | None => [] end) with (option_list (usable answer)) in *.
    split; cbn; [done|eapply topology_next; [|done..]; set_solver| | |].
    + eapply Forall_impl; [exact Hc|]. intros x. apply refresh_ok_mono. set_solver.
    + intros iv' pc'' [= <- <-]. done.
    + rewrite Hpc in Hj. destruct (running_ m); [by destruct Hj|done].
  - rewrite app_nil_r in *. destruct (joining m) eqn:Ejn; [done|]. unfold start_background_refresh in E.
    case_decide; [injection E as <-; split; [done..|by rewrite Ejn]|].
    destruct (running_ m) eqn:Erun; [injection E as <-; split; [done..| |by rewrite Erun, Ejn]|].
    { intros iv pc Hpc. rewrite Erun. exact (Hth _ _ Hpc). }
    destruct (refresh_thread_ m) as [|] eqn:Eth; [done|]. injection E as <-.
    split; cbn; [done..| |by rewrite Ejn]. by intros iv pc [= <- <-].
  - rewrite app_nil_r in *. destruct (joining m); [done|]. injection E as <-. split; cbn; [done..| |done].
    intros iv pc Hpc. destruct (Hth _ _ Hpc). done.
  - rewrite app_nil_r in *. destruct (refresh_thread_ m) as [[iv []]|] eqn:Eth; try done.
    destruct (joining m); [|done]. injection E as <-. destruct (Hth _ _ eq_refl) as [_ Hend]. rewrite Hend in * by done.
    split; cbn; done.
Qed.

Lemma manager_run_inv A es m m' :
  Forall event_ok es -> manager_inv A m -> manager_run es m = Some m' -> manager_inv (A ++ answered es) m'.
Proof.
  intros Hes. revert A m. induction Hes as [|e es He _ IH]; intros A m Hm E; cbn [manager_run] in E.
  - injection E as <-. by rewrite app_nil_r.
  - apply bind_Some in E as (m1 & E1 & E). apply (manager_next_inv A) in E1; [|done..].
    apply IH in E1; [|done]. rewrite <- app_assoc in E1. unfold answered in *. by rewrite <- omap_app in E1.
Qed.

Lemma topology_nonempty A m : manager_inv A m -> nodes_ (topology m) = [] \/ nodes_ (topology m) ∈ A.
Proof. intros Hm. destruct (mi_topology _ _ Hm) as [->|(nodes & ? & ->)]; [by left|by right]. Qed.

Lemma manager_next_keeps A e m m' :
  event_ok e -> manager_inv A m -> manager_next e m = Some m' ->
  topology m' = topology m \/ exists nodes, nodes ∈ A /\ topology m' = set_nodes nodes.
Proof.
  intros Hok Hm E. pose proof (topology_length _ _ Hm) as Hlen.
  destruct e as [r|i answer|answer|interval| |]; cbn [manager_next] in E.
  - injection E as <-. by left.
  - apply bind_Some in E as (r & Hi & E). destruct (refresh_resume answer (topology m) r) as [t' r'] eqn:Er. injection E as <-.
    by apply (refresh_resume_ok A answer _ _ _ _ Hlen (Forall_lookup_1 _ _ _ _ (mi_callers _ _ Hm) Hi) Er).
  - apply bind_Some in E as ([iv pc] & Hpc & E). case_decide as Hne; [done|].
    destruct (thread_resume iv (running_ m) answer (topology m) pc) as [t' pc'] eqn:Er. injection E as <-.
    by apply (thread_resume_ok A _ _ answer _ _ _ _ Hlen (proj1 (mi_thread _ _ Hm _ _ Hpc)) Hne Er).
  - left. destruct (joining m); [done|]. unfold start_background_refresh in E. repeat case_match; by simplify_eq.
  - left. destruct (joining m); by simplify_eq.
  - left. repeat case_match; by simplify_eq.
Qed.


(** ** Stopping *)

(** How many steps the thread takes at most once [running_] is false. *)
Definition refresh_left (r : refresh_pc) : Z :=
  match r with
  | Copying => 2 + 2 ^ 16
  | Fetching current => 2 + Z.of_nat (length current)
  | Seeding _ _ => 3
  | Storing _ | Returned _ => 2
  end.

Definition thread_left (pc : thread_pc) : Z :=
  match pc with
  | Ended => 0
  | Head => 1
  | Checking => 2
  | Counting _ => 3
  | Sleeping _ => 4
  | Refreshing r => refresh_left r
  end.

Definition manager_left (m : manager) : Z := match refresh_thread_ m with Some (_, pc) => thread_left pc | None => 0 end.

Definition thread_ran (e : event) : Prop := match e with ThreadRan _ => True | _ => False end.
#[export] Instance thread_ran_dec e : Decision (thread_ran e).
Proof. destruct e; cbn; apply _. Defined.

Lemma thread_left_pos A pc : thread_ok A pc -> pc <> Ended -> 0 < thread_left pc <= 2 + 2 ^ 16.
Proof. destruct pc as [|i|i| |[]|]; cbn; intros; try done; lia. Qed.

Lemma thread_left_decreases interval answer t pc t' pc' :
  Z.of_nat (length (nodes_ t)) < 2 ^ 16 -> pc <> Ended ->
  thread_resume interval false answer t pc = (t', pc') -> thread_left pc' < thread_left pc.
Proof.
  intros Ht Hne E. destruct pc as [|i|i| |r|]; cbn in E; try done; simplify_eq; cbn; try lia.
  - case_decide as Hd; [by destruct Hd|]. cbn. lia.
  - destruct (refresh_resume answer t r) as [t1 r1] eqn:Er. simplify_eq.
    destruct r as [h p| |[|ep current]|fresh|ok]; cbn in Er; [destruct (usable answer)|..|]; simplify_eq; cbn; try lia.
    destruct (usable answer); cbn; lia.
Qed.

(** While a thread waits at [join]. *)
Lemma joining_next A e m m' :
  event_ok e -> e <> Joined -> manager_inv A m -> joining m = true -> manager_next e m = Some m' ->
  joining m' = true /\ manager_left m' + (if decide (thread_ran e) then 1 else 0) <= manager_left m.
Proof.
  intros Hok Hne Hm Hj E. pose proof (topology_length _ _ Hm) as Hlen.
  assert (running_ m = false) as Hrun by (pose proof (mi_join _ _ Hm) as H; destruct (running_ m); [|done]; by destruct H; congruence).
  unfold manager_left. destruct e as [r|i answer|answer|interval| |]; cbn [manager_next] in E; rewrite ?Hj in E; try done.
  - injection E as <-. cbn. split; [done|]. rewrite decide_False by (intros []). lia.
  - apply bind_Some in E as (r & Hi & E). destruct (refresh_resume answer (topology m) r) as [t' r'] eqn:Er. injection E as <-.
    cbn. split; [done|]. rewrite decide_False by (intros []). lia.
  - apply bind_Some in E as ([iv pc] & Hpc & E). case_decide as Hend; [done|]. rewrite Hrun in E.
    destruct (thread_resume iv false answer (topology m) pc) as [t' pc'] eqn:Er. injection E as <-. cbn. split; [done|].
    rewrite Hpc. rewrite decide_True by done. pose proof (thread_left_decreases _ _ _ _ _ _ Hlen Hend Er). lia.
Qed.

Lemma joining_run A es m m' :
  Forall event_ok es -> Joined ∉ es -> manager_inv A m -> joining m = true -> manager_run es m = Some m' ->
  joining m' = true /\ manager_left m' + Z.of_nat (length (filter thread_ran es)) <= manager_left m.
Proof.
  intros Hes. revert A m. induction Hes as [|e es He _ IH]; intros A m Hn Hm Hj E; cbn [manager_run] in E.
  - injection E as <-. split; [done|]. cbn. lia.
  - apply not_elem_of_cons in Hn as [Hn1 Hn2]. apply bind_Some in E as (m1 & E1 & E).
    destruct (joining_next A e m m1) as [Hj1 Hle]; [done|by intros ->|done..|].
    apply (manager_next_inv A) in E1; [|done..]. destruct (IH _ _ Hn2 E1 Hj1 E) as [Hj' Hle']. split; [done|].
    rewrite filter_cons. case_decide; cbn [length]; lia.
Qed.

(** C30: Stopping the background refresh returns.  After [stop_background_refresh],
    which the destructor calls too, the thread takes at most 65538 more steps,
    whatever other threads do and whatever its fetches answer: it finishes the
    refresh it is in, of at most 65535 nodes, and starts no other.  Until the join
    has returned, either the thread can take its next step or it has ended and the
    join returns. *)
Theorem stop_background_refresh_returns es m es' m' :
  Forall event_ok es -> manager_run es manager_new = Some m -> is_Some (refresh_thread_ m) ->
  Forall event_ok es' -> Joined ∉ es' -> manager_run es' (stop_background_refresh m) = Some m' ->
  Z.of_nat (length (filter thread_ran es')) <= 2 + 2 ^ 16 /\
  (is_Some (manager_next Joined m') \/ forall answer, is_Some (manager_next (ThreadRan answer) m')).
Proof.
  intros Hes Hrun Hth Hes' Hn Hrun'. pose proof (manager_run_inv [] es _ _ Hes manager_inv_new Hrun) as Hm. cbn [app] in Hm.
  assert (manager_inv (answered es) (stop_background_refresh m)) as Hs.
  { destruct Hm as [? ? ? Ht _]. split; cbn; [done..| |done]. intros iv pc Hpc. by destruct (Ht _ _ Hpc). }
  assert (joining (stop_background_refresh m) = true) as Hj by (cbn; by apply bool_decide_eq_true).
  destruct (joining_run _ _ _ _ Hes' Hn Hs Hj Hrun') as [Hj' Hle].
  pose proof (manager_run_inv _ _ _ _ Hes' Hs Hrun') as Hm'.
  destruct Hth as [[iv pc] Hpc]. assert (manager_left (stop_background_refresh m) <= 2 + 2 ^ 16) as Hmax.
  { unfold manager_left. cbn. rewrite Hpc. destruct (decide (pc = Ended)) as [->|Hne]; [cbn; lia|].
    by apply (thread_left_pos _ _ (proj1 (mi_thread _ _ Hm _ _ Hpc))). }
  pose proof (mi_join _ _ Hm') as Hjj. destruct (running_ m') eqn:Er; [destruct Hjj; congruence|].
  rewrite Hj' in Hjj. symmetry in Hjj. apply bool_decide_eq_true in Hjj as [[iv' pc'] Hpc'].
  unfold manager_left in Hle at 1. cbn [manager_next]. rewrite Hpc' in *. split.
  - destruct (decide (pc' = Ended)) as [->|Hne]; [cbn in Hle; lia|].
    pose proof (thread_left_pos _ _ (proj1 (mi_thread _ _ Hm' _ _ Hpc')) Hne). lia.
  - destruct (decide (pc' = Ended)) as [->|Hne]; [left; rewrite Hj'; by eexists|]. right. intros answer.
    cbn. rewrite decide_False by done. destruct (thread_resume _ _ _ _ _). by eexists.
Qed.

(** ** A run *)

Definition demo_payload : bytes := le_encode 2 1 ++ endpoint_bytes (mkEndpoint (lit "10.0.0.1") 7946 11211).

(** Bootstrap, then one period of the thread and a stop in the middle of its
    refresh. *)
Definition demo_events : list event :=
  [Called (Seeding (lit "10.0.0.1") 11211); CallerRan 0 (parse_topology demo_payload); CallerRan 0 None;
   Started 1; ThreadRan None; ThreadRan None; ThreadRan None; ThreadRan None; ThreadRan None; ThreadRan None].

Lemma demo_events_ok : Forall event_ok demo_events.
Proof.
  unfold demo_events. repeat (apply Forall_cons; split); [by right; eexists _, _|right; by eexists|by left|done|by left..|constructor].
Qed.

Definition demo_manager : manager := default manager_new (manager_run demo_events manager_new).


Lemma stop_background_refresh_returns_witness :
  exists m', manager_run [ThreadRan None; ThreadRan None; ThreadRan None] (stop_background_refresh demo_manager) = Some m' /\
    is_Some (manager_next Joined m').
Proof.
  eexists. split; [vm_compute; reflexivity|].
  destruct (stop_background_refresh_returns demo_events demo_manager [ThreadRan None; ThreadRan None; ThreadRan None]
    _ demo_events_ok ltac:(vm_compute; reflexivity) ltac:(eexists; vm_compute; reflexivity)
    ltac:(repeat (apply Forall_cons; split); [by left..|constructor]) ltac:(set_solver) ltac:(vm_compute; reflexivity)) as [_ [Hj|Ht]]; [exact Hj|].
  destruct (Ht None) as [? Hx]. vm_compute in Hx. discriminate.
Defined.
