(* ===== verification/CircuitBreaker.v ===== *)
(** * The client's circuit breaker ([src/src/sdk/circuit_breaker.{h,cpp}])

    One entry per endpoint that ever failed.  Times are readings of the steady
    clock in nanoseconds; every call takes the lock for its whole body. *)

From S2P Require Import Prelude Topology.

Local Open Scope Z_scope.

Record Config := mkConfig {
  failure_threshold : Z;     (* int *)
  open_duration_ms : Z
}.

Definition default_config : Config := mkConfig 3 5000.

Inductive State := Closed | Open | HalfOpen.

#[export] Instance State_eq_dec : EqDecision State.
Proof. solve_decision. Defined.

Record Entry := mkEntry {
  cb_state : State;
  consecutive_failures : Z;
  opened_at : Z
}.

(** [Entry{}]. *)
Definition Entry_new : Entry := mkEntry Closed 0 0.

Abbreviation PeerKey := (bytes * Z)%type.
Abbreviation CircuitBreaker := (gmap PeerKey Entry).

Definition CircuitBreaker_new : CircuitBreaker := ∅.

Definition peer_key (ep : NodeEndpoint) : PeerKey := (ep_host ep, ep_data_port ep).

Section Calls.
Context (cfg : Config).

Definition allow (now : Z) (b : CircuitBreaker) (ep : NodeEndpoint) : bool * CircuitBreaker :=
  match b !! peer_key ep with
  | None => (true, b)
  | Some e =>
      if decide (cb_state e = Closed) then (true, b)
      else if decide (now - opened_at e >= open_duration_ms cfg * 1000000)
      then (true, <[peer_key ep := mkEntry HalfOpen (consecutive_failures e) (opened_at e)]> b)
      else (false, b)
  end.

Definition record_success (b : CircuitBreaker) (ep : NodeEndpoint) : CircuitBreaker :=
  match b !! peer_key ep with
  | None => b
  | Some e => <[peer_key ep := mkEntry Closed 0 (opened_at e)]> b
  end.

Definition record_failure (now : Z) (b : CircuitBreaker) (ep : NodeEndpoint) : CircuitBreaker :=
  let e := default Entry_new (b !! peer_key ep) in
  let n := consecutive_failures e + 1 in
  if decide (n >= failure_threshold cfg)
  then <[peer_key ep := mkEntry Open n now]> b
  else <[peer_key ep := mkEntry (cb_state e) n (opened_at e)]> b.

Definition open_count (b : CircuitBreaker) : nat := size (filter (fun p => cb_state p.2 = Open) b).

(** ** The contract

    The reference keeps no states: of the calls made so far only the failures
    after the last success of an endpoint count. *)

Inductive event :=
  | EAllow (now : Z) (ep : NodeEndpoint)
  | ESuccess (ep : NodeEndpoint)
  | EFailure (now : Z) (ep : NodeEndpoint).

Definition run_event (b : CircuitBreaker) (ev : event) : CircuitBreaker :=
  match ev with
  | EAllow now ep => (allow now b ep).2
  | ESuccess ep => record_success b ep
  | EFailure now ep => record_failure now b ep
  end.

Definition run (b : CircuitBreaker) (evs : list event) : CircuitBreaker := foldl run_event b evs.

(** How many failures in a row, and when the last one was. *)
Definition streak_event (k : PeerKey) (st : option (Z * Z)) (ev : event) : option (Z * Z) :=
  match ev with
  | EAllow _ _ => st
  | ESuccess ep => if decide (peer_key ep = k) then None else st
  | EFailure now ep =>
      if decide (peer_key ep = k)
      then Some (match st with Some (n, _) => n + 1 | None => 1 end, now)
      else st
  end.

Definition streak (k : PeerKey) (evs : list event) : option (Z * Z) := foldl (streak_event k) None evs.

(** The endpoint is shunned. *)
Definition shunned (st : option (Z * Z)) (now : Z) : bool :=
  match st with
  | None => false
  | Some (n, last) =>
      bool_decide (n >= failure_threshold cfg) && bool_decide (now - last < open_duration_ms cfg * 1000000)
  end.

(** What an entry records of a streak. *)
Definition records (o : option Entry) (st : option (Z * Z)) : Prop :=
  match o, st with
  | None, None => True
  | Some e, None => cb_state e = Closed /\ consecutive_failures e = 0
  | Some e, Some (n, last) =>
      consecutive_failures e = n /\
      if decide (n >= failure_threshold cfg) then cb_state e <> Closed /\ opened_at e = last
      else cb_state e = Closed
  | None, Some _ => False
  end.

Lemma run_event_records b ev k st : 
  (forall n last, st = Some (n, last) -> 0 < n) ->
  records (b !! k) st -> records (run_event b ev !! k) (streak_event k st ev).
Proof.
  intros Hpos Hr. destruct ev as [now ep|ep|now ep]; simpl.
  - unfold allow. destruct (b !! peer_key ep) as [e|] eqn:Ee; [|done].
    repeat case_decide; simpl; try done.
    destruct (decide (peer_key ep = k)) as [<-|Hne]; [|by rewrite lookup_insert_ne].
    rewrite lookup_insert_eq. rewrite Ee in Hr. destruct st as [[n last]|]; simpl in *; [|tauto].
    destruct Hr as [-> Hr]. case_decide; [naive_solver|done].
  - unfold record_success. destruct (decide (peer_key ep = k)) as [<-|Hne].
    + destruct (b !! peer_key ep) as [e|] eqn:Ee; [by rewrite lookup_insert_eq|by rewrite Ee].
    + destruct (b !! peer_key ep); [by rewrite lookup_insert_ne|done].
  - unfold record_failure. destruct (decide (peer_key ep = k)) as [<-|Hne].
    + assert (consecutive_failures (default Entry_new (b !! peer_key ep)) + 1 =
              match st with Some (n, _) => n + 1 | None => 1 end) as En.
      { destruct (b !! peer_key ep) as [e|], st as [[n last]|]; simpl in *; lia || done || naive_solver lia. }
      rewrite En. case_decide as Ht; rewrite lookup_insert_eq; cbn [records consecutive_failures];
        (split; [done|]); [by rewrite decide_True|]. rewrite decide_False by done. cbn [cb_state].
      destruct (b !! peer_key ep) as [e|], st as [[n last]|]; simpl in *; try done; [|naive_solver].
      destruct Hr as [_ Hr]. rewrite decide_False in Hr by lia. done.
    + case_decide; by rewrite lookup_insert_ne.
Qed.

Lemma streak_pos k evs st :
  (forall n last, st = Some (n, last) -> 0 < n) ->
  forall n last, foldl (streak_event k) st evs = Some (n, last) -> 0 < n.
Proof.
  revert st. induction evs as [|ev evs IH]; intros st Hst; simpl; [done|]. apply IH.
  intros n last. destruct ev; simpl; try case_decide; try done; [by apply Hst|by apply Hst| |by apply Hst].
  intros [= <- _]. destruct st as [[m ?]|]; [|done]. pose proof (Hst _ _ eq_refl). lia.
Qed.

Lemma run_records evs k : records (run ∅ evs !! k) (streak k evs).
Proof.
  unfold run, streak. induction evs as [|ev evs IH] using rev_ind; [done|].
  rewrite !foldl_app. simpl. apply run_event_records; [|done]. by apply streak_pos.
Qed.

(** C31: The circuit breaker blacklists exactly the endpoints it should.  After
    any calls on any endpoints, with any clock readings, [allow] refuses an
    endpoint if and only if its failures since its last success have reached the
    threshold and the last of them is less than [open_duration] ago.  The
    half-open state makes no difference to the answer. *)
Theorem allow_exact evs now ep :
  (allow now (run ∅ evs) ep).1 = negb (shunned (streak (peer_key ep) evs) now).
Proof.
  pose proof (run_records evs (peer_key ep)) as Hr. unfold allow, shunned.
  destruct (run ∅ evs !! peer_key ep) as [e|], (streak (peer_key ep) evs) as [[n last]|]; simpl in *; try done.
  - destruct Hr as [_ Hr]. destruct (decide (n >= failure_threshold cfg)) as [Ht|Ht].
    + destruct Hr as [Hc Ho]. rewrite decide_False by done. rewrite (bool_decide_eq_true_2 (n >= _)) by done. simpl.
      rewrite Ho. case_decide; simpl; [rewrite bool_decide_eq_false_2 by lia|rewrite bool_decide_eq_true_2 by lia]; done.
    + rewrite decide_True by done. by rewrite bool_decide_eq_false_2.
  - rewrite decide_True by tauto. done.
Qed.
End Calls.
