(* ===== verification/ConnectionPool.v ===== *)
(** * Pooled connections ([src/src/sdk/connection_pool.{h,cpp}])

    Idle connections are kept per endpoint in a queue: [acquire] takes the
    oldest or opens one, [release] gives it back unless the queue is full,
    [discard] closes it.  The framing of requests and responses on a connection
    is here as well. *)

From stdpp Require Import relations.
From S2P Require Import Prelude Message Stream Topology.
From S2P Require ClientSockets.

Local Open Scope Z_scope.

(** ** The idle queues *)

Abbreviation PeerKey := (bytes * Z)%type.

Section Idle.
Context {C : Type}.
Implicit Types (p : gmap PeerKey (list C)) (k : PeerKey) (fd : C).

(** [find], [front] and [pop_front]. *)
Definition take_idle p k : option (C * gmap PeerKey (list C)) :=
  match p !! k with
  | Some (fd :: q) => Some (fd, <[k := q]> p)
  | _ => None
  end.

(** [pool_[key].push_back(fd)]. *)
Definition put_idle p k fd : gmap PeerKey (list C) := <[k := default [] (p !! k) ++ [fd]]> p.

(** The destructors: close every idle connection. *)
Definition close_idle {W} (close : W -> C -> W) (w : W) p : W :=
  foldl (fun w e => foldl close w e.2) w (map_to_list p).

Definition idle_total p : nat := map_fold (fun _ q n => (n + length q)%nat) 0%nat p.
End Idle.

(** ** The pool *)

Record ConnectionPool (C : Type) := mkPool {
  max_idle_ : nat;
  pool_ : gmap PeerKey (list C)
}.
#[global] Arguments mkPool {C} _ _.
#[global] Arguments max_idle_ {C} _.
#[global] Arguments pool_ {C} _.

Definition ConnectionPool_new {C} (max_idle_per_node : nat) : ConnectionPool C := mkPool max_idle_per_node ∅.

Definition pool_key (ep : NodeEndpoint) : PeerKey := (ep_host ep, ep_data_port ep).

Section Calls.
Context {C W : Type}.
(** [tcp_connect] in a world [W]; [None] for a negative descriptor. *)
Context (tcp_connect : W -> bytes -> Z -> option C * W).

Definition acquire (w : W) (p : ConnectionPool C) (ep : NodeEndpoint) : option C * ConnectionPool C * W :=
  match take_idle (pool_ p) (pool_key ep) with
  | Some (fd, pool) => (Some fd, mkPool (max_idle_ p) pool, w)
  | None => let '(r, w) := tcp_connect w (ep_host ep) (ep_data_port ep) in (r, p, w)
  end.

(** [close] of the system. *)
Context (close : W -> C -> W).

Definition release (w : W) (p : ConnectionPool C) (ep : NodeEndpoint) (fd : C) : ConnectionPool C * W :=
  let key := pool_key ep in
  let q := default [] (pool_ p !! key) in
  if decide (max_idle_ p <= length q)%nat
  then (mkPool (max_idle_ p) (<[key := q]> (pool_ p)), close w fd)
  else (mkPool (max_idle_ p) (put_idle (pool_ p) key fd), w).

Definition discard (w : W) (fd : C) : W := close w fd.

Definition ConnectionPool_destroy (w : W) (p : ConnectionPool C) : W := close_idle close w (pool_ p).

Definition idle_count (p : ConnectionPool C) : nat := idle_total (pool_ p).
End Calls.

(** ** Framing *)

Section Framing.
Context {C : Type} `{Stream C}.

Definition send_request (fd : C) (req : Request) : option C := write_all fd (serialize_request req).

Definition recv_response (fd : C) : option (Response * C) :=
  '(raw, fd) ← read_exact fd sizeof_header;
  let hdr := ResponseHeader_of_bytes raw in
  '(value, fd) ← (if decide (0 < rs_value_len hdr)
                   then read_exact fd (Z.to_nat (rs_value_len hdr))
                   else Some ([], fd));
  Some (mkResponse (rs_status hdr) value, fd).
End Framing.

(** ** On the system's calls

    The same operations on a descriptor of the system.  The file repeats the
    [tcp_connect], [send_all] and [recv_all] of [topology_manager.cpp]. *)

Section Sockets.
Context {W : Type} `{ClientSockets.System W}.

Definition pool_tcp_connect (w : W) (host : bytes) (port : Z) : Z * W := ClientSockets.tcp_connect w host port.

Definition pool_send_all (w : W) (fd : Z) (buf : bytes) : bool * W := ClientSockets.send_all w fd buf.

Definition pool_recv_all (w : W) (fd : Z) (len : nat) : option bytes * W := ClientSockets.recv_all w fd len.

Definition fd_send_request (w : W) (fd : Z) (req : Request) : bool * W :=
  let wire := serialize_request req in
  pool_send_all w fd wire.

Definition fd_recv_response (w : W) (fd : Z) : option Response * W :=
  let '(raw, w) := pool_recv_all w fd sizeof_header in
  match raw with
  | None => (None, w)
  | Some raw =>
      let hdr := ResponseHeader_of_bytes raw in
      let '(value, w) :=
        if decide (0 < rs_value_len hdr) then pool_recv_all w fd (Z.to_nat (rs_value_len hdr)) else (Some [], w) in
      match value with
      | None => (None, w)
      | Some value => (Some (mkResponse (rs_status hdr) value), w)
      end
  end.

#[local] Existing Instance ClientSockets.descriptor_stream.

(** They are the framing above on the stream a descriptor is. *)
Lemma fd_send_request_stream w fd req :
  match send_request (w, fd) req with
  | Some (w', fd') => fd_send_request w fd req = (true, w') /\ fd' = fd
  | None => (fd_send_request w fd req).1 = false
  end.
Proof. apply ClientSockets.send_loop_stream. Qed.

Lemma pool_recv_all_stream w fd len :
  match read_exact (w, fd) len with
  | Some (bs, (w', fd')) => pool_recv_all w fd len = (Some bs, w') /\ fd' = fd
  | None => (pool_recv_all w fd len).1 = None
  end.
Proof. apply ClientSockets.recv_loop_stream. Qed.

Lemma fd_recv_response_stream w fd :
  match recv_response (w, fd) with
  | Some (resp, (w', fd')) => fd_recv_response w fd = (Some resp, w') /\ fd' = fd
  | None => (fd_recv_response w fd).1 = None
  end.
Proof.
  unfold recv_response, fd_recv_response. pose proof (pool_recv_all_stream w fd sizeof_header) as Hr.
  destruct (read_exact _ _) as [[raw [w1 fd1]]|].
  2:{ destruct (pool_recv_all _ _ _) as [r w1]. cbn in Hr. by subst. }
  destruct Hr as [-> ->]. cbn [mbind option_bind]. cbv zeta. case_decide; [|done].
  pose proof (pool_recv_all_stream w1 fd (Z.to_nat (rs_value_len (ResponseHeader_of_bytes raw)))) as Hp.
  destruct (read_exact _ _) as [[value [w2 fd2]]|].
  - by destruct Hp as [-> ->].
  - destruct (pool_recv_all _ _ _) as [r w2]. cbn in Hp. by subst.
Qed.
End Sockets.

(** What a client does with a connection [C] in a world [W]. *)
Class Transport (W C : Type) := {
  tr_connect : W -> bytes -> Z -> option C * W;
  tr_close : W -> C -> W;
  tr_send : W -> C -> Request -> bool * W;
  tr_recv : W -> C -> option Response * W
}.

(** On the system: a connection is a descriptor, a negative one is none. *)
#[export] Instance fd_transport {W} `{ClientSockets.System W} : Transport W Z := {
  tr_connect := fun w host port =>
    let '(fd, w) := pool_tcp_connect w host port in (if decide (fd < 0) then None else Some fd, w);
  tr_close := ClientSockets.close;
  tr_send := fd_send_request;
  tr_recv := fd_recv_response
}.

(** ** The connections of a pool *)

Section PoolFds.
Context {C : Type}.
Implicit Types (p : gmap PeerKey (list C)) (fd : C).

Definition pool_fds p : list C := concat (map_to_list p).*2.

Lemma pool_fds_insert p k q : pool_fds (<[k := q]> p) ≡ₚ q ++ pool_fds (delete k p).
Proof.
  unfold pool_fds. rewrite <- insert_delete_eq. rewrite (map_to_list_insert (delete k p)) by apply lookup_delete_eq.
  done.
Qed.

Lemma pool_fds_delete p k : pool_fds p ≡ₚ default [] (p !! k) ++ pool_fds (delete k p).
Proof.
  destruct (p !! k) as [q|] eqn:E; [|by rewrite delete_id]. cbn [default from_option].
  by rewrite <- pool_fds_insert, insert_id.
Qed.

Lemma pool_fds_take p k fd p' : take_idle p k = Some (fd, p') -> pool_fds p ≡ₚ fd :: pool_fds p'.
Proof.
  unfold take_idle. destruct (p !! k) as [[|fd0 q]|] eqn:E; intros [= -> <-].
  by rewrite (pool_fds_delete p k), E, pool_fds_insert.
Qed.

Lemma pool_fds_put p k fd : pool_fds (put_idle p k fd) ≡ₚ fd :: pool_fds p.
Proof.
  unfold put_idle. rewrite pool_fds_insert, (pool_fds_delete p k).
  rewrite <- app_assoc. symmetry. apply (Permutation_middle _ _ fd).
Qed.

Lemma pool_fds_touch p k : pool_fds (<[k := default [] (p !! k)]> p) ≡ₚ pool_fds p.
Proof. by rewrite pool_fds_insert, <- pool_fds_delete. Qed.
End PoolFds.

(** ** Ownership of descriptors

    [held]: the descriptors callers are using, [opened]: the kernel's table,
    both with the peer of the connection. *)

Record owned (p : gmap PeerKey (list nat)) (held opened : gmap nat PeerKey) : Prop := {
  ow_open fd k : opened !! fd = Some k <-> held !! fd = Some k \/ exists q, p !! k = Some q /\ fd ∈ q;
  ow_excl fd k q : p !! k = Some q -> fd ∈ q -> held !! fd = None;
  ow_nodup k q : p !! k = Some q -> NoDup q
}.

Section Owned.
Context (p : gmap PeerKey (list nat)) (held opened : gmap nat PeerKey) (Hown : owned p held opened).

Lemma owned_take fd k p' :
  take_idle p k = Some (fd, p') -> owned p' (<[fd := k]> held) opened.
Proof.
  unfold take_idle. intros E. destruct (p !! k) as [[|fd0 q]|] eqn:Ek; simplify_eq.
  destruct Hown as [Ho He Hn]. pose proof (Hn _ _ Ek) as [Hnin Hnd]%NoDup_cons.
  assert (opened !! fd = Some k) as Hfd by (apply Ho; right; eexists; split; [done|by left]).
  assert (forall k' q', <[k := q]> p !! k' = Some q' -> fd ∉ q') as Hfresh.
  { intros k' q' [[<- <-]|[Hne Hk']]%lookup_insert_Some; [done|]. intros Hin.
    assert (opened !! fd = Some k') as E by (apply Ho; eauto). congruence. }
  assert (forall fd' k', fd' <> fd -> (exists q', <[k := q]> p !! k' = Some q' /\ fd' ∈ q') <->
    exists q', p !! k' = Some q' /\ fd' ∈ q') as Hsame.
  { intros fd' k' Hne. destruct (decide (k = k')) as [<-|Hk]; [|by rewrite lookup_insert_ne].
    rewrite lookup_insert_eq, Ek. split; intros (q' & [= <-] & Hin); eexists; (split; [done|]); [by right|].
    by apply elem_of_cons in Hin as [-> |]. }
  split.
  - intros fd' k'. destruct (decide (fd' = fd)) as [->|Hne].
    + rewrite lookup_insert_eq, Hfd. naive_solver.
    + rewrite lookup_insert_ne by done. by rewrite Ho, Hsame.
  - intros fd' k' q' Hk' Hin. destruct (decide (fd' = fd)) as [->|Hne]; [by destruct (Hfresh _ _ Hk')|].
    rewrite lookup_insert_ne by done. destruct (proj1 (Hsame fd' k' Hne)) as (q0 & H1 & H2); eauto.
  - intros k' q' [[_ <-]|[_ Hk']]%lookup_insert_Some; eauto.
Qed.

Lemma owned_connect fd k : opened !! fd = None -> owned p (<[fd := k]> held) (<[fd := k]> opened).
Proof.
  intros Hfd. destruct Hown as [Ho He Hn].
  assert (forall k' q, p !! k' = Some q -> fd ∉ q) as Hni.
  { intros k' q Hk' Hin. assert (opened !! fd = Some k') by (apply Ho; eauto). congruence. }
  split; [|intros fd' k' q Hk' Hin|done].
  - intros fd' k'. destruct (decide (fd' = fd)) as [->|Hne];
      [rewrite !lookup_insert_eq; naive_solver|by rewrite !lookup_insert_ne].
  - rewrite lookup_insert_ne; [eauto|]. intros ->. by eapply Hni.
Qed.

Lemma owned_put fd k :
  held !! fd = Some k -> owned (put_idle p k fd) (delete fd held) opened.
Proof.
  intros Hh. destruct Hown as [Ho He Hn]. unfold put_idle.
  assert (forall k' q, p !! k' = Some q -> fd ∉ q) as Hni by (intros k' q Hk' Hin; specialize (He _ _ _ Hk' Hin); congruence).
  assert (opened !! fd = Some k) as Hfd by (apply Ho; by left).
  assert (forall fd' k', (exists q', <[k := default [] (p !! k) ++ [fd]]> p !! k' = Some q' /\ fd' ∈ q') <->
    (fd' = fd /\ k' = k) \/ exists q', p !! k' = Some q' /\ fd' ∈ q') as Hin.
  { intros fd' k'. destruct (decide (k = k')) as [<-|Hk]; [rewrite lookup_insert_eq|rewrite lookup_insert_ne by done].
    - transitivity (fd' ∈ default [] (p !! k) ++ [fd]); [naive_solver|].
      rewrite elem_of_app, list_elem_of_singleton. destruct (p !! k); simpl; [naive_solver|].
      rewrite elem_of_nil. naive_solver.
    - naive_solver. }
  split.
  - intros fd' k'. rewrite Hin. destruct (decide (fd' = fd)) as [->|Hne];
      [rewrite lookup_delete_eq, Hfd|rewrite lookup_delete_ne, Ho by done]; naive_solver.
  - intros fd' k' q' Hk' Hfd'. destruct (proj1 (Hin fd' k')) as [[-> _]|(q0 & H1 & H2)]; [by eauto|..].
    + by rewrite lookup_delete_eq.
    + apply lookup_delete_None. right. by eauto.
  - intros k' q' [[<- <-]|[_ Hk']]%lookup_insert_Some; [|eauto].
    apply NoDup_app. split; [destruct (p !! k) eqn:E; simpl; [eauto|constructor]|].
    split; [|apply NoDup_singleton]. intros x Hx ->%list_elem_of_singleton.
    destruct (p !! k) eqn:E; simpl in Hx; [by eapply Hni|by apply elem_of_nil in Hx].
Qed.

Lemma owned_close fd k : held !! fd = Some k -> owned p (delete fd held) (delete fd opened).
Proof.
  intros Hh. destruct Hown as [Ho He Hn].
  assert (forall k' q, p !! k' = Some q -> fd ∉ q) as Hni by (intros k' q Hk' Hin; specialize (He _ _ _ Hk' Hin); congruence).
  split; [|intros fd' k' q Hk' Hin; apply lookup_delete_None; right; eauto|done].
  intros fd' k'. destruct (decide (fd' = fd)) as [->|Hne];
    [rewrite !lookup_delete_eq; naive_solver|by rewrite !lookup_delete_ne].
Qed.

(** [pool_[key]] without a push leaves an empty queue behind. *)
Lemma owned_touch k : owned (<[k := default [] (p !! k)]> p) held opened.
Proof.
  destruct (p !! k) as [q|] eqn:E; simpl; [by rewrite insert_id|].
  assert (forall k' q, <[k := []]> p !! k' = Some q -> p !! k' = Some q \/ q = []) as Hb.
  { intros k' q [[_ <-]|[_ ?]]%lookup_insert_Some; auto. }
  destruct Hown as [Ho He Hn]. split.
  - intros fd k'. rewrite Ho. split; (intros [?|(q & Hk' & Hin)]; [by left|]); right.
    + exists q. rewrite lookup_insert_ne; [done|]. intros ->. congruence.
    + destruct (Hb _ _ Hk') as [| ->]; [eauto|by apply elem_of_nil in Hin].
  - intros fd k' q [Hk'| ->]%Hb Hin; [eauto|by apply elem_of_nil in Hin].
  - intros k' q [Hk'| ->]%Hb; [eauto|constructor].
Qed.
End Owned.

(** ** Frames on a connection *)

Section Frames.
Context {C : Type} `{StreamLaws C}.

(** What [recv_response] returns is the response at the head of the stream,
    and it takes that frame and no more. *)
Lemma recv_response_sound c resp c' :
  recv_response c = Some (resp, c') ->
  exists frame, inbox c = frame ++ inbox c' /\ outbox c' = outbox c /\
    parse_response frame = Some resp /\ length frame = (sizeof_header + length (resp_value resp))%nat.
Proof.
  unfold recv_response. intros ([raw c1] & E1 & E)%bind_Some.
  destruct (read_exact_sound _ _ _ _ E1) as (Hl1 & Hi1 & Ho1).
  apply bind_Some in E as ([value c2] & E2 & [= <- <-]). rewrite Hi1.
  pose proof (le_decode_take_bound 4 (drop 4 raw)) as [Hv _].
  assert (inbox c1 = value ++ inbox c2 /\ outbox c2 = outbox c1 /\
          Z.of_nat (length value) = rs_value_len (ResponseHeader_of_bytes raw)) as (Hi2 & Ho2 & Hl2).
  { simpl in *. case_decide as Hd; [|by simplify_eq; split_and!; [..|simpl; lia]].
    apply read_exact_sound in E2 as (Hl2 & Hi2 & Ho2). rewrite Hl2. split_and!; [done..|lia]. }
  exists (raw ++ value). rewrite <- app_assoc, <- Hi2, Ho2, length_app, Hl1. split_and!; [done..| |done].
  unfold parse_response. rewrite length_app, Hl1, decide_False by lia.
  rewrite (ResponseHeader_of_bytes_app raw value Hl1), <- Hl2, decide_False by lia.
  rewrite drop_app_length', Nat2Z.id by done. by rewrite firstn_all.
Qed.

Lemma recv_response_serialized c resp rest :
  (forall c n, inbox c <> [] -> (0 < n)%nat -> is_Some (recv c n)) ->
  Response_wf resp -> inbox c = serialize_response resp ++ rest ->
  exists c', recv_response c = Some (resp, c') /\ inbox c' = rest /\ outbox c' = outbox c.
Proof.
  intros Hlive [Hst Hv] Hi. unfold serialize_response in Hi. rewrite <- app_assoc in Hi.
  destruct (read_exact_prefix c _ _ Hlive Hi) as (c1 & E1 & Hi1 & Ho1).
  rewrite length_ResponseHeader_bytes in E1. unfold recv_response. rewrite E1. cbn [mbind option_bind].
  rewrite <- (app_nil_r (ResponseHeader_bytes _)), ResponseHeader_roundtrip by by apply response_header_wf.
  cbn [rs_value_len rs_status response_header]. unfold u32. rewrite wrap_small by (split; lia).
  destruct (read_exact_prefix c1 _ _ Hlive Hi1) as (c2 & E2 & Hi2 & Ho2).
  case_decide as Hd.
  - rewrite Nat2Z.id, E2. exists c2. simpl. split_and!; [by destruct resp|done|congruence].
  - assert (resp_value resp = []) as En by (apply nil_length_inv; lia). exists c1. simpl.
    rewrite En in Hi1. split_and!; [by destruct resp; simpl in *; subst|done|done].
Qed.
End Frames.

(** ** Callers of the pool *)

(** The kernel forgets a closed descriptor. *)
Definition close_fd (w : gmap nat PeerKey) (fd : nat) : gmap nat PeerKey := delete fd w.

Lemma close_idle_lookup (l : list (PeerKey * list nat)) w fd :
  foldl (fun w e => foldl close_fd w e.2) w l !! fd =
    if decide (Exists (fun e => fd ∈ e.2) l) then None else w !! fd.
Proof.
  assert (forall q w', foldl close_fd w' q !! fd = if decide (fd ∈ q) then None else w' !! fd) as Hq.
  { intros q. induction q as [|x q IH]; intros w'; [done|]. cbn [foldl]. rewrite IH. unfold close_fd.
    destruct (decide (fd = x)) as [->|Hne]; [rewrite lookup_delete_eq|rewrite lookup_delete_ne by done];
      repeat case_decide; set_solver. }
  revert w. induction l as [|e l IH]; intros w; [done|]. cbn [foldl]. rewrite IH, Hq.
  destruct (decide (fd ∈ e.2)) as [He|He], (decide (Exists (fun e => fd ∈ e.2) l)) as [Hl|Hl];
    repeat case_decide as Hd; try done; rewrite Exists_cons in Hd; tauto.
Qed.

(** The destructor of the pool leaves open what callers hold. *)
Lemma close_idle_owned p held opened : owned p held opened -> close_idle close_fd opened p = held.
Proof.
  intros [Ho He Hn]. apply map_eq. intros fd. unfold close_idle. rewrite close_idle_lookup. case_decide as Hd.
  - apply Exists_exists in Hd as ([k q] & Hin%elem_of_map_to_list & Hfd). by rewrite (He _ _ _ Hin Hfd).
  - apply option_eq. intros k. rewrite Ho. split; [|by left]. intros [?|(q & Hk & Hfd)]; [done|].
    destruct Hd. apply Exists_exists. exists (k, q). by rewrite elem_of_map_to_list.
Qed.

Record user := mkUser {
  us_pool : ConnectionPool nat;
  us_held : gmap nat PeerKey;
  us_open : gmap nat PeerKey
}.

Section Users.
Context (tcp_connect : gmap nat PeerKey -> bytes -> Z -> option nat * gmap nat PeerKey).

(** A connection gets a descriptor that is not in use; a failed one gets none. *)
Definition connect_law : Prop :=
  forall w host port,
    match tcp_connect w host port with
    | (Some fd, w') => w !! fd = None /\ w' = <[fd := (host, port)]> w
    | (None, w') => w' = w
    end.

(** Callers acquire, and release or discard what they hold, for the endpoint
    they acquired it for. *)
Inductive user_step : user -> user -> Prop :=
  | us_acquire ep r p p' held w w' :
      acquire tcp_connect w p ep = (r, p', w') ->
      user_step (mkUser p held w)
        (mkUser p' (match r with Some fd => <[fd := pool_key ep]> held | None => held end) w')
  | us_release ep fd p p' held w w' :
      held !! fd = Some (pool_key ep) -> release close_fd w p ep fd = (p', w') ->
      user_step (mkUser p held w) (mkUser p' (delete fd held) w')
  | us_discard k fd p held w :
      held !! fd = Some k -> user_step (mkUser p held w) (mkUser p (delete fd held) (discard close_fd w fd)).

Definition user_inv (u : user) : Prop :=
  owned (pool_ (us_pool u)) (us_held u) (us_open u) /\
  forall k q, pool_ (us_pool u) !! k = Some q -> (length q <= max_idle_ (us_pool u))%nat.

Lemma acquire_inv (Hc : connect_law) ep r p p' held w w' :
  user_inv (mkUser p held w) -> acquire tcp_connect w p ep = (r, p', w') ->
  user_inv (mkUser p' (match r with Some fd => <[fd := pool_key ep]> held | None => held end) w') /\
  max_idle_ p' = max_idle_ p /\
  match r with Some fd => held !! fd = None /\ w' !! fd = Some (pool_key ep) | None => True end.
Proof.
  unfold acquire, user_inv. simpl. intros [Ho Hcap] E.
  destruct (take_idle (pool_ p) (pool_key ep)) as [[fd pool]|] eqn:Et; simplify_eq.
  - simpl. split; [split; [by eapply owned_take|]|].
    + unfold take_idle in Et. destruct (pool_ p !! pool_key ep) as [[|fd0 q]|] eqn:Ek; simplify_eq.
      intros k q' [[<- <-]|[_ Hk]]%lookup_insert_Some; [|eauto]. specialize (Hcap _ _ Ek). simpl in Hcap. lia.
    + split; [done|]. unfold take_idle in Et.
      destruct (pool_ p !! pool_key ep) as [[|fd0 q]|] eqn:Ek; simplify_eq.
      assert (fd ∈ fd :: q) as Hin by by left. split; [by eapply ow_excl|].
      apply (ow_open _ _ _ Ho). right. eauto.
  - specialize (Hc w (ep_host ep) (ep_data_port ep)).
    destruct (tcp_connect w (ep_host ep) (ep_data_port ep)) as [[fd|] w1]; simplify_eq; [|done].
    destruct Hc as [Hfd ->]. split; [split; [by apply owned_connect|done]|]. split; [done|].
    rewrite lookup_insert_eq. split; [|done]. apply eq_None_not_Some. intros [k Hk].
    assert (w !! fd = Some k) by (apply (ow_open _ _ _ Ho); by left). congruence.
Qed.

Lemma release_inv ep fd p p' held w w' :
  user_inv (mkUser p held w) -> held !! fd = Some (pool_key ep) -> release close_fd w p ep fd = (p', w') ->
  user_inv (mkUser p' (delete fd held) w').
Proof.
  unfold release, user_inv. simpl. intros [Ho Hcap] Hh E. case_decide as Hlen; simplify_eq; simpl.
  - split; [by eapply owned_close; [apply owned_touch|]|].
    intros k q [[<- <-]|[_ Hk]]%lookup_insert_Some; [|eauto].
    destruct (pool_ p !! pool_key ep) eqn:Ek; simpl; [eauto|lia].
  - split; [by apply owned_put|]. unfold put_idle. intros k q [[<- <-]|[_ Hk]]%lookup_insert_Some; [|eauto].
    rewrite length_app. simpl. lia.
Qed.

Lemma user_step_inv (Hc : connect_law) u u' : user_step u u' -> user_inv u -> user_inv u'.
Proof.
  destruct 1 as [ep r p p' held w w' E|ep fd p p' held w w' Hh E|k fd p held w Hh]; intros Hinv.
  - by eapply acquire_inv in Hinv as [? _].
  - by eapply release_inv.
  - destruct Hinv as [Ho Hcap]. split; [by eapply owned_close|done].
Qed.

(** C32: Pooled connections have one owner.  Whatever sequence of acquisitions,
    releases and discards callers make: a connection handed out by [acquire] is
    open, goes to the endpoint that was asked for and is in nobody else's hands;
    every open descriptor is either held by a caller or idle in the queue of its
    own peer, never both and never twice, so none leaks and none is reused after
    being closed; no queue is longer than [max_idle]; and destroying the pool
    closes exactly the connections nobody holds. *)
Theorem connection_pool_ownership max_idle u :
  connect_law -> rtc user_step (mkUser (ConnectionPool_new max_idle) ∅ ∅) u ->
  (forall ep fd p' w', acquire tcp_connect (us_open u) (us_pool u) ep = (Some fd, p', w') ->
     us_held u !! fd = None /\ w' !! fd = Some (pool_key ep)) /\
  (forall fd k, us_open u !! fd = Some k <->
     us_held u !! fd = Some k \/ exists q, pool_ (us_pool u) !! k = Some q /\ fd ∈ q) /\
  (forall k q, pool_ (us_pool u) !! k = Some q ->
     NoDup q /\ (length q <= max_idle_ (us_pool u))%nat /\ forall fd, fd ∈ q -> us_held u !! fd = None) /\
  ConnectionPool_destroy close_fd (us_open u) (us_pool u) = us_held u.
Proof.
  intros Hc Hr. assert (user_inv u) as Hinv.
  { assert (user_inv (mkUser (ConnectionPool_new max_idle) ∅ ∅)) as H0.
    { split; [split|]; simpl; intros; [|by simplify_map_eq..]. split; [by intros; simplify_map_eq|].
      intros [?|(q & ? & _)]; by simplify_map_eq. }
    induction Hr; [done|]. eauto using user_step_inv. }
  destruct u as [p held w]. split_and!; [..|apply close_idle_owned, Hinv].
  - intros ep fd p' w' E. by apply (acquire_inv Hc _ _ _ _ _ _ _ Hinv) in E as (_ & _ & ?).
  - apply Hinv.
  - intros k q Hk. destruct Hinv as [Ho Hcap]. split; [by eapply ow_nodup|]. split; [by eapply Hcap|].
    intros fd Hfd. by eapply ow_excl.
Qed.
End Users.

(** A kernel that hands out fresh descriptors. *)
Definition demo_connect (w : gmap nat PeerKey) (host : bytes) (port : Z) : option nat * gmap nat PeerKey :=
  let fd := fresh (dom w) in (Some fd, <[fd := (host, port)]> w).

Lemma demo_connect_law : connect_law demo_connect.
Proof.
  intros w host port. simpl. split; [|done]. apply not_elem_of_dom. apply is_fresh.
Qed.

Definition demo_ep : NodeEndpoint := mkEndpoint (lit "10.0.0.1") 7946 11211.

(** Acquire and release: the connection is idle again, and open. *)
Lemma connection_pool_ownership_witness :
  exists u, rtc (user_step demo_connect) (mkUser (ConnectionPool_new 4) ∅ ∅) u /\
    pool_ (us_pool u) !! pool_key demo_ep = Some [0%nat] /\ us_open u !! 0%nat = Some (pool_key demo_ep).
Proof.
  eexists. split; [|split].
  - eapply rtc_l; [apply (us_acquire _ demo_ep); reflexivity|].
    eapply rtc_l; [apply (us_release _ demo_ep 0%nat); [reflexivity|reflexivity]|]. apply rtc_refl.
  - reflexivity.
  - match goal with |- us_open ?u !! _ = _ =>
      destruct (connection_pool_ownership demo_connect 4 u demo_connect_law) as (_ & H & _)
    end.
    + eapply rtc_l; [apply (us_acquire _ demo_ep); reflexivity|].
      eapply rtc_l; [apply (us_release _ demo_ep 0%nat); [reflexivity|reflexivity]|]. apply rtc_refl.
    + apply H. right. exists [0%nat]. split; [reflexivity|by left].
Defined.
