(* ===== verification/BufferPool.v ===== *)
(** * Registered I/O buffers ([src/src/io/buffer_pool.{h,cpp}])

    One page-aligned region cut into buffers of one size; the free ones are a
    stack of indices. *)

From stdpp Require Import relations.
From S2P Require Import Prelude.

Local Open Scope Z_scope.

Record BufferHandle := mkHandle {
  bh_index : Z;     (* uint16_t *)
  bh_data : Z;      (* address *)
  bh_size : Z
}.

Record iovec := mkIovec { iov_base : Z; iov_len : Z }.

Record BufferPool := mkBufferPool {
  buffer_size_ : Z;
  buffer_count_ : Z;
  region_ : Z;
  region_size_ : Z;
  iovecs_ : list iovec;
  free_list_ : list Z     (* the back of the vector is the head *)
}.

(** The size of the region, rounded up to whole pages in [size_t]
    arithmetic. *)
Definition round_region (buffer_size buffer_count : Z) : Z :=
  let region_size := u64 (buffer_size * buffer_count) in
  Z.land (u64 (region_size + 4096 - 1)) (u64 (Z.lnot 4095)).

(** The constructor; [aligned_alloc] and the registration with the kernel are
    the system's, [None] for the two exceptions. *)
Definition BufferPool_new (aligned_alloc : Z -> option Z) (register_buffers : list iovec -> Z)
    (buffer_size buffer_count : Z) : option BufferPool :=
  let region_size := round_region buffer_size buffer_count in
  region ← aligned_alloc region_size;
  let iovecs := (fun i => mkIovec (region + i * buffer_size) buffer_size) <$> seqZ 0 buffer_count in
  if decide (register_buffers iovecs < 0) then None else
  Some (mkBufferPool buffer_size buffer_count region region_size iovecs (u16 <$> seqZ 0 buffer_count)).

(** [iovecs_[idx]] is only evaluated in range (below). *)
Definition acquire (b : BufferPool) : option (BufferHandle * BufferPool) :=
  match free_list_ b with
  | [] => None
  | idx :: free =>
      let v := nth (Z.to_nat idx) (iovecs_ b) (mkIovec 0 0) in
      Some (mkHandle idx (iov_base v) (buffer_size_ b),
            mkBufferPool (buffer_size_ b) (buffer_count_ b) (region_ b) (region_size_ b) (iovecs_ b) free)
  end.

Definition release (b : BufferPool) (index : Z) : BufferPool :=
  mkBufferPool (buffer_size_ b) (buffer_count_ b) (region_ b) (region_size_ b) (iovecs_ b) (index :: free_list_ b).

Definition available (b : BufferPool) : nat := length (free_list_ b).

(** ** Holders *)

Record users := mkUsers { bp : BufferPool; handed : list BufferHandle }.

(** Holders acquire buffers and release each handle they hold once. *)
Inductive users_step : users -> users -> Prop :=
  | bs_acquire b b' h held :
      acquire b = Some (h, b') -> users_step (mkUsers b held) (mkUsers b' (h :: held))
  | bs_release b h held1 held2 :
      users_step (mkUsers b (held1 ++ h :: held2)) (mkUsers (release b (bh_index h)) (held1 ++ held2)).

Definition slot (b : BufferPool) (i : Z) : BufferHandle :=
  mkHandle i (region_ b + i * buffer_size_ b) (buffer_size_ b).

Record users_inv (u : users) : Prop := {
  ui_iovecs : iovecs_ (bp u) = (fun i => mkIovec (region_ (bp u) + i * buffer_size_ (bp u)) (buffer_size_ (bp u)))
                                 <$> seqZ 0 (buffer_count_ (bp u));
  ui_handed h : h ∈ handed u -> h = slot (bp u) (bh_index h);
  ui_indices : (bh_index <$> handed u) ++ free_list_ (bp u) ≡ₚ seqZ 0 (buffer_count_ (bp u));
  ui_region : buffer_size_ (bp u) * buffer_count_ (bp u) <= region_size_ (bp u);
  ui_size : 0 <= buffer_size_ (bp u);
  ui_count : 0 <= buffer_count_ (bp u)
}.

Lemma round_region_ge size count :
  0 <= size * count -> size * count + 4095 < 2 ^ 64 -> size * count <= round_region size count.
Proof.
  intros H0 H1. unfold round_region. unfold u64 at 2. rewrite (wrap_small 64 (size * count)) by (split; lia).
  rewrite (wrap_small 64) by (split; lia). unfold u64, wrap.
  rewrite <- (Z.land_ones (Z.lnot 4095)) by lia.
  rewrite (Z.land_comm (Z.lnot 4095)), Z.land_assoc, Z.land_ones by lia.
  rewrite (Z.mod_small (size * count + 4096 - 1)) by lia.
  change 4095 with (Z.ones 12). rewrite <- Z.ldiff_land, Z.ldiff_ones_r by lia.
  rewrite Z.shiftl_mul_pow2, Z.shiftr_div_pow2 by lia.
  pose proof (Z.div_mod (size * count + 4096 - 1) (2 ^ 12)). pose proof (Z.mod_pos_bound (size * count + 4096 - 1) (2 ^ 12)).
  change (2 ^ 12) with 4096 in *. lia.
Qed.

Lemma users_inv_new alloc register size count b :
  0 <= size -> 0 <= count <= 65536 -> size * count + 4095 < 2 ^ 64 ->
  BufferPool_new alloc register size count = Some b -> users_inv (mkUsers b []).
Proof.
  intros Hs Hc Hb. unfold BufferPool_new. cbv zeta. intros (region & _ & E)%bind_Some.
  case_decide; simplify_eq. split; simpl; [done|by intros h ?%elem_of_nil| |apply round_region_ge; lia|done|lia].
  assert (u16 <$> seqZ 0 count = seqZ 0 count) as ->; [|done].
  rewrite <- (list_fmap_id (seqZ 0 count)) at 2. apply list_fmap_ext. intros i x Hx.
  apply list_elem_of_lookup_2, elem_of_seqZ in Hx. apply wrap_small. split; simpl; lia.
Qed.

Lemma users_indices_range u i :
  users_inv u -> i ∈ (bh_index <$> handed u) ++ free_list_ (bp u) -> 0 <= i < buffer_count_ (bp u).
Proof. intros Hinv Hi. rewrite (ui_indices _ Hinv) in Hi. apply elem_of_seqZ in Hi. lia. Qed.

Lemma acquire_slot b held h b' :
  users_inv (mkUsers b held) -> acquire b = Some (h, b') ->
  users_inv (mkUsers b' (h :: held)) /\ h = slot b (bh_index h).
Proof.
  intros Hinv. unfold acquire. destruct (free_list_ b) as [|idx free] eqn:Ef; [done|]. cbv zeta.
  intros E. apply (inj Some), pair_equal_spec in E as [<- <-].
  assert (0 <= idx < buffer_count_ b) as Hidx.
  { apply (users_indices_range _ _ Hinv). simpl. rewrite Ef. set_solver. }
  assert (mkHandle idx (iov_base (nth (Z.to_nat idx) (iovecs_ b) (mkIovec 0 0))) (buffer_size_ b) = slot b idx) as Es.
  { unfold slot. f_equal. pose proof (ui_iovecs _ Hinv) as Hv. simpl in Hv. rewrite Hv.
    rewrite (nth_lookup_Some _ _ _ (mkIovec (region_ b + idx * buffer_size_ b) (buffer_size_ b))); [done|].
    rewrite list_lookup_fmap, lookup_seqZ_lt by lia. simpl. by rewrite Z2Nat.id by lia. }
  rewrite Es. split; [|done]. destruct Hinv as [Hv Hh Hi Hr Hs Hn]. split; simpl in *; try done.
  - intros h [->|Hin]%elem_of_cons; [done|]. by apply Hh.
  - rewrite Ef in Hi. rewrite <- Hi. by rewrite Permutation_middle.
Qed.

Lemma users_step_inv u u' : users_step u u' -> users_inv u -> users_inv u'.
Proof.
  destruct 1 as [b b' h held E|b h held1 held2]; intros Hinv; [by eapply acquire_slot|].
  destruct Hinv as [Hv Hh Hi Hr Hs Hn]. split; simpl in *; try done.
  - intros h' Hin. apply Hh. rewrite elem_of_app in *. destruct Hin; [by left|right; by right].
  - rewrite <- Hi, !fmap_app, fmap_cons, <- !app_assoc. simpl. by rewrite <- Permutation_middle.
Qed.

(** Two handles overlap in memory. *)
Definition overlap (h h' : BufferHandle) : Prop :=
  exists a, bh_data h <= a < bh_data h + bh_size h /\ bh_data h' <= a < bh_data h' + bh_size h'.

Lemma slot_overlap b i j : overlap (slot b i) (slot b j) -> i = j.
Proof.
  intros (a & H1 & H2). unfold slot in *. simpl in *.
  destruct (Z.lt_trichotomy i j) as [H|[H|H]]; [|done|]; exfalso; nia.
Qed.

(** C33: Buffers are exclusive.  For any pool of at most 65536 buffers whose
    region does not overflow, and any sequence of acquisitions and releases: a
    buffer handed out lies inside the allocated region and overlaps no other
    buffer that is still held; an acquisition fails exactly when all buffers
    are held. *)
Theorem buffer_pool_exclusive alloc register size count b u :
  0 < size -> 0 <= count <= 65536 -> size * count + 4095 < 2 ^ 64 ->
  BufferPool_new alloc register size count = Some b ->
  rtc users_step (mkUsers b []) u ->
  (forall h b', acquire (bp u) = Some (h, b') ->
     region_ (bp u) <= bh_data h /\ bh_data h + bh_size h <= region_ (bp u) + region_size_ (bp u) /\
     forall h', h' ∈ handed u -> ~ overlap h h') /\
  (acquire (bp u) = None <-> Z.of_nat (length (handed u)) = buffer_count_ (bp u)).
Proof.
  intros Hs Hc Hb E Hr. pose proof (users_inv_new _ _ _ _ _ (Z.lt_le_incl _ _ Hs) Hc Hb E) as H0.
  assert (users_inv u) as Hinv by (clear -Hr H0; induction Hr; eauto using users_step_inv).
  destruct u as [p held]. simpl in *. split.
  - intros h b' Ea. destruct (acquire_slot _ _ _ _ Hinv Ea) as [Hinv' Eh].
    pose proof (users_indices_range _ (bh_index h) Hinv') as Hrange. simpl in Hrange.
    assert (buffer_count_ b' = buffer_count_ p) as Eb.
    { unfold acquire in Ea. destruct (free_list_ p); [done|]. by simplify_eq. }
    rewrite Eb in Hrange. specialize (Hrange ltac:(by left)).
    destruct Hinv as [_ Hh _ Hreg Hsz _]. simpl in *.
    split; [rewrite Eh; simpl; nia|]. split; [rewrite Eh; simpl; nia|].
    intros h' Hin Hov. rewrite Eh, (Hh _ Hin) in Hov. apply slot_overlap in Hov.
    pose proof (NoDup_seqZ 0 (buffer_count_ b')) as Hnd. rewrite <- (ui_indices _ Hinv') in Hnd. simpl in Hnd.
    apply NoDup_cons in Hnd as [Hnin _]. apply Hnin, elem_of_app. left. apply list_elem_of_fmap. eauto.
  - pose proof (ui_indices _ Hinv) as Hp%Permutation_length. simpl in Hp.
    rewrite length_app, length_fmap, length_seqZ in Hp. unfold acquire.
    pose proof (ui_count _ Hinv) as Hcnt. simpl in Hcnt.
    destruct (free_list_ p); simpl in *; split; intros; try done; lia.
Qed.

(** The pool of [main]: 64 buffers of 64 KiB. *)
Definition demo_pool : option BufferPool :=
  BufferPool_new (fun _ => Some 4096) (fun _ => 0) 65536 64.

Lemma buffer_pool_exclusive_witness :
  exists b h b', demo_pool = Some b /\ acquire b = Some (h, b') /\ bh_data h + bh_size h <= region_ b + region_size_ b.
Proof.
  destruct demo_pool as [b|] eqn:E; [|vm_compute in E; discriminate].
  destruct (acquire b) as [[h b']|] eqn:Ea;
    [|vm_compute in E; injection E as <-; vm_compute in Ea; discriminate].
  exists b, h, b'. split; [reflexivity|]. split; [exact Ea|].
  destruct (buffer_pool_exclusive (fun _ => Some 4096) (fun _ => 0) 65536 64 b (mkUsers b [])) as [H _];
    [lia|lia|lia|exact E|apply rtc_refl|].
  destruct (H h b' Ea) as (_ & Hin & _). exact Hin.
Defined.

(** The bound on the count is needed: the index is narrowed to 16 bits, and of
    65537 buffers two are number 0. *)
Example buffer_index_wraps : (u16 <$> seqZ 65535 2) = [65535; 0].
Proof. reflexivity. Qed.

(** ** The region's life *)

Section Lifetime.
(** The heap and the kernel's registration in a world. *)
Context {W : Type} (aligned_alloc : W -> Z -> option Z * W) (free : W -> Z -> W).
Context (register_buffers : W -> list iovec -> Z * W) (unregister_buffers : W -> W).

(** The constructor with its effects: when the registration fails the region is
    given back. *)
Definition construct (w : W) (buffer_size buffer_count : Z) : option BufferPool * W :=
  let region_size := round_region buffer_size buffer_count in
  let '(r, w) := aligned_alloc w region_size in
  match r with
  | None => (None, w)
  | Some region =>
      let iovecs := (fun i => mkIovec (region + i * buffer_size) buffer_size) <$> seqZ 0 buffer_count in
      let '(ret, w) := register_buffers w iovecs in
      if decide (ret < 0) then (None, free w region)
      else (Some (mkBufferPool buffer_size buffer_count region region_size iovecs (u16 <$> seqZ 0 buffer_count)), w)
  end.

Lemma construct_new w size count :
  (construct w size count).1 =
    BufferPool_new (fun n => (aligned_alloc w n).1)
      (fun v => (register_buffers (aligned_alloc w (round_region size count)).2 v).1) size count.
Proof.
  unfold construct, BufferPool_new. cbv zeta. destruct (aligned_alloc w _) as [[a|] w1]; cbn; [|done].
  destruct (register_buffers w1 _) as [ret w2]. cbn. by case_decide.
Qed.

(** The destructor; [region_] is only null in an object whose constructor threw. *)
Definition BufferPool_destroy (w : W) (b : BufferPool) : W := free (unregister_buffers w) (region_ b).

(** Documented behaviour: the living regions, and whether buffers are registered. *)
Context (regions : W -> gset Z) (registered : W -> bool).
Context (alloc_law : forall w n, let '(r, w') := aligned_alloc w n in
  registered w' = registered w /\
  match r with Some a => a ∉ regions w /\ regions w' = {[a]} ∪ regions w | None => regions w' = regions w end).
Context (free_law : forall w a, regions (free w a) = regions w ∖ {[a]} /\ registered (free w a) = registered w).
Context (register_law : forall w v, let '(ret, w') := register_buffers w v in
  regions w' = regions w /\ registered w' = if decide (ret < 0) then registered w else true).
Context (unregister_law : forall w, regions (unregister_buffers w) = regions w /\ registered (unregister_buffers w) = false).

(** A constructor that throws leaves nothing behind, and the destructor gives back
    what the constructor took. *)
Lemma buffer_pool_lifetime w size count :
  let '(r, w') := construct w size count in
  match r with
  | None => regions w' = regions w /\ registered w' = registered w
  | Some b => regions w' = {[region_ b]} ∪ regions w /\ registered w' = true /\
      forall w1, regions w1 = regions w' ->
        regions (BufferPool_destroy w1 b) = regions w /\ registered (BufferPool_destroy w1 b) = false
  end.
Proof.
  unfold construct. cbv zeta. pose proof (alloc_law w (round_region size count)) as Ha.
  destruct (aligned_alloc w _) as [[a|] w1]; destruct Ha as [Hr1 Ha]; [|done]. destruct Ha as [Hn Ha].
  set (iovecs := _ <$> _). pose proof (register_law w1 iovecs) as Hg. destruct (register_buffers w1 iovecs) as [ret w2].
  destruct Hg as [Hg1 Hg2]. destruct (decide (ret < 0)).
  - destruct (free_law w2 a) as [Hf1 Hf2]. split; [rewrite Hf1, Hg1, Ha; set_solver|congruence].
  - cbn [region_]. split_and!; [congruence|done|]. intros w3 H3. unfold BufferPool_destroy. cbn [region_].
    destruct (unregister_law w3) as [Hu1 Hu2]. destruct (free_law (unregister_buffers w3) a) as [Hf1 Hf2].
    split; [rewrite Hf1, Hu1, H3, Hg1, Ha; set_solver|congruence].
Qed.
End Lifetime.
