(* ===== verification/PeerClient.v ===== *)
(** * Connections to other nodes ([src/src/coordinator/peer_client.{h,cpp}])

    The server's counterpart of the client's connection pool: the queues are
    unbounded, and a response may be received through a registered buffer. *)

From S2P Require Import Prelude Message Stream ConnectionPool.
From S2P Require BufferPool.

Local Open Scope Z_scope.

Abbreviation PeerPool C := (gmap PeerKey (list C)).

Section Connections.
Context {C W Addr : Type}.
(** The system calls; [None] for a negative descriptor. *)
Context (socket : W -> option C * W) (inet_pton : bytes -> option Addr).
Context (async_connect : W -> C -> Addr -> Z -> Z * W) (close : W -> C -> W).

Definition open_connection (w : W) (host : bytes) (port : Z) : option C * W :=
  let '(r, w) := socket w in
  match r with
  | None => (None, w)
  | Some fd =>
      match inet_pton host with
      | None => (None, close w fd)
      | Some addr =>
          let '(res, w) := async_connect w fd addr port in
          if decide (res < 0) then (None, close w fd) else (Some fd, w)
      end
  end.

Definition acquire (w : W) (conn_pool : PeerPool C) (host : bytes) (port : Z) : option C * PeerPool C * W :=
  match take_idle conn_pool (host, port) with
  | Some (fd, conn_pool) => (Some fd, conn_pool, w)
  | None => let '(r, w) := open_connection w host port in (r, conn_pool, w)
  end.

Definition release (conn_pool : PeerPool C) (host : bytes) (port : Z) (fd : C) : PeerPool C :=
  put_idle conn_pool (host, port) fd.

Definition PeerClient_destroy (w : W) (conn_pool : PeerPool C) : W := close_idle close w conn_pool.

Definition pool_size (conn_pool : PeerPool C) : nat := idle_total conn_pool.
End Connections.

Section Requests.
Context {C : Type} `{Stream C}.

(** The value of a response, through a registered buffer when one is free and
    large enough; [None] when the connection fails. *)
Definition recv_value (fd : C) (buf_pool : option BufferPool.BufferPool) (value_len : Z)
    : option (bytes * C) * option BufferPool.BufferPool :=
  if decide (0 < value_len) then
    match buf_pool with
    | Some pool =>
        match BufferPool.acquire pool with
        | Some (handle, pool) =>
            if decide (value_len <= BufferPool.bh_size handle) then
              (read_exact fd (Z.to_nat value_len), Some (BufferPool.release pool (BufferPool.bh_index handle)))
            else
              let pool := BufferPool.release pool (BufferPool.bh_index handle) in
              (read_exact fd (Z.to_nat value_len), Some pool)
        | None => (read_exact fd (Z.to_nat value_len), Some pool)
        end
    | None => (read_exact fd (Z.to_nat value_len), None)
    end
  else (Some ([], fd), buf_pool).

(** The response and the connection after it, [None] once it has failed. *)
Definition send_request (fd : C) (buf_pool : option BufferPool.BufferPool) (req : Request)
    : Response * option C * option BufferPool.BufferPool :=
  match write_all fd (serialize_request req) with
  | None => (mkResponse Error [], None, buf_pool)
  | Some fd =>
      match read_exact fd sizeof_header with
      | None => (mkResponse Error [], None, buf_pool)
      | Some (raw, fd) =>
          let hdr := ResponseHeader_of_bytes raw in
          match recv_value fd buf_pool (rs_value_len hdr) with
          | (None, buf_pool) => (mkResponse Error [], None, buf_pool)
          | (Some (value, fd), buf_pool) => (mkResponse (rs_status hdr) value, Some fd, buf_pool)
          end
      end
  end.
End Requests.

(** ** The buffer pool does not show *)

Lemma BufferPool_release_acquire pool h pool' :
  BufferPool.acquire pool = Some (h, pool') -> BufferPool.release pool' (BufferPool.bh_index h) = pool.
Proof.
  unfold BufferPool.acquire. destruct pool as [size count region rsize iovecs free]. simpl.
  destruct free as [|i free]; [done|]. intros [= <- <-]. done.
Qed.

Section Facts.
Context {C : Type} `{StreamLaws C}.

Lemma recv_value_pool (fd : C) buf_pool value_len :
  recv_value fd buf_pool value_len =
    (if decide (0 < value_len) then read_exact fd (Z.to_nat value_len) else Some ([], fd), buf_pool).
Proof.
  unfold recv_value. case_decide; [|done]. destruct buf_pool as [pool|]; [|done].
  destruct (BufferPool.acquire pool) as [[h pool']|] eqn:E; [|done].
  rewrite (BufferPool_release_acquire _ _ _ E). by case_decide.
Qed.

(** Sending over a server connection is the client's send and receive. *)
Lemma send_request_frames (fd : C) buf_pool req :
  send_request fd buf_pool req =
    match (fd ← ConnectionPool.send_request fd req; recv_response fd) with
    | Some (resp, fd) => (resp, Some fd, buf_pool)
    | None => (mkResponse Error [], None, buf_pool)
    end.
Proof.
  unfold send_request, ConnectionPool.send_request, recv_response.
  destruct (write_all fd (serialize_request req)) as [fd1|]; simpl; [|done].
  destruct (read_exact fd1 sizeof_header) as [[raw fd2]|]; simpl; [|done].
  rewrite recv_value_pool. case_decide; [|done].
  by destruct (read_exact fd2 _) as [[value fd3]|].
Qed.

(** A connection that comes back has sent the request and consumed exactly one
    response frame. *)
Lemma send_request_sound (fd : C) buf_pool req resp fd' bp' :
  send_request fd buf_pool req = (resp, Some fd', bp') ->
  outbox fd' = outbox fd ++ serialize_request req /\ bp' = buf_pool /\
  exists frame, inbox fd = frame ++ inbox fd' /\ parse_response frame = Some resp /\
    length frame = (sizeof_header + length (resp_value resp))%nat.
Proof.
  rewrite send_request_frames. destruct (_ ← _; _) as [[r c]|] eqn:E; [|done].
  intros [= <- <- <-]. apply bind_Some in E as (c1 & E1 & E2).
  destruct (write_all_sound _ _ _ E1) as [Ho Hi].
  destruct (recv_response_sound _ _ _ E2) as (frame & Hf & Ho' & Hp & Hl).
  rewrite Ho', Ho. split; [done|]. split; [done|]. exists frame. by rewrite <- Hi.
Qed.
End Facts.
