(* ===== verification/Coordinator.v ===== *)
(** * Request routing ([src/src/coordinator/coordinator.{h,cpp}])

    A coordinator serves client connections: it reads a request, answers it
    from the local store when the key is its own, asks the owner otherwise, and
    collapses concurrent reads of one remote key.  The store is the [KVStore]
    interface, a connection is a [Stream]. *)

From stdpp Require Import relations.
From S2P Require Import Prelude Message NodeInfo KVStore Stream Topology ConnectionPool PeerClient WaitGroup.
From S2P Require RingStore MemberList BufferPool.

Local Open Scope Z_scope.

(** ** Reading a request and writing a response *)

Section Frames.
Context {C : Type} `{Stream C}.

(** The head of the loop of [handle_connection]. *)
Definition read_request (fd : C) : option (Request * C) :=
  '(raw, fd) ← read_exact fd sizeof_header;
  let hdr := RequestHeader_of_bytes raw in
  let payload_len := u64 (rq_key_len hdr + rq_value_len hdr) in
  '(payload, fd) ← (if decide (0 < payload_len)
                     then read_exact fd (Z.to_nat payload_len)
                     else Some ([], fd));
  let key := take (Z.to_nat (rq_key_len hdr)) payload in
  let value := if decide (0 < rq_value_len hdr)
               then take (Z.to_nat (rq_value_len hdr)) (drop (Z.to_nat (rq_key_len hdr)) payload)
               else [] in
  Some (mkRequest (rq_opcode hdr) key value, fd).

Definition write_response (fd : C) (resp : Response) : option C :=
  let hdr := mkResponseHeader (resp_status resp) x00 0 (u32 (Z.of_nat (length (resp_value resp)))) in
  if decide (resp_value resp = []) then write_all fd (ResponseHeader_bytes hdr)
  else write_all fd (ResponseHeader_bytes hdr ++ resp_value resp).
End Frames.

(** ** Serving *)

Definition serve_local `{KVStore St} (s : St) (req : Request) : Response * St :=
  match req_opcode req with
  | Get =>
      let '(val, s) := kv_get s (req_key req) in
      match val with
      | Some v => (mkResponse Ok v, s)
      | None => (mkResponse NotFound [], s)
      end
  | Put =>
      let '(ok, s) := kv_put s (req_key req) (req_value req) in
      (mkResponse (if ok : bool then Ok else Error) [], s)
  | Del =>
      let '(ok, s) := kv_del s (req_key req) in
      (mkResponse (if ok : bool then Ok else NotFound) [], s)
  | _ => (mkResponse Error [], s)
  end.

(** The members in the iteration order of the table. *)
Definition alive_members (m : MemberList.members) : list (NodeId * NodeInfo) :=
  filter (fun p => state p.2 = NodeState_Alive) (map_to_list m).

Definition member_bytes (p : NodeId * NodeInfo) : bytes :=
  let '(id, info) := p in
  let host_len := u16 (Z.of_nat (length (host id))) in
  le_encode 2 host_len ++ take (Z.to_nat host_len) (host id) ++
  le_encode 2 (gossip_port id) ++ le_encode 2 (data_port info).

Definition serve_cluster_info (m : MemberList.members) : Response :=
  let count := u16 (Z.of_nat (length (alive_members m))) in
  mkResponse Ok (le_encode 2 count ++ concat (member_bytes <$> alive_members m)).

(** Where a request goes. *)
Inductive route := ToClusterInfo | ToLocal | ToPeer (owner : NodeId).

Definition route_request (ring : RingStore.Ring) (self : NodeId) (req : Request) : route :=
  if decide (req_opcode req = ClusterInfo) then ToClusterInfo else
  match RingStore.get_node_for_key ring (hash_key (req_key req)) with
  | None => ToLocal
  | Some owner => if decide (owner = self) then ToLocal else ToPeer owner
  end.

(** [resp.status == Status::Ok ? std::optional(resp.value) : std::nullopt]. *)
Definition fetched (resp : Response) : option bytes :=
  if decide (resp_status resp = Ok) then Some (resp_value resp) else None.

(** The reply of a caller that waited for another caller's fetch. *)
Definition collapsed_reply (result : option bytes) : Response :=
  match result with
  | Some v => mkResponse Ok v
  | None => mkResponse NotFound []
  end.

(** ** Asking a peer *)

Section Proxy.
Context {C W Addr : Type} `{Stream C}.
Context (socket : W -> option C * W) (inet_pton : bytes -> option Addr).
Context (async_connect : W -> C -> Addr -> Z -> Z * W) (close : W -> C -> W).

Definition proxy_to_peer (m : MemberList.members) (w : W) (peers : PeerPool C)
    (buf_pool : option BufferPool.BufferPool) (req : Request) (owner : NodeId)
    : Response * PeerPool C * option BufferPool.BufferPool * W :=
  match MemberList.get_node m owner with
  | None => (mkResponse Error [], peers, buf_pool, w)
  | Some info =>
      let '(r, peers, w) :=
        PeerClient.acquire socket inet_pton async_connect close w peers (host owner) (data_port info) in
      match r with
      | None => (mkResponse Error [], peers, buf_pool, w)
      | Some peer_fd =>
          let '(resp, after, buf_pool) := PeerClient.send_request peer_fd buf_pool req in
          let peer_fd := default peer_fd after in
          if decide (resp_status resp = Error) then (resp, peers, buf_pool, close w peer_fd)
          else (resp, PeerClient.release peers (host owner) (data_port info) peer_fd, buf_pool, w)
      end
  end.
End Proxy.

(** ** Frames on a client connection *)

Section FrameFacts.
Context {C : Type} `{StreamLaws C}.

Lemma write_response_serialized (fd : C) resp : write_response fd resp = write_all fd (serialize_response resp).
Proof.
  unfold write_response, serialize_response, response_header. case_decide as E; [|done]. by rewrite E, app_nil_r.
Qed.

Lemma payload_len_exact hdr :
  RequestHeader_wf hdr -> u64 (rq_key_len hdr + rq_value_len hdr) = rq_key_len hdr + rq_value_len hdr.
Proof. intros (_ & Hk & Hv). unfold in_width in *. apply wrap_small. split; lia. Qed.

Lemma read_request_sound (fd : C) req fd' :
  read_request fd = Some (req, fd') ->
  exists frame, inbox fd = frame ++ inbox fd' /\ outbox fd' = outbox fd /\
    parse_request frame = Some req /\
    length frame = (sizeof_header + length (req_key req) + length (req_value req))%nat.
Proof.
  unfold read_request. intros ([raw c1] & E1 & E)%bind_Some.
  destruct (read_exact_sound _ _ _ _ E1) as (Hl1 & Hi1 & Ho1).
  apply bind_Some in E as ([payload c2] & E2 & E). cbv beta zeta in E.
  apply (inj Some), pair_equal_spec in E as [<- <-].
  pose proof (RequestHeader_of_bytes_wf raw) as Hwf. rewrite payload_len_exact in E2 by done.
  destruct Hwf as (_ & [Hk _] & [Hv _]). set (hdr := RequestHeader_of_bytes raw) in *.
  assert (inbox c1 = payload ++ inbox c2 /\ outbox c2 = outbox c1 /\
          Z.of_nat (length payload) = rq_key_len hdr + rq_value_len hdr) as (Hi2 & Ho2 & Hl2).
  { case_decide as Hd; [|by simplify_eq; split_and!; [..|cbn [length]; lia]].
    apply read_exact_sound in E2 as (Hl2 & Hi2 & Ho2). rewrite Hl2. split_and!; [done..|lia]. }
  exists (raw ++ payload). rewrite Hi1, Hi2, <- app_assoc, Ho2, length_app, Hl1. split_and!; [done..| |].
  - unfold parse_request. rewrite length_app, Hl1, decide_False by lia.
    rewrite (RequestHeader_of_bytes_app raw payload Hl1). fold hdr. rewrite decide_False by lia.
    rewrite drop_app_length' by done. destruct (decide (0 < rq_value_len hdr)); [done|].
    by replace (rq_value_len hdr) with 0 by lia.
  - cbn [req_key req_value]. rewrite length_take.
    destruct (decide (0 < rq_value_len hdr)); rewrite ?length_take, ?length_drop; cbn [length]; lia.
Qed.

Lemma read_request_serialized (fd : C) req rest :
  (forall c n, inbox c <> [] -> (0 < n)%nat -> is_Some (recv c n)) ->
  Request_wf req -> inbox fd = serialize_request req ++ rest ->
  exists fd', read_request fd = Some (req, fd') /\ inbox fd' = rest /\ outbox fd' = outbox fd.
Proof.
  intros Hlive (Hop & Hk & Hv) Hi. unfold serialize_request in Hi. rewrite <- app_assoc in Hi.
  destruct (read_exact_prefix fd _ _ Hlive Hi) as (c1 & E1 & Hi1 & Ho1).
  rewrite length_RequestHeader_bytes in E1. unfold read_request. rewrite E1. cbn [mbind option_bind].
  rewrite <- (app_nil_r (RequestHeader_bytes _)), RequestHeader_roundtrip by by apply request_header_wf.
  rewrite payload_len_exact by by apply request_header_wf.
  cbn [rq_key_len rq_value_len rq_opcode request_header]. unfold u16, u32. rewrite !wrap_small by (split; lia).
  destruct (read_exact_prefix c1 _ _ Hlive Hi1) as (c2 & E2 & Hi2 & Ho2). rewrite length_app in E2.
  rewrite <- Nat2Z.inj_add, !Nat2Z.id. destruct req as [op k v]. cbn [req_opcode req_key req_value] in *.
  destruct (decide (0 < Z.of_nat (length k + length v))) as [Hd|Hd].
  - rewrite E2. cbn [mbind option_bind]. exists c2. rewrite take_app_length, drop_app_length, firstn_all.
    split_and!; [|done|congruence]. case_decide; [done|]. by rewrite (nil_length_inv v) by lia.
  - assert (k = [] /\ v = []) as [-> ->] by (split; apply nil_length_inv; lia).
    exists c1. done.
Qed.
End FrameFacts.

(** ** The local store *)

Definition op_of (req : Request) : option kv_op :=
  match req_opcode req with
  | Get => Some (OGet (req_key req))
  | Put => Some (OPut (req_key req) (req_value req))
  | Del => Some (ODel (req_key req))
  | _ => None
  end.

(** How a result is spelled on the wire: a failed [put] is an error, a failed
    [del] found nothing. *)
Definition response_of (op : kv_op) (r : kv_result) : Response :=
  match op, r with
  | _, RValue (Some v) => mkResponse Ok v
  | _, RValue None => mkResponse NotFound []
  | OPut _ _, RBool b => mkResponse (if b then Ok else Error) []
  | _, RBool b => mkResponse (if b then Ok else NotFound) []
  end.

Lemma serve_local_exec `{KVStore St} (s : St) req :
  serve_local s req =
    match op_of req with
    | Some op => (response_of op (kv_exec s op).1, (kv_exec s op).2)
    | None => (mkResponse Error [], s)
    end.
Proof.
  unfold serve_local, op_of, kv_exec. destruct (req_opcode req); try done.
  - destruct (kv_get s (req_key req)) as [[v|] s']; done.
  - destruct (kv_put s (req_key req) (req_value req)) as [[] s']; done.
  - destruct (kv_del s (req_key req)) as [[] s']; done.
Qed.
