(* ===== verification/Server.v ===== *)
(** * Concurrent client connections ([Coordinator::handle_connection])

    Every client connection runs [handle_connection] as a coroutine; they share
    the store, the ring, the member list and the wait group.  A step of
    [server_step] is what one of them does between two suspension points.  The
    logs record what the store and the peers answered; no step reads them. *)

From stdpp Require Import relations.
From S2P Require Import Prelude Message NodeInfo KVStore Stream Topology ConnectionPool WaitGroup Coordinator.
From S2P Require RingStore MemberList LocalStore.

Local Open Scope Z_scope.

(** Where a connection is in the loop. *)
Inductive phase (C : Type) :=
  | Idle (fd : C)
  | Serving (fd : C) (req : Request)
  | Proxying (fd : C) (req : Request) (owner : NodeId)
  | Collapsing (fd : C) (req : Request) (owner : NodeId) (cl : nat)
  | Completing (fd : C) (req : Request) (cl : nat) (resp : Response)
  | Replying (fd : C) (req : Request) (resp : Response)
  | Closed (fd : C) (unanswered : list Request).
#[global] Arguments Idle {C} _.
#[global] Arguments Serving {C} _ _.
#[global] Arguments Proxying {C} _ _ _.
#[global] Arguments Collapsing {C} _ _ _ _.
#[global] Arguments Completing {C} _ _ _ _.
#[global] Arguments Replying {C} _ _ _.
#[global] Arguments Closed {C} _ _.

(** A connection, with the stream it started on and the exchanges so far. *)
Record conn (C : Type) := mkConn {
  at_phase : phase C;
  started : C;
  exchanged : list (Request * Response)
}.
#[global] Arguments mkConn {C} _ _ _.
#[global] Arguments at_phase {C} _.
#[global] Arguments started {C} _.
#[global] Arguments exchanged {C} _.

Abbreviation answer := (NodeId * Request * Response)%type.

Record server (St C : Type) := mkServer {
  store : St;
  ring : RingStore.Ring;
  members : MemberList.members;
  collapse : group;
  conns : gmap nat (conn C);
  local_log : list (kv_op * kv_result);
  peer_log : list answer
}.
#[global] Arguments mkServer {St C} _ _ _ _ _ _ _.
#[global] Arguments store {St C} _.
#[global] Arguments ring {St C} _.
#[global] Arguments members {St C} _.
#[global] Arguments collapse {St C} _.
#[global] Arguments conns {St C} _.
#[global] Arguments local_log {St C} _.
#[global] Arguments peer_log {St C} _.

Section Steps.
Context {St C : Type} `{KVStore St} `{Stream C} (self : NodeId).
Implicit Types (s : server St C).

Definition set_conn s (i : nat) (x : conn C) : server St C :=
  mkServer (store s) (ring s) (members s) (collapse s) (<[i := x]> (conns s)) (local_log s) (peer_log s).

Definition set_collapse s (g : group) : server St C :=
  mkServer (store s) (ring s) (members s) g (conns s) (local_log s) (peer_log s).

Definition log_answer s (a : answer) : server St C :=
  mkServer (store s) (ring s) (members s) (collapse s) (conns s) (local_log s) (peer_log s ++ [a]).

(** [serve_local], with the call it makes on the store. *)
Definition local_step s (req : Request) : Response * server St C :=
  let '(resp, st) := serve_local (store s) req in
  (resp, mkServer st (ring s) (members s) (collapse s) (conns s)
           (local_log s ++ match op_of req with
                           | Some op => [(op, (kv_exec (store s) op).1)]
                           | None => []
                           end) (peer_log s)).

Inductive server_step : server St C -> server St C -> Prop :=
  (* the gossip protocol changes the members and the ring *)
  | sv_gossip s ring' members' :
      server_step s (mkServer (store s) ring' members' (collapse s) (conns s) (local_log s) (peer_log s))
  | sv_accept s i fd :
      conns s !! i = None -> server_step s (set_conn s i (mkConn (Idle fd) fd []))
  | sv_read s i fd req fd' c0 ex :
      conns s !! i = Some (mkConn (Idle fd) c0 ex) -> read_request fd = Some (req, fd') ->
      server_step s (set_conn s i (mkConn (Serving fd' req) c0 ex))
  | sv_eof s i fd c0 ex :
      conns s !! i = Some (mkConn (Idle fd) c0 ex) -> read_request fd = None ->
      server_step s (set_conn s i (mkConn (Closed fd []) c0 ex))
  | sv_cluster_info s i fd req c0 ex :
      conns s !! i = Some (mkConn (Serving fd req) c0 ex) ->
      route_request (ring s) self req = ToClusterInfo ->
      server_step s (set_conn s i (mkConn (Replying fd req (serve_cluster_info (members s))) c0 ex))
  | sv_local s i fd req c0 ex resp s' :
      conns s !! i = Some (mkConn (Serving fd req) c0 ex) ->
      route_request (ring s) self req = ToLocal -> local_step s req = (resp, s') ->
      server_step s (set_conn s' i (mkConn (Replying fd req resp) c0 ex))
  (* a request other than a read of a remote key *)
  | sv_proxy s i fd req owner c0 ex :
      conns s !! i = Some (mkConn (Serving fd req) c0 ex) ->
      route_request (ring s) self req = ToPeer owner -> req_opcode req <> Get ->
      server_step s (set_conn s i (mkConn (Proxying fd req owner) c0 ex))
  | sv_proxied s i fd req owner c0 ex resp :
      conns s !! i = Some (mkConn (Proxying fd req owner) c0 ex) ->
      server_step s (set_conn (log_answer s (owner, req, resp)) i (mkConn (Replying fd req resp) c0 ex))
  (* a read of a remote key *)
  | sv_join s i fd req owner c0 ex cl first h w w' m :
      conns s !! i = Some (mkConn (Serving fd req) c0 ex) ->
      route_request (ring s) self req = ToPeer owner -> req_opcode req = Get ->
      collapse s = mkGroup w m -> m !! cl = None -> try_join w (req_key req) = (first, h, w') ->
      server_step s (set_conn (set_collapse s (mkGroup w'
          (<[cl := if first : bool then Fetching (req_key req) h else Joined (req_key req) h]> m)))
        i (mkConn (Collapsing fd req owner cl) c0 ex))
  | sv_fetched s i fd req owner c0 ex cl key h h' w w' m resp :
      conns s !! i = Some (mkConn (Collapsing fd req owner cl) c0 ex) ->
      collapse s = mkGroup w m -> m !! cl = Some (Fetching key h) ->
      complete_take w (req_key req) = (Some h', w') ->
      server_step s (set_conn (log_answer (set_collapse s (mkGroup w'
          (<[cl := Publishing (req_key req) h' (fetched resp)]> m))) (owner, req, resp))
        i (mkConn (Completing fd req cl resp) c0 ex))
  | sv_publish s i fd req c0 ex cl resp key h value cs w w' m :
      conns s !! i = Some (mkConn (Completing fd req cl resp) c0 ex) ->
      collapse s = mkGroup w m -> m !! cl = Some (Publishing key h value) ->
      complete_publish w h value = (cs, w') ->
      server_step s (set_conn (set_collapse s (mkGroup w'
          (resume_all cs key h value (<[cl := Finished key h value]> m))))
        i (mkConn (Replying fd req resp) c0 ex))
  | sv_ready s i fd req owner c0 ex cl key h w m :
      conns s !! i = Some (mkConn (Collapsing fd req owner cl) c0 ex) ->
      collapse s = mkGroup w m -> m !! cl = Some (Joined key h) -> await_ready w h = true ->
      server_step s (set_collapse s (mkGroup w (<[cl := Finished key h (await_resume w h)]> m)))
  | sv_suspend s i fd req owner c0 ex cl key h b w w' m :
      conns s !! i = Some (mkConn (Collapsing fd req owner cl) c0 ex) ->
      collapse s = mkGroup w m -> m !! cl = Some (Joined key h) -> await_suspend w h cl = (b, w') ->
      server_step s (set_collapse s (mkGroup w'
        (<[cl := if b : bool then Suspended key h else Finished key h (await_resume w' h)]> m)))
  | sv_resumed s i fd req owner c0 ex cl key h value :
      conns s !! i = Some (mkConn (Collapsing fd req owner cl) c0 ex) ->
      callers (collapse s) !! cl = Some (Finished key h value) ->
      server_step s (set_conn s i (mkConn (Replying fd req (collapsed_reply value)) c0 ex))
  | sv_write s i fd req resp c0 ex fd' :
      conns s !! i = Some (mkConn (Replying fd req resp) c0 ex) -> write_response fd resp = Some fd' ->
      server_step s (set_conn s i (mkConn (Idle fd') c0 (ex ++ [(req, resp)])))
  | sv_write_fails s i fd req resp c0 ex :
      conns s !! i = Some (mkConn (Replying fd req resp) c0 ex) -> write_response fd resp = None ->
      server_step s (set_conn s i (mkConn (Closed fd [req]) c0 ex)).

Definition server_new (s0 : St) (r : RingStore.Ring) (m : MemberList.members) : server St C :=
  mkServer s0 r m group_new ∅ [] [].
End Steps.

(** ** What a reply may be *)

(** A peer answered [value] to a read of [key]. *)
Definition fetched_from (pl : list answer) (key : bytes) (value : option bytes) : Prop :=
  exists owner req resp, (owner, req, resp) ∈ pl /\ req_opcode req = Get /\ req_key req = key /\ value = fetched resp.

(** The reply comes from the member list, from the local store, from the owner
    of the key, or from the owner's answer to a concurrent read of the same key;
    an opcode nobody knows is an error. *)
Inductive justified (lg : list (kv_op * kv_result)) (pl : list answer) (req : Request) : Response -> Prop :=
  | by_members m : req_opcode req = ClusterInfo -> justified lg pl req (serve_cluster_info m)
  | by_store op r : op_of req = Some op -> (op, r) ∈ lg -> justified lg pl req (response_of op r)
  | by_nobody : op_of req = None -> justified lg pl req (mkResponse Error [])
  | by_owner owner resp : (owner, req, resp) ∈ pl -> justified lg pl req resp
  | by_collapse value : req_opcode req = Get -> fetched_from pl (req_key req) value ->
      justified lg pl req (collapsed_reply value).

Lemma justified_mono lg pl lg' pl' req resp :
  lg ⊆ lg' -> pl ⊆ pl' -> justified lg pl req resp -> justified lg' pl' req resp.
Proof.
  intros Hl Hp. destruct 1 as [m ?|op r ? ?|?|owner resp ?|value ? (o & q & p & ? & ?)].
  - by apply by_members.
  - eapply by_store; [done|]. by apply Hl.
  - by apply by_nobody.
  - eapply by_owner. by apply Hp.
  - apply by_collapse; [done|]. exists o, q, p. split; [by apply Hp|done].
Qed.

(** ** The wait group under the server *)

Record group_origin (pl : list answer) (g : group) : Prop := {
  go_value c key h value :
    callers g !! c = Some (Publishing key h value) \/ callers g !! c = Some (Finished key h value) ->
    fetched_from pl key value;
  go_result h f : fetches (wg g) !! h = Some f -> completed f = true ->
    exists c key, callers g !! c = Some (Finished key h (result f))
}.

Lemma fetched_from_mono pl pl' key value : pl ⊆ pl' -> fetched_from pl key value -> fetched_from pl' key value.
Proof. intros Hp (o & q & p & ? & ?). exists o, q, p. split; [by apply Hp|done]. Qed.

Lemma group_origin_mono pl pl' g : pl ⊆ pl' -> group_origin pl g -> group_origin pl' g.
Proof. intros Hp [Hv Hr]. split; [|done]. intros. by eapply fetched_from_mono; [|eapply Hv]. Qed.

Section Origin.
Context (pl : list answer) (w : WaitGroup) (m : gmap nat caller).
Context (Hinv : group_inv (mkGroup w m)) (Horig : group_origin pl (mkGroup w m)).

(** A caller changes state without touching the fetches. *)
Lemma origin_recolor c x :
  (forall k h v, m !! c <> Some (Finished k h v)) ->
  (forall k h v, x = Publishing k h v \/ x = Finished k h v -> fetched_from pl k v) ->
  group_origin pl (mkGroup w (<[c := x]> m)).
Proof.
  intros Hnf Hx. destruct Horig as [Hv Hr]. split; simpl.
  - intros c' k h v. destruct (decide (c = c')) as [<-|Hne]; [|rewrite lookup_insert_ne by done; apply Hv].
    rewrite lookup_insert_eq. intros [[= ->]|[= ->]]; apply (Hx k h); auto.
  - intros h f Hf Hc. destruct (Hr h f Hf Hc) as (c' & k & Hc'). simpl in Hc'. exists c', k.
    rewrite lookup_insert_ne; [done|]. intros ->. by apply Hnf in Hc'.
Qed.

(** The fetches change, but none completes. *)
Lemma origin_fetches w' :
  (forall h f, fetches w' !! h = Some f -> completed f = true -> fetches w !! h = Some f) ->
  group_origin pl (mkGroup w' m).
Proof. intros Hw. destruct Horig as [Hv Hr]. split; [done|]. simpl. intros h f Hf Hc. apply (Hr h f); eauto. Qed.

(** The result of a completed fetch, for any of its callers. *)
Lemma origin_result c x :
  m !! c = Some x -> await_ready w (caller_handle x) = true ->
  fetched_from pl (caller_key x) (await_resume w (caller_handle x)).
Proof.
  intros Hc Hready. destruct (gi_known _ Hinv c x Hc) as [f Hf]. simpl in Hf.
  unfold await_ready, await_resume, fetch in *. rewrite Hf in *. simpl in *.
  destruct (go_result _ _ Horig _ f Hf Hready) as (c' & k & Hc'). simpl in Hc'.
  rewrite (gi_key _ Hinv c c' x _ Hc Hc' eq_refl). simpl. eapply (go_value _ _ Horig c'). by right.
Qed.

Lemma origin_publish c key h value :
  m !! c = Some (Publishing key h value) ->
  group_origin pl (mkGroup (mkWaitGroup (pending_ w) (<[h := mkFetch [] value true]> (fetches w)))
    (resume_all (waiters (fetch w h)) key h value (<[c := Finished key h value]> m))).
Proof.
  intros Hc. pose proof (publish_lookup w m Hinv c key h value Hc) as Hl.
  assert (fetched_from pl key value) as Hfrom by (apply (go_value _ _ Horig c _ h); by left).
  split; simpl.
  - intros c' k h' v. rewrite Hl. case_decide; [|apply (go_value _ _ Horig)].
    intros [[=]|[= <- <- <-]]. done.
  - intros h' f [[<- <-]|[Hne Hf]]%lookup_insert_Some Hcomp; simpl.
    + exists c, key. rewrite Hl, decide_True; [done|by left].
    + destruct (go_result _ _ Horig h' f Hf Hcomp) as (c' & k & Hc'). simpl in Hc'. exists c', k.
      rewrite Hl, decide_False; [done|]. rewrite (elem_of_published w m Hinv c key h value Hc).
      intros [->|[k' E]]; congruence.
Qed.
End Origin.

Lemma group_origin_step pl g g' :
  group_step g g' -> group_inv g ->
  (forall c k h v, callers g' !! c = Some (Publishing k h v) ->
     callers g !! c = Some (Publishing k h v) \/ fetched_from pl k v) ->
  group_origin pl g -> group_origin pl g'.
Proof.
  intros Hstep Hinv Hpub Horig.
  destruct Hstep as [c key first h w w' m Hc E|c key h w m Hc E|c key h b w w' m Hc E|c key h v h' w w' m Hc E|
                 c key h v cs w w' m Hc E]; simpl in *.
  - apply origin_recolor; [|intros; congruence|by destruct first; intros ? ? ? [|]].
    apply (origin_fetches pl w m Horig). intros h0 f. unfold try_join in E.
    destruct (pending_ w !! key); simplify_eq; [done|]. simpl.
    intros [[<- <-]|[_ ?]]%lookup_insert_Some; done.
  - apply origin_recolor; [done|intros; congruence|]. intros k h0 v0 [[=]|[= <- <- <-]].
    by apply (origin_result pl w m Hinv Horig c (Joined key h)).
  - unfold await_suspend in E. destruct (completed (fetch w h)) eqn:Ec; simplify_eq.
    + apply origin_recolor; [done|intros; congruence|]. intros k h0 v0 [[=]|[= <- <- <-]].
      by apply (origin_result pl w' m Hinv Horig c (Joined key h)).
    + apply origin_recolor; [|intros; congruence|by intros ? ? ? [|]].
      apply (origin_fetches pl w m Horig). simpl.
      intros h0 f [[<- <-]|[_ ?]]%lookup_insert_Some; simpl; congruence.
  - unfold complete_take in E. destruct (pending_ w !! key); simplify_eq.
    apply origin_recolor; [|intros; congruence|].
    + by apply (origin_fetches pl w m Horig).
    + intros k h0 v0 [[= <- <- <-]|[=]]. destruct (Hpub c key h' v) as [E|E]; [by rewrite lookup_insert_eq| |done].
      congruence.
  - unfold complete_publish in E. simplify_eq. by apply origin_publish.
Qed.

(** ** The invariant *)

Lemma group_step_keys g g' c x :
  group_step g g' -> group_inv g -> callers g !! c = Some x ->
  exists x', callers g' !! c = Some x' /\ caller_key x' = caller_key x.
Proof.
  intros Hstep Hinv Hx.
  assert (forall c0 y m, m = callers g -> (m !! c0 = None \/ exists z, m !! c0 = Some z /\ caller_key y = caller_key z) ->
    exists x', <[c0 := y]> m !! c = Some x' /\ caller_key x' = caller_key x) as Hins.
  { intros c0 y m -> Hy. destruct (decide (c0 = c)) as [->|Hne]; [|rewrite lookup_insert_ne by done; eauto].
    rewrite lookup_insert_eq. exists y. split; [done|]. destruct Hy as [?|(z & Hz & ->)]; congruence. }
  destruct Hstep as [c0 key first h w w' m Hc E|c0 key h w m Hc E|c0 key h b w w' m Hc E|c0 key h v h' w w' m Hc E|
                 c0 key h v cs w w' m Hc E]; simpl in *.
  - apply Hins; auto.
  - apply Hins; [done|]. right. eauto.
  - apply Hins; [done|]. right. eexists. split; [done|]. by destruct b.
  - apply Hins; [done|]. right. eauto.
  - unfold complete_publish in E. simplify_eq. rewrite (publish_lookup w m Hinv c0 key h v Hc).
    case_decide as Hd; [|eauto]. eexists. split; [done|]. simpl.
    apply (elem_of_published w m Hinv c0 key h v Hc) in Hd as [->|[k Hk]]; [by simplify_eq|].
    apply (gi_key _ Hinv c0 c _ x Hc Hx). by simplify_eq.
Qed.

Section Invariant.
Context {St C : Type} `{KVStore St} `{StreamLaws C} (self : NodeId) (s0 : St).
Implicit Types (s : server St C).

Definition stream_of (ph : phase C) : C :=
  match ph with
  | Idle fd | Serving fd _ | Proxying fd _ _ | Collapsing fd _ _ _ | Completing fd _ _ _
  | Replying fd _ _ | Closed fd _ => fd
  end.

(** The request that has been read and not been answered. *)
Definition in_flight (ph : phase C) : list Request :=
  match ph with
  | Idle _ => []
  | Serving _ req | Proxying _ req _ | Collapsing _ req _ _ | Completing _ req _ _ | Replying _ req _ => [req]
  | Closed _ l => l
  end.

(** One request, exactly. *)
Definition framed (frame : bytes) (req : Request) : Prop :=
  parse_request frame = Some req /\
  length frame = (sizeof_header + length (req_key req) + length (req_value req))%nat.

(** What was consumed is the frames of the requests, what was produced is the
    frames of the replies, in the same order. *)
Definition in_order (x : conn C) : Prop :=
  exists frames, Forall2 framed frames ((exchanged x).*1 ++ in_flight (at_phase x)) /\
    inbox (started x) = concat frames ++ inbox (stream_of (at_phase x)) /\
    outbox (stream_of (at_phase x)) = outbox (started x) ++ concat (serialize_response <$> (exchanged x).*2).

Definition phase_ok (lg : list (kv_op * kv_result)) (pl : list answer) (m : gmap nat caller) (ph : phase C) : Prop :=
  match ph with
  | Collapsing _ req _ cl => req_opcode req = Get /\ exists x, m !! cl = Some x /\ caller_key x = req_key req
  | Completing _ req _ resp => exists owner, (owner, req, resp) ∈ pl
  | Replying _ req resp => justified lg pl req resp
  | Closed _ l => (length l <= 1)%nat
  | _ => True
  end.

Record conn_ok (lg : list (kv_op * kv_result)) (pl : list answer) (m : gmap nat caller) (x : conn C) : Prop := {
  co_stream : in_order x;
  co_answers : Forall (fun e => justified lg pl e.1 e.2) (exchanged x);
  co_phase : phase_ok lg pl m (at_phase x)
}.

Record server_inv s : Prop := {
  si_group : group_inv (collapse s);
  si_origin : group_origin (peer_log s) (collapse s);
  si_store : kv_run s0 (local_log s).*1 = (local_log s, store s);
  si_conns i x : conns s !! i = Some x -> conn_ok (local_log s) (peer_log s) (callers (collapse s)) x
}.

Lemma conn_ok_mono lg pl m lg' pl' m' x :
  lg ⊆ lg' -> pl ⊆ pl' ->
  (forall cl y, m !! cl = Some y -> exists y', m' !! cl = Some y' /\ caller_key y' = caller_key y) ->
  conn_ok lg pl m x -> conn_ok lg' pl' m' x.
Proof.
  intros Hl Hp Hm [Hs Ha Hph]. split; [done| |].
  - eapply Forall_impl; [exact Ha|]. intros e. by apply justified_mono.
  - destruct (at_phase x); simpl in *; try done.
    + destruct Hph as [? (y & Hy & <-)]. split; [done|]. eauto.
    + destruct Hph as [o ?]. exists o. by apply Hp.
    + by eapply justified_mono.
Qed.

Lemma inv_set_conn s i x :
  server_inv s -> conn_ok (local_log s) (peer_log s) (callers (collapse s)) x -> server_inv (set_conn s i x).
Proof.
  intros [Hg Ho Hs Hc] Hx. split; simpl; [done..|]. intros j y [[_ <-]|[_ Hy]]%lookup_insert_Some; eauto.
Qed.

Lemma inv_log_answer s a : server_inv s -> server_inv (log_answer s a).
Proof.
  intros [Hg Ho Hs Hc]. assert (peer_log s ⊆ peer_log s ++ [a]) as Hsub by set_solver.
  split; simpl; [done|by eapply group_origin_mono|done|]. intros i x Hx.
  eapply conn_ok_mono; [| |eauto|by eapply Hc]; done.
Qed.

Lemma inv_set_collapse s g' :
  server_inv s -> group_step (collapse s) g' ->
  (forall c k h v, callers g' !! c = Some (Publishing k h v) ->
     callers (collapse s) !! c = Some (Publishing k h v) \/ fetched_from (peer_log s) k v) ->
  server_inv (set_collapse s g').
Proof.
  intros [Hg Ho Hs Hc] Hstep Hpub. split; simpl; [by eapply group_step_inv|by eapply group_origin_step|done|].
  intros i x Hx. eapply conn_ok_mono; [done|done| |by eapply Hc]. intros cl y Hy. by eapply group_step_keys.
Qed.

Lemma kv_run_snoc (st : St) ops op :
  kv_run st (ops ++ [op]) =
    ((kv_run st ops).1 ++ [(op, (kv_exec (kv_run st ops).2 op).1)], (kv_exec (kv_run st ops).2 op).2).
Proof.
  revert st. induction ops as [|o ops IH]; intros st; simpl.
  - by destruct (kv_exec st op).
  - destruct (kv_exec st o) as [r st1] eqn:E. rewrite IH. by destruct (kv_run st1 ops).
Qed.

Lemma inv_local s req resp s' :
  server_inv s -> req_opcode req <> ClusterInfo -> local_step s req = (resp, s') ->
  server_inv s' /\ justified (local_log s') (peer_log s') req resp.
Proof.
  intros [Hg Ho Hs Hc] Hop. unfold local_step. rewrite serve_local_exec.
  destruct (op_of req) as [op|] eqn:Eop; intros [= <- <-]; simpl.
  - split; [|eapply by_store; [done|set_solver]].
    split; simpl; [done..| |].
    + rewrite fmap_app. simpl. by rewrite kv_run_snoc, Hs.
    + intros i x Hx. eapply conn_ok_mono; [|done|eauto|by eapply Hc]. set_solver.
  - split; [|by apply by_nobody]. split; simpl; [done..| |]; rewrite app_nil_r; done.
Qed.

(** Moving on without touching the stream. *)
Lemma conn_ok_advance lg pl m x ph :
  conn_ok lg pl m x -> stream_of ph = stream_of (at_phase x) -> in_flight ph = in_flight (at_phase x) ->
  phase_ok lg pl m ph -> conn_ok lg pl m (mkConn ph (started x) (exchanged x)).
Proof.
  intros [(frames & Hf & Hi & Ho) Ha _] Es Ef Hph. split; [|done|done].
  exists frames. simpl. by rewrite Es, Ef.
Qed.

Lemma conn_ok_read lg pl m fd req fd' c0 ex :
  conn_ok lg pl m (mkConn (Idle fd) c0 ex) -> read_request fd = Some (req, fd') ->
  conn_ok lg pl m (mkConn (Serving fd' req) c0 ex).
Proof.
  intros [(frames & Hf & Hi & Ho) Ha _] E. simpl in *. rewrite app_nil_r in Hf.
  destruct (read_request_sound _ _ _ E) as (frame & Hin & Hout & Hp & Hl). split; [|done|done].
  exists (frames ++ [frame]). simpl. split; [|split].
  - apply Forall2_app; [done|]. by constructor.
  - rewrite concat_app. simpl. by rewrite app_nil_r, <- app_assoc, <- Hin.
  - by rewrite Hout.
Qed.

Lemma conn_ok_write lg pl m fd req resp fd' c0 ex :
  conn_ok lg pl m (mkConn (Replying fd req resp) c0 ex) -> write_response fd resp = Some fd' ->
  conn_ok lg pl m (mkConn (Idle fd') c0 (ex ++ [(req, resp)])).
Proof.
  intros [(frames & Hf & Hi & Ho) Ha Hj] E. simpl in *. rewrite write_response_serialized in E.
  destruct (write_all_sound _ _ _ E) as [Hout Hin]. split; [|by apply Forall_app; split; [|constructor]|done].
  exists frames. simpl. rewrite !fmap_app, app_nil_r. split; [done|]. rewrite Hin, Hout, Ho. split; [done|].
  rewrite concat_app. simpl. by rewrite app_nil_r, app_assoc.
Qed.

Lemma route_not_cluster r req :
  route_request r self req <> ToClusterInfo -> req_opcode req <> ClusterInfo.
Proof. unfold route_request. intros Hr E. by rewrite decide_True in Hr. Qed.

(** Publishing callers of the new table are in the old one. *)
Lemma no_new_publisher (m : gmap nat caller) cl x (P : nat -> bytes -> nat -> option bytes -> Prop) :
  (forall k h v, x <> Publishing k h v) ->
  forall c k h v, <[cl := x]> m !! c = Some (Publishing k h v) -> m !! c = Some (Publishing k h v) \/ P c k h v.
Proof. intros Hx c k h v [[_ ->]|[_ ?]]%lookup_insert_Some; [by destruct (Hx k h v)|by left]. Qed.

Lemma inv_fetched s i fd req owner c0 ex cl key h h' w w' m resp :
  server_inv s -> conns s !! i = Some (mkConn (Collapsing fd req owner cl) c0 ex) ->
  collapse s = mkGroup w m -> m !! cl = Some (Fetching key h) ->
  complete_take w (req_key req) = (Some h', w') ->
  server_inv (set_conn (log_answer (set_collapse s (mkGroup w'
      (<[cl := Publishing (req_key req) h' (fetched resp)]> m))) (owner, req, resp))
    i (mkConn (Completing fd req cl resp) c0 ex)).
Proof.
  intros Hinv Hi Eg Hcl E. pose proof (si_conns _ Hinv _ _ Hi) as Hok.
  pose proof (inv_log_answer _ (owner, req, resp) Hinv) as Hinv1.
  assert (caller_key (Fetching key h) = req_key req /\ req_opcode req = Get) as [Hk Hop].
  { destruct (co_phase _ _ _ _ Hok) as [Hop (x & Hx & Hk)]. rewrite Eg in Hx. simpl in *. by simplify_eq. }
  simpl in Hk. subst key.
  eapply inv_set_collapse in Hinv1 as Hinv2; [|simpl; rewrite Eg; by apply (gs_take cl (req_key req) h (fetched resp))|].
  + apply inv_set_conn; [exact Hinv2|].
    apply (conn_ok_advance _ _ _ (mkConn (Collapsing fd req owner cl) c0 ex) (Completing fd req cl resp));
      [by apply (si_conns _ Hinv2 i)|done..|]. exists owner. simpl. set_solver.
  + simpl. rewrite Eg. simpl. intros c k h0 v [[<- [= <- <- <-]]|[_ ?]]%lookup_insert_Some; [right|by left].
    exists owner, req, resp. split; [set_solver|done].
Qed.

Lemma inv_publish s i fd req c0 ex cl resp key h value cs w w' m :
  server_inv s -> conns s !! i = Some (mkConn (Completing fd req cl resp) c0 ex) ->
  collapse s = mkGroup w m -> m !! cl = Some (Publishing key h value) ->
  complete_publish w h value = (cs, w') ->
  server_inv (set_conn (set_collapse s (mkGroup w'
      (resume_all cs key h value (<[cl := Finished key h value]> m))))
    i (mkConn (Replying fd req resp) c0 ex)).
Proof.
  intros Hinv Hi Eg Hcl E. pose proof (si_conns _ Hinv _ _ Hi) as Hok.
  eapply inv_set_collapse in Hinv as Hinv'; [|rewrite Eg; by eapply gs_publish|].
  + apply inv_set_conn; [exact Hinv'|].
    apply (conn_ok_advance _ _ _ (mkConn (Completing fd req cl resp) c0 ex) (Replying fd req resp));
      [by apply (si_conns _ Hinv' i)|done..|].
    destruct (co_phase _ _ _ _ Hok) as [owner Ho]. by eapply by_owner.
  + pose proof (si_group _ Hinv) as Hg. rewrite Eg in *. simpl. unfold complete_publish in E. simplify_eq.
    intros c k h0 v. rewrite (publish_lookup w m Hg cl key h value Hcl). case_decide; [done|]. by left.
Qed.

Lemma server_step_inv s s' : server_step self s s' -> server_inv s -> server_inv s'.
Proof.
  destruct 1 as [s r' m'|s i fd Hi|s i fd req fd' c0 ex Hi E|s i fd c0 ex Hi E|s i fd req c0 ex Hi E
    |s i fd req c0 ex resp s' Hi Er E|s i fd req owner c0 ex Hi Er Hop|s i fd req owner c0 ex resp Hi
    |s i fd req owner c0 ex cl first h w w' m Hi Er Hop Eg Hcl E|s i fd req owner c0 ex cl key h h' w w' m resp Hi Eg Hcl E
    |s i fd req c0 ex cl resp key h value cs w w' m Hi Eg Hcl E|s i fd req owner c0 ex cl key h w m Hi Eg Hcl E
    |s i fd req owner c0 ex cl key h b w w' m Hi Eg Hcl E|s i fd req owner c0 ex cl key h value Hi Hcl
    |s i fd req resp c0 ex fd' Hi E|s i fd req resp c0 ex Hi E]; intros Hinv.
  all: try pose proof (si_conns _ Hinv _ _ Hi) as Hok.
  - by destruct Hinv.
  - apply inv_set_conn; [done|]. split; [|constructor|done]. exists []. simpl. rewrite app_nil_r. by split; [constructor|].
  - apply inv_set_conn; [done|]. by eapply conn_ok_read.
  - apply inv_set_conn; [done|]. apply (conn_ok_advance _ _ _ _ (Closed fd []) Hok); simpl; [done..|lia].
  - apply inv_set_conn; [done|]. apply (conn_ok_advance _ _ _ _ (Replying fd req _) Hok); [done..|].
    apply by_members. unfold route_request in E. case_decide; [done|]. repeat case_match; done.
  - destruct (inv_local _ _ _ _ Hinv (route_not_cluster _ _ ltac:(by rewrite Er)) E) as [Hinv' Hj].
    apply inv_set_conn; [done|]. apply (conn_ok_advance _ _ _ (mkConn (Serving fd req) c0 ex) (Replying fd req resp)); [|done..].
    apply (si_conns _ Hinv' i). unfold local_step in E. destruct (serve_local _ _). by simplify_eq.
  - apply inv_set_conn; [done|]. by apply (conn_ok_advance _ _ _ _ (Proxying fd req owner) Hok).
  - apply inv_set_conn; [by apply inv_log_answer|].
    apply (conn_ok_advance _ _ _ (mkConn (Proxying fd req owner) c0 ex) (Replying fd req resp)); [|done..|].
    + by apply (si_conns _ (inv_log_answer _ _ Hinv) i).
    + apply (by_owner _ _ _ owner). simpl. set_solver.
  - eapply inv_set_collapse in Hinv as Hinv'; [|rewrite Eg; by apply (gs_join cl)|].
    + apply inv_set_conn; [exact Hinv'|].
      apply (conn_ok_advance _ _ _ (mkConn (Serving fd req) c0 ex) (Collapsing fd req owner cl));
        [by apply (si_conns _ Hinv' i)|done..|]. split; [done|]. simpl. rewrite lookup_insert_eq.
      eexists. split; [done|]. by destruct first.
    + rewrite Eg. simpl. apply no_new_publisher. by destruct first.
  - by eapply inv_fetched.
  - by eapply inv_publish.
  - eapply inv_set_collapse; [done|rewrite Eg; by apply (gs_ready cl)|]. rewrite Eg. simpl. by apply no_new_publisher.
  - eapply inv_set_collapse; [done|rewrite Eg; by apply (gs_suspend cl)|]. rewrite Eg. simpl.
    apply no_new_publisher. by destruct b.
  - apply inv_set_conn; [done|]. apply (conn_ok_advance _ _ _ _ (Replying fd req _) Hok); [done..|].
    destruct (co_phase _ _ _ _ Hok) as [Hop (x & Hx & Hk)]. rewrite Hcl in Hx. simplify_eq. simpl in Hk. subst.
    apply by_collapse; [done|]. eapply (go_value _ _ (si_origin _ Hinv) cl). by right.
  - apply inv_set_conn; [done|]. by eapply conn_ok_write.
  - apply inv_set_conn; [done|]. by apply (conn_ok_advance _ _ _ _ (Closed fd [req]) Hok); simpl.
Qed.

Lemma server_reachable_inv r m s : rtc (server_step self) (server_new s0 r m) s -> server_inv s.
Proof.
  intros Hr. assert (server_inv (server_new s0 r m)) as Hnew.
  { split; simpl; [apply group_inv_new| |done|by intros i x; rewrite lookup_empty].
    split; simpl; [intros c k h v|intros h f]; rewrite lookup_empty; naive_solver. }
  induction Hr as [|x y z Hxy _ IH]; [done|]. by apply IH, (server_step_inv x).
Qed.

(** The server drives the wait group only through its interface. *)
Lemma server_step_group s s' :
  server_step self s s' -> server_inv s -> rtc group_step (collapse s) (collapse s').
Proof.
  destruct 1 as [| | | | |s i fd req c0 ex resp s' Hi Er E| | |s i fd req owner c0 ex cl first h w w' m Hi Er Hop Eg Hcl E
    |s i fd req owner c0 ex cl key h h' w w' m resp Hi Eg Hcl E
    |s i fd req c0 ex cl resp key h value cs w w' m Hi Eg Hcl E|s i fd req owner c0 ex cl key h w m Hi Eg Hcl E
    |s i fd req owner c0 ex cl key h b w w' m Hi Eg Hcl E| | | ]; intros Hinv; simpl; try apply rtc_refl.
  - unfold local_step in E. destruct (serve_local _ _). simplify_eq. apply rtc_refl.
  - rewrite Eg. by apply rtc_once, (gs_join cl).
  - destruct (co_phase _ _ _ _ (si_conns _ Hinv _ _ Hi)) as [_ (x & Hx & Hk)]. rewrite Eg in *. simpl in *.
    simplify_eq/=. by apply rtc_once, (gs_take cl _ h).
  - rewrite Eg. by eapply rtc_once, gs_publish.
  - rewrite Eg. by apply rtc_once, (gs_ready cl).
  - rewrite Eg. by apply rtc_once, (gs_suspend cl).
Qed.

Lemma server_reachable_group r m s :
  rtc (server_step self) (server_new s0 r m) s -> rtc group_step group_new (collapse s).
Proof.
  intros Hr. change group_new with (collapse (server_new s0 r m : server St C)).
  assert (server_inv (server_new s0 r m)) as Hnew by (eapply server_reachable_inv, rtc_refl).
  induction Hr as [|x y z Hxy _ IH]; [apply rtc_refl|].
  etrans; [by apply server_step_group|]. by apply IH, (server_step_inv x).
Qed.

End Invariant.

(** A read of a key that the other node owns. *)
#[local] Existing Instance LocalStore.LocalStore_KVStore.

Definition demo_self : NodeId := mkNodeId (lit "10.0.0.1") 7946.
Definition demo_peer : NodeId := mkNodeId (lit "10.0.0.2") 7946.
Definition demo_request : Request := mkRequest Get (lit "k") [].
Definition demo_pipe : pipe := mkPipe 2 (serialize_request demo_request) [].

