(* ===== verification/PensieveClient.v ===== *)
(** * The client library ([src/src/sdk/pensieve_client.{h,cpp}])

    A request goes to the owner of its key, then to the successors on the ring,
    skipping the endpoints the circuit breaker refuses, until one answers.  The
    operating system is a world [W] with a clock, the connections of a
    [Transport] (the system's descriptors are one) and a way to fetch the
    topology. *)

From S2P Require Import Prelude Message NodeInfo OrderedMap Stream Topology.
From S2P Require ClientSockets CircuitBreaker ConnectionPool.
Import ConnectionPool(Transport, tr_connect, tr_close, tr_send, tr_recv).

Local Open Scope Z_scope.

Record Config := mkConfig {
  seed_host : bytes;
  seed_port : Z;                      (* uint16_t *)
  refresh_interval : Z;               (* seconds *)
  max_connections_per_node : nat;
  max_retries : Z;                    (* int *)
  circuit_break_duration : Z;         (* milliseconds *)
  circuit_break_threshold : Z         (* int *)
}.

(** The defaults, for a seed. *)
Definition default_config (host : bytes) : Config := mkConfig host 11211 10 4 2 5000 3.

Record Stats := mkStats {
  requests_total : Z;
  requests_direct : Z;
  requests_retried : Z;
  ring_refreshes : Z;
  circuit_breaks : Z;
  last_latency_us : Z
}.

Record Client (C : Type) := mkClient {
  cfg : Config;
  topo : TopologyManager;
  pool : ConnectionPool.ConnectionPool C;
  breaker : CircuitBreaker.CircuitBreaker;
  counters : Stats
}.
#[global] Arguments mkClient {C} _ _ _ _ _.
#[global] Arguments cfg {C} _.
#[global] Arguments topo {C} _.
#[global] Arguments pool {C} _.
#[global] Arguments breaker {C} _.
#[global] Arguments counters {C} _.

Definition Client_new {C} (c : Config) : Client C :=
  mkClient c TopologyManager_new (ConnectionPool.ConnectionPool_new (max_connections_per_node c))
    CircuitBreaker.CircuitBreaker_new (mkStats 0 0 0 0 0 0).

(** The breaker's part of the configuration. *)
Definition breaker_config (c : Config) : CircuitBreaker.Config :=
  CircuitBreaker.mkConfig (circuit_break_threshold c) (circuit_break_duration c).

(** [++counter] on an atomic [uint64_t]. *)
Definition count_total (s : Stats) : Stats :=
  mkStats (u64 (requests_total s + 1)) (requests_direct s) (requests_retried s) (ring_refreshes s)
    (circuit_breaks s) (last_latency_us s).
Definition count_direct (s : Stats) : Stats :=
  mkStats (requests_total s) (u64 (requests_direct s + 1)) (requests_retried s) (ring_refreshes s)
    (circuit_breaks s) (last_latency_us s).
Definition count_retried (s : Stats) : Stats :=
  mkStats (requests_total s) (requests_direct s) (u64 (requests_retried s + 1)) (ring_refreshes s)
    (circuit_breaks s) (last_latency_us s).
Definition count_refresh (s : Stats) : Stats :=
  mkStats (requests_total s) (requests_direct s) (requests_retried s) (u64 (ring_refreshes s + 1))
    (circuit_breaks s) (last_latency_us s).
Definition count_break (s : Stats) : Stats :=
  mkStats (requests_total s) (requests_direct s) (requests_retried s) (ring_refreshes s)
    (u64 (circuit_breaks s + 1)) (last_latency_us s).
Definition set_latency (s : Stats) (us : Z) : Stats :=
  mkStats (requests_total s) (requests_direct s) (requests_retried s) (ring_refreshes s)
    (circuit_breaks s) us.

Section Client.
Context {C W : Type} `{Transport W C}.
(** [steady_clock::now], in nanoseconds. *)
Context (now : W -> Z).
Context (fetch : W -> bytes -> Z -> option (list NodeEndpoint) * W).
Implicit Types (cl : Client C) (w : W).

Definition set_pool cl (p : ConnectionPool.ConnectionPool C) : Client C :=
  mkClient (cfg cl) (topo cl) p (breaker cl) (counters cl).
Definition set_breaker cl (b : CircuitBreaker.CircuitBreaker) : Client C :=
  mkClient (cfg cl) (topo cl) (pool cl) b (counters cl).
Definition set_topo cl (t : TopologyManager) : Client C :=
  mkClient (cfg cl) t (pool cl) (breaker cl) (counters cl).
Definition set_counters cl (s : Stats) : Client C :=
  mkClient (cfg cl) (topo cl) (pool cl) (breaker cl) s.

Definition on_failure cl w (ep : NodeEndpoint) (first_attempt : bool) : Client C :=
  let cl := set_breaker cl (CircuitBreaker.record_failure (breaker_config (cfg cl)) (now w) (breaker cl) ep) in
  if first_attempt then set_counters cl (count_retried (counters cl)) else cl.

(** After an answer: the statistics, and a refresh when the node reported an
    error without a message. *)
Definition on_answer cl w (start : Z) (first_attempt : bool) (resp : Response) : Client C * W :=
  let cl := if first_attempt then set_counters cl (count_direct (counters cl)) else cl in
  let elapsed := now w - start in
  let cl := set_counters cl (set_latency (counters cl) (u64 (Z.quot elapsed 1000))) in
  if decide (resp_status resp = Error /\ resp_value resp = []) then
    let '(_, t, w) := refresh fetch w (topo cl) in
    let cl := set_topo cl t in
    (set_counters cl (count_refresh (counters cl)), w)
  else (cl, w).

(** The loop over the targets. *)
Fixpoint try_targets (req : Request) (start : Z) (targets : list NodeEndpoint) (first_attempt : bool) cl w
    : option Response * Client C * W :=
  match targets with
  | [] => (None, cl, w)
  | ep :: targets =>
      let '(allowed, b) := CircuitBreaker.allow (breaker_config (cfg cl)) (now w) (breaker cl) ep in
      let cl := set_breaker cl b in
      if negb allowed then
        try_targets req start targets first_attempt (set_counters cl (count_break (counters cl))) w
      else
        let '(r, p, w) := ConnectionPool.acquire tr_connect w (pool cl) ep in
        let cl := set_pool cl p in
        match r with
        | None => try_targets req start targets false (on_failure cl w ep first_attempt) w
        | Some fd =>
            let '(sent, w) := tr_send w fd req in
            if negb sent then
              let w := ConnectionPool.discard tr_close w fd in
              try_targets req start targets false (on_failure cl w ep first_attempt) w
            else
              let '(resp, w) := tr_recv w fd in
              match resp with
              | None =>
                  let w := ConnectionPool.discard tr_close w fd in
                  try_targets req start targets false (on_failure cl w ep first_attempt) w
              | Some resp =>
                  let '(p, w) := ConnectionPool.release tr_close w (pool cl) ep fd in
                  let cl := set_pool cl p in
                  let cl := set_breaker cl (CircuitBreaker.record_success (breaker cl) ep) in
                  let '(cl, w) := on_answer cl w start first_attempt resp in
                  (Some resp, cl, w)
              end
        end
  end.

(** [static_cast<size_t>(cfg.max_retries) + 1]. *)
Definition max_targets (c : Config) : nat := Z.to_nat (u64 (u64 (max_retries c) + 1)).

Definition targets_of cl (key : bytes) : list NodeEndpoint := find_successors (topo cl) key (max_targets (cfg cl)).

Definition execute (op : Opcode) (key value : bytes) cl w : option Response * Client C * W :=
  let start := now w in
  let cl := set_counters cl (count_total (counters cl)) in
  try_targets (mkRequest op key value) start (targets_of cl key) true cl w.

Definition client_get (key : bytes) cl w : option bytes * Client C * W :=
  let '(resp, cl, w) := execute Get key [] cl w in
  (match resp with
   | Some resp => if decide (resp_status resp = Ok) then Some (resp_value resp) else None
   | None => None
   end, cl, w).

(** [resp.has_value() && resp->status == Status::Ok]. *)
Definition succeeded (resp : option Response) : bool :=
  match resp with
  | Some resp => bool_decide (resp_status resp = Ok)
  | None => false
  end.

Definition client_put (key value : bytes) cl w : bool * Client C * W :=
  let '(resp, cl, w) := execute Put key value cl w in (succeeded resp, cl, w).

Definition client_del (key : bytes) cl w : bool * Client C * W :=
  let '(resp, cl, w) := execute Del key [] cl w in (succeeded resp, cl, w).

(** [connect]; the background thread is started when the flag is set. *)
Definition client_connect cl w : bool * bool * Client C * W :=
  let '(ok, t, w) := bootstrap fetch w (topo cl) (seed_host (cfg cl)) (seed_port (cfg cl)) in
  let cl := set_topo cl t in
  (ok, ok && bool_decide (0 < refresh_interval (cfg cl)), cl, w).

Definition client_stats cl : Stats := counters cl.
End Client.

(** ** What one request does

    The reference: an endpoint after another is refused by the breaker, fails,
    or answers; the first answer ends it.  The calls on the breaker are the
    trace of it. *)

Inductive session (bc : CircuitBreaker.Config) (answers : Response -> Prop)
    : CircuitBreaker.CircuitBreaker -> list NodeEndpoint -> list CircuitBreaker.event -> option Response -> Prop :=
  | session_end b : session bc answers b [] [] None
  | session_refused b ep eps t evs r :
      (CircuitBreaker.allow bc t b ep).1 = false ->
      session bc answers (CircuitBreaker.run bc b [CircuitBreaker.EAllow t ep]) eps evs r ->
      session bc answers b (ep :: eps) (CircuitBreaker.EAllow t ep :: evs) r
  | session_failed b ep eps t t' evs r :
      (CircuitBreaker.allow bc t b ep).1 = true ->
      session bc answers
        (CircuitBreaker.run bc b [CircuitBreaker.EAllow t ep; CircuitBreaker.EFailure t' ep]) eps evs r ->
      session bc answers b (ep :: eps) (CircuitBreaker.EAllow t ep :: CircuitBreaker.EFailure t' ep :: evs) r
  | session_answered b ep eps t resp :
      (CircuitBreaker.allow bc t b ep).1 = true -> answers resp ->
      session bc answers b (ep :: eps) [CircuitBreaker.EAllow t ep; CircuitBreaker.ESuccess ep] (Some resp).

Definition is_failure (ev : CircuitBreaker.event) : bool :=
  match ev with CircuitBreaker.EFailure _ _ => true | _ => false end.

(** How many endpoints the breaker refused: those it was asked about that
    neither failed nor answered. *)
Definition refusals (evs : list CircuitBreaker.event) : Z :=
  foldr (fun ev n => match ev with CircuitBreaker.EAllow _ _ => n + 1 | _ => n - 1 end) 0 evs.

(** The statistics of a session. *)
Definition session_counters (s : Stats) (evs : list CircuitBreaker.event) (first answered : bool)
    (s' : Stats) : Prop :=
  requests_total s' = requests_total s /\
  requests_retried s' = (if first && existsb is_failure evs then u64 (requests_retried s + 1) else requests_retried s) /\
  requests_direct s' =
    (if first && negb (existsb is_failure evs) && answered then u64 (requests_direct s + 1) else requests_direct s) /\
  u64 (circuit_breaks s') = u64 (circuit_breaks s + refusals evs).

Section Sessions.
Context {C W : Type} `{Transport W C} (now : W -> Z).
Context (fetch : W -> bytes -> Z -> option (list NodeEndpoint) * W).
Implicit Types (cl : Client C) (w : W).

(** The response was received on a connection right after the request was sent
    on it. *)
Definition exchange (req : Request) (resp : Response) : Prop :=
  exists (w w1 w2 : W) (fd : C), tr_send w fd req = (true, w1) /\ tr_recv w1 fd = (Some resp, w2).

Lemma on_answer_frame cl w start first resp :
  breaker (on_answer now fetch cl w start first resp).1 = breaker cl /\
  cfg (on_answer now fetch cl w start first resp).1 = cfg cl /\
  requests_total (counters (on_answer now fetch cl w start first resp).1) = requests_total (counters cl) /\
  requests_retried (counters (on_answer now fetch cl w start first resp).1) = requests_retried (counters cl) /\
  requests_direct (counters (on_answer now fetch cl w start first resp).1) =
    (if first then u64 (requests_direct (counters cl) + 1) else requests_direct (counters cl)) /\
  circuit_breaks (counters (on_answer now fetch cl w start first resp).1) = circuit_breaks (counters cl).
Proof.
  unfold on_answer. cbv zeta. case_decide; [|by destruct first].
  destruct (refresh _ _ _) as [[? ?] ?]. by destruct first.
Qed.

Lemma u64_step a b c : u64 c = u64 (u64 (a + 1) + b) -> u64 c = u64 (a + (b + 1)).
Proof.
  intros ->. unfold u64, wrap. rewrite Zplus_mod_idemp_l. f_equal. lia.
Qed.

Lemma on_failure_counters cl w ep first :
  counters (on_failure now cl w ep first) = if first then count_retried (counters cl) else counters cl.
Proof. by destruct first. Qed.

Lemma on_failure_breaker cl w ep first :
  breaker (on_failure now cl w ep first) =
    CircuitBreaker.record_failure (breaker_config (cfg cl)) (now w) (breaker cl) ep.
Proof. by destruct first. Qed.

(** The counters after a failed endpoint and the rest of the session. *)
Lemma failed_counters s s' t t' ep evs (first answered : bool) :
  session_counters (if first then count_retried s else s) evs false answered s' ->
  session_counters s (CircuitBreaker.EAllow t ep :: CircuitBreaker.EFailure t' ep :: evs) first answered s'.
Proof.
  intros (H1 & H2 & H3 & H4). unfold session_counters. simpl in *.
  rewrite H1, H2, H3, H4, andb_false_r. destruct first; simpl; (split_and!; [done..|]); do 2 f_equal; lia.
Qed.

Lemma try_targets_session req start targets first cl w r cl' w' :
  try_targets now fetch req start targets first cl w = (r, cl', w') ->
  exists evs,
    session (breaker_config (cfg cl)) (exchange req) (breaker cl) targets evs r /\
    breaker cl' = CircuitBreaker.run (breaker_config (cfg cl)) (breaker cl) evs /\
    cfg cl' = cfg cl /\
    session_counters (counters cl) evs first (bool_decide (is_Some r)) (counters cl').
Proof.
  revert first cl w. induction targets as [|ep targets IH]; intros first cl w; cbn [try_targets].
  { intros [= <- <- <-]. exists []. split; [constructor|]. split_and!; try done.
    unfold session_counters. simpl. rewrite andb_false_r, Z.add_0_r. by destruct first. }
  set (bc := breaker_config (cfg cl)).
  destruct (CircuitBreaker.allow bc (now w) (breaker cl) ep) as [allowed b] eqn:Ea.
  assert (CircuitBreaker.run bc (breaker cl) [CircuitBreaker.EAllow (now w) ep] = b) as Hb.
  { unfold CircuitBreaker.run. simpl. by rewrite Ea. }
  assert (forall (cl0 : Client C) (w0 t0 : W), cfg cl0 = cfg cl -> breaker cl0 = b -> counters cl0 = counters cl ->
    try_targets now fetch req start targets false (on_failure now cl0 t0 ep first) w0 = (r, cl', w') ->
    allowed = true ->
    exists evs, session bc (exchange req) (breaker cl) (ep :: targets) evs r /\
      breaker cl' = CircuitBreaker.run bc (breaker cl) evs /\ cfg cl' = cfg cl /\
      session_counters (counters cl) evs first (bool_decide (is_Some r)) (counters cl')) as Hfail.
  { intros cl0 w0 t0 Hcfg Hbr Hcn E ->. apply IH in E as (evs & Hs & Hbr' & Hcfg' & Hcnt).
    assert (cfg (on_failure now cl0 t0 ep first) = cfg cl) as Ec by (rewrite <- Hcfg; by destruct first).
    rewrite on_failure_breaker, Ec in *. rewrite Hcfg, Hbr in *. rewrite on_failure_counters, Hcn in Hcnt.
    exists (CircuitBreaker.EAllow (now w) ep :: CircuitBreaker.EFailure (now t0) ep :: evs).
    split; [apply session_failed; [by rewrite Ea|]|].
    - unfold CircuitBreaker.run in *. simpl in *. by rewrite Hb.
    - unfold CircuitBreaker.run in *. simpl in *. rewrite Hb. split_and!; [done..|]. by apply failed_counters. }
  destruct allowed; cbn [negb].
  - destruct (ConnectionPool.acquire tr_connect w (pool _) ep) as [[[fd|] p'] w1] eqn:Eq; [|intros E; by apply Hfail in E].
    destruct (tr_send w1 fd req) as [[] w2] eqn:Es; cbn [negb]; [|intros E; by apply Hfail in E].
    destruct (tr_recv w2 fd) as [[resp|] w3] eqn:Er; [|intros E; by apply Hfail in E].
    destruct (ConnectionPool.release tr_close w3 _ ep fd) as [p2 w4].
    match goal with |- context [on_answer now fetch ?c ?w ?s ?f ?r] =>
      pose proof (on_answer_frame c w s f r) as (H1 & H2 & H3 & H4 & H5 & H6);
      destruct (on_answer now fetch c w s f r) as [cl3 w5] end.
    intros [= <- <- <-]. simpl in *.
    exists [CircuitBreaker.EAllow (now w) ep; CircuitBreaker.ESuccess ep].
    split; [apply session_answered; [by rewrite Ea|by exists w1, w2, w3, fd]|].
    split; [unfold CircuitBreaker.run in *; simpl in *; by rewrite Hb|]. split; [done|].
    unfold session_counters. simpl. rewrite H3, H4, H5, H6. destruct first; simpl; split_and!; try done; f_equal; lia.
  - intros E. apply IH in E as (evs & Hs & Hbr' & Hcfg' & (H1 & H2 & H3 & H4)). simpl in *.
    exists (CircuitBreaker.EAllow (now w) ep :: evs). split; [apply session_refused; [by rewrite Ea|unfold CircuitBreaker.run; simpl; by rewrite Hb]|].
    split; [unfold CircuitBreaker.run in *; simpl in *; by rewrite Hb|]. split; [done|].
    unfold session_counters. simpl. rewrite H1, H2, H3. split_and!; [done..|]. by apply u64_step.
Qed.
End Sessions.

(** ** What a request keeps

    The phases of an attempt, as predicates of the pool and the world: [idle]
    between attempts, [held] with a connection out, [sent] with the request sent
    on it, [broken] when that or the response failed, [received] with the
    response, [done_] after the connection is back. *)

Section Rule.
Context {C W : Type} `{Transport W C} (now : W -> Z) (req : Request).
Context (fetch : W -> bytes -> Z -> option (list NodeEndpoint) * W).
Context (idle : ConnectionPool.ConnectionPool C -> W -> Prop).
Context (held sent broken : ConnectionPool.ConnectionPool C -> W -> C -> Prop).
Context (received : Response -> ConnectionPool.ConnectionPool C -> W -> C -> Prop).
Context (done_ : Response -> ConnectionPool.ConnectionPool C -> W -> Prop).
Implicit Types (p : ConnectionPool.ConnectionPool C) (w : W) (fd : C).

Hypothesis acquire_rule : forall p w ep, idle p w ->
  let '(r, p', w') := ConnectionPool.acquire tr_connect w p ep in
  match r with Some fd => held p' w' fd | None => idle p' w' end.
Hypothesis send_rule : forall p w fd, held p w fd ->
  let '(ok, w') := tr_send w fd req in if ok : bool then sent p w' fd else broken p w' fd.
Hypothesis recv_rule : forall p w fd, sent p w fd ->
  let '(r, w') := tr_recv w fd in
  match r with Some resp => received resp p w' fd | None => broken p w' fd end.
Hypothesis discard_rule : forall p w fd, broken p w fd -> idle p (tr_close w fd).
Hypothesis release_rule : forall resp p w ep fd, received resp p w fd ->
  let '(p', w') := ConnectionPool.release tr_close w p ep fd in done_ resp p' w'.
Hypothesis fetch_rule : forall resp p w host port, done_ resp p w -> done_ resp p (fetch w host port).2.

Lemma refresh_keeps_done resp p w t : done_ resp p w -> done_ resp p (refresh fetch w t).2.
Proof.
  unfold refresh. generalize (nodes_ t). intros eps. revert w. induction eps as [|ep eps IH]; intros w Hw; [done|].
  cbn [refresh_loop]. pose proof (fetch_rule resp p w (ep_host ep) (ep_data_port ep) Hw) as Hf.
  destruct (fetch _ _ _) as [[fresh|] w1]; [case_decide|]; auto.
Qed.

Lemma on_answer_keeps cl w start first resp :
  done_ resp (pool cl) w ->
  done_ resp (pool (on_answer now fetch cl w start first resp).1) (on_answer now fetch cl w start first resp).2.
Proof.
  intros Hw. unfold on_answer. cbv zeta. case_decide; [|by destruct first].
  match goal with |- context [refresh fetch w ?t] => pose proof (refresh_keeps_done resp _ w t Hw) as Hr;
    destruct (refresh fetch w t) as [[? ?] ?] end.
  by destruct first.
Qed.

Lemma try_targets_rule start targets first cl w r cl' w' :
  idle (pool cl) w -> try_targets now fetch req start targets first cl w = (r, cl', w') ->
  match r with Some resp => done_ resp (pool cl') w' | None => idle (pool cl') w' end.
Proof.
  revert first cl w. induction targets as [|ep targets IH]; intros first cl w Hi; cbn [try_targets].
  { by intros [= <- <- <-]. }
  destruct (CircuitBreaker.allow _ _ _ _) as [[] b]; cbn [negb]; [|apply IH; done].
  assert (forall (cl0 : Client C) w0 t0, idle (pool cl0) w0 ->
    try_targets now fetch req start targets false (on_failure now cl0 t0 ep first) w0 = (r, cl', w') ->
    match r with Some resp => done_ resp (pool cl') w' | None => idle (pool cl') w' end) as Hfail.
  { intros cl0 w0 t0 H0. apply IH. by destruct first. }
  cbn [pool set_breaker]. pose proof (acquire_rule (pool cl) w ep Hi) as Ha.
  destruct (ConnectionPool.acquire _ _ _ _) as [[[fd|] p1] w1]; [|by apply Hfail].
  pose proof (send_rule p1 w1 fd Ha) as Hs. destruct (tr_send w1 fd req) as [[] w2]; cbn [negb];
    [|apply Hfail; by apply discard_rule].
  pose proof (recv_rule p1 w2 fd Hs) as Hr. destruct (tr_recv w2 fd) as [[resp|] w3];
    [|apply Hfail; by apply discard_rule].
  cbn [pool set_pool]. pose proof (release_rule resp p1 w3 ep fd Hr) as Hd.
  destruct (ConnectionPool.release _ _ _ _ _) as [p2 w4].
  match goal with |- context [on_answer now fetch ?c ?w ?s ?f ?r] =>
    pose proof (on_answer_keeps c w s f r Hd); destruct (on_answer now fetch c w s f r) as [cl3 w5] end.
  by intros [= <- <- <-].
Qed.
End Rule.

(** C8: A client request tries the owner first and gives up in time.  For every
    client whose ring was built from its node list, and whatever the network and
    the clock do, [execute] goes through the distinct successors of the key in
    ring order, the owner first and at most [max_retries + 1] of them, skipping
    exactly the endpoints the circuit breaker refuses; the first answer it
    receives on a connection right after sending the request is what it returns,
    nothing is returned only when every endpoint was refused or failed, every
    failure and the success is reported to the breaker, and the counters say what
    happened. *)
Theorem execute_session {C W : Type} `{Transport W C} (now : W -> Z) fetch op key value
    (cl : Client C) (w : W) r cl' w' :
  topology_inv (topo cl) -> 0 <= max_retries (cfg cl) < 2 ^ 31 ->
  execute now fetch op key value cl w = (r, cl', w') ->
  head (targets_of cl key) = find_owner (topo cl) key /\
  Z.of_nat (length (targets_of cl key)) <= max_retries (cfg cl) + 1 /\
  requests_total (counters cl') = u64 (requests_total (counters cl) + 1) /\
  exists evs,
    session (breaker_config (cfg cl)) (exchange (C := C) (W := W) (mkRequest op key value)) (breaker cl)
      (targets_of cl key) evs r /\
    breaker cl' = CircuitBreaker.run (breaker_config (cfg cl)) (breaker cl) evs /\
    session_counters (count_total (counters cl)) evs true (bool_decide (is_Some r)) (counters cl').
Proof.
  intros Ht Hm E. unfold execute in E. cbv zeta in E.
  apply try_targets_session in E as (evs & Hs & Hb & Hc & Hn). simpl in *.
  assert (max_targets (cfg cl) = Z.to_nat (max_retries (cfg cl) + 1)) as Em.
  { unfold max_targets, u64. by rewrite (wrap_small 64 (max_retries _)), wrap_small by (split; lia). }
  split; [by apply find_successors_head|]. split.
  { pose proof (find_successors_length (topo cl) key (max_targets (cfg cl))) as Hl.
    unfold targets_of. rewrite Em in *. lia. }
  split; [by destruct Hn as [-> _]|]. exists evs. done.
Qed.

(** A client of one node, over a connection that delivers five bytes at a time. *)
Definition demo_ep : NodeEndpoint := mkEndpoint (lit "10.0.0.1") 7946 11211.
Definition demo_client : Client Z := set_topo (Client_new (default_config (lit "10.0.0.1"))) (set_nodes [demo_ep]).
Definition demo_net : ClientSockets.demo_world :=
  ClientSockets.mkDemo {[3]} 0 (serialize_response (mkResponse Ok (lit "v"))).

#[local] Existing Instances ClientSockets.demo_system ConnectionPool.fd_transport.

Lemma execute_session_witness :
  exists r cl' w', execute (fun _ => 0) ClientSockets.fetch_topology Get (lit "k") [] demo_client demo_net = (r, cl', w') /\
    Z.of_nat (length (targets_of demo_client (lit "k"))) <= 3.
Proof.
  destruct (execute (fun _ => 0) ClientSockets.fetch_topology Get (lit "k") [] demo_client demo_net)
    as [[r cl'] w'] eqn:E.
  exists r, cl', w'. split; [reflexivity|].
  destruct (execute_session (fun _ => 0) ClientSockets.fetch_topology Get (lit "k") [] demo_client demo_net r cl' w')
    as (_ & H & _); [reflexivity|split; reflexivity || discriminate|exact E|exact H].
Defined.

(** It answers, and keeps the connection. *)
Example demo_client_gets :
  let '(r, cl, w) := client_get (fun _ => 0) ClientSockets.fetch_topology (lit "k") demo_client demo_net in
  r = Some (lit "v") /\ ConnectionPool.idle_count (pool cl) = 1%nat /\ ClientSockets.demo_fds w = {[3; 7]}.
Proof. vm_compute. split_and!; reflexivity. Qed.
