(* ===== verification/ClientLifecycle.v ===== *)
(** * A client from construction to destruction
    ([src/src/sdk/pensieve_client.cpp] with [connection_pool.cpp] and
    [topology_manager.cpp])

    The client's calls on the descriptors of the system: what it opens is in its
    pool or closed, and its destructor closes the rest. *)

From S2P Require Import Prelude Message NodeInfo Stream Topology ClientSockets ConnectionPool PensieveClient.

Local Open Scope Z_scope.

(** ** The calls *)

Inductive client_call :=
  | CallConnect
  | CallGet (key : bytes)
  | CallPut (key value : bytes)
  | CallDel (key : bytes).

Section Calls.
Context {W : Type} `{System W} (now : W -> Z).

Definition client_step (s : Client Z * W) (c : client_call) : Client Z * W :=
  let '(cl, w) := s in
  match c with
  | CallConnect => let '(_, _, cl, w) := client_connect fetch_topology cl w in (cl, w)
  | CallGet key => let '(_, cl, w) := client_get now fetch_topology key cl w in (cl, w)
  | CallPut key value => let '(_, cl, w) := client_put now fetch_topology key value cl w in (cl, w)
  | CallDel key => let '(_, cl, w) := client_del now fetch_topology key cl w in (cl, w)
  end.

Definition client_calls (s : Client Z * W) (cs : list client_call) : Client Z * W := foldl client_step s cs.

(** [~PensieveClient]: of the members of [Impl] only the pool holds
    descriptors; the thread of the topology manager is joined as well. *)
Definition Client_destroy (cl : Client Z) (w : W) : W := ConnectionPool_destroy close w (pool cl).
End Calls.

(** ** Who owns what *)

Section Owners.
Context {W : Type} `{SystemLaws W}.
(** The descriptors of the rest of the program, and its address lists. *)
Context (others : gset Z) (n : Z).
Implicit Types (w : W) (fds : list Z).

(** The open descriptors are the others' and, once each, those of [fds]. *)
Definition owns fds w : Prop :=
  NoDup fds /\ (forall fd, fd ∈ fds -> fd ∉ others) /\ open_fds w = others ∪ list_to_set fds /\ lists w = n.

#[global] Instance owns_proper : Proper ((≡ₚ) ==> eq ==> iff) owns.
Proof.
  intros f1 f2 Hf w ? <-. unfold owns. rewrite Hf.
  assert ((forall fd, fd ∈ f1 -> fd ∉ others) <-> (forall fd, fd ∈ f2 -> fd ∉ others)) as ->; [|done].
  split; intros Ho fd Hfd; apply Ho; [by rewrite Hf|by rewrite <- Hf].
Qed.

Lemma owns_same fds w w' : same_resources w w' -> owns fds w -> owns fds w'.
Proof. intros [Ho Hl] (? & ? & ? & ?). unfold owns. rewrite Ho, Hl. done. Qed.

Lemma owns_open fds w w' fd :
  fd ∉ open_fds w -> open_fds w' = {[fd]} ∪ open_fds w -> lists w' = lists w -> owns fds w -> owns (fd :: fds) w'.
Proof.
  intros Hn Ho Hl (Hd & Hi & He & Hs). rewrite He in Hn. split_and!; [|set_solver..|congruence].
  apply NoDup_cons. set_solver.
Qed.

Lemma owns_close fds w fd : owns (fd :: fds) w -> owns fds (close w fd).
Proof.
  intros ([Hn Hd]%NoDup_cons & Hi & He & Hs). destruct (close_law w fd) as [Ho Hl].
  split_and!; [done|set_solver| |congruence]. rewrite Ho, He. cbn [list_to_set]. specialize (Hi fd (list_elem_of_here _ _)).
  set_solver.
Qed.

Lemma owns_close_all fds rest w : owns (fds ++ rest) w -> owns rest (foldl close w fds).
Proof. revert w. induction fds as [|fd fds IH]; intros w Hw; [done|]. apply IH. by apply owns_close. Qed.

Lemma owns_destroy (p : ConnectionPool Z) w : owns (pool_fds (pool_ p)) w -> owns [] (ConnectionPool_destroy close w p).
Proof.
  unfold ConnectionPool_destroy, close_idle, pool_fds. generalize (map_to_list (pool_ p)). intros l. revert w.
  induction l as [|[k q] l IH]; intros w Hw; [done|]. cbn [foldl fst snd]. apply IH. by apply owns_close_all.
Qed.

(** ** A request *)

Definition pool_owns (p : ConnectionPool Z) w : Prop := owns (pool_fds (pool_ p)) w.
Definition pool_lends (p : ConnectionPool Z) w (fd : Z) : Prop := owns (fd :: pool_fds (pool_ p)) w.

Lemma acquire_owns p w ep :
  pool_owns p w ->
  let '(r, p', w') := acquire tr_connect w p ep in
  match r with Some fd => pool_lends p' w' fd | None => pool_owns p' w' end.
Proof.
  unfold pool_owns, pool_lends, acquire. intros Hw. destruct (take_idle _ _) as [[fd pl]|] eqn:E.
  { cbn [pool_]. by rewrite <- (pool_fds_take _ _ _ _ E). }
  cbn [tr_connect fd_transport]. unfold pool_tcp_connect.
  pose proof (tcp_connect_owns w (ep_host ep) (ep_data_port ep)) as Hc.
  destruct (tcp_connect _ _ _) as [fd w1]. destruct Hc as [Hl Hc].
  case_decide; [by apply (owns_same _ w)|]. destruct Hc as [Hn Ho]. by apply (owns_open _ w).
Qed.

Lemma release_owns p w ep fd :
  pool_lends p w fd -> let '(p', w') := release tr_close w p ep fd in pool_owns p' w'.
Proof.
  unfold pool_owns, pool_lends, release. intros Hw. cbv zeta. case_decide; cbn [pool_].
  - rewrite pool_fds_touch. by apply owns_close.
  - by rewrite pool_fds_put.
Qed.

Lemma fd_send_request_keeps w fd req : same_resources w (fd_send_request w fd req).2.
Proof. apply send_loop_keeps. Qed.

Lemma fd_recv_response_keeps w fd : same_resources w (fd_recv_response w fd).2.
Proof.
  unfold fd_recv_response. pose proof (recv_loop_keeps sizeof_header w fd sizeof_header []) as Hr.
  unfold pool_recv_all, recv_all. destruct (recv_loop _ _ _ _ _) as [[raw|] w1]; [|done]. cbv zeta. case_decide; [|done].
  pose proof (recv_loop_keeps (Z.to_nat (rs_value_len (ResponseHeader_of_bytes raw))) w1 fd
    (Z.to_nat (rs_value_len (ResponseHeader_of_bytes raw))) []) as [Hp1 Hp2]. destruct Hr as [Hr1 Hr2].
  destruct (recv_loop _ _ _ _ _) as [[value|] w2]; cbn [snd] in *; split; congruence.
Qed.

Context (now : W -> Z).

Lemma execute_owns op key value (cl : Client Z) w :
  pool_owns (pool cl) w ->
  let '(_, cl', w') := execute now fetch_topology op key value cl w in pool_owns (pool cl') w'.
Proof.
  intros Hw. destruct (execute _ _ _ _ _ _ _) as [[r cl'] w'] eqn:E. unfold execute in E.
  eapply (try_targets_rule now _ fetch_topology pool_owns pool_lends pool_lends pool_lends (fun _ => pool_lends) (fun _ => pool_owns))
    in E; [by destruct r|..|done].
  - intros p w0 ep. apply acquire_owns.
  - intros p w0 fd Hl. pose proof (fd_send_request_keeps w0 fd (mkRequest op key value)) as Hs. cbn [tr_send fd_transport].
    destruct (fd_send_request _ _ _) as [[] w1]; by apply (owns_same _ w0).
  - intros p w0 fd Hl. pose proof (fd_recv_response_keeps w0 fd) as Hs. cbn [tr_recv fd_transport].
    destruct (fd_recv_response _ _) as [[] w1]; by apply (owns_same _ w0).
  - intros p w0 fd. apply owns_close.
  - intros _ p w0 ep fd. apply release_owns.
  - intros _ p w0 host port. apply owns_same, fetch_topology_keeps.
Qed.

Lemma client_connect_owns (cl : Client Z) w :
  pool_owns (pool cl) w ->
  let '(_, _, cl', w') := client_connect fetch_topology cl w in pool_owns (pool cl') w'.
Proof.
  intros Hw. unfold client_connect, bootstrap.
  pose proof (fetch_topology_keeps w (seed_host (cfg cl)) (seed_port (cfg cl))) as Hf.
  destruct (fetch_topology _ _ _) as [[nodes|] w1]; [case_decide|]; cbn [pool set_topo]; by apply (owns_same _ w).
Qed.

Lemma client_step_owns c (cl : Client Z) w :
  pool_owns (pool cl) w -> pool_owns (pool (client_step now (cl, w) c).1) (client_step now (cl, w) c).2.
Proof.
  intros Hw. destruct c as [|key|key value|key]; cbn [client_step].
  - pose proof (client_connect_owns cl w Hw). by destruct (client_connect _ _ _) as [[[? ?] ?] ?].
  - unfold client_get. pose proof (execute_owns Get key [] cl w Hw). by destruct (execute _ _ _ _ _ _ _) as [[? ?] ?].
  - unfold client_put. pose proof (execute_owns Put key value cl w Hw). by destruct (execute _ _ _ _ _ _ _) as [[? ?] ?].
  - unfold client_del. pose proof (execute_owns Del key [] cl w Hw). by destruct (execute _ _ _ _ _ _ _) as [[? ?] ?].
Qed.

Lemma client_calls_own cs (cl : Client Z) w :
  pool_owns (pool cl) w -> pool_owns (pool (client_calls now (cl, w) cs).1) (client_calls now (cl, w) cs).2.
Proof.
  revert cl w. induction cs as [|c cs IH]; intros cl w Hw; [done|]. cbn [client_calls foldl].
  pose proof (client_step_owns c cl w Hw) as Hs. destruct (client_step now (cl, w) c) as [cl1 w1]. by apply IH.
Qed.
End Owners.

(** C27: A client leaks nothing.  Whatever calls are made on a client, and
    whatever the resolver, the sockets, the nodes and the clock do during them,
    the descriptors open afterwards are those that were open before and, each of
    them once, the idle ones of its pool; the destructor closes exactly these,
    and every address list is freed. *)
Theorem client_leaks_nothing {W : Type} `{SystemLaws W} (now : W -> Z) c (cs : list client_call) (w : W) :
  let '(cl, w') := client_calls now (Client_new c, w) cs in
  NoDup (pool_fds (pool_ (pool cl))) /\
  (forall fd, fd ∈ pool_fds (pool_ (pool cl)) -> fd ∉ open_fds w) /\
  open_fds w' = open_fds w ∪ list_to_set (pool_fds (pool_ (pool cl))) /\ lists w' = lists w /\
  open_fds (Client_destroy cl w') = open_fds w /\ lists (Client_destroy cl w') = lists w.
Proof.
  assert (pool_owns (open_fds w) (lists w) (pool (Client_new c)) w) as Hw.
  { split_and!; [apply NoDup_nil_2|set_solver|set_solver|done]. }
  pose proof (client_calls_own (open_fds w) (lists w) now cs _ _ Hw) as Ho.
  destruct (client_calls now (Client_new c, w) cs) as [cl w']. cbn [fst snd] in Ho.
  destruct (owns_destroy (open_fds w) (lists w) _ _ Ho) as (_ & _ & Hd & Hl). destruct Ho as (H1 & H2 & H3 & H4).
  split_and!; [done..|unfold Client_destroy; rewrite Hd; set_solver|done].
Qed.

(** A client that learns a topology from a node that then falls silent. *)
Lemma client_leaks_nothing_witness :
  let '(cl, w') := client_calls (fun _ => 0) (Client_new (default_config (lit "10.0.0.1")), demo_online)
    [CallConnect; CallGet (lit "k")] in
  open_fds (Client_destroy cl w') = {[3]}.
Proof.
  pose proof (client_leaks_nothing (fun _ => 0) (default_config (lit "10.0.0.1"))
    [CallConnect; CallGet (lit "k")] demo_online) as H.
  destruct (client_calls _ _ _) as [cl w']. exact (proj1 (proj2 (proj2 (proj2 (proj2 H))))).
Defined.
