(* ===== verification/Cluster.v ===== *)
(** * Clients and nodes together

    What a client gets from a node is what the node has: the topology it
    fetches, the routing it derives from it, and the answer to a request. *)

From stdpp Require Import relations.
From S2P Require Import Prelude NodeInfo OrderedMap Codec KVStore.
From S2P Require Import SwimMessage MemberList Disseminator SwimProtocol Node.
From S2P Require Import Message Stream Topology ConnectionPool Coordinator.
From S2P Require RingStore LocalStore.

Local Open Scope Z_scope.

(** ** The topology *)

Definition member_endpoint (p : NodeId * NodeInfo) : NodeEndpoint :=
  mkEndpoint (host p.1) (gossip_port p.1) (data_port p.2).

Definition alive_endpoints (m : members) : list NodeEndpoint := member_endpoint <$> alive_members m.

(** Every field fits its place on the wire. *)
Definition cluster_wf (m : members) : Prop :=
  Forall endpoint_wf (alive_endpoints m) /\ in_width 16 (Z.of_nat (length (alive_endpoints m))).

Lemma member_bytes_endpoint p : endpoint_wf (member_endpoint p) -> member_bytes p = endpoint_bytes (member_endpoint p).
Proof.
  destruct p as [x n]. intros (Hh & _). unfold member_bytes, endpoint_bytes. simpl in *.
  unfold u16. rewrite wrap_small by done. by rewrite Nat2Z.id, firstn_all.
Qed.

Lemma cluster_info_payload m :
  cluster_wf m ->
  resp_value (serve_cluster_info m) =
    le_encode 2 (Z.of_nat (length (alive_endpoints m))) ++ concat (endpoint_bytes <$> alive_endpoints m).
Proof.
  unfold cluster_wf, alive_endpoints. rewrite length_fmap. intros [Hwf Hn]. unfold serve_cluster_info. simpl.
  unfold u16. rewrite wrap_small by done. do 2 f_equal. rewrite <- list_fmap_compose.
  apply list_fmap_ext. intros i p Hp. apply member_bytes_endpoint.
  rewrite Forall_fmap, Forall_forall in Hwf. apply Hwf. by eapply list_elem_of_lookup_2.
Qed.

Lemma elem_of_alive_endpoints m ep :
  ep ∈ alive_endpoints m <->
  exists n, m !! ep_node ep = Some n /\ state n = NodeState_Alive /\ ep_data_port ep = data_port n.
Proof.
  unfold alive_endpoints, alive_members. rewrite list_elem_of_fmap. split.
  - intros ([x n] & -> & [Hs Hx%elem_of_map_to_list]%list_elem_of_filter). exists n.
    destruct x. by split_and!.
  - intros (n & Hn & Hs & Hp). exists (ep_node ep, n). destruct ep. simpl in *. subst. split; [done|].
    apply list_elem_of_filter. by split; [|apply elem_of_map_to_list].
Qed.

Lemma NoDup_alive_endpoints m : NoDup (ep_node <$> alive_endpoints m).
Proof.
  unfold alive_endpoints. rewrite <- list_fmap_compose.
  assert (ep_node ∘ member_endpoint <$> alive_members m = (alive_members m).*1) as ->.
  { apply list_fmap_ext. intros i [[h p] n] _. done. }
  unfold alive_members. apply (sublist_NoDup _ (map_to_list m).*1); [apply NoDup_fst_map_to_list|]. apply fmap_sublist, sublist_filter.
Qed.

(** C19: A client learns the topology a node serves.  Whatever pieces the reply
    arrives in, [fetch_topology] on a connection where the node's answer to
    ClusterInfo arrives returns exactly the alive members of that node with their
    ports, provided the counts and lengths fit their 16- and 32-bit fields. *)
Theorem fetch_topology_serves {C : Type} `{StreamLaws C} (connect : bytes -> Z -> option C) host port c m rest :
  (forall c n, inbox c <> [] -> (0 < n)%nat -> is_Some (recv c n)) ->
  (forall c bs, bs <> [] -> is_Some (send c bs)) ->
  cluster_wf m -> Z.of_nat (length (resp_value (serve_cluster_info m))) < 2 ^ 32 ->
  connect host port = Some c -> inbox c = serialize_response (serve_cluster_info m) ++ rest ->
  fetch_topology connect host port = Some (alive_endpoints m).
Proof.
  intros Hr Hw Hm Hlen Hc Hi. unfold fetch_topology. rewrite Hc. cbn [mbind option_bind].
  destruct (write_all_ok c (RequestHeader_bytes (mkRequestHeader ClusterInfo x00 0 0)) Hw) as (c1 & E1 & _ & Hi1).
  rewrite E1. cbn [mbind option_bind]. rewrite Hi in Hi1.
  assert (Response_wf (serve_cluster_info m)) as Hwf by done.
  destruct (recv_response_serialized c1 _ _ Hr Hwf Hi1) as (c2 & E2 & _).
  unfold recv_response in E2. apply bind_Some in E2 as ([raw c3] & E3 & E2). rewrite E3. cbn [mbind option_bind].
  apply bind_Some in E2 as ([payload c4] & E4 & E5).
  apply (inj Some), pair_equal_spec in E5 as [Er _].
  pose proof (f_equal resp_status Er) as Est. pose proof (f_equal resp_value Er) as Ev. cbn [resp_status resp_value] in Est, Ev.
  rewrite decide_False by (rewrite Est; by intros []).
  rewrite E4. cbn [mbind option_bind]. rewrite Ev, cluster_info_payload by done. apply parse_topology_bytes; apply Hm.
Qed.

(** ** Routing *)

(** C16: Clients route like nodes.  At any moment in the life of a node, when no
    two of its members share a token and none of them is merely suspected, a
    client that holds the topology the node serves routes every key exactly as
    the node does: the same owner, the same successors in the same order, and the
    data port the node would use to reach it. *)
Theorem client_routes_like_node sort now self data_port seed s key n :
  swim_steps sync_ring sort self (node_config data_port) (boot now self data_port seed) s ->
  collision_free (members_ s) ->
  (forall x info, members_ s !! x = Some info -> state info <> NodeState_Suspect) ->
  let t := set_nodes (alive_endpoints (members_ s)) in
  ep_node <$> find_owner t key = RingStore.get_node_for_key (env_ s) (hash_key key) /\
  ep_node <$> find_successors t key n = RingStore.get_n_nodes_for_key (env_ s) (hash_key key) n /\
  (forall ep, find_owner t key = Some ep ->
     exists info, members_ s !! ep_node ep = Some info /\ ep_data_port ep = NodeInfo.data_port info).
Proof.
  intros Hsteps Hcf Hns t. destruct (node_ring _ _ _ _ _ _ Hsteps) as [Hsound Hcomplete].
  specialize (Hcomplete Hcf).
  assert (tokens_disjoint (alive_endpoints (members_ s))) as Hd.
  { intros i j ep ep' tok Hi Hj Ht Ht'.
    pose proof (proj1 (elem_of_alive_endpoints _ _) (list_elem_of_lookup_2 _ _ _ Hi)) as (n1 & H1 & _).
    pose proof (proj1 (elem_of_alive_endpoints _ _) (list_elem_of_lookup_2 _ _ _ Hj)) as (n2 & H2 & _).
    assert (ep_node ep = ep_node ep') as E by (apply (Hcf _ _ tok); eauto).
    eapply (NoDup_lookup _ _ _ (ep_node ep) (NoDup_alive_endpoints (members_ s)));
      rewrite list_lookup_fmap; [rewrite Hi|rewrite Hj, E]; done. }
  assert (forall tok x, env_ s !! tok = Some x <->
    exists ep, ep ∈ alive_endpoints (members_ s) /\ ep_node ep = x /\ tok ∈ ep_tokens ep) as HR.
  { intros tok x. split.
    - intros Ht. destruct (Hsound tok x Ht) as [Htok (info & Hx & Hst)]. simpl in Hx.
      exists (member_endpoint (x, info)). rewrite elem_of_alive_endpoints. destruct x as [h p]. simpl in *.
      split; [|done]. exists info. split; [done|]. split; [|done]. destruct Hst as [|Hst]; [done|].
      by destruct (Hns _ _ Hx).
    - intros (ep & (info & Hx & Hst & _)%elem_of_alive_endpoints & <- & Ht). by apply (Hcomplete _ info). }
  split; [by apply find_owner_agrees|]. split; [by apply find_successors_agrees|].
  intros ep Ho. unfold find_owner in Ho. cbv zeta in Ho. case_decide; [done|].
  apply bind_Some in Ho as (i & _ & Hi). apply list_elem_of_lookup_2, elem_of_alive_endpoints in Hi as (info & ? & _ & ?).
  eauto.
Qed.

Lemma client_routes_like_node_witness :
  ep_node <$> find_owner (set_nodes (alive_endpoints (members_ demo_node))) (lit "user:42") =
    RingStore.get_node_for_key (env_ demo_node) (hash_key (lit "user:42")).
Proof.
  apply (client_routes_like_node count_sort 0 id_a 11211 (Some (id_b, 11211)) demo_node (lit "user:42") 1
    (rtc_refl _ _) demo_node_collision_free).
  unfold demo_node. rewrite boot_members_seed by (vm_compute; discriminate).
  intros x info [[_ <-]|[_ [[_ <-]|[_ Hx]]%lookup_insert_Some]]%lookup_insert_Some; [discriminate..|].
  rewrite lookup_empty in Hx. discriminate Hx.
Defined.

(** One alive member, served over a connection in pieces of three bytes. *)
Definition demo_cluster : members := {[id_a := mkNodeInfo id_a 11211 NodeState_Alive 0 0]}.

Lemma fetch_topology_serves_witness :
  fetch_topology (fun _ _ => Some (mkPipe 2 (serialize_response (serve_cluster_info demo_cluster)) []))
    (lit "10.0.0.1") 11211 = Some [mkEndpoint (lit "10.0.0.1") 7946 11211].
Proof.
  refine (fetch_topology_serves _ _ _ (mkPipe 2 (serialize_response (serve_cluster_info demo_cluster)) [])
    demo_cluster [] pipe_recv_live pipe_send_live _ _ eq_refl _).
  - split; [|vm_compute; split; [discriminate|reflexivity]].
    change (Forall endpoint_wf [mkEndpoint (lit "10.0.0.1") 7946 11211]). apply Forall_singleton.
    split; [|split]; vm_compute; (split; [discriminate|reflexivity]).
  - vm_compute. reflexivity.
  - symmetry. apply app_nil_r.
Defined.

(** ** A request from end to end *)

(** C7: What a client asks is what the node does, and what the node answers is
    what the client gets.  For every request that fits the protocol, sent over a
    connection that may cut the bytes anywhere: the node reads exactly that
    request, its store executes exactly the operation the request names, and the
    client receives exactly the result, with nothing left over on either side. *)
Theorem request_end_to_end {C St : Type} `{StreamLaws C, KVStore St} (client : C) (st : St) req op :
  (forall c n, inbox c <> [] -> (0 < n)%nat -> is_Some (recv c n)) ->
  (forall c bs, bs <> [] -> is_Some (send c bs)) ->
  Request_wf req -> op_of req = Some op -> Response_wf (response_of op (kv_exec st op).1) ->
  exists sent_req, ConnectionPool.send_request client req = Some sent_req /\
  forall node : C, outbox client ++ inbox node = outbox sent_req ->
  exists got_req answered,
    read_request node = Some (req, got_req) /\ inbox got_req = [] /\
    serve_local st req = (response_of op (kv_exec st op).1, (kv_exec st op).2) /\
    write_response got_req (response_of op (kv_exec st op).1) = Some answered /\
  forall back : C, outbox node ++ inbox back = outbox answered ->
  exists finished, recv_response back = Some (response_of op (kv_exec st op).1, finished) /\ inbox finished = [].
Proof.
  intros Hr Hw Hreq Hop Hresp. set (resp := response_of op (kv_exec st op).1) in *.
  destruct (write_all_ok client (serialize_request req) Hw) as (c1 & E1 & Ho1 & _).
  exists c1. split; [done|]. intros node Hn. rewrite Ho1 in Hn. apply app_inv_head in Hn.
  destruct (read_request_serialized node req [] Hr Hreq) as (n1 & En1 & Hi1 & Hon1); [by rewrite app_nil_r|].
  destruct (write_all_ok n1 (serialize_response resp) Hw) as (n2 & En2 & Ho2 & _).
  exists n1, n2. rewrite write_response_serialized. split_and!; [done|done| |done|].
  - by rewrite serve_local_exec, Hop.
  - intros back Hb. rewrite Ho2, Hon1 in Hb. apply app_inv_head in Hb.
    destruct (recv_response_serialized back resp [] Hr Hresp) as (b1 & Eb & Hib & _); [by rewrite app_nil_r|].
    by exists b1.
Qed.

#[local] Existing Instance LocalStore.LocalStore_KVStore.

Lemma request_end_to_end_witness :
  let req := mkRequest Get (lit "missing") [] in
  exists sent_req, ConnectionPool.send_request (mkPipe 0 [] []) req = Some sent_req /\
    exists got_req, read_request (mkPipe 4 (serialize_request req) []) = Some (req, got_req) /\ inbox got_req = [].
Proof.
  destruct (request_end_to_end (mkPipe 0 [] []) LocalStore.demo_store (mkRequest Get (lit "missing") [])
    (OGet (lit "missing")) pipe_recv_live pipe_send_live) as (sent_req & E & H).
  - split; [reflexivity|]. split; vm_compute; reflexivity.
  - reflexivity.
  - vm_compute. split; reflexivity.
  - exists sent_req. split; [exact E|].
    destruct (H (mkPipe 4 (serialize_request (mkRequest Get (lit "missing") [])) [])) as (g & a & Hg & Hi & _).
    + vm_compute in E. injection E as <-. vm_compute. reflexivity.
    + exists g. split; [exact Hg|exact Hi].
Defined.
