(* ===== verification/Args.v ===== *)
(** * Numbers and addresses on command lines

    [std::stoi] and [std::stoul] as the programs use them on their arguments,
    and the [HOST:PORT] syntax of [parse_seed] ([src/src/sdk/cli.cpp],
    [src/src/sdk/benchmark.cpp], and the same text in [src/src/main.cpp]).
    [None] is the exception the standard functions throw, which no caller
    catches. *)

From S2P Require Import Prelude NodeInfo.

Local Open Scope Z_scope.

(** ** Decimal numbers *)

#[export] Instance is_digit_dec b : Decision (is_digit b).
Proof. unfold is_digit. apply _. Defined.

(** [isspace] of the C locale. *)
Definition is_space (b : byte) : Prop := 9 <= byte_to_Z b <= 13 \/ byte_to_Z b = 32.

#[export] Instance is_space_dec b : Decision (is_space b).
Proof. unfold is_space. apply _. Defined.

Fixpoint skip_spaces (s : bytes) : bytes :=
  match s with
  | b :: s' => if decide (is_space b) then skip_spaces s' else s
  | [] => []
  end.

(** The digits at the front and their value; [None] when there are none. *)
Fixpoint digits_value (acc : Z) (s : bytes) : Z :=
  match s with
  | b :: s => if decide (is_digit b) then digits_value (acc * 10 + (byte_to_Z b - 48)) s else acc
  | [] => acc
  end.

Definition read_digits (s : bytes) : option Z :=
  match s with
  | b :: _ => if decide (is_digit b) then Some (digits_value 0 s) else None
  | [] => None
  end.

(** White space, a sign, digits: [true] for a minus sign. *)
Definition strto (s : bytes) : option (bool * Z) :=
  match skip_spaces s with
  | (b :: s') as s0 =>
      if decide (b = "-"%byte) then pair true <$> read_digits s'
      else if decide (b = "+"%byte) then pair false <$> read_digits s'
      else pair false <$> read_digits s0
  | [] => None
  end.

Definition stoi (s : bytes) : option Z :=
  '(neg, v) ← strto s;
  let z := if neg : bool then - v else v in
  if decide (- 2 ^ 31 <= z < 2 ^ 31) then Some z else None.

(** A minus sign negates in the unsigned type. *)
Definition stoul (s : bytes) : option Z :=
  '(neg, v) ← strto s;
  if decide (v < 2 ^ 64) then Some (if neg : bool then u64 (- v) else v) else None.

(** ** [HOST:PORT] *)

(** The index of the last occurrence. *)
Fixpoint rfind (c : byte) (s : bytes) : option nat :=
  match s with
  | [] => None
  | b :: s =>
      match rfind c s with
      | Some i => Some (S i)
      | None => if decide (b = c) then Some 0%nat else None
      end
  end.

Definition parse_seed (seed : bytes) : option (bytes * Z) :=
  match rfind ":"%byte seed with
  | None => Some (seed, 11211)
  | Some colon =>
      p ← stoi (drop (S colon) seed);
      Some (take colon seed, u16 p)
  end.

(** ** Facts *)

Lemma digit_not_space b : is_digit b -> ~ is_space b.
Proof. unfold is_digit, is_space. lia. Qed.

Lemma digits_value_app acc s :
  Forall is_digit s -> digits_value acc s = foldl (fun a b => a * 10 + (byte_to_Z b - 48)) acc s.
Proof.
  revert acc. induction s as [|b s IH]; intros acc; simpl; [done|].
  intros [Hb Hs]%Forall_cons. rewrite decide_True by done. by apply IH.
Qed.

Lemma pretty_N_char_value n : (n < 10)%N -> byte_to_Z (Ascii.byte_of_ascii (pretty.pretty_N_char n)) - 48 = Z.of_N n.
Proof.
  intros Hn. destruct n as [|p]; [done|]. do 9 (destruct p as [p|p|]; try done; try lia).
Qed.

Lemma pretty_N_go_value n s :
  foldl (fun a b => a * 10 + (byte_to_Z b - 48)) 0 (lit (pretty.pretty_N_go n s)) =
  foldl (fun a b => a * 10 + (byte_to_Z b - 48)) (Z.of_N n) (lit s).
Proof.
  revert s. induction (N.lt_wf_0 n) as [n _ IH]; intros s.
  destruct (decide (n = 0)%N) as [->|]; [by rewrite pretty.pretty_N_go_0|].
  rewrite pretty.pretty_N_go_step by lia. rewrite IH by (apply N.div_lt; lia).
  rewrite lit_cons. cbn [foldl]. f_equal. rewrite pretty_N_char_value by (apply N.mod_lt; lia).
  rewrite N2Z.inj_div, N2Z.inj_mod. pose proof (Z.div_mod (Z.of_N n) 10). lia.
Qed.

Lemma format_uint_value z :
  0 <= z -> foldl (fun a b => a * 10 + (byte_to_Z b - 48)) 0 (format_uint z) = z.
Proof.
  intros Hz. unfold format_uint, pretty.pretty_N. case_decide as E.
  - vm_compute. lia.
  - rewrite pretty_N_go_value. simpl. lia.
Qed.

Lemma format_uint_ne z : format_uint z <> [].
Proof.
  unfold format_uint, pretty.pretty_N. case_decide; [done|].
  assert (forall m s, lit s <> [] \/ (m <> 0)%N -> lit (pretty.pretty_N_go m s) <> []) as Hg; [|apply Hg; by right].
  intros m. induction (N.lt_wf_0 m) as [m _ IH]; intros s Hs.
  destruct (decide (m = 0)%N) as [->|]; [rewrite pretty.pretty_N_go_0; naive_solver|].
  rewrite pretty.pretty_N_go_step by lia. apply IH; [apply N.div_lt; lia|]. by left.
Qed.

Lemma strto_format_uint z : 0 <= z -> strto (format_uint z) = Some (false, z).
Proof.
  intros Hz. pose proof (format_uint_value z Hz) as Hv. pose proof (format_uint_digits z) as Hd.
  pose proof (format_uint_ne z) as Hne. unfold strto. destruct (format_uint z) as [|b s]; [done|].
  pose proof (Forall_inv Hd) as Hb. cbn [skip_spaces]. rewrite decide_False by by apply digit_not_space.
  rewrite decide_False by (intros ->; vm_compute in Hb; by destruct Hb).
  rewrite decide_False by (intros ->; vm_compute in Hb; by destruct Hb).
  unfold read_digits. rewrite decide_True by done. rewrite digits_value_app by done. by rewrite Hv.
Qed.

Lemma stoi_format_uint z : 0 <= z < 2 ^ 31 -> stoi (format_uint z) = Some z.
Proof.
  intros Hz. unfold stoi. rewrite strto_format_uint by lia. cbn [mbind option_bind]. by rewrite decide_True by lia.
Qed.

Lemma stoul_format_uint z : 0 <= z < 2 ^ 64 -> stoul (format_uint z) = Some z.
Proof.
  intros Hz. unfold stoul. rewrite strto_format_uint by lia. cbn [mbind option_bind]. by rewrite decide_True by lia.
Qed.

Lemma rfind_None c s : c ∉ s -> rfind c s = None.
Proof.
  induction s as [|b s IH]; simpl; [done|]. intros [Hb Hs]%not_elem_of_cons. rewrite IH by done.
  by rewrite decide_False by done.
Qed.

Lemma rfind_app c a s : c ∉ s -> rfind c (a ++ c :: s) = Some (length a).
Proof.
  intros Hs. induction a as [|b a IH]; simpl; [|by rewrite IH].
  rewrite rfind_None by done. by rewrite decide_True.
Qed.

Lemma digits_no_colon s : Forall is_digit s -> ":"%byte ∉ s.
Proof. rewrite Forall_forall. intros H Hin. apply H in Hin. vm_compute in Hin. by destruct Hin. Qed.

(** The seed syntax round-trips.  A host name, a colon and a port number
    printed in decimal are read back as that host (which may contain colons
    itself) and that port; a larger number is not refused but taken modulo
    65536. *)
Theorem parse_seed_format h n :
  0 <= n < 2 ^ 31 -> parse_seed (h ++ lit ":" ++ format_uint n) = Some (h, n mod 65536).
Proof.
  intros Hn. unfold parse_seed. change (lit ":" ++ format_uint n) with (":"%byte :: format_uint n).
  rewrite rfind_app by apply digits_no_colon, format_uint_digits.
  rewrite drop_app_ge by lia. replace (S (length h) - length h)%nat with 1%nat by lia. cbn [drop].
  rewrite drop_0, stoi_format_uint by done. simpl. by rewrite take_app_length.
Qed.

Lemma parse_seed_format_witness : parse_seed (lit "::1" ++ lit ":" ++ format_uint 70000) = Some (lit "::1", 4464).
Proof. apply (parse_seed_format (lit "::1") 70000). lia. Defined.

(** Without a colon the port is the default. *)
Lemma parse_seed_default h : ":"%byte ∉ h -> parse_seed h = Some (h, 11211).
Proof. intros Hh. unfold parse_seed. by rewrite rfind_None. Qed.

(** A colon without a number throws. *)
Example parse_seed_no_port : parse_seed (lit "localhost:") = None.
Proof. reflexivity. Qed.
