(* ===== verification/Cli.v ===== *)
(** * The command-line client ([src/src/sdk/cli.cpp])

    One command per run.  A run is the exit code, what it prints on standard
    output, and the world after it; [None] is an uncaught exception. *)

From S2P Require Import Prelude NodeInfo Topology Args.
From S2P Require PensieveClient.

Local Open Scope Z_scope.

(** [argv[i]], in range by the checks on [argc]. *)
Definition arg (argv : list bytes) (i : nat) : bytes := default [] (argv !! i).

(** The loop over the arguments from index [i]: the last [--seed] wins. *)
Fixpoint scan_args (args : list bytes) (i : nat) (seed_str : bytes) (cmd_start : nat) : bytes * nat :=
  match args with
  | a :: ((b :: args) as rest) =>
      if decide (a = lit "--seed") then scan_args args (i + 2) b (i + 2)
      else scan_args rest (i + 1) seed_str cmd_start
  | _ => (seed_str, cmd_start)
  end.

(** [cluster_info] of the client: the endpoints as text. *)
Definition endpoint_line (ep : NodeEndpoint) : bytes :=
  lit "  " ++ ep_host ep ++ lit ":" ++ format_uint (ep_data_port ep) ++
  lit " (gossip " ++ format_uint (ep_gossip_port ep) ++ lit ")" ++ [x0a].

Definition cluster_info (endpoints : list NodeEndpoint) : bytes :=
  lit "Cluster: " ++ format_uint (Z.of_nat (length endpoints)) ++ lit " node(s)" ++ [x0a] ++
  concat (endpoint_line <$> endpoints).

Definition stats_text (s : PensieveClient.Stats) : bytes :=
  lit "requests_total:   " ++ format_uint (PensieveClient.requests_total s) ++ [x0a] ++
  lit "requests_direct:  " ++ format_uint (PensieveClient.requests_direct s) ++ [x0a] ++
  lit "requests_retried: " ++ format_uint (PensieveClient.requests_retried s) ++ [x0a] ++
  lit "ring_refreshes:   " ++ format_uint (PensieveClient.ring_refreshes s) ++ [x0a] ++
  lit "circuit_breaks:   " ++ format_uint (PensieveClient.circuit_breaks s) ++ [x0a] ++
  lit "last_latency_us:  " ++ format_uint (PensieveClient.last_latency_us s) ++ [x0a].

Section Cli.
(** The client library, on a client [W]. *)
Context {W : Type}.
Context (get : bytes -> W -> option bytes * W) (put : bytes -> bytes -> W -> bool * W).
Context (del : bytes -> W -> bool * W) (endpoints : W -> list NodeEndpoint) (stats : W -> PensieveClient.Stats).
(** Construct a client for a seed and connect it. *)
Context (connect : bytes -> Z -> bool * W).

Definition outcome : Type := Z * bytes * W.

Definition cmd_get (argv : list bytes) (cmd_start : nat) (w : W) : outcome :=
  if decide (length argv <= cmd_start + 1)%nat then (1, [], w) else
  let '(val, w) := get (arg argv (cmd_start + 1)) w in
  match val with
  | Some v => (0, lit "OK: " ++ v ++ [x0a], w)
  | None => (0, lit "NOT_FOUND" ++ [x0a], w)
  end.

Definition cmd_put (argv : list bytes) (cmd_start : nat) (w : W) : outcome :=
  if decide (length argv <= cmd_start + 2)%nat then (1, [], w) else
  let '(ok, w) := put (arg argv (cmd_start + 1)) (arg argv (cmd_start + 2)) w in
  (if ok : bool then 0 else 1, (if ok then lit "OK" else lit "ERROR") ++ [x0a], w).

Definition cmd_del (argv : list bytes) (cmd_start : nat) (w : W) : outcome :=
  if decide (length argv <= cmd_start + 1)%nat then (1, [], w) else
  let '(ok, w) := del (arg argv (cmd_start + 1)) w in
  (if ok : bool then 0 else 1, (if ok then lit "OK" else lit "NOT_FOUND") ++ [x0a], w).

Definition cmd_info (w : W) : outcome := (0, cluster_info (endpoints w), w).
Definition cmd_stats (w : W) : outcome := (0, stats_text (stats w), w).

(** The table of commands; [None] for an unknown name. *)
Definition run_command (name : bytes) (argv : list bytes) (cmd_start : nat) (w : W) : option outcome :=
  if decide (name = lit "get") then Some (cmd_get argv cmd_start w)
  else if decide (name = lit "put") then Some (cmd_put argv cmd_start w)
  else if decide (name = lit "del") then Some (cmd_del argv cmd_start w)
  else if decide (name = lit "info") then Some (cmd_info w)
  else if decide (name = lit "stats") then Some (cmd_stats w)
  else None.

(** [main]: [Some (code, text, client)], the client absent when it was not
    constructed. *)
Definition cli_main (argv : list bytes) : option (Z * bytes * option W) :=
  if decide (length argv < 4)%nat then Some (1, [], None) else
  let '(seed_str, cmd_start) := scan_args (drop 1 argv) 1 [] 1 in
  if decide (seed_str = []) then Some (1, [], None) else
  if decide (length argv <= cmd_start)%nat then Some (1, [], None) else
  '(host, port) ← parse_seed seed_str;
  let '(connected, w) := connect host port in
  if negb connected then Some (1, [], Some w) else
  match run_command (arg argv cmd_start) argv cmd_start w with
  | None => Some (1, [], Some w)
  | Some (code, text, w) => Some (code, text, Some w)
  end.

Lemma scan_none rest i seed j : lit "--seed" ∉ rest -> scan_args rest i seed j = (seed, j).
Proof.
  revert i. induction rest as [|a rest IH]; intros i Hr; [done|]. apply not_elem_of_cons in Hr as [Ha Hr].
  destruct rest as [|b rest]; [done|]. cbn [scan_args]. rewrite decide_False by done. by apply IH.
Qed.

(** A command after the seed. *)
Lemma scan_seed prog seed rest :
  lit "--seed" ∉ rest ->
  scan_args (drop 1 (prog :: lit "--seed" :: seed :: rest)) 1 [] 1 = (seed, 3%nat).
Proof. intros Hr. cbn [drop scan_args]. rewrite decide_True by done. by apply scan_none. Qed.

End Cli.

