(* ===== verification/Main.v ===== *)
(** * Starting a node ([src/src/main.cpp])

    The environment and the arguments become the configuration the node boots
    with.  [None] is the exception of a number that does not parse. *)

From stdpp Require Import relations.
From S2P Require Import Prelude NodeInfo OrderedMap Args.
From S2P Require Import SwimMessage MemberList Disseminator SwimProtocol Node.
From S2P Require RingStore SlabAllocator LocalStore BufferPool.

Local Open Scope Z_scope.

Record NodeArgs := mkNodeArgs {
  arg_host : bytes;
  arg_data_port : Z;
  arg_gossip_port : Z;
  arg_memory_mb : Z;
  arg_seed : bytes;
  arg_seed_data_port : Z
}.

Section Main.
(** The environment, and name resolution: the address of a name, [None] when it
    cannot be resolved. *)
Context (getenv : bytes -> option bytes) (is_address : bytes -> bool) (resolve : bytes -> option bytes).

Definition env_or (name fallback : bytes) : bytes := default fallback (getenv name).

(** An argument or its default. *)
Definition arg_or (argv : list bytes) (i : nat) (fallback : bytes) : bytes := default fallback (argv !! i).

Definition resolve_host (host : bytes) : bytes :=
  if is_address host then host else default host (resolve host).

Definition node_args (argv : list bytes) : option NodeArgs :=
  let host := env_or (lit "PENSIEVE_HOST") (arg_or argv 1 (lit "0.0.0.0")) in
  data_port ← u16 <$> stoi (env_or (lit "PENSIEVE_DATA_PORT") (arg_or argv 2 (lit "11211")));
  gossip_port ← u16 <$> stoi (env_or (lit "PENSIEVE_GOSSIP_PORT") (arg_or argv 3 (lit "7946")));
  memory_mb ← stoul (env_or (lit "PENSIEVE_MEMORY_MB") (arg_or argv 4 (lit "64")));
  let seed_str := env_or (lit "PENSIEVE_SEED") (arg_or argv 5 []) in
  seed_data_port ← u16 <$> stoi (env_or (lit "PENSIEVE_SEED_DATA_PORT") (format_uint data_port));
  Some (mkNodeArgs (resolve_host host) data_port gossip_port memory_mb seed_str seed_data_port).

(** The seed of the cluster: its gossip port defaults to the node's own. *)
Definition seed_node (a : NodeArgs) : option (option (NodeId * Z)) :=
  if decide (arg_seed a = []) then Some None else
  match rfind ":"%byte (arg_seed a) with
  | Some colon =>
      p ← u16 <$> stoi (drop (S colon) (arg_seed a));
      Some (Some (mkNodeId (resolve_host (take colon (arg_seed a))) p, arg_seed_data_port a))
  | None => Some (Some (mkNodeId (resolve_host (arg_seed a)) (arg_gossip_port a), arg_seed_data_port a))
  end.

(** The state of the node when the event loop starts. *)
Definition node_start (argv : list bytes) (now : Z) : option (NodeId * Config * NodeSt) :=
  a ← node_args argv;
  seed ← seed_node a;
  let self := mkNodeId (arg_host a) (arg_gossip_port a) in
  Some (self, node_config (arg_data_port a), boot now self (arg_data_port a) seed).

(** The store: [memory_mb] megabytes in [size_t] arithmetic, 16 shards. *)
Definition node_store (mmap : Z -> bool -> option Z) (a : NodeArgs) : SlabAllocator.exn + LocalStore.LocalStore :=
  match SlabAllocator.Arena_new mmap (u64 (u64 (arg_memory_mb a * 1024) * 1024)) with
  | inl e => inl e
  | inr arena => inr (LocalStore.LocalStore_new arena 16)
  end.
End Main.

(** The defaults. *)
Example node_args_default :
  node_args (fun _ => None) (fun _ => true) (fun _ => None) [lit "pensieve"] =
    Some (mkNodeArgs (lit "0.0.0.0") 11211 7946 64 [] 11211).
Proof. vm_compute. reflexivity. Qed.
