(* ===== verification/Benchmark.v ===== *)
(** * The benchmark ([src/src/sdk/benchmark.cpp])

    The keys are split among worker threads, each with a client of its own; the
    reports merge their latencies, sort them and put them in buckets. *)

From stdpp Require Import sorting.
From S2P Require Import Prelude NodeInfo Args.

Local Open Scope Z_scope.

Record BenchConfig := mkBenchConfig {
  bc_seed_host : bytes;
  bc_seed_port : Z;
  bc_num_keys : Z;
  bc_value_size : Z;
  bc_wait_secs : Z;
  bc_threads : Z;
  bc_output_file : bytes
}.

Definition BenchConfig_default : BenchConfig := mkBenchConfig [] 11211 10000 128 0 1 [].

(** One option with its operand; [None] for a number that does not parse. *)
Definition set_option (cfg : BenchConfig) (name value : bytes) : option BenchConfig :=
  let 'mkBenchConfig h p n v w t o := cfg in
  if decide (name = lit "--seed") then '(h, p) ← parse_seed value; Some (mkBenchConfig h p n v w t o)
  else if decide (name = lit "--num-keys") then n ← stoul value; Some (mkBenchConfig h p n v w t o)
  else if decide (name = lit "--value-size") then v ← stoul value; Some (mkBenchConfig h p n v w t o)
  else if decide (name = lit "--wait") then w ← stoi value; Some (mkBenchConfig h p n v w t o)
  else if decide (name = lit "--threads") then t ← stoi value; Some (mkBenchConfig h p n v w t o)
  else Some (mkBenchConfig h p n v w t value).

Definition is_option (name : bytes) : bool :=
  bool_decide (name ∈ [lit "--seed"; lit "--num-keys"; lit "--value-size"; lit "--wait"; lit "--threads"; lit "--output"]).

(** The loop over the arguments after the program name; others are ignored. *)
Fixpoint parse_args (args : list bytes) (cfg : BenchConfig) : option BenchConfig :=
  match args with
  | a :: ((b :: args) as rest) =>
      if is_option a then cfg ← set_option cfg a b; parse_args args cfg else parse_args rest cfg
  | _ => Some cfg
  end.

(** [connect_with_retries]: one attempt after another. *)
Fixpoint connect_with_retries {W} (connect : W -> bool * W) (max_retries : nat) (w : W) : bool * W :=
  match max_retries with
  | O => (false, w)
  | S n =>
      let '(ok, w) := connect w in
      if ok : bool then (true, w) else connect_with_retries connect n w
  end.

(** [random_hex]: [len] hexadecimal digits, each from a draw of 0 to 15. *)
Definition hex_digit (n : Z) : byte := nth (Z.to_nat n) (lit "0123456789abcdef") x00.

Fixpoint random_hex {R} (dist : R -> Z * R) (rng : R) (len : nat) : bytes * R :=
  match len with
  | O => ([], rng)
  | S len =>
      let '(n, rng) := dist rng in
      let '(out, rng) := random_hex dist rng len in
      (hex_digit n :: out, rng)
  end.

(** ** The workers *)

Record ThreadResult := mkResult {
  latencies : list Z;     (* microseconds *)
  errors : nat
}.

(** One call of the client: did it succeed, and how long did it take. *)
Definition worker {K W} (call : K -> W -> bool * Z * W) (keys : list K) (begin stop : nat) (w : W) : ThreadResult * W :=
  foldl (fun '(out, w) key =>
      let '(ok, us, w) := call key w in
      (mkResult (latencies out ++ [us]) (errors out + (if ok : bool then 0 else 1)), w))
    (mkResult [] 0, w) (take (stop - begin) (drop begin keys)).

(** The slice of thread [t] of [n]. *)
Definition slice_of (len n t : nat) : nat * nat :=
  let per := Nat.div len n in
  let begin := (t * per)%nat in
  (begin, if decide (t + 1 = n)%nat then len else (begin + per)%nat).

Record LatencyReport := mkReport {
  total_ops : nat;
  report_errors : nat;
  latencies_us : list Z
}.

(** Every client works through its slice; the results are merged in thread
    order. *)
Definition run_threaded {K W} (call : K -> W -> bool * Z * W) (clients : list W) (keys : list K) : LatencyReport :=
  let n := length clients in
  let results := imap (fun t w => let '(b, e) := slice_of (length keys) n t in (worker call keys b e w).1) clients in
  let all := mjoin (latencies <$> results) in
  mkReport (length all) (sum_list (errors <$> results)) all.

(** ** Reports *)

Definition kBucketCeils : list Z := [50; 100; 250; 500; 1000; 5000; 10000; 50000; 100000].
Definition kNumBuckets : nat := 10.

(** The first ceiling above the latency, the last bucket when there is none. *)
Definition bucket_of (us : Z) : nat :=
  match list_find (fun c => us < c) kBucketCeils with
  | Some (i, _) => i
  | None => (kNumBuckets - 1)%nat
  end.

Definition compute_buckets (ls : list Z) : list nat :=
  foldl (fun out us => alter S (bucket_of us) out) (replicate kNumBuckets 0%nat) ls.

Definition sort_latencies (ls : list Z) : list Z := merge_sort Z.le ls.

(** [sorted[static_cast<size_t>(p * double(size - 1))]]; the product in floating
    point is [scale]. *)
Definition percentile (scale : nat -> nat) (sorted : list Z) : Z :=
  match sorted with
  | [] => 0
  | _ => default 0 (sorted !! scale (length sorted - 1)%nat)
  end.

(** ** Every key once *)

Definition slice_keys {K} (keys : list K) (n t : nat) : list K :=
  let '(b, e) := slice_of (length keys) n t in take (e - b) (drop b keys).

Lemma slices_prefix {K} (keys : list K) n k :
  (k < n)%nat -> mjoin (slice_keys keys n <$> seq 0 k) = take (k * Nat.div (length keys) n) keys.
Proof.
  induction k as [|k IH]; intros Hk; [done|].
  rewrite seq_S, fmap_app, join_app, IH by lia. simpl. rewrite app_nil_r.
  unfold slice_keys, slice_of. rewrite decide_False by lia.
  replace (k * (length keys / n) + length keys / n - k * (length keys / n))%nat with (length keys / n)%nat by lia.
  rewrite take_take_drop. f_equal. lia.
Qed.

Lemma slices_concat {K} (keys : list K) n : (0 < n)%nat -> mjoin (slice_keys keys n <$> seq 0 n) = keys.
Proof.
  intros Hn. destruct n as [|n]; [lia|]. rewrite seq_S, fmap_app, join_app, slices_prefix by lia. simpl.
  rewrite app_nil_r. unfold slice_keys, slice_of. rewrite decide_True by lia.
  rewrite (take_ge (drop _ keys)) by (rewrite length_drop; lia). apply take_drop.
Qed.

Lemma worker_counts {K W} (call : K -> W -> bool * Z * W) keys b e w :
  length (latencies (worker call keys b e w).1) = length (take (e - b) (drop b keys)) /\
  (errors (worker call keys b e w).1 <= length (take (e - b) (drop b keys)))%nat.
Proof.
  unfold worker. generalize (take (e - b) (drop b keys)). intros l.
  assert (forall out w, length (latencies (foldl (fun '(out, w) key =>
      let '(ok, us, w) := call key w in
      (mkResult (latencies out ++ [us]) (errors out + (if ok : bool then 0 else 1)), w)) (out, w) l).1) =
      (length (latencies out) + length l)%nat /\
    (errors (foldl (fun '(out, w) key =>
      let '(ok, us, w) := call key w in
      (mkResult (latencies out ++ [us]) (errors out + (if ok : bool then 0 else 1)), w)) (out, w) l).1
      <= errors out + length l)%nat) as Hg.
  { induction l as [|k l IH]; intros out w0; simpl; [lia|].
    destruct (call k w0) as [[ok us] w1]. destruct (IH (mkResult (latencies out ++ [us]) (errors out + (if ok then 0 else 1))) w1) as [H1 H2].
    rewrite H1. simpl in *. rewrite length_app. simpl. destruct ok; lia. }
  destruct (Hg (mkResult [] 0) w) as [H1 H2]. done.
Qed.

Lemma length_mjoin {A} (ls : list (list A)) : length (mjoin ls) = sum_list (length <$> ls).
Proof. induction ls as [|l ls IH]; [done|]. simpl. rewrite length_app. by rewrite IH. Qed.

Lemma sum_list_cons x l : sum_list (x :: l) = (x + sum_list l)%nat.
Proof. done. Qed.

(** The totals over the threads, from the totals of each. *)
Lemma thread_sums {K W} (slice : nat -> list K) (f : nat -> W -> ThreadResult) t0 cs :
  (forall t w, length (latencies (f t w)) = length (slice t) /\ (errors (f t w) <= length (slice t))%nat) ->
  sum_list (length <$> (latencies <$> imap (fun i => f (t0 + i)%nat) cs)) =
    sum_list (length <$> (slice <$> seq t0 (length cs))) /\
  (sum_list (errors <$> imap (fun i => f (t0 + i)%nat) cs) <=
    sum_list (length <$> (slice <$> seq t0 (length cs))))%nat.
Proof.
  intros Hf. revert t0. induction cs as [|c cs IH]; intros t0; [done|].
  rewrite imap_cons. cbn [length seq]. rewrite !fmap_cons, !sum_list_cons.
  destruct (Hf (t0 + 0)%nat c) as [E He], (IH (S t0)) as [IH1 IH2]. rewrite Nat.add_0_r in *.
  rewrite (imap_ext ((fun i => f (t0 + i)%nat) ∘ S) (fun i => f (S t0 + i)%nat))
    by (intros; simpl; f_equal; lia).
  rewrite E, IH1. lia.
Qed.

(** ** Buckets *)

Lemma bucket_of_lt us : (bucket_of us < kNumBuckets)%nat.
Proof.
  unfold bucket_of. destruct (list_find _ kBucketCeils) as [[i c]|] eqn:E; [|vm_compute; lia].
  apply list_find_Some in E as (Hi & _). apply lookup_lt_Some in Hi. unfold kBucketCeils, kNumBuckets in *. simpl in Hi. lia.
Qed.

Lemma buckets_count ls i :
  (i < kNumBuckets)%nat ->
  compute_buckets ls !! i = Some (length (filter (fun us => bucket_of us = i) ls)).
Proof.
  intros Hi. unfold compute_buckets. induction ls as [|us ls IH] using rev_ind; [by apply lookup_replicate_2|].
  rewrite foldl_app, filter_app, length_app. cbn [foldl].
  destruct (decide (bucket_of us = i)) as [<-|Hne].
  - rewrite list_lookup_alter_eq, IH. rewrite filter_cons_True by done. simpl. f_equal. lia.
  - rewrite list_lookup_alter_ne, IH by done. rewrite filter_cons_False by done. simpl. f_equal. lia.
Qed.

Lemma sum_list_alter (l : list nat) i : (i < length l)%nat -> sum_list (alter S i l) = S (sum_list l).
Proof.
  revert i. induction l as [|x l IH]; intros i Hi; simpl in *; [lia|].
  destruct i as [|i]; [done|]. change (alter S (S i) (x :: l)) with (x :: alter S i l).
  rewrite !sum_list_cons, IH by lia. lia.
Qed.

Lemma buckets_total ls : sum_list (compute_buckets ls) = length ls /\ length (compute_buckets ls) = kNumBuckets.
Proof.
  unfold compute_buckets. induction ls as [|us ls [IH1 IH2]] using rev_ind; [done|].
  rewrite foldl_app, length_app. cbn [foldl length]. rewrite length_alter, sum_list_alter by (rewrite IH2; apply bucket_of_lt).
  rewrite IH1, IH2. split; [lia|done].
Qed.

(** The benchmark measures every key once.  For any number of clients, the
    slices of the worker threads put together are the keys in their order, none
    skipped and none twice; the report has one latency per key and no more errors
    than keys; and the histogram counts every latency in exactly one bucket, the
    one whose range it falls in. *)
Theorem benchmark_counts {K W} (call : K -> W -> bool * Z * W) (clients : list W) (keys : list K) :
  clients <> [] ->
  let report := run_threaded call clients keys in
  mjoin (slice_keys keys (length clients) <$> seq 0 (length clients)) = keys /\
  total_ops report = length keys /\ length (latencies_us report) = total_ops report /\
  (report_errors report <= total_ops report)%nat /\
  sum_list (compute_buckets (latencies_us report)) = total_ops report /\
  (forall i, (i < kNumBuckets)%nat ->
     compute_buckets (latencies_us report) !! i =
       Some (length (filter (fun us => bucket_of us = i) (latencies_us report)))).
Proof.
  intros Hne report. assert (0 < length clients)%nat as Hn by (destruct clients; [done|simpl; lia]).
  pose proof (slices_concat keys (length clients) Hn) as Hs.
  destruct (thread_sums (slice_keys keys (length clients))
    (fun t w => let '(b, e) := slice_of (length keys) (length clients) t in (worker call keys b e w).1) 0 clients) as [H1 H2].
  { intros t w. unfold slice_keys. destruct (slice_of _ _ _) as [b e]. apply worker_counts. }
  rewrite <- !length_mjoin, Hs in H1. rewrite <- length_mjoin, Hs in H2.
  split; [done|]. assert (total_ops report = length keys) as Ht by exact H1.
  split; [done|]. split; [done|]. split; [rewrite Ht; exact H2|].
  split; [by destruct (buckets_total (latencies_us report))|]. intros i Hi. by apply buckets_count.
Qed.

Lemma benchmark_counts_witness :
  total_ops (run_threaded (fun (_ : nat) (w : unit) => (true, 120, w)) [tt; tt; tt] (seq 0 10)) = 10%nat.
Proof. apply (benchmark_counts (fun (_ : nat) (w : unit) => (true, 120, w)) [tt; tt; tt] (seq 0 10)). discriminate. Defined.
