(* ===== verification/Json.v ===== *)
(** * JSON documents

    A reader for the JSON that [src/src/sdk/benchmark.cpp] writes: numbers,
    non-empty arrays, and non-empty objects whose keys have no escapes.  What it
    reads back is what a compact printer would print. *)

From S2P Require Import Prelude NodeInfo Args.

Inductive json :=
  | JNumber (text : bytes)
  | JArray (vs : list json)
  | JObject (ms : list (bytes * json)).

(** Induction through the lists. *)
Section Induction.
Context (P : json -> Prop).
Context (Hnum : forall t, P (JNumber t)) (Harr : forall vs, Forall P vs -> P (JArray vs)).
Context (Hobj : forall ms, Forall (fun m => P m.2) ms -> P (JObject ms)).

Fixpoint json_rect' (v : json) : P v :=
  match v with
  | JNumber t => Hnum t
  | JArray vs =>
      Harr vs ((fix go vs : Forall P vs :=
        match vs with
        | [] => Forall_nil_2 _
        | v :: vs => Forall_cons_2 _ _ _ (json_rect' v) (go vs)
        end) vs)
  | JObject ms =>
      Hobj ms ((fix go (ms : list (bytes * json)) : Forall (fun m => P m.2) ms :=
        match ms with
        | [] => Forall_nil_2 _
        | (k, v) :: ms => Forall_cons_2 (fun m : bytes * json => P m.2) (k, v) ms (json_rect' v) (go ms)
        end) ms)
  end.
End Induction.

(** ** Printing *)

Fixpoint commas (parts : list bytes) : bytes :=
  match parts with
  | [] => []
  | [p] => p
  | p :: parts => p ++ lit "," ++ commas parts
  end.

Definition json_key (name : bytes) : bytes := [x22] ++ name ++ [x22] ++ lit ":".

Fixpoint render (v : json) : bytes :=
  match v with
  | JNumber t => t
  | JArray vs => lit "[" ++ commas (map render vs) ++ lit "]"
  | JObject ms => lit "{" ++ commas (map (fun m => match m with (k, v) => json_key k ++ render v end) ms) ++ lit "}"
  end.

(** ** Reading *)

(** A character of a number. *)
Definition number_char (b : byte) : Prop := is_digit b \/ b = "."%byte \/ b = "-"%byte.

#[export] Instance number_char_dec b : Decision (number_char b).
Proof. unfold number_char. apply _. Defined.

Fixpoint span (p : byte -> bool) (s : bytes) : bytes * bytes :=
  match s with
  | b :: s' => if p b then let '(t, r) := span p s' in (b :: t, r) else ([], s)
  | [] => ([], [])
  end.

(** The next character is [b]. *)
Definition expect (b : byte) (s : bytes) : option bytes :=
  match s with
  | c :: s => if decide (c = b) then Some s else None
  | [] => None
  end.

Definition parse_number (s : bytes) : option (json * bytes) :=
  let '(t, r) := span (fun b => bool_decide (number_char b)) s in
  if decide (t = []) then None else Some (JNumber t, r).

Definition parse_key (s : bytes) : option (bytes * bytes) :=
  s ← expect x22 s;
  let '(k, s) := span (fun b => bool_decide (b <> x22)) s in
  s ← expect x22 s;
  s ← expect ":"%byte s;
  Some (k, s).

Fixpoint parse_value (fuel : nat) (s : bytes) : option (json * bytes) :=
  match fuel with
  | O => None
  | S fuel =>
      match s with
      | b :: s' =>
          if decide (b = "["%byte) then '(vs, r) ← parse_elements fuel s'; Some (JArray vs, r)
          else if decide (b = "{"%byte) then '(ms, r) ← parse_members fuel s'; Some (JObject ms, r)
          else parse_number s
      | [] => None
      end
  end
with parse_elements (fuel : nat) (s : bytes) : option (list json * bytes) :=
  match fuel with
  | O => None
  | S fuel =>
      '(v, s) ← parse_value fuel s;
      match expect ","%byte s with
      | Some s => '(vs, s) ← parse_elements fuel s; Some (v :: vs, s)
      | None => s ← expect "]"%byte s; Some ([v], s)
      end
  end
with parse_members (fuel : nat) (s : bytes) : option (list (bytes * json) * bytes) :=
  match fuel with
  | O => None
  | S fuel =>
      '(k, s) ← parse_key s;
      '(v, s) ← parse_value fuel s;
      match expect ","%byte s with
      | Some s => '(ms, s) ← parse_members fuel s; Some ((k, v) :: ms, s)
      | None => s ← expect "}"%byte s; Some ([(k, v)], s)
      end
  end.

(** The nesting and length of a document bound the steps; its text is longer. *)
Definition parse_json (s : bytes) : option (json * bytes) := parse_value (2 * length s) s.

(** ** Round trip *)

Fixpoint json_wf (v : json) : Prop :=
  match v with
  | JNumber t => t <> [] /\ Forall number_char t
  | JArray vs => vs <> [] /\ (fix all vs := match vs with [] => True | v :: vs => json_wf v /\ all vs end) vs
  | JObject ms =>
      ms <> [] /\
      (fix all ms := match ms with
                     | [] => True
                     | (k, v) :: ms => (Forall (fun b => b <> x22) k /\ json_wf v) /\ all ms
                     end) ms
  end.

Lemma json_wf_array vs : json_wf (JArray vs) <-> vs <> [] /\ Forall json_wf vs.
Proof.
  cbn. apply and_iff_compat_l. induction vs as [|v vs IH]; [by split|]. rewrite Forall_cons, IH. done.
Qed.

Lemma json_wf_object ms :
  json_wf (JObject ms) <-> ms <> [] /\ Forall (fun m => Forall (fun b => b <> x22) m.1 /\ json_wf m.2) ms.
Proof.
  cbn. apply and_iff_compat_l. induction ms as [|[k v] ms IH]; [by split|]. rewrite Forall_cons, IH. done.
Qed.

Definition not_number (rest : bytes) : Prop := match rest with b :: _ => ~ number_char b | [] => True end.

Lemma span_app p t rest :
  Forall (fun b => p b = true) t -> match rest with b :: _ => p b = false | [] => True end -> span p (t ++ rest) = (t, rest).
Proof.
  intros Ht Hr. induction Ht as [|b t Hb _ IH]; cbn.
  - destruct rest as [|b rest]; [done|]. cbn. by rewrite Hr.
  - by rewrite Hb, IH.
Qed.

Lemma parse_number_app t rest :
  t <> [] -> Forall number_char t -> not_number rest -> parse_number (t ++ rest) = Some (JNumber t, rest).
Proof.
  intros Hne Ht Hr. unfold parse_number. rewrite span_app; [by rewrite decide_False| |].
  - eapply Forall_impl; [exact Ht|]. intros b Hb. by apply bool_decide_eq_true.
  - destruct rest; [done|]. by apply bool_decide_eq_false.
Qed.

Lemma parse_key_app k rest : Forall (fun b => b <> x22) k -> parse_key (json_key k ++ rest) = Some (k, rest).
Proof.
  intros Hk. unfold parse_key, json_key. rewrite <- !app_assoc. cbn [app expect].
  rewrite decide_True by done. cbn [mbind option_bind]. rewrite span_app; [done| |done].
  eapply Forall_impl; [exact Hk|]. intros b Hb. by apply bool_decide_eq_true.
Qed.

(** What the reader makes of a printed value. *)
Definition reads (v : json) : Prop :=
  forall n rest, (2 * length (render v) <= n)%nat -> not_number rest -> parse_value n (render v ++ rest) = Some (v, rest).

(** A value is followed by a comma or the end of its list. *)
Lemma delimiter_not_number b rest : b ∈ [","%byte; "]"%byte; "}"%byte; x0a] -> not_number (b :: rest).
Proof.
  intros Hb. cbn. assert (Forall (fun b => ~ number_char b) [","%byte; "]"%byte; "}"%byte; x0a]) as Hall
    by (refine (bool_decide_unpack _ _); vm_compute; exact I).
  by apply (proj1 (Forall_forall _ _) Hall).
Qed.

Lemma parse_elements_app vs n rest :
  vs <> [] -> Forall reads vs -> (2 * length (commas (map render vs)) < n)%nat ->
  parse_elements n (commas (map render vs) ++ lit "]" ++ rest) = Some (vs, rest).
Proof.
  intros Hne Hvs. revert n Hne. induction Hvs as [|v vs Hv Hvs IH]; intros n Hne Hn; [done|].
  destruct n as [|n]; [lia|]. cbn [parse_elements]. destruct vs as [|w vs].
  - cbn [map commas] in *. rewrite Hv; [done|lia|apply delimiter_not_number; set_solver].
  - change (map render (v :: w :: vs)) with (render v :: map render (w :: vs)) in *.
    change (commas (render v :: map render (w :: vs))) with (render v ++ lit "," ++ commas (map render (w :: vs))) in *.
    rewrite !length_app in Hn. cbn [length lit] in Hn. rewrite <- !app_assoc.
    rewrite Hv; [|lia|apply delimiter_not_number; set_solver]. cbn [mbind option_bind].
    change (lit "," ++ ?r) with (","%byte :: r). cbn [expect]. rewrite decide_True by done.
    rewrite IH; [done|done|]. cbn in Hn. cbn. lia.
Qed.

Definition render_member (m : bytes * json) : bytes := match m with (k, v) => json_key k ++ render v end.

Lemma parse_members_app ms n rest :
  ms <> [] -> Forall (fun m => Forall (fun b => b <> x22) m.1 /\ reads m.2) ms ->
  (2 * length (commas (map render_member ms)) < n)%nat ->
  parse_members n (commas (map render_member ms) ++ lit "}" ++ rest) = Some (ms, rest).
Proof.
  intros Hne Hms. revert n Hne. induction Hms as [|[k v] ms [Hk Hv] Hms IH]; intros n Hne Hn; [done|].
  destruct n as [|n]; [lia|]. cbn [parse_members]. cbn [fst snd] in *. destruct ms as [|w ms].
  - cbn [map commas render_member] in *. rewrite length_app in Hn. rewrite <- app_assoc, parse_key_app by done. cbn [mbind option_bind].
    rewrite Hv; [done|lia|apply delimiter_not_number; set_solver].
  - change (commas (map render_member ((k, v) :: w :: ms)))
      with ((json_key k ++ render v) ++ lit "," ++ commas (map render_member (w :: ms))) in *.
    rewrite !length_app in Hn. cbn [length lit] in Hn. rewrite <- !app_assoc, parse_key_app by done. cbn [mbind option_bind].
    rewrite Hv; [|lia|apply delimiter_not_number; set_solver]. cbn [mbind option_bind].
    change (lit "," ++ ?r) with (","%byte :: r). cbn [expect]. rewrite decide_True by done.
    rewrite IH; [done|done|]. cbn in Hn. cbn. lia.
Qed.

Lemma render_reads v : json_wf v -> reads v.
Proof.
  induction v as [t|vs IH|ms IH] using json_rect'; intros Hwf n rest Hn Hr.
  - destruct Hwf as [Hne Ht]. destruct n as [|n]; [destruct t; [done|cbn in Hn; lia]|]. cbn [parse_value render].
    rewrite <- (parse_number_app t rest Hne Ht Hr). destruct t as [|b t]; [done|]. cbn [app].
    apply Forall_cons in Ht as [Hb _].
    assert (b <> "["%byte /\ b <> "{"%byte) as [H1 H2].
    { split; intros ->; revert Hb; refine (bool_decide_unpack _ _); vm_compute; exact I. }
    by rewrite !decide_False.
  - apply json_wf_array in Hwf as [Hne Hwf]. cbn [render] in *. rewrite !length_app in Hn. cbn [length lit] in Hn.
    destruct n as [|n]; [cbn in Hn; lia|]. rewrite <- !app_assoc. change (lit "[" ++ ?r) with ("["%byte :: r). cbn [parse_value].
    rewrite decide_True by done. rewrite parse_elements_app; [done|done| |cbn in Hn; lia].
    apply Forall_forall. intros v Hv. apply (proj1 (Forall_forall _ _) IH v Hv). by apply (proj1 (Forall_forall _ _) Hwf).
  - apply json_wf_object in Hwf as [Hne Hwf]. cbn [render] in *. fold render_member in *. rewrite !length_app in Hn. cbn [length lit] in Hn.
    destruct n as [|n]; [cbn in Hn; lia|]. rewrite <- !app_assoc. change (lit "{" ++ ?r) with ("{"%byte :: r). cbn [parse_value].
    rewrite decide_False by done. rewrite decide_True by done. rewrite parse_members_app; [done|done| |cbn in Hn; lia].
    apply Forall_forall. intros m Hm. destruct (proj1 (Forall_forall _ _) Hwf m Hm) as [? ?]. split; [done|].
    by apply (proj1 (Forall_forall _ _) IH m Hm).
Qed.

Lemma parse_json_render v rest : json_wf v -> not_number rest -> parse_json (render v ++ rest) = Some (v, rest).
Proof. intros Hv Hr. apply render_reads; [done| |done]. rewrite length_app. lia. Qed.
