(* ===== verification/BenchReport.v ===== *)
(** * The benchmark's reports and its [main] ([src/src/sdk/benchmark.cpp])

    What the benchmark prints, the JSON file it writes, and the program around
    the measurements of [Benchmark].  Floating-point numbers are a type with the
    operations the code uses. *)

From S2P Require Import Prelude NodeInfo Topology Args Json Benchmark.
From S2P Require PensieveClient Cli.

Local Open Scope Z_scope.

(** ** Floating point *)

(** [fixed k d] is [d] printed with [std::fixed] and [k] digits; [index p n] is
    [static_cast<size_t>(p / 100.0 * static_cast<double>(n))]. *)
Class Double (D : Type) := {
  zero : D;
  positive : D -> bool;
  ratio : nat -> D -> D;
  percent : nat -> nat -> D;
  index : Z -> nat -> nat;
  fixed : nat -> D -> bytes
}.

(** Documented behaviour: a fraction of [n] is at most [n], and the fixed format of
    a finite number is digits with a point and perhaps a sign. *)
Class DoubleLaws (D : Type) `{Double D} := {
  index_le p n : 0 <= p <= 100 -> (index p n <= n)%nat;
  fixed_number k d : fixed k d <> [] /\ Forall number_char (fixed k d)
}.

Definition nl : bytes := [x0a].

(** [std::ostream << int64_t]. *)
Definition format_int (z : Z) : bytes := if decide (z < 0) then lit "-" ++ format_uint (- z) else format_uint z.

Definition format_nat (n : nat) : bytes := format_uint (Z.of_nat n).

Section Reports.
Context {D : Type} `{Double D}.

Record Report := mkFullReport {
  label : bytes;
  elapsed_secs : D;
  counted : LatencyReport
}.

Definition throughput (r : Report) : D :=
  if positive (elapsed_secs r) then ratio (total_ops (counted r)) (elapsed_secs r) else zero.

(** ** The histogram *)

Definition kBucketLabels : list bytes :=
  [lit "  < 50us "; lit "  < 100us"; lit "  < 250us"; lit "  < 500us"; lit "  <   1ms"; lit "  <   5ms";
   lit "  <  10ms"; lit "  <  50ms"; lit "  < 100ms"; lit "  >= 100ms"].

(** The length of a bar, out of 40. *)
Definition bar_of (max_count count : nat) : nat :=
  if decide (0 < max_count)%nat then (count * 40 / max_count)%nat else 0%nat.

Definition print_histogram (ls : list Z) : bytes :=
  let buckets := compute_buckets ls in
  let max_count := foldr Nat.max 0%nat buckets in
  nl ++ lit "  Latency distribution:" ++ nl ++
  concat (zip_with (fun name count =>
      let pct := if decide (ls = []) then zero else percent count (length ls) in
      lit "    " ++ name ++ lit " |" ++ replicate (bar_of max_count count) "#"%byte ++
      lit " " ++ format_nat count ++ lit " (" ++ fixed 1 pct ++ lit "%)" ++ nl) kBucketLabels buckets).

(** ** The report *)

Definition front (ls : list Z) : Z := default 0 (head ls).
Definition back (ls : list Z) : Z := default 0 (last ls).

(** The report with its latencies sorted, which the caller's object keeps. *)
Definition sorted_report (r : Report) : Report :=
  mkFullReport (label r) (elapsed_secs r)
    (mkReport (total_ops (counted r)) (report_errors (counted r)) (sort_latencies (latencies_us (counted r)))).

Definition print_report (r : Report) : Report * bytes :=
  let r := sorted_report r in
  let ls := latencies_us (counted r) in
  (r,
   nl ++ lit "===== " ++ label r ++ lit " =====" ++ nl ++
   lit "  Total ops:    " ++ format_nat (total_ops (counted r)) ++ nl ++
   lit "  Errors:       " ++ format_nat (report_errors (counted r)) ++ nl ++
   lit "  Elapsed:      " ++ fixed 3 (elapsed_secs r) ++ lit " s" ++ nl ++
   lit "  Throughput:   " ++ fixed 0 (throughput r) ++ lit " ops/sec" ++ nl ++
   if decide (ls = []) then [] else
   lit "  p50:          " ++ format_int (percentile (index 50) ls) ++ lit " us" ++ nl ++
   lit "  p95:          " ++ format_int (percentile (index 95) ls) ++ lit " us" ++ nl ++
   lit "  p99:          " ++ format_int (percentile (index 99) ls) ++ lit " us" ++ nl ++
   lit "  min:          " ++ format_int (front ls) ++ lit " us" ++ nl ++
   lit "  max:          " ++ format_int (back ls) ++ lit " us" ++ nl ++
   print_histogram ls).

(** ** JSON *)

(** The loop over the buckets, with a comma before all but the first. *)
Definition json_buckets (buckets : list nat) : bytes :=
  concat (imap (fun i count => (if decide (0 < i)%nat then lit "," else []) ++ format_nat count) buckets).

Definition report_to_json (r : Report) : Report * bytes :=
  let r := sorted_report r in
  let ls := latencies_us (counted r) in
  let buckets := compute_buckets ls in
  (r,
   lit "{" ++ json_key (lit "total_ops") ++ format_nat (total_ops (counted r)) ++
   lit "," ++ json_key (lit "errors") ++ format_nat (report_errors (counted r)) ++
   lit "," ++ json_key (lit "elapsed_secs") ++ fixed 6 (elapsed_secs r) ++
   lit "," ++ json_key (lit "throughput") ++ fixed 1 (throughput r) ++
   lit "," ++ json_key (lit "p50") ++ format_int (percentile (index 50) ls) ++
   lit "," ++ json_key (lit "p95") ++ format_int (percentile (index 95) ls) ++
   lit "," ++ json_key (lit "p99") ++ format_int (percentile (index 99) ls) ++
   lit "," ++ json_key (lit "min") ++ format_int (if decide (ls = []) then 0 else front ls) ++
   lit "," ++ json_key (lit "max") ++ format_int (if decide (ls = []) then 0 else back ls) ++
   lit "," ++ json_key (lit "buckets") ++ lit "[" ++ json_buckets buckets ++ lit "]}").

(** The contents of the file. *)
Definition json_output (put_report get_report : Report) (cfg : BenchConfig) : bytes :=
  lit "{" ++ json_key (lit "threads") ++ format_int (bc_threads cfg) ++
  lit "," ++ json_key (lit "num_keys") ++ format_uint (bc_num_keys cfg) ++
  lit "," ++ json_key (lit "value_size") ++ format_uint (bc_value_size cfg) ++
  lit "," ++ json_key (lit "put") ++ (report_to_json put_report).2 ++
  lit "," ++ json_key (lit "get") ++ (report_to_json get_report).2 ++
  lit "}" ++ nl.
End Reports.
Arguments Report : clear implicits.

(** ** What the file says *)

Section Document.
Context {D : Type} `{DoubleLaws D}.

Definition number (n : nat) : json := JNumber (format_nat n).
Definition integer (z : Z) : json := JNumber (format_int z).

Definition report_doc (r : Report D) : json :=
  let ls := sort_latencies (latencies_us (counted r)) in
  JObject [
    (lit "total_ops", number (total_ops (counted r)));
    (lit "errors", number (report_errors (counted r)));
    (lit "elapsed_secs", JNumber (fixed 6 (elapsed_secs r)));
    (lit "throughput", JNumber (fixed 1 (throughput r)));
    (lit "p50", integer (percentile (index 50) ls));
    (lit "p95", integer (percentile (index 95) ls));
    (lit "p99", integer (percentile (index 99) ls));
    (lit "min", integer (front ls));
    (lit "max", integer (back ls));
    (lit "buckets", JArray (number <$> compute_buckets ls))].

Definition output_doc (put_report get_report : Report D) (cfg : BenchConfig) : json :=
  JObject [
    (lit "threads", integer (bc_threads cfg));
    (lit "num_keys", integer (bc_num_keys cfg));
    (lit "value_size", integer (bc_value_size cfg));
    (lit "put", report_doc put_report);
    (lit "get", report_doc get_report)].

Lemma format_uint_number z : format_uint z <> [] /\ Forall number_char (format_uint z).
Proof.
  split; [apply format_uint_ne|]. eapply Forall_impl; [apply format_uint_digits|]. intros b Hb. by left.
Qed.

Lemma format_int_number z : format_int z <> [] /\ Forall number_char (format_int z).
Proof.
  unfold format_int. case_decide; [|apply format_uint_number]. split; [done|]. apply Forall_app.
  split; [|apply format_uint_number]. apply Forall_singleton. right. by right.
Qed.

Lemma format_int_nonneg z : 0 <= z -> format_int z = format_uint z.
Proof. intros Hz. unfold format_int. by rewrite decide_False by lia. Qed.

Lemma json_buckets_commas bs : json_buckets bs = commas (map render (number <$> bs)).
Proof.
  unfold json_buckets. destruct bs as [|b bs]; [done|].
  assert (forall k bs, concat (imap (fun i count => (if decide (0 < S k + i)%nat then lit "," else []) ++ format_nat count) bs) =
    concat ((fun count => lit "," ++ format_nat count) <$> bs)) as Hshift.
  { clear. intros k bs. revert k. induction bs as [|b bs IH]; intros k; [done|]. rewrite imap_cons, fmap_cons. cbn [concat].
    rewrite decide_True by lia. rewrite <- (IH (S k)). f_equal. }
  rewrite imap_cons. cbn [concat]. rewrite decide_False by lia. cbn [app].
  rewrite (imap_ext _ (fun i count => (if decide (0 < 1 + i)%nat then lit "," else []) ++ format_nat count)) by done.
  rewrite (Hshift 0%nat). clear Hshift. revert b. induction bs as [|c bs IH]; intros b; [cbn; by rewrite app_nil_r|].
  rewrite !fmap_cons. cbn [concat map commas]. rewrite <- app_assoc, IH. done.
Qed.

Lemma report_to_json_doc r : (report_to_json r).2 = render (report_doc r).
Proof.
  unfold report_to_json. cbn [snd]. rewrite json_buckets_commas. unfold report_doc, sorted_report. cbn [counted latencies_us total_ops report_errors elapsed_secs].
  set (ls := sort_latencies _).
  assert ((if decide (ls = []) then 0 else front ls) = front ls /\ (if decide (ls = []) then 0 else back ls) = back ls) as [-> ->].
  { destruct ls; done. }
  cbn [render map commas]. unfold throughput, number, integer. cbn [elapsed_secs counted total_ops render]. rewrite <- !app_assoc. done.
Qed.

Lemma report_doc_wf r : json_wf (report_doc r).
Proof.
  apply json_wf_object. split; [done|].
  repeat (apply Forall_cons; split; [split; [refine (bool_decide_unpack _ _); vm_compute; exact I|]|]); [..|constructor];
    cbn [fst snd]; try apply fixed_number; try apply format_uint_number; try apply format_int_number.
  apply json_wf_array. split.
  - destruct (buckets_total (sort_latencies (latencies_us (counted r)))) as [_ Hl].
    intros E. apply fmap_nil_inv in E. by rewrite E in Hl.
  - apply Forall_fmap, Forall_true. intros n. apply format_uint_number.
Qed.

(** The file is a document that a JSON reader reads back. *)
Lemma json_output_reads put_report get_report cfg :
  0 <= bc_num_keys cfg -> 0 <= bc_value_size cfg ->
  parse_json (json_output put_report get_report cfg) = Some (output_doc put_report get_report cfg, nl).
Proof.
  intros Hk Hv. rewrite <- (parse_json_render (output_doc put_report get_report cfg) nl).
  - f_equal. unfold json_output, output_doc. rewrite !report_to_json_doc. cbn [render map commas].
    unfold integer. cbn [render]. rewrite (format_int_nonneg (bc_num_keys cfg)), (format_int_nonneg (bc_value_size cfg)) by done.
    rewrite <- !app_assoc. done.
  - apply json_wf_object. split; [done|].
    repeat (apply Forall_cons; split; [split; [refine (bool_decide_unpack _ _); vm_compute; exact I|]|]); [..|constructor];
      cbn [fst snd]; first [apply format_int_number|apply report_doc_wf].
  - apply delimiter_not_number. set_solver.
Qed.
End Document.

(** ** The program *)

Section Program.
Context {D Cl R : Type} `{Double D}.
(** The client library: the [i]-th client constructed, with its calls; a call of
    [put] or [get] comes with its duration in microseconds.  [rng] is the engine
    for a seed, [elapsed] the wall time of a phase. *)
Context (new_client : nat -> PensieveClient.Config -> Cl) (connect : Cl -> bool * Cl).
Context (put : bytes -> bytes -> Cl -> bool * Z * Cl) (get : bytes -> Cl -> option bytes * Z * Cl).
Context (endpoints : Cl -> list NodeEndpoint) (stats : Cl -> PensieveClient.Stats).
Context (rng : Z -> R) (dist : R -> Z * R) (elapsed : bytes -> D).

(** The fields the benchmark sets, the others by default. *)
Definition sdk_config (cfg : BenchConfig) : PensieveClient.Config :=
  let d := PensieveClient.default_config (bc_seed_host cfg) in
  PensieveClient.mkConfig (bc_seed_host cfg) (bc_seed_port cfg) 30 4 (PensieveClient.max_retries d)
    (PensieveClient.circuit_break_duration d) (PensieveClient.circuit_break_threshold d).

(** The loop of [make_clients] from client [i]; [None] when one does not connect. *)
Fixpoint connect_all (cfg : BenchConfig) (i n : nat) : option (list Cl) :=
  match n with
  | O => Some []
  | S n =>
      let '(ok, c) := connect (new_client i (sdk_config cfg)) in
      if ok : bool then cs ← connect_all cfg (S i) n; Some (c :: cs) else None
  end.

(** [None]: [reserve] of a negative number throws. *)
Definition make_clients (cfg : BenchConfig) (n : Z) : option (list Cl) :=
  if decide (n < 0) then None else Some (default [] (connect_all cfg 1 (Z.to_nat n))).

Fixpoint random_keys (n : nat) (r : R) : list bytes * R :=
  match n with
  | O => ([], r)
  | S n =>
      let '(h, r) := random_hex dist r 16 in
      let '(keys, r) := random_keys n r in
      ((lit "bench:" ++ h) :: keys, r)
  end.

Definition call_put (value key : bytes) (c : Cl) : bool * Z * Cl := put key value c.

(** [val.has_value()]. *)
Definition call_get (key : bytes) (c : Cl) : bool * Z * Cl :=
  let '(val, us, c) := get key c in (bool_decide (is_Some val), us, c).

(** The clients after their slices. *)
Definition clients_after (call : bytes -> Cl -> bool * Z * Cl) (clients : list Cl) (keys : list bytes) : list Cl :=
  imap (fun t c => let '(b, e) := slice_of (length keys) (length clients) t in (worker call keys b e c).2) clients.

Definition phase (name : bytes) (call : bytes -> Cl -> bool * Z * Cl) (clients : list Cl) (keys : list bytes) : Report D :=
  mkFullReport name (elapsed name) (run_threaded call clients keys).

Definition print_sdk_stats (s : PensieveClient.Stats) : bytes :=
  nl ++ lit "===== SDK Stats =====" ++ nl ++
  lit "  requests_total:   " ++ format_uint (PensieveClient.requests_total s) ++ nl ++
  lit "  requests_direct:  " ++ format_uint (PensieveClient.requests_direct s) ++ nl ++
  lit "  requests_retried: " ++ format_uint (PensieveClient.requests_retried s) ++ nl ++
  lit "  ring_refreshes:   " ++ format_uint (PensieveClient.ring_refreshes s) ++ nl ++
  lit "  circuit_breaks:   " ++ format_uint (PensieveClient.circuit_breaks s) ++ nl.

Definition print_config (cfg : BenchConfig) : bytes :=
  (if decide (0 < bc_wait_secs cfg)
   then lit "Waiting " ++ format_int (bc_wait_secs cfg) ++ lit "s for cluster convergence..." ++ nl else []) ++
  lit "Pensieve Benchmark" ++ nl ++
  lit "  seed:       " ++ bc_seed_host cfg ++ lit ":" ++ format_uint (bc_seed_port cfg) ++ nl ++
  lit "  num_keys:   " ++ format_uint (bc_num_keys cfg) ++ nl ++
  lit "  value_size: " ++ format_uint (bc_value_size cfg) ++ lit " bytes" ++ nl ++
  lit "  threads:    " ++ format_int (bc_threads cfg) ++ nl ++ nl.

(** The two phases and what is printed and written about them. *)
Definition run_phases (cfg : BenchConfig) (client : Cl) (clients : list Cl) (keys : list bytes) (value : bytes)
    : bytes * option bytes :=
  let heading n name :=
    lit "--- Phase " ++ n ++ lit ": " ++ name ++ lit " " ++ format_nat (length keys) ++ lit " keys (" ++
    format_int (bc_threads cfg) ++ lit " threads) ---" ++ nl in
  let '(put_report, put_text) := print_report (phase (lit "PUT") (call_put value) clients keys) in
  let clients := clients_after (call_put value) clients keys in
  let '(get_report, get_text) := print_report (phase (lit "GET") call_get clients keys) in
  let write := negb (bool_decide (bc_output_file cfg = [])) in
  (heading (lit "1") (lit "PUT") ++ put_text ++ nl ++ heading (lit "2") (lit "GET") ++ get_text ++
   print_sdk_stats (stats client) ++
   (if write then lit "Results written to " ++ bc_output_file cfg ++ nl else []) ++ nl ++ lit "Done." ++ nl,
   if write then Some (json_output put_report get_report cfg) else None).

(** [main]: the exit code, standard output and the contents of the output file;
    [None] is an uncaught exception. *)
Definition bench_main (argv : list bytes) : option (Z * bytes * option bytes) :=
  cfg ← parse_args (drop 1 argv) BenchConfig_default;
  if decide (bc_seed_host cfg = []) then Some (1, [], None) else
  let out := print_config cfg in
  let '(connected, client) := connect_with_retries connect 5 (new_client 0 (sdk_config cfg)) in
  if negb connected then Some (1, out, None) else
  let out := out ++ Cli.cluster_info (endpoints client) in
  let '(keys, r) := random_keys (Z.to_nat (bc_num_keys cfg)) (rng 42) in
  let '(value, r) := random_hex dist r (Z.to_nat (bc_value_size cfg)) in
  worker_clients ← make_clients cfg (bc_threads cfg);
  if decide (worker_clients = []) then Some (1, out, None) else
  let '(text, file) := run_phases cfg client worker_clients keys value in
  Some (0, out ++ text, file).

(** ** What a run reports *)

Lemma digits_value_nonneg s acc : 0 <= acc -> 0 <= digits_value acc s.
Proof.
  revert acc. induction s as [|b s IH]; intros acc Ha; cbn [digits_value]; [done|]. case_decide as Hb; [|done].
  apply IH. unfold is_digit in Hb. lia.
Qed.

Lemma read_digits_nonneg s v : read_digits s = Some v -> 0 <= v.
Proof.
  destruct s as [|b s]; [done|]. cbn [read_digits]. case_decide; [|done].
  intros E. apply (inj Some) in E as <-. by apply digits_value_nonneg.
Qed.

Lemma stoul_nonneg s z : stoul s = Some z -> 0 <= z.
Proof.
  unfold stoul. intros ([neg v] & Es & E)%bind_Some. case_decide; [|done]. injection E as <-.
  destruct neg; [by apply wrap_in_width|]. unfold strto in Es. destruct (skip_spaces s) as [|b s']; [done|].
  repeat case_decide; apply fmap_Some in Es as (x & Ex & [= ->]); by eapply read_digits_nonneg.
Qed.

Lemma parse_args_nonneg args cfg cfg' :
  0 <= bc_num_keys cfg -> 0 <= bc_value_size cfg -> parse_args args cfg = Some cfg' ->
  0 <= bc_num_keys cfg' /\ 0 <= bc_value_size cfg'.
Proof.
  assert (forall cfg a b cfg', 0 <= bc_num_keys cfg /\ 0 <= bc_value_size cfg -> set_option cfg a b = Some cfg' ->
    0 <= bc_num_keys cfg' /\ 0 <= bc_value_size cfg') as Hset.
  { intros [h p n v w t o] a b c [Hn Hv]. unfold set_option. cbn in Hn, Hv.
    repeat case_decide.
    - by intros ([h' p'] & _ & [= <-])%bind_Some.
    - by intros (x & Hx%stoul_nonneg & [= <-])%bind_Some.
    - by intros (x & Hx%stoul_nonneg & [= <-])%bind_Some.
    - by intros (x & _ & [= <-])%bind_Some.
    - by intros (x & _ & [= <-])%bind_Some.
    - by intros [= <-]. }
  intros Hn Hv. assert (0 <= bc_num_keys cfg /\ 0 <= bc_value_size cfg) as Hc by done. clear Hn Hv. revert cfg Hc.
  induction args as [args IH] using (induction_ltof1 _ (@length bytes)). unfold ltof in IH. intros cfg Hc.
  destruct args as [|a [|b args]]; [by intros [= <-]..|].
  change (parse_args (a :: b :: args) cfg) with
    (if is_option a then cfg ← set_option cfg a b; parse_args args cfg else parse_args (b :: args) cfg). destruct (is_option a).
  - intros (cfg1 & E1 & E)%bind_Some. apply (IH args) in E; [done|cbn; lia|by eapply Hset].
  - apply IH; [cbn; lia|done].
Qed.

Lemma random_keys_length n r : length (random_keys n r).1 = n.
Proof.
  revert r. induction n as [|n IH]; intros r; [done|]. cbn [random_keys]. destruct (random_hex dist r 16) as [h r1].
  specialize (IH r1). destruct (random_keys n r1) as [keys r2]. cbn in *. by rewrite IH.
Qed.

Lemma connect_all_length cfg i n cs : connect_all cfg i n = Some cs -> length cs = n.
Proof.
  revert i cs. induction n as [|n IH]; intros i cs; cbn [connect_all]; [by intros [= <-]|].
  destruct (connect _) as [[] c]; [|done]. intros (cs' & E%IH & [= <-])%bind_Some. cbn. by rewrite E.
Qed.

Lemma phase_counts name call clients keys :
  clients <> [] ->
  let r := sorted_report (phase name call clients keys) in
  total_ops (counted r) = length keys /\ (report_errors (counted r) <= length keys)%nat /\
  sum_list (compute_buckets (sort_latencies (latencies_us (counted r)))) = length keys.
Proof.
  intros Hne. destruct (benchmark_counts call clients keys Hne) as (_ & Ht & Hl & He & _). rewrite Ht in Hl, He.
  unfold sorted_report, phase. cbn [counted total_ops report_errors latencies_us]. split; [exact Ht|]. split; [exact He|]. rewrite (proj1 (buckets_total _)).
  unfold sort_latencies. by rewrite !merge_sort_Permutation.
Qed.

(** A benchmark run reports what it did.  When the arguments name a seed, the
    first client connects within five attempts and all workers connect, the run
    exits with 0 and the output file is a JSON document that reads back with the
    configuration and the two phases: as many operations as keys were asked for in
    each, no more errors than operations, and a histogram that accounts for every
    one of them.  Without a seed, without a connection or with a worker that cannot
    connect, the exit code is 1 and nothing is written. *)
Theorem bench_main_reports `{!DoubleLaws D} argv cfg :
  parse_args (drop 1 argv) BenchConfig_default = Some cfg -> 0 <= bc_threads cfg ->
  let connected := connect_with_retries connect 5 (new_client 0 (sdk_config cfg)) in
  match connect_all cfg 1 (Z.to_nat (bc_threads cfg)) with
  | Some (_ :: _) =>
      if decide (bc_seed_host cfg <> [] /\ connected.1 = true) then
        exists text file, bench_main argv = Some (0, text, file) /\
          (bc_output_file cfg = [] -> file = None) /\
          (bc_output_file cfg <> [] -> exists json put_report get_report, file = Some json /\
             parse_json json = Some (output_doc put_report get_report cfg, nl) /\
             Forall (fun r => total_ops (counted r) = Z.to_nat (bc_num_keys cfg) /\
                              (report_errors (counted r) <= total_ops (counted r))%nat /\
                              sum_list (compute_buckets (sort_latencies (latencies_us (counted r)))) = total_ops (counted r))
               [put_report; get_report])
      else exists text, bench_main argv = Some (1, text, None)
  | _ => exists text, bench_main argv = Some (1, text, None)
  end.
Proof.
  intros Ea Ht connected. destruct (parse_args_nonneg _ _ _ (ltac:(done) : 0 <= bc_num_keys BenchConfig_default) (ltac:(done) : 0 <= bc_value_size BenchConfig_default) Ea) as [Hk Hv].
  unfold bench_main. rewrite Ea. cbn [mbind option_bind]. fold connected. unfold make_clients.
  rewrite (decide_False (P := bc_threads cfg < 0)) by lia.
  pose proof (random_keys_length (Z.to_nat (bc_num_keys cfg)) (rng 42)) as Hlen.
  destruct connected as [conn client]. destruct (random_keys _ (rng 42)) as [keys r]. cbn [fst] in Hlen.
  destruct (random_hex dist r _) as [value r']. cbn [fst].
  destruct (connect_all cfg 1 _) as [[|c cs]|]; cbn [mbind option_bind default from_option Datatypes.id].
  1, 3: destruct (decide (bc_seed_host cfg = [])); [by eexists|]; destruct conn; cbn [negb]; by eexists.
  destruct (decide (bc_seed_host cfg = [])) as [Es|Es].
  { rewrite decide_False by tauto. by eexists. }
  destruct conn; cbn [negb]; [|rewrite decide_False by (by intros [_ ?]); by eexists].
  rewrite (decide_True (P := bc_seed_host cfg <> [] /\ true = true)) by done.
  rewrite (decide_False (P := c :: cs = [])) by done. unfold run_phases, print_report. cbv zeta.
  set (put_r := sorted_report _). set (get_r := sorted_report _).
  eexists _, _. split; [reflexivity|]. split; [intros ->; done|]. intros Ho. rewrite bool_decide_false by done. cbn [negb].
  eexists _, put_r, get_r. split; [reflexivity|]. split; [by apply json_output_reads|].
  assert (clients_after (call_put value) (c :: cs) keys <> []) as Hne by (unfold clients_after; by rewrite imap_cons).
  destruct (phase_counts (lit "PUT") (call_put value) (c :: cs) keys) as (Hp1 & Hp2 & Hp3); [done|].
  destruct (phase_counts (lit "GET") call_get (clients_after (call_put value) (c :: cs) keys) keys) as (Hg1 & Hg2 & Hg3); [done|].
  fold put_r in Hp1, Hp2, Hp3. fold get_r in Hg1, Hg2, Hg3.
  apply Forall_cons. split; [|apply Forall_singleton]; split_and!; congruence || lia.
Qed.
End Program.

(** ** The statistics at the end *)

Lemma client_connect_counters {C W} fetch (cl : PensieveClient.Client C) (w : W) :
  PensieveClient.counters (PensieveClient.client_connect fetch cl w).1.2 = PensieveClient.counters cl.
Proof. unfold PensieveClient.client_connect. by destruct (bootstrap _ _ _ _ _) as [[ok t] w']. Qed.

(** The client whose statistics [main] prints only ever connects: they are those of
    a client that was just constructed, whatever the workers did. *)
Lemma idle_stats {Cl} (connect : Cl -> bool * Cl) (stats : Cl -> PensieveClient.Stats) n c :
  (forall c, stats (connect c).2 = stats c) -> stats (connect_with_retries connect n c).2 = stats c.
Proof.
  intros Hc. revert c. induction n as [|n IH]; intros c; [done|]. cbn [connect_with_retries].
  specialize (Hc c) as Hc1. destruct (connect c) as [[] c1]; cbn in Hc1; [done|]. by rewrite IH.
Qed.

(** ** A run *)

(** Whole numbers in place of doubles. *)
#[export] Instance whole_double : Double Z := {
  zero := 0;
  positive := fun d => bool_decide (0 < d);
  ratio := fun n d => Z.of_nat n / d;
  percent := fun n total => 100 * Z.of_nat n / Z.of_nat total;
  index := fun p n => Z.to_nat (p * Z.of_nat n / 100);
  fixed := fun _ d => format_int d
}.

#[export] Instance whole_double_laws : DoubleLaws Z.
Proof.
  split.
  - intros p n Hp. cbn. apply Nat2Z.inj_le. rewrite Z2Nat.id by (apply Z.div_pos; nia).
    apply Z.div_le_upper_bound; nia.
  - intros k d. apply format_int_number.
Qed.

Definition demo_argv : list bytes :=
  [lit "bench"; lit "--seed"; lit "10.0.0.1:11211"; lit "--num-keys"; lit "3"; lit "--value-size"; lit "4";
   lit "--threads"; lit "2"; lit "--output"; lit "out.json"].

Definition demo_bench_config : BenchConfig := mkBenchConfig (lit "10.0.0.1") 11211 3 4 0 2 (lit "out.json").

Definition demo_main : list bytes -> option (Z * bytes * option bytes) :=
  bench_main (D := Z) (fun _ _ => tt) (fun c => (true, c)) (fun _ _ c => (true, 120, c)) (fun _ c => (None, 60, c))
    (fun _ => []) (fun _ => PensieveClient.mkStats 0 0 0 0 0 0) (fun seed => seed) (fun r => (Z.modulo r 16, r + 1)) (fun _ => 1).

Lemma bench_main_reports_witness :
  exists text json put_report get_report, demo_main demo_argv = Some (0, text, Some json) /\
    parse_json json = Some (output_doc (D := Z) put_report get_report demo_bench_config, nl) /\
    total_ops (counted get_report) = 3%nat.
Proof.
  pose proof (bench_main_reports (D := Z) (fun _ _ => tt) (fun c => (true, c)) (fun _ _ c => (true, 120, c)) (fun _ c => (None, 60, c))
    (fun _ => []) (fun _ => PensieveClient.mkStats 0 0 0 0 0 0) (fun seed => seed) (fun r => (Z.modulo r 16, r + 1)) (fun _ => 1)
    demo_argv demo_bench_config ltac:(vm_compute; reflexivity) ltac:(vm_compute; discriminate)) as H.
  change (connect_all (fun _ _ => tt) (fun c => (true, c)) demo_bench_config 1 (Z.to_nat (bc_threads demo_bench_config)))
    with (Some [tt; tt]) in H.
  cbv beta iota zeta in H. rewrite decide_True in H by (split; [discriminate|reflexivity]).
  destruct H as (text & file & E & _ & Hf). destruct Hf as (json & p & g & -> & Hj & Hc); [discriminate|].
  exists text, json, p, g. split; [exact E|]. split; [exact Hj|].
  apply Forall_cons in Hc as [_ Hc]. apply Forall_cons in Hc as [Hc _]. exact (proj1 Hc).
Defined.
