(* ===== verification/Task.v ===== *)
(** * Coroutine tasks ([src/src/io/task.h])

    A [Task] is a lazily started coroutine; [co_await]ing one transfers control
    to it and back when it finishes.  The frames with their promises are a heap,
    control is in one of them, blocked on an I/O completion, or back in the
    event loop for good.  The reference is the direct-style reading of the same
    code: a call that returns a value or throws. *)

From S2P Require Import Prelude.

Section Tasks.
Context {V E : Type}.

(** The code of a coroutine up to its suspension points: [co_return v], a
    [throw], [co_await] of another task, [co_await] of an I/O operation. *)
Inductive code :=
  | Return (v : V)
  | Throw (e : E)
  | AwaitTask (callee : code) (k : V -> code)
  | AwaitIo (k : Z -> code).

(** ** Direct style *)

(** The outcome of a call, given the results of the I/O operations in their
    order; [None] when they run out first. *)
Fixpoint call (c : code) (io : list Z) : option ((V + E) * list Z) :=
  match c with
  | Return v => Some (inl v, io)
  | Throw e => Some (inr e, io)
  | AwaitTask callee k =>
      '(r, io) ← call callee io;
      match r with
      | inl v => call (k v) io
      | inr e => Some (inr e, io)
      end
  | AwaitIo k =>
      match io with
      | res :: io => call (k res) io
      | [] => None
      end
  end.

(** ** Frames and promises *)

Inductive activity :=
  | Resumable (c : code)                          (* at [initial_suspend] or running *)
  | AwaitingTask (child : nat) (k : V -> code)
  | AwaitingIo (k : Z -> code)
  | FinalSuspend.

Record frame := mkFrame {
  body : activity;
  caller : option nat;
  value : option V;
  exception : option E
}.

(** [get_return_object] and [initial_suspend]. *)
Definition new_task (c : code) : frame := mkFrame (Resumable c) None None None.

Definition set_body (f : frame) (a : activity) : frame := mkFrame a (caller f) (value f) (exception f).

(** [Task::await_suspend]: remember the caller. *)
Definition await_suspend (f : frame) (caller : nat) : frame :=
  mkFrame (body f) (Some caller) (value f) (exception f).

Definition return_value (f : frame) (v : V) : frame := mkFrame FinalSuspend (caller f) (Some v) (exception f).
Definition unhandled_exception (f : frame) (e : E) : frame := mkFrame FinalSuspend (caller f) (value f) (Some e).

(** [TaskPromise::result], through [Task::await_resume]: rethrow, or the value. *)
Definition promise_result (f : frame) : option (V + E) :=
  match exception f with
  | Some e => Some (inr e)
  | None => inl <$> value f
  end.

Definition done (f : frame) : bool := match body f with FinalSuspend => true | _ => false end.

(** ** Transfer of control *)

Inductive control := Running (f : nat) | Blocked (f : nat) | Noop.

(** [FinalAwaiter::await_suspend]: to the caller, or to nobody. *)
Definition final_transfer (f : frame) : control :=
  match caller f with
  | Some c => Running c
  | None => Noop
  end.

Record machine := mkMachine {
  frames : gmap nat frame;
  at_control : control;
  inputs : list Z
}.

(** One transfer. *)
Definition step (m : machine) : option machine :=
  match at_control m with
  | Noop => None
  | Blocked f =>
      fr ← frames m !! f;
      match body fr, inputs m with
      | AwaitingIo k, res :: io =>
          Some (mkMachine (<[f := set_body fr (Resumable (k res))]> (frames m)) (Running f) io)
      | _, _ => None
      end
  | Running f =>
      fr ← frames m !! f;
      match body fr with
      | Resumable (Return v) =>
          Some (mkMachine (<[f := return_value fr v]> (frames m)) (final_transfer fr) (inputs m))
      | Resumable (Throw e) =>
          Some (mkMachine (<[f := unhandled_exception fr e]> (frames m)) (final_transfer fr) (inputs m))
      | Resumable (AwaitTask callee k) =>
          let g := fresh (dom (frames m)) in
          Some (mkMachine (<[g := await_suspend (new_task callee) f]>
                            (<[f := set_body fr (AwaitingTask g k)]> (frames m)))
                  (Running g) (inputs m))
      | Resumable (AwaitIo k) =>
          Some (mkMachine (<[f := set_body fr (AwaitingIo k)]> (frames m)) (Blocked f) (inputs m))
      | AwaitingTask g k =>
          (* [await_resume], then the awaited [Task] is destroyed *)
          child ← frames m !! g;
          r ← promise_result child;
          Some (mkMachine (<[f := set_body fr (Resumable (match r with inl v => k v | inr e => Throw e end))]>
                            (delete g (frames m)))
                  (Running f) (inputs m))
      | _ => None
      end
  end.

Fixpoint steps (n : nat) (m : machine) : option machine :=
  match n with
  | O => Some m
  | S n => m' ← step m; steps n m'
  end.

(** [Task::start] of a task that nobody awaits. *)
Definition start (c : code) (io : list Z) : machine := mkMachine {[0%nat := new_task c]} (Running 0) io.

(** ** Calls *)

Lemma steps_app n1 n2 m m1 m2 : steps n1 m = Some m1 -> steps n2 m1 = Some m2 -> steps (n1 + n2) m = Some m2.
Proof.
  revert m. induction n1 as [|n1 IH]; intros m H1 H2; simpl in *; [by simplify_eq|].
  apply bind_Some in H1 as (m' & E1 & H1). rewrite E1. simpl. by apply IH.
Qed.

Lemma steps_S n m m' m'' : step m = Some m' -> steps n m' = Some m'' -> steps (S n) m = Some m''.
Proof. intros E1 E2. simpl. by rewrite E1. Qed.

(** The frame of a finished call. *)
Definition finished (c : option nat) (r : V + E) : frame :=
  match r with
  | inl v => mkFrame FinalSuspend c (Some v) None
  | inr e => mkFrame FinalSuspend c None (Some e)
  end.

Lemma finished_result c r : promise_result (finished c r) = Some r.
Proof. by destruct r. Qed.

(** The running frame is the one just written. *)
Ltac one_step :=
  unfold step; cbn [at_control frames inputs]; rewrite lookup_insert_eq;
  cbn [mbind option_bind body inputs set_body caller value exception]; rewrite insert_insert_eq; cbn [mbind option_bind].

(** A frame that runs [c] ends as the call ends, with control where it came
    from, every frame it created gone and the other frames as they were. *)
Lemma steps_call c F f who io r io' :
  call c io = Some (r, io') ->
  exists n, steps n (mkMachine (<[f := mkFrame (Resumable c) who None None]> F) (Running f) io) =
    Some (mkMachine (<[f := finished who r]> F)
            (match who with Some g => Running g | None => Noop end) io').
Proof.
  revert F f who io r io'. induction c as [v|e|callee IHc k IHk|k IHk]; intros F f who io r io' Hc; simpl in Hc.
  - simplify_eq. exists 1%nat. cbn [steps]. one_step. by destruct who.
  - simplify_eq. exists 1%nat. cbn [steps]. one_step. by destruct who.
  - apply bind_Some in Hc as ([r1 io1] & H1 & H2). set (m0 := <[f := mkFrame (Resumable (AwaitTask callee k)) who None None]> F).
    set (g := fresh (dom m0)). assert (g ∉ dom m0) as Hg by apply is_fresh.
    assert (g <> f /\ F !! g = None) as [Hgf HFg].
    { subst m0. rewrite dom_insert, not_elem_of_union, not_elem_of_singleton in Hg. split; [apply Hg|].
      apply not_elem_of_dom, Hg. }
    set (Fw := <[f := mkFrame (AwaitingTask g k) who None None]> F).
    destruct (IHc Fw g (Some f) io r1 io1 H1) as [n1 Hn1].
    assert (step (mkMachine m0 (Running f) io) =
      Some (mkMachine (<[g := mkFrame (Resumable callee) (Some f) None None]> Fw) (Running g) io)) as Hs1.
    { assert (m0 !! f = Some (mkFrame (Resumable (AwaitTask callee k)) who None None)) as Hf by apply lookup_insert_eq.
      assert (<[f := mkFrame (AwaitingTask g k) who None None]> m0 = Fw) as Hw by apply insert_insert_eq.
      unfold step. cbn [at_control frames]. rewrite Hf. cbn [mbind option_bind body]. fold g. by rewrite <- Hw. }
    assert (step (mkMachine (<[g := finished (Some f) r1]> Fw) (Running f) io1) =
      Some (mkMachine (<[f := mkFrame (Resumable (match r1 with inl v => k v | inr e => Throw e end)) who None None]> F)
              (Running f) io1)) as Hs2.
    { assert (Fw !! f = Some (mkFrame (AwaitingTask g k) who None None)) as Hf by apply lookup_insert_eq.
      unfold step. cbn [at_control frames]. rewrite lookup_insert_ne, Hf by done. cbn [mbind option_bind body]. rewrite lookup_insert_eq. cbn [mbind option_bind]. rewrite finished_result.
      cbn [mbind option_bind]. rewrite delete_insert_id.
      - unfold Fw. by rewrite insert_insert_eq.
      - unfold Fw. by rewrite lookup_insert_ne. }
    assert (exists n2, steps n2 (mkMachine (<[f := mkFrame (Resumable (match r1 with inl v => k v | inr e => Throw e end)) who None None]> F)
              (Running f) io1) = Some (mkMachine (<[f := finished who r]> F)
            (match who with Some g => Running g | None => Noop end) io')) as [n2 Hn2].
    { destruct r1 as [v|e]; [by apply IHk|]. simplify_eq. exists 1%nat. cbn [steps]. one_step. by destruct who. }
    exists (S (n1 + S n2)). eapply steps_S; [exact Hs1|]. eapply steps_app; [exact Hn1|]. by eapply steps_S.
  - destruct io as [|res io]; [done|]. destruct (IHk res F f who io r io' Hc) as [n Hn].
    exists (S (S n)). eapply steps_S; [|eapply steps_S; [|exact Hn]].
    + by one_step.
    + by one_step.
Qed.

(** C15: Awaiting a task is calling it.  For every coroutine, however deeply it
    awaits other tasks and wherever it suspends for I/O, started and driven by
    the completions of its operations it terminates exactly as the same code
    read as ordinary calls: with the same value or the same exception, passed on
    through every caller, after the same I/O; and every frame it created on the
    way has been destroyed. *)
Theorem task_runs_as_call c io r io' :
  call c io = Some (r, io') ->
  exists n, steps n (start c io) = Some (mkMachine {[0%nat := finished None r]} Noop io') /\
    promise_result (finished None r) = Some r.
Proof.
  intros Hc. destruct (steps_call c ∅ 0 None io r io' Hc) as [n Hn]. exists n.
  split; [exact Hn|apply finished_result].
Qed.
End Tasks.

(** ** Tasks without a value *)

Section Void.
Context {E : Type}.
Implicit Types (f : @frame unit E).

(** [TaskPromise<void>]: there is no value to store, and [result] rethrows or
    returns. *)
Definition return_void f : @frame unit E := mkFrame FinalSuspend (caller f) (value f) (exception f).
Definition void_result f : unit + E := match exception f with Some e => inr e | None => inl tt end.

(** It is the promise of a one-element type. *)
Lemma void_promise f : promise_result (return_value f tt) = Some (void_result (return_void f)).
Proof. unfold promise_result, void_result. cbn. by destruct (exception f). Qed.
End Void.

(** A task that awaits two others around a read; the second throws when the
    read returned nothing. *)
Definition demo_task : code (V := Z) (E := bytes) :=
  AwaitTask (AwaitIo (fun n => Return n))
    (fun n => AwaitTask (if decide (n <= 0)%Z then Throw (lit "closed") else Return (n + 1)%Z) Return).

Lemma task_runs_as_call_witness :
  exists n, steps n (start demo_task [0%Z]) = Some (mkMachine {[0%nat := finished None (inr (lit "closed"))]} Noop []).
Proof.
  destruct (task_runs_as_call demo_task [0%Z] (inr (lit "closed")) []) as (n & H & _); [reflexivity|].
  exists n. exact H.
Defined.
