(* ===== verification/TaskHandle.v ===== *)
(** * Who owns a coroutine ([src/src/io/task.h]: [Task]'s constructors,
    assignment and destructor; [spawn] of [src/src/membership/swim_protocol.cpp]
    and of [src/src/coordinator/coordinator.cpp], and the connections of
    [src/src/main.cpp])

    [Task] has what happens when a coroutine is awaited.  Here a [Task] is an
    object that owns a frame: it is moved, assigned over, kept in a vector until
    it is done, and destroyed, while the event loop resumes the frames whose
    operations have completed. *)

From stdpp Require Import relations.
From S2P Require Import Prelude.

(** ** Frames and objects *)

(** A frame is suspended at its start, at an I/O operation, or at its end. *)
Inductive status := Created | Suspended | Done.

#[export] Instance status_eq_dec : EqDecision status.
Proof. solve_decision. Defined.

(** The living [Task] objects by address, each with its [handle_]; the elements of
    a vector of detached tasks are among them.  [cut]: the frames destroyed while
    an operation was under way; [bad]: frames destroyed or resumed that were not
    there. *)
Record world := mkWorld {
  objects : gmap nat (option nat);
  detached_ : list nat;
  frames : gmap nat status;
  cut : gset nat;
  bad : list nat
}.

Definition set_objects (w : world) (o : gmap nat (option nat)) : world := mkWorld o (detached_ w) (frames w) (cut w) (bad w).
Definition set_detached (w : world) (d : list nat) : world := mkWorld (objects w) d (frames w) (cut w) (bad w).

(** Calling a coroutine: a frame, suspended at [initial_suspend], and the [Task]
    that [get_return_object] returns. *)
Definition call_coroutine (w : world) (p f : nat) : world :=
  mkWorld (<[p := Some f]> (objects w)) (detached_ w) (<[f := Created]> (frames w)) (cut w) (bad w).

(** [Task() = default]. *)
Definition default_task (w : world) (p : nat) : world := set_objects w (<[p := None]> (objects w)).

(** [handle_.destroy()]. *)
Definition destroy_frame (w : world) (f : nat) : world :=
  match frames w !! f with
  | Some st =>
      mkWorld (objects w) (detached_ w) (delete f (frames w))
        (if decide (st = Suspended) then {[f]} ∪ cut w else cut w) (bad w)
  | None => mkWorld (objects w) (detached_ w) (frames w) (cut w) (bad w ++ [f])
  end.

(** [if (handle_) handle_.destroy()]. *)
Definition destroy_handle (w : world) (p : nat) : world :=
  match objects w !! p with
  | Some (Some f) => destroy_frame w f
  | _ => w
  end.

Definition destroy (w : world) (p : nat) : world :=
  let w := destroy_handle w p in set_objects w (delete p (objects w)).

Definition move_construct (w : world) (p other : nat) : world :=
  match objects w !! other with
  | Some handle => set_objects w (<[other := None]> (<[p := handle]> (objects w)))
  | None => w
  end.

Definition move_assign (w : world) (p other : nat) : world :=
  if decide (p = other) then w else
  let w := destroy_handle w p in
  match objects w !! other with
  | Some handle => set_objects w (<[other := None]> (<[p := handle]> (objects w)))
  | None => w
  end.

(** Running a frame to its next suspension, which is [outcome]. *)
Definition resume (w : world) (f : nat) (outcome : status) : world :=
  match frames w !! f with
  | Some _ => mkWorld (objects w) (detached_ w) (<[f := outcome]> (frames w)) (cut w) (bad w)
  | None => mkWorld (objects w) (detached_ w) (frames w) (cut w) (bad w ++ [f])
  end.

(** [Task::done]. *)
Definition done (w : world) (p : nat) : bool :=
  match objects w !! p with
  | Some (Some f) => bool_decide (frames w !! f = Some Done)
  | _ => true
  end.

Definition start (w : world) (p : nat) (outcome : status) : world :=
  match objects w !! p with
  | Some (Some f) => if decide (frames w !! f = Some Done) then w else resume w f outcome
  | _ => w
  end.

(** [std::erase_if(detached_, done)]. *)
Definition erase_done (w : world) : world :=
  let gone := filter (fun p => done w p = true) (detached_ w) in
  let kept := filter (fun p => done w p <> true) (detached_ w) in
  set_detached (foldl destroy w gone) kept.

(** [spawn], for the task at [p] and the new element [q] of the vector; the
    argument itself is destroyed by the caller. *)
Definition spawn (w : world) (p q : nat) (outcome : status) : world :=
  let w := start w p outcome in
  let w := move_construct w q p in
  let w := set_detached w (detached_ w ++ [q]) in
  erase_done w.

(** The callback of the listener in [main]: the task at [p] serves the connection;
    what is left of it goes at the end of the callback. *)
Definition on_accept (w : world) (p q f : nat) (outcome : status) : world :=
  destroy (spawn (call_coroutine w p f) p q outcome) p.

(** ** What the program does with its tasks *)

Inductive task_step : world -> world -> Prop :=
  | ts_call w p f : objects w !! p = None -> frames w !! f = None -> f ∉ cut w -> task_step w (call_coroutine w p f)
  | ts_default w p : objects w !! p = None -> task_step w (default_task w p)
  | ts_move w p other : objects w !! p = None -> task_step w (move_construct w p other)
  | ts_assign w p other :
      is_Some (objects w !! p) -> is_Some (objects w !! other) -> task_step w (move_assign w p other)
  | ts_destroy w p : p ∉ detached_ w -> task_step w (destroy w p)
  | ts_start w p f outcome :
      objects w !! p = Some (Some f) -> frames w !! f = Some Created -> outcome <> Created ->
      task_step w (start w p outcome)
  | ts_spawn w p q f outcome :
      objects w !! p = Some (Some f) -> frames w !! f = Some Created -> outcome <> Created ->
      p ∉ detached_ w -> objects w !! q = None -> task_step w (spawn w p q outcome)
  | ts_complete w f outcome :
      (* the kernel still knows the operation of a frame that was destroyed *)
      frames w !! f = Some Suspended \/ f ∈ cut w -> outcome <> Created -> task_step w (resume w f outcome).

Definition start_world : world := mkWorld ∅ [] ∅ ∅ [].

(** ** The invariant *)

Definition owns (w : world) (p f : nat) : Prop := objects w !! p = Some (Some f).

Record task_inv (w : world) : Prop := {
  ti_one p q f : owns w p f -> owns w q f -> p = q;
  ti_live p f : owns w p f -> is_Some (frames w !! f);
  ti_owned f : is_Some (frames w !! f) -> exists p, owns w p f;
  ti_cut f : f ∈ cut w -> frames w !! f = None;
  ti_bad : Forall (fun f => f ∈ cut w) (bad w)
}.

(** The object at [p] has given up its frame. *)
Definition nullify (w : world) (p : nat) : world :=
  match objects w !! p with
  | Some _ => set_objects (destroy_handle w p) (<[p := None]> (objects w))
  | None => w
  end.

Lemma objects_destroy_handle w p : objects (destroy_handle w p) = objects w.
Proof. unfold destroy_handle, destroy_frame. by repeat case_match. Qed.

Lemma owns_set w p h q f :
  owns (set_objects w (<[p := h]> (objects w))) q f <-> (q = p /\ h = Some f) \/ (q <> p /\ owns w q f).
Proof. unfold owns. cbn. rewrite lookup_insert_Some. naive_solver. Qed.

Lemma nullify_inv w p : task_inv w -> task_inv (nullify w p).
Proof.
  intros [Ho Hl Hw Hc Hb]. unfold nullify. destruct (objects w !! p) as [[f|]|] eqn:Ep; [| |done].
  - destruct (Hl p f Ep) as [st Hst]. unfold destroy_handle, destroy_frame. rewrite Ep, Hst.
    assert (forall q g, objects w !! q = Some (Some g) -> q <> p -> g <> f) as Hne
      by (intros q g Hq Hqp ->; apply Hqp; by apply (Ho q p f)).
    split; unfold owns; cbn.
    + intros q r g [[_ ?]|[_ Hq]]%lookup_insert_Some [[_ ?]|[_ Hr]]%lookup_insert_Some; [done..|by apply (Ho q r g)].
    + intros q g [[_ ?]|[Hqp Hq]]%lookup_insert_Some; [done|]. rewrite lookup_delete_ne; [by apply (Hl q g)|]. symmetry. by apply (Hne q).
    + intros g Hg. destruct (decide (f = g)) as [<-|Hfg]; [rewrite lookup_delete_eq in Hg; by destruct Hg|].
      rewrite lookup_delete_ne in Hg by done. destruct (Hw g Hg) as [q Hq]. exists q.
      rewrite lookup_insert_ne; [done|]. intros <-. unfold owns in Hq. congruence.
    + intros g Hg. apply lookup_delete_None. destruct (decide (f = g)) as [|Hfg]; [by left|right]. apply Hc. case_decide; set_solver.
    + eapply Forall_impl; [exact Hb|]. cbn. intros g Hg. case_decide; set_solver.
  - unfold destroy_handle. rewrite Ep. cbn. rewrite insert_id by done. by split.
Qed.

(** Dropping or adding an object without a frame, moving a frame. *)
Lemma drop_task_inv w p :
  task_inv w -> (forall f, ~ owns w p f) -> task_inv (set_objects w (delete p (objects w))).
Proof.
  intros [Ho Hl Hw Hc Hb] Hp. split; unfold owns in *; cbn; [| | |done..].
  - intros q r g [_ Hq]%lookup_delete_Some [_ Hr]%lookup_delete_Some. by apply (Ho q r g).
  - intros q g [_ Hq]%lookup_delete_Some. by apply (Hl q g).
  - intros g Hg. destruct (Hw g Hg) as [q Hq]. exists q. apply lookup_delete_Some. split; [|done]. intros <-. by apply (Hp g).
Qed.

Lemma move_task_inv w p other handle :
  task_inv w -> p <> other -> (forall f, ~ owns w p f) -> objects w !! other = Some handle ->
  task_inv (set_objects w (<[other := None]> (<[p := handle]> (objects w)))).
Proof.
  intros [Ho Hl Hw Hc Hb] Hne Hp Hother.
  assert (forall q f, <[other := None]> (<[p := handle]> (objects w)) !! q = Some (Some f) <->
    (q = p /\ owns w other f) \/ (q <> p /\ q <> other /\ owns w q f)) as Hiff.
  { intros q f. unfold owns. rewrite !lookup_insert_Some. naive_solver. }
  split; unfold owns; cbn; [| | |done..].
  - intros q r g [[-> Hq]|(? & ? & Hq)]%Hiff [[-> Hr]|(? & ? & Hr)]%Hiff; [done|..|by apply (Ho q r g)];
      pose proof (Ho _ _ _ Hq Hr); congruence.
  - intros q g [[-> Hq]|(? & ? & Hq)]%Hiff; by apply (Hl _ _ Hq).
  - intros g Hg. destruct (Hw g Hg) as [q Hq]. destruct (decide (q = other)) as [->|Hqo].
    + exists p. apply Hiff. by left.
    + exists q. apply Hiff. right. split; [|done]. intros ->. by apply (Hp g).
Qed.

Lemma nullify_disowns w p f : ~ owns (nullify w p) p f.
Proof.
  unfold nullify, owns. destruct (objects w !! p) eqn:Ep; cbn; [rewrite lookup_insert_eq|rewrite Ep]; done.
Qed.

Lemma destroy_nullify w p : destroy w p = set_objects (nullify w p) (delete p (objects (nullify w p))).
Proof.
  unfold destroy, nullify. rewrite objects_destroy_handle. destruct (objects w !! p) eqn:Ep; cbn.
  - by rewrite delete_insert_eq.
  - unfold destroy_handle. by rewrite Ep.
Qed.

Lemma destroy_inv w p : task_inv w -> task_inv (destroy w p).
Proof. intros Hw. rewrite destroy_nullify. apply drop_task_inv; [by apply nullify_inv|apply nullify_disowns]. Qed.

Lemma move_construct_inv w p other : task_inv w -> objects w !! p = None -> task_inv (move_construct w p other).
Proof.
  intros Hw Hp. unfold move_construct. destruct (objects w !! other) eqn:Eo; [|done].
  apply move_task_inv; [done| |unfold owns; congruence|done]. congruence.
Qed.

Lemma move_assign_inv w p other :
  task_inv w -> is_Some (objects w !! p) -> is_Some (objects w !! other) -> task_inv (move_assign w p other).
Proof.
  intros Hw [h Hp] [h' Ho]. unfold move_assign. case_decide as Hne; [done|]. rewrite objects_destroy_handle, Ho.
  pose proof (nullify_inv w p Hw) as Hn. pose proof (nullify_disowns w p) as Hd. unfold nullify in *. rewrite Hp in *.
  apply (move_task_inv _ p other h') in Hn; [|done..|by cbn; rewrite lookup_insert_ne].
  cbn in Hn. by rewrite insert_insert_eq in Hn.
Qed.

Lemma resume_inv w f outcome :
  task_inv w -> is_Some (frames w !! f) \/ f ∈ cut w -> task_inv (resume w f outcome).
Proof.
  intros [Ho Hl Hw Hc Hb] Hf. unfold resume. destruct (frames w !! f) as [st|] eqn:Ef.
  - assert (forall g, is_Some (<[f := outcome]> (frames w) !! g) <-> is_Some (frames w !! g)) as Hiff.
    { intros g. destruct (decide (f = g)) as [<-|]; [rewrite lookup_insert_eq, Ef; split; by eexists|by rewrite lookup_insert_ne]. }
    split; unfold owns in *; cbn; [done| | |..|done].
    + intros p g Hp. apply Hiff. by apply (Hl p).
    + intros g Hg%Hiff. by apply Hw.
    + intros g Hg. apply Hc in Hg. apply eq_None_not_Some. rewrite Hiff. by apply eq_None_not_Some.
  - destruct Hf as [[? ?]|Hf]; [done|]. split; [done..|]. cbn. apply Forall_app. by split; [|apply Forall_singleton].
Qed.

Lemma start_inv w p outcome : task_inv w -> task_inv (start w p outcome).
Proof.
  intros Hw. unfold start. destruct (objects w !! p) as [[f|]|] eqn:Ep; [|done..]. case_decide; [done|].
  apply resume_inv; [done|]. left. by apply (ti_live _ Hw p).
Qed.

Lemma erase_done_inv w : task_inv w -> task_inv (erase_done w).
Proof.
  intros Hw. unfold erase_done. generalize (filter (fun p => done w p = true) (detached_ w)).
  generalize (filter (fun p => done w p <> true) (detached_ w)). intros kept gone.
  assert (task_inv (foldl destroy w gone)) as [] by (revert w Hw; induction gone as [|p gone IH]; intros w Hw; [done|]; by apply IH, destroy_inv).
  by split.
Qed.

Lemma task_step_inv w w' : task_step w w' -> task_inv w -> task_inv w'.
Proof.
  destruct 1 as [w p f Hp Hf Hc|w p Hp|w p other Hp|w p other Hp Ho|w p _|w p f o _ _ _|w p q f o Hp _ _ _ Hq|w f o Hf _]; intros Hw.
  - destruct Hw as [Ho Hl Hw Hcut Hb]. split; unfold owns in *; cbn; [| | | |done].
    + intros q r g [[-> [= ->]]|[? Hq]]%lookup_insert_Some [[-> Hg]|[? Hr]]%lookup_insert_Some; [done|..|by apply (Ho q r g)].
      * destruct (Hl _ _ Hr). congruence.
      * simplify_eq. destruct (Hl _ _ Hq). congruence.
    + intros q g [[-> [= ->]]|[? Hq]]%lookup_insert_Some; [rewrite lookup_insert_eq; by eexists|].
      destruct (Hl _ _ Hq) as [st Hst]. rewrite lookup_insert_ne by congruence. by eexists.
    + intros g Hg. destruct (decide (f = g)) as [<-|Hfg]; [exists p; by rewrite lookup_insert_eq|].
      rewrite lookup_insert_ne in Hg by done. destruct (Hw _ Hg) as [q Hq]. exists q.
      rewrite lookup_insert_ne by congruence. done.
    + intros g Hg. rewrite lookup_insert_ne by set_solver. by apply Hcut.
  - destruct Hw as [Ho Hl Hw Hcut Hb]. unfold default_task. split; [..|done|done]; intros *; rewrite ?owns_set.
    + intros [[_ ?]|[_ ?]] [[_ ?]|[_ ?]]; naive_solver.
    + intros [[_ ?]|[_ Hq]]; [done|]. by apply (Hl p0).
    + intros [q Hq]%Hw. exists q. rewrite owns_set. right. split; [|done]. unfold owns in Hq. congruence.
  - by apply move_construct_inv.
  - by apply move_assign_inv.
  - by apply destroy_inv.
  - by apply start_inv.
  - unfold spawn. apply erase_done_inv. assert (objects (start w p o) = objects w) as Es.
    { unfold start, resume. by repeat case_match. }
    destruct (move_construct_inv (start w p o) q p) as []; [by apply start_inv|by rewrite Es|]. by split.
  - apply resume_inv; [done|]. destruct Hf as [->|]; [left; by eexists|by right].
Qed.

Lemma task_steps_inv w w' : rtc task_step w w' -> task_inv w -> task_inv w'.
Proof. induction 1; eauto using task_step_inv. Qed.

Lemma start_world_inv : task_inv start_world.
Proof. split; unfold owns; cbn; intros *; rewrite ?lookup_empty; done. Qed.

(** ** Erasing finished tasks *)

(** Destroying a finished task touches nothing else. *)
Lemma destroy_done w p :
  task_inv w -> done w p = true ->
  cut (destroy w p) = cut w /\ bad (destroy w p) = bad w /\ objects (destroy w p) = delete p (objects w) /\
  (forall q f, q <> p -> owns w q f -> frames (destroy w p) !! f = frames w !! f).
Proof.
  intros Hw Hd. unfold destroy, destroy_handle, done in *.
  destruct (objects w !! p) as [[f|]|] eqn:Ep; [|done..]. apply bool_decide_eq_true in Hd.
  unfold destroy_frame. rewrite Hd. cbn. split_and!; [done..|].
  intros q g Hq Hg. rewrite lookup_delete_ne; [done|]. intros <-. apply Hq. by apply (ti_one _ Hw q p f).
Qed.

Lemma destroy_done_others w p q : task_inv w -> done w p = true -> p <> q -> done (destroy w p) q = done w q.
Proof.
  intros Hw Hd Hne. destruct (destroy_done w p Hw Hd) as (_ & _ & Eo & Hf). unfold done. rewrite Eo, lookup_delete_ne by done.
  destruct (objects w !! q) as [[f|]|] eqn:Eq; [|done..]. by rewrite (Hf q f).
Qed.

Lemma destroy_all_done w ps :
  task_inv w -> Forall (fun p => done w p = true) ps ->
  let w' := foldl destroy w ps in
  cut w' = cut w /\ bad w' = bad w /\
  (forall q, q ∉ ps -> objects w' !! q = objects w !! q) /\ (forall q, q ∈ ps -> objects w' !! q = None) /\
  (forall q f, q ∉ ps -> owns w q f -> frames w' !! f = frames w !! f).
Proof.
  cbv zeta. revert w. induction ps as [|p ps IH]; intros w Hw Hd; cbn [foldl]; [split_and!; set_solver|].
  apply Forall_cons in Hd as [Hp Hd]. destruct (destroy_done w p Hw Hp) as (E1 & E2 & E3 & E4).
  destruct (IH (destroy w p)) as (H1 & H2 & H3 & H4 & H5).
  - by apply destroy_inv.
  - eapply Forall_impl; [exact Hd|]. intros q Hq. cbn in Hq. destruct (decide (p = q)) as [<-|Hne]; [|by rewrite destroy_done_others].
    unfold done. by rewrite E3, lookup_delete_eq.
  - split_and!; [congruence..| | |].
    + intros q [? ?]%not_elem_of_cons. rewrite H3 by done. rewrite E3, lookup_delete_ne by done. done.
    + intros q Hq. destruct (decide (q ∈ ps)); [by apply H4|]. rewrite H3 by done.
      apply elem_of_cons in Hq as [->|]; [|done]. by rewrite E3, lookup_delete_eq.
    + intros q f [? ?]%not_elem_of_cons Hq. rewrite (H5 q); [by apply (E4 q)|done|]. unfold owns. by rewrite E3, lookup_delete_ne.
Qed.

Lemma erase_done_spec w :
  task_inv w ->
  cut (erase_done w) = cut w /\ bad (erase_done w) = bad w /\
  (forall p, p ∈ detached_ (erase_done w) <-> p ∈ detached_ w /\ done w p = false) /\
  (forall p f, done w p = false -> owns w p f ->
     owns (erase_done w) p f /\ frames (erase_done w) !! f = frames w !! f).
Proof.
  intros Hw. unfold erase_done. set (gone := filter (fun p => done w p = true) (detached_ w)).
  assert (Forall (fun p => done w p = true) gone) as Hg by (apply Forall_forall; by intros p [? _]%list_elem_of_filter).
  assert (forall p, done w p = false -> p ∉ gone) as Hn by (intros p Hp [? _]%list_elem_of_filter; congruence).
  destruct (destroy_all_done w gone Hw Hg) as (H1 & H2 & H3 & _ & H5). cbn. split_and!; [done..| |].
  - intros p. rewrite list_elem_of_filter. rewrite not_true_iff_false. tauto.
  - intros p f Hd Hp. split; [unfold owns; cbn; rewrite H3 by auto; exact Hp|]. by apply (H5 p); [apply Hn|].
Qed.

(** The state between [push_back] and [erase_if]. *)
Lemma spawn_pushed w p q f outcome :
  task_inv w -> owns w p f -> frames w !! f = Some Created -> objects w !! q = None ->
  exists s, spawn w p q outcome = erase_done s /\ task_inv s /\
    objects s = <[p := None]> (<[q := Some f]> (objects w)) /\ detached_ s = detached_ w ++ [q] /\
    frames s = <[f := outcome]> (frames w) /\ cut s = cut w /\ bad s = bad w.
Proof.
  intros Hw Hp Hf Hq. unfold spawn. unfold owns in Hp.
  assert (start w p outcome = mkWorld (objects w) (detached_ w) (<[f := outcome]> (frames w)) (cut w) (bad w)) as Es.
  { unfold start, resume. rewrite Hp, Hf. by rewrite decide_False. }
  eexists. split; [reflexivity|]. split.
  - destruct (move_construct_inv (start w p outcome) q p) as []; [by apply start_inv|by rewrite Es|by split].
  - rewrite Es. unfold move_construct. cbn. rewrite Hp. done.
Qed.

(** C29: Coroutine frames have one owner and are destroyed once.  However tasks
    are created, started, moved, assigned over, spawned and destroyed: every frame
    belongs to exactly one [Task] and every [Task] with a handle to a living frame,
    so none leaks and none is destroyed twice; a frame that is resumed or destroyed
    after its end was destroyed with an operation under way.  [spawn] never does
    that: it destroys finished tasks only, leaves every suspended one in place, and
    keeps the new one until it is done. *)
Theorem tasks_own_frames w :
  rtc task_step start_world w ->
  Forall (fun f => f ∈ cut w) (bad w) /\
  (forall f, is_Some (frames w !! f) <-> exists p, owns w p f) /\
  (forall p q f, owns w p f -> owns w q f -> p = q) /\
  (forall p q f outcome, owns w p f -> frames w !! f = Some Created -> objects w !! q = None ->
     let w' := spawn w p q outcome in
     cut w' = cut w /\ bad w' = bad w /\
     (forall r, r ∈ detached_ w' -> r ∈ detached_ w \/ r = q) /\
     (forall r g, owns w r g -> frames w !! g = Some Suspended -> owns w' r g /\ frames w' !! g = Some Suspended) /\
     (outcome = Suspended -> q ∈ detached_ w' /\ owns w' q f /\ frames w' !! f = Some Suspended)).
Proof.
  intros Hr. assert (task_inv w) as Hw by (eapply task_steps_inv, start_world_inv; exact Hr).
  split_and!; [apply Hw|intros f; split; [apply Hw|by intros [p ?%(ti_live _ Hw)]]|apply Hw|].
  intros p q f outcome Hp Hf Hq. cbv zeta.
  destruct (spawn_pushed w p q f outcome Hw Hp Hf Hq) as (s & -> & Hs & Eo & Ed & Ef & Ec & Eb).
  destruct (erase_done_spec s Hs) as (H1 & H2 & H3 & H4). split_and!; [congruence..| | |].
  - intros r [Hin _]%H3. rewrite Ed in Hin. set_solver.
  - intros r g Hr' Hg. assert (owns s r g) as Hrs.
    { unfold owns in *. rewrite Eo, !lookup_insert_ne by congruence. done. }
    assert (frames s !! g = Some Suspended) as Hgs by (rewrite Ef, lookup_insert_ne by congruence; done).
    destruct (H4 r g) as [? ->]; [|done|done]. unfold done. unfold owns in Hrs. rewrite Hrs, Hgs. done.
  - intros ->. assert (owns s q f) as Hqs.
    { unfold owns in *. rewrite Eo, lookup_insert_ne by congruence. apply lookup_insert_eq. }
    assert (frames s !! f = Some Suspended) as Hfs by (rewrite Ef; apply lookup_insert_eq).
    assert (done s q = false) as Hdone by (unfold done; unfold owns in Hqs; by rewrite Hqs, Hfs).
    destruct (H4 q f Hdone Hqs) as [? ->]. split; [|done]. apply H3. rewrite Ed. set_solver.
Qed.

(** Accepting a connection is such a sequence of steps. *)
Lemma on_accept_steps w p q f outcome :
  objects w !! p = None -> objects w !! q = None -> p <> q -> p ∉ detached_ w -> frames w !! f = None -> f ∉ cut w ->
  outcome <> Created -> rtc task_step w (on_accept w p q f outcome).
Proof.
  intros Hp Hq Hpq Hd Hf Hc Ho. unfold on_accept.
  eapply rtc_l; [by apply (ts_call w p f)|]. eapply rtc_l.
  - apply (ts_spawn _ p q f outcome); [by apply lookup_insert_eq..|done|done|]. cbn. by rewrite lookup_insert_ne.
  - apply rtc_once, ts_destroy. unfold spawn, erase_done. cbn. intros [_ Hin]%list_elem_of_filter. revert Hin.
    unfold start, resume. cbn. rewrite !lookup_insert_eq. rewrite decide_False by congruence. cbn.
    unfold move_construct. cbn. rewrite lookup_insert_eq. cbn. set_solver.
Qed.

(** Two connections: the first has finished when the second arrives. *)
Definition demo_tasks : world :=
  spawn (call_coroutine (resume (spawn (call_coroutine start_world 0 10) 0 1 Suspended) 10 Done) 2 11) 2 3 Suspended.

Lemma tasks_own_frames_witness :
  detached_ demo_tasks = [3%nat] /\ frames demo_tasks = {[11%nat := Suspended]} /\ owns demo_tasks 3 11 /\
  Forall (fun f => f ∈ cut demo_tasks) (bad demo_tasks).
Proof.
  split; [vm_compute; reflexivity|]. split; [vm_compute; reflexivity|]. split; [vm_compute; reflexivity|].
  apply (tasks_own_frames demo_tasks). unfold demo_tasks.
  eapply rtc_l; [apply (ts_call start_world 0 10); [reflexivity..|apply not_elem_of_empty]|].
  eapply rtc_l; [apply (ts_spawn _ 0 1 10 Suspended); [reflexivity..|discriminate|apply not_elem_of_nil|reflexivity]|].
  eapply rtc_l; [apply (ts_complete _ 10 Done); [left; reflexivity|discriminate]|].
  eapply rtc_l; [apply (ts_call _ 2 11); [reflexivity..|refine (bool_decide_unpack _ _); vm_compute; exact I]|].
  eapply rtc_l; [apply (ts_spawn _ 2 3 11 Suspended); [reflexivity..|discriminate|refine (bool_decide_unpack _ _); vm_compute; exact I|reflexivity]|].
  apply rtc_refl.
Defined.
