(* ===== verification/IoUring.v ===== *)
(** * The event loop ([src/src/io/io_uring_context.{h,cpp}],
    [src/src/io/awaitable.h], the callbacks of [src/src/io/tcp_connection.cpp])

    Operations are queued with a pointer to their [Completion], handed to the
    kernel, completed in any order and dispatched by the loop: a coroutine is
    resumed, a callback called.  The kernel's rings are lists; a pointer is a
    number. *)

From stdpp Require Import relations.
From S2P Require Import Prelude.

Local Open Scope Z_scope.

(** ** Completions *)

(** A [Completion] with the callback or the coroutine it is for. *)
Inductive target := Callback (cb : option nat) (owns : bool) | Coroutine (h : option nat).

Record Completion := mkCompletion {
  comp_target : target;
  comp_result : Z     (* int32_t *)
}.

Definition from_callback (cb : nat) : Completion := mkCompletion (Callback (Some cb) false) 0.
Definition from_coroutine (h : nat) : Completion := mkCompletion (Coroutine (Some h)) 0.

(** [make_owned_completion]: the completion and the callback in one allocation,
    which the loop deletes. *)
Definition make_owned_completion (cb : nat) : Completion := mkCompletion (Callback (Some cb) true) 0.

(** ** The rings *)

(** The [msghdr] of a datagram with its one [iovec]; addresses are numbers. *)
Record msghdr := mkMsghdr {
  msg_name : option nat;
  msg_namelen : Z;
  iov_base : nat;
  iov_len : Z;
  msg_iovlen : Z
}.

Definition sizeof_sockaddr_in : Z := 16.

(** The constructors of [UdpRecvAwaitable] and [UdpSendAwaitable]; the latter
    points at its own copy of the address. *)
Definition recv_msghdr (buf : nat) (len : Z) (src_addr : option nat) : msghdr :=
  mkMsghdr src_addr (match src_addr with Some _ => sizeof_sockaddr_in | None => 0 end) buf len 1.

Definition send_msghdr (buf : nat) (len : Z) (dest_addr_ : nat) : msghdr :=
  mkMsghdr (Some dest_addr_) sizeof_sockaddr_in buf len 1.

(** The operations of [awaitable.h]: what is prepared, on which descriptor. *)
Inductive operation :=
  | OpAccept (fd : nat)
  | OpRead (fd : nat) (len : Z)
  | OpWrite (fd : nat) (len : Z)
  | OpReadFixed (fd : nat) (len : Z) (buf_idx : Z)
  | OpWriteFixed (fd : nat) (len : Z) (buf_idx : Z)
  | OpClose (fd : nat)
  | OpNop
  | OpRecvMsg (fd : nat) (msg : msghdr)
  | OpSendMsg (fd : nat) (msg : msghdr)
  | OpTimeout (tv_sec tv_nsec : Z)
  | OpConnect (fd : nat)
  | OpCancel (user_data : nat).

Record sqe := mkSqe { sqe_op : operation; sqe_data : option nat }.
Record cqe := mkCqe { cqe_data : option nat; cqe_res : Z }.

Record rings := mkRings {
  depth : nat;
  sq : list sqe;          (* prepared, not submitted *)
  in_kernel : list sqe;
  cq : list cqe
}.

(** Narrowing of a length to [unsigned]. *)
Definition async_read (fd : nat) (len : Z) : operation := OpRead fd (u32 len).
Definition async_write (fd : nat) (len : Z) : operation := OpWrite fd (u32 len).

(** [TimeoutAwaitable]: milliseconds to a timespec. *)
Definition async_timeout (ms : Z) : operation := OpTimeout (Z.quot ms 1000) (Z.rem ms 1000 * 1000000).

Definition submit (r : rings) : rings := mkRings (depth r) [] (in_kernel r ++ sq r) (cq r).

(** [io_uring_get_sqe] followed by filling the entry: [None] when the queue is
    full. *)
Definition push_sqe (r : rings) (e : sqe) : option rings :=
  if decide (length (sq r) < depth r)%nat then Some (mkRings (depth r) (sq r ++ [e]) (in_kernel r) (cq r)) else None.

(** [IoUringContext::get_sqe]: submit and try again when the queue is full. *)
Definition get_sqe (r : rings) (e : sqe) : option rings :=
  match push_sqe r e with
  | Some r => Some r
  | None => push_sqe (submit r) e
  end.

(** The completion queue, for a caller that polls: the oldest entry, [None] where
    [peek_cqe] returns an error and [wait_cqe] waits; [seen_cqe] takes it off. *)
Definition peek_cqe (r : rings) : option cqe := head (cq r).
Definition wait_cqe (r : rings) : option cqe := head (cq r).
Definition seen_cqe (r : rings) : rings := mkRings (depth r) (sq r) (in_kernel r) (tail (cq r)).

(** [None] while there are fewer than [wait_nr] entries. *)
Definition submit_and_wait (wait_nr : nat) (r : rings) : option rings :=
  let r := submit r in if decide (wait_nr <= length (cq r))%nat then Some r else None.

(** ** The context *)

(** What the loop has done. *)
Inductive effect := Resumed (h : nat) (res : Z) | Called (cb : nat) (res : Z).

Record context := mkContext {
  ring_ : rings;
  heap : gmap nat Completion;
  running_ : bool;
  effects : list effect;
  stop_events : Z     (* the counter behind [stop_fd_] *)
}.

Definition context_new (queue_depth : nat) : context := mkContext (mkRings queue_depth [] [] []) ∅ false [] 0.

(** [IoAwaitable::await_suspend] and its siblings: the completion lives in the
    awaitable at address [p]. *)
Definition suspend_io (c : context) (p h : nat) (op : operation) : option context :=
  r ← get_sqe (ring_ c) (mkSqe op (Some p));
  Some (mkContext (submit r) (<[p := from_coroutine h]> (heap c)) (running_ c) (effects c) (stop_events c)).

(** [await_suspend] of the awaitables that own what the kernel reads: the message
    header of a datagram, the timespec of a timeout. *)
Definition suspend_recvmsg (c : context) (p h fd buf : nat) (len : Z) (src_addr : option nat) : option context :=
  suspend_io c p h (OpRecvMsg fd (recv_msghdr buf len src_addr)).

Definition suspend_sendmsg (c : context) (p h fd buf : nat) (len : Z) (dest_addr_ : nat) : option context :=
  suspend_io c p h (OpSendMsg fd (send_msghdr buf len dest_addr_)).

Definition suspend_timeout (c : context) (p h : nat) (ms : Z) : option context := suspend_io c p h (async_timeout ms).

(** [TcpConnection::async_read] and its siblings. *)
Definition callback_io (c : context) (p cb : nat) (op : operation) : option context :=
  r ← get_sqe (ring_ c) (mkSqe op (Some p));
  Some (mkContext (submit r) (<[p := make_owned_completion cb]> (heap c)) (running_ c) (effects c) (stop_events c)).

(** [process_cqe]: an entry without data is ignored; an owned completion is
    deleted after its callback, the completion of an awaitable goes with the
    [co_await] expression of the coroutine it resumes. *)
Definition process_cqe (c : context) (e : cqe) : context :=
  match cqe_data e with
  | None => c
  | Some p =>
      match heap c !! p with
      | None => c
      | Some comp =>
          let comp := mkCompletion (comp_target comp) (cqe_res e) in
          let heap := <[p := comp]> (heap c) in
          match comp_target comp with
          | Callback (Some cb) owns =>
              mkContext (ring_ c) (if owns : bool then delete p heap else heap) (running_ c)
                (effects c ++ [Called cb (cqe_res e)]) (stop_events c)
          | Coroutine (Some h) =>
              mkContext (ring_ c) (delete p heap) (running_ c)
                (effects c ++ [Resumed h (comp_result comp)]) (stop_events c)
          | _ => mkContext (ring_ c) heap (running_ c) (effects c) (stop_events c)
          end
      end
  end.

(** [arm_stop_event]: a read of the event descriptor without data. *)
Definition arm_stop_event (c : context) (stop_fd : nat) : context :=
  match push_sqe (ring_ c) (mkSqe (OpRead stop_fd 8) None) with
  | Some r => mkContext r (heap c) (running_ c) (effects c) (stop_events c)
  | None => c
  end.

(** [TcpListener::submit_accept]: the listener's own completion, armed again
    for every connection. *)
Definition submit_accept (c : context) (p cb listen_fd : nat) : option context :=
  r ← get_sqe (ring_ c) (mkSqe (OpAccept listen_fd) (Some p));
  Some (mkContext (submit r) (<[p := from_callback cb]> (heap c)) (running_ c) (effects c) (stop_events c)).

(** A queue of positive depth always has room after submitting. *)
Lemma get_sqe_room r e :
  (0 < depth r)%nat ->
  exists r', get_sqe r e = Some r' /\ submit r' = mkRings (depth r) [] (in_kernel r ++ sq r ++ [e]) (cq r).
Proof.
  intros Hd. unfold get_sqe, push_sqe. case_decide as Hl.
  - eexists. split; [done|]. done.
  - unfold submit at 1. cbn [sq depth length]. rewrite decide_True by (simpl; lia). eexists. split; [done|].
    unfold submit. simpl. by rewrite <- app_assoc.
Qed.

(** ** Exactly once *)

(** Whom a completion is for. *)
Definition tag : Type := nat + nat.

Definition tag_of (t : target) : option tag :=
  match t with
  | Callback cb _ => inr <$> cb
  | Coroutine h => inl <$> h
  end.

Definition effect_tag (e : effect) : tag * Z :=
  match e with
  | Resumed h res => (inl h, res)
  | Called cb res => (inr cb, res)
  end.

Definition tag_at (c : context) (p : nat) : option tag := comp ← heap c !! p; tag_of (comp_target comp).

(** The addresses the kernel knows. *)
Definition submitted (c : context) : list nat := omap sqe_data (in_kernel (ring_ c) ++ sq (ring_ c)).
Definition completed (c : context) : list nat := omap cqe_data (cq (ring_ c)).

(** The operations issued, and the results the kernel reported. *)
Record history := mkHistory { issued : list tag; reported : list (tag * Z) }.

Definition set_rings (c : context) (r : rings) : context :=
  mkContext r (heap c) (running_ c) (effects c) (stop_events c).

Inductive io_step : context * history -> context * history -> Prop :=
  | io_await c c' p h op hs :
      heap c !! p = None -> suspend_io c p h op = Some c' ->
      io_step (c, hs) (c', mkHistory (issued hs ++ [inl h]) (reported hs))
  | io_call c c' p cb op hs :
      heap c !! p = None -> callback_io c p cb op = Some c' ->
      io_step (c, hs) (c', mkHistory (issued hs ++ [inr cb]) (reported hs))
  | io_accept c c' p cb fd hs :
      p ∉ submitted c -> p ∉ completed c -> submit_accept c p cb fd = Some c' ->
      io_step (c, hs) (c', mkHistory (issued hs ++ [inr cb]) (reported hs))
  | io_arm c fd hs : io_step (c, hs) (arm_stop_event c fd, hs)
  | io_submit c hs : io_step (c, hs) (set_rings c (submit (ring_ c)), hs)
  | io_kernel c l1 l2 e res hs :
      in_kernel (ring_ c) = l1 ++ e :: l2 ->
      io_step (c, hs)
        (set_rings c (mkRings (depth (ring_ c)) (sq (ring_ c)) (l1 ++ l2) (cq (ring_ c) ++ [mkCqe (sqe_data e) res])),
         mkHistory (issued hs) (reported hs ++ match sqe_data e ≫= tag_at c with Some t => [(t, res)] | None => [] end))
  | io_process c e rest hs :
      cq (ring_ c) = e :: rest ->
      io_step (c, hs)
        (process_cqe (set_rings c (mkRings (depth (ring_ c)) (sq (ring_ c)) (in_kernel (ring_ c)) rest)) e, hs).

(** Polling for an entry, dispatching it and marking it seen is a step of the
    loop. *)
Lemma poll_step c e hs :
  peek_cqe (ring_ c) = Some e ->
  io_step (c, hs) (set_rings (process_cqe c e) (seen_cqe (ring_ (process_cqe c e))), hs).
Proof.
  intros Hp. unfold peek_cqe in Hp. destruct (cq (ring_ c)) as [|e' rest] eqn:Ec; [done|]. injection Hp as ->.
  assert (set_rings (process_cqe c e) (seen_cqe (ring_ (process_cqe c e))) =
    process_cqe (set_rings c (mkRings (depth (ring_ c)) (sq (ring_ c)) (in_kernel (ring_ c)) rest)) e) as ->;
    [|by apply io_process].
  assert (seen_cqe (ring_ c) = mkRings (depth (ring_ c)) (sq (ring_ c)) (in_kernel (ring_ c)) rest) as <-
    by (unfold seen_cqe; by rewrite Ec).
  unfold process_cqe. destruct (cqe_data e) as [p|]; [|done]. cbn [heap set_rings]. destruct (heap c !! p) as [comp|]; [|done].
  by destruct (comp_target comp) as [[cb|] owns|[h|]].
Qed.

(** What a list of addresses, and of completion entries, stands for. *)
Definition tags_of (c : context) (ps : list nat) : list tag := omap (tag_at c) ps.
Definition results_of (c : context) (es : list cqe) : list (tag * Z) :=
  omap (fun e => (fun t => (t, cqe_res e)) <$> (cqe_data e ≫= tag_at c)) es.

Record io_inv (s : context * history) : Prop := {
  io_nodup : NoDup (submitted s.1 ++ completed s.1);
  io_alloc p : p ∈ submitted s.1 ++ completed s.1 -> is_Some (tag_at s.1 p);
  io_issued : issued s.2 ≡ₚ (reported s.2).*1 ++ tags_of s.1 (submitted s.1);
  io_reported : reported s.2 ≡ₚ (effect_tag <$> effects s.1) ++ results_of s.1 (cq (ring_ s.1))
}.

Lemma omap_ext_in {A B} (f g : A -> option B) (l : list A) : (forall x, x ∈ l -> f x = g x) -> omap f l = omap g l.
Proof.
  induction l as [|x l IH]; intros Hfg; [done|]. cbn. rewrite (Hfg x) by (by left).
  destruct (g x); rewrite IH by (intros; apply Hfg; by right); done.
Qed.

Lemma tags_of_ext c c' ps : (forall p, p ∈ ps -> tag_at c p = tag_at c' p) -> tags_of c ps = tags_of c' ps.
Proof. apply omap_ext_in. Qed.

Lemma results_of_ext c c' es :
  (forall p, p ∈ omap cqe_data es -> tag_at c p = tag_at c' p) -> results_of c es = results_of c' es.
Proof.
  intros Ht. apply omap_ext_in. intros e He. destruct (cqe_data e) as [p|] eqn:Ep; simpl; [|done].
  rewrite Ht; [done|]. apply list_elem_of_omap. eauto.
Qed.

Lemma get_sqe_submit r e r' :
  get_sqe r e = Some r' -> submit r' = mkRings (depth r) [] (in_kernel r ++ sq r ++ [e]) (cq r).
Proof.
  unfold get_sqe, push_sqe. case_decide; [by intros [= <-]|].
  case_decide; [|done]. intros [= <-]. unfold submit. simpl. by rewrite <- app_assoc.
Qed.

Section Invariant.
Context (c : context) (hs : history) (Hinv : io_inv (c, hs)).

Lemma unallocated p : tag_at c p = None -> p ∉ submitted c ++ completed c.
Proof. intros Hp Hin. apply (io_alloc _ Hinv) in Hin as [t Ht]. simpl in Ht. congruence. Qed.

(** Issuing an operation for a completion the kernel does not know. *)
Lemma issue_inv p comp t op r :
  p ∉ submitted c ++ completed c -> tag_of (comp_target comp) = Some t ->
  get_sqe (ring_ c) (mkSqe op (Some p)) = Some r ->
  io_inv (mkContext (submit r) (<[p := comp]> (heap c)) (running_ c) (effects c) (stop_events c),
          mkHistory (issued hs ++ [t]) (reported hs)).
Proof.
  intros Hp Ht Hr. apply get_sqe_submit in Hr. rewrite Hr. destruct Hinv as [Hn Ha Hi Hrep]. simpl in *.
  set (c' := mkContext _ _ _ _ _).
  assert (submitted c' = submitted c ++ [p]) as Es.
  { unfold submitted, c'. simpl. rewrite app_nil_r, app_assoc, omap_app. done. }
  assert (completed c' = completed c) as Ec by done.
  assert (tag_at c' p = Some t) as Etp by (unfold tag_at, c'; simpl; by rewrite lookup_insert_eq).
  assert (forall q, q ∈ submitted c ++ completed c -> tag_at c' q = tag_at c q) as Etq.
  { intros q Hq. unfold tag_at, c'. simpl. rewrite lookup_insert_ne; [done|]. by intros ->. }
  split; simpl; rewrite ?Es, ?Ec.
  - rewrite <- app_assoc. cbn [app]. rewrite <- Permutation_middle. apply NoDup_cons. done.
  - intros q Hq. destruct (decide (q = p)) as [->|Hne]; [by rewrite Etp|].
    assert (q ∈ submitted c ++ completed c) as Hq' by set_solver. rewrite Etq by done. by apply Ha.
  - unfold tags_of. rewrite omap_app. cbn [omap list_omap]. rewrite Etp.
    change (omap (tag_at c') (submitted c)) with (tags_of c' (submitted c)).
    rewrite (tags_of_ext c' c) by (intros; apply Etq; set_solver). rewrite Hi. by rewrite app_assoc.
  - rewrite (results_of_ext c' c) by (intros; apply Etq; set_solver). done.
Qed.

(** The kernel reports a result. *)
Lemma kernel_inv l1 l2 e res :
  in_kernel (ring_ c) = l1 ++ e :: l2 ->
  io_inv (set_rings c (mkRings (depth (ring_ c)) (sq (ring_ c)) (l1 ++ l2) (cq (ring_ c) ++ [mkCqe (sqe_data e) res])),
    mkHistory (issued hs) (reported hs ++ match sqe_data e ≫= tag_at c with Some t => [(t, res)] | None => [] end)).
Proof.
  intros Ek. destruct Hinv as [Hn Ha Hi Hrep]. simpl in *. set (c' := set_rings c _).
  assert (submitted c ≡ₚ match sqe_data e with Some p => [p] | None => [] end ++ submitted c') as Es.
  { unfold submitted, c'. simpl. rewrite Ek, !omap_app. cbn [omap list_omap].
    destruct (sqe_data e); simpl; [|done]. rewrite <- !app_assoc. simpl. by rewrite <- Permutation_middle. }
  assert (completed c' = completed c ++ match sqe_data e with Some p => [p] | None => [] end) as Ec.
  { unfold completed, c'. simpl. rewrite omap_app. cbn [omap list_omap]. by destruct (sqe_data e). }
  assert (submitted c ++ completed c ≡ₚ submitted c' ++ completed c') as Ep.
  { rewrite Ec, Es. rewrite (Permutation_app_comm _ (submitted c')), <- app_assoc. f_equiv. apply Permutation_app_comm. }
  split; simpl.
  - by rewrite <- Ep.
  - intros q Hq. rewrite <- Ep in Hq. by apply Ha.
  - rewrite Hi. unfold tags_of. rewrite Es, omap_app, fmap_app, <- app_assoc. apply Permutation_app_head.
    destruct (sqe_data e) as [p|]; simpl; [|done].
    change (tag_at c' p) with (tag_at c p). by destruct (tag_at c p).
  - rewrite Hrep, <- app_assoc. apply Permutation_app_head. unfold results_of. rewrite omap_app.
    apply Permutation_app_head. cbn [omap list_omap cqe_data cqe_res]. change (tag_at c') with (tag_at c).
    by destruct (sqe_data e ≫= tag_at c).
Qed.

(** The loop dispatches an entry. *)
Lemma process_inv e rest :
  cq (ring_ c) = e :: rest ->
  io_inv (process_cqe (set_rings c (mkRings (depth (ring_ c)) (sq (ring_ c)) (in_kernel (ring_ c)) rest)) e, hs).
Proof.
  intros Eq. destruct Hinv as [Hn Ha Hi Hrep]. simpl in *. set (c1 := set_rings c _).
  unfold completed in *. rewrite Eq in *. unfold process_cqe.
  destruct (cqe_data e) as [p|] eqn:Ep; cbn [omap list_omap] in *; rewrite ?Ep in *.
  2:{ split; simpl; try done. rewrite Hrep. unfold results_of. cbn [omap list_omap]. by rewrite Ep. }
  destruct (Ha p) as [t Ht]; [set_solver|]. unfold tag_at in Ht.
  change (heap c1) with (heap c). destruct (heap c !! p) as [comp|] eqn:Eh; simpl in Ht; [|done].
  rewrite <- Permutation_middle in Hn. apply NoDup_cons in Hn as [Hnin Hn].
  assert (forall c2 ef, ring_ c2 = ring_ c1 -> effects c2 = effects c ++ [ef] ->
    effect_tag ef = (t, cqe_res e) -> (forall q, q <> p -> tag_at c2 q = tag_at c q) -> io_inv (c2, hs)) as Hgen.
  { intros c2 ef Er Ee Et Hq.
    assert (submitted c2 = submitted c) as E1 by (unfold submitted; by rewrite Er).
    assert (completed c2 = omap cqe_data rest) as E2 by (unfold completed; by rewrite Er).
    split; simpl; rewrite ?E1, ?E2; [done|..].
    - intros q Hin. rewrite Hq by (intros ->; done). apply Ha. set_solver.
    - rewrite (tags_of_ext c2 c); [done|]. intros q Hin. apply Hq. intros ->. apply Hnin. set_solver.
    - rewrite Hrep, Ee, fmap_app, Er, <- app_assoc. simpl. f_equiv. rewrite Et.
      unfold results_of at 1. cbn [omap list_omap]. rewrite Ep. cbn [mbind option_bind]. unfold tag_at at 1. rewrite Eh.
      cbn [mbind option_bind]. rewrite Ht. cbn [fmap option_fmap option_map].
      change (omap _ rest) with (results_of c rest).
      rewrite (results_of_ext c2 c); [done|]. intros q Hin. apply Hq. intros ->. apply Hnin. set_solver. }
  destruct comp as [[[cb|] owns|[h|]] res0]; simplify_eq/=.
  - apply (Hgen _ (Called cb (cqe_res e))); [done..|]. intros q Hq. unfold tag_at. simpl.
    destruct owns; by rewrite ?lookup_delete_ne, lookup_insert_ne by done.
  - apply (Hgen _ (Resumed h (cqe_res e))); [done..|]. intros q Hq. unfold tag_at. simpl.
    by rewrite lookup_delete_ne, lookup_insert_ne by done.
Qed.
End Invariant.

(** Moving prepared entries to the kernel, or preparing one without data. *)
Lemma rings_inv c hs r :
  omap sqe_data (in_kernel r ++ sq r) = submitted c -> cq r = cq (ring_ c) ->
  io_inv (c, hs) -> io_inv (set_rings c r, hs).
Proof.
  intros Es Ec [Hn Ha Hi Hr]. simpl in *.
  assert (submitted (set_rings c r) = submitted c) as E1 by exact Es.
  assert (completed (set_rings c r) = completed c) as E2 by (unfold completed; simpl; by rewrite Ec).
  split; simpl; rewrite ?E1, ?E2, ?Ec; done.
Qed.

Lemma io_step_inv s s' : io_step s s' -> io_inv s -> io_inv s'.
Proof.
  destruct 1 as [c c' p h op hs Hp E|c c' p cb op hs Hp E|c c' p cb fd hs Hp1 Hp2 E|c fd hs|c hs|c l1 l2 e res hs E|c e rest hs E];
    intros Hinv.
  - apply bind_Some in E as (r & E & [= <-]). eapply issue_inv; [done| |done|done].
    apply (unallocated _ _ Hinv). unfold tag_at. by rewrite Hp.
  - apply bind_Some in E as (r & E & [= <-]). eapply issue_inv; [done| |done|done].
    apply (unallocated _ _ Hinv). unfold tag_at. by rewrite Hp.
  - apply bind_Some in E as (r & E & [= <-]). eapply issue_inv; [done| |done|done]. set_solver.
  - unfold arm_stop_event, push_sqe. case_decide; [|done]. apply (rings_inv c hs); [|done|done].
    unfold submitted. simpl. by rewrite app_assoc, omap_app, app_nil_r.
  - apply rings_inv; [|done|done]. unfold submitted. simpl. by rewrite app_nil_r.
  - by apply kernel_inv.
  - by apply process_inv.
Qed.

Lemma io_inv_new queue_depth : io_inv (context_new queue_depth, mkHistory [] []).
Proof. split; simpl; [constructor|by intros p ?%elem_of_nil|done|done]. Qed.

(** C11: Every operation is completed exactly once.  However operations are
    issued, by coroutines, by callbacks and by the listener, and in whatever
    order the kernel completes them: the resumptions and calls the loop has made,
    together with the completions it has not looked at and the operations the
    kernel still has, are exactly the operations issued, so none is lost and none
    is delivered twice; every resumption carries the result the kernel reported
    for its own operation; and no completion the kernel can still refer to has
    been freed. *)
Theorem io_exactly_once queue_depth s :
  rtc io_step (context_new queue_depth, mkHistory [] []) s ->
  issued s.2 ≡ₚ (effect_tag <$> effects s.1).*1 ++ (results_of s.1 (cq (ring_ s.1))).*1 ++ tags_of s.1 (submitted s.1) /\
  (effect_tag <$> effects s.1) ++ results_of s.1 (cq (ring_ s.1)) ≡ₚ reported s.2 /\
  NoDup (submitted s.1 ++ completed s.1) /\
  (forall p, p ∈ submitted s.1 ++ completed s.1 -> is_Some (heap s.1 !! p)).
Proof.
  intros Hr. assert (io_inv s) as [Hn Ha Hi Hrep].
  { pose proof (io_inv_new queue_depth) as H0. clear -Hr H0. induction Hr; eauto using io_step_inv. }
  split_and!.
  - by rewrite Hi, Hrep, fmap_app, <- app_assoc.
  - by rewrite Hrep.
  - done.
  - intros p Hp. destruct (Ha p Hp) as [t Ht]. unfold tag_at in Ht. destruct (heap s.1 !! p); [by eexists|done].
Qed.

(** Two coroutines wait; the second operation completes first. *)
Lemma io_exactly_once_witness :
  exists s, rtc io_step (context_new 256, mkHistory [] []) s /\ effects s.1 = [Resumed 2 64] /\
    issued s.2 ≡ₚ [inl 2%nat; inl 1%nat].
Proof.
  assert (exists s, rtc io_step (context_new 256, mkHistory [] []) s /\ effects s.1 = [Resumed 2 64] /\
    cq (ring_ s.1) = [] /\ tags_of s.1 (submitted s.1) = [inl 1%nat]) as (s & Hr & He & Hc & Ht).
  { eexists. split; [|split; [|split]].
    - eapply rtc_l; [eapply (io_await _ _ 10 1 (async_read 5 8)); reflexivity|].
      eapply rtc_l; [eapply (io_await _ _ 11 2 (async_read 6 64)); reflexivity|].
      eapply rtc_l; [eapply (io_kernel _ [mkSqe (async_read 5 8) (Some 10%nat)] [] (mkSqe (async_read 6 64) (Some 11%nat)) 64); reflexivity|].
      eapply rtc_l; [eapply (io_process _ (mkCqe (Some 11%nat) 64) []); reflexivity|]. apply rtc_refl.
    - reflexivity.
    - reflexivity.
    - reflexivity. }
  exists s. split; [exact Hr|]. split; [exact He|].
  destruct (io_exactly_once 256 s Hr) as (H & _). rewrite He, Hc, Ht in H. exact H.
Defined.

(** ** Running and stopping *)

(** One return of [io_uring_submit_and_wait]. *)
Inductive wake := Interrupted | Failed | Woken (entries : list cqe).

Inductive run_status := Exited | Waiting.

Section Run.
(** [process_cqe] with what the resumed code does. *)
Context (dispatch : context -> cqe -> context) (stop_fd : nat).

Fixpoint run_loop (wakes : list wake) (c : context) : run_status * context :=
  if running_ c then
    match wakes with
    | [] => (Waiting, c)
    | Interrupted :: wakes => run_loop wakes c
    | Failed :: _ => (Exited, c)
    | Woken entries :: wakes => run_loop wakes (foldl dispatch (set_rings c (submit (ring_ c))) entries)
    end
  else (Exited, c).

Definition set_running (c : context) (b : bool) : context :=
  mkContext (ring_ c) (heap c) b (effects c) (stop_events c).

Definition run (wakes : list wake) (c : context) : run_status * context :=
  run_loop wakes (arm_stop_event (set_running c true) stop_fd).

(** [stop]: clear the flag and write one event, which completes the armed
    read. *)
Definition write_event (c : context) : context :=
  mkContext (ring_ c) (heap c) (running_ c) (effects c) (stop_events c + 1).

Definition stop (c : context) : context := write_event (set_running c false).

Lemma running_armed c : running_ (arm_stop_event c stop_fd) = running_ c.
Proof. unfold arm_stop_event. by destruct (push_sqe _ _). Qed.

Lemma armed_in_kernel c :
  (length (sq (ring_ c)) < depth (ring_ c))%nat ->
  mkSqe (OpRead stop_fd 8) None ∈ in_kernel (submit (ring_ (arm_stop_event c stop_fd))).
Proof. intros. unfold arm_stop_event, push_sqe. case_decide; [|done]. simpl. set_solver. Qed.

End Run.

(** A coroutine that stops the loop when it is resumed. *)
Definition stopping (c : context) (e : cqe) : context :=
  match cqe_data e with
  | None => process_cqe c e
  | Some _ => stop (process_cqe c e)
  end.

