(* ===== verification/Socket.v ===== *)
(** * Descriptor ownership ([src/src/io/tcp_connection.{h,cpp}],
    [src/src/io/udp_socket.{h,cpp}], the constructor and destructor of
    [src/src/io/tcp_listener.cpp])

    [TcpConnection] and [UdpSocket] own a descriptor the way a unique pointer
    owns its object: the two classes have the same moves, [close] and destructor.
    The process's descriptor table is explicit, with a record of the calls to
    [close] that named a descriptor that was not open. *)

From stdpp Require Import relations.
From S2P Require Import Prelude.

Local Open Scope Z_scope.

(** ** The descriptor table *)

Record table := mkTable {
  opened : gset Z;
  bad_closes : list Z
}.

Definition sys_open (fd : Z) (t : table) : table := mkTable ({[fd]} ∪ opened t) (bad_closes t).

Definition sys_close (fd : Z) (t : table) : table :=
  if decide (fd ∈ opened t) then mkTable (opened t ∖ {[fd]}) (bad_closes t)
  else mkTable (opened t) (bad_closes t ++ [fd]).

(** ** The objects *)

(** The living objects by address, each with its [fd_]. *)
Record world := mkWorld {
  objects : gmap nat Z;
  fds : table;
  raw : gset Z       (* descriptors handed out by [release] *)
}.

(** [close]: returns the new [fd_]. *)
Definition close (fd_ : Z) (t : table) : Z * table :=
  if decide (0 <= fd_) then (-1, sys_close fd_ t) else (fd_, t).

Definition construct (w : world) (p : nat) (fd : Z) : world := mkWorld (<[p := fd]> (objects w)) (fds w) (raw w).

Definition close_object (w : world) (p : nat) : world :=
  match objects w !! p with
  | Some fd_ => let '(fd_, t) := close fd_ (fds w) in mkWorld (<[p := fd_]> (objects w)) t (raw w)
  | None => w
  end.

Definition move_construct (w : world) (p other : nat) : world :=
  match objects w !! other with
  | Some fd_ => mkWorld (<[other := -1]> (<[p := fd_]> (objects w))) (fds w) (raw w)
  | None => w
  end.

Definition move_assign (w : world) (p other : nat) : world :=
  if decide (p = other) then w
  else
    let w := close_object w p in
    match objects w !! other with
    | Some fd_ => mkWorld (<[other := -1]> (<[p := fd_]> (objects w))) (fds w) (raw w)
    | None => w
    end.

(** [UdpSocket] has the same moves. *)
Definition udp_move_construct : world -> nat -> nat -> world := move_construct.
Definition udp_move_assign : world -> nat -> nat -> world := move_assign.

(** [TcpConnection::release]: the caller owns the descriptor. *)
Definition release (w : world) (p : nat) : world :=
  match objects w !! p with
  | Some fd_ => mkWorld (<[p := -1]> (objects w)) (fds w) (if decide (0 <= fd_) then {[fd_]} ∪ raw w else raw w)
  | None => w
  end.

Definition destroy (w : world) (p : nat) : world :=
  let w := close_object w p in mkWorld (delete p (objects w)) (fds w) (raw w).

(** The constructors that open a descriptor: [UdpSocket] and [TcpListener].
    [sock] is what [socket] returned, the other arguments whether the calls
    after it succeeded; [None] is the exception. *)
Definition open_udp (sock : Z) (bind_ok : bool) (t : table) : option Z * table :=
  if decide (sock < 0) then (None, t)
  else if bind_ok then (Some sock, sys_open sock t)
  else (None, sys_close sock (sys_open sock t)).

Definition open_listener (sock : Z) (bind_ok listen_ok : bool) (t : table) : option Z * table :=
  if decide (sock < 0) then (None, t)
  else if negb bind_ok then (None, sys_close sock (sys_open sock t))
  else if negb listen_ok then (None, sys_close sock (sys_open sock t))
  else (Some sock, sys_open sock t).

(** A constructor that throws leaves no object. *)
Definition construct_opened (w : world) (p : nat) (r : option Z * table) : world :=
  match r with
  | (Some fd, t) => mkWorld (<[p := fd]> (objects w)) t (raw w)
  | (None, t) => mkWorld (objects w) t (raw w)
  end.

(** A listener's [accept] yields a descriptor, wrapped in a connection. *)
Definition accepted (w : world) (p : nat) (fd : Z) : world :=
  construct (mkWorld (objects w) (sys_open fd (fds w)) (raw w)) p fd.

(** ** What the code can do with the objects *)

Inductive sock_step : world -> world -> Prop :=
  | s_udp w p sock b :
      objects w !! p = None -> sock ∉ opened (fds w) -> sock_step w (construct_opened w p (open_udp sock b (fds w)))
  | s_listener w p sock b l :
      objects w !! p = None -> sock ∉ opened (fds w) ->
      sock_step w (construct_opened w p (open_listener sock b l (fds w)))
  | s_accept w p fd :
      objects w !! p = None -> 0 <= fd -> fd ∉ opened (fds w) -> sock_step w (accepted w p fd)
  | s_adopt w p fd :
      objects w !! p = None -> fd ∈ raw w ->
      sock_step w (construct (mkWorld (objects w) (fds w) (raw w ∖ {[fd]})) p fd)
  | s_move w p other : objects w !! p = None -> sock_step w (move_construct w p other)
  | s_assign w p other : is_Some (objects w !! p) -> sock_step w (move_assign w p other)
  | s_close w p : sock_step w (close_object w p)
  | s_release w p : sock_step w (release w p)
  | s_destroy w p : sock_step w (destroy w p)
  | s_raw_close w fd : fd ∈ raw w -> sock_step w (mkWorld (objects w) (sys_close fd (fds w)) (raw w ∖ {[fd]})).

Definition start_world : world := mkWorld ∅ (mkTable ∅ []) ∅.

(** ** One owner each *)

Definition owns (w : world) (p : nat) (fd : Z) : Prop := objects w !! p = Some fd /\ 0 <= fd.

Record sock_inv (w : world) : Prop := {
  si_good : bad_closes (fds w) = [];
  si_owned fd : fd ∈ opened (fds w) -> fd ∈ raw w \/ exists p, owns w p fd;
  si_open p fd : owns w p fd -> fd ∈ opened (fds w);
  si_raw fd : fd ∈ raw w -> 0 <= fd /\ fd ∈ opened (fds w);
  si_excl p fd : owns w p fd -> fd ∉ raw w;
  si_one p q fd : owns w p fd -> owns w q fd -> p = q
}.

Lemma close_open fd t : fd ∈ opened t -> sys_close fd t = mkTable (opened t ∖ {[fd]}) (bad_closes t).
Proof. intros H. unfold sys_close. by rewrite decide_True. Qed.

Lemma open_close fd t : fd ∉ opened t -> sys_close fd (sys_open fd t) = t.
Proof.
  intros H. rewrite close_open by (simpl; set_solver). destruct t as [o b]. unfold sys_open. simpl in *. f_equal. set_solver.
Qed.

Lemma owns_insert w p fd t r q fd' :
  owns (mkWorld (<[p := fd]> (objects w)) t r) q fd' <-> (q = p /\ fd' = fd /\ 0 <= fd) \/ (q <> p /\ owns w q fd').
Proof.
  unfold owns. simpl. rewrite lookup_insert_Some. split.
  - intros [[[<- <-]|[Hn Hq]] Hp]; [by left|right; split; [by intros ->|done]].
  - intros [(-> & -> & Hp)|(Hn & Hq & Hp)]; (split; [|done]); [by left|right; by split].
Qed.

(** An object that starts to own an open descriptor nobody owned. *)
Lemma own_inv w p fd t r :
  sock_inv w -> objects w !! p = None -> 0 <= fd -> bad_closes t = [] -> opened t = {[fd]} ∪ opened (fds w) ->
  r = raw w ∖ {[fd]} -> (forall q, ~ owns w q fd) -> sock_inv (mkWorld (<[p := fd]> (objects w)) t r).
Proof.
  intros [Hg Ho Hop Hr He H1] Hp Hfd Hb Et -> Hno.
  split; simpl.
  - done.
  - intros fd'. rewrite Et. intros [->%elem_of_singleton|Hf]%elem_of_union.
    { right. exists p. by rewrite owns_insert; left. }
    destruct (decide (fd' = fd)) as [->|Hne]; [right; exists p; by rewrite owns_insert; left|].
    destruct (Ho fd' Hf) as [Hraw|[q Hq]]; [left; set_solver|].
    right. exists q. rewrite owns_insert. right. split; [|done]. intros ->. destruct Hq. congruence.
  - intros q fd' [(-> & -> & _)|(Hn & Hq)]%owns_insert; rewrite Et; [set_solver|]. apply Hop in Hq. set_solver.
  - intros fd' [Hf Hn]%elem_of_difference. rewrite Et. apply Hr in Hf as [? ?]. set_solver.
  - intros q fd' [(-> & -> & _)|(Hn & Hq)]%owns_insert; [set_solver|]. apply He in Hq. set_solver.
  - intros q q' fd' [(-> & -> & _)|(Hn & Hq)]%owns_insert [(-> & Ef & _)|(Hn' & Hq')]%owns_insert; subst;
      [done|by destruct (Hno q')|by destruct (Hno q)|eauto].
Qed.

(** Taking the descriptor from an object: closed, or handed out. *)
Lemma disown_inv w p :
  sock_inv w -> sock_inv (close_object w p) /\ sock_inv (release w p).
Proof.
  intros [Hg Ho Hop Hr He H1]. unfold close_object, release. destruct (objects w !! p) as [fd|] eqn:Ep; [|done].
  unfold close. destruct (decide (0 <= fd)) as [Hfd|Hneg].
  2:{ assert (forall v t r q fd', v < 0 -> owns (mkWorld (<[p := v]> (objects w)) t r) q fd' <-> owns w q fd') as Hsame.
      { intros v t r q fd' Hv. rewrite owns_insert. split; [intros [(-> & -> & ?)|[_ ?]]; [lia|done]|].
        intros Hq. right. split; [|done]. intros ->. destruct Hq. simplify_eq. lia. }
      split; split; simpl; try done; try (intros *; rewrite ?Hsame by lia; eauto); 
        intros Hf; destruct (Ho _ Hf) as [|[q Hq]]; eauto; right; exists q; rewrite Hsame by lia; done. }
  assert (owns w p fd) as Hown by done. pose proof (Hop _ _ Hown) as Hin.
  assert (forall t r q fd', owns (mkWorld (<[p := -1]> (objects w)) t r) q fd' <-> q <> p /\ owns w q fd') as Hothers.
  { intros t r q fd'. rewrite owns_insert. split; [intros [(-> & -> & ?)|?]; [lia|done]|by right]. }
  assert (forall q fd', q <> p -> owns w q fd' -> fd' <> fd) as Hdiff by (intros q fd' Hn Hq ->; eauto).
  split.
  - rewrite close_open by done. split; simpl.
    + done.
    + intros fd' [Hf Hn]%elem_of_difference. destruct (Ho fd' Hf) as [|[q Hq]]; [by left|]. right. exists q.
      apply Hothers. split; [|done]. intros ->. destruct Hq. set_solver.
    + intros q fd' [Hn Hq]%Hothers. pose proof (Hop _ _ Hq). pose proof (Hdiff _ _ Hn Hq). set_solver.
    + intros fd' Hf. destruct (Hr fd' Hf). split; [done|]. apply elem_of_difference. split; [done|].
      intros ->%elem_of_singleton. by apply (He p fd).
    + intros q fd' [_ Hq]%Hothers. eauto.
    + intros q q' fd' [_ Hq]%Hothers [_ Hq']%Hothers. eauto.
  - split; simpl.
    + done.
    + intros fd' Hf. destruct (Ho fd' Hf) as [|[q Hq]]; [left; set_solver|].
      destruct (decide (q = p)) as [->|Hn]; [left; destruct Hq; simplify_eq; set_solver|].
      right. exists q. by apply Hothers.
    + intros q fd' [Hn Hq]%Hothers. eauto.
    + intros fd' [->%elem_of_singleton|Hf]%elem_of_union; eauto.
    + intros q fd' [Hn Hq]%Hothers. pose proof (He _ _ Hq). pose proof (Hdiff _ _ Hn Hq). set_solver.
    + intros q q' fd' [_ Hq]%Hothers [_ Hq']%Hothers. eauto.
Qed.

(** A move between two objects, the target owning nothing. *)
Lemma move_inv w p other fd :
  sock_inv w -> p <> other -> objects w !! other = Some fd -> (forall fd', ~ owns w p fd') ->
  sock_inv (mkWorld (<[other := -1]> (<[p := fd]> (objects w))) (fds w) (raw w)).
Proof.
  intros [Hg Ho Hop Hr He H1] Hpo Eo Hno. set (w' := mkWorld _ _ _).
  assert (forall q fd', owns w' q fd' <-> (q = p /\ owns w other fd') \/ (q <> p /\ q <> other /\ owns w q fd')) as Hm.
  { intros q fd'. unfold w', owns. simpl. destruct (decide (q = other)) as [->|Hqo].
    - rewrite lookup_insert_eq. split; [intros [[= <-] ?]; lia|]. intros [[-> _]|(_ & ? & _)]; done.
    - rewrite lookup_insert_ne by done. destruct (decide (q = p)) as [->|Hqp].
      + rewrite lookup_insert_eq, Eo. naive_solver.
      + rewrite lookup_insert_ne by done. naive_solver. }
  split; simpl.
  - done.
  - intros fd' Hf. destruct (Ho fd' Hf) as [|[q Hq]]; [by left|]. right.
    destruct (decide (q = other)) as [->|Hqo]; [exists p; apply Hm; by left|].
    exists q. apply Hm. right. split_and!; [|done|done]. intros ->. by apply (Hno fd').
  - intros q fd' [[-> Hq]|(_ & _ & Hq)]%Hm; eauto.
  - done.
  - intros q fd' [[-> Hq]|(_ & _ & Hq)]%Hm; eauto.
  - intros q q' fd' [[-> Hq]|(? & ? & Hq)]%Hm [[-> Hq']|(? & ? & Hq')]%Hm; [done|..|eauto];
      exfalso; [apply (H1 other q' fd') in Hq'|apply (H1 other q fd') in Hq]; congruence.
Qed.

Lemma close_object_disowns w p fd : ~ owns (close_object w p) p fd.
Proof.
  unfold close_object, owns. destruct (objects w !! p) as [v|] eqn:Ep; [|rewrite Ep; by intros [? _]].
  unfold close. case_decide; simpl; rewrite lookup_insert_eq; intros [[= <-] ?]; lia.
Qed.

Lemma drop_inv w p : sock_inv w -> (forall fd, ~ owns w p fd) -> sock_inv (mkWorld (delete p (objects w)) (fds w) (raw w)).
Proof.
  intros [Hg Ho Hop Hr He H1] Hno. set (w' := mkWorld _ _ _).
  assert (forall q fd, owns w' q fd <-> owns w q fd) as Hm.
  { intros q fd. unfold w', owns. simpl. rewrite lookup_delete_Some. split; [tauto|].
    intros [Hq ?]. split_and!; [|done|done]. intros ->. by apply (Hno fd). }
  split; simpl; try done; intros *; rewrite ?Hm; eauto. intros Hf. destruct (Ho _ Hf) as [|[q Hq]]; [by left|].
  right. exists q. by apply Hm.
Qed.

Lemma raw_close_inv w fd :
  sock_inv w -> fd ∈ raw w -> sock_inv (mkWorld (objects w) (sys_close fd (fds w)) (raw w ∖ {[fd]})).
Proof.
  intros [Hg Ho Hop Hr He H1] Hfd. rewrite close_open by (by apply Hr).
  split; simpl.
  - done.
  - intros fd' [Hf Hn]%elem_of_difference. destruct (Ho fd' Hf) as [|[q Hq]]; [left; set_solver|]. right. by exists q.
  - intros q fd' Hq. change (owns w q fd') in Hq. pose proof (Hop _ _ Hq). pose proof (He _ _ Hq). set_solver.
  - intros fd' [Hf Hn]%elem_of_difference. destruct (Hr _ Hf). set_solver.
  - intros q fd' Hq. change (owns w q fd') in Hq. pose proof (He _ _ Hq). set_solver.
  - intros q q' fd'. apply H1.
Qed.

(** A descriptor the system has just opened becomes the object's. *)
Lemma opened_inv w p fd :
  sock_inv w -> objects w !! p = None -> 0 <= fd -> fd ∉ opened (fds w) ->
  sock_inv (mkWorld (<[p := fd]> (objects w)) (sys_open fd (fds w)) (raw w)).
Proof.
  intros Hi Hp Hfd Hn. apply own_inv; [done|done|done|apply Hi|done|..].
  - apply set_eq. intros x. rewrite elem_of_difference, elem_of_singleton. split; [|tauto].
    intros Hx. split; [done|]. intros ->. by apply Hn, (si_raw _ Hi).
  - intros q Hq. by apply Hn, (si_open _ Hi q).
Qed.

Lemma sock_step_inv w w' : sock_step w w' -> sock_inv w -> sock_inv w'.
Proof.
  destruct 1 as [w p sock b Hp Hn|w p sock b l Hp Hn|w p fd Hp Hfd Hn|w p fd Hp Hfd|w p o Hp|w p o Hp|w p|w p|w p|w fd Hfd];
    intros Hi.
  - unfold open_udp. case_decide; simpl; [by destruct w|]. destruct b; simpl; [apply opened_inv; (done || lia)|].
    rewrite open_close by done. by destruct w.
  - unfold open_listener. case_decide; simpl; [by destruct w|].
    destruct b, l; simpl; try (rewrite open_close by done; by destruct w). apply opened_inv; (done || lia).
  - by apply (opened_inv w p fd).
  - destruct (si_raw _ Hi fd Hfd) as [H0 Hop]. apply (own_inv w); [done|done|done|apply Hi|simpl; set_solver|done|].
    intros q Hq. by apply (si_excl _ Hi q fd).
  - unfold move_construct. destruct (objects w !! o) as [fd|] eqn:Eo; [|done].
    apply move_inv; [done|congruence|done|]. intros fd' [? _]. congruence.
  - unfold move_assign. case_decide; [done|]. pose proof (proj1 (disown_inv w p Hi)) as Hc.
    destruct (objects (close_object w p) !! o) eqn:Eo; [|done]. apply move_inv; try done. apply close_object_disowns.
  - by apply disown_inv.
  - by apply disown_inv.
  - unfold destroy. apply drop_inv; [by apply disown_inv|]. apply close_object_disowns.
  - by apply raw_close_inv.
Qed.

(** C34: Descriptors are neither leaked nor closed twice.  However connections,
    datagram sockets and listeners are constructed (also when [bind] or [listen]
    fails), moved, assigned, closed, released and destroyed: no [close] ever names
    a descriptor that is not open; every open descriptor belongs to exactly one
    object or was handed out by [release]; every object that has a descriptor has
    an open one; and once all objects are gone only the released descriptors are
    open. *)
Theorem sockets_own_descriptors w :
  rtc sock_step start_world w ->
  bad_closes (fds w) = [] /\
  (forall fd, fd ∈ opened (fds w) <-> fd ∈ raw w \/ exists p, owns w p fd) /\
  (forall p q fd, owns w p fd -> owns w q fd -> p = q /\ fd ∉ raw w) /\
  (objects w = ∅ -> opened (fds w) = raw w).
Proof.
  intros Hr. assert (sock_inv w) as Hi.
  { assert (sock_inv start_world) as H0.
    { split; try done; unfold owns; simpl; intros *; rewrite ?lookup_empty; try set_solver; by intros [? _]. }
    clear -Hr H0. induction Hr; eauto using sock_step_inv. }
  assert (forall fd, fd ∈ opened (fds w) <-> fd ∈ raw w \/ exists p, owns w p fd) as Hiff.
  { intros fd. split; [apply Hi|]. intros [Hf|[p Hp]]; [by apply (si_raw _ Hi)|by eapply (si_open _ Hi)]. }
  split_and!; [apply Hi|done|..].
  - intros p q fd Hp Hq. split; [by eapply (si_one _ Hi)|by eapply (si_excl _ Hi)].
  - intros He. apply set_eq. intros fd. rewrite Hiff. split; [|by left]. intros [|[p [Hp _]]]; [done|].
    by rewrite He, lookup_empty in Hp.
Qed.

(** A listener accepts a connection, which is moved into a handler and
    destroyed there; a socket whose [bind] fails leaves nothing. *)
Definition demo_sockets : world :=
  destroy
    (destroy
       (move_construct
          (accepted
             (construct_opened (construct_opened start_world 0 (open_listener 3 true true (fds start_world)))
                9 (open_udp 4 false (sys_open 3 (fds start_world)))) 1 4) 2 1) 1) 2.

Lemma sockets_own_descriptors_witness :
  objects demo_sockets = {[ 0%nat := 3 ]} /\ opened (fds demo_sockets) = {[3]} /\ bad_closes (fds demo_sockets) = [].
Proof.
  split; [vm_compute; reflexivity|]. split; [vm_compute; reflexivity|].
  apply (sockets_own_descriptors demo_sockets). unfold demo_sockets.
  eapply rtc_l; [apply (s_listener start_world 0 3 true true); vm_compute; [reflexivity|set_solver]|].
  eapply rtc_l; [eapply (s_udp _ 9 4 false); [reflexivity|apply not_elem_of_union; split; [|set_solver]; by rewrite elem_of_singleton]|].
  eapply rtc_l; [apply (s_accept _ 1 4); [reflexivity|lia|refine (bool_decide_unpack _ _); vm_compute; exact I]|].
  eapply rtc_l; [apply (s_move _ 2 1); reflexivity|].
  eapply rtc_l; [apply (s_destroy _ 1)|]. eapply rtc_l; [apply (s_destroy _ 2)|]. apply rtc_refl.
Defined.
