(* ===== verification/Forwarding.v ===== *)
(** * Forwarding between nodes (the proxying of
    [src/src/coordinator/coordinator.cpp] over the rings of
    [src/src/main.cpp])

    A request for a key goes from node to node until a node takes itself for the
    owner.  The nodes' rings follow what gossip has told each of them, so they
    need not agree, and they change while a request travels; the code has no
    limit on the number of hops and needs none. *)

From stdpp Require Import relations.
From S2P Require Import Prelude Message NodeInfo OrderedMap.
From S2P Require RingStore.
From S2P Require Import SwimMessage MemberList Disseminator SwimProtocol Node.
From S2P Require Import Stream Coordinator.

Local Open Scope Z_scope.

(** ** One hop *)

(** The states of the running node [self]. *)
Record running (self : NodeId) (s : NodeSt) : Prop := {
  rn_started : exists sort now data_port seed,
    swim_steps sync_ring sort self (node_config data_port) (boot now self data_port seed) s;
  rn_tokens : collision_free (members_ s)
}.

(** Node [x], in some state it can be in, hands the request to [y]. *)
Definition hop (req : Request) (x y : NodeId) : Prop :=
  exists s, running x s /\ route_request (env_ s) x req = ToPeer y.

(** How far clockwise from the key a node's closest token is. *)
Definition token_distance (h : Z) (x : NodeId) : Z := foldr Z.min (2 ^ 32) (dist h <$> tokens x).

Lemma foldr_min_le (l : list Z) z : z ∈ l -> foldr Z.min (2 ^ 32) l <= z.
Proof. induction 1 as [|a z l _ IH]; cbn [foldr]; lia. Qed.

Lemma foldr_min_in (l : list Z) : foldr Z.min (2 ^ 32) l = 2 ^ 32 \/ foldr Z.min (2 ^ 32) l ∈ l.
Proof.
  induction l as [|a l [E|Hin]]; cbn [foldr]; [by left|..].
  - rewrite E. destruct (Z.min_spec a (2 ^ 32)) as [[_ ->]|[_ ->]]; [right; by left|by left].
  - right. destruct (Z.min_spec a (foldr Z.min (2 ^ 32) l)) as [[_ ->]|[_ ->]]; [by left|by right].
Qed.

Lemma token_distance_le h x t : t ∈ tokens x -> token_distance h x <= dist h t.
Proof. intros Ht. apply foldr_min_le. by apply list_elem_of_fmap_2. Qed.

Lemma tokens_width x t : t ∈ tokens x -> in_width 32 t.
Proof. intros Ht. eapply Forall_forall; [apply RingStore.vnode_tokens_width|exact Ht]. Qed.

Lemma token_distance_nonneg h x : 0 <= token_distance h x.
Proof.
  unfold token_distance. destruct (foldr_min_in (dist h <$> tokens x)) as [->|Hin]; [lia|].
  apply list_elem_of_fmap in Hin as (t & -> & _). apply Z.mod_pos_bound. lia.
Qed.

(** The closest token itself. *)
Lemma token_distance_attained h x : exists t, t ∈ tokens x /\ dist h t = token_distance h x.
Proof.
  unfold token_distance. destruct (foldr_min_in (dist h <$> tokens x)) as [E|Hin].
  - assert (hash_node_token x 0 ∈ tokens x) as Ht.
    { apply list_elem_of_fmap. exists 0. split; [done|]. apply elem_of_seqZ. by compute. }
    pose proof (token_distance_le h x _ Ht) as Hle. unfold token_distance in Hle. rewrite E in Hle.
    pose proof (Z.mod_pos_bound (hash_node_token x 0 - h) (2 ^ 32)). unfold dist in Hle. lia.
  - apply list_elem_of_fmap in Hin as (t & E & Ht). by exists t.
Qed.

(** A running node is in its own ring. *)
Lemma running_self self s t : running self s -> t ∈ tokens self -> env_ s !! t = Some self.
Proof.
  intros [(sort & now & data_port & seed & Hsteps) Hcf] Ht.
  destruct (node_ring _ _ _ _ _ _ Hsteps) as [_ Hcomplete]. apply swim_steps_calls in Hsteps.
  destruct (member_calls_self sync_ring self _ _ Hsteps (boot_self now self data_port seed)) as (n & Hn & Hs).
  exact (Hcomplete Hcf _ _ _ Hn Hs Ht).
Qed.

Lemma running_ring self s t x : running self s -> env_ s !! t = Some x -> t ∈ tokens x.
Proof.
  intros [(sort & now & data_port & seed & Hsteps) _] Ht.
  destruct (node_ring _ _ _ _ _ _ Hsteps) as [Hsound _]. by apply Hsound in Ht as [? _].
Qed.

Lemma running_wf self s : running self s -> ring_wf (env_ s).
Proof. intros Hr t [x Hx]. eapply tokens_width, running_ring; eauto. Qed.

(** Every hop comes closer to the key. *)
Lemma hop_closer req x y :
  hop req x y -> token_distance (hash_key (req_key req)) y < token_distance (hash_key (req_key req)) x.
Proof.
  intros (s & Hr & Hroute). unfold route_request in Hroute. case_decide; [done|].
  destruct (RingStore.get_node_for_key _ _) as [y'|] eqn:E; [|done]. case_decide as Hne; simplify_eq.
  set (h := hash_key (req_key req)) in *.
  rewrite RingStore.get_node_owner in E. apply owner_nearest in E as (t & Ht & _ & Hmin);
    [|by eapply running_wf|apply hash_key_width].
  destruct (token_distance_attained h x) as (tx & Htx & <-).
  pose proof (running_self _ _ _ Hr Htx) as Hx.
  pose proof (token_distance_le h y t (running_ring _ _ _ _ Hr Ht)) as Hle.
  assert (dist h t <= dist h tx) as Hle' by (apply Hmin; eauto).
  destruct (decide (dist h t = dist h tx)) as [Ed|]; [|lia].
  apply dist_inj in Ed; [congruence|apply hash_key_width|eapply tokens_width, running_ring; eauto|by eapply tokens_width].
Qed.

(** ** Chains of hops *)

(** The nodes a request visits. *)
Inductive forwarded (req : Request) : list NodeId -> Prop :=
  | fw_one x : forwarded req [x]
  | fw_hop x y path : hop req x y -> forwarded req (y :: path) -> forwarded req (x :: y :: path).

Lemma forwarded_closer req x path z :
  forwarded req (x :: path) -> z ∈ path ->
  token_distance (hash_key (req_key req)) z < token_distance (hash_key (req_key req)) x.
Proof.
  revert x. induction path as [|y path IH]; intros x Hf Hz; [by apply elem_of_nil in Hz|].
  inversion Hf as [|? ? ? Hh Hrest]; subst. pose proof (hop_closer _ _ _ Hh).
  apply elem_of_cons in Hz as [->|Hz]; [done|]. pose proof (IH _ Hrest Hz). lia.
Qed.

Lemma forwarded_tail req x y path : forwarded req (x :: y :: path) -> forwarded req (y :: path).
Proof. by inversion 1. Qed.

(** A request is never forwarded in circles.  Even when the nodes' views of
    the cluster differ, and while they change under way: every hop goes to a node
    with a token strictly closer to the key, so a request visits no node twice, a
    cluster of [n] nodes answers it after at most [n - 1] hops, and forwarding
    always comes to an end.  No two collapsed reads of a key can therefore wait
    for each other.  Between nodes with the same ring one hop is enough. *)
Theorem forwarding_terminates req :
  well_founded (flip (hop req)) /\
  (forall path, forwarded req path -> NoDup path) /\
  (forall nodes path, forwarded req path -> path ⊆ nodes -> (length path <= length nodes)%nat) /\
  (forall ring x y, route_request ring x req = ToPeer y -> route_request ring y req = ToLocal).
Proof.
  assert (forall path, forwarded req path -> NoDup path) as Hnd.
  { intros path. induction path as [|x [|y path] IH]; intros Hf; [constructor|apply NoDup_singleton|].
    apply NoDup_cons. split; [|by apply IH; eapply forwarded_tail]. intros Hin.
    pose proof (forwarded_closer _ _ _ _ Hf Hin). lia. }
  split_and!.
  - apply (well_founded_lt_compat _ (fun x => Z.to_nat (token_distance (hash_key (req_key req)) x))).
    intros y x Hh%hop_closer. pose proof (token_distance_nonneg (hash_key (req_key req)) y). lia.
  - exact Hnd.
  - intros nodes path Hf%Hnd Hsub. by apply submseteq_length, NoDup_submseteq.
  - intros ring x y. unfold route_request. case_decide; [done|].
    destruct (RingStore.get_node_for_key _ _) as [z|]; [|done]. case_decide; [done|]. intros [= ->].
    by rewrite decide_True.
Qed.

(** A node that knows one other hands a key to it. *)
Definition demo_key_request : Request := mkRequest Get (lit "k1") [].

Lemma demo_node_running : running id_a demo_node.
Proof.
  split; [|exact demo_node_collision_free]. exists count_sort, 0, 11211, (Some (id_b, 11211)). apply rtc_refl.
Qed.

Lemma forwarding_terminates_witness :
  forwarded demo_key_request [id_a; id_b] /\ NoDup [id_a; id_b].
Proof.
  assert (forwarded demo_key_request [id_a; id_b]) as Hf.
  { apply fw_hop; [|apply fw_one]. exists demo_node. split; [exact demo_node_running|]. vm_compute. reflexivity. }
  split; [exact Hf|]. exact (proj1 (proj2 (forwarding_terminates demo_key_request)) _ Hf).
Defined.
