(* ===== verification/Distributed.v ===== *)
(** * The cluster as one cache (the nodes of [src/src/main.cpp] with the
    coordinators of [src/src/coordinator/coordinator.cpp] and the stores of
    [src/src/storage/local_store.cpp])

    A request enters the cluster at any node and is forwarded until a node
    serves it.  Every request is answered whatever the nodes believe about each
    other; when they agree, the cluster answers as a single cache does. *)

From stdpp Require Import relations.
From S2P Require Import Prelude Message NodeInfo OrderedMap KVStore.
From S2P Require RingStore LocalStore.
From S2P Require Import SwimMessage MemberList Disseminator SwimProtocol Node.
From S2P Require Import Stream Coordinator Forwarding.

Local Open Scope Z_scope.

(** ** Requests in a cluster *)

(** What the coordinator of a node uses, and the port it listens on. *)
Record node (St : Type) := mkNode {
  nd_port : Z;
  nd_ring : RingStore.Ring;
  nd_members : members;
  nd_store : St
}.
#[global] Arguments mkNode {St} _ _ _ _.
#[global] Arguments nd_port {St} _.
#[global] Arguments nd_ring {St} _.
#[global] Arguments nd_members {St} _.
#[global] Arguments nd_store {St} _.

Section Cluster.
Context {St : Type} `{KVStore St}.
Implicit Types (nodes : gmap NodeId (node St)) (req : Request).

Definition set_store nodes (x : NodeId) (nd : node St) (st : St) : gmap NodeId (node St) :=
  <[x := mkNode (nd_port nd) (nd_ring nd) (nd_members nd) st]> nodes.

(** Whether [proxy_to_peer] reaches the owner [y]: it is a member, it runs, and
    it listens on the port the member list has. *)
Definition reaches nodes (nd : node St) (y : NodeId) : bool :=
  match get_node (nd_members nd) y, nodes !! y with
  | Some info, Some ndy => bool_decide (nd_port ndy = data_port info)
  | _, _ => false
  end.

(** [handle_connection] at node [x], the request forwarded over at most [fuel]
    hops. *)
Fixpoint deliver (fuel : nat) nodes (x : NodeId) req : option (Response * gmap NodeId (node St)) :=
  match nodes !! x with
  | None => Some (mkResponse Error [], nodes)
  | Some nd =>
      match route_request (nd_ring nd) x req with
      | ToClusterInfo => Some (serve_cluster_info (nd_members nd), nodes)
      | ToLocal => let '(resp, st) := serve_local (nd_store nd) req in Some (resp, set_store nodes x nd st)
      | ToPeer y =>
          if reaches nodes nd y then
            match fuel with
            | O => None
            | S fuel => deliver fuel nodes y req
            end
          else Some (mkResponse Error [], nodes)
      end
  end.

(** The nodes run, each with the view of the cluster it has come to. *)
Definition cluster_running nodes : Prop :=
  forall x nd, nodes !! x = Some nd -> exists s, running x s /\ env_ s = nd_ring nd.

(** The nodes with a token closer to the key. *)
Definition closer nodes req (x : NodeId) : gset NodeId :=
  filter (fun y => token_distance (hash_key (req_key req)) y < token_distance (hash_key (req_key req)) x) (dom nodes).

Lemma closer_hop nodes req x y nd :
  token_distance (hash_key (req_key req)) y < token_distance (hash_key (req_key req)) x ->
  nodes !! y = Some nd -> (size (closer nodes req y) < size (closer nodes req x))%nat.
Proof.
  intros Hlt Hy%elem_of_dom_2. apply subset_size. split.
  - intros z. unfold closer. rewrite !elem_of_filter. intros [? ?]. split; [lia|done].
  - intros Hsub. assert (y ∈ closer nodes req y) as Hin by (apply Hsub, elem_of_filter; done).
    apply elem_of_filter in Hin. lia.
Qed.

Lemma reaches_running nodes nd y : reaches nodes nd y = true -> is_Some (nodes !! y).
Proof. unfold reaches. destruct (get_node _ _); [|done]. by destruct (nodes !! y). Qed.

Lemma deliver_enough fuel nodes x req :
  cluster_running nodes -> (size (closer nodes req x) < fuel)%nat -> is_Some (deliver fuel nodes x req).
Proof.
  intros Hrun. revert x. induction fuel as [|fuel IH]; intros x Hsize; [lia|]. cbn [deliver].
  destruct (nodes !! x) as [nd|] eqn:Ex; [|by eexists].
  destruct (route_request (nd_ring nd) x req) as [| |y] eqn:Er; [by eexists|by destruct (serve_local _ _); eexists|].
  destruct (Hrun _ _ Ex) as (s & Hs & Es). rewrite <- Es in Er.
  assert (hop req x y) as Hlt%hop_closer by (by exists s).
  destruct (reaches nodes nd y) eqn:Ere; [|by eexists]. destruct (reaches_running _ _ _ Ere) as [ndy Ey].
  apply IH. pose proof (closer_hop _ _ _ _ _ Hlt Ey). lia.
Qed.

(** Who served a request. *)
Lemma deliver_served fuel nodes x req resp nodes' :
  deliver fuel nodes x req = Some (resp, nodes') ->
  (nodes' = nodes /\ (resp = mkResponse Error [] \/ req_opcode req = ClusterInfo)) \/
  exists y nd st, nodes !! y = Some nd /\ route_request (nd_ring nd) y req = ToLocal /\
    serve_local (nd_store nd) req = (resp, st) /\ nodes' = set_store nodes y nd st.
Proof.
  revert x. induction fuel as [|fuel IH]; intros x; cbn [deliver];
    (destruct (nodes !! x) as [nd|] eqn:Ex; [|intros [= <- <-]; by left; auto]);
    destruct (route_request (nd_ring nd) x req) as [| |y] eqn:Er; try (destruct (reaches nodes nd y));
    try done; try apply IH; try (intros [= <- <-]; by left; auto).
  1,3: intros [= <- <-]; left; split; [done|]; right; unfold route_request in Er; case_decide; [done|];
    destruct (RingStore.get_node_for_key _ _); [case_decide|]; done.
  all: destruct (serve_local (nd_store nd) req) as [resp' st] eqn:Es; intros [= <- <-]; right; by exists x, nd, st.
Qed.


(** ** Nodes that agree *)

(** They have the same ring, and the ports of those in it. *)
Definition agreed (r : RingStore.Ring) nodes : Prop := forall x nd, nodes !! x = Some nd ->
  nd_ring nd = r /\
  forall t y ndy, r !! t = Some y -> nodes !! y = Some ndy ->
    exists info, nd_members nd !! y = Some info /\ data_port info = nd_port ndy.

Lemma agreed_reaches r nodes x nd y ndy h :
  agreed r nodes -> nodes !! x = Some nd -> RingStore.get_node_for_key r h = Some y -> nodes !! y = Some ndy ->
  reaches nodes nd y = true.
Proof.
  intros Hag Hx Hh Hy. rewrite RingStore.get_node_owner in Hh. destruct (owner_token _ _ _ Hh) as [t Ht].
  destruct (Hag _ _ Hx) as [_ Hm]. destruct (Hm _ _ _ Ht Hy) as (info & Hi & Hp). unfold reaches, get_node.
  rewrite Hi, Hy. by apply bool_decide_eq_true.
Qed.

Lemma agreed_route r x req y :
  req_opcode req <> ClusterInfo -> RingStore.get_node_for_key r (hash_key (req_key req)) = Some y ->
  route_request r x req = if decide (y = x) then ToLocal else ToPeer y.
Proof. intros Hop Hy. unfold route_request. rewrite decide_False, Hy by done. done. Qed.

(** The owner serves the request, wherever it entered. *)
Lemma agreed_deliver fuel r nodes x req y nd :
  agreed r nodes -> req_opcode req <> ClusterInfo ->
  RingStore.get_node_for_key r (hash_key (req_key req)) = Some y ->
  is_Some (nodes !! x) -> nodes !! y = Some nd -> (0 < fuel)%nat ->
  deliver fuel nodes x req =
    let '(resp, st) := serve_local (nd_store nd) req in Some (resp, set_store nodes y nd st).
Proof.
  intros Hag Hop Hy [ndx Hx] Hnd Hfuel.
  assert (forall fuel, deliver fuel nodes y req =
    let '(resp, st) := serve_local (nd_store nd) req in Some (resp, set_store nodes y nd st)) as Hown.
  { intros fuel'. destruct fuel'; cbn [deliver]; rewrite Hnd, (proj1 (Hag _ _ Hnd)), (agreed_route r y req y),
      decide_True by done; done. }
  destruct (decide (y = x)) as [->|Hne]; [apply Hown|].
  destruct fuel as [|fuel]; [lia|]. cbn [deliver].
  rewrite Hx, (proj1 (Hag _ _ Hx)), (agreed_route r x req y), decide_False by done.
  rewrite (agreed_reaches r nodes x ndx y nd (hash_key (req_key req))) by done. apply Hown.
Qed.

Lemma agreed_set_store r nodes y nd st :
  agreed r nodes -> nodes !! y = Some nd -> agreed r (set_store nodes y nd st).
Proof.
  intros Hag Hy x nd' Hx.
  assert (exists nd0, nodes !! x = Some nd0 /\ nd_ring nd' = nd_ring nd0 /\ nd_members nd' = nd_members nd0) as (nd0 & H0 & -> & ->).
  { unfold set_store in Hx. apply lookup_insert_Some in Hx as [[<- <-]|[_ Hx]]; eauto. }
  destruct (Hag _ _ H0) as [-> Hm]. split; [done|]. intros t z ndz Ht. unfold set_store.
  intros [[<- <-]|[_ Hz]]%lookup_insert_Some; [exact (Hm _ _ _ Ht Hy)|exact (Hm _ _ _ Ht Hz)].
Qed.

(** ** Histories *)

(** A sequence of requests, each with the node it enters at. *)
Fixpoint run_cluster nodes (reqs : list (NodeId * Request))
    : option (list (Request * Response) * gmap NodeId (node St)) :=
  match reqs with
  | [] => Some ([], nodes)
  | (x, req) :: reqs =>
      '(resp, nodes) ← deliver (size nodes) nodes x req;
      '(history, nodes) ← run_cluster nodes reqs;
      Some ((req, resp) :: history, nodes)
  end.

(** The value clients were last told is stored under [k]. *)
Definition told_step (k : bytes) (o : option bytes) (c : Request * Response) : option bytes :=
  let '(req, resp) := c in
  if decide (req_key req = k) then
    match req_opcode req with
    | Put => if decide (resp_status resp = Ok) then Some (req_value req) else None
    | Del => None
    | _ => o
    end
  else o.

Definition told (k : bytes) (history : list (Request * Response)) : option bytes :=
  foldl (told_step k) None history.
End Cluster.

Section Coherence.
Context {St : Type} `{KVStoreLaws St}.
Context (r : RingStore.Ring) (Hr : r <> ∅).
Implicit Types (nodes : gmap NodeId (node St)).

(** What the owner of a key stores is what clients were told. *)
Record coherent (last : bytes -> option bytes) nodes : Prop := {
  co_agreed : agreed r nodes;
  co_inv x nd : nodes !! x = Some nd -> kv_inv (nd_store nd);
  co_told k y nd v :
    RingStore.get_node_for_key r (hash_key k) = Some y -> nodes !! y = Some nd ->
    kv_contents (nd_store nd) !! k = Some v -> last k = Some v
}.

(** A request of a client: it enters at a node that runs, and is a call of the
    store. *)
Definition admissible nodes (e : NodeId * Request) : Prop :=
  is_Some (nodes !! e.1) /\ exists op, op_of e.2 = Some op /\ op_fits op.

Lemma op_of_key req op :
  op_of req = Some op ->
  req_opcode req <> ClusterInfo /\
  match op with OGet k | ODel k => k = req_key req | OPut k v => k = req_key req /\ v = req_value req end.
Proof. unfold op_of. destruct (req_opcode req); by intros [= <-]. Qed.

(** One call of the store, told to the client. *)
Lemma told_cache_step M op res M' req k v o :
  op_of req = Some op -> cache_step M op res M' -> M' !! k = Some v ->
  (forall v, M !! k = Some v -> o = Some v) ->
  told_step k o (req, response_of op res) = Some v.
Proof.
  intros Hop Hstep Hv Ho. pose proof (cache_step_last _ _ _ _ _ _ Hstep Hv) as Hl.
  unfold op_of in Hop. unfold told_step. destruct (req_opcode req); simplify_eq; inversion Hstep; subst; simpl in *;
    repeat case_decide; simplify_eq; eauto.
Qed.

Lemma owner_exists h : is_Some (RingStore.get_node_for_key r h).
Proof. rewrite RingStore.get_node_owner. by apply owner_is_some. Qed.

(** A call of the store is executed by the owner, or fails when it is down. *)
Lemma coherent_deliver last nodes x req op :
  coherent last nodes -> is_Some (nodes !! x) -> op_of req = Some op ->
  deliver (size nodes) nodes x req =
    match RingStore.get_node_for_key r (hash_key (req_key req)) with
    | Some y =>
        match nodes !! y with
        | Some nd => Some (response_of op (kv_exec (nd_store nd) op).1, set_store nodes y nd (kv_exec (nd_store nd) op).2)
        | None => Some (mkResponse Error [], nodes)
        end
    | None => None
    end.
Proof.
  intros [Hag _ _] [ndx Hx] Hop. destruct (op_of_key _ _ Hop) as [Hnc _].
  destruct (owner_exists (hash_key (req_key req))) as [y Hy]. rewrite Hy.
  assert (0 < size nodes)%nat as Hsz.
  { destruct (size nodes) eqn:E; [|lia]. apply map_size_empty_inv in E. subst. by rewrite lookup_empty in Hx. }
  destruct (nodes !! y) as [nd|] eqn:Ey.
  - rewrite (agreed_deliver _ r nodes x req y nd) by eauto. by rewrite serve_local_exec, Hop.
  - destruct (size nodes) as [|n]; [lia|]. cbn [deliver].
    rewrite Hx, (proj1 (Hag _ _ Hx)), (agreed_route r x req y), decide_False by (done || congruence).
    unfold reaches. rewrite Ey. by destruct (get_node _ _).
Qed.

Lemma coherent_step last nodes x req :
  coherent last nodes -> admissible nodes (x, req) ->
  exists resp nodes', deliver (size nodes) nodes x req = Some (resp, nodes') /\
    coherent (fun k => told_step k (last k) (req, resp)) nodes' /\ dom nodes' = dom nodes.
Proof.
  intros Hco [Hx (op & Hop & Hfit)]. cbn [fst snd] in *. rewrite (coherent_deliver _ _ _ _ _ Hco Hx Hop).
  destruct Hco as [Hag Hinv Htold]. destruct (owner_exists (hash_key (req_key req))) as [y Hy]. rewrite Hy.
  destruct (nodes !! y) as [nd|] eqn:Ey; (eexists _, _; split; [done|]).
  - destruct (kv_step_law (nd_store nd) op Hfit (Hinv _ _ Ey)) as [Hinv' Hstep].
    split; [|unfold set_store; rewrite dom_insert_L; apply elem_of_dom_2 in Ey; set_solver].
    split.
    + by apply agreed_set_store.
    + intros z nd'. unfold set_store. intros [[<- <-]|[_ Hz]]%lookup_insert_Some; [done|eauto].
    + intros k z nd' v Hz. unfold set_store. intros [[<- <-]|[Hne Hz']]%lookup_insert_Some Hv.
      * eapply told_cache_step; eauto.
      * unfold told_step. rewrite decide_False by (intros <-; congruence). eauto.
  - split; [|done]. split; [done..|]. intros k z nd' v Hz Hz' Hv. unfold told_step.
    rewrite decide_False by (intros <-; congruence). eauto.
Qed.

Lemma coherent_run last nodes reqs :
  coherent last nodes -> Forall (admissible nodes) reqs ->
  exists history nodes', run_cluster nodes reqs = Some (history, nodes') /\
    coherent (fun k => foldl (told_step k) (last k) history) nodes' /\ dom nodes' = dom nodes.
Proof.
  revert last nodes. induction reqs as [|[x req] reqs IH]; intros last nodes Hco Hadm; [by exists [], nodes|].
  apply Forall_cons in Hadm as [Ha Hadm]. destruct (coherent_step _ _ _ _ Hco Ha) as (resp & nodes1 & E1 & Hco1 & Hd1).
  destruct (IH _ nodes1 Hco1) as (history & nodes2 & E2 & Hco2 & Hd2).
  { eapply Forall_impl; [exact Hadm|]. intros e [He ?]. split; [|done]. apply elem_of_dom. rewrite Hd1. by apply elem_of_dom. }
  exists ((req, resp) :: history), nodes2. cbn [run_cluster]. rewrite E1. simpl. rewrite E2. simpl.
  split; [done|]. split; [done|congruence].
Qed.

(** What the owner of a key has. *)
Definition stored (k v : bytes) nodes : Prop :=
  exists nd, RingStore.get_node_for_key r (hash_key k) ≫= (nodes !!.) = Some nd /\
    kv_contents (nd_store nd) !! k = Some v.

(** What a read finds: the owner's value, or an error when the owner is down. *)
Lemma coherent_get last nodes x k :
  coherent last nodes -> is_Some (nodes !! x) ->
  exists nodes', deliver (size nodes) nodes x (mkRequest Get k []) =
    Some (match RingStore.get_node_for_key r (hash_key k) ≫= (nodes !!.) with
          | Some nd => response_of (OGet k) (RValue (kv_contents (nd_store nd) !! k))
          | None => mkResponse Error []
          end, nodes').
Proof.
  intros Hco Hx. rewrite (coherent_deliver _ _ _ (mkRequest Get k []) (OGet k) Hco Hx eq_refl). cbn [req_key].
  destruct (owner_exists (hash_key k)) as [y Hy]. rewrite Hy. cbn [mbind option_bind].
  destruct (nodes !! y) as [nd|] eqn:Ey; [|by eexists].
  destruct (kv_step_law (nd_store nd) (OGet k) I (co_inv _ _ Hco _ _ Ey)) as [_ Hstep].
  assert ((kv_exec (nd_store nd) (OGet k)).1 = RValue (kv_contents (nd_store nd) !! k)) as ->
    by (by inversion Hstep).
  by eexists.
Qed.

(** After a successful write the owner has the value. *)
Lemma coherent_put last nodes x k v resp nodes' :
  coherent last nodes -> is_Some (nodes !! x) -> op_fits (OPut k v) ->
  deliver (size nodes) nodes x (mkRequest Put k v) = Some (resp, nodes') -> resp_status resp = Ok -> stored k v nodes'.
Proof.
  intros Hco Hx Hfit. rewrite (coherent_deliver _ _ _ (mkRequest Put k v) (OPut k v) Hco Hx eq_refl). cbn [req_key]. unfold stored.
  destruct (owner_exists (hash_key k)) as [y Hy]. rewrite Hy. cbn [mbind option_bind].
  destruct (nodes !! y) as [nd|] eqn:Ey; [|by intros [= <- <-]].
  destruct (kv_step_law (nd_store nd) (OPut k v) Hfit (co_inv _ _ Hco _ _ Ey)) as [_ Hstep].
  destruct (kv_exec (nd_store nd) (OPut k v)) as [res st]. cbn [fst snd] in *. unfold set_store. intros E Hok.
  apply (inj Some), pair_equal_spec in E as [<- <-].
  inversion Hstep as [|? ? dropped Hd _ Eop Er Ec|? ? dropped Hd _ Eop Er Ec|]; subst res; [|done].
  eexists. rewrite lookup_insert_eq. split; [done|]. cbn [nd_store]. rewrite <- Ec. apply lookup_insert_eq.
Qed.

(** A read finds what is stored, and leaves it. *)
Lemma coherent_get_stored last nodes x k v resp nodes' :
  coherent last nodes -> is_Some (nodes !! x) -> stored k v nodes ->
  deliver (size nodes) nodes x (mkRequest Get k []) = Some (resp, nodes') ->
  resp = mkResponse Ok v /\ stored k v nodes'.
Proof.
  intros Hco Hx (nd & Hnd & Hv). rewrite (coherent_deliver _ _ _ (mkRequest Get k []) (OGet k) Hco Hx eq_refl). cbn [req_key]. unfold stored.
  destruct (RingStore.get_node_for_key r (hash_key k)) as [y|]; [|done]. cbn [mbind option_bind] in *. rewrite Hnd.
  destruct (kv_step_law (nd_store nd) (OGet k) I (co_inv _ _ Hco _ _ Hnd)) as [_ Hstep].
  destruct (kv_exec (nd_store nd) (OGet k)) as [res st]. cbn [fst snd] in *. intros E.
  apply (inj Some), pair_equal_spec in E as [<- <-].
  inversion Hstep as [? Eop Er Ec| | |]; subst res. rewrite Hv. split; [done|].
  eexists. unfold set_store. rewrite lookup_insert_eq. split; [done|]. cbn [nd_store]. by rewrite <- Ec.
Qed.

Lemma coherent_start nodes :
  agreed r nodes ->
  (forall x nd, nodes !! x = Some nd -> kv_inv (nd_store nd) /\ kv_contents (nd_store nd) = ∅) ->
  coherent (fun _ => None) nodes.
Proof.
  intros Hag Hst. split; [done|intros x nd Hx; by apply (Hst x)|].
  intros k y nd v _ Hy. rewrite (proj2 (Hst _ _ Hy)), lookup_empty. done.
Qed.

End Coherence.

#[local] Existing Instance LocalStore.LocalStore_KVStore.
#[local] Existing Instance LocalStore.LocalStore_laws.

(** A node that knows another, and that other, which knows nobody. *)
Definition demo_alone : NodeSt := boot 0 id_b 11211 None.

Definition demo_nodes : gmap NodeId (node LocalStore.LocalStore) :=
  <[id_a := mkNode 11211 (env_ demo_node) (members_ demo_node) LocalStore.demo_store]>
    {[id_b := mkNode 11211 (env_ demo_alone) (members_ demo_alone) LocalStore.demo_store]}.

Lemma demo_alone_running : running id_b demo_alone.
Proof.
  split; [exists count_sort, 0, 11211, None; apply rtc_refl|].
  assert (forall x, is_Some (members_ demo_alone !! x) -> x = id_b) as Hx.
  { intros x. change (members_ demo_alone) with (membership demo_alone).1. unfold demo_alone. rewrite boot_membership.
    cbn [boot_calls foldl run_call fst]. rewrite (add_node_eq ∅). cbn [id]. rewrite lookup_empty. cbn [fst snd].
    intros [n [[<- _]|[_ Hn]]%lookup_insert_Some]; [done|]. by rewrite lookup_empty in Hn. }
  intros x y t Hx1%Hx Hy1%Hx _ _. congruence.
Qed.


(** Two nodes that agree that the second owns every key. *)
Definition demo_second : members := {[id_b := mkNodeInfo id_b 11211 NodeState_Alive 0 0]}.
Definition demo_agreed : gmap NodeId (node LocalStore.LocalStore) :=
  <[id_a := mkNode 11211 {[0 := id_b]} demo_second LocalStore.demo_store]> {[id_b := mkNode 11211 {[0 := id_b]} demo_second LocalStore.demo_store]}.

Lemma demo_agreed_nodes x nd :
  demo_agreed !! x = Some nd -> nd = mkNode 11211 {[0 := id_b]} demo_second LocalStore.demo_store.
Proof. unfold demo_agreed. by intros [[_ <-]|[_ [_ <-]%lookup_singleton_Some]]%lookup_insert_Some. Qed.

Lemma demo_agreed_ok : agreed {[0 := id_b]} demo_agreed.
Proof.
  intros x nd ->%demo_agreed_nodes. split; [done|].
  intros t y ndy [_ <-]%lookup_singleton_Some ->%demo_agreed_nodes. eexists. split; [apply lookup_singleton_eq|done].
Qed.

