(* ===== verification/ClusterClient.v ===== *)
(** * Clients of a cluster ([src/src/sdk/pensieve_client.cpp] against the
    coordinators of [src/src/coordinator/coordinator.cpp])

    Several clients, each with its pool, its circuit breaker and whatever topology
    it last fetched, send requests to the nodes of a cluster over connections that
    fail.  A request may be executed though its sender is told that it failed, and
    is then sent to another node.  What the clients are told is still what one
    cache would tell them. *)

From S2P Require Import Prelude Message NodeInfo OrderedMap KVStore.
From S2P Require RingStore LocalStore.
From S2P Require Import SwimProtocol.
From S2P Require Import Stream Coordinator Topology ConnectionPool PensieveClient Distributed.

Local Open Scope Z_scope.

(** ** The network *)

(** What becomes of a request sent to node [x]: it is lost, executed without an
    answer that reaches the sender, or executed and answered; [queue] are the
    responses that can be read on the connection. *)
Inductive request_effect `{KVStore St} (x : NodeId) (req : Request) (nodes : gmap NodeId (node St))
    : gmap NodeId (node St) -> list Response -> Prop :=
  | effect_lost : request_effect x req nodes nodes []
  | effect_silent resp nodes' :
      deliver (size nodes) nodes x req = Some (resp, nodes') -> request_effect x req nodes nodes' []
  | effect_answered resp nodes' :
      deliver (size nodes) nodes x req = Some (resp, nodes') -> request_effect x req nodes nodes' [resp].

(** The network between the clients and the nodes that run: [conns] are the open
    connections, each with the node it ends at and the responses not yet read on
    it.  A connection is a new one and ends at a node that runs; a request has one
    of the effects above by the time the sender is told how the call ended; a
    response that is read is the oldest one; any call may fail. *)
Class ClusterNet (W C St : Type) `{Countable C, Transport W C, KVStore St} := {
  cluster : W -> gmap NodeId (node St);
  conns : W -> gmap C (NodeId * list Response);
  net_connect w host port :
    let '(r, w') := tr_connect w host port in
    cluster w' = cluster w /\
    match r with
    | Some fd => conns w !! fd = None /\
        exists x, is_Some (cluster w !! x) /\ conns w' = <[fd := (x, [])]> (conns w)
    | None => conns w' = conns w
    end;
  net_close w fd : cluster (tr_close w fd) = cluster w /\ conns (tr_close w fd) = delete fd (conns w);
  net_send w fd req x queue :
    Request_wf req -> conns w !! fd = Some (x, queue) ->
    let '(_, w') := tr_send w fd req in
    exists answer, request_effect x req (cluster w) (cluster w') answer /\
      conns w' = <[fd := (x, queue ++ answer)]> (conns w);
  net_recv w fd x queue :
    conns w !! fd = Some (x, queue) ->
    let '(r, w') := tr_recv w fd in
    cluster w' = cluster w /\
    match r with
    | Some resp => exists rest, queue = resp :: rest /\ conns w' = <[fd := (x, rest)]> (conns w)
    | None => conns w' = conns w
    end
}.

Section Net.
Context {W C St : Type} `{ClusterNet W C St} (now : W -> Z).
Context (fetch : W -> bytes -> Z -> option (list NodeEndpoint) * W).
(** Fetching a topology, right or wrong, uses a connection of its own. *)
Hypothesis fetch_apart : forall w host port,
  cluster (fetch w host port).2 = cluster w /\ conns (fetch w host port).2 = conns w.
Implicit Types (w : W) (fds : list C) (p : ConnectionPool C).

(** Connections that can be used: they end at a node that runs, and every
    response was read. *)
Definition ready fds w : Prop :=
  NoDup fds /\ forall fd, fd ∈ fds -> exists x, conns w !! fd = Some (x, []) /\ is_Some (cluster w !! x).

Lemma ready_frame fds w w' fd :
  ready fds w -> fd ∉ fds -> dom (cluster w') = dom (cluster w) ->
  (forall fd', fd' <> fd -> conns w' !! fd' = conns w !! fd') -> ready fds w'.
Proof.
  intros [Hnd Hr] Hn Hd Hc. split; [done|]. intros fd' Hin. destruct (Hr fd' Hin) as (x & Hx & Hrun).
  exists x. rewrite Hc by (by intros ->). split; [done|]. apply elem_of_dom. rewrite Hd. by apply elem_of_dom.
Qed.

Lemma ready_same fds w w' : cluster w' = cluster w -> conns w' = conns w -> ready fds w -> ready fds w'.
Proof. intros Hcl Hco. unfold ready. by rewrite Hcl, Hco. Qed.

#[global] Instance ready_proper : Proper ((≡ₚ) ==> eq ==> iff) ready.
Proof.
  intros f1 f2 Hf w ? <-. unfold ready. rewrite Hf. f_equiv.
  split; intros Hr fd Hin; apply Hr; [by rewrite Hf|by rewrite <- Hf].
Qed.

(** ** One request

    [K] is what holds of the nodes while the request is sent to one after
    another, [A] what also holds once it was executed with a response. *)

Section Request.
Context (req : Request) (Hwf : Request_wf req) (others : list C).
Context (K : gmap NodeId (node St) -> Prop) (A : Response -> gmap NodeId (node St) -> Prop).
Hypothesis executed : forall nodes x resp nodes',
  K nodes -> is_Some (nodes !! x) -> deliver (size nodes) nodes x req = Some (resp, nodes') ->
  K nodes' /\ A resp nodes' /\ dom nodes' = dom nodes.

Definition kept p : list C := pool_fds (pool_ p) ++ others.

Definition at_rest p w : Prop := ready (kept p) w /\ K (cluster w).

(** A connection is out of the pool, with responses waiting on it. *)
Definition out p w (fd : C) (queue : list Response) : Prop :=
  fd ∉ kept p /\ at_rest p w /\ exists x, conns w !! fd = Some (x, queue) /\ is_Some (cluster w !! x).

Definition held p w fd : Prop := out p w fd [].
Definition sent p w fd : Prop := out p w fd [] \/ exists resp, out p w fd [resp] /\ A resp (cluster w).
Definition broken p w fd : Prop := exists queue, out p w fd queue.
Definition received resp p w fd : Prop := out p w fd [] /\ A resp (cluster w).
Definition answered resp p w : Prop := at_rest p w /\ A resp (cluster w).

Lemma acquire_out p w ep :
  at_rest p w ->
  let '(r, p', w') := acquire tr_connect w p ep in
  match r with Some fd => held p' w' fd | None => at_rest p' w' end.
Proof.
  unfold at_rest, acquire, kept. intros [Hr HK]. destruct (take_idle _ _) as [[fd pl]|] eqn:E.
  { rewrite (pool_fds_take _ _ _ _ E) in Hr. cbn [app] in Hr. destruct Hr as [[Hn Hnd]%NoDup_cons Hr].
    split; [done|]. split; [split; [|done]; split; [done|]|by apply Hr, list_elem_of_here].
    intros fd' Hin. by apply Hr, list_elem_of_further. }
  pose proof (net_connect w (ep_host ep) (ep_data_port ep)) as Hc.
  destruct (tr_connect _ _ _) as [[fd|] w1]; destruct Hc as [Hcl Hc].
  2:{ rewrite Hcl. split; [|done]. by apply (ready_same _ w). }
  destruct Hc as (Hnew & x & Hx & Hc).
  assert (fd ∉ kept p) as Hn by (intros Hin; apply Hr in Hin as (? & ? & _); congruence).
  split; [done|]. split; [split; [|by rewrite Hcl]|].
  - apply (ready_frame _ w _ fd); [done|done|by rewrite Hcl|]. intros fd' Hne. by rewrite Hc, lookup_insert_ne.
  - exists x. by rewrite Hc, Hcl, lookup_insert_eq.
Qed.

Lemma send_out p w fd :
  held p w fd -> let '(ok, w') := tr_send w fd req in if ok : bool then sent p w' fd else broken p w' fd.
Proof.
  intros (Hn & [Hr HK] & x & Hx & Hrun). pose proof (net_send w fd req x [] Hwf Hx) as Hs.
  destruct (tr_send w fd req) as [ok w']. destruct Hs as (answer & He & Hc). cbn [app] in Hc.
  assert (K (cluster w') /\ dom (cluster w') = dom (cluster w) /\
    (answer = [] \/ exists resp, answer = [resp] /\ A resp (cluster w'))) as (HK' & Hd & Ha).
  { destruct He as [|resp nodes' Ed|resp nodes' Ed]; [eauto|..];
      destruct (executed _ _ _ _ HK Hrun Ed) as (? & ? & ?); split_and!; eauto. }
  assert (out p w' fd answer) as Ho.
  { split; [done|]. split; [split; [|done]|].
    - apply (ready_frame _ w _ fd); [done..|]. intros fd' Hne. by rewrite Hc, lookup_insert_ne.
    - exists x. rewrite Hc, lookup_insert_eq. split; [done|]. apply elem_of_dom. rewrite Hd. by apply elem_of_dom. }
  destruct ok; [|by exists answer]. destruct Ha as [->|(resp & -> & Ha)]; [by left|right; eauto].
Qed.

(** The state after a read that left [queue] on the connection. *)
Lemma out_read p w w' fd queue queue' :
  out p w fd queue -> cluster w' = cluster w ->
  (forall x, conns w !! fd = Some (x, queue) -> conns w' = <[fd := (x, queue')]> (conns w)) -> out p w' fd queue'.
Proof.
  intros (Hn & [Hr HK] & x & Hx & Hrun) Hcl Hc. specialize (Hc x Hx). split; [done|]. split; [split; [|by rewrite Hcl]|].
  - apply (ready_frame _ w _ fd); [done|done|by rewrite Hcl|]. intros fd' Hne. by rewrite Hc, lookup_insert_ne.
  - exists x. by rewrite Hc, Hcl, lookup_insert_eq.
Qed.

Lemma recv_out p w fd :
  sent p w fd ->
  let '(r, w') := tr_recv w fd in match r with Some resp => received resp p w' fd | None => broken p w' fd end.
Proof.
  assert (forall queue, out p w fd queue -> let '(r, w') := tr_recv w fd in
    cluster w' = cluster w /\ match r with
    | Some resp => exists rest, queue = resp :: rest /\ out p w' fd rest
    | None => out p w' fd queue end) as Hread.
  { intros queue Ho. pose proof Ho as (_ & _ & x & Hx & _). pose proof (net_recv w fd x queue Hx) as Hv.
    destruct (tr_recv w fd) as [[resp|] w']; destruct Hv as [Hcl Hv]; (split; [done|]).
    - destruct Hv as (rest & -> & Hc). exists rest. split; [done|]. apply (out_read _ _ _ _ _ _ Ho Hcl). intros y Hy. congruence.
    - apply (out_read _ _ _ _ _ _ Ho Hcl). intros y Hy. by rewrite Hv, insert_id. }
  intros [Ho|(resp & Ho & Ha)]; specialize (Hread _ Ho); destruct (tr_recv w fd) as [[resp'|] w'];
    destruct Hread as [Hcl Hread].
  - by destruct Hread as (rest & ? & _).
  - by exists [].
  - destruct Hread as (rest & [= <- <-] & Ho'). split; [done|]. by rewrite Hcl.
  - by exists [resp].
Qed.

Lemma close_out p w fd : broken p w fd -> at_rest p (tr_close w fd).
Proof.
  intros (queue & Hn & [Hr HK] & _). destruct (net_close w fd) as [Hcl Hc]. split; [|by rewrite Hcl].
  apply (ready_frame _ w _ fd); [done|done|by rewrite Hcl|]. intros fd' Hne. by rewrite Hc, lookup_delete_ne.
Qed.

Lemma release_out resp p w ep fd :
  received resp p w fd -> let '(p', w') := release tr_close w p ep fd in answered resp p' w'.
Proof.
  intros [Ho Ha]. unfold release. cbv zeta. case_decide.
  - split; [|by rewrite (proj1 (net_close w fd))]. pose proof (close_out p w fd (ex_intro _ _ Ho)) as [Hr HK].
    split; [|done]. unfold kept in *. cbn [pool_]. by rewrite pool_fds_touch.
  - split; [|done]. destruct Ho as (Hn & [[Hnd Hr] HK] & Hx). split; [|done]. unfold kept in *. cbn [pool_].
    rewrite pool_fds_put. cbn [app]. split; [by apply NoDup_cons|].
    intros fd' [->|Hin]%elem_of_cons; [done|by apply Hr].
Qed.

Lemma execute_delivers op key value (cl : Client C) w r cl' w' :
  req = mkRequest op key value -> ready (kept (pool cl)) w -> K (cluster w) ->
  execute now fetch op key value cl w = (r, cl', w') ->
  ready (kept (pool cl')) w' /\
  match r with Some resp => A resp (cluster w') | None => K (cluster w') end.
Proof.
  intros Hreq Hr HK E. unfold execute in E. rewrite <- Hreq in E.
  eapply (try_targets_rule now _ fetch at_rest held sent broken received answered) in E; [|..|done].
  - destruct r; split; apply E.
  - intros. by apply acquire_out.
  - intros. by apply send_out.
  - intros. by apply recv_out.
  - intros. by apply close_out.
  - intros. by apply release_out.
  - intros resp p w0 host port [[Hr0 HK0] HA]. destruct (fetch_apart w0 host port) as [Hcl Hc].
    split; [split|]; [by apply (ready_same _ w0)|by rewrite Hcl..].
Qed.
End Request.
End Net.

(** ** Histories *)

Inductive client_op :=
  | OpGet (key : bytes)
  | OpPut (key value : bytes)
  | OpDel (key : bytes).

(** A call with what it returned. *)
Inductive client_event :=
  | EvGet (key : bytes) (value : option bytes)
  | EvPut (key value : bytes) (ok : bool)
  | EvDel (key : bytes) (ok : bool).

Definition request_of (op : client_op) : Request :=
  match op with
  | OpGet key => mkRequest Get key []
  | OpPut key value => mkRequest Put key value
  | OpDel key => mkRequest Del key []
  end.

(** The values [key] can have, by what the clients were told: a write or a
    deletion that returned true leaves no doubt; a write that returned false may
    have taken place, now or earlier in the same call. *)
Definition possible_step (key : bytes) (values : list bytes) (ev : client_event) : list bytes :=
  match ev with
  | EvGet _ _ => values
  | EvPut k v ok => if decide (k = key) then if ok then [v] else v :: values else values
  | EvDel k ok => if decide (k = key /\ ok = true) then [] else values
  end.

Definition possible (key : bytes) (evs : list client_event) : list bytes := foldl (possible_step key) [] evs.

Section Clients.
Context {W C : Type} `{Transport W C} (now : W -> Z).
Context (fetch : W -> bytes -> Z -> option (list NodeEndpoint) * W).

Definition client_do (op : client_op) (cl : Client C) (w : W) : client_event * Client C * W :=
  match op with
  | OpGet key => let '(r, cl, w) := client_get now fetch key cl w in (EvGet key r, cl, w)
  | OpPut key value => let '(ok, cl, w) := client_put now fetch key value cl w in (EvPut key value ok, cl, w)
  | OpDel key => let '(ok, cl, w) := client_del now fetch key cl w in (EvDel key ok, cl, w)
  end.

(** The calls of several clients, one at a time in any order; a call of a client
    that is not there does nothing. *)
Fixpoint run_clients (cls : list (Client C)) (w : W) (ops : list (nat * client_op))
    : list client_event * list (Client C) * W :=
  match ops with
  | [] => ([], cls, w)
  | (i, op) :: ops =>
      match cls !! i with
      | None => run_clients cls w ops
      | Some cl =>
          let '(ev, cl, w) := client_do op cl w in
          let '(evs, cls, w) := run_clients (<[i := cl]> cls) w ops in
          (ev :: evs, cls, w)
      end
  end.
End Clients.

(** ** What requests do to a coherent cluster *)

Section Told.
Context {St : Type} `{KVStoreLaws St} (r : RingStore.Ring) (Hr : r <> ∅).
Implicit Types (nodes : gmap NodeId (node St)) (last : bytes -> option bytes).

(** What the request may have done by now. *)
Definition allowed (req : Request) last last' : Prop :=
  forall k, last' k = last k \/ k = req_key req /\
    (last' k = None \/ req_opcode req = Put /\ last' k = Some (req_value req)).

(** What the response says of the key. *)
Definition tells (req : Request) (resp : Response) last : Prop :=
  resp_status resp = Ok ->
  match req_opcode req with
  | Get => last (req_key req) = Some (resp_value resp)
  | Put => last (req_key req) = Some (req_value req)
  | Del => last (req_key req) = None
  | _ => True
  end.

Lemma allowed_told req resp last0 last :
  allowed req last0 last -> allowed req last0 (fun k => told_step k (last k) (req, resp)).
Proof.
  intros Ha k. specialize (Ha k). unfold told_step. case_decide as Hk; [|done]. subst k.
  destruct (req_opcode req); try done; right; (split; [done|]); [case_decide|]; auto.
Qed.

Lemma op_of_admissible nodes x op :
  Request_wf (request_of op) -> is_Some (nodes !! x) -> admissible nodes (x, request_of op).
Proof.
  intros (_ & Hk & Hv) Hx. split; [done|].
  destruct op as [key|key value|key]; eexists; (split; [reflexivity|]); [done| |done]. simpl in *. lia.
Qed.

Lemma told_executed op last nodes x resp nodes' :
  Request_wf (request_of op) -> coherent r last nodes -> is_Some (nodes !! x) ->
  deliver (size nodes) nodes x (request_of op) = Some (resp, nodes') ->
  coherent r (fun k => told_step k (last k) (request_of op, resp)) nodes' /\
  tells (request_of op) resp (fun k => told_step k (last k) (request_of op, resp)) /\ dom nodes' = dom nodes.
Proof.
  intros Hwf Hco Hx E.
  destruct (coherent_step r Hr last nodes x (request_of op) Hco (op_of_admissible _ _ _ Hwf Hx))
    as (resp' & n' & E' & Hco' & Hd).
  rewrite E in E'. injection E' as <- <-. split_and!; [done| |done].
  intros Hok. unfold told_step. destruct op as [key|key value|key]; cbn [request_of req_key req_opcode req_value];
    rewrite decide_True by done; [|by rewrite decide_True|done].
  destruct (coherent_get r Hr last nodes x key Hco Hx) as [n2 E2]. cbn [request_of] in E. rewrite E in E2.
  injection E2 as -> _. destruct (RingStore.get_node_for_key r (hash_key key)) as [y|] eqn:Hy; [|done].
  cbn [mbind option_bind] in *. destruct (nodes !! y) as [nd|] eqn:Ey; [|done].
  destruct (kv_contents (nd_store nd) !! key) as [v|] eqn:Ev; [|done]. by apply (co_told _ _ _ Hco key y nd v).
Qed.
End Told.

(** ** The clients of a cluster *)

Section Coherent.
Context {W C St : Type} `{Countable C, Transport W C, !KVStore St, !KVStoreLaws St, !ClusterNet W C St} (now : W -> Z).
Context (fetch : W -> bytes -> Z -> option (list NodeEndpoint) * W).
Hypothesis fetch_apart : forall w host port,
  cluster (fetch w host port).2 = cluster w /\ conns (fetch w host port).2 = conns w.
Context (r : RingStore.Ring) (Hr : r <> ∅).
Implicit Types (w : W) (cls : list (Client C)) (P : bytes -> list bytes).

Definition all_fds cls : list C := concat ((fun cl => pool_fds (pool_ (pool cl))) <$> cls).

Lemma all_fds_split cls i cl :
  cls !! i = Some cl ->
  exists others, all_fds cls ≡ₚ kept others (pool cl) /\
    forall cl', all_fds (<[i := cl']> cls) ≡ₚ kept others (pool cl').
Proof.
  intros Hi. unfold all_fds, kept. pose proof (take_drop_middle _ _ _ Hi) as E.
  exists (all_fds (take i cls) ++ all_fds (drop (S i) cls)). unfold all_fds.
  assert (forall cl', concat ((fun cl => pool_fds (pool_ (pool cl))) <$> (take i cls ++ cl' :: drop (S i) cls)) ≡ₚ
    pool_fds (pool_ (pool cl')) ++ concat ((fun cl => pool_fds (pool_ (pool cl))) <$> take i cls) ++
      concat ((fun cl => pool_fds (pool_ (pool cl))) <$> drop (S i) cls)) as Hp.
  { intros cl'. rewrite fmap_app, fmap_cons, concat_app. cbn [concat]. apply Permutation_app_swap_app. }
  split; [by rewrite <- Hp, E|]. intros cl'. rewrite <- Hp. rewrite insert_take_drop; [done|]. by apply lookup_lt_Some in Hi.
Qed.

(** What the stores have is among what the clients may believe. *)
Definition believed P (nodes : gmap NodeId (node St)) : Prop :=
  exists last, coherent r last nodes /\ forall k v, last k = Some v -> v ∈ P k.

Definition served P cls w : Prop := ready (all_fds cls) w /\ believed P (cluster w).

(** One call, executed any number of times on the way. *)
Lemma execute_told op others (cl : Client C) w last resp cl' w' :
  Request_wf (request_of op) -> ready (kept others (pool cl)) w -> coherent r last (cluster w) ->
  execute now fetch (req_opcode (request_of op)) (req_key (request_of op)) (req_value (request_of op)) cl w
    = (resp, cl', w') ->
  ready (kept others (pool cl')) w' /\
  exists last', coherent r last' (cluster w') /\ allowed (request_of op) last last' /\
    forall a, resp = Some a -> tells (request_of op) a last'.
Proof.
  intros Hwf Hrd Hco E.
  eapply (execute_delivers now fetch fetch_apart (request_of op) Hwf others
    (fun nodes => exists last', coherent r last' nodes /\ allowed (request_of op) last last')
    (fun a nodes => exists last', coherent r last' nodes /\ allowed (request_of op) last last' /\
       tells (request_of op) a last')) in E as [Hrd' Hk]; [|..]; [| |by destruct op|done|].
  - split; [done|]. destruct resp as [a|]; destruct Hk as (last' & Hk); exists last'; destruct_and?; split_and!; try done.
    by intros a' [= <-].
  - intros nodes x a nodes' (last' & Hco' & Hal) Hx Hd.
    destruct (told_executed r Hr op last' nodes x a nodes' Hwf Hco' Hx Hd) as (H1 & H2 & H3).
    pose proof (allowed_told (request_of op) a last last' Hal). split_and!; eauto.
  - exists last. split; [done|]. by left.
Qed.

Definition event_step P (ev : client_event) : bytes -> list bytes := fun k => possible_step k (P k) ev.

(** A read that returns a value returns one of those. *)
Definition event_ok P (ev : client_event) : Prop :=
  match ev with EvGet key (Some v) => v ∈ P key | _ => True end.

Lemma client_do_served op others P (cl : Client C) w ev cl' w' :
  Request_wf (request_of op) -> ready (kept others (pool cl)) w -> believed P (cluster w) ->
  client_do now fetch op cl w = (ev, cl', w') ->
  ready (kept others (pool cl')) w' /\ believed (event_step P ev) (cluster w') /\ event_ok P ev.
Proof.
  intros Hwf Hrd (last & Hco & Hin) E.
  destruct op as [key|key value|key]; cbn [client_do] in E; unfold client_get, client_put, client_del in E;
    destruct (execute _ _ _ _ _ _ _) as [[resp cl1] w1] eqn:Ee; injection E as <- <- <-.
  - destruct (execute_told (OpGet key) _ _ _ _ _ _ _ Hwf Hrd Hco Ee) as (Hrd' & last' & Hco' & Hal & Ht).
    assert (forall k v, last' k = Some v -> v ∈ P k) as Hin'.
    { intros k v Hv. destruct (Hal k) as [E|(_ & [E|[E _]])]; [apply Hin; congruence|congruence|done]. }
    split; [done|]. split; [by exists last'|]. destruct resp as [a|]; [|done]. case_decide as Hs; [|done].
    apply Hin'. by apply (Ht a eq_refl).
  - destruct (execute_told (OpPut key value) _ _ _ _ _ _ _ Hwf Hrd Hco Ee) as (Hrd' & last' & Hco' & Hal & Ht).
    split; [done|]. split; [|done]. exists last'. split; [done|]. intros k v Hv. unfold event_step. cbn [possible_step].
    case_decide as Hk; [subst k|].
    + destruct (succeeded resp) eqn:Es.
      * destruct resp as [a|]; [|done]. apply bool_decide_eq_true in Es. pose proof (Ht a eq_refl Es) as Hv'. simpl in Hv'.
        apply list_elem_of_singleton. congruence.
      * destruct (Hal key) as [E|(_ & [E|[_ E]])]; [right; apply Hin; congruence|congruence|]. simpl in E.
        apply elem_of_cons. left. congruence.
    + destruct (Hal k) as [E|[E _]]; [apply Hin; congruence|by destruct Hk].
  - destruct (execute_told (OpDel key) _ _ _ _ _ _ _ Hwf Hrd Hco Ee) as (Hrd' & last' & Hco' & Hal & Ht).
    split; [done|]. split; [|done]. exists last'. split; [done|]. intros k v Hv. unfold event_step. cbn [possible_step].
    case_decide as Hk.
    + destruct Hk as [-> Es]. destruct resp as [a|]; [|done]. apply bool_decide_eq_true in Es.
      pose proof (Ht a eq_refl Es) as Hv'. simpl in Hv'. congruence.
    + destruct (Hal k) as [E|(_ & [E|[E _]])]; [apply Hin; congruence|congruence|done].
Qed.

Lemma run_clients_served ops P cls w evs cls' w' :
  Forall (fun e => Request_wf (request_of e.2)) ops -> served P cls w ->
  run_clients now fetch cls w ops = (evs, cls', w') ->
  served (fun k => foldl (possible_step k) (P k) evs) cls' w' /\
  forall i k v, evs !! i = Some (EvGet k (Some v)) -> v ∈ foldl (possible_step k) (P k) (take i evs).
Proof.
  revert P cls w evs. induction ops as [|[i op] ops IH]; intros P cls w evs Hwf Hs E; cbn [run_clients] in E.
  { injection E as <- <- <-. split; [done|]. intros i k v Hi. by rewrite lookup_nil in Hi. }
  apply Forall_cons in Hwf as [Hop Hwf]. destruct (cls !! i) as [cl|] eqn:Ei; [|by eapply IH].
  destruct (client_do now fetch op cl w) as [[ev cl1] w1] eqn:E1.
  destruct (run_clients now fetch _ w1 ops) as [[evs1 cls1] w2] eqn:E2. injection E as <- <- <-.
  destruct (all_fds_split cls i cl Ei) as (others & Hfds & Hfds'). destruct Hs as [Hrd Hb]. rewrite Hfds in Hrd.
  destruct (client_do_served op others P cl w ev cl1 w1 Hop Hrd Hb E1) as (Hrd1 & Hb1 & Hev).
  apply IH with (P := event_step P ev) in E2 as [Hs2 Hreads]; [|done|split; [by rewrite Hfds'|done]].
  split; [done|]. intros [|j] k v Hj; cbn [lookup list_lookup take foldl] in *; [|by apply Hreads].
  injection Hj as ->. done.
Qed.

(** A write that was confirmed is there. *)
Lemma confirmed_put_stored others k v (cl : Client C) w last cl' w' :
  Request_wf (mkRequest Put k v) -> ready (kept others (pool cl)) w -> coherent r last (cluster w) ->
  client_put now fetch k v cl w = (true, cl', w') ->
  ready (kept others (pool cl')) w' /\ (exists last', coherent r last' (cluster w')) /\ stored r k v (cluster w').
Proof.
  intros Hwf Hrd Hco E. unfold client_put in E. destruct (execute _ _ _ _ _ _ _) as [[resp cl1] w1] eqn:Ee.
  injection E as Es <- <-. destruct resp as [a|]; [|done]. apply bool_decide_eq_true in Es.
  eapply (execute_delivers now fetch fetch_apart (mkRequest Put k v) Hwf others
    (fun nodes => exists last', coherent r last' nodes)
    (fun a nodes => (exists last', coherent r last' nodes) /\ (resp_status a = Ok -> stored r k v nodes)))
    in Ee as [Hrd' [Hc Hst]]; [by auto| |done|done|by eauto].
  intros nodes x b nodes' (last' & Hco') Hx Hd.
  destruct (told_executed r Hr (OpPut k v) last' nodes x b nodes' Hwf Hco' Hx Hd) as (H1 & _ & H3).
  split_and!; [by eauto|by eauto| |done]. intros Hok.
  refine (coherent_put r Hr last' nodes x k v b nodes' Hco' Hx _ Hd Hok). destruct Hwf as (_ & ? & ?). simpl in *. lia.
Qed.

Lemma stored_read others k v (cl : Client C) w last resp cl' w' :
  Request_wf (mkRequest Get k []) -> ready (kept others (pool cl)) w -> coherent r last (cluster w) ->
  stored r k v (cluster w) ->
  execute now fetch Get k [] cl w = (Some resp, cl', w') -> resp = mkResponse Ok v.
Proof.
  intros Hwf Hrd Hco Hst E.
  eapply (execute_delivers now fetch fetch_apart (mkRequest Get k []) Hwf others
    (fun nodes => (exists last', coherent r last' nodes) /\ stored r k v nodes)
    (fun a nodes => a = mkResponse Ok v)) in E as [_ Ha]; [done| |done|done|by eauto].
  intros nodes x b nodes' [(last' & Hco') Hs] Hx Hd.
  destruct (told_executed r Hr (OpGet k) last' nodes x b nodes' Hwf Hco' Hx Hd) as (H1 & _ & H3).
  destruct (coherent_get_stored r Hr last' nodes x k v b nodes' Hco' Hx Hs Hd) as [-> Hs']. split_and!; eauto.
Qed.

End Coherent.

(** ** A network *)

#[local] Existing Instance LocalStore.LocalStore_KVStore.
#[local] Existing Instance LocalStore.LocalStore_laws.

(** Nodes found by host; the calls fail as the list says. *)
Record net := mkNet {
  net_nodes : gmap NodeId (node LocalStore.LocalStore);
  net_conns : gmap nat (NodeId * list Response);
  net_faults : list bool
}.

Definition net_fails (w : net) : bool := default false (head (net_faults w)).
Definition net_next (w : net) : net := mkNet (net_nodes w) (net_conns w) (tail (net_faults w)).
Definition set_conns (w : net) cs : net := mkNet (net_nodes w) cs (net_faults w).

#[local] Instance net_transport : Transport net nat := {
  tr_connect := fun w hostname _ =>
    match head (filter (fun x => host x = hostname) (map_to_list (net_nodes w)).*1) with
    | Some x =>
        if net_fails w then (None, net_next w) else
        let fd := fresh (dom (net_conns w)) in
        (Some fd, net_next (set_conns w (<[fd := (x, [])]> (net_conns w))))
    | None => (None, net_next w)
    end;
  tr_close := fun w fd => set_conns w (delete fd (net_conns w));
  tr_send := fun w fd req =>
    match net_conns w !! fd with
    | Some (x, queue) =>
        if net_fails w then (false, net_next w) else
        match deliver (size (net_nodes w)) (net_nodes w) x req with
        | Some (resp, nodes) =>
            (true, net_next (mkNet nodes (<[fd := (x, queue ++ [resp])]> (net_conns w)) (net_faults w)))
        | None => (true, net_next w)
        end
    | None => (false, net_next w)
    end;
  tr_recv := fun w fd =>
    match net_conns w !! fd with
    | Some (x, resp :: rest) =>
        if net_fails w then (None, net_next w)
        else (Some resp, net_next (set_conns w (<[fd := (x, rest)]> (net_conns w))))
    | _ => (None, net_next w)
    end
}.

#[local] Program Instance net_cluster : ClusterNet net nat LocalStore.LocalStore := {
  cluster := net_nodes;
  conns := net_conns
}.
Next Obligation.
  intros w hostname port. cbn. destruct (head _) as [x|] eqn:E; [|done]. destruct (net_fails w); [done|]. cbn.
  split; [done|]. split; [apply not_elem_of_dom, is_fresh|]. exists x. split; [|done].
  apply head_Some in E as [l' E]. assert (x ∈ filter (fun x => host x = hostname) (map_to_list (net_nodes w)).*1) as Hx
    by (rewrite E; left).
  apply list_elem_of_filter in Hx as [_ ([y nd] & -> & Hy%elem_of_map_to_list)%list_elem_of_fmap]. by exists nd.
Qed.
Next Obligation. done. Qed.
Next Obligation.
  intros w fd req x queue _ Hfd. cbn in *. rewrite Hfd.
  assert (<[fd := (x, queue ++ [])]> (net_conns w) = net_conns w) as E by (by rewrite app_nil_r, insert_id).
  destruct (net_fails w); [exists []; split; [constructor|done]|].
  destruct (deliver _ _ _ _) as [[resp nodes]|] eqn:Ed; [|exists []; split; [constructor|done]].
  exists [resp]. split; [by apply effect_answered|done].
Qed.
Next Obligation.
  intros w fd x queue Hfd. cbn in *. rewrite Hfd. destruct queue as [|resp rest]; [done|].
  destruct (net_fails w); [done|]. cbn. split; [done|]. by exists rest.
Qed.

(** Two clients that know two nodes; the response to the first request is lost. *)
Definition demo_clients : list (Client nat) :=
  let cl := set_topo (Client_new (default_config (lit "10.0.0.1")))
    (set_nodes [mkEndpoint (host id_a) 7946 11211; mkEndpoint (host id_b) 7946 11211]) in [cl; cl].
Definition demo_faulty : net := mkNet demo_agreed ∅ [false; false; true].
Definition no_fetch (w : net) (_ : bytes) (_ : Z) : option (list NodeEndpoint) * net := (None, w).

Definition demo_ops : list (nat * client_op) :=
  [(0%nat, OpPut (lit "k") (lit "v")); (1%nat, OpGet (lit "k"))].

(** The write is sent again to the next node, and the other client reads it. *)
Example demo_history :
  (run_clients (fun _ => 0) no_fetch demo_clients demo_faulty demo_ops).1.1
    = [EvPut (lit "k") (lit "v") true; EvGet (lit "k") (Some (lit "v"))].
Proof. vm_compute. reflexivity. Qed.

