(* ===== verification/NodeProcess.v ===== *)
(** * The process of a node ([src/src/main.cpp]; the constructors and destructors
    of [src/src/io/io_uring_context.cpp], [src/src/io/tcp_listener.cpp],
    [src/src/io/udp_socket.cpp], [src/src/storage/slab_allocator.cpp])

    [Main] has the state a node computes with.  Here is what its process takes
    from the system: [main] constructs its objects one after another, each of
    which may throw, serves until it is stopped, and destroys them in reverse
    order. *)

From stdpp Require Import relations.
From S2P Require Import Prelude NodeInfo.
From S2P Require Import SwimProtocol Node Main.
From S2P Require SlabAllocator LocalStore BufferPool IoUring Socket.

Local Open Scope Z_scope.

(** ** The process *)

(** What the system answers to the constructors. *)
Record kernel := mkKernel {
  queue_init : Z;                       (* io_uring_queue_init_params *)
  eventfd : Z;
  alloc_region : option Z;              (* aligned_alloc *)
  register_ret : Z;                     (* io_uring_register_buffers *)
  mmap : Z -> bool -> option Z;
  udp_socket : Z;
  udp_bind : bool;
  tcp_socket : Z;
  tcp_bind : bool;
  tcp_listen : bool
}.

(** [sockets] has the objects with a descriptor, and as [Socket.raw] the
    descriptors that are plain numbers in coroutine frames; [peers] are those that
    the [PeerClient] keeps. *)
Record proc := mkProc {
  sockets : Socket.world;
  peers : list Z;
  rings_up : nat;
  regions : gset Z;
  registered : bool;
  mappings : gset Z;
  g_ctx : option nat;                   (* the context the signal handler uses *)
  contexts : gmap nat IoUring.context   (* the living ones *)
}.

Definition proc_new : proc := mkProc Socket.start_world [] 0 ∅ false ∅ None ∅.

Definition set_sockets (p : proc) (w : Socket.world) : proc :=
  mkProc w (peers p) (rings_up p) (regions p) (registered p) (mappings p) (g_ctx p) (contexts p).
Definition set_peers (p : proc) (l : list Z) : proc :=
  mkProc (sockets p) l (rings_up p) (regions p) (registered p) (mappings p) (g_ctx p) (contexts p).
Definition set_rings_up (p : proc) (n : nat) : proc :=
  mkProc (sockets p) (peers p) n (regions p) (registered p) (mappings p) (g_ctx p) (contexts p).
Definition set_memory (p : proc) (r : gset Z) (b : bool) (m : gset Z) : proc :=
  mkProc (sockets p) (peers p) (rings_up p) r b m (g_ctx p) (contexts p).
Definition set_contexts (p : proc) (g : option nat) (c : gmap nat IoUring.context) : proc :=
  mkProc (sockets p) (peers p) (rings_up p) (regions p) (registered p) (mappings p) g c.

(** The addresses of the objects of [main] that own a descriptor. *)
Definition ctx_at : nat := 0.
Definition gossip_at : nat := 1.
Definition listener_at : nat := 2.

(** ** The event loop's context *)

Section Context_.
Context (k : kernel).

(** [IoUringContext::IoUringContext]: the ring, then the event descriptor;
    without the latter the ring is given back.  [None] is the exception. *)
Definition context_construct (queue_depth : nat) (p : proc) : option Z * proc :=
  if decide (queue_init k < 0) then (None, p) else
  let p := set_rings_up p (S (rings_up p)) in
  if decide (eventfd k < 0) then (None, set_rings_up p (pred (rings_up p))) else
  let w := sockets p in
  let w := Socket.construct (Socket.mkWorld (Socket.objects w) (Socket.sys_open (eventfd k) (Socket.fds w)) (Socket.raw w))
             ctx_at (eventfd k) in
  (Some (eventfd k),
   set_contexts (set_sockets p w) (g_ctx p) (<[ctx_at := IoUring.context_new queue_depth]> (contexts p))).

(** [IoUringContext::~IoUringContext]. *)
Definition context_destroy (p : proc) : proc :=
  let p := set_sockets p (Socket.destroy (sockets p) ctx_at) in
  let p := set_rings_up p (pred (rings_up p)) in
  set_contexts p (g_ctx p) (delete ctx_at (contexts p)).

(** [signal_handler]; [None] when it uses a context that is gone. *)
Definition signal_handler (p : proc) : option proc :=
  match g_ctx p with
  | None => Some p
  | Some a => c ← contexts p !! a; Some (set_contexts p (g_ctx p) (<[a := IoUring.stop c]> (contexts p)))
  end.

(** ** Memory *)

Definition aligned_alloc (p : proc) (_ : Z) : option Z * proc :=
  match alloc_region k with
  | Some a => (Some a, set_memory p ({[a]} ∪ regions p) (registered p) (mappings p))
  | None => (None, p)
  end.
Definition free (p : proc) (a : Z) : proc := set_memory p (regions p ∖ {[a]}) (registered p) (mappings p).
Definition register_buffers (p : proc) (_ : list BufferPool.iovec) : Z * proc :=
  (register_ret k, if decide (register_ret k < 0) then p else set_memory p (regions p) true (mappings p)).
Definition unregister_buffers (p : proc) : proc := set_memory p (regions p) false (mappings p).

Definition pool_construct : proc -> Z -> Z -> option BufferPool.BufferPool * proc :=
  BufferPool.construct aligned_alloc free register_buffers.
Definition pool_destroy : proc -> BufferPool.BufferPool -> proc :=
  BufferPool.BufferPool_destroy free unregister_buffers.

(** [Arena::Arena] and [Arena::~Arena]. *)
Definition arena_construct (capacity : Z) (p : proc) : (SlabAllocator.exn + SlabAllocator.Arena) * proc :=
  match SlabAllocator.Arena_new (mmap k) capacity with
  | inl e => (inl e, p)
  | inr a => (inr a, set_memory p (regions p) (registered p) ({[SlabAllocator.base_ a]} ∪ mappings p))
  end.
Definition arena_destroy (p : proc) (a : SlabAllocator.Arena) : proc :=
  if decide (SlabAllocator.base_ a = 0) then p
  else set_memory p (regions p) (registered p) (mappings p ∖ {[SlabAllocator.base_ a]}).
End Context_.

(** ** The listener *)

(** A completed accept: a descriptor that nobody owns yet. *)
Definition kernel_accept (w : Socket.world) (fd : Z) : Socket.world :=
  Socket.mkWorld (Socket.objects w) (Socket.sys_open fd (Socket.fds w)) ({[fd]} ∪ Socket.raw w).

(** [TcpListener::handle_accept]: the callback gets a connection, at [q], that is
    destroyed when it returns. *)
Definition handle_accept (on_accept_ : option (Socket.world -> nat -> Socket.world)) (w : Socket.world)
    (q : nat) (fd : Z) : Socket.world :=
  match on_accept_ with
  | Some on_accept =>
      let w := Socket.construct (Socket.mkWorld (Socket.objects w) (Socket.fds w) (Socket.raw w ∖ {[fd]})) q fd in
      Socket.destroy (on_accept w q) q
  | None => w
  end.

(** [TcpListener::submit_accept], for the completion at address [a] with callback
    [cb], on the living context. *)
Definition arm_accept (a cb : nat) (listen_fd : Z) (p : proc) : option proc :=
  c ← contexts p !! ctx_at;
  c ← IoUring.submit_accept c a cb (Z.to_nat listen_fd);
  Some (set_contexts p (g_ctx p) (<[ctx_at := c]> (contexts p))).

(** Its callback: a failed accept is dropped, and the next one is armed either
    way. *)
Definition accept_cb (on_accept_ : option (Socket.world -> nat -> Socket.world)) (a cb : nat) (listen_fd : Z)
    (q : nat) (res : Z) (p : proc) : option proc :=
  let p := if decide (0 <= res) then set_sockets p (handle_accept on_accept_ (sockets p) q res) else p in
  arm_accept a cb listen_fd p.

(** The callback of [main]: the coroutine that serves the connection takes the
    descriptor. *)
Definition main_on_accept (w : Socket.world) (q : nat) : Socket.world := Socket.release w q.

(** ** The gossip port *)

(** Network byte order, on a little-endian machine. *)
Definition htons (z : Z) : Z := le_decode (rev (le_encode 2 z)).
Definition ntohs (z : Z) : Z := le_decode (rev (le_encode 2 z)).

(** [UdpSocket::port], from the [sin_port] that [getsockname] fills in; without
    it the address is all zero. *)
Definition udp_port (getsockname : Z -> option Z) (fd_ : Z) : Z := ntohs (default 0 (getsockname fd_)).

Lemma ntohs_htons z : in_width 16 z -> ntohs (htons z) = z.
Proof.
  intros Hz. unfold ntohs, htons. rewrite le_encode_decode by (by rewrite length_rev, length_le_encode).
  rewrite rev_involutive, le_decode_encode. by apply wrap_small.
Qed.

(** A socket that was bound to a port has that port. *)
Lemma udp_port_bound getsockname fd port :
  getsockname fd = Some (htons port) -> in_width 16 port -> udp_port getsockname fd = port.
Proof. intros Hg Hp. unfold udp_port. rewrite Hg. by apply ntohs_htons. Qed.

(** ** main *)

(** Where [main] threw. *)
Inductive stage := AtArgs | AtContext | AtPool | AtStore | AtSeed | AtGossip | AtListener.

Record node_objects := mkObjects {
  no_pool : BufferPool.BufferPool;
  no_arena : SlabAllocator.Arena;
  no_start : NodeId * Config * NodeSt
}.

Section Process.
Context (getenv : bytes -> option bytes) (is_address : bytes -> bool) (resolve : bytes -> option bytes).
Context (k : kernel).

(** [UdpSocket] and [TcpListener] at their addresses. *)
Definition gossip_construct (p : proc) : option Z * proc :=
  let r := Socket.open_udp (udp_socket k) (udp_bind k) (Socket.fds (sockets p)) in
  (r.1, set_sockets p (Socket.construct_opened (sockets p) gossip_at r)).

Definition listener_construct (p : proc) : option Z * proc :=
  let r := Socket.open_listener (tcp_socket k) (tcp_bind k) (tcp_listen k) (Socket.fds (sockets p)) in
  (r.1, set_sockets p (Socket.construct_opened (sockets p) listener_at r)).

(** Their destructors. *)
Definition gossip_destroy (p : proc) : proc := set_sockets p (Socket.destroy (sockets p) gossip_at).
Definition listener_destroy (p : proc) : proc := set_sockets p (Socket.destroy (sockets p) listener_at).

(** [TcpListener::start]; the callback it keeps is the argument of [accept_cb]. *)
Definition listener_start (a cb : nat) (listen_fd : Z) (p : proc) : option proc := arm_accept a cb listen_fd p.

(** [main] up to [ctx.run()].  The members, the ring and the protocol take
    nothing from the system. *)
Definition node_setup (argv : list bytes) (now : Z) (p : proc) : (stage + node_objects) * proc :=
  match node_args getenv is_address resolve argv with
  | None => (inl AtArgs, p)
  | Some a =>
  let '(ctx, p) := context_construct k 1024 p in
  match ctx with
  | None => (inl AtContext, p)
  | Some _ =>
  let p := set_contexts p (Some ctx_at) (contexts p) in
  let '(pool, p) := pool_construct k p 65536 64 in
  match pool with
  | None => (inl AtPool, p)
  | Some pool =>
  let '(arena, p) := arena_construct k (u64 (u64 (arg_memory_mb a * 1024) * 1024)) p in
  match arena with
  | inl _ => (inl AtStore, p)
  | inr arena =>
  match seed_node is_address resolve a with
  | None => (inl AtSeed, p)
  | Some seed =>
  let self := mkNodeId (arg_host a) (arg_gossip_port a) in
  let st := boot now self (arg_data_port a) seed in
  let '(gossip_sock, p) := gossip_construct p in
  match gossip_sock with
  | None => (inl AtGossip, p)
  | Some _ =>
  let '(listener, p) := listener_construct p in
  match listener with
  | None => (inl AtListener, p)
  | Some listen_fd =>
      let p := default p (listener_start 0 0 listen_fd p) in
      (inr (mkObjects pool arena (self, node_config (arg_data_port a), st)), p)
  end end end end end end end.

(** The end of [main]: the destructors of the listener, of the coordinator with
    its [PeerClient], of the gossip socket, the store, the pool and the context. *)
Definition close_peers (p : proc) : proc :=
  set_peers (set_sockets p (foldl (fun w fd =>
    Socket.mkWorld (Socket.objects w) (Socket.sys_close fd (Socket.fds w)) (Socket.raw w ∖ {[fd]}))
    (sockets p) (peers p))) [].

Definition node_shutdown (o : node_objects) (p : proc) : proc :=
  let p := listener_destroy p in
  let p := close_peers p in
  let p := gossip_destroy p in
  let p := arena_destroy p (no_arena o) in
  let p := pool_destroy p (no_pool o) in
  context_destroy p.
End Process.

(** ** Serving *)

(** What the event loop does to the descriptors: connections are accepted and
    closed by their coroutines, accepts fail, peers are connected to, parked with
    the [PeerClient] and taken again; signals arrive. *)
Inductive serve_step : proc -> proc -> Prop :=
  | sv_accept p p' a cb listen_fd q fd :
      Socket.objects (sockets p) !! listener_at = Some listen_fd ->
      Socket.objects (sockets p) !! q = None -> 0 <= fd -> fd ∉ Socket.opened (Socket.fds (sockets p)) ->
      accept_cb (Some main_on_accept) a cb listen_fd q fd (set_sockets p (kernel_accept (sockets p) fd)) = Some p' ->
      serve_step p p'
  | sv_accept_failed p p' a cb listen_fd q res :
      Socket.objects (sockets p) !! listener_at = Some listen_fd -> res < 0 ->
      accept_cb (Some main_on_accept) a cb listen_fd q res p = Some p' -> serve_step p p'
  | sv_connect p fd :
      0 <= fd -> fd ∉ Socket.opened (Socket.fds (sockets p)) ->
      serve_step p (set_sockets p (kernel_accept (sockets p) fd))
  | sv_close p fd :
      fd ∈ Socket.raw (sockets p) -> fd ∉ peers p ->
      serve_step p (set_sockets p (Socket.mkWorld (Socket.objects (sockets p))
        (Socket.sys_close fd (Socket.fds (sockets p))) (Socket.raw (sockets p) ∖ {[fd]})))
  | sv_park p fd : fd ∈ Socket.raw (sockets p) -> fd ∉ peers p -> serve_step p (set_peers p (peers p ++ [fd]))
  | sv_take p l1 l2 fd : peers p = l1 ++ fd :: l2 -> serve_step p (set_peers p (l1 ++ l2))
  | sv_signal p p' : signal_handler p = Some p' -> serve_step p p'.

(** ** What the process holds *)

(** The system's promises: an open descriptor is not handed out again, and a
    mapping is not at the null address. *)
Record kernel_ok (k : kernel) : Prop := {
  ko_udp : udp_socket k <> eventfd k;
  ko_tcp : tcp_socket k <> eventfd k /\ tcp_socket k <> udp_socket k;
  ko_mmap n huge a : mmap k n huge = Some a -> a <> 0
}.

(** After the constructors, and while the node serves: the descriptors are those
    of the three objects, and the plain numbers, each in one place. *)
Record serving (k : kernel) (o : node_objects) (p : proc) : Prop := {
  sv_objects : Socket.objects (sockets p) =
    <[listener_at := tcp_socket k]> (<[gossip_at := udp_socket k]> {[ctx_at := eventfd k]});
  sv_fds : 0 <= eventfd k /\ 0 <= udp_socket k /\ 0 <= tcp_socket k;
  sv_opened : Socket.opened (Socket.fds (sockets p)) =
    {[eventfd k; udp_socket k; tcp_socket k]} ∪ Socket.raw (sockets p);
  sv_raw fd : fd ∈ Socket.raw (sockets p) -> fd <> eventfd k /\ fd <> udp_socket k /\ fd <> tcp_socket k;
  sv_good : Socket.bad_closes (Socket.fds (sockets p)) = [];
  sv_peers : NoDup (peers p) /\ forall fd, fd ∈ peers p -> fd ∈ Socket.raw (sockets p);
  sv_memory : rings_up p = 1%nat /\ regions p = {[BufferPool.region_ (no_pool o)]} /\ registered p = true /\
    mappings p = {[SlabAllocator.base_ (no_arena o)]} /\ SlabAllocator.base_ (no_arena o) <> 0;
  sv_context : g_ctx p = Some ctx_at /\ is_Some (contexts p !! ctx_at)
}.

(** What a constructor that throws finds, and leaves. *)
Definition descriptors_at (k : kernel) (s : stage) : gset Z :=
  match s with
  | AtArgs | AtContext => ∅
  | AtPool | AtStore | AtSeed | AtGossip => {[eventfd k]}
  | AtListener => {[eventfd k; udp_socket k]}
  end.
Definition rings_at (s : stage) : nat := match s with AtArgs | AtContext => 0 | _ => 1 end.
Definition registered_at (s : stage) : bool := match s with AtArgs | AtContext | AtPool => false | _ => true end.

Section Setup.
Context (k : kernel) (Hk : kernel_ok k).

Lemma pool_construct_ok p :
  regions p = ∅ -> registered p = false ->
  let '(r, p') := pool_construct k p 65536 64 in
  sockets p' = sockets p /\ peers p' = peers p /\ rings_up p' = rings_up p /\ mappings p' = mappings p /\
  g_ctx p' = g_ctx p /\ contexts p' = contexts p /\
  match r with
  | Some b => regions p' = {[BufferPool.region_ b]} /\ registered p' = true
  | None => regions p' = ∅ /\ registered p' = false
  end.
Proof.
  intros Hr Hb. unfold pool_construct, BufferPool.construct, aligned_alloc. cbv zeta.
  destruct (alloc_region k) as [a|]; [|done]. unfold register_buffers. case_decide.
  - cbn. split_and!; try done. rewrite Hr. set_solver.
  - cbn. split_and!; try done. rewrite Hr. set_solver.
Qed.

Lemma arena_construct_ok n p :
  mappings p = ∅ ->
  let '(r, p') := arena_construct k n p in
  sockets p' = sockets p /\ peers p' = peers p /\ rings_up p' = rings_up p /\ regions p' = regions p /\
  registered p' = registered p /\ g_ctx p' = g_ctx p /\ contexts p' = contexts p /\
  match r with
  | inr a => mappings p' = {[SlabAllocator.base_ a]} /\ SlabAllocator.base_ a <> 0
  | inl _ => mappings p' = ∅
  end.
Proof.
  intros Hm. unfold arena_construct, SlabAllocator.Arena_new. case_decide; [done|].
  destruct (mmap k n true) as [a|] eqn:E1; [|destruct (mmap k n false) as [a|] eqn:E2; [|done]]; cbn;
    (split_and!; try done; [rewrite Hm; set_solver|by eapply (ko_mmap _ Hk)]).
Qed.

(** An opening constructor, at an address, on a table that does not have the
    descriptor. *)
Definition opens (fd : Z) (at_ : nat) (w : Socket.world) (r : option Z) (w' : Socket.world) : Prop :=
  match r with
  | None => w' = w
  | Some fd' => fd' = fd /\ 0 <= fd /\
      w' = Socket.mkWorld (<[at_ := fd]> (Socket.objects w)) (Socket.sys_open fd (Socket.fds w)) (Socket.raw w)
  end.

Lemma gossip_construct_ok p :
  udp_socket k ∉ Socket.opened (Socket.fds (sockets p)) ->
  exists r w', gossip_construct k p = (r, set_sockets p w') /\ opens (udp_socket k) gossip_at (sockets p) r w'.
Proof.
  intros Hn. unfold gossip_construct, Socket.open_udp. destruct (sockets p) as [ob t ra]. cbn in *.
  case_decide; [by eexists _, _|]. destruct (udp_bind k); [|by rewrite Socket.open_close; [eexists _, _|]].
  eexists _, _. split; [done|]. cbn. split_and!; [done|lia|done].
Qed.

Lemma listener_construct_ok p :
  tcp_socket k ∉ Socket.opened (Socket.fds (sockets p)) ->
  exists r w', listener_construct k p = (r, set_sockets p w') /\ opens (tcp_socket k) listener_at (sockets p) r w'.
Proof.
  intros Hn. unfold listener_construct, Socket.open_listener. destruct (sockets p) as [ob t ra]. cbn in *.
  case_decide; [by eexists _, _|].
  destruct (tcp_bind k), (tcp_listen k); cbn [negb]; try (by rewrite Socket.open_close; [eexists _, _|]).
  eexists _, _. split; [done|]. cbn. split_and!; [done|lia|done].
Qed.

(** The listener's accept is armed. *)
Lemma listener_start_ok a cb fd p q :
  contexts p !! ctx_at = Some (IoUring.context_new (S q)) ->
  exists c, listener_start a cb fd p = Some (set_contexts p (g_ctx p) (<[ctx_at := c]> (contexts p))).
Proof.
  intros Hc. unfold listener_start, arm_accept. rewrite Hc. cbn [mbind option_bind]. unfold IoUring.submit_accept.
  destruct (IoUring.get_sqe_room (IoUring.ring_ (IoUring.context_new (S q)))
    (IoUring.mkSqe (IoUring.OpAccept (Z.to_nat fd)) (Some a))) as (r & -> & _); [cbn; lia|].
  cbn [mbind option_bind]. by eexists.
Qed.

Lemma node_setup_ok getenv is_address resolve argv now :
  let '(r, p) := node_setup getenv is_address resolve k argv now proc_new in
  match r with
  | inl s => Socket.opened (Socket.fds (sockets p)) = descriptors_at k s /\ Socket.raw (sockets p) = ∅ /\
      Socket.bad_closes (Socket.fds (sockets p)) = [] /\
      rings_up p = rings_at s /\ registered p = registered_at s /\ (registered_at s = false -> regions p = ∅)
  | inr o => serving k o p /\ Socket.raw (sockets p) = ∅ /\ peers p = []
  end.
Proof.
  unfold node_setup. destruct (node_args _ _ _ _) as [a|]; [|done].
  unfold context_construct. destruct (decide (queue_init k < 0)); [done|]. destruct (decide (eventfd k < 0)); [done|].
  cbv zeta. match goal with |- context [pool_construct k ?q _ _] => set (p1 := q) end.
  pose proof (pool_construct_ok p1 eq_refl eq_refl) as Hp.
  destruct (pool_construct k p1 65536 64) as [[b|] p2]; destruct Hp as (Hs & Hpe & Hri & Hma & Hg & Hco & Hre & Hrg).
  2:{ rewrite Hs, Hri, Hre, Hrg. cbn. split_and!; (done || set_solver). }
  pose proof (arena_construct_ok (u64 (u64 (arg_memory_mb a * 1024) * 1024)) p2 Hma) as Ha.
  destruct (arena_construct k _ p2) as [[ex|ar] p3]; destruct Ha as (Hs3 & Hpe3 & Hri3 & Hre3 & Hrg3 & Hg3 & Hco3 & Hm3).
  { rewrite Hs3, Hri3, Hrg3, Hrg, Hs, Hri. cbn. split_and!; (done || set_solver). }
  rewrite Hs in Hs3. rewrite Hri in Hri3. rewrite Hrg in Hrg3. rewrite Hco in Hco3. rewrite Hg in Hg3. rewrite Hpe in Hpe3.
  rewrite Hre in Hre3. destruct (seed_node _ _ _) as [seed|].
  2:{ rewrite Hs3, Hri3, Hrg3. cbn. split_and!; (done || set_solver). }
  destruct (gossip_construct_ok p3) as (r4 & w4 & -> & Ho4).
  { rewrite Hs3. cbn. pose proof (ko_udp _ Hk). set_solver. }
  destruct r4 as [fd4|]; cbn [opens] in Ho4.
  2:{ cbn. rewrite Ho4, Hs3, Hri3, Hrg3. cbn. split_and!; (done || set_solver). }
  destruct Ho4 as (-> & Hu0 & ->).
  destruct (listener_construct_ok (set_sockets p3 (Socket.mkWorld (<[gossip_at:=udp_socket k]> (Socket.objects (sockets p3)))
    (Socket.sys_open (udp_socket k) (Socket.fds (sockets p3))) (Socket.raw (sockets p3))))) as (r5 & w5 & -> & Ho5).
  { cbn. rewrite Hs3. cbn. pose proof (ko_tcp _ Hk) as [? ?]. set_solver. }
  destruct r5 as [fd5|]; cbn [opens] in Ho5.
  2:{ cbn. rewrite Ho5. cbn. rewrite Hs3, Hri3, Hrg3. cbn. split_and!; (done || set_solver). }
  destruct Ho5 as (-> & Ht0 & ->). cbn [sockets set_sockets Socket.objects Socket.fds Socket.raw].
  match goal with |- context [listener_start 0 0 _ ?q] => destruct (listener_start_ok 0 0 (tcp_socket k) q 1023) as (c & ->) end.
  { cbn. rewrite Hco3. cbn. apply lookup_insert_eq. }
  cbn [default from_option]. destruct Hm3 as [Hm3 Hb0]. split; [|cbn; rewrite Hs3, Hpe3; done].
  split; cbn; rewrite ?Hs3; cbn; try done; try lia.
  - set_solver.
  - by rewrite Hpe3; split; [apply NoDup_nil_2|intros fd Hfd%elem_of_nil].
  - rewrite Hg3. split; [done|]. rewrite lookup_insert_eq. by eexists.
Qed.
End Setup.

(** The node it starts is the one of [Main]. *)
Lemma node_setup_start getenv is_address resolve k argv now p o p' :
  node_setup getenv is_address resolve k argv now p = (inr o, p') ->
  node_start getenv is_address resolve argv now = Some (no_start o).
Proof.
  unfold node_setup, node_start. destruct (node_args _ _ _ _) as [a|]; [|done]. cbn [mbind option_bind].
  destruct (context_construct _ _ _) as [[?|] ?]; [|done]. destruct (pool_construct _ _ _ _) as [[?|] ?]; [|done].
  destruct (arena_construct _ _ _) as [[?|?] ?]; [done|]. destruct (seed_node _ _ _) as [seed|]; [|done].
  destruct (gossip_construct _ _) as [[?|] ?]; [|done]. destruct (listener_construct _ _) as [[?|] ?]; [|done].
  by intros [= <- _].
Qed.

(** ** Serving and shutting down *)

Section Serving.
Context (k : kernel) (Hk : kernel_ok k) (o : node_objects).

(** Accepting a connection for [main]: its coroutine has the descriptor. *)
Lemma accept_main w q fd :
  Socket.objects w !! q = None -> 0 <= fd ->
  handle_accept (Some main_on_accept) (kernel_accept w fd) q fd = kernel_accept w fd.
Proof.
  intros Hq Hfd. cbn [handle_accept].
  unfold main_on_accept, Socket.release, Socket.construct. cbn [Socket.objects Socket.fds Socket.raw kernel_accept].
  rewrite lookup_insert_eq, decide_True by done.
  unfold Socket.destroy, Socket.close_object. cbn [Socket.objects]. rewrite lookup_insert_eq.
  unfold Socket.close. rewrite decide_False by lia. cbn. unfold kernel_accept. f_equal.
  - rewrite !insert_insert_eq. by apply delete_insert_id.
  - apply set_eq. intros x. destruct (decide (x = fd)); set_solver.
Qed.

Lemma serving_new_fd p fd :
  serving k o p -> fd ∉ Socket.opened (Socket.fds (sockets p)) -> serving k o (set_sockets p (kernel_accept (sockets p) fd)).
Proof.
  intros [Hob Hf Hop Hra Hb [Hnd Hsub] Hm Hc] Hn. rewrite Hop in Hn. split; cbn; try done.
  - rewrite Hop. set_solver.
  - intros fd' [->%elem_of_singleton|Hin]%elem_of_union; [|by apply Hra]. set_solver.
  - split; [done|]. intros fd' Hin. apply elem_of_union_r. by apply Hsub.
Qed.

(** A plain descriptor is closed. *)
Lemma serving_close_fd p fd :
  serving k o p -> fd ∈ Socket.raw (sockets p) -> fd ∉ peers p ->
  serving k o (set_sockets p (Socket.mkWorld (Socket.objects (sockets p))
    (Socket.sys_close fd (Socket.fds (sockets p))) (Socket.raw (sockets p) ∖ {[fd]}))).
Proof.
  intros [Hob Hf Hop Hra Hb [Hnd Hsub] Hm Hc] Hin Hnp. pose proof (Hra _ Hin) as (? & ? & ?).
  rewrite Socket.close_open by (rewrite Hop; set_solver). split; cbn; try done.
  - rewrite Hop. set_solver.
  - intros fd' [Hin' _]%elem_of_difference. by apply Hra.
  - split; [done|]. intros fd' Hin'. apply elem_of_difference. split; [by apply Hsub|]. set_solver.
Qed.

Lemma serving_peers p l :
  serving k o p -> NoDup l -> (forall fd, fd ∈ l -> fd ∈ Socket.raw (sockets p)) -> serving k o (set_peers p l).
Proof. intros [Hob Hf Hop Hra Hb _ Hm Hc] Hnd Hsub. by split. Qed.

Lemma serving_arm a cb listen_fd p p' : arm_accept a cb listen_fd p = Some p' -> serving k o p -> serving k o p'.
Proof.
  unfold arm_accept. intros E Hs. destruct (sv_context _ _ _ Hs) as [Hg [c Hc]]. rewrite Hc in E. cbn [mbind option_bind] in E.
  destruct (IoUring.submit_accept _ _ _ _) as [c'|]; [|done]. injection E as <-.
  destruct Hs as [Hob Hf Hop Hra Hb Hp Hm _]. split; cbn; try done.
  split; [done|]. rewrite lookup_insert_eq. by eexists.
Qed.

Lemma serve_step_serving p p' : serve_step p p' -> serving k o p -> serving k o p'.
Proof.
  destruct 1 as [p p' a cb lfd q fd _ Hq Hfd Hn E|p p' a cb lfd q res _ Hres E|p fd Hfd Hn|p fd Hin Hnp|p fd Hin Hnp|p l1 l2 fd El|p p' Es]; intros Hs.
  - unfold accept_cb in E. rewrite decide_True in E by done. cbn [sockets set_sockets] in E.
    rewrite accept_main in E by done. apply (serving_arm _ _ _ _ _ E). exact (serving_new_fd p fd Hs Hn).
  - unfold accept_cb in E. rewrite decide_False in E by lia. by apply (serving_arm _ _ _ _ _ E).
  - by apply serving_new_fd.
  - by apply serving_close_fd.
  - destruct (sv_peers _ _ _ Hs) as [Hnd Hsub]. apply serving_peers; [done|..].
    + apply NoDup_app. split_and!; [done| |apply NoDup_singleton]. set_solver.
    + intros fd' [?| ->%list_elem_of_singleton]%elem_of_app; [by apply Hsub|done].
  - destruct (sv_peers _ _ _ Hs) as [Hnd Hsub]. rewrite El in Hnd, Hsub. apply serving_peers; [done|..].
    + rewrite <- Permutation_middle in Hnd. by apply NoDup_cons in Hnd as [_ ?].
    + intros fd' Hin. apply Hsub. rewrite elem_of_app, elem_of_cons. apply elem_of_app in Hin. tauto.
  - unfold signal_handler in Es. destruct (sv_context _ _ _ Hs) as [Hg [c Hc]]. rewrite Hg, Hc in Es.
    injection Es as <-. destruct Hs as [Hob Hf Hop Hra Hb Hp Hm _]. split; cbn; try done.
    split; [done|]. rewrite lookup_insert_eq. by eexists.
Qed.

Lemma destroy_owner w at_ fd :
  Socket.objects w !! at_ = Some fd -> 0 <= fd -> fd ∈ Socket.opened (Socket.fds w) ->
  Socket.destroy w at_ = Socket.mkWorld (delete at_ (Socket.objects w))
    (Socket.mkTable (Socket.opened (Socket.fds w) ∖ {[fd]}) (Socket.bad_closes (Socket.fds w))) (Socket.raw w).
Proof.
  intros Ho H0 Hop. unfold Socket.destroy, Socket.close_object. rewrite Ho. unfold Socket.close.
  rewrite decide_True by done. rewrite Socket.close_open by done. cbn. f_equal. apply delete_insert_eq.
Qed.

Lemma close_peers_eq p :
  NoDup (peers p) -> (forall fd, fd ∈ peers p -> fd ∈ Socket.opened (Socket.fds (sockets p))) ->
  close_peers p = set_peers (set_sockets p (Socket.mkWorld (Socket.objects (sockets p))
    (Socket.mkTable (Socket.opened (Socket.fds (sockets p)) ∖ list_to_set (peers p))
      (Socket.bad_closes (Socket.fds (sockets p))))
    (Socket.raw (sockets p) ∖ list_to_set (peers p)))) [].
Proof.
  unfold close_peers. intros Hnd Hsub. f_equal. unfold set_sockets at 1. unfold set_sockets. f_equal.
  revert Hnd Hsub. generalize (sockets p) as w. induction (peers p) as [|fd l IH]; intros [ob [op bad] ra] Hnd Hsub; cbn in *.
  { f_equal; [f_equal|]; set_solver. }
  apply NoDup_cons in Hnd as [Hn Hnd]. rewrite Socket.close_open by (cbn; set_solver). cbn.
  rewrite IH; [|done|cbn; set_solver]. cbn. f_equal; [f_equal|]; set_solver.
Qed.

(** The state the destructors leave. *)
Lemma node_shutdown_clean p :
  serving k o p ->
  let p' := node_shutdown o p in
  Socket.objects (sockets p') = ∅ /\
  Socket.opened (Socket.fds (sockets p')) = Socket.raw (sockets p') /\
  Socket.raw (sockets p') = Socket.raw (sockets p) ∖ list_to_set (peers p) /\
  Socket.bad_closes (Socket.fds (sockets p')) = [] /\
  rings_up p' = 0%nat /\ regions p' = ∅ /\ registered p' = false /\ mappings p' = ∅ /\ signal_handler p' = None.
Proof.
  intros [Hob (He & Hu & Ht) Hop Hra Hb [Hnd Hsub] (Hri & Hre & Hrg & Hm & Hb0) [Hg Hc]].
  destruct Hk as [Hue [Hte Htu] _]. unfold node_shutdown, listener_destroy, gossip_destroy. cbv zeta.
  rewrite (destroy_owner (sockets p) listener_at (tcp_socket k));
    [|by rewrite Hob, lookup_insert_eq|done|rewrite Hop; set_solver].
  rewrite close_peers_eq; [|done|cbn; rewrite Hop; intros fd Hin; pose proof (Hsub _ Hin) as Hr;
    pose proof (Hra _ Hr) as (? & ? & ?); set_solver].
  cbn [sockets set_sockets set_peers peers Socket.objects Socket.fds Socket.raw Socket.opened Socket.bad_closes].
  assert (forall fd, fd ∈ (list_to_set (peers p) : gset Z) -> fd <> eventfd k /\ fd <> udp_socket k) as Hp.
  { intros fd Hin%elem_of_list_to_set%Hsub%Hra. tauto. }
  rewrite (destroy_owner _ gossip_at (udp_socket k));
    [|cbn; by rewrite Hob|done|cbn; rewrite Hop; set_solver].
  cbn [sockets set_sockets set_peers peers Socket.objects Socket.fds Socket.raw Socket.opened Socket.bad_closes].
  unfold arena_destroy. rewrite decide_False by done. unfold pool_destroy, BufferPool.BufferPool_destroy, context_destroy.
  cbn [sockets set_sockets set_memory set_peers free unregister_buffers].
  rewrite (destroy_owner _ ctx_at (eventfd k)); [|cbn; by rewrite Hob|done|cbn; rewrite Hop; set_solver].
  cbn. rewrite Hob, Hop, Hb, Hri, Hre, Hm. unfold signal_handler. cbn. rewrite Hg, lookup_delete_eq.
  split_and!; try done; [|set_solver..].
  apply set_eq. intros x. specialize (Hra x). set_solver.
Qed.
End Serving.


(** A system that gives everything; a connection is being served, and a peer is
    parked, when the node is stopped. *)
Definition demo_kernel : kernel := mkKernel 0 3 (Some 4096) 0 (fun _ _ => Some 8192) 4 true 5 true true.

Lemma demo_kernel_ok : kernel_ok demo_kernel.
Proof. split; cbn; [done|done|]. by intros n huge a [= <-]. Qed.

Lemma demo_setup :
  exists o p,
    node_setup (fun _ => None) (fun _ => true) (fun _ => None) demo_kernel [lit "pensieve"] 0 proc_new = (inr o, p) /\
    sockets p = Socket.mkWorld (<[2%nat := 5]> (<[1%nat := 4]> {[0%nat := 3]})) (Socket.mkTable {[3; 4; 5]} []) ∅ /\
    peers p = [].
Proof.
  unfold node_setup. rewrite node_args_default. eexists _, _. split; [reflexivity|]. split; lazy; reflexivity.
Qed.

